(* ===== verification/_CoqProject ===== *)
-Q . S2P
Prelude.v
Status.v
Wire.v
Framing.v
Posix.v
IoLogic.v
Wal.v
Sha256.v
MetadataStore.v
LocalObjectStore.v
StoreRecovery.v
StoreProps.v
StoreLimits.v
RaftStorage.v
RaftNode.v
RaftSpec.v
RaftFacts.v
RaftNet.v
RaftRefine.v
RaftProps.v
Ring.v
ClusterMap.v
FailureDetector.v
LruCache.v
ThreadPool.v
MetadataView.v
MetadataRepository.v
CachingMetadataView.v
RaftMetadata.v
Text.v
StoreThreads.v
StoreView.v
StoreLinear.v
StoreCrash.v
Http.v
HttpServer.v
Metrics.v
Logging.v
Rpc.v
RaftTransport.v
RaftSchedule.v
RaftProgress.v
RaftThreads.v
MetadataRpc.v
ObjectStore.v
MemObjectStore.v
StorageNode.v
Coordinator.v
CoordinatorProps.v
Repairer.v
HttpGateway.v
EndToEnd.v
Tools.v
Doubles.v
Bench.v
ClusterDemo.v
