(* ===== verification/Prelude.v ===== *)
(** * Verification of the distributed object store

    The program is a replicated object store in C++20.  A client sends HTTP
    requests to a gateway; the gateway's coordinator places an object on storage
    nodes with a consistent-hash ring, writes to a quorum of them over gRPC and
    registers where the object lives with a control plane; the control plane is
    one process, or several that replicate their state with Raft; a storage node
    keeps the bytes in files, the metadata in SQLite and the intentions in a
    write-ahead log; a repairer copies objects to a node that has missed them.

    This library translates the sources (paths below are under src/) into
    definitions that run, and proves what makes each part correct, up to what a
    client of the whole is promised.  Names follow the sources; a method
    [Class::Method] is [Method] of the file for that class, with the state as last
    argument and in the result.

    ** Conventions

    This file holds what the others share: bytes and byte strings ([bytes],
    [lit]), unsigned integers as [Z] with every wrap-around written out ([u8],
    [u32], [u64]), iteration of a [std::map] in key order ([in_order]), the
    tactics ([absent], [prop_bool], [case_bool], [compute_pair], [inv]) and the
    hint databases [dos] and [dosrw].  Errors are [Status] and [StatusOr] values
    as in the sources.  Code that is not part of the sources appears as a
    parameter with named laws and an instance that satisfies them: SQLite (class
    [Sqlite]), protobuf's encoding of Raft commands ([serialize], [parse]), gRPC
    (the network of Rpc.v), [double] arithmetic (class [Double]), the operating
    system (Posix.v and the write scripts of Http.v), clocks and random numbers
    (arguments).

    ** The storage engine

    Status.v (common/status.{h,cc}, network/proto_util.h), Wire.v (common/wire.h),
    Framing.v (the framing of consensus/raft_storage.cc), Sha256.v
    (common/sha256.{h,cc}, hash.{h,cc}, digest.{h,cc}), Wal.v
    (storage/wal.{h,cc}), MetadataStore.v (storage/metadata_store.h,
    sqlite_metadata_store.{h,cc}), LocalObjectStore.v
    (storage/local_object_store.{h,cc}).

    Posix.v models the files and the calls on them, IoLogic.v is a program logic
    for them: a script decides how each call ends (success, short write, EINTR,
    error, death of the process), and the theorems hold for every script, that is
    for every pattern of failures and a crash in every call.  A crash is the death of
    the process: what its completed calls wrote stays.  A loss of power, after which
    writes that were not followed by [fsync] may be gone, is not modelled, and
    [fsync] has no effect but its failures.  StoreRecovery.v
    analyses recovery, StoreProps.v has the results: a Put or Delete is atomic
    across crashes, conditional writes compare versions and are idempotent, reads
    return what was committed.  StoreLimits.v has runs in which the store does not
    keep what one would expect of it, each a theorem about a concrete script.

    StoreThreads.v cuts the operations of the store into the steps between which
    another thread may run (each system call, database call and append to the log)
    and puts a pool of threads with the 64 shard locks around them; without
    interleaving the steps are the operations of LocalObjectStore.v.  StoreView.v is
    a thread-modular logic for them: what a thread owns while it holds a lock and
    what the others leave alone.  StoreLinear.v proves that concurrent calls are
    linearizable: their effects and answers are those of the calls one after the
    other, the answer of a [Delete] exactly when no other statement ran between its
    [UPDATE] and its [sqlite3_changes]; the file shows that race too.  StoreCrash.v
    proves that acknowledged writes survive a crash in the middle of concurrent calls,
    whose log records interleave, where no system call fails before the crash.

    ** Raft

    RaftStorage.v (consensus/raft_storage.{h,cc}) proves the durable state atomic.
    RaftNode.v (consensus/raft_node.{h,cc}) has the critical sections of a node,
    RaftNet.v the cluster as a step relation: threads cut where they release the
    mutex, messages lost, duplicated and reordered, nodes restarted at any point.
    RaftSpec.v is the abstract protocol with its safety proofs, RaftFacts.v
    relates the loops of the code to reference definitions, RaftRefine.v proves
    that the cluster refines the protocol, RaftProps.v draws the consequences
    (election safety, log matching, leader completeness, state machine safety,
    meaning of an acknowledged proposal).  RaftTransport.v has the transport
    interface, the in-memory and the gRPC implementation, and the threads as whole
    functions over a transport, which only do steps of the cluster.  RaftSchedule.v
    cuts these threads where they release the mutex or call the transport and shows
    the same of every interleaving of the pieces, with proposals, restarts, changes of
    the wiring and requests handled after their caller gave up.
    RaftProgress.v shows that a connected majority elects a leader and commits
    what is proposed to it, in passes of the node's threads.  RaftThreads.v is about
    when these threads can take a pass: [Start], [Stop] and the two loops with the
    mutex, the condition variable and the atomic flag.  The replication threads of a
    leader are awake and [Stop] returns unless a loop was just going to sleep; that
    exception, and a deposed leader whose election thread stays asleep, are shown as
    runs.

    ** Membership and the control plane

    Ring.v (cluster/consistent_hash_ring.{h,cc}), ClusterMap.v
    (cluster/cluster_map.{h,cc}, node_info.h), FailureDetector.v
    (cluster/failure_detector.{h,cc}), LruCache.v (common/lru_cache.h),
    ThreadPool.v (common/thread_pool.{h,cc}).  MetadataView.v has the interfaces
    of cluster/metadata_view.h and control_plane.h as classes with the laws the
    clients rely on; MetadataRepository.v, CachingMetadataView.v, RaftMetadata.v
    (cluster/) and MetadataRpc.v (network/metadata_server, metadata_client)
    implement them.  The results: placement gives distinct members and moves as
    little as it can, the cluster map shows what its last operations left, the cache is a recency list, the pool drains its queue and
    stops, the cached and the remote view are transparent, a replica has for each
    key and node what the last command applied to it says, so that replicas that have
    applied the same entries agree, a mutation takes effect at the leader.

    ** The data path

    Rpc.v is the network: a call is delivered, or its request or its reply is
    lost, and a server may be down.  ObjectStore.v is the interface of
    storage/object_store.h with its laws, which LocalObjectStore.v and the
    reference MemObjectStore.v satisfy; StorageNode.v
    (network/storage_node_server, storage_node_client) is its service and client;
    Coordinator.v and Repairer.v (network/) are proved against the interfaces, in
    CoordinatorProps.v and Repairer.v: quorum durability, reading one's writes,
    exclusion of conditional writes, availability of reads, and that repair never
    spreads bytes of the wrong checksum.

    ** The edge

    Text.v (string functions of the C++ library), Http.v (the connections of
    network/http_server.cc, and http_client.{h,cc}), HttpServer.v (the accept
    thread, the pool and the shutdown of network/http_server.cc), Metrics.v and
    Logging.v (common/), HttpGateway.v (network/http_gateway.{h,cc}), EndToEnd.v
    (what an HTTP client is promised, from the request to the objects on the nodes), Tools.v (the programs
    under tools/: command line client, gateway, metadata and node process),
    Doubles.v (IEEE 754 doubles), Bench.v (tools/bench/loadgen.cc, the statistics of
    micro_bench.cc, tools/clusterbench/rebalance_bench.cc), ClusterDemo.v
    (tools/demo/cluster_demo.cc and the start and stop of a storage node's server).  The
    results: a request and its response survive whatever chunks the kernels cut
    them into, every request is answered, no accepted connection is dropped and
    shutting down ends unless a client keeps a connection open without sending its
    request, an object that was stored with success is on a write quorum
    and is what a later read returns; a percentile is read inside its vector, the
    benchmarks count what they say, and the demo goes as its transcript says.

    ** Bounds and fuel

    Loops that are not structural carry fuel, given where they start and enough by
    construction: the length of the input for the readers of framed records and
    the hash ([ReadFramedRecords], [Replay], [Update_loop]; each pass consumes a
    byte), 64 for the padding, 16 digits for a 64-bit number in hexadecimal, the
    length of the head for the client's headers, the distance between two indices
    for applying and committing in Raft.  Each pass of such a loop moves on by at
    least one, and the functional theorems about the readers, the hash, the HTTP
    exchange and the Raft log are about the result with this fuel.  [hops] of
    MetadataRpc.v bounds a chain of forwarded calls; the results hold for every
    value, and one hop reaches the leader when its address is known.  Widths are
    those of the sources; where a theorem needs that a counter does not wrap
    (terms, log indices, versions below 2^64) it says so as a hypothesis.

    ** Not modelled

    - Starting and stopping the gRPC servers of the control plane and of Raft
      (MetadataServer, RaftServer) and the gateway around its HTTP server: calls of
      the library around the handlers that are modelled, as in StorageNodeServer.
    - Finer interleavings: a read of a whole payload and an append to the log are one
      step of StoreThreads.v each, and so is the write of a staged file, which no
      other thread sees.  [List] takes no lock and is not among the concurrent
      calls.  The concurrent crash theorem is for [Put], [PutConditional], [Get] and
      [Head]; a concurrent [Delete] can misreport (StoreLinear.v).  The in-process
      control plane and the requests of one gateway run one after the other; where
      the sources release a lock in the middle of an operation and it matters
      (Raft, the thread pool, the caching view) the operation is cut there.
    - A call that still runs at the server after its client gave up, outside Raft:
      in Rpc.v a call has ended when the client goes on.
    - Failing storage under a Raft node: the node ignores the status of its
      storage calls, and the safety results are for storage whose calls succeed (a
      crash between two calls is modelled).
    - Rounding in the metrics, where [double] values are opaque, and the printing of
      doubles.
    - The timing loops of tools/bench/micro_bench.cc and tools/demo/storage_demo.cc:
      calls of the store one after the other, the second with a listing of the empty
      prefix, about which the metadata store promises nothing. *)

From stdpp Require Import base gmap list strings sorting pretty numbers.
From Stdlib Require Import ZArith Lia.
From Stdlib Require Strings.Byte Strings.String.
Export String.StringSyntax.

#[global] Set Default Goal Selector "!".

(** ** Bytes and byte strings

    A [std::string] (and a [std::string_view]) is a sequence of bytes. *)

Notation byte := Byte.byte.
Notation bytes := (list Byte.byte).

#[global] Instance byte_eq_decision : EqDecision byte := Byte.byte_eq_dec.

#[global] Program Instance byte_countable : Countable byte :=
  inj_countable Byte.to_N Byte.of_N _.
Next Obligation. intros b. apply Byte.of_to_N. Qed.

Declare Scope dos_scope.
Delimit Scope dos_scope with dos.
Open Scope dos_scope.

(** A C++ string literal. *)
Definition lit (s : string) : bytes := String.list_byte_of_string s.
Arguments lit s%_string_scope : simpl never.

(** The unsigned value of a byte, [static_cast<uint8_t>(c)]. *)
Definition Zb (b : byte) : Z := Z.of_N (Byte.to_N b).

(** The byte a value is narrowed to, [static_cast<char>(v)]. *)
Definition bZ (z : Z) : byte := default Byte.x00 (Byte.of_N (Z.to_N (z mod 256))).

(** ** Unsigned machine integers: values of [Z], every operation that can leave
    the width wrapped explicitly. *)

Definition u8 (z : Z) : Z := z mod 2 ^ 8.
Definition u32 (z : Z) : Z := z mod 2 ^ 32.
Definition u64 (z : Z) : Z := z mod 2 ^ 64.

Definition is_u32 (z : Z) : Prop := (0 <= z < 2 ^ 32)%Z.
Definition is_u64 (z : Z) : Prop := (0 <= z < 2 ^ 64)%Z.

(** [s.size()] as an integer. *)
Notation Zlen l := (Z.of_nat (length l)).

(** [std::to_string] of an integer. *)
Definition to_string (z : Z) : bytes := lit (pretty z).

(** [s.substr(pos, n)] for a [pos] within the string; [substr_from] is
    [s.substr(pos)]. *)
Definition substr (s : bytes) (pos n : nat) : bytes := take n (drop pos s).
Definition substr_from (s : bytes) (pos : nat) : bytes := drop pos s.

(** ** Tactics *)

Ltac inv H := inversion H; subst; clear H.

(** Destruct the boolean tests that guard the goal. *)
Ltac case_bool :=
  match goal with
  | |- context [if ?b then _ else _] =>
      match type of b with bool => destruct b eqn:? end
  | H : context [if ?b then _ else _] |- _ =>
      match type of b with bool => destruct b eqn:? end
  end.

(** Turn boolean comparisons on [Z], [nat] and booleans into propositions. *)
Ltac prop_bool :=
  repeat match goal with
  | H : (_ <=? _)%Z = true |- _ => apply Z.leb_le in H
  | H : (_ <=? _)%Z = false |- _ => apply Z.leb_gt in H
  | H : (_ <? _)%Z = true |- _ => apply Z.ltb_lt in H
  | H : (_ <? _)%Z = false |- _ => apply Z.ltb_ge in H
  | H : (_ =? _)%Z = true |- _ => apply Z.eqb_eq in H
  | H : (_ =? _)%Z = false |- _ => apply Z.eqb_neq in H
  | H : (_ <=? _)%nat = true |- _ => apply Nat.leb_le in H
  | H : (_ <=? _)%nat = false |- _ => apply Nat.leb_gt in H
  | H : (_ <? _)%nat = true |- _ => apply Nat.ltb_lt in H
  | H : (_ <? _)%nat = false |- _ => apply Nat.ltb_ge in H
  | H : (_ =? _)%nat = true |- _ => apply Nat.eqb_eq in H
  | H : (_ =? _)%nat = false |- _ => apply Nat.eqb_neq in H
  | H : bool_decide _ = true |- _ => apply bool_decide_eq_true in H
  | H : bool_decide _ = false |- _ => apply bool_decide_eq_false in H
  | H : (_ && _)%bool = true |- _ => apply andb_true_iff in H as [? ?]
  | H : (_ || _)%bool = false |- _ => apply orb_false_iff in H as [? ?]
  | H : negb _ = true |- _ => apply negb_true_iff in H
  | H : negb _ = false |- _ => apply negb_false_iff in H
  end.

(** ** Hint databases: [dos] for goals closed by lemma application, [dosrw] for
    rewriting. *)

Create HintDb dos.
Create HintDb dosrw.

(** ** Byte values *)

Lemma Zb_range b : (0 <= Zb b < 256)%Z.
Proof.
  unfold Zb. pose proof (Byte.to_N_bounded b). lia.
Qed.

Lemma Zb_bZ z : Zb (bZ z) = (z mod 256)%Z.
Proof.
  unfold Zb, bZ.
  pose proof (Z.mod_pos_bound z 256 ltac:(lia)) as Hr.
  destruct (Byte.of_N (Z.to_N (z mod 256))) as [b|] eqn:E; simpl.
  - apply Byte.to_of_N in E. rewrite E. lia.
  - apply Byte.of_N_None_iff in E. lia.
Qed.

Lemma bZ_Zb b : bZ (Zb b) = b.
Proof.
  unfold bZ. pose proof (Zb_range b).
  rewrite Z.mod_small by lia. unfold Zb.
  by rewrite N2Z.id, Byte.of_to_N.
Qed.

#[global] Instance Zb_inj : Inj (=) (=) Zb.
Proof. intros a b E. by rewrite <-(bZ_Zb a), E, bZ_Zb. Qed.

#[export] Hint Rewrite Zb_bZ bZ_Zb : dosrw.

(** ** Width lemmas *)

Lemma u32_range z : is_u32 (u32 z).
Proof. unfold is_u32, u32. apply Z.mod_pos_bound. lia. Qed.

Lemma u64_range z : is_u64 (u64 z).
Proof. unfold is_u64, u64. apply Z.mod_pos_bound. lia. Qed.

Lemma u32_small z : is_u32 z → u32 z = z.
Proof. intros H. apply Z.mod_small, H. Qed.

Lemma u64_small z : is_u64 z → u64 z = z.
Proof. intros H. apply Z.mod_small, H. Qed.

#[export] Hint Resolve u32_range u64_range : dos.

(** ** The order of [std::map<std::string, _>]: lexicographic on unsigned
    bytes, a proper prefix first. *)

Fixpoint bytes_leb (a b : bytes) : bool :=
  match a, b with
  | [], _ => true
  | _ :: _, [] => false
  | x :: a', y :: b' =>
      if (Zb x <? Zb y)%Z then true
      else if (Zb x =? Zb y)%Z then bytes_leb a' b' else false
  end.

Definition bytes_le (a b : bytes) : Prop := bytes_leb a b = true.

#[global] Instance bytes_le_dec a b : Decision (bytes_le a b).
Proof. unfold bytes_le. apply _. Defined.

Lemma bytes_leb_refl a : bytes_leb a a = true.
Proof.
  induction a as [|x a IH]; simpl; [done|].
  by rewrite Z.ltb_irrefl, Z.eqb_refl.
Qed.

#[global] Instance bytes_le_trans : Transitive bytes_le.
Proof.
  unfold bytes_le. intros a. induction a as [|x a IH]; [done|].
  intros [|y b] [|z c]; simpl; try done.
  repeat case_bool; prop_bool; try done; try lia. apply IH.
Qed.

#[global] Instance bytes_le_total : Total bytes_le.
Proof.
  unfold bytes_le. intros a. induction a as [|x a IH].
  { intros b. by left. }
  intros [|y b]; simpl; [by right|].
  repeat case_bool; prop_bool; auto; lia.
Qed.

#[global] Instance bytes_le_antisym : AntiSymm (=) bytes_le.
Proof.
  unfold bytes_le. intros a. induction a as [|x a IH].
  { intros [|]; done. }
  intros [|y b]; simpl; [done|].
  repeat case_bool; prop_bool; try done; try lia.
  intros. f_equal; [by apply (inj Zb)|]. by apply IH.
Qed.

#[global] Instance Zle_total : Total Z.le.
Proof. intros x y. lia. Qed.

(** ** Iteration over an ordered map: the entries of the map in key order. *)

Section in_order.
Context {K V : Type} `{Countable K} (R : relation K) `{∀ x y, Decision (R x y)}.
Context `{!Transitive R, !Total R, !AntiSymm (=) R}.
Implicit Types m : gmap K V.

Definition entry_le (p q : K * V) : Prop := R p.1 q.1.

#[global] Instance entry_le_dec p q : Decision (entry_le p q).
Proof. unfold entry_le. apply _. Defined.

Definition in_order (m : gmap K V) : list (K * V) := merge_sort entry_le (map_to_list m).

#[local] Instance entry_le_trans : Transitive entry_le.
Proof. intros [] [] []. unfold entry_le. simpl. apply transitivity. Qed.

#[local] Instance entry_le_total : Total entry_le.
Proof. intros [a ?] [b ?]. apply (total R a b). Qed.

Lemma elem_of_in_order m k v : (k, v) ∈ in_order m ↔ m !! k = Some v.
Proof. unfold in_order. by rewrite merge_sort_Permutation, elem_of_map_to_list. Qed.

Lemma in_order_perm m : in_order m ≡ₚ map_to_list m.
Proof. apply merge_sort_Permutation. Qed.

Lemma NoDup_fst_in_order m : NoDup (in_order m).*1.
Proof. rewrite in_order_perm. apply NoDup_fst_map_to_list. Qed.

Lemma in_order_sorted m : StronglySorted entry_le (in_order m).
Proof. by apply StronglySorted_merge_sort; try apply _. Qed.

Lemma length_in_order m : length (in_order m) = size m.
Proof. by rewrite in_order_perm, length_map_to_list. Qed.
End in_order.

(** ** Lists *)

Lemma take_lt_app_l {A} (n : nat) (l k : list A) :
  n ≤ length l → take n (l ++ k) = take n l.
Proof. apply take_app_le. Qed.

(** Membership of a list decided by a boolean search, [std::find]. *)
Definition find_in {A} `{EqDecision A} (x : A) (l : list A) : bool :=
  bool_decide (x ∈ l).

(** [s.rfind(prefix, 0) == 0]. *)
Definition starts_with (prefix s : bytes) : bool := bool_decide (prefix `prefix_of` s).

Lemma StronglySorted_filter {A} (R : relation A) (P : A → Prop) `{∀ x, Decision (P x)} l :
  StronglySorted R l → StronglySorted R (filter P l).
Proof.
  induction 1 as [|x l Hl IH Hf]; [constructor|]. rewrite filter_cons.
  destruct (decide (P x)); [|done]. constructor; [done|].
  rewrite List.Forall_forall in Hf |- *. intros y Hy. apply Hf.
  apply list_elem_of_In, list_elem_of_filter in Hy as [_ Hy]. by apply list_elem_of_In.
Qed.

Lemma StronglySorted_fmap {A B} (R : relation A) (R' : relation B) (f : A → B) l :
  (∀ x y, R x y → R' (f x) (f y)) → StronglySorted R l → StronglySorted R' (f <$> l).
Proof.
  intros HRS. induction 1 as [|x l Hl IH Hf]; simpl; constructor; [done|].
  apply Forall_fmap. eapply Forall_impl; [|exact Hf]. intros y. apply HRS.
Qed.

Lemma filter_all {A} (P : A → Prop) `{∀ x, Decision (P x)} (l : list A) :
  (∀ x, x ∈ l → P x) → filter P l = l.
Proof.
  induction l as [|x l IH]; intros Hl; [done|]. rewrite filter_cons_True by (apply Hl; by left).
  f_equal. apply IH. intros y Hy. apply Hl. by right.
Qed.

Lemma filter_none {A} (P : A → Prop) `{∀ x, Decision (P x)} (l : list A) :
  (∀ x, x ∈ l → ¬ P x) → filter P l = [].
Proof.
  induction l as [|x l IH]; intros Hl; [done|]. rewrite filter_cons_False by (apply Hl; by left).
  apply IH. intros y Hy. apply Hl. by right.
Qed.

Lemma NoDup_take {A} k (l : list A) : NoDup l → NoDup (take k l).
Proof. rewrite <-(take_drop k l) at 1. by intros (? & _)%list.NoDup_app. Qed.

(** A call that computes to a known result. *)
Lemma pair_fst {A B} (p : A * B) x : p.1 = x → p = (x, p.2).
Proof. by destruct p; intros <-. Qed.

(** A decidable fact about closed terms, such as a byte that does not occur in a
    literal. *)
Ltac absent := apply (bool_decide_unpack _); vm_compute; exact I.

Ltac compute_pair := apply pair_fst; vm_compute; reflexivity.
