(* ===== verification/Status.v ===== *)
(** * Status codes and results

    [include/common/status.h], [src/common/status.cc], and the mapping of
    status codes to the wire enum in [include/network/proto_util.h]. *)

From stdpp Require Import base list strings.
From S2P Require Import Prelude.

(** ** [enum class StatusCode] *)
Inductive StatusCode :=
  | kOk
  | kNotFound
  | kChecksumMismatch
  | kConflict
  | kInvalidArgument
  | kAlreadyExists
  | kIoError
  | kUnavailable.

#[global] Instance StatusCode_eq_dec : EqDecision StatusCode.
Proof. solve_decision. Defined.

Definition StatusCodeName (code : StatusCode) : bytes :=
  match code with
  | kOk => lit "OK"
  | kNotFound => lit "NOT_FOUND"
  | kChecksumMismatch => lit "CHECKSUM_MISMATCH"
  | kConflict => lit "CONFLICT"
  | kInvalidArgument => lit "INVALID_ARGUMENT"
  | kAlreadyExists => lit "ALREADY_EXISTS"
  | kIoError => lit "IO_ERROR"
  | kUnavailable => lit "UNAVAILABLE"
  end.

(** ** [class Status]: a code and a message *)
Record Status := mkStatus { st_code : StatusCode; st_message : bytes }.

#[global] Instance Status_eq_dec : EqDecision Status.
Proof. solve_decision. Defined.

Definition Ok : Status := mkStatus kOk [].
Definition NotFound (msg : bytes) : Status := mkStatus kNotFound msg.
Definition ChecksumMismatch (msg : bytes) : Status := mkStatus kChecksumMismatch msg.
Definition Conflict (msg : bytes) : Status := mkStatus kConflict msg.
Definition InvalidArgument (msg : bytes) : Status := mkStatus kInvalidArgument msg.
Definition AlreadyExists (msg : bytes) : Status := mkStatus kAlreadyExists msg.
Definition IoError (msg : bytes) : Status := mkStatus kIoError msg.
Definition Unavailable (msg : bytes) : Status := mkStatus kUnavailable msg.

(** [Status::ok] *)
Definition st_ok (s : Status) : bool := bool_decide (st_code s = kOk).

(** [Status::ToString] *)
Definition ToString (s : Status) : bytes :=
  let out := StatusCodeName (st_code s) in
  match st_message s with
  | [] => out
  | m => out ++ lit ": " ++ m
  end.

(** ** [template StatusOr<T>]: built from a status or from a value *)
Inductive StatusOr (T : Type) :=
  | FromStatus (s : Status)
  | FromValue (v : T).
Arguments FromStatus {T} s.
Arguments FromValue {T} v.

(** [StatusOr<T>::ok], [StatusOr<T>::status] and [StatusOr<T>::value] (which
    the callers use only under [ok()]). *)
Definition so_status {T} (r : StatusOr T) : Status :=
  match r with FromStatus s => s | FromValue _ => Ok end.
Definition so_ok {T} (r : StatusOr T) : bool := st_ok (so_status r).
Definition so_value {T} (r : StatusOr T) : option T :=
  match r with FromStatus _ => None | FromValue v => Some v end.

(** ** The wire enum [rpc::Code] (proto/storage.proto).  A decoded enum field may
    carry a number outside the named values (proto3 open enums). *)
Inductive Code :=
  | OK | NOT_FOUND | CHECKSUM_MISMATCH | CONFLICT | INVALID_ARGUMENT
  | ALREADY_EXISTS | IO_ERROR | UNAVAILABLE
  | CodeOther (n : Z).

#[global] Instance Code_eq_dec : EqDecision Code.
Proof. solve_decision. Defined.

Definition ToProtoCode (code : StatusCode) : Code :=
  match code with
  | kOk => OK
  | kNotFound => NOT_FOUND
  | kChecksumMismatch => CHECKSUM_MISMATCH
  | kConflict => CONFLICT
  | kInvalidArgument => INVALID_ARGUMENT
  | kAlreadyExists => ALREADY_EXISTS
  | kIoError => IO_ERROR
  | kUnavailable => UNAVAILABLE
  end.

Definition FromProtoCode (code : Code) : StatusCode :=
  match code with
  | OK => kOk
  | NOT_FOUND => kNotFound
  | CHECKSUM_MISMATCH => kChecksumMismatch
  | CONFLICT => kConflict
  | INVALID_ARGUMENT => kInvalidArgument
  | ALREADY_EXISTS => kAlreadyExists
  | IO_ERROR => kIoError
  | UNAVAILABLE => kUnavailable
  | CodeOther _ => kIoError
  end.

(** A status code survives the wire. *)
Lemma FromProtoCode_ToProtoCode c : FromProtoCode (ToProtoCode c) = c.
Proof. by destruct c. Qed.

Lemma ToProtoCode_ok c : ToProtoCode c = OK ↔ c = kOk.
Proof. by destruct c. Qed.

#[export] Hint Rewrite FromProtoCode_ToProtoCode : dosrw.
