(* ===== verification/Wire.v ===== *)
(** * Wire encoding

    [include/common/wire.h]: big-endian integers, length-prefixed strings, the
    bounds-checked reader and the table-free CRC-32. *)

From stdpp Require Import base list.
From Stdlib Require Import ZArith Lia.
From S2P Require Import Prelude.

Local Open Scope Z_scope.

(** ** Writers.  Each returns the string [out] it was given, extended. *)

Definition PutU32 (out : bytes) (v : Z) : bytes :=
  foldl (λ out i, out ++ [bZ (Z.land (Z.shiftr v (i * 8)) 255)]) out [3; 2; 1; 0].

Definition PutU64 (out : bytes) (v : Z) : bytes :=
  foldl (λ out i, out ++ [bZ (Z.land (Z.shiftr v (i * 8)) 255)]) out [7; 6; 5; 4; 3; 2; 1; 0].

Definition PutStr (out : bytes) (s : bytes) : bytes := PutU32 out (u32 (Zlen s)) ++ s.

(** ** CRC-32 *)

(** One of the eight inner rounds: the low bit selects the polynomial. *)
Definition Crc32_bit (crc : Z) : Z :=
  let mask := u32 (- Z.land crc 1) in
  Z.lxor (Z.shiftr crc 1) (Z.land 0xEDB88320 mask).

Definition Crc32_byte (crc : Z) (b : byte) : Z := Nat.iter 8 Crc32_bit (Z.lxor crc (Zb b)).

Definition Crc32 (data : bytes) : Z :=
  let crc := foldl Crc32_byte 0xFFFFFFFF data in
  u32 (Z.lnot crc).

(** ** [class Reader]: a buffer and a position *)
Record Reader := mkReader { rd_p : bytes; rd_pos : nat }.

Definition Reader_new (p : bytes) : Reader := mkReader p 0.

(** The shift-and-or loop over the next [n] bytes, at width [wrap]. *)
Fixpoint read_be (wrap : Z → Z) (n : nat) (r : Z) (rd : Reader) : Z * Reader :=
  match n with
  | O => (r, rd)
  | S n' =>
      let c := nth (rd_pos rd) (rd_p rd) Byte.x00 in
      read_be wrap n' (Z.lor (wrap (Z.shiftl r 8)) (Zb c)) (mkReader (rd_p rd) (S (rd_pos rd)))
  end.

Definition U32 (rd : Reader) : option (Z * Reader) :=
  if (length (rd_p rd) <? rd_pos rd + 4)%nat then None
  else Some (read_be u32 4 0 rd).

Definition U64 (rd : Reader) : option (Z * Reader) :=
  if (length (rd_p rd) <? rd_pos rd + 8)%nat then None
  else Some (read_be u64 8 0 rd).

Definition Str (rd : Reader) : option (bytes * Reader) :=
  match U32 rd with
  | None => None
  | Some (len, rd) =>
      if Zlen (rd_p rd) <? Z.of_nat (rd_pos rd) + len then None
      else Some (substr (rd_p rd) (rd_pos rd) (Z.to_nat len),
                 mkReader (rd_p rd) (rd_pos rd + Z.to_nat len))
  end.

(** ** Big-endian values *)

(** The number a byte string denotes, most significant byte first. *)
Definition be_val (l : bytes) : Z := foldl (λ r b, r * 256 + Zb b) 0 l.

(** The [n] low bytes of [v], most significant first. *)
Fixpoint be_bytes (n : nat) (v : Z) : bytes :=
  match n with
  | O => []
  | S n' => be_bytes n' (v / 256) ++ [bZ v]
  end.

Lemma length_be_bytes n v : length (be_bytes n v) = n.
Proof. revert v. induction n as [|n IH]; intros v; simpl; [done|]. rewrite length_app, IH. simpl. lia. Qed.

Lemma be_val_app l b : be_val (l ++ [b]) = be_val l * 256 + Zb b.
Proof. unfold be_val. by rewrite foldl_app. Qed.

Lemma be_val_bound l : 0 <= be_val l < 256 ^ Zlen l.
Proof.
  induction l as [|b l IH] using rev_ind; [done|].
  rewrite be_val_app, length_app, Nat2Z.inj_add, Z.pow_add_r by lia.
  pose proof (Zb_range b). simpl. lia.
Qed.

Lemma be_val_be_bytes n v : be_val (be_bytes n v) = v mod 256 ^ Z.of_nat n.
Proof.
  revert v. induction n as [|n IH]; intros v; simpl be_bytes.
  { by rewrite Z.mod_1_r. }
  rewrite be_val_app, IH, Zb_bZ, Nat2Z.inj_succ, Z.pow_succ_r by lia.
  rewrite Z.rem_mul_r by lia. lia.
Qed.

Lemma be_bytes_be_val l : be_bytes (length l) (be_val l) = l.
Proof.
  induction l as [|b l IH] using rev_ind; [done|].
  rewrite be_val_app, length_app, Nat.add_comm. simpl.
  pose proof (Zb_range b).
  rewrite Z.div_add_l, (Z.div_small (Zb b)), Z.add_0_r, IH by lia.
  do 2 f_equal. apply (inj Zb). rewrite Zb_bZ, Z.add_comm, Z_mod_plus_full.
  apply Z.mod_small. lia.
Qed.

Lemma bZ_land v i : 0 <= i → bZ (Z.land (Z.shiftr v (i * 8)) 255) = bZ (v / 256 ^ i).
Proof.
  intros Hi. apply (inj Zb). rewrite !Zb_bZ.
  change 255 with (Z.ones 8). rewrite Z.land_ones, Z.shiftr_div_pow2 by lia.
  change (2 ^ 8) with 256. rewrite Z.mod_mod by lia.
  replace (i * 8) with (8 * i) by lia. by rewrite Z.pow_mul_r by lia.
Qed.

Lemma PutU32_be out v : PutU32 out v = out ++ be_bytes 4 v.
Proof.
  unfold PutU32. simpl foldl. rewrite !bZ_land by lia. simpl be_bytes.
  rewrite !Z.div_div by lia. change (256 ^ 0) with 1. rewrite Z.div_1_r.
  by rewrite <-!app_assoc.
Qed.

Lemma PutU64_be out v : PutU64 out v = out ++ be_bytes 8 v.
Proof.
  unfold PutU64. simpl foldl. rewrite !bZ_land by lia. simpl be_bytes.
  rewrite !Z.div_div by lia. change (256 ^ 0) with 1. rewrite Z.div_1_r.
  by rewrite <-!app_assoc.
Qed.

Lemma PutStr_be out s : PutStr out s = out ++ be_bytes 4 (u32 (Zlen s)) ++ s.
Proof. unfold PutStr. by rewrite PutU32_be, app_assoc. Qed.

(** ** Readers read what the writers wrote *)

Lemma lor_shift_add w r b :
  8 <= w → 0 <= r → r * 256 < 2 ^ w →
  Z.lor ((Z.shiftl r 8) mod 2 ^ w) (Zb b) = r * 256 + Zb b.
Proof.
  intros Hw Hr Hlt. pose proof (Zb_range b).
  rewrite Z.shiftl_mul_pow2 by lia. change (2 ^ 8) with 256.
  rewrite Z.mod_small by lia.
  enough (Z.land (r * 256) (Zb b) = 0) as E.
  { by rewrite <-(Z.add_lor_land (r * 256)), E, Z.add_0_r. }
  apply Z.bits_inj'. intros n Hn. rewrite Z.bits_0, Z.land_spec.
  destruct (decide (n < 8)) as [Hlo|Hhi].
  - change 256 with (2 ^ 8). by rewrite Z.mul_pow2_bits_low by lia.
  - rewrite (Z.bits_above_log2 (Zb b)); [by rewrite andb_false_r|lia|].
    destruct (decide (Zb b = 0)) as [->|]; [simpl; lia|].
    assert (Z.log2 (Zb b) < 8) by (apply Z.log2_lt_pow2; lia). lia.
Qed.

Lemma read_be_spec w n : ∀ r rd l,
  8 <= w → 0 <= r → (r + 1) * 256 ^ Z.of_nat n <= 2 ^ w →
  take n (drop (rd_pos rd) (rd_p rd)) = l → length l = n →
  read_be (λ z, z mod 2 ^ w) n r rd =
    (foldl (λ r b, r * 256 + Zb b) r l, mkReader (rd_p rd) (rd_pos rd + n)).
Proof.
  induction n as [|n IH]; intros r [p pos] l Hw Hr Hb Hl Hlen.
  { simpl in Hl; subst l. simpl. by rewrite Nat.add_0_r. }
  destruct l as [|b l]; [done|]. simpl in *.
  rewrite Nat2Z.inj_succ, Z.pow_succ_r in Hb by lia.
  destruct (drop pos p) as [|c d] eqn:Ed; [done|]. injection Hl as -> Hl.
  assert (nth pos p Byte.x00 = b) as ->.
  { rewrite <-(Nat.add_0_r pos), <-nth_skipn. by rewrite Ed. }
  pose proof (Zb_range b).
  assert (0 < 256 ^ Z.of_nat n) by lia.
  assert (1 <= 256 ^ Z.of_nat n) by lia.
  assert (r * 256 < 2 ^ w) by nia.
  rewrite lor_shift_add by lia.
  rewrite (IH _ (mkReader p (S pos)) l); simpl; try lia; try done.
  - by replace (pos + S n)%nat with (S (pos + n)) by lia.
  - nia.
  - replace (S pos) with (pos + 1)%nat by lia. by rewrite <-drop_drop, Ed.
Qed.

(** What the reader is about to read. *)
Definition rest (rd : Reader) : bytes := drop (rd_pos rd) (rd_p rd).

Definition advance (n : nat) (rd : Reader) : Reader := mkReader (rd_p rd) (rd_pos rd + n).

Lemma rest_advance n rd : rest (advance n rd) = drop n (rest rd).
Proof. unfold rest, advance. simpl. by rewrite drop_drop. Qed.

Lemma rest_new p : rest (Reader_new p) = p.
Proof. done. Qed.

Lemma length_rest rd : length (rest rd) = (length (rd_p rd) - rd_pos rd)%nat.
Proof. unfold rest. apply length_drop. Qed.

Lemma take_app_exact {A} n (l k : list A) : length l = n → take n (l ++ k) = l.
Proof. intros <-. apply take_app_length. Qed.

Lemma drop_app_exact {A} n (l k : list A) : length l = n → drop n (l ++ k) = k.
Proof. intros <-. apply drop_app_length. Qed.

Lemma U32_app rd l k :
  rest rd = l ++ k → length l = 4%nat → U32 rd = Some (be_val l, advance 4 rd).
Proof.
  intros Hr Hl. unfold U32.
  pose proof (f_equal length Hr) as Hlen. rewrite length_rest, length_app in Hlen.
  case_bool; prop_bool; [lia|]. unfold u32.
  rewrite (read_be_spec 32 4 0 rd l); try done.
  fold (rest rd). by rewrite Hr, take_app_exact.
Qed.

Lemma U64_app rd l k :
  rest rd = l ++ k → length l = 8%nat → U64 rd = Some (be_val l, advance 8 rd).
Proof.
  intros Hr Hl. unfold U64.
  pose proof (f_equal length Hr) as Hlen. rewrite length_rest, length_app in Hlen.
  case_bool; prop_bool; [lia|]. unfold u64.
  rewrite (read_be_spec 64 8 0 rd l); try done.
  fold (rest rd). by rewrite Hr, take_app_exact.
Qed.

Lemma U32_put rd v k :
  is_u32 v → rest rd = be_bytes 4 v ++ k → U32 rd = Some (v, advance 4 rd).
Proof.
  intros Hv Hr. rewrite (U32_app rd _ _ Hr) by apply length_be_bytes.
  rewrite be_val_be_bytes. change (256 ^ Z.of_nat 4) with (2 ^ 32).
  by rewrite Z.mod_small.
Qed.

Lemma U64_put rd v k :
  is_u64 v → rest rd = be_bytes 8 v ++ k → U64 rd = Some (v, advance 8 rd).
Proof.
  intros Hv Hr. rewrite (U64_app rd _ _ Hr) by apply length_be_bytes.
  rewrite be_val_be_bytes. change (256 ^ Z.of_nat 8) with (2 ^ 64).
  by rewrite Z.mod_small.
Qed.

Lemma Str_put rd s k :
  is_u32 (Zlen s) → rest rd = be_bytes 4 (u32 (Zlen s)) ++ s ++ k →
  Str rd = Some (s, advance (4 + length s) rd).
Proof.
  intros Hs Hr. unfold Str. rewrite (u32_small _ Hs) in Hr.
  rewrite (U32_put rd (Zlen s) (s ++ k)) by done.
  rewrite ?Nat2Z.id.
  assert (rest (advance 4 rd) = s ++ k) as Hr'.
  { rewrite rest_advance, Hr. by apply drop_app_exact, length_be_bytes. }
  pose proof (f_equal length Hr) as Hlen.
  rewrite length_rest, !length_app, length_be_bytes in Hlen.
  case_bool; prop_bool; [simpl in *; lia|].
  unfold substr. fold (rest (advance 4 rd)). rewrite Hr', take_app_length.
  unfold advance. simpl. do 3 f_equal. lia.
Qed.

(** What is left to read after the fields already read. *)
Ltac skip_read :=
  rewrite !rest_advance, rest_new;
  repeat (rewrite drop_app_exact by (rewrite ?length_be_bytes; reflexivity));
  rewrite <-?drop_drop;
  repeat (rewrite drop_app_exact by (rewrite ?length_be_bytes; reflexivity)).

(** ** CRC-32 detects every error burst of at most 32 bits

    The bit step is linear for exclusive or and, because the polynomial has its
    top bit set, injective on 32-bit words; four consecutive bytes therefore
    determine, and are determined by, the register they leave behind. *)

Lemma is_u32_lxor a b : is_u32 a → is_u32 b → is_u32 (Z.lxor a b).
Proof.
  unfold is_u32. intros Ha Hb.
  assert (0 <= Z.lxor a b) as H0 by (apply Z.lxor_nonneg; lia).
  split; [done|].
  destruct (decide (Z.lxor a b = 0)) as [->|Hne]; [lia|].
  apply Z.log2_lt_pow2; [lia|].
  eapply Z.le_lt_trans; [apply Z.log2_lxor; lia|].
  apply Z.max_lub_lt.
  - destruct (decide (a = 0)) as [->|]; [done|apply Z.log2_lt_pow2; lia].
  - destruct (decide (b = 0)) as [->|]; [done|apply Z.log2_lt_pow2; lia].
Qed.

Lemma is_u32_Zb b : is_u32 (Zb b).
Proof. unfold is_u32. pose proof (Zb_range b). lia. Qed.

Lemma land_1 c : Z.land c 1 = c mod 2.
Proof. apply (Z.land_ones c 1). lia. Qed.

(** The bit step by the low bit. *)
Lemma Crc32_bit_unfold c :
  Crc32_bit c = Z.lxor (c / 2) (if Z.odd c then 0xEDB88320 else 0).
Proof.
  unfold Crc32_bit. rewrite land_1, Zmod_odd. change (Z.shiftr c 1) with (Z.div2 c).
  rewrite Z.div2_div. by destruct (Z.odd c).
Qed.

Lemma Crc32_bit_u32 c : is_u32 c → is_u32 (Crc32_bit c).
Proof.
  intros Hc. rewrite Crc32_bit_unfold. unfold is_u32 in *.
  apply is_u32_lxor; unfold is_u32; [|case_bool; lia].
  split; [apply Z.div_pos; lia|]. apply Z.div_lt_upper_bound; lia.
Qed.

Lemma Crc32_bit_lxor a b : Crc32_bit (Z.lxor a b) = Z.lxor (Crc32_bit a) (Crc32_bit b).
Proof.
  rewrite !Crc32_bit_unfold, <-!Z.div2_div, !Z.div2_spec, Z.shiftr_lxor.
  rewrite <-!Z.bit0_odd, Z.lxor_spec.
  destruct (Z.testbit a 0), (Z.testbit b 0); simpl xorb;
    rewrite ?Z.lxor_0_r; apply Z.bits_inj'; intros n Hn; rewrite !Z.lxor_spec;
    repeat match goal with |- context [Z.testbit ?x n] => destruct (Z.testbit x n) end; done.
Qed.

Lemma Crc32_bit_top c : is_u32 c → Z.testbit (Crc32_bit c) 31 = Z.odd c.
Proof.
  intros Hc. rewrite Crc32_bit_unfold, Z.lxor_spec.
  assert (Z.testbit (c / 2) 31 = false) as ->; [|by destruct (Z.odd c)].
  change 2 with (2 ^ 1). rewrite <-Z.shiftr_div_pow2, Z.shiftr_spec by lia.
  rewrite <-(Z.mod_small c (2 ^ 32)) by apply Hc. by apply Z.mod_pow2_bits_high.
Qed.

Lemma Crc32_bit_inj a b : is_u32 a → is_u32 b → Crc32_bit a = Crc32_bit b → a = b.
Proof.
  intros Ha Hb E.
  assert (Z.odd a = Z.odd b) as Eo by (rewrite <-!Crc32_bit_top by done; by f_equal).
  rewrite !Crc32_bit_unfold, Eo in E.
  assert (a / 2 = b / 2) as Ed.
  { apply (f_equal (λ z, Z.lxor z (if Z.odd b then 0xEDB88320 else 0))) in E.
    by rewrite !Z.lxor_assoc, !Z.lxor_nilpotent, !Z.lxor_0_r in E. }
  rewrite (Z.div_mod a 2), (Z.div_mod b 2), !Zmod_odd by lia. by rewrite Ed, Eo.
Qed.

Lemma Crc32_bits_u32 n c : is_u32 c → is_u32 (Nat.iter n Crc32_bit c).
Proof. intros Hc. induction n; simpl; [done|by apply Crc32_bit_u32]. Qed.

Lemma Crc32_bits_inj n a b :
  is_u32 a → is_u32 b → Nat.iter n Crc32_bit a = Nat.iter n Crc32_bit b → a = b.
Proof.
  intros Ha Hb. induction n as [|n IH]; simpl; [done|].
  intros E. apply Crc32_bit_inj in E; auto using Crc32_bits_u32.
Qed.

Lemma Crc32_bits_lxor n a b :
  Nat.iter n Crc32_bit (Z.lxor a b) = Z.lxor (Nat.iter n Crc32_bit a) (Nat.iter n Crc32_bit b).
Proof. induction n as [|n IH]; simpl; [done|]. by rewrite IH, Crc32_bit_lxor. Qed.

Lemma Crc32_bits_shift n y : Nat.iter n Crc32_bit (y * 2 ^ Z.of_nat n) = y.
Proof.
  revert y. induction n as [|n IH]; intros y; [simpl; lia|].
  rewrite Nat2Z.inj_succ, Z.pow_succ_r by lia.
  replace (y * (2 * 2 ^ Z.of_nat n)) with ((2 * y) * 2 ^ Z.of_nat n) by lia.
  simpl. rewrite IH, Crc32_bit_unfold, Z.odd_mul. simpl.
  rewrite Z.lxor_0_r, Z.mul_comm. apply Z.div_mul. lia.
Qed.

Lemma Crc32_byte_u32 c b : is_u32 c → is_u32 (Crc32_byte c b).
Proof. intros. unfold Crc32_byte. apply Crc32_bits_u32, is_u32_lxor; auto using is_u32_Zb. Qed.

Lemma Crc32_fold_u32 l c : is_u32 c → is_u32 (foldl Crc32_byte c l).
Proof. revert c. induction l as [|b l IH]; simpl; auto using Crc32_byte_u32. Qed.

Lemma lxor_cancel_r a b x : Z.lxor a x = Z.lxor b x → a = b.
Proof.
  intros E%(f_equal (λ z, Z.lxor z x)).
  by rewrite !Z.lxor_assoc, Z.lxor_nilpotent, !Z.lxor_0_r in E.
Qed.

Lemma Crc32_byte_unfold c b : Crc32_byte c b = Nat.iter 8 Crc32_bit (Z.lxor c (Zb b)).
Proof. unfold Crc32_byte. reflexivity. Qed.

Lemma Crc32_byte_inj x a b :
  is_u32 a → is_u32 b → Crc32_byte a x = Crc32_byte b x → a = b.
Proof.
  intros Ha Hb E. rewrite !Crc32_byte_unfold in E.
  apply (lxor_cancel_r _ _ (Zb x)), (Crc32_bits_inj 8);
    auto using is_u32_lxor, is_u32_Zb.
Qed.

Lemma Crc32_fold_inj l a b :
  is_u32 a → is_u32 b → foldl Crc32_byte a l = foldl Crc32_byte b l → a = b.
Proof.
  revert a b. induction l as [|x l IH]; intros a b Ha Hb; cbn [foldl]; [done|].
  intros E. apply IH in E; auto using Crc32_byte_u32.
  by apply Crc32_byte_inj in E.
Qed.

(** The little-endian value of a byte string. *)
Fixpoint le_val (l : bytes) : Z :=
  match l with [] => 0 | b :: l' => Zb b + le_val l' * 2 ^ 8 end.

Lemma le_val_bound l : 0 <= le_val l < 2 ^ (8 * Zlen l).
Proof.
  induction l as [|b l IH]; simpl; [lia|].
  pose proof (Zb_range b).
  replace (8 * Z.of_nat (S (length l))) with (8 + 8 * Zlen l) by lia.
  rewrite Z.pow_add_r by lia. lia.
Qed.

Lemma le_val_lxor b l : le_val (b :: l) = Z.lxor (Zb b) (le_val l * 2 ^ 8).
Proof.
  simpl. change (Z.pow_pos 2 8) with (2 ^ 8). apply Z.add_nocarry_lxor, Z.bits_inj'.
  intros n Hn. rewrite Z.land_spec, Z.bits_0.
  destruct (decide (n < 8)).
  - by rewrite (Z.mul_pow2_bits_low _ 8), andb_false_r by lia.
  - pose proof (Zb_range b). rewrite <-(Z.mod_small (Zb b) (2 ^ 8)) by lia.
    by rewrite Z.mod_pow2_bits_high by lia.
Qed.

Lemma le_val_inj l l' : length l = length l' → le_val l = le_val l' → l = l'.
Proof.
  revert l'. induction l as [|b l IH]; intros [|b' l'] Hl; simpl in *; try done.
  intros E. pose proof (Zb_range b). pose proof (Zb_range b').
  assert (Zb b = Zb b' ∧ le_val l = le_val l') as [E1 E2] by lia.
  f_equal; [by apply (inj Zb)|apply IH; [lia|done]].
Qed.

Lemma Crc32_fold_word l c :
  foldl Crc32_byte c l = Nat.iter (8 * length l) Crc32_bit (Z.lxor c (le_val l)).
Proof.
  revert c. induction l as [|b l IH]; intros c; [simpl; by rewrite Z.lxor_0_r|].
  cbn [foldl length]. rewrite IH, le_val_lxor, Crc32_byte_unfold.
  rewrite <-(Crc32_bits_shift 8 (le_val l)) at 1.
  rewrite <-Crc32_bits_lxor, Z.lxor_assoc.
  replace (8 * S (length l))%nat with (8 * length l + 8)%nat by lia.
  by rewrite Nat.iter_add.
Qed.

Lemma Crc32_state_u32 l : is_u32 (foldl Crc32_byte 0xFFFFFFFF l).
Proof. by apply Crc32_fold_u32. Qed.

Lemma u32_lnot_inj a b : is_u32 a → is_u32 b → u32 (Z.lnot a) = u32 (Z.lnot b) → a = b.
Proof.
  unfold is_u32, u32, Z.lnot. intros Ha Hb E.
  rewrite <-(Z_mod_plus_full (Z.pred (- a)) 1), <-(Z_mod_plus_full (Z.pred (- b)) 1) in E.
  rewrite !Z.mod_small in E by lia. lia.
Qed.

Lemma Crc32_burst_ne pre l l' post :
  length l = length l' → (length l ≤ 4)%nat → l ≠ l' →
  Crc32 (pre ++ l ++ post) ≠ Crc32 (pre ++ l' ++ post).
Proof.
  intros Hl H4 Hne E. apply Hne, le_val_inj; [done|].
  unfold Crc32 in E. apply u32_lnot_inj in E; [|apply Crc32_state_u32..].
  rewrite !foldl_app in E.
  pose proof (Crc32_state_u32 pre) as Hpre.
  apply Crc32_fold_inj in E; [|by apply Crc32_fold_u32..].
  rewrite (Crc32_fold_word l), (Crc32_fold_word l'), Hl in E.
  assert (∀ k, (length k ≤ 4)%nat → is_u32 (le_val k)) as Hk.
  { intros k Hk. pose proof (le_val_bound k) as [? Hu]. split; [done|].
    eapply Z.lt_le_trans; [exact Hu|]. apply Z.pow_le_mono_r; lia. }
  apply Crc32_bits_inj in E; [|apply is_u32_lxor; [done|apply Hk; lia]..].
  rewrite !(Z.lxor_comm (foldl _ _ _)) in E. by apply lxor_cancel_r in E.
Qed.

Lemma Crc32_range l : is_u32 (Crc32 l).
Proof. unfold Crc32. auto with dos. Qed.

Example Crc32_check_value : Crc32 (lit "123456789") = 0xCBF43926.
Proof. vm_compute. reflexivity. Qed.
