(* ===== verification/Framing.v ===== *)
(** * CRC-framed records

    [Frame] and [ReadFramedRecords] of [src/consensus/raft_storage.cc]: the
    on-disk format [u32 len][body][u32 crc] that the Raft log, the Raft hard
    state and (with its own copy of the loop) the write-ahead log share. *)

From stdpp Require Import base list.
From Stdlib Require Import ZArith Lia.
From S2P Require Import Prelude Wire.

Local Open Scope Z_scope.

(** [Frame]: frames a body as [u32 len][body][u32 crc]. *)
Definition Frame (body : bytes) : bytes :=
  let frame := PutU32 [] (u32 (Zlen body)) in
  let frame := frame ++ body in
  PutU32 frame (Crc32 body).

(** The big-endian 32-bit number at [pos]. *)
Definition read_u32_at (all : bytes) (pos : nat) : Z := (read_be u32 4 0 (mkReader all pos)).1.

(** One iteration of the loop: [None] when the loop stops at [pos], otherwise
    the body found there and the position of the next frame. *)
Definition next_frame (all : bytes) (pos : nat) : option (bytes * nat) :=
  if (pos + 4 <=? length all)%nat then
    let body_len := read_u32_at all pos in
    let frame_end := Z.of_nat pos + 4 + body_len + 4 in
    if (body_len =? 0) || (Zlen all <? frame_end) then None (* torn/partial tail *)
    else
      let body := substr all (pos + 4) (Z.to_nat body_len) in
      let stored_crc := read_u32_at all (pos + 4 + Z.to_nat body_len) in
      if Crc32 body =? stored_crc then Some (body, Z.to_nat frame_end)
      else None (* corrupt/torn record *)
  else None.

Fixpoint ReadFramedRecords_loop (fuel : nat) (all : bytes) (pos : nat) : list bytes :=
  match fuel with
  | O => []
  | S fuel' =>
      match next_frame all pos with
      | None => []
      | Some (body, frame_end) => body :: ReadFramedRecords_loop fuel' all frame_end
      end
  end.

(** [ReadFramedRecords] of a file that can be opened, [None] for one that
    cannot.  Every iteration moves [pos] by at least nine bytes, so the size of
    the file bounds the number of iterations. *)
Definition ReadFramedRecords (file : option bytes) : list bytes :=
  match file with
  | None => []
  | Some all => ReadFramedRecords_loop (length all) all 0
  end.

(** ** The frame at a position depends on the bytes from there on *)

Lemma read_be_shift wrap n r pre p pos :
  (read_be wrap n r (mkReader (pre ++ p) (length pre + pos))).1 =
  (read_be wrap n r (mkReader p pos)).1.
Proof.
  revert r pos. induction n as [|n IH]; intros r pos; simpl; [done|].
  rewrite app_nth2_plus. replace (S (length pre + pos)) with (length pre + S pos)%nat by lia.
  apply IH.
Qed.

Lemma next_frame_shift pre p pos :
  next_frame (pre ++ p) (length pre + pos) =
  match next_frame p pos with
  | Some (b, e) => Some (b, (length pre + e)%nat)
  | None => None
  end.
Proof.
  unfold next_frame, read_u32_at. rewrite read_be_shift, length_app.
  set (n := (read_be u32 4 0 (mkReader p pos)).1).
  replace (length pre + pos + 4 <=? length pre + length p)%nat with (pos + 4 <=? length p)%nat
    by (destruct (Nat.leb_spec (pos + 4) (length p));
        symmetry; [apply Nat.leb_le|apply Nat.leb_gt]; lia).
  case_bool; [|done].
  replace (Z.of_nat (length pre + length p) <? Z.of_nat (length pre + pos) + 4 + n + 4)
    with (Zlen p <? Z.of_nat pos + 4 + n + 4)
    by (destruct (Z.ltb_spec (Zlen p) (Z.of_nat pos + 4 + n + 4));
        symmetry; [apply Z.ltb_lt|apply Z.ltb_ge]; lia).
  destruct (_ || _) eqn:Hstop; [done|].
  rewrite <-!Nat.add_assoc, read_be_shift, !Nat.add_assoc.
  assert (substr (pre ++ p) (length pre + pos + 4) (Z.to_nat n) = substr p (pos + 4) (Z.to_nat n)) as ->.
  { unfold substr. rewrite drop_app, drop_ge by lia.
    by replace (length pre + pos + 4 - length pre)%nat with (pos + 4)%nat by lia. }
  assert (0 <= n) by (subst n; unfold read_be; simpl;
    repeat (apply Z.lor_nonneg; split); try apply Zb_range; apply u32_range).
  case_bool; [|done]. do 2 f_equal. lia.
Qed.

Lemma next_frame_at pre p :
  next_frame (pre ++ p) (length pre) =
  match next_frame p 0 with
  | Some (b, e) => Some (b, (length pre + e)%nat)
  | None => None
  end.
Proof. rewrite <-next_frame_shift. by rewrite Nat.add_0_r. Qed.

(** A position moves forward by at least nine bytes. *)
Lemma next_frame_progress all pos b e :
  next_frame all pos = Some (b, e) → (pos + 9 <= e <= length all)%nat.
Proof.
  unfold next_frame. repeat (case_bool; try done). intros [= <- <-]. prop_bool.
  set (n := read_u32_at all pos) in *.
  assert (0 <= n).
  { subst n. unfold read_u32_at, read_be. simpl.
    repeat (apply Z.lor_nonneg; split); try apply Zb_range; apply u32_range. }
  lia.
Qed.

(** The loop does not depend on the fuel, once there is enough of it. *)
Lemma ReadFramedRecords_fuel f1 f2 all pos :
  (length all - pos <= f1)%nat → (length all - pos <= f2)%nat →
  ReadFramedRecords_loop f1 all pos = ReadFramedRecords_loop f2 all pos.
Proof.
  revert f2 pos. induction f1 as [|f1 IH]; intros [|f2] pos H1 H2; simpl.
  - done.
  - destruct (next_frame all pos) as [[b e]|] eqn:E; [|done].
    apply next_frame_progress in E. lia.
  - destruct (next_frame all pos) as [[b e]|] eqn:E; [|done].
    apply next_frame_progress in E. lia.
  - destruct (next_frame all pos) as [[b e]|] eqn:E; [|done].
    apply next_frame_progress in E. f_equal. apply IH; lia.
Qed.

Lemma ReadFramedRecords_step f all pos :
  (length all - pos <= f)%nat →
  ReadFramedRecords_loop f all pos =
  match next_frame all pos with
  | None => []
  | Some (b, e) => b :: ReadFramedRecords_loop f all e
  end.
Proof.
  intros Hf. destruct f as [|f]; simpl.
  - destruct (next_frame all pos) as [[b e]|] eqn:E; [|done].
    apply next_frame_progress in E. lia.
  - destruct (next_frame all pos) as [[b e]|] eqn:E; [|done].
    apply next_frame_progress in E. f_equal. simpl.
    apply (ReadFramedRecords_fuel f (S f)); lia.
Qed.

(** ** Frames that were written *)

(** A body the format can carry: not empty, its size within 32 bits. *)
Definition body_ok (body : bytes) : Prop := 0 < Zlen body < 2 ^ 32.

Lemma Frame_eq body :
  Frame body = be_bytes 4 (u32 (Zlen body)) ++ body ++ be_bytes 4 (Crc32 body).
Proof. unfold Frame. by rewrite !PutU32_be, app_nil_l, <-app_assoc. Qed.

Lemma length_Frame body : length (Frame body) = (8 + length body)%nat.
Proof. rewrite Frame_eq, !length_app, !length_be_bytes. lia. Qed.

Lemma read_u32_at_be pre v k :
  is_u32 v → read_u32_at (pre ++ be_bytes 4 v ++ k) (length pre) = v.
Proof.
  intros Hv. unfold read_u32_at.
  pose proof (U32_put (mkReader (be_bytes 4 v ++ k) 0) v k Hv eq_refl) as E.
  unfold U32 in E. case_bool; [done|].
  rewrite <-(Nat.add_0_r (length pre)), read_be_shift. apply (inj Some) in E. by rewrite E.
Qed.

(** The frame scanner on a length word, a body and a checksum word. *)
Lemma next_frame_words body c k :
  body_ok body → is_u32 c →
  next_frame (be_bytes 4 (Zlen body) ++ body ++ be_bytes 4 c ++ k) 0 =
  if Crc32 body =? c then Some (body, (8 + length body)%nat) else None.
Proof.
  intros Hb Hc. set (all := _ ++ _).
  assert (length all = 4 + length body + 4 + length k)%nat as Hall.
  { unfold all. rewrite !length_app, !length_be_bytes. lia. }
  assert (is_u32 (Zlen body)) as Hu by (unfold is_u32; unfold body_ok in Hb; lia).
  assert (read_u32_at all 0 = Zlen body) as E1.
  { apply (read_u32_at_be [] (Zlen body) (body ++ be_bytes 4 c ++ k) Hu). }
  assert (read_u32_at all (0 + 4 + length body) = c) as E2.
  { unfold all. rewrite app_assoc.
    by rewrite <-(read_u32_at_be (be_bytes 4 (Zlen body) ++ body) c k Hc) at 2. }
  unfold next_frame. rewrite E1, Nat2Z.id, E2. unfold body_ok in Hb.
  case_bool; prop_bool; [|lia].
  case_bool.
  { apply orb_true_iff in Heqb0 as [?|?]; prop_bool; lia. }
  assert (substr all (0 + 4) (length body) = body) as ->.
  { unfold substr, all. rewrite drop_app_exact by apply length_be_bytes. apply take_app_length. }
  case_bool; [|done]. do 2 f_equal. lia.
Qed.

Lemma next_frame_Frame body k :
  body_ok body → next_frame (Frame body ++ k) 0 = Some (body, length (Frame body)).
Proof.
  intros Hb. assert (is_u32 (Zlen body)) by (unfold is_u32; unfold body_ok in Hb; lia).
  rewrite length_Frame, Frame_eq, u32_small, <-!app_assoc by done.
  rewrite next_frame_words by auto using Crc32_range. by rewrite Z.eqb_refl.
Qed.

(** A frame cut short is not read. *)
Lemma next_frame_torn body k :
  body_ok body → (k < length (Frame body))%nat → next_frame (take k (Frame body)) 0 = None.
Proof.
  intros Hb Hk. assert (is_u32 (Zlen body)) by (unfold is_u32; unfold body_ok in Hb; lia).
  pose proof (length_Frame body) as HL.
  unfold next_frame. case_bool; [|done]. prop_bool.
  rewrite length_take in Heqb. rewrite length_take.
  assert (read_u32_at (take k (Frame body)) 0 = Zlen body) as ->.
  { rewrite Frame_eq, u32_small, take_app_ge by (rewrite ?length_be_bytes; first [done|lia]).
    by apply (read_u32_at_be []). }
  case_bool; [done|].
  apply orb_false_iff in Heqb0 as [_ ?]. prop_bool. lia.
Qed.

Lemma next_frame_nil : next_frame [] 0 = None.
Proof. done. Qed.

(** A body damaged within four consecutive bytes is not read. *)
Lemma next_frame_corrupt a l l' b k :
  body_ok (a ++ l ++ b) → length l = length l' → (length l ≤ 4)%nat → l ≠ l' →
  next_frame (be_bytes 4 (Zlen (a ++ l ++ b)) ++ (a ++ l' ++ b)
              ++ be_bytes 4 (Crc32 (a ++ l ++ b)) ++ k) 0 = None.
Proof.
  intros Hb Hl H4 Hne.
  assert (length (a ++ l ++ b) = length (a ++ l' ++ b)) as HL by (rewrite !length_app; lia).
  rewrite HL, next_frame_words; [|unfold body_ok in *; lia|apply Crc32_range].
  case_bool; [|done]. prop_bool. exfalso. by apply (Crc32_burst_ne a l l' b).
Qed.

(** ** Reading a file of frames *)

Definition frames (bodies : list bytes) : bytes := concat (map Frame bodies).

Lemma frames_cons b l : frames (b :: l) = Frame b ++ frames l.
Proof. done. Qed.

Lemma frames_app l k : frames (l ++ k) = frames l ++ frames k.
Proof. unfold frames. by rewrite map_app, concat_app. Qed.

Lemma ReadFramedRecords_loop_frames bodies pre tail f :
  Forall body_ok bodies → next_frame tail 0 = None →
  (length (frames bodies ++ tail) <= f)%nat →
  ReadFramedRecords_loop f (pre ++ frames bodies ++ tail) (length pre) = bodies.
Proof.
  intros Hb Ht. revert pre. induction Hb as [|b l Hb Hl IH]; intros pre Hf.
  - rewrite ReadFramedRecords_step by (rewrite !length_app in *; lia).
    rewrite next_frame_at. change (frames [] ++ tail) with tail. by rewrite Ht.
  - rewrite frames_cons, <-app_assoc in *.
    rewrite ReadFramedRecords_step by (rewrite !length_app in *; lia).
    rewrite next_frame_at, next_frame_Frame by done. f_equal.
    rewrite app_assoc, <-length_app. apply IH. rewrite !length_app in *. lia.
Qed.

Lemma ReadFramedRecords_frames bodies tail :
  Forall body_ok bodies → next_frame tail 0 = None →
  ReadFramedRecords (Some (frames bodies ++ tail)) = bodies.
Proof.
  intros Hb Ht. unfold ReadFramedRecords.
  by apply (ReadFramedRecords_loop_frames bodies [] tail).
Qed.
