(* ===== verification/Posix.v ===== *)
(** * The operating system under the storage engine

    The files the process sees, the POSIX calls the sources make on them
    ([open], [write], [fsync], [close], [rename], [unlink], reading a file
    through [std::ifstream], [std::filesystem::create_directories]), and the
    environment that decides how each call ends.  The environment is a
    parameter of every operation: a script with one outcome per call (success, a
    short write, [EINTR], an error, the death of the process), consumed in
    order; after the end of the script every call succeeds.  A property that
    holds for every script holds for every pattern of failures and for a crash
    at every call.
    A crash is the death of the process, after which the files are as its calls left
    them: [fsync] can fail and changes nothing here, and a loss of power that takes
    writes before an [fsync] back is not modelled.

    The other component of the world is the metadata database of the process, an
    abstract type [DB] with its own operations (MetadataStore.v). *)

From stdpp Require Import base gmap list.
From Stdlib Require Import ZArith Lia.
From S2P Require Import Prelude.

(** A path is the list of its components; [p / "x"] is [p ++ ["x"]]. *)
Notation path := (list bytes).

Inductive outcome :=
  | SysOk                     (** the call succeeds *)
  | SysShort (n : nat)        (** [write] accepts at most [n] bytes *)
  | SysEintr                  (** interrupted by a signal *)
  | SysErr (strerror : bytes) (** the call fails with this error text *)
  | SysCrash.                 (** the process dies in the call *)

Record World (DB : Type) := mkWorld {
  w_files : gmap path bytes;  (** the regular files *)
  w_db : DB;                  (** the metadata database *)
  w_script : list outcome;    (** how the coming calls end *)
  w_times : list Z;           (** what the coming calls of [time] return *)
}.
Arguments mkWorld {DB}.
Arguments w_files {DB}.
Arguments w_db {DB}.
Arguments w_script {DB}.
Arguments w_times {DB}.

(** A computation of the process: [None] when the process died in it. *)
Definition IO (DB A : Type) : Type := World DB → option A * World DB.

Definition ret {DB A} (x : A) : IO DB A := λ w, (Some x, w).
Definition bind {DB A B} (m : IO DB A) (k : A → IO DB B) : IO DB B :=
  λ w, match m w with
       | (Some x, w') => k x w'
       | (None, w') => (None, w')
       end.

Notation "'let!' x ':=' m 'in' k" := (bind m (λ x, k))
  (at level 10, x name, m at level 100, k at level 200) : dos_scope.
Notation "'let!' ' p ':=' m 'in' k" := (bind m (λ x, match x with p => k end))
  (at level 10, p pattern, m at level 100, k at level 200) : dos_scope.

Section calls.
Context {DB : Type}.
Implicit Types w : World DB.

Definition set_files (f : gmap path bytes → gmap path bytes) w : World DB :=
  mkWorld (f (w_files w)) (w_db w) (w_script w) (w_times w).

Definition set_db (db : DB) w : World DB :=
  mkWorld (w_files w) db (w_script w) (w_times w).

(** The outcome of the next call. *)
Definition next_outcome w : outcome * World DB :=
  match w_script w with
  | [] => (SysOk, w)
  | o :: s => (o, mkWorld (w_files w) (w_db w) s (w_times w))
  end.

(** A call that changes the files by [f] when it succeeds and returns
    [None], or the error text. *)
Definition syscall (f : gmap path bytes → gmap path bytes) : IO DB (option bytes) := λ w,
  let '(o, w) := next_outcome w in
  match o with
  | SysOk | SysShort _ => (Some None, set_files f w)
  | SysEintr => (Some (Some (lit "Interrupted system call")), w)
  | SysErr e => (Some (Some e), w)
  | SysCrash => (None, w)
  end.

(** [open(p, O_WRONLY | O_CREAT | O_TRUNC)] *)
Definition sys_open_trunc (p : path) : IO DB (option bytes) := syscall (λ fs, <[p := []]> fs).

(** [open(p, O_WRONLY | O_CREAT | O_APPEND)] *)
Definition sys_open_append (p : path) : IO DB (option bytes) :=
  syscall (λ fs, match fs !! p with Some _ => fs | None => <[p := []]> fs end).

(** [open(p, O_RDONLY)] of a directory, [fsync], [close] *)
Definition sys_open_dir (p : path) : IO DB (option bytes) := syscall (λ fs, fs).
Definition sys_fsync : IO DB (option bytes) := syscall (λ fs, fs).
Definition sys_close : IO DB (option bytes) := syscall (λ fs, fs).

(** [std::filesystem::create_directories] (directories are not tracked) *)
Definition create_directories (p : path) : IO DB (option bytes) := syscall (λ fs, fs).

(** [rename(a, b)]: atomically replaces [b]. *)
Definition sys_rename (a b : path) : IO DB (option bytes) :=
  syscall (λ fs, match fs !! a with
                 | Some c => <[b := c]> (delete a fs)
                 | None => fs
                 end).

(** [unlink(p)] *)
Definition sys_unlink (p : path) : IO DB (option bytes) := syscall (λ fs, delete p fs).

(** The loop [while (remaining > 0) { write(fd, p, remaining); ... }] on an
    open file, which extends the file: [None] when everything is written, or
    the error text of the [write] that failed. *)
Fixpoint write_all_loop (script : list outcome) (p : path) (data : bytes) (fs : gmap path bytes)
  : option (option bytes) * (gmap path bytes * list outcome) :=
  match data with
  | [] => (Some None, (fs, script))
  | _ :: _ =>
      let append d := <[p := default [] (fs !! p) ++ d]> fs in
      match script with
      | [] => (Some None, (append data, []))
      | SysOk :: s => (Some None, (append data, s))
      | SysShort n :: s => write_all_loop s p (drop n data) (append (take n data))
      | SysEintr :: s => write_all_loop s p data fs
      | SysErr e :: s => (Some (Some e), (fs, s))
      | SysCrash :: s => (None, (fs, s))
      end
  end.

Definition write_all (p : path) (data : bytes) : IO DB (option bytes) := λ w,
  let '(r, (fs, s)) := write_all_loop (w_script w) p data (w_files w) in
  (r, mkWorld fs (w_db w) s (w_times w)).

(** Reading a whole file through [std::ifstream] and [istreambuf_iterator]s:
    [None] when the file cannot be opened, otherwise the bytes read and
    [in.bad()].  The iterators work on the stream buffer and leave the state of
    the stream alone, so a read that fails after [n] bytes looks like the end of
    the file and [bad()] stays false. *)
Definition read_file (p : path) : IO DB (option (bytes * bool)) := λ w,
  let '(o, w) := next_outcome w in
  match o, w_files w !! p with
  | SysCrash, _ => (None, w)
  | SysErr _, _ | _, None => (Some None, w)
  | SysShort n, Some c => (Some (Some (take n c, false)), w)
  | _, Some c => (Some (Some (c, false)), w)
  end.

(** [time(nullptr)] *)
Definition sys_time : IO DB Z := λ w,
  match w_times w with
  | [] => (Some 0%Z, w)
  | t :: ts => (Some t, mkWorld (w_files w) (w_db w) (w_script w) ts)
  end.

(** A call of the metadata database: an atomic transaction, so a process that
    dies in it dies before it or after it (that is, in the next call). *)
Definition on_db {A} (f : DB → A * DB) : IO DB A := λ w,
  let '(o, w) := next_outcome w in
  match o with
  | SysCrash => (None, w)
  | _ => let '(x, db) := f (w_db w) in (Some x, set_db db w)
  end.

(** [directory_iterator(dir, ec)]: the files in a directory, none when the
    directory cannot be read. *)
Definition sys_list_dir (dir : path) : IO DB (list path) := λ w,
  let '(o, w) := next_outcome w in
  match o with
  | SysCrash => (None, w)
  | SysErr _ => (Some [], w)
  | _ => (Some (filter (λ p, removelast p = dir ∧ p ≠ []) (elements (dom (w_files w)))), w)
  end.
End calls.

(** ** What a computation does to the world *)

Section triples.
Context {DB : Type}.
Implicit Types w : World DB.

(** [m] started in [w] ends in a world related to [w] by [Q] whatever the
    script is: [Q] sees the result ([None] for a crash) and the two worlds'
    files and database. *)
Definition io_spec {A} (m : IO DB A) (w : World DB)
    (Q : option A → gmap path bytes → DB → Prop) : Prop :=
  Q (m w).1 (w_files (m w).2) (w_db (m w).2).

Lemma bind_some {A B} (m : IO DB A) (k : A → IO DB B) w x w' :
  m w = (Some x, w') → bind m k w = k x w'.
Proof. unfold bind. by intros ->. Qed.

Lemma bind_none {A B} (m : IO DB A) (k : A → IO DB B) w w' :
  m w = (None, w') → bind m k w = (None, w').
Proof. unfold bind. by intros ->. Qed.

(** A call either has its effect, or fails and has none, or the process dies
    and it has none. *)
Lemma syscall_cases f w :
  ∃ s, (syscall f w = (Some None, mkWorld (f (w_files w)) (w_db w) s (w_times w))) ∨
       (∃ e, syscall f w = (Some (Some e), mkWorld (w_files w) (w_db w) s (w_times w))) ∨
       (syscall f w = (None, mkWorld (w_files w) (w_db w) s (w_times w))).
Proof.
  unfold syscall, next_outcome, set_files. destruct w as [fs db [|[]] ts]; simpl; eauto 10.
Qed.

(** The write loop extends the file by a prefix of the data, by all of it when
    it reports success. *)
Lemma write_all_loop_cases script p data fs :
  is_Some (fs !! p) →
  ∃ k s r, write_all_loop script p data fs =
             (r, (<[p := default [] (fs !! p) ++ take k data]> fs, s)) ∧
           (k <= length data)%nat ∧
           (r = Some None → k = length data).
Proof.
  revert data fs. induction script as [|o script IH]; intros data fs [c Hc].
  { destruct data as [|b data].
    - exists 0%nat, [], (Some None). simpl. rewrite Hc, app_nil_r. simpl.
      by rewrite insert_id.
    - exists (length (b :: data)), [], (Some None).
      by rewrite firstn_all. }
  destruct data as [|b data].
  { exists 0%nat, (o :: script), (Some None). simpl. rewrite Hc, app_nil_r. simpl.
    by rewrite insert_id. }
  assert (∀ r : option (option bytes), r ≠ Some None → ∃ k s r',
    (r, (fs, script)) = (r', (<[p := default [] (fs !! p) ++ take k (b :: data)]> fs, s)) ∧
    (k <= length (b :: data))%nat ∧ (r' = Some None → k = length (b :: data))) as Hstop.
  { intros r Hr. exists 0%nat, script, r. simpl take. rewrite Hc, app_nil_r. simpl.
    rewrite insert_id by done. repeat split; [lia|congruence]. }
  destruct o as [|n| |e|]; cbn [write_all_loop].
  - exists (length (b :: data)), script, (Some None). by rewrite firstn_all.
  - edestruct (IH (drop n (b :: data)) (<[p := default [] (fs !! p) ++ take n (b :: data)]> fs))
      as (k & s & r & -> & Hk & Hr).
    { rewrite lookup_insert_eq. eauto. }
    rewrite length_drop in Hk. rewrite lookup_insert_eq, insert_insert_eq. simpl default.
    exists (Nat.min n (length (b :: data)) + k)%nat, s, r. repeat split.
    + do 3 f_equal. rewrite <-app_assoc. f_equal.
      rewrite <-(take_take_drop _ (Nat.min n (length (b :: data))) k).
      destruct (Nat.le_ge_cases n (length (b :: data))).
      * by rewrite Nat.min_l.
      * rewrite Nat.min_r by done. rewrite (take_ge _ n), firstn_all by done.
        rewrite !drop_ge by (rewrite ?length_drop; lia). done.
    + lia.
    + intros Er. specialize (Hr Er). rewrite length_drop in Hr. lia.
  - by apply IH.
  - by apply Hstop.
  - by apply Hstop.
Qed.

Lemma write_all_loop_suffix script p data fs r fs' s :
  write_all_loop script p data fs = (r, (fs', s)) → s `suffix_of` script.
Proof.
  revert data fs. induction script as [|o script IH]; intros [|b data] fs; cbn [write_all_loop].
  1-3: by intros [= <- <- <-].
  destruct o as [|n| |e|].
  1,4,5: intros [= <- <- <-]; by apply suffix_cons_r.
  all: intros E%IH; by apply suffix_cons_r.
Qed.

Lemma write_all_loop_error script p data fs e fs' s :
  write_all_loop script p data fs = (Some (Some e), (fs', s)) → SysErr e ∈ script.
Proof.
  revert data fs. induction script as [|o script IH]; intros [|b data] fs; cbn [write_all_loop]; try done.
  destruct o as [|n| |e'|]; try done.
  - intros E%IH. by right.
  - intros E%IH. by right.
  - intros [= <- _ _]. by left.
Qed.

Lemma write_all_cases p data w :
  is_Some (w_files w !! p) →
  ∃ k s r, write_all p data w =
             (r, mkWorld (<[p := default [] (w_files w !! p) ++ take k data]> (w_files w))
                         (w_db w) s (w_times w)) ∧
           (k <= length data)%nat ∧ (r = Some None → k = length data).
Proof.
  intros Hp. unfold write_all.
  destruct (write_all_loop_cases (w_script w) p data (w_files w) Hp) as (k & s & r & -> & ? & ?).
  eauto 10.
Qed.
End triples.

(** Reduce the plumbing of a computation whose calls have been rewritten. *)
Ltac io_red := cbv beta iota; cbn [w_files w_db w_script w_times].
