(* ===== verification/IoLogic.v ===== *)
(** * A program logic for computations with failures and crashes

    [wp S m Q C fs db]: from the files [fs] and the database [db], with any
    script of outcomes in [S] and any clock, the computation [m] ends in a state
    that satisfies [Q] when it returns and [C] when the process dies in it.  The
    storage proofs compose the rules below instead of enumerating the outcomes
    of every call. *)

From stdpp Require Import base gmap list.
From Stdlib Require Import ZArith Lia.
From S2P Require Import Prelude Posix.

(** The clock returns 64-bit times. *)
Definition clock_ok (ts : list Z) : Prop := Forall (λ t, - 2 ^ 63 <= t < 2 ^ 63)%Z ts.

(** Any outcome; and no failure of the file system other than a crash. *)
Definition anything (o : outcome) : Prop := True.
Definition smooth (o : outcome) : Prop := o = SysOk ∨ o = SysCrash.

Definition may_fail (S : outcome → Prop) : Prop := S SysEintr ∨ ∃ e, S (SysErr e).
Definition may_short (S : outcome → Prop) : Prop := ∃ n, S (SysShort n).

Lemma smooth_no_fail : ¬ may_fail smooth.
Proof. intros [[|]|[e [|]]]; done. Qed.

Lemma smooth_no_short : ¬ may_short smooth.
Proof. by intros [n [|]]. Qed.

Section wp.
Context {DB : Type}.
Implicit Types fs : gmap path bytes.
Implicit Types S : outcome → Prop.
Implicit Types C : gmap path bytes → DB → Prop.

Definition world_ok S (w : World DB) : Prop := Forall S (w_script w) ∧ clock_ok (w_times w).

Definition wp {A} S (m : IO DB A) (Q : A → gmap path bytes → DB → Prop) C fs (db : DB) : Prop :=
  ∀ w, w_files w = fs → w_db w = db → world_ok S w →
  world_ok S (m w).2 ∧
  match (m w).1 with
  | Some x => Q x (w_files (m w).2) (w_db (m w).2)
  | None => C (w_files (m w).2) (w_db (m w).2)
  end.

Lemma wp_ret {A} S (x : A) Q C fs db : Q x fs db → wp S (ret x) Q C fs db.
Proof. intros H w <- <- Hw. done. Qed.

Lemma wp_mono {A} S (m : IO DB A) Q Q' C C' fs db :
  wp S m Q C fs db → (∀ x fs' db', Q x fs' db' → Q' x fs' db') →
  (∀ fs' db', C fs' db' → C' fs' db') → wp S m Q' C' fs db.
Proof.
  intros H HQ HC w Ef Ed Hw. destruct (H w Ef Ed Hw) as [? Hm]. split; [done|].
  destruct (m w).1; auto.
Qed.

Lemma wp_bind {A B} S (m : IO DB A) (k : A → IO DB B) Q C fs db :
  wp S m (λ x, wp S (k x) Q C) C fs db → wp S (bind m k) Q C fs db.
Proof.
  intros H w Ef Ed Hw. destruct (H w Ef Ed Hw) as [Hw' Hm]. unfold bind.
  destruct (m w) as [[x|] w']; simpl in *; [|done]. by apply Hm.
Qed.

Lemma next_outcome_ok S (w : World DB) o w' :
  world_ok S w → next_outcome w = (o, w') →
  w_files w' = w_files w ∧ w_db w' = w_db w ∧ w_times w' = w_times w ∧ world_ok S w' ∧
  (o = SysOk ∨ S o).
Proof.
  intros [Hs Ht]. unfold next_outcome, world_ok. destruct (w_script w) as [|o' s] eqn:E.
  - intros [= <- <-]. rewrite E. auto 10.
  - intros [= <- <-]. apply Forall_cons in Hs as [? ?]. auto 10.
Qed.

Lemma wp_syscall S f Q C fs db :
  Q None (f fs) db → (may_fail S → ∀ e, Q (Some e) fs db) → C fs db →
  wp S (syscall f) Q C fs db.
Proof.
  intros HQ Hf HC w <- <- Hw. unfold syscall, may_fail in *.
  destruct (next_outcome w) as [o w'] eqn:E.
  apply (next_outcome_ok S) in E as (E1 & E2 & E3 & Hw' & Ho); [|done].
  destruct o; simpl; rewrite ?E1, ?E2; (split; [done|]); try done; destruct Ho as [|Ho]; try done;
    apply Hf; eauto.
Qed.

Lemma wp_write_all S p data Q C fs db old :
  fs !! p = Some old →
  (∀ k, (k <= length data)%nat → C (<[p := old ++ take k data]> fs) db) →
  (may_fail S → ∀ k e, (k <= length data)%nat → Q (Some e) (<[p := old ++ take k data]> fs) db) →
  Q None (<[p := old ++ data]> fs) db →
  wp S (write_all p data) Q C fs db.
Proof.
  intros Hp HC HE HQ w <- <- [Hs Ht]. unfold write_all.
  destruct (write_all_loop_cases (w_script w) p data (w_files w)) as (k & s & r & E & Hk & Hr); [by eauto|].
  assert (s `suffix_of` w_script w) as Hsuf by by eapply write_all_loop_suffix.
  rewrite E. simpl. split.
  { split; [|done]. destruct Hsuf as [l Hl]. rewrite Hl in Hs. by apply Forall_app in Hs as [_ ?]. }
  rewrite Hp. simpl. destruct r as [[e|]|]; auto.
  - apply HE; [|done]. right. exists e. apply write_all_loop_error in E.
    by eapply Forall_forall in Hs.
  - rewrite (Hr eq_refl), firstn_all. done.
Qed.

Lemma wp_read_file S p Q C fs db :
  (may_fail S → Q None fs db) →
  (may_short S → ∀ n c, fs !! p = Some c → Q (Some (take n c, false)) fs db) →
  (match fs !! p with Some c => Q (Some (c, false)) fs db | None => Q None fs db end) →
  C fs db → wp S (read_file p) Q C fs db.
Proof.
  intros Hf Hs HQ HC w <- <- Hw. unfold read_file, may_fail, may_short in *.
  destruct (next_outcome w) as [o w'] eqn:E.
  apply (next_outcome_ok S) in E as (E1 & E2 & E3 & Hw' & Ho); [|done].
  rewrite E1. destruct o; destruct (w_files w !! p) eqn:Ep; simpl; rewrite ?E1, ?E2;
    (split; [done|]); try done; destruct Ho as [|Ho]; try done; eauto.
Qed.

Lemma wp_sys_time S Q C fs db :
  (∀ t, (- 2 ^ 63 <= t < 2 ^ 63)%Z → Q t fs db) → wp S sys_time Q C fs db.
Proof.
  intros HQ w <- <- [Hs Ht]. unfold sys_time. destruct (w_times w) as [|t ts] eqn:E; simpl.
  - split; [split; [done|by rewrite E]|]. apply HQ. lia.
  - apply Forall_cons in Ht as [? ?]. split; [done|]. by apply HQ.
Qed.

Lemma wp_on_db {A} S (f : DB → A * DB) Q C fs db :
  (∀ x db', f db = (x, db') → Q x fs db') → C fs db → wp S (on_db f) Q C fs db.
Proof.
  intros HQ HC w <- <- Hw. unfold on_db. destruct (next_outcome w) as [o w'] eqn:E.
  apply (next_outcome_ok S) in E as (E1 & E2 & E3 & Hw' & Ho); [|done].
  destruct (f (w_db w')) as [x db'] eqn:Ef. rewrite E2 in Ef.
  destruct o; simpl; rewrite ?E1, ?E2; (split; [done|]); auto.
Qed.

Lemma wp_list_dir S dir Q C fs db :
  (∀ ps, Forall (λ p, removelast p = dir ∧ p ≠ []) ps → Q ps fs db) → C fs db →
  wp S (sys_list_dir dir) Q C fs db.
Proof.
  intros HQ HC w <- <- Hw. unfold sys_list_dir. destruct (next_outcome w) as [o w'] eqn:E.
  apply (next_outcome_ok S) in E as (E1 & E2 & E3 & Hw' & Ho); [|done].
  assert (Forall (λ p, removelast p = dir ∧ p ≠ [])
    (filter (λ p, removelast p = dir ∧ p ≠ []) (elements (dom (w_files w'))))) as Hfil.
  { apply Forall_forall. intros p [? _]%list_elem_of_filter. done. }
  rewrite E1 in *. destruct o; simpl; rewrite ?E1, ?E2; (split; [done|]); auto.
Qed.

(** What a proved computation does on a concrete world. *)
Lemma wp_elim {A} S (m : IO DB A) Q C w r w' :
  wp S m Q C (w_files w) (w_db w) → world_ok S w → m w = (r, w') →
  world_ok S w' ∧
  match r with Some x => Q x (w_files w') (w_db w') | None => C (w_files w') (w_db w') end.
Proof. intros H Hw E. specialize (H w eq_refl eq_refl Hw). by rewrite E in H. Qed.
End wp.

#[global] Opaque wp.
