(* ===== verification/Wal.v ===== *)
(** * The write-ahead log

    [include/storage/wal.h] and [src/storage/wal.cc]: the record codec, the
    appends (write loop and [fsync] included), truncation, and replay. *)

From stdpp Require Import base gmap list.
From Stdlib Require Import ZArith Lia.
From S2P Require Import Prelude Status Wire Framing Posix IoLogic.

Local Open Scope Z_scope.

(** ** The log's own copy of the wire helpers (wal.cc, anonymous namespace) *)

Definition Crc32 (data : bytes) : Z :=
  let crc :=
    foldl (λ crc b,
      Nat.iter 8 (λ crc, let mask := u32 (- Z.land crc 1) in
                         Z.lxor (Z.shiftr crc 1) (Z.land 0xedb88320 mask))
        (Z.lxor crc (Zb b))) 0xffffffff data in
  u32 (Z.lnot crc).

Definition PutU32 (out : bytes) (v : Z) : bytes :=
  foldl (λ out i, out ++ [bZ (Z.land (Z.shiftr v (i * 8)) 0xff)]) out [3; 2; 1; 0].

Definition PutU64 (out : bytes) (v : Z) : bytes :=
  foldl (λ out i, out ++ [bZ (Z.land (Z.shiftr v (i * 8)) 0xff)]) out [7; 6; 5; 4; 3; 2; 1; 0].

Definition PutStr (out : bytes) (s : bytes) : bytes := PutU32 out (u32 (Zlen s)) ++ s.

(** [Reader::U8], [U32], [U64], [Str] *)
Definition U8 (rd : Reader) : option (Z * Reader) :=
  if (length (rd_p rd) <? rd_pos rd + 1)%nat then None
  else Some (Zb (nth (rd_pos rd) (rd_p rd) Byte.x00), mkReader (rd_p rd) (S (rd_pos rd))).

Definition U32 (rd : Reader) : option (Z * Reader) :=
  if (length (rd_p rd) <? rd_pos rd + 4)%nat then None else Some (read_be u32 4 0 rd).

Definition U64 (rd : Reader) : option (Z * Reader) :=
  if (length (rd_p rd) <? rd_pos rd + 8)%nat then None else Some (read_be u64 8 0 rd).

Definition Str (rd : Reader) : option (bytes * Reader) :=
  match U32 rd with
  | None => None
  | Some (len, rd) =>
      if Zlen (rd_p rd) <? Z.of_nat (rd_pos rd) + len then None
      else Some (substr (rd_p rd) (rd_pos rd) (Z.to_nat len),
                 mkReader (rd_p rd) (rd_pos rd + Z.to_nat len))
  end.

(** ** Records *)

(** [enum class WalOp : uint8_t].  The enum has a fixed underlying type, so a
    decoded byte other than 1 and 2 is a value of it too. *)
Inductive WalOp := kPut | kDelete | WalOpOther (v : Z).

#[global] Instance WalOp_eq_dec : EqDecision WalOp.
Proof. solve_decision. Defined.

Definition WalOp_to_u8 (op : WalOp) : Z :=
  match op with kPut => 1 | kDelete => 2 | WalOpOther v => v end.

(** [static_cast<WalOp>(op)] *)
Definition WalOp_of_u8 (v : Z) : WalOp :=
  if v =? 1 then kPut else if v =? 2 then kDelete else WalOpOther v.

Record WalRecord := mkWalRecord {
  wr_seq : Z;
  wr_is_commit : bool;   (** false = BEGIN (fields below valid); true = COMMIT *)
  wr_op : WalOp;
  wr_key : bytes;
  wr_version : Z;
  wr_checksum : bytes;   (** sha256 hex of the payload (for PUT) *)
  wr_size : Z;
}.

#[global] Instance WalRecord_eq_dec : EqDecision WalRecord.
Proof. solve_decision. Defined.

(** The default-initialised record. *)
Definition WalRecord_default : WalRecord := mkWalRecord 0 false kPut [] 0 [] 0.

Definition EncodeBody (rec : WalRecord) : bytes :=
  let body := [bZ (if wr_is_commit rec then 1 else 0)] in
  let body := PutU64 body (wr_seq rec) in
  if wr_is_commit rec then body
  else
    let body := body ++ [bZ (WalOp_to_u8 (wr_op rec))] in
    let body := PutU64 body (wr_version rec) in
    let body := PutU64 body (wr_size rec) in
    let body := PutStr body (wr_key rec) in
    PutStr body (wr_checksum rec).

Definition DecodeBody (body : bytes) : option WalRecord :=
  let r := Reader_new body in
  match U8 r with
  | None => None
  | Some (is_commit, r) =>
      match U64 r with
      | None => None
      | Some (seq, r) =>
          if negb (is_commit =? 0) then
            Some (mkWalRecord seq true kPut [] 0 [] 0)
          else
            match U8 r with
            | None => None
            | Some (op, r) =>
                match U64 r with
                | None => None
                | Some (version, r) =>
                    match U64 r with
                    | None => None
                    | Some (size, r) =>
                        match Str r with
                        | None => None
                        | Some (key, r) =>
                            match Str r with
                            | None => None
                            | Some (checksum, _) =>
                                Some (mkWalRecord seq false (WalOp_of_u8 op) key version checksum size)
                            end
                        end
                    end
                end
            end
      end
  end.

(** ** The log object *)

Record Wal := mkWal {
  wal_fd : bool;        (** [fd_ >= 0] *)
  wal_path : path;
  wal_next_seq : Z;
}.

(** The bytes [AppendRecord] writes: [u32 body_len][body][u32 crc]. *)
Definition record_frame (rec : WalRecord) : bytes :=
  let body := EncodeBody rec in
  let crc := Crc32 body in
  let frame := PutU32 [] (u32 (Zlen body)) in
  let frame := frame ++ body in
  PutU32 frame crc.

Arguments record_frame : simpl never.

(** The scan of [Replay]: stops at the first frame that is torn, corrupt or not
    a record. *)
Fixpoint Replay_loop (fuel : nat) (all : bytes) (pos : nat) : list WalRecord :=
  match fuel with
  | O => []
  | S fuel' =>
      if (pos + 4 <=? length all)%nat then
        let body_len := read_u32_at all pos in
        let frame_end := Z.of_nat pos + 4 + body_len + 4 in
        if (body_len =? 0) || (Zlen all <? frame_end) then []
        else
          let body := substr all (pos + 4) (Z.to_nat body_len) in
          let stored_crc := read_u32_at all (pos + 4 + Z.to_nat body_len) in
          if negb (Crc32 body =? stored_crc) then []
          else
            match DecodeBody body with
            | None => []
            | Some rec => rec :: Replay_loop fuel' all (Z.to_nat frame_end)
            end
      else []
  end.

(** [Replay] of the file's content; the loop runs at most once per byte. *)
Definition Replay_bytes (all : bytes) : list WalRecord := Replay_loop (length all) all 0.

Section log.
Context {DB : Type}.

Definition Replay (p : path) : IO DB (StatusOr (list WalRecord)) :=
  let! r := read_file p in
  match r with
  | None => ret (FromValue [])  (* no WAL yet *)
  | Some (all, _) => ret (FromValue (Replay_bytes all))
  end.

Definition Open (p : path) : IO DB (StatusOr Wal) :=
  let! _ := create_directories (removelast p) in
  let! e := sys_open_append p in
  match e with
  | Some err => ret (FromStatus (IoError (lit "open wal: " ++ err)))
  | None =>
      let wal := mkWal true p 1 in
      let! existing := Replay p in
      match existing with
      | FromValue rs =>
          let max_seq := foldl (λ m r, Z.max m (wr_seq r)) 0 rs in
          ret (FromValue (mkWal true p (u64 (max_seq + 1))))
      | FromStatus _ => ret (FromValue wal)
      end
  end.

(** [NextSeq] *)
Definition NextSeq (wal : Wal) : Z * Wal :=
  (wal_next_seq wal, mkWal (wal_fd wal) (wal_path wal) (u64 (wal_next_seq wal + 1))).

Definition AppendRecord (wal : Wal) (rec : WalRecord) : IO DB Status :=
  let frame := record_frame rec in
  let! e := (if wal_fd wal then write_all (wal_path wal) frame
             else ret (Some (lit "Bad file descriptor"))) in
  match e with
  | Some err => ret (IoError (lit "wal write: " ++ err))
  | None =>
      let! f := sys_fsync in
      match f with
      | Some err => ret (IoError (lit "wal fsync: " ++ err))
      | None => ret Ok
      end
  end.

Definition AppendBegin (wal : Wal) (seq : Z) (op : WalOp) (key : bytes) (version : Z)
    (checksum : bytes) (size : Z) : IO DB Status :=
  AppendRecord wal (mkWalRecord seq false op key version checksum size).

Definition AppendCommit (wal : Wal) (seq : Z) : IO DB Status :=
  AppendRecord wal (mkWalRecord seq true kPut [] 0 [] 0).

Definition Truncate (wal : Wal) : IO DB (Status * Wal) :=
  let! _ := sys_close in
  let! e := sys_open_trunc (wal_path wal) in
  match e with
  | Some err => ret (IoError (lit "truncate wal: " ++ err),
                     mkWal false (wal_path wal) (wal_next_seq wal))
  | None => ret (Ok, mkWal true (wal_path wal) 1)
  end.
End log.

(** ** The copy of the wire helpers is the shared one *)

Lemma PutU32_wire : PutU32 = Wire.PutU32. Proof. reflexivity. Qed.
Lemma PutU64_wire : PutU64 = Wire.PutU64. Proof. reflexivity. Qed.
Lemma PutStr_wire : PutStr = Wire.PutStr. Proof. reflexivity. Qed.
Lemma U32_wire : U32 = Wire.U32. Proof. reflexivity. Qed.
Lemma U64_wire : U64 = Wire.U64. Proof. reflexivity. Qed.
Lemma Str_wire : Str = Wire.Str. Proof. reflexivity. Qed.
Lemma Crc32_wire data : Crc32 data = Wire.Crc32 data.
Proof. unfold Crc32, Wire.Crc32, Crc32_byte, Crc32_bit. reflexivity. Qed.

Lemma U8_app rd b k : rest rd = [b] ++ k → U8 rd = Some (Zb b, advance 1 rd).
Proof.
  intros Hr. unfold U8, advance.
  pose proof (f_equal length Hr) as Hl. rewrite length_rest in Hl. simpl in Hl.
  case_bool; prop_bool; [lia|]. unfold rest in Hr.
  rewrite <-(Nat.add_0_r (rd_pos rd)) at 1. rewrite <-nth_skipn.
  change (skipn (rd_pos rd) (rd_p rd)) with (drop (rd_pos rd) (rd_p rd)). rewrite Hr. simpl.
  by rewrite Nat.add_1_r.
Qed.

(** ** The codec *)

(** The values the record's fields can have, and the sizes of its strings. *)
Definition record_ok (r : WalRecord) : Prop :=
  is_u64 (wr_seq r) ∧ is_u64 (wr_version r) ∧ is_u64 (wr_size r) ∧
  WalOp_of_u8 (u8 (WalOp_to_u8 (wr_op r))) = wr_op r ∧
  Zlen (wr_key r) + Zlen (wr_checksum r) < 2 ^ 32 - 34 ∧
  (wr_is_commit r = true →
     wr_op r = kPut ∧ wr_key r = [] ∧ wr_version r = 0 ∧ wr_checksum r = [] ∧ wr_size r = 0).

Lemma EncodeBody_begin r :
  wr_is_commit r = false →
  EncodeBody r = [bZ 0] ++ be_bytes 8 (wr_seq r) ++ [bZ (WalOp_to_u8 (wr_op r))]
    ++ be_bytes 8 (wr_version r) ++ be_bytes 8 (wr_size r)
    ++ be_bytes 4 (u32 (Zlen (wr_key r))) ++ wr_key r
    ++ be_bytes 4 (u32 (Zlen (wr_checksum r))) ++ wr_checksum r.
Proof.
  intros Hc. unfold EncodeBody. rewrite Hc, PutStr_wire, PutU64_wire.
  rewrite !PutStr_be, !PutU64_be. by rewrite <-!app_assoc.
Qed.

Lemma EncodeBody_commit r :
  wr_is_commit r = true → EncodeBody r = [bZ 1] ++ be_bytes 8 (wr_seq r).
Proof. intros Hc. unfold EncodeBody. by rewrite Hc, PutU64_wire, PutU64_be. Qed.

(** Every field of [r] decodes to what was encoded. *)
Lemma DecodeBody_EncodeBody r : record_ok r → DecodeBody (EncodeBody r) = Some r.
Proof.
  intros (Hseq & Hver & Hsz & Hop & Hlen & Hcommit).
  destruct (wr_is_commit r) eqn:Hc.
  - destruct Hcommit as (E1 & E2 & E3 & E4 & E5); [done|].
    rewrite EncodeBody_commit by done. unfold DecodeBody. rewrite U64_wire.
    erewrite U8_app by done.
    erewrite (U64_put _ _ []); [|exact Hseq|by skip_read; rewrite app_nil_r].
    destruct r; simpl in *; subst. done.
  - rewrite EncodeBody_begin by done. unfold DecodeBody. rewrite U64_wire, Str_wire.
    erewrite U8_app by done.
    erewrite U64_put; [|exact Hseq|by skip_read].
    erewrite U8_app by by skip_read.
    erewrite U64_put; [|exact Hver|by skip_read].
    erewrite U64_put; [|exact Hsz|by skip_read].
    erewrite (Str_put _ (wr_key r)); [|unfold is_u32; lia|by skip_read].
    erewrite (Str_put _ (wr_checksum r) []); [|unfold is_u32; lia|by skip_read; rewrite app_nil_r].
    rewrite !Zb_bZ. change (negb (0 mod 256 =? 0)) with false. cbv iota beta.
    change (WalOp_to_u8 (wr_op r) mod 256) with (u8 (WalOp_to_u8 (wr_op r))).
    rewrite Hop. by destruct r; simpl in *; subst.
Qed.

Lemma EncodeBody_ok r : record_ok r → body_ok (EncodeBody r).
Proof.
  intros (_ & _ & _ & _ & Hlen & _). unfold body_ok. destruct (wr_is_commit r) eqn:Hc.
  - rewrite EncodeBody_commit by done. rewrite length_app, length_be_bytes. simpl. lia.
  - rewrite EncodeBody_begin by done. rewrite !length_app, !length_be_bytes. simpl. lia.
Qed.

Lemma record_frame_Frame r : record_frame r = Frame (EncodeBody r).
Proof. unfold record_frame, Frame. by rewrite PutU32_wire, Crc32_wire. Qed.

(** ** Replay *)

(** The loop, with one iteration expressed by the shared frame scanner. *)
Lemma Replay_loop_next f all pos :
  Replay_loop (S f) all pos =
  match next_frame all pos with
  | None => []
  | Some (body, e) =>
      match DecodeBody body with
      | None => []
      | Some rec => rec :: Replay_loop f all e
      end
  end.
Proof.
  cbn [Replay_loop]. unfold next_frame. case_bool; [|done]. case_bool; [done|].
  rewrite Crc32_wire. by destruct (Wire.Crc32 _ =? _).
Qed.

Lemma Replay_loop_nil f all pos : next_frame all pos = None → Replay_loop f all pos = [].
Proof. intros E. destruct f; [done|]. by rewrite Replay_loop_next, E. Qed.

(** Replay reads the frames and keeps the records up to the first body that is
    not a record. *)
Fixpoint decode_prefix (bodies : list bytes) : list WalRecord :=
  match bodies with
  | [] => []
  | b :: l => match DecodeBody b with None => [] | Some r => r :: decode_prefix l end
  end.

Lemma Replay_loop_frames f all pos :
  Replay_loop f all pos = decode_prefix (ReadFramedRecords_loop f all pos).
Proof.
  revert pos. induction f as [|f IH]; intros pos; [done|].
  rewrite Replay_loop_next. simpl.
  destruct (next_frame all pos) as [[b e]|]; [|done]. simpl.
  destruct (DecodeBody b); [|done]. by rewrite IH.
Qed.

Lemma Replay_bytes_frames all : Replay_bytes all = decode_prefix (ReadFramedRecords (Some all)).
Proof. apply Replay_loop_frames. Qed.

Lemma decode_prefix_encode rs : Forall record_ok rs → decode_prefix (map EncodeBody rs) = rs.
Proof.
  induction 1 as [|r rs Hr Hrs IH]; simpl; [done|].
  rewrite DecodeBody_EncodeBody by done. by rewrite IH.
Qed.

Definition log_bytes (rs : list WalRecord) : bytes := concat (map record_frame rs).

Lemma log_bytes_frames rs : log_bytes rs = frames (map EncodeBody rs).
Proof.
  unfold log_bytes, frames. f_equal. rewrite map_map. apply map_ext.
  intros r. apply record_frame_Frame.
Qed.

Lemma log_bytes_snoc rs r : log_bytes (rs ++ [r]) = log_bytes rs ++ record_frame r.
Proof. unfold log_bytes. rewrite map_app, concat_app. simpl. by rewrite app_nil_r. Qed.

Lemma Replay_log_tail rs tail :
  Forall record_ok rs → next_frame tail 0 = None → Replay_bytes (log_bytes rs ++ tail) = rs.
Proof.
  intros Hrs Ht. rewrite Replay_bytes_frames, log_bytes_frames, ReadFramedRecords_frames.
  - by apply decode_prefix_encode.
  - apply Forall_map. eapply Forall_impl; [done|]. intros r. apply EncodeBody_ok.
  - done.
Qed.

Lemma Replay_log rs : Forall record_ok rs → Replay_bytes (log_bytes rs) = rs.
Proof. intros. rewrite <-(app_nil_r (log_bytes rs)). by apply Replay_log_tail. Qed.

(** A log whose last append was cut short anywhere replays to the records before
    it; complete, it replays with it. *)
Lemma Replay_log_torn rs r k :
  Forall record_ok rs → record_ok r →
  Replay_bytes (log_bytes rs ++ take k (record_frame r)) =
  if (length (record_frame r) <=? k)%nat then rs ++ [r] else rs.
Proof.
  intros Hrs Hr. case_bool; prop_bool.
  - rewrite take_ge by done. rewrite <-log_bytes_snoc. apply Replay_log.
    by apply Forall_app_2; [|apply Forall_singleton].
  - apply Replay_log_tail; [done|]. rewrite record_frame_Frame in *.
    apply next_frame_torn; [by apply EncodeBody_ok|done].
Qed.

(** ** Appends *)

Section appends.
Context {DB : Type}.
Implicit Types w : World DB.

(** An append extends the file by a prefix of the frame, by all of it when it
    returns [Ok], and touches nothing else. *)
Lemma AppendRecord_cases wal rec w old :
  wal_fd wal = true → w_files w !! wal_path wal = Some old →
  ∃ k s r, AppendRecord wal rec w =
      (r, mkWorld (<[wal_path wal := old ++ take k (record_frame rec)]> (w_files w))
                  (w_db w) s (w_times w)) ∧
    (k <= length (record_frame rec))%nat ∧
    (∀ st, r = Some st → (st = Ok ∧ k = length (record_frame rec)) ∨ st_ok st = false).
Proof.
  intros Hfd Hold. unfold AppendRecord. rewrite Hfd. unfold bind at 1.
  destruct (write_all_cases (wal_path wal) (record_frame rec) w) as (k & s & r & -> & Hk & Hr);
    [eauto|]. rewrite Hold. simpl default.
  destruct r as [[e|]|].
  - exists k, s, (Some (IoError (lit "wal write: " ++ e))). repeat split; [lia|].
    intros st [= <-]. by right.
  - specialize (Hr eq_refl).
    edestruct (syscall_cases (DB := DB) (λ fs, fs)) as (s' & [E|[[e E]|E]]);
      unfold bind, sys_fsync; rewrite E; io_red.
    + exists k, s', (Some Ok). repeat split; [lia|]. intros st [= <-]. by left.
    + exists k, s', (Some (IoError (lit "wal fsync: " ++ e))). repeat split; [lia|].
      intros st [= <-]. by right.
    + exists k, s', None. repeat split; [lia|]. done.
  - exists k, s, None. repeat split; [lia|]. done.
Qed.

Lemma wp_AppendRecord S wal rec Q C fs (db : DB) old :
  wal_fd wal = true → fs !! wal_path wal = Some old →
  (∀ k, (k <= length (record_frame rec))%nat →
     C (<[wal_path wal := old ++ take k (record_frame rec)]> fs) db) →
  (may_fail S → ∀ k s, (k <= length (record_frame rec))%nat → st_ok s = false ∧ st_code s = kIoError →
     Q s (<[wal_path wal := old ++ take k (record_frame rec)]> fs) db) →
  Q Ok (<[wal_path wal := old ++ record_frame rec]> fs) db →
  wp S (AppendRecord wal rec) Q C fs db.
Proof.
  intros Hfd Hold HC HE HQ. unfold AppendRecord. rewrite Hfd. apply wp_bind.
  apply wp_write_all with (old := old); [done|done| |].
  { intros Hfail k e Hk. apply wp_ret. by apply HE. }
  pose proof (firstn_all (record_frame rec)) as Hall. rewrite <-Hall in HQ |- *.
  apply wp_bind, wp_syscall.
  - by apply wp_ret.
  - intros Hfail e. apply wp_ret. by apply HE.
  - by apply HC.
Qed.
End appends.

(** A log that replays to [rs] replays, after an append that ended in any way, to
    [rs] or to [rs] and the new record. *)
Lemma Replay_after_append rs rec k :
  Forall record_ok rs → record_ok rec →
  Replay_bytes (log_bytes rs ++ take k (record_frame rec)) = rs ∨
  Replay_bytes (log_bytes rs ++ take k (record_frame rec)) = rs ++ [rec].
Proof. intros. rewrite Replay_log_torn by done. case_bool; auto. Qed.

(** ** Properties *)

(** C23 (wal_append_atomic). Whatever happens during [Wal::AppendRecord] (short
    writes, [EINTR], an I/O error, a failing [fsync], the process dying in any
    call), the log file afterwards replays either to the records it held before
    or to those followed by the new record, never to a partial or different
    record; when the append returned [Ok] the new record is in the file; and no
    other file changes. *)
Theorem wal_append_atomic {DB} (w w' : World DB) wal rs rec r :
  wal_fd wal = true → w_files w !! wal_path wal = Some (log_bytes rs) →
  Forall record_ok rs → record_ok rec →
  AppendRecord wal rec w = (r, w') →
  ∃ content, w_files w' !! wal_path wal = Some content ∧
    (Replay_bytes content = rs ∨ Replay_bytes content = rs ++ [rec]) ∧
    (r = Some Ok → content = log_bytes (rs ++ [rec]) ∧ Replay_bytes content = rs ++ [rec]) ∧
    (∀ p, p ≠ wal_path wal → w_files w' !! p = w_files w !! p).
Proof.
  intros Hfd Hold Hrs Hrec Happ.
  destruct (AppendRecord_cases wal rec w _ Hfd Hold) as (k & s & r' & E & Hk & Hr).
  rewrite E in Happ. injection Happ as -> <-.
  eexists. simpl. rewrite lookup_insert_eq. repeat split; auto using Replay_after_append.
  - destruct (Hr Ok H) as [[_ ->]|?]; [|done]. by rewrite firstn_all, log_bytes_snoc.
  - destruct (Hr Ok H) as [[_ ->]|?]; [|done]. rewrite firstn_all, <-log_bytes_snoc.
    apply Replay_log, Forall_app_2; [done|by apply Forall_singleton].
  - intros p Hp. by rewrite lookup_insert_ne.
Qed.

(** A put record and the commit record of the same operation. *)
Definition sample_begin : WalRecord := mkWalRecord 1 false kPut (lit "greeting") 1 (lit "abc") 5.
Definition sample_commit : WalRecord := mkWalRecord 1 true kPut [] 0 [] 0.

Lemma sample_records_ok : record_ok sample_begin ∧ record_ok sample_commit.
Proof. split; (repeat split; try done; vm_compute; lia). Qed.

(** The commit record is appended in two short writes and the process dies in
    between. *)
Definition sample_wal : Wal := mkWal true [lit "wal"] 2.
Definition sample_world : World () :=
  mkWorld {[ [lit "wal"] := log_bytes [sample_begin] ]} () [SysShort 5; SysEintr; SysCrash] [].

Lemma wal_append_atomic_witness :
  ∃ r w' content, AppendRecord sample_wal sample_commit sample_world = (r, w') ∧
    w_files w' !! wal_path sample_wal = Some content ∧
    (Replay_bytes content = [sample_begin] ∨ Replay_bytes content = [sample_begin; sample_commit]).
Proof.
  destruct (AppendRecord sample_wal sample_commit sample_world) as [r w'] eqn:E.
  destruct sample_records_ok.
  destruct (wal_append_atomic sample_world w' sample_wal [sample_begin] sample_commit r)
    as (content & H1 & H2 & _);
    [reflexivity|apply lookup_singleton_eq|by apply Forall_singleton|done|done|].
  eauto 10.
Defined.

(** C40 (wal_corruption_stops_replay). If the body of a record on disk is damaged
    within four consecutive bytes, in any way, replay returns exactly the
    records before it: a damaged record is never decoded, and neither is
    anything after it. *)
Theorem wal_corruption_stops_replay rs rec a l l' b later :
  Forall record_ok rs → record_ok rec → EncodeBody rec = a ++ l ++ b →
  length l = length l' → (length l ≤ 4)%nat → l ≠ l' →
  Replay_bytes (log_bytes rs
    ++ (PutU32 [] (Zlen (EncodeBody rec)) ++ (a ++ l' ++ b) ++ PutU32 [] (Crc32 (EncodeBody rec)))
    ++ later) = rs.
Proof.
  intros Hrs Hrec Hbody Hl H4 Hne. apply Replay_log_tail; [done|].
  rewrite PutU32_wire, !PutU32_be, Crc32_wire, !app_nil_l, <-!app_assoc, Hbody.
  rewrite (app_assoc l' b), (app_assoc a (l' ++ b)).
  apply next_frame_corrupt; [|done..].
  rewrite <-Hbody. by apply EncodeBody_ok.
Qed.

Lemma wal_corruption_stops_replay_witness :
  Replay_bytes (log_bytes [sample_begin]
    ++ (PutU32 [] (Zlen (EncodeBody sample_commit))
        ++ ([] ++ [bZ 7] ++ drop 1 (EncodeBody sample_commit))
        ++ PutU32 [] (Crc32 (EncodeBody sample_commit)))
    ++ log_bytes [sample_begin]) = [sample_begin].
Proof.
  destruct sample_records_ok.
  apply (wal_corruption_stops_replay [sample_begin] sample_commit [] [bZ 1] [bZ 7]);
    [by apply Forall_singleton|done|reflexivity|reflexivity|simpl; lia|discriminate].
Defined.
