(* ===== verification/Sha256.v ===== *)
(** * SHA-256, the placement hash and the object paths

    [src/common/sha256.cc] (streaming SHA-256), [src/common/hash.cc] ([Hash64])
    and [src/common/digest.cc] ([KeyDigest], [PhysicalPath]). *)

From stdpp Require Import base list.
From Stdlib Require Import ZArith Lia.
From S2P Require Import Prelude Wire Posix.

Local Open Scope Z_scope.

(** ** Constants *)

Definition kInitState : list Z :=
  [0x6a09e667; 0xbb67ae85; 0x3c6ef372; 0xa54ff53a; 0x510e527f; 0x9b05688c; 0x1f83d9ab; 0x5be0cd19].

(** A table of constants, written in hexadecimal and separated by spaces. *)
Definition hex_table (rows : list bytes) : list Z :=
  let digit c := if Zb c <? 58 then Zb c - 48 else Zb c - 87 in
  let step '(out, cur) c := if Zb c =? 32 then (out ++ [cur], 0) else (out, cur * 16 + digit c) in
  (foldl step ([], 0) (concat rows)).1.

Definition kRoundConstants : list Z := Eval vm_compute in hex_table
  [lit "428a2f98 71374491 b5c0fbcf e9b5dba5 3956c25b 59f111f1 923f82a4 ab1c5ed5 ";
    lit "d807aa98 12835b01 243185be 550c7dc3 72be5d74 80deb1fe 9bdc06a7 c19bf174 ";
    lit "e49b69c1 efbe4786 0fc19dc6 240ca1cc 2de92c6f 4a7484aa 5cb0a9dc 76f988da ";
    lit "983e5152 a831c66d b00327c8 bf597fc7 c6e00bf3 d5a79147 06ca6351 14292967 ";
    lit "27b70a85 2e1b2138 4d2c6dfc 53380d13 650a7354 766a0abb 81c2c92e 92722c85 ";
    lit "a2bfe8a1 a81a664b c24b8b70 c76c51a3 d192e819 d6990624 f40e3585 106aa070 ";
    lit "19a4c116 1e376c08 2748774c 34b0bcb5 391c0cb3 4ed8aa4a 5b9cca4f 682e6ff3 ";
    lit "748f82ee 78a5636f 84c87814 8cc70208 90befffa a4506ceb bef9a3f7 c67178f2 "].

Definition Rotr (x n : Z) : Z := Z.lor (Z.shiftr x n) (u32 (Z.shiftl x (32 - n))).

(** ** [class Sha256].  Of [buffer_] only the first [buffer_len_] bytes are ever
    read; they are [sha_buffer], and [buffer_len_] is its length. *)
Record Sha256 := mkSha256 {
  sha_state : list Z;
  sha_bit_count : Z;
  sha_buffer : bytes;
}.

Definition Reset : Sha256 := mkSha256 kInitState 0 [].

(** [w[i]] *)
Definition word (w : list Z) (i : nat) : Z := nth i w 0.

(** The message schedule: sixteen words from the block, the others computed. *)
Definition schedule_init (block : bytes) : list Z :=
  map (λ i : nat,
    let b j := Zb (nth (i * 4 + j) block Byte.x00) in
    Z.lor (Z.lor (Z.lor (Z.shiftl (b 0%nat) 24) (Z.shiftl (b 1%nat) 16)) (Z.shiftl (b 2%nat) 8)) (b 3%nat))
    (seq 0 16).

Definition schedule_step (w : list Z) (i : nat) : list Z :=
  let w15 := word w (i - 15) in
  let w2 := word w (i - 2) in
  let s0 := Z.lxor (Z.lxor (Rotr w15 7) (Rotr w15 18)) (Z.shiftr w15 3) in
  let s1 := Z.lxor (Z.lxor (Rotr w2 17) (Rotr w2 19)) (Z.shiftr w2 10) in
  w ++ [u32 (word w (i - 16) + s0 + word w (i - 7) + s1)].

(** The eight working variables. *)
Record Vars := mkVars { va : Z; vb : Z; vc : Z; vd : Z; ve : Z; vf : Z; vg : Z; vh : Z }.

Definition round (w : list Z) (v : Vars) (i : nat) : Vars :=
  let s1 := Z.lxor (Z.lxor (Rotr (ve v) 6) (Rotr (ve v) 11)) (Rotr (ve v) 25) in
  let ch := Z.lxor (Z.land (ve v) (vf v)) (Z.land (u32 (Z.lnot (ve v))) (vg v)) in
  let temp1 := u32 (vh v + s1 + ch + nth i kRoundConstants 0 + word w i) in
  let s0 := Z.lxor (Z.lxor (Rotr (va v) 2) (Rotr (va v) 13)) (Rotr (va v) 22) in
  let maj := Z.lxor (Z.lxor (Z.land (va v) (vb v)) (Z.land (va v) (vc v))) (Z.land (vb v) (vc v)) in
  let temp2 := u32 (s0 + maj) in
  mkVars (u32 (temp1 + temp2)) (va v) (vb v) (vc v) (u32 (vd v + temp1)) (ve v) (vf v) (vg v).

(** [ProcessBlock]: the new [state_] *)
Definition ProcessBlock (st : list Z) (block : bytes) : list Z :=
  let w := foldl schedule_step (schedule_init block) (seq 16 48) in
  let v := foldl (round w)
    (mkVars (word st 0) (word st 1) (word st 2) (word st 3)
            (word st 4) (word st 5) (word st 6) (word st 7)) (seq 0 64) in
  [u32 (word st 0 + va v); u32 (word st 1 + vb v); u32 (word st 2 + vc v); u32 (word st 3 + vd v);
   u32 (word st 4 + ve v); u32 (word st 5 + vf v); u32 (word st 6 + vg v); u32 (word st 7 + vh v)].
Arguments ProcessBlock : simpl never.

(** The copy loop of [Update]. *)
Fixpoint Update_loop (fuel : nat) (h : Sha256) (data : bytes) : Sha256 :=
  match fuel with
  | O => h
  | S fuel' =>
      match data with
      | [] => h
      | _ =>
          let take_n := Nat.min (64 - length (sha_buffer h)) (length data) in
          let buf := sha_buffer h ++ take take_n data in
          let data' := drop take_n data in
          let h' :=
            if (length buf =? 64)%nat
            then mkSha256 (ProcessBlock (sha_state h) buf) (sha_bit_count h) []
            else mkSha256 (sha_state h) (sha_bit_count h) buf in
          Update_loop fuel' h' data'
      end
  end.

(** [Update]: every iteration consumes a byte, so [data.size()] iterations do. *)
Definition Update (h : Sha256) (data : bytes) : Sha256 :=
  let h := mkSha256 (sha_state h) (u64 (sha_bit_count h + u64 (Zlen data * 8))) (sha_buffer h) in
  Update_loop (length data) h data.

(** [while (buffer_len_ != 56) Update(&zero, 1);] *)
Fixpoint pad_zeros (fuel : nat) (h : Sha256) : Sha256 :=
  match fuel with
  | O => h
  | S fuel' => if (length (sha_buffer h) =? 56)%nat then h else pad_zeros fuel' (Update h [bZ 0])
  end.

Definition kHex : bytes := lit "0123456789abcdef".

Definition hex_word (w : Z) : bytes :=
  map (λ shift, nth (Z.to_nat (Z.land (Z.shiftr w shift) 0xf)) kHex Byte.x00) [28; 24; 20; 16; 12; 8; 4; 0].

Definition HexDigest (h : Sha256) : bytes :=
  let total_bits := sha_bit_count h in
  let h := Update h [bZ 0x80] in
  let h := pad_zeros 64 h in
  let len_bytes := map (λ i, bZ (Z.land (Z.shiftr total_bits (56 - i * 8)) 0xff)) [0; 1; 2; 3; 4; 5; 6; 7] in
  let st := ProcessBlock (sha_state h) (sha_buffer h ++ len_bytes) in
  concat (map hex_word st).

(** [Sha256Hex] *)
Definition Sha256Hex (data : bytes) : bytes := HexDigest (Update Reset data).

(** ** [Hash64] *)

Definition nibble (c : byte) : Z :=
  if (Zb Byte.x30 <=? Zb c) && (Zb c <=? Zb Byte.x39) then Zb c - Zb Byte.x30
  else u64 (Zb c - Zb Byte.x61 + 10).

Definition Hash64 (data : bytes) : Z :=
  let hex := HexDigest (Update Reset data) in
  foldl (λ value i, Z.lor (u64 (Z.shiftl value 4)) (nibble (nth i hex Byte.x00))) 0 (seq 0 16).

(** ** [KeyDigest] and [PhysicalPath] *)

Definition KeyDigest (key : bytes) : bytes := Sha256Hex key.

Definition PhysicalPath (data_root : path) (key_digest : bytes) : path :=
  let aa := substr key_digest 0 2 in
  let bb := substr key_digest 2 2 in
  data_root ++ [aa; bb; key_digest].

Example sha256_abc :
  Sha256Hex (lit "abc") = lit "ba7816bf8f01cfea414140de5dae2223b00361a396177a9cb410ff61f20015ad".
Proof. vm_compute. reflexivity. Qed.

Example sha256_empty :
  Sha256Hex [] = lit "e3b0c44298fc1c149afbf4c8996fb92427ae41e4649b934ca495991b7852b855".
Proof. vm_compute. reflexivity. Qed.

Example hash64_abc : Hash64 (lit "abc") = 0xba7816bf8f01cfea.
Proof. vm_compute. reflexivity. Qed.

(** ** Reference: the message is cut into 64-byte blocks *)

(** The blocks of a byte string (a last incomplete one left out). *)
Definition blocks (l : bytes) : list bytes :=
  map (λ i, take 64 (drop (64 * i) l)) (seq 0 (length l / 64)).

(** Absorbing a byte string: the state after its blocks, and what is left. *)
Definition absorb (st : list Z) (l : bytes) : list Z * bytes :=
  (foldl ProcessBlock st (blocks l), drop (64 * (length l / 64)) l).

Arguments absorb : simpl never.

Lemma blocks_short l : (length l < 64)%nat → blocks l = [].
Proof. intros H. unfold blocks. by rewrite Nat.div_small. Qed.

Lemma blocks_cons b l : length b = 64%nat → blocks (b ++ l) = b :: blocks l.
Proof.
  intros Hb. unfold blocks. rewrite length_app, Hb.
  replace ((64 + length l) / 64)%nat with (S (length l / 64)).
  2:{ replace (64 + length l)%nat with (length l + 1 * 64)%nat by lia.
      rewrite Nat.div_add by lia. lia. }
  cbn [seq map]. f_equal; [by apply take_app_exact|].
  rewrite <-seq_shift, map_map. apply map_ext. intros i.
  replace (64 * S i)%nat with (length b + 64 * i)%nat by lia.
  by rewrite drop_app_add.
Qed.

Lemma absorb_fst st l : (absorb st l).1 = foldl ProcessBlock st (blocks l).
Proof. done. Qed.

Lemma absorb_short st l : (length l < 64)%nat → absorb st l = (st, l).
Proof. intros H. unfold absorb. rewrite blocks_short, Nat.div_small by done. done. Qed.

Lemma absorb_cons st b l :
  length b = 64%nat → absorb st (b ++ l) = absorb (ProcessBlock st b) l.
Proof.
  intros Hb. unfold absorb. rewrite blocks_cons, length_app, Hb by done.
  cbn [foldl]. f_equal.
  replace ((64 + length l) / 64)%nat with (S (length l / 64)).
  2:{ replace (64 + length l)%nat with (length l + 1 * 64)%nat by lia.
      rewrite Nat.div_add by lia. lia. }
  replace (64 * S (length l / 64))%nat with (length b + 64 * (length l / 64))%nat by lia.
  by rewrite drop_app_add.
Qed.

Lemma absorb_one st b : length b = 64%nat → (absorb st b).1 = ProcessBlock st b.
Proof.
  intros Hb. rewrite <-(app_nil_r b) at 1.
  by rewrite absorb_cons, absorb_short by (done || simpl; lia).
Qed.

Lemma absorb_rest_short st l : (length (absorb st l).2 < 64)%nat.
Proof.
  unfold absorb. cbn [fst snd]. rewrite length_drop.
  pose proof (Nat.div_mod (length l) 64 ltac:(lia)).
  pose proof (Nat.mod_upper_bound (length l) 64 ltac:(lia)). lia.
Qed.

Lemma absorb_rest_length st l : length (absorb st l).2 = (length l mod 64)%nat.
Proof.
  unfold absorb. cbn [fst snd]. rewrite length_drop.
  pose proof (Nat.div_mod (length l) 64 ltac:(lia)). lia.
Qed.

Lemma absorb_app st l k :
  absorb st (l ++ k) = absorb (absorb st l).1 ((absorb st l).2 ++ k).
Proof.
  remember (length l) as n eqn:Hn. revert st l Hn.
  induction n as [n IH] using lt_wf_ind. intros st l Hn.
  destruct (decide (length l < 64)%nat).
  { by rewrite (absorb_short st l). }
  assert (length (take 64 l) = 64%nat) as Ht by (rewrite length_take; lia).
  assert (absorb st l = absorb (ProcessBlock st (take 64 l)) (drop 64 l)) as ->.
  { rewrite <-(take_drop 64 l) at 1. by rewrite absorb_cons. }
  rewrite <-(take_drop 64 l) at 1. rewrite <-app_assoc, absorb_cons by done.
  apply (IH (length (drop 64 l))); [rewrite length_drop; lia|done].
Qed.

Lemma ProcessBlock_u32 st b : Forall (λ w, 0 <= w < 2 ^ 32) (ProcessBlock st b).
Proof. repeat (apply List.Forall_cons; [apply u32_range|]). constructor. Qed.

Lemma length_ProcessBlock st b : length (ProcessBlock st b) = 8%nat.
Proof. reflexivity. Qed.

(** ** [Update] absorbs its argument *)

#[local] Opaque ProcessBlock absorb.

Ltac sha_red := cbn [sha_state sha_buffer sha_bit_count].

(** The object's buffer is never full between calls. *)
Definition sha_ok (h : Sha256) : Prop := (length (sha_buffer h) < 64)%nat.

Lemma Update_loop_absorb fuel h data :
  sha_ok h → (length data <= fuel)%nat →
  Update_loop fuel h data =
    mkSha256 (absorb (sha_state h) (sha_buffer h ++ data)).1 (sha_bit_count h)
             (absorb (sha_state h) (sha_buffer h ++ data)).2.
Proof.
  revert h data. induction fuel as [|fuel IH]; intros [st bc buf] data Hok Hf;
    unfold sha_ok in Hok; cbn [Update_loop sha_buffer sha_state sha_bit_count] in *.
  { destruct data; [|simpl in Hf; lia]. by rewrite app_nil_r, absorb_short. }
  destruct data as [|b data']; [by rewrite app_nil_r, absorb_short|].
  set (data := b :: data') in *. assert (length data = S (length data')) as Hlen by done.
  set (n := Nat.min (64 - length buf) (length data)).
  replace (buf ++ data) with ((buf ++ take n data) ++ drop n data)
    by (by rewrite <-app_assoc, take_drop).
  assert (length (buf ++ take n data) = length buf + n)%nat as Hl
    by (rewrite length_app, length_take; lia).
  rewrite Hl. case_bool; prop_bool.
  - rewrite absorb_cons by lia. rewrite IH; [done|unfold sha_ok; simpl; lia|].
    rewrite length_drop. lia.
  - rewrite IH; [|unfold sha_ok; simpl; lia|rewrite length_drop; lia]. sha_red.
    by rewrite drop_ge by lia.
Qed.

Lemma Update_absorb h data :
  sha_ok h →
  Update h data =
    mkSha256 (absorb (sha_state h) (sha_buffer h ++ data)).1
             (u64 (sha_bit_count h + u64 (Zlen data * 8)))
             (absorb (sha_state h) (sha_buffer h ++ data)).2.
Proof. intros H. unfold Update. by rewrite Update_loop_absorb. Qed.

Lemma Update_ok h data : sha_ok h → sha_ok (Update h data).
Proof. intros H. rewrite Update_absorb by done. apply absorb_rest_short. Qed.

Lemma Update_Update h a b : sha_ok h → Update (Update h a) b = Update h (a ++ b).
Proof.
  intros H. rewrite (Update_absorb (Update h a)) by by apply Update_ok.
  rewrite !Update_absorb by done. sha_red. rewrite <-absorb_app, <-app_assoc.
  f_equal. unfold u64. rewrite length_app, Nat2Z.inj_add.
  rewrite !Zplus_mod_idemp_l, !Zplus_mod_idemp_r.
  rewrite <-Zplus_mod_idemp_l, Zplus_mod_idemp_r, Zplus_mod_idemp_l. f_equal. lia.
Qed.

Lemma Reset_ok : sha_ok Reset.
Proof. unfold sha_ok. simpl. lia. Qed.

(** ** Padding *)

(** The zeros [pad_zeros] adds to a buffer of [n] bytes. *)
Definition zeros_needed (n : nat) : nat := ((120 - n) mod 64)%nat.

Lemma pad_zeros_absorb fuel h n :
  sha_ok h → zeros_needed (length (sha_buffer h)) = n → (n < fuel)%nat →
  let l := sha_buffer h ++ replicate n (bZ 0) in
  sha_state (pad_zeros fuel h) = (absorb (sha_state h) l).1 ∧
  sha_buffer (pad_zeros fuel h) = (absorb (sha_state h) l).2.
Proof.
  revert fuel h. induction n as [|n IH]; intros [|fuel] h Hok Hz Hf; try lia.
  - cbn [pad_zeros replicate]. unfold zeros_needed, sha_ok in *. rewrite app_nil_r, absorb_short by done.
    case_bool; prop_bool; [done|]. exfalso.
    destruct (decide (length (sha_buffer h) <= 56)%nat).
    + replace (120 - length (sha_buffer h))%nat with ((56 - length (sha_buffer h)) + 1 * 64)%nat in Hz by lia.
      rewrite Nat.Div0.mod_add, Nat.mod_small in Hz; lia.
    + rewrite Nat.mod_small in Hz; lia.
  - unfold sha_ok in Hok. unfold zeros_needed in Hz. cbn [pad_zeros].
    case_bool; prop_bool; [rewrite Heqb in Hz; done|].
    rewrite Update_absorb by done.
    edestruct (IH fuel (Update h [bZ 0])) as [E1 E2].
    + by apply Update_ok.
    + rewrite Update_absorb by done. sha_red. rewrite absorb_rest_length, length_app. simpl length.
      unfold zeros_needed. destruct (decide (length (sha_buffer h) = 63)%nat) as [E|].
      { rewrite E in *. simpl in *. lia. }
      rewrite (Nat.mod_small (length (sha_buffer h) + 1)) by lia.
      destruct (decide (length (sha_buffer h) <= 56)%nat).
      * replace (120 - length (sha_buffer h))%nat with ((56 - length (sha_buffer h)) + 1 * 64)%nat in Hz by lia.
        replace (120 - (length (sha_buffer h) + 1))%nat with ((55 - length (sha_buffer h)) + 1 * 64)%nat by lia.
        rewrite Nat.Div0.mod_add, Nat.mod_small in *; lia.
      * rewrite Nat.mod_small in *; lia.
    + lia.
    + rewrite Update_absorb in E1, E2 by done. cbn [sha_state sha_buffer] in E1, E2.
      rewrite E1, E2, <-absorb_app, <-app_assoc. done.
Qed.

(** The padded message of FIPS 180-4: a one bit, zeros up to 56 bytes modulo 64,
    the length in bits as a 64-bit number. *)
Definition padded (data : bytes) : bytes :=
  data ++ [bZ 0x80] ++ replicate (zeros_needed (length (data ++ [bZ 0x80]) mod 64)) (bZ 0)
       ++ be_bytes 8 (Zlen data * 8).

Lemma zeros_needed_mod n : ((n mod 64 + zeros_needed (n mod 64)) mod 64 = 56)%nat.
Proof.
  pose proof (Nat.mod_upper_bound n 64 ltac:(lia)) as H.
  set (m := (n mod 64)%nat) in *. clearbody m.
  unfold zeros_needed. do 64 (destruct m as [|m]; [reflexivity|]). lia.
Qed.

Lemma length_padded data : (length (padded data) mod 64 = 0)%nat.
Proof.
  unfold padded. rewrite app_assoc, !length_app, length_replicate, length_be_bytes.
  change (length [bZ 128]) with 1%nat.
  set (n := (length data + 1)%nat).
  rewrite <-Nat.Div0.add_mod_idemp_l.
  replace (n mod 64 + (zeros_needed (n mod 64) + 8))%nat
    with ((n mod 64 + zeros_needed (n mod 64)) + 8)%nat by lia.
  rewrite <-Nat.Div0.add_mod_idemp_l. rewrite zeros_needed_mod. done.
Qed.

Lemma len_bytes_be v :
  map (λ i, bZ (Z.land (Z.shiftr v (56 - i * 8)) 0xff)) [0; 1; 2; 3; 4; 5; 6; 7] = be_bytes 8 v.
Proof. rewrite <-(app_nil_l (be_bytes 8 v)), <-PutU64_be. reflexivity. Qed.

(** The digest of a message, as a function of the whole padded message. *)
Definition sha256_words (data : bytes) : list Z :=
  foldl ProcessBlock kInitState (blocks (padded data)).

Lemma Sha256Hex_padded data :
  Zlen data * 8 < 2 ^ 64 → Sha256Hex data = concat (map hex_word (sha256_words data)).
Proof.
  intros Hlen. unfold Sha256Hex, HexDigest, sha256_words. rewrite Update_Update by apply Reset_ok.
  rewrite len_bytes_be. rewrite (Update_absorb Reset data) by apply Reset_ok.
  cbn [sha_bit_count Reset]. rewrite !Z.add_0_l.
  rewrite (u64_small (u64 (Zlen data * 8))) by auto with dos.
  rewrite (u64_small (Zlen data * 8)) by (unfold is_u64; lia).
  set (m := data ++ [bZ 128]).
  set (h := Update Reset m).
  assert (h = mkSha256 (absorb kInitState m).1 (u64 (0 + u64 (Zlen m * 8))) (absorb kInitState m).2) as Eh.
  { unfold h. by rewrite Update_absorb by apply Reset_ok. }
  assert (sha_ok h) as Hok by apply Update_ok, Reset_ok.
  assert (length (sha_buffer h) = length m mod 64)%nat as Hb.
  { rewrite Eh. sha_red. apply absorb_rest_length. }
  destruct (pad_zeros_absorb 64 h (zeros_needed (length m mod 64)) Hok) as [-> ->].
  { by rewrite Hb. }
  { unfold zeros_needed. apply Nat.mod_upper_bound. lia. }
  rewrite Eh. cbn [sha_state sha_buffer]. rewrite <-absorb_app.
  set (z := replicate (zeros_needed (length m mod 64)) (bZ 0)).
  assert (padded data = (m ++ z) ++ be_bytes 8 (Zlen data * 8)) as Ep.
  { unfold padded, m, z. by rewrite <-!app_assoc. }
  pose proof (absorb_app kInitState (m ++ z) (be_bytes 8 (Zlen data * 8))) as Ea.
  rewrite <-Ep in Ea.
  assert (length ((absorb kInitState (m ++ z)).2 ++ be_bytes 8 (Zlen data * 8)) = 64%nat) as H64.
  { rewrite length_app, absorb_rest_length, length_be_bytes.
    unfold z. rewrite length_app, length_replicate, <-Nat.Div0.add_mod_idemp_l, zeros_needed_mod. done. }
  by rewrite <-absorb_fst, Ea, (absorb_one _ _ H64).
Qed.

Lemma foldl_Update h a chunks :
  sha_ok h → foldl Update (Update h a) chunks = Update h (a ++ concat chunks).
Proof.
  intros H. revert a. induction chunks as [|c cs IH]; intros a; cbn [foldl concat].
  - by rewrite app_nil_r.
  - by rewrite Update_Update, IH, app_assoc.
Qed.

Lemma foldl_Update_Reset chunks : foldl Update Reset chunks = Update Reset (concat chunks).
Proof. destruct chunks; [done|]. apply foldl_Update, Reset_ok. Qed.

(** ** Hex digits *)

Definition is_hex (b : byte) : Prop := b ∈ kHex.

Lemma nibble_kHex k : 0 <= k < 16 → nibble (nth (Z.to_nat k) kHex Byte.x00) = k.
Proof.
  intros H. assert (k ∈ [0; 1; 2; 3; 4; 5; 6; 7; 8; 9; 10; 11; 12; 13; 14; 15]) as Hk.
  { rewrite !elem_of_cons. lia. }
  rewrite !elem_of_cons, elem_of_nil in Hk. by destruct_or! Hk; subst.
Qed.

Lemma kHex_is_hex k : 0 <= k < 16 → is_hex (nth (Z.to_nat k) kHex Byte.x00).
Proof.
  intros H. apply list_elem_of_In, nth_In. change (length kHex) with 16%nat. lia.
Qed.

Lemma land_15 x : Z.land x 15 = x mod 16.
Proof. apply (Z.land_ones x 4). lia. Qed.

Lemma hex_word_is_hex w : Forall is_hex (hex_word w).
Proof.
  unfold hex_word. apply Forall_map, Forall_true. intros sh. simpl.
  apply kHex_is_hex. rewrite land_15. apply Z.mod_pos_bound. lia.
Qed.

Lemma length_sha256_words data : length (sha256_words data) = 8%nat.
Proof.
  unfold sha256_words. assert (∀ bs st, length st = 8%nat →
    length (foldl ProcessBlock st bs) = 8%nat) as H; [|by apply H].
  induction bs; intros st Hs; simpl; [done|]. apply IHbs, length_ProcessBlock.
Qed.

Lemma sha256_words_u32 data : Forall (λ w, 0 <= w < 2 ^ 32) (sha256_words data).
Proof.
  unfold sha256_words. assert (∀ bs st, Forall (λ w, 0 <= w < 2 ^ 32) st →
    Forall (λ w, 0 <= w < 2 ^ 32) (foldl ProcessBlock st bs)) as H.
  { induction bs; intros st Hs; cbn [foldl]; [done|]. apply IHbs.
    apply ProcessBlock_u32. }
  apply H. repeat (apply List.Forall_cons; [done|]). constructor.
Qed.

Lemma length_concat_const {A} (ls : list (list A)) n :
  Forall (λ l, length l = n) ls → length (concat ls) = (n * length ls)%nat.
Proof. induction 1 as [|l ls Hl _ IH]; simpl; [lia|]. rewrite length_app, Hl, IH. lia. Qed.

(** [KeyDigest] and the checksums are 64 hex digits. *)
Lemma length_Sha256Hex data : Zlen data * 8 < 2 ^ 64 → length (Sha256Hex data) = 64%nat.
Proof.
  intros H. rewrite Sha256Hex_padded by done.
  rewrite (length_concat_const _ 8).
  - by rewrite length_map, length_sha256_words.
  - by apply Forall_map, Forall_true.
Qed.

Lemma Sha256Hex_is_hex data : Zlen data * 8 < 2 ^ 64 → Forall is_hex (Sha256Hex data).
Proof.
  intros H. rewrite Sha256Hex_padded by done. apply Forall_concat, Forall_map, Forall_true.
  apply hex_word_is_hex.
Qed.

(** ** [Hash64] *)

(** The number a list of hex digits denotes. *)
Definition hex_val (l : list Z) : Z := foldl (λ v d, v * 16 + d) 0 l.

Lemma hex_val_app l d : hex_val (l ++ [d]) = hex_val l * 16 + d.
Proof. unfold hex_val. by rewrite foldl_app. Qed.

Lemma lor_shift4_add v d : 0 <= v < 2 ^ 60 → 0 <= d < 16 → Z.lor (u64 (Z.shiftl v 4)) d = v * 16 + d.
Proof.
  intros Hv Hd. rewrite Z.shiftl_mul_pow2, u64_small by (unfold is_u64; lia).
  change (2 ^ 4) with 16.
  assert (Z.land (v * 16) d = 0) as E.
  { replace d with (Z.land 15 d) by (rewrite Z.land_comm, land_15; apply Z.mod_small; lia).
    by rewrite Z.land_assoc, land_15, Z.mod_mul by lia. }
  by rewrite <-(Z.add_lor_land (v * 16)), E, Z.add_0_r.
Qed.

Lemma fold_nibbles l :
  Forall (λ d, 0 <= d < 16) l → (length l <= 16)%nat →
  foldl (λ value d, Z.lor (u64 (Z.shiftl value 4)) d) 0 l = hex_val l ∧
  0 <= hex_val l < 2 ^ (4 * Zlen l).
Proof.
  induction l as [|d l IH] using rev_ind; intros Hd Hl; [done|].
  apply Forall_app in Hd as [Hd1 Hd2]. apply Forall_cons in Hd2 as [Hd2 _].
  rewrite length_app in Hl. simpl in Hl.
  destruct (IH Hd1 ltac:(lia)) as [E Hb].
  rewrite foldl_app, hex_val_app, E, length_app. cbn [foldl length].
  assert (2 ^ (4 * Zlen l) <= 2 ^ 60) by (apply Z.pow_le_mono_r; lia).
  rewrite lor_shift4_add by lia. split; [done|].
  rewrite Nat2Z.inj_add, Z.mul_add_distr_l, Z.pow_add_r by lia. change (2 ^ (4 * Z.of_nat 1)) with 16. lia.
Qed.

(** The digits [hex_word] prints. *)
Definition digits (w : Z) : list Z :=
  map (λ shift, Z.land (Z.shiftr w shift) 0xf) [28; 24; 20; 16; 12; 8; 4; 0].

Lemma hex_word_digits w : map nibble (hex_word w) = digits w.
Proof.
  unfold hex_word, digits. rewrite map_map. apply map_ext. intros sh.
  apply nibble_kHex. rewrite land_15. apply Z.mod_pos_bound. lia.
Qed.

Lemma digits_range w : Forall (λ d, 0 <= d < 16) (digits w).
Proof.
  apply Forall_map, Forall_true. intros sh. simpl. rewrite land_15. apply Z.mod_pos_bound. lia.
Qed.

Lemma hex_val_digits v w :
  0 <= w < 2 ^ 32 → foldl (λ v d, v * 16 + d) v (digits w) = v * 2 ^ 32 + w.
Proof.
  intros H. unfold digits. cbn [map foldl]. rewrite !land_15, !Z.shiftr_div_pow2 by lia.
  assert (∀ k k', 0 <= k → k + 4 = k' → w / 2 ^ k = 16 * (w / 2 ^ k') + (w / 2 ^ k) mod 16) as E.
  { intros k ? Hk <-. rewrite Z.pow_add_r, <-Z.div_div by lia.
    change (2 ^ 4) with 16. apply Z.div_mod. lia. }
  pose proof (E 0 4 ltac:(lia) eq_refl). pose proof (E 4 8 ltac:(lia) eq_refl).
  pose proof (E 8 12 ltac:(lia) eq_refl). pose proof (E 12 16 ltac:(lia) eq_refl).
  pose proof (E 16 20 ltac:(lia) eq_refl). pose proof (E 20 24 ltac:(lia) eq_refl).
  pose proof (E 24 28 ltac:(lia) eq_refl). pose proof (E 28 32 ltac:(lia) eq_refl) as E28.
  rewrite (Z.div_small w (2 ^ 32)) in E28 by lia.
  change (2 ^ 0) with 1 in *. rewrite Z.div_1_r in *. lia.
Qed.

Lemma foldl_map_nibbles (g : nat → Z) (l : list nat) v :
  foldl (λ value i, Z.lor (u64 (Z.shiftl value 4)) (g i)) v l =
  foldl (λ value d, Z.lor (u64 (Z.shiftl value 4)) d) v (map g l).
Proof. revert v. induction l as [|x l IH]; intros v; [done|]. apply IH. Qed.

(** [Hash64] is the first eight bytes of the digest, as a big-endian number. *)
Lemma Hash64_words data :
  Zlen data * 8 < 2 ^ 64 →
  Hash64 data = word (sha256_words data) 0 * 2 ^ 32 + word (sha256_words data) 1.
Proof.
  intros H. unfold Hash64. change (HexDigest (Update Reset data)) with (Sha256Hex data).
  rewrite Sha256Hex_padded by done.
  pose proof (length_sha256_words data) as Hl. pose proof (sha256_words_u32 data) as Hu.
  destruct (sha256_words data) as [|w0 [|w1 ws]]; try done.
  apply Forall_cons in Hu as [H0 Hu]. apply Forall_cons in Hu as [H1 _].
  set (rest := concat (map hex_word ws)).
  assert (map (λ i, nibble (nth i (concat (map hex_word (w0 :: w1 :: ws))) Byte.x00)) (seq 0 16)
    = digits w0 ++ digits w1) as Ed.
  { rewrite <-!hex_word_digits. reflexivity. }
  rewrite (foldl_map_nibbles _ (seq 0 16)), Ed.
  destruct (fold_nibbles (digits w0 ++ digits w1)) as [-> _].
  { apply Forall_app; split; apply digits_range. }
  { reflexivity. }
  unfold hex_val. rewrite foldl_app, !hex_val_digits by done. done.
Qed.

Lemma PhysicalPath_inj root d1 d2 : PhysicalPath root d1 = PhysicalPath root d2 → d1 = d2.
Proof. unfold PhysicalPath. intros H. apply app_inv_head in H. congruence. Qed.

(** C26: however the callers cut the data into [Update] calls, the digest is
    SHA-256 of the concatenation: the compression function folded over the blocks
    of the padded message of FIPS 180-4, printed as 64 lower-case hex digits. *)
Theorem sha256_streaming_is_padded_fold (chunks : list bytes) :
  Zlen (concat chunks) * 8 < 2 ^ 64 →
  HexDigest (foldl Update Reset chunks) =
    concat (map hex_word (foldl ProcessBlock kInitState (blocks (padded (concat chunks))))) ∧
  (length (padded (concat chunks)) mod 64 = 0)%nat ∧
  length (HexDigest (foldl Update Reset chunks)) = 64%nat ∧
  Forall is_hex (HexDigest (foldl Update Reset chunks)).
Proof.
  intros H. rewrite foldl_Update_Reset. change (HexDigest (Update Reset _)) with (Sha256Hex (concat chunks)).
  auto using Sha256Hex_padded, length_padded, length_Sha256Hex, Sha256Hex_is_hex.
Qed.

Lemma sha256_streaming_is_padded_fold_witness :
  HexDigest (foldl Update Reset [lit "a"; lit "bc"]) =
    concat (map hex_word (foldl ProcessBlock kInitState (blocks (padded (lit "abc"))))).
Proof. apply (sha256_streaming_is_padded_fold [lit "a"; lit "bc"]). reflexivity. Defined.
