(* ===== verification/MetadataStore.v ===== *)
(** * Object metadata and its persistence

    [include/storage/object_metadata.h], the interface
    [include/storage/metadata_store.h] and its SQLite implementation
    [src/storage/sqlite_metadata_store.cc].

    SQLite is not part of the sources: class [Sqlite] is its C API as the store
    uses it (prepare a statement from its SQL text, bind values, run it, count
    the changed rows), and class [SqliteLaws] is what its documentation says of
    the statements the store issues.  Class [MetadataStore] is the interface, and
    [MetadataStoreLaws] the contract its comments state; the object store is
    verified against that contract. *)

From stdpp Require Import base gmap list sorting.
From Stdlib Require Import ZArith Lia.
From S2P Require Import Prelude Status.

Local Open Scope Z_scope.

(** ** [struct ObjectMetadata] *)
Record ObjectMetadata := mkObjectMetadata {
  om_key : bytes;         (** logical key *)
  om_size : Z;            (** payload size in bytes *)
  om_checksum : bytes;    (** sha256 hex of the payload *)
  om_version : Z;
  om_created_at : Z;      (** unix epoch seconds *)
  om_deleted : bool;      (** tombstone marker *)
  om_request_id : bytes;
}.

#[global] Instance ObjectMetadata_eq_dec : EqDecision ObjectMetadata.
Proof. solve_decision. Defined.

(** [ObjectMetadata meta;] *)
Definition ObjectMetadata_default : ObjectMetadata := mkObjectMetadata [] 0 [] 0 0 false [].

(** ** The interface *)

Class MetadataStore (DB : Type) := {
  ms_Put : ObjectMetadata → DB → Status * DB;
  ms_Get : bytes → DB → StatusOr ObjectMetadata * DB;
  ms_CurrentVersion : bytes → DB → StatusOr Z * DB;
  ms_Peek : bytes → DB → StatusOr ObjectMetadata * DB;
  ms_Delete : bytes → DB → Status * DB;
  ms_List : bytes → DB → StatusOr (list ObjectMetadata) * DB;
}.

(** How a backend is opened on a database file. *)
Class MetadataBackend (DB : Type) := ms_Open : bytes → DB → Status * DB.

(** Texts without a NUL byte, and 64-bit integers. *)
Definition nul_free (s : bytes) : Prop := Byte.x00 ∉ s.
Definition is_i64 (z : Z) : Prop := - 2 ^ 63 <= z < 2 ^ 63.

#[global] Instance nul_free_dec s : Decision (nul_free s).
Proof. unfold nul_free. apply _. Defined.

Definition meta_ok (m : ObjectMetadata) : Prop :=
  nul_free (om_key m) ∧ nul_free (om_checksum m) ∧ nul_free (om_request_id m) ∧
  is_u64 (om_size m) ∧ is_u64 (om_version m) ∧ is_i64 (om_created_at m).

(** The tombstone of a row. *)
Definition tombstone (m : ObjectMetadata) : ObjectMetadata :=
  mkObjectMetadata (om_key m) (om_size m) (om_checksum m) (om_version m) (om_created_at m) true
    (om_request_id m).

(** A failure of the backend itself, as opposed to an answer. *)
Definition backend_error (s : Status) : Prop := st_code s = kIoError.

Lemma backend_error_IoError e : backend_error (IoError e).
Proof. done. Qed.

#[export] Hint Resolve backend_error_IoError : dos.

(** The prefixes a range scan covers: not the empty one, not all [0xff]. *)
Definition scannable (prefix : bytes) : Prop := Exists (λ b, b ≠ Byte.xff) prefix.

(** What the comments of metadata_store.h promise.  [ms_rows] is the table, with
    the tombstoned rows. *)
Class MetadataStoreLaws (DB : Type) `{MetadataStore DB} := {
  ms_inv : DB → Prop;  (** the backend's own invariant *)
  ms_rows : DB → gmap bytes ObjectMetadata;
  ms_rows_key db key m : ms_inv db → ms_rows db !! key = Some m → om_key m = key ∧ nul_free key;
  ms_Put_law db meta s db' :
    ms_inv db → meta_ok meta → ms_Put meta db = (s, db') → ms_inv db' ∧
    ((s = Ok ∧ ms_rows db' = <[om_key meta := meta]> (ms_rows db)) ∨
     (backend_error s ∧ ms_rows db' = ms_rows db));
  ms_Peek_law db key r db' :
    ms_inv db → nul_free key → ms_Peek key db = (r, db') →
    ms_inv db' ∧ ms_rows db' = ms_rows db ∧
    match r with
    | FromValue m => ms_rows db !! key = Some m
    | FromStatus s => (st_code s = kNotFound ∧ ms_rows db !! key = None) ∨ backend_error s
    end;
  ms_Get_law db key r db' :
    ms_inv db → nul_free key → ms_Get key db = (r, db') →
    ms_inv db' ∧ ms_rows db' = ms_rows db ∧
    match r with
    | FromValue m => ms_rows db !! key = Some m ∧ om_deleted m = false
    | FromStatus s =>
        (st_code s = kNotFound ∧ ∀ m, ms_rows db !! key = Some m → om_deleted m = true) ∨
        backend_error s
    end;
  ms_CurrentVersion_law db key r db' :
    ms_inv db → nul_free key → ms_CurrentVersion key db = (r, db') →
    ms_inv db' ∧ ms_rows db' = ms_rows db ∧
    match r with
    | FromValue v => v = from_option om_version 0 (ms_rows db !! key)
    | FromStatus s => backend_error s
    end;
  ms_Delete_law db key s db' :
    ms_inv db → nul_free key → ms_Delete key db = (s, db') → ms_inv db' ∧
    ((s = Ok ∧ ∃ m, ms_rows db !! key = Some m ∧ om_deleted m = false ∧
       ms_rows db' = <[key := tombstone m]> (ms_rows db)) ∨
     (st_code s = kNotFound ∧ (∀ m, ms_rows db !! key = Some m → om_deleted m = true) ∧
       ms_rows db' = ms_rows db) ∨
     (backend_error s ∧ ms_rows db' = ms_rows db));
  ms_List_law db prefix r db' :
    ms_inv db → nul_free prefix → scannable prefix → ms_List prefix db = (r, db') →
    ms_inv db' ∧ ms_rows db' = ms_rows db ∧
    match r with
    | FromValue ms =>
        StronglySorted bytes_le (om_key <$> ms) ∧ NoDup (om_key <$> ms) ∧
        ∀ m, m ∈ ms ↔ ms_rows db !! om_key m = Some m ∧ om_deleted m = false ∧
                      prefix `prefix_of` om_key m
    | FromStatus s => backend_error s
    end;
}.

(** Opening the backend keeps the table. *)
Class MetadataBackendLaws (DB : Type) `{MetadataStoreLaws DB, !MetadataBackend DB} :=
  ms_Open_law name db s db' :
    ms_inv db → ms_Open name db = (s, db') → ms_inv db' ∧ ms_rows db' = ms_rows db.

(** ** SQLite *)

Inductive SqlValue := SqlText (v : bytes) | SqlInt (v : Z).

#[global] Instance SqlValue_eq_dec : EqDecision SqlValue.
Proof. solve_decision. Defined.

(** Running a prepared statement: the rows [sqlite3_step] yields, one per
    [SQLITE_ROW], and how it ends: [None] for [SQLITE_DONE], otherwise the error
    text of [sqlite3_errmsg]. *)
Record SqlRun := mkSqlRun { sr_rows : list (list SqlValue); sr_error : option bytes }.

Class Sqlite (DB : Type) := {
  sqlite3_open_v2 : bytes → DB → option bytes * DB;    (** [None] = [SQLITE_OK] *)
  sqlite3_exec : bytes → DB → option bytes * DB;
  sqlite3_prepare_v2 : bytes → DB → option bytes * DB;
  sqlite3_run : bytes → list SqlValue → DB → SqlRun * DB;
  sqlite3_changes : DB → Z;
}.

(** A row of table [objects], without its key. *)
Record SqlRow := mkSqlRow {
  sq_size : Z; sq_checksum : bytes; sq_version : Z; sq_created_at : Z; sq_deleted : Z;
  sq_last_request_id : bytes;
}.

Definition row_values (key : bytes) (r : SqlRow) : list SqlValue :=
  [SqlText key; SqlInt (sq_size r); SqlText (sq_checksum r); SqlInt (sq_version r);
   SqlInt (sq_created_at r); SqlInt (sq_deleted r); SqlText (sq_last_request_id r)].

(** ** The statements of sqlite_metadata_store.cc *)

Definition kSelectColumns : bytes :=
  lit "key, size, checksum, version, created_at, deleted, last_request_id".

Definition kSchema : bytes :=
  lit "CREATE TABLE IF NOT EXISTS objects (" ++
  lit "  key TEXT PRIMARY KEY," ++
  lit "  size BIGINT NOT NULL," ++
  lit "  checksum TEXT NOT NULL," ++
  lit "  version BIGINT NOT NULL," ++
  lit "  created_at BIGINT NOT NULL," ++
  lit "  deleted INTEGER NOT NULL DEFAULT 0," ++
  lit "  last_request_id TEXT NOT NULL DEFAULT ''" ++
  lit ");".

Definition kPragmaJournal : bytes := lit "PRAGMA journal_mode=WAL;".
Definition kPragmaSync : bytes := lit "PRAGMA synchronous=NORMAL;".

Definition sql_put : bytes :=
  lit "INSERT INTO objects(key, size, checksum, version, created_at, deleted, last_request_id)" ++
  lit " VALUES(?,?,?,?,?,?,?)" ++
  lit " ON CONFLICT(key) DO UPDATE SET" ++
  lit "  size=excluded.size, checksum=excluded.checksum," ++
  lit "  version=excluded.version, created_at=excluded.created_at," ++
  lit "  deleted=excluded.deleted, last_request_id=excluded.last_request_id;".

Definition sql_select : bytes := lit "SELECT " ++ kSelectColumns ++ lit " FROM objects WHERE key=?;".

Definition sql_version : bytes := lit "SELECT version FROM objects WHERE key=?;".

Definition sql_delete : bytes := lit "UPDATE objects SET deleted=1 WHERE key=? AND deleted=0;".

Definition sql_list : bytes :=
  lit "SELECT " ++ kSelectColumns ++ lit " FROM objects WHERE deleted=0 AND key >= ? AND key < ?" ++
  lit " ORDER BY key;".

(** What SQLite documents of them.  [sql_table] is the table.  A statement that
    fails has no effect; a query that fails has yielded the first of its rows;
    texts compare as byte strings ([BINARY] collation).  Bound texts have no NUL
    byte: of those SQLite promises nothing. *)
Definition deleted_row (r : SqlRow) : SqlRow :=
  mkSqlRow (sq_size r) (sq_checksum r) (sq_version r) (sq_created_at r) 1 (sq_last_request_id r).

Definition yields (run : SqlRun) (rows : list (list SqlValue)) : Prop :=
  sr_rows run `prefix_of` rows ∧ (sr_error run = None → sr_rows run = rows).

(** [key >= lo AND key < hi AND deleted=0] *)
Definition in_range (lo hi : bytes) (e : bytes * SqlRow) : Prop :=
  bytes_le lo e.1 ∧ ¬ bytes_le hi e.1 ∧ sq_deleted e.2 = 0.

#[global] Instance in_range_dec lo hi e : Decision (in_range lo hi e).
Proof. unfold in_range. apply _. Defined.

Class SqliteLaws (DB : Type) `{Sqlite DB} := {
  sql_table : DB → gmap bytes SqlRow;
  sqlite3_open_law name db r db' :
    sqlite3_open_v2 name db = (r, db') → sql_table db' = sql_table db;
  sqlite3_exec_law sql db r db' :
    sql ∈ [kPragmaJournal; kPragmaSync; kSchema] →
    sqlite3_exec sql db = (r, db') → sql_table db' = sql_table db;
  sqlite3_prepare_law sql db r db' :
    sqlite3_prepare_v2 sql db = (r, db') → sql_table db' = sql_table db;
  sqlite3_put_law key row db run db' :
    nul_free key → nul_free (sq_checksum row) → nul_free (sq_last_request_id row) →
    is_i64 (sq_size row) → is_i64 (sq_version row) → is_i64 (sq_created_at row) →
    is_i64 (sq_deleted row) →
    sqlite3_run sql_put (row_values key row) db = (run, db') →
    sr_rows run = [] ∧
    sql_table db' = match sr_error run with
                    | None => <[key := row]> (sql_table db)
                    | Some _ => sql_table db
                    end;
  sqlite3_select_law key db run db' :
    nul_free key → sqlite3_run sql_select [SqlText key] db = (run, db') →
    sql_table db' = sql_table db ∧
    yields run (match sql_table db !! key with Some row => [row_values key row] | None => [] end);
  sqlite3_version_law key db run db' :
    nul_free key → sqlite3_run sql_version [SqlText key] db = (run, db') →
    sql_table db' = sql_table db ∧
    yields run (match sql_table db !! key with Some row => [[SqlInt (sq_version row)]] | None => [] end);
  sqlite3_delete_law key db run db' :
    nul_free key → sqlite3_run sql_delete [SqlText key] db = (run, db') →
    sr_rows run = [] ∧
    match sr_error run with
    | Some _ => sql_table db' = sql_table db
    | None =>
        match sql_table db !! key with
        | Some row =>
            if sq_deleted row =? 0
            then sql_table db' = <[key := deleted_row row]> (sql_table db) ∧ sqlite3_changes db' = 1
            else sql_table db' = sql_table db ∧ sqlite3_changes db' = 0
        | None => sql_table db' = sql_table db ∧ sqlite3_changes db' = 0
        end
    end;
  sqlite3_list_law lo hi db run db' :
    nul_free lo → nul_free hi → sqlite3_run sql_list [SqlText lo; SqlText hi] db = (run, db') →
    sql_table db' = sql_table db ∧
    yields run (map (λ e, row_values e.1 e.2)
                 (filter (in_range lo hi) (in_order bytes_le (sql_table db))));
}.

(** ** [class SqliteMetadataStore] *)

(** [static_cast<sqlite3_int64>] of an unsigned value *)
Definition i64 (z : Z) : Z := (z + 2 ^ 63) mod 2 ^ 64 - 2 ^ 63.

(** [sqlite3_column_text] as a C string: up to the first NUL. *)
Fixpoint c_str (s : bytes) : bytes :=
  match s with
  | [] => []
  | b :: s' => if bool_decide (b = Byte.x00) then [] else b :: c_str s'
  end.

Definition column_text (q : list SqlValue) (i : nat) : bytes :=
  match nth i q (SqlInt 0) with SqlText t => c_str t | SqlInt z => to_string z end.
Definition column_int64 (q : list SqlValue) (i : nat) : Z :=
  match nth i q (SqlInt 0) with SqlInt z => z | SqlText _ => 0 end.

(** [BindText] *)
Definition BindText (v : bytes) : SqlValue := SqlText v.

Definition ReadRow (q : list SqlValue) : ObjectMetadata :=
  mkObjectMetadata (column_text q 0) (u64 (column_int64 q 1)) (column_text q 2)
    (u64 (column_int64 q 3)) (column_int64 q 4)
    (negb (column_int64 q 5 mod 2 ^ 32 =? 0))  (* [sqlite3_column_int]: the low 32 bits *)
    (column_text q 6).

(** [hi.pop_back()] while its last byte is [0xff], on the reversed string *)
Fixpoint pop_ff (rev_hi : bytes) : bytes :=
  match rev_hi with
  | [] => []
  | b :: l => if Zb b =? 0xff then pop_ff l else rev_hi
  end.

(** The bounds of the range scan of [List]. *)
Definition list_range (prefix : bytes) : bytes * bytes :=
  match pop_ff (rev prefix) with
  | [] => ((if bool_decide (prefix = []) then [] else prefix), [Byte.xff])
  | b :: l => (prefix, rev (bZ (Zb b + 1) :: l))
  end.

Section sqlite_store.
Context {DB : Type} `{Sqlite DB}.

(** [Stmt::Prepare] *)
Definition Prepare (sql : bytes) (db : DB) : Status * DB :=
  match sqlite3_prepare_v2 sql db with
  | (Some e, db) => (IoError (lit "prepare failed: " ++ e), db)
  | (None, db) => (Ok, db)
  end.

(** [SqliteMetadataStore::Open] *)
Definition Open (db_path : bytes) (db : DB) : Status * DB :=
  match sqlite3_open_v2 db_path db with
  | (Some msg, db) => (IoError (lit "sqlite open failed: " ++ msg), db)
  | (None, db) =>
      let '(_, db) := sqlite3_exec kPragmaJournal db in
      let '(_, db) := sqlite3_exec kPragmaSync db in
      match sqlite3_exec kSchema db with
      | (Some msg, db) => (IoError (lit "sqlite schema failed: " ++ msg), db)
      | (None, db) => (Ok, db)
      end
  end.

Definition Put (meta : ObjectMetadata) (db : DB) : Status * DB :=
  let '(s, db) := Prepare sql_put db in
  if negb (st_ok s) then (s, db) else
  let q := [BindText (om_key meta); SqlInt (i64 (om_size meta)); BindText (om_checksum meta);
            SqlInt (i64 (om_version meta)); SqlInt (om_created_at meta);
            SqlInt (if om_deleted meta then 1 else 0); BindText (om_request_id meta)] in
  let '(run, db) := sqlite3_run sql_put q db in
  match sr_rows run, sr_error run with
  | [], None => (Ok, db)
  | _, e => (IoError (lit "put failed: " ++ default [] e), db)
  end.

(** The first [sqlite3_step] of a query. *)
Definition Get (key : bytes) (db : DB) : StatusOr ObjectMetadata * DB :=
  let '(s, db) := Prepare sql_select db in
  if negb (st_ok s) then (FromStatus s, db) else
  let '(run, db) := sqlite3_run sql_select [BindText key] db in
  match sr_rows run, sr_error run with
  | [], None => (FromStatus (NotFound (lit "no such key: " ++ key)), db)
  | [], Some e => (FromStatus (IoError (lit "get failed: " ++ e)), db)
  | q :: _, _ =>
      let meta := ReadRow q in
      if om_deleted meta then (FromStatus (NotFound (lit "tombstoned: " ++ key)), db)
      else (FromValue meta, db)
  end.

Definition Peek (key : bytes) (db : DB) : StatusOr ObjectMetadata * DB :=
  let '(s, db) := Prepare sql_select db in
  if negb (st_ok s) then (FromStatus s, db) else
  let '(run, db) := sqlite3_run sql_select [BindText key] db in
  match sr_rows run, sr_error run with
  | [], None => (FromStatus (NotFound (lit "no such key: " ++ key)), db)
  | [], Some e => (FromStatus (IoError (lit "peek failed: " ++ e)), db)
  | q :: _, _ => (FromValue (ReadRow q), db)
  end.

Definition CurrentVersion (key : bytes) (db : DB) : StatusOr Z * DB :=
  let '(s, db) := Prepare sql_version db in
  if negb (st_ok s) then (FromStatus s, db) else
  let '(run, db) := sqlite3_run sql_version [BindText key] db in
  match sr_rows run, sr_error run with
  | [], None => (FromValue 0, db)
  | [], Some e => (FromStatus (IoError (lit "version lookup failed: " ++ e)), db)
  | q :: _, _ => (FromValue (u64 (column_int64 q 0)), db)
  end.

Definition Delete (key : bytes) (db : DB) : Status * DB :=
  let '(s, db) := Prepare sql_delete db in
  if negb (st_ok s) then (s, db) else
  let '(run, db) := sqlite3_run sql_delete [BindText key] db in
  match sr_rows run, sr_error run with
  | [], None =>
      if sqlite3_changes db =? 0 then (NotFound (lit "no such key: " ++ key), db) else (Ok, db)
  | _, e => (IoError (lit "delete failed: " ++ default [] e), db)
  end.

Definition List (prefix : bytes) (db : DB) : StatusOr (list ObjectMetadata) * DB :=
  let '(s, db) := Prepare sql_list db in
  if negb (st_ok s) then (FromStatus s, db) else
  let '(lo, hi) := list_range prefix in
  let '(run, db) := sqlite3_run sql_list [BindText lo; BindText hi] db in
  match sr_error run with
  | Some e => (FromStatus (IoError (lit "list failed: " ++ e)), db)
  | None => (FromValue (map ReadRow (sr_rows run)), db)
  end.
End sqlite_store.

#[export] Instance SqliteMetadataStore {DB} `{Sqlite DB} : MetadataStore DB := {|
  ms_Put := Put; ms_Get := Get; ms_CurrentVersion := CurrentVersion; ms_Peek := Peek;
  ms_Delete := Delete; ms_List := List;
|}.

#[export] Instance SqliteBackend {DB} `{Sqlite DB} : MetadataBackend DB := Open.

(** ** Columns *)

Lemma c_str_id s : nul_free s → c_str s = s.
Proof.
  unfold nul_free. induction s as [|b s IH]; simpl; [done|].
  rewrite not_elem_of_cons. intros [? ?].
  rewrite bool_decide_false by congruence. by rewrite IH.
Qed.

Lemma i64_range z : is_i64 (i64 z).
Proof.
  unfold is_i64, i64. pose proof (Z.mod_pos_bound (z + 2 ^ 63) (2 ^ 64) ltac:(lia)). lia.
Qed.

Lemma u64_i64 z : is_u64 z → u64 (i64 z) = z.
Proof.
  intros H. unfold u64, i64. rewrite Zminus_mod_idemp_l.
  replace (z + 2 ^ 63 - 2 ^ 63) with z by lia. by apply Z.mod_small.
Qed.

(** ** The range of [List] is the set of keys with the prefix *)

Lemma bytes_leb_app q a b : bytes_leb (q ++ a) (q ++ b) = bytes_leb a b.
Proof. induction q as [|x q IH]; simpl; [done|]. by rewrite Z.ltb_irrefl, Z.eqb_refl. Qed.

Lemma ff_le_prefix f k : Forall (λ b, Zb b = 0xff) f → (bytes_le f k ↔ f `prefix_of` k).
Proof.
  unfold bytes_le. intros Hf. revert k. induction Hf as [|x f Hx Hf IH]; intros k.
  { split; [intros _; apply prefix_nil|done]. }
  destruct k as [|y k]; simpl.
  { split; [done|]. intros [? [=]]. }
  pose proof (Zb_range y). rewrite Hx.
  repeat case_bool; prop_bool; try lia.
  - rewrite IH. assert (x = y) as -> by (apply (inj Zb); lia). split.
    + apply prefix_cons.
    + apply prefix_cons_inv_2.
  - split; [done|]. intros Hp%prefix_cons_inv_1. subst. lia.
Qed.

Lemma range_prefix q c f k :
  Zb c < 0xff → Forall (λ b, Zb b = 0xff) f →
  (bytes_le (q ++ c :: f) k ∧ ¬ bytes_le (q ++ [bZ (Zb c + 1)]) k ↔ (q ++ c :: f) `prefix_of` k).
Proof.
  intros Hc Hf. pose proof (Zb_range c). unfold bytes_le.
  assert (Zb (bZ (Zb c + 1)) = Zb c + 1) as Hs by (rewrite Zb_bZ, Z.mod_small; lia).
  revert k. induction q as [|x q IH]; intros [|y k]; simpl.
  - split; [intros [? _]; done|intros [? [=]]].
  - rewrite Hs. pose proof (ff_le_prefix f k Hf) as Hff. unfold bytes_le in Hff.
    destruct (decide (c = y)) as [->|Hne].
    + rewrite Z.ltb_irrefl, Z.eqb_refl. rewrite (proj2 (Z.ltb_ge _ _)) by lia.
      rewrite (proj2 (Z.eqb_neq _ _)) by lia. rewrite Hff. split.
      * intros [? _]. by apply prefix_cons.
      * intros ?%prefix_cons_inv_2. auto.
    + assert (Zb c ≠ Zb y) by (intros ?%(inj Zb); done). split.
      * intros [H1 H2]. repeat case_bool; prop_bool; try done; try lia.
      * intros ?%prefix_cons_inv_1. done.
  - split; [intros [? _]; done|intros [? [=]]].
  - destruct (decide (x = y)) as [->|Hne].
    + rewrite Z.ltb_irrefl, Z.eqb_refl, IH. split; [apply prefix_cons|apply prefix_cons_inv_2].
    + assert (Zb x ≠ Zb y) by (intros ?%(inj Zb); done). split.
      * intros [H1 H2]. repeat case_bool; prop_bool; try done; try lia.
      * intros ?%prefix_cons_inv_1. done.
Qed.

Lemma pop_ff_spec l : ∃ f, l = f ++ pop_ff l ∧ Forall (λ b, Zb b = 0xff) f ∧
  match pop_ff l with [] => True | b :: _ => Zb b < 0xff end.
Proof.
  induction l as [|b l (f & E & Hf & Hl)]; [by exists []|]. simpl. case_bool; prop_bool.
  - exists (b :: f). split; [simpl; congruence|]. split; [by constructor|done].
  - exists []. split; [done|]. split; [done|]. pose proof (Zb_range b). lia.
Qed.

(** The scan [lo <= key < hi] of [List] selects the keys with the prefix. *)
Lemma list_range_prefix prefix k :
  scannable prefix →
  (bytes_le (list_range prefix).1 k ∧ ¬ bytes_le (list_range prefix).2 k ↔ prefix `prefix_of` k).
Proof.
  intros Hs. unfold list_range.
  destruct (pop_ff_spec (rev prefix)) as (f & E & Hf & Hl).
  destruct (pop_ff (rev prefix)) as [|b l].
  - exfalso. rewrite app_nil_r in E. apply Exists_exists in Hs as (x & Hx & Hne).
    apply Forall_forall with (x := x) in Hf.
    + apply Hne, (inj Zb). by rewrite Hf.
    + rewrite <-E. apply list_elem_of_In. rewrite <-in_rev. by apply list_elem_of_In.
  - apply (f_equal (@rev byte)) in E. rewrite rev_involutive, rev_app_distr in E. simpl in E.
    rewrite <-app_assoc in E. rewrite E. simpl. apply range_prefix; [done|].
    by apply Forall_rev.
Qed.

Lemma nul_free_list_range prefix :
  nul_free prefix → nul_free (list_range prefix).1 ∧ nul_free (list_range prefix).2.
Proof.
  intros Hn. unfold list_range. destruct (pop_ff_spec (rev prefix)) as (f & E & Hf & Hl).
  destruct (pop_ff (rev prefix)) as [|b l]; cbn [fst snd].
  - split; [case_bool; [by apply not_elem_of_nil|done]|by compute_done].
  - split; [done|]. unfold nul_free in *. rewrite list_elem_of_In, <-in_rev, <-list_elem_of_In.
    rewrite not_elem_of_cons. split.
    + intros E0. apply (f_equal Zb) in E0. rewrite Zb_bZ in E0. pose proof (Zb_range b).
      rewrite Z.mod_small in E0 by lia. change (Zb Byte.x00) with 0 in E0. lia.
    + intros Hin. apply Hn. rewrite list_elem_of_In, in_rev, <-list_elem_of_In, E.
      apply elem_of_app. right. by right.
Qed.

(** ** The SQLite store implements the interface *)

Section sqlite_laws.
Context {DB : Type} `{SqliteLaws DB}.
Implicit Types db : DB.

Definition row_ok (key : bytes) (r : SqlRow) : Prop :=
  nul_free key ∧ nul_free (sq_checksum r) ∧ nul_free (sq_last_request_id r) ∧
  (sq_deleted r = 0 ∨ sq_deleted r = 1).

Definition sql_inv (db : DB) : Prop := map_Forall row_ok (sql_table db).

Definition sql_rows (db : DB) : gmap bytes ObjectMetadata :=
  map_imap (λ k r, Some (ReadRow (row_values k r))) (sql_table db).

Definition row_meta (key : bytes) (r : SqlRow) : ObjectMetadata :=
  mkObjectMetadata key (u64 (sq_size r)) (sq_checksum r) (u64 (sq_version r)) (sq_created_at r)
    (negb (sq_deleted r =? 0)) (sq_last_request_id r).

(** The row [Put] writes. *)
Definition meta_row (m : ObjectMetadata) : SqlRow :=
  mkSqlRow (i64 (om_size m)) (om_checksum m) (i64 (om_version m)) (om_created_at m)
    (if om_deleted m then 1 else 0) (om_request_id m).

Lemma ReadRow_row_values key r : row_ok key r → ReadRow (row_values key r) = row_meta key r.
Proof.
  intros (Hk & Hc & Hr & Hd). unfold ReadRow, row_meta, row_values, column_text, column_int64.
  cbn [nth]. rewrite !c_str_id by done. f_equal. by destruct Hd as [-> | ->].
Qed.

Lemma meta_row_ok m : meta_ok m → row_ok (om_key m) (meta_row m).
Proof.
  intros (? & ? & ? & _). repeat split; try done. simpl. destruct (om_deleted m); auto.
Qed.

Lemma row_meta_meta_row m : meta_ok m → row_meta (om_key m) (meta_row m) = m.
Proof.
  intros (_ & _ & _ & Hs & Hv & _). destruct m. unfold row_meta, meta_row. simpl in *.
  rewrite !u64_i64 by done. f_equal. by case_match.
Qed.

Lemma lookup_sql_rows db key :
  sql_inv db → sql_rows db !! key = row_meta key <$> sql_table db !! key.
Proof.
  intros Hi. unfold sql_rows. rewrite map_lookup_imap.
  destruct (sql_table db !! key) as [r|] eqn:E; simpl; [|done].
  by rewrite ReadRow_row_values by by eapply Hi.
Qed.

Lemma sql_same_table db db' :
  sql_inv db → sql_table db' = sql_table db → sql_inv db' ∧ sql_rows db' = sql_rows db.
Proof. intros Hi E. unfold sql_inv, sql_rows. by rewrite E. Qed.

Lemma sql_insert_table db db' key r :
  sql_inv db → row_ok key r → sql_table db' = <[key := r]> (sql_table db) →
  sql_inv db' ∧ sql_rows db' = <[key := row_meta key r]> (sql_rows db).
Proof.
  intros Hi Hr E. assert (sql_inv db') as Hi'.
  { unfold sql_inv. rewrite E. by apply map_Forall_insert_2. }
  split; [done|]. apply map_eq. intros k.
  rewrite lookup_sql_rows by done. rewrite E.
  destruct (decide (key = k)) as [<-|].
  - by rewrite !lookup_insert_eq.
  - by rewrite !lookup_insert_ne, lookup_sql_rows by done.
Qed.

Lemma Prepare_cases sql db :
  ∃ db', sql_table db' = sql_table db ∧
    (Prepare sql db = (Ok, db') ∨ ∃ e, Prepare sql db = (IoError e, db')).
Proof.
  unfold Prepare. destruct (sqlite3_prepare_v2 sql db) as [[e|] db'] eqn:E;
    apply sqlite3_prepare_law in E; eauto.
Qed.

(** Split on the preparation of a statement; a failed one is the whole call. *)
Ltac prep sql db db1 :=
  destruct (Prepare_cases sql db) as (db1 & Et1 & [Ep | [ep Ep]]);
  rewrite Ep; cbv beta iota;
  [change (negb (st_ok Ok)) with false | change (negb (st_ok (IoError ep))) with true]; cbv iota.

Lemma yields_le1 run r :
  yields run [r] → sr_rows run = [r] ∨ (sr_rows run = [] ∧ ∃ e, sr_error run = Some e).
Proof.
  intros [Hp Hn]. destruct (sr_rows run) as [|a l].
  - right. split; [done|]. destruct (sr_error run); [eauto|]. by specialize (Hn eq_refl).
  - left. destruct Hp as [k E]. injection E as <- E. symmetry in E.
    apply app_eq_nil in E as [-> _]. done.
Qed.

Lemma yields_nil run : yields run [] → sr_rows run = [].
Proof. intros [Hp _]. by apply prefix_nil_inv in Hp. Qed.

Lemma sqlite_Put_law db meta s db' :
  sql_inv db → meta_ok meta → Put meta db = (s, db') → sql_inv db' ∧
  ((s = Ok ∧ sql_rows db' = <[om_key meta := meta]> (sql_rows db)) ∨
   (backend_error s ∧ sql_rows db' = sql_rows db)).
Proof.
  intros Hi Hm. unfold Put. prep sql_put db db1.
  2:{ intros [= <- <-]. destruct (sql_same_table db db1); auto with dos. }
  destruct (sql_same_table db db1 Hi Et1) as [Hi1 Er1].
  destruct (sqlite3_run _ _ db1) as [run db2] eqn:Er.
  pose proof Hm as (? & ? & ? & ? & ? & ?).
  apply (sqlite3_put_law (om_key meta) (meta_row meta)) in Er as [Hrows Ht]; simpl; try done.
  2,3: apply i64_range. 2: by case_match.
  rewrite Hrows. destruct (sr_error run) as [e|]; intros [= <- <-].
  - destruct (sql_same_table db1 db2 Hi1 Ht) as [? ?]. split; [done|]. right. split; [done|congruence].
  - destruct (sql_insert_table db1 db2 _ _ Hi1 (meta_row_ok _ Hm) Ht) as [? E].
    split; [done|]. left. by rewrite E, row_meta_meta_row, Er1.
Qed.

Lemma sqlite_Peek_law db key r db' :
  sql_inv db → nul_free key → Peek key db = (r, db') → sql_inv db' ∧ sql_rows db' = sql_rows db ∧
  match r with
  | FromValue m => sql_rows db !! key = Some m
  | FromStatus s => (st_code s = kNotFound ∧ sql_rows db !! key = None) ∨ backend_error s
  end.
Proof.
  intros Hi Hk. unfold Peek. prep sql_select db db1.
  2:{ intros [= <- <-]. destruct (sql_same_table db db1); auto with dos. }
 
  destruct (sqlite3_run _ _ db1) as [run db2] eqn:Er.
  apply sqlite3_select_law in Er as [Et2 Hy]; [|done]. rewrite Et1 in *.
  destruct (sql_same_table db db2 Hi Et2) as [Hi2 E2].
  pose proof (lookup_sql_rows db key Hi) as Hl.
  destruct (sql_table db !! key) as [row|] eqn:Erow.
  - apply yields_le1 in Hy as [-> | (-> & e & ->)]; intros [= <- <-]; split_and!; auto with dos.
    rewrite Hl. simpl. by rewrite ReadRow_row_values by by eapply Hi.
  - apply yields_nil in Hy as ->. destruct (sr_error run); intros [= <- <-]; split_and!; auto with dos.
Qed.

(** [Get] is [Peek] with tombstones reported as missing. *)
Lemma sqlite_Get_law db key r db' :
  sql_inv db → nul_free key → Get key db = (r, db') → sql_inv db' ∧ sql_rows db' = sql_rows db ∧
  match r with
  | FromValue m => sql_rows db !! key = Some m ∧ om_deleted m = false
  | FromStatus s =>
      (st_code s = kNotFound ∧ ∀ m, sql_rows db !! key = Some m → om_deleted m = true) ∨
      backend_error s
  end.
Proof.
  intros Hi Hk. unfold Get. prep sql_select db db1.
  2:{ intros [= <- <-]. destruct (sql_same_table db db1); auto with dos. }
 
  destruct (sqlite3_run _ _ db1) as [run db2] eqn:Er.
  apply sqlite3_select_law in Er as [Et2 Hy]; [|done]. rewrite Et1 in *.
  destruct (sql_same_table db db2 Hi Et2) as [Hi2 E2].
  pose proof (lookup_sql_rows db key Hi) as Hl.
  destruct (sql_table db !! key) as [row|] eqn:Erow.
  - apply yields_le1 in Hy as [-> | (-> & e & ->)].
    + rewrite ReadRow_row_values by by eapply Hi. simpl in Hl. rewrite Hl.
      destruct (om_deleted (row_meta key row)) eqn:Ed; intros [= <- <-]; split_and!; auto with dos.
      left. split; [done|]. by intros ? [= <-].
    + intros [= <- <-]; split_and!; auto with dos.
  - apply yields_nil in Hy as ->. simpl in Hl. rewrite Hl.
    destruct (sr_error run); intros [= <- <-]; split_and!; auto with dos.
    by left.
Qed.

Lemma sqlite_CurrentVersion_law db key r db' :
  sql_inv db → nul_free key → CurrentVersion key db = (r, db') →
  sql_inv db' ∧ sql_rows db' = sql_rows db ∧
  match r with
  | FromValue v => v = from_option om_version 0 (sql_rows db !! key)
  | FromStatus s => backend_error s
  end.
Proof.
  intros Hi Hk. unfold CurrentVersion. prep sql_version db db1.
  2:{ intros [= <- <-]. destruct (sql_same_table db db1); auto with dos. }
 
  destruct (sqlite3_run _ _ db1) as [run db2] eqn:Er.
  apply sqlite3_version_law in Er as [Et2 Hy]; [|done]. rewrite Et1 in *.
  destruct (sql_same_table db db2 Hi Et2) as [Hi2 E2].
  rewrite (lookup_sql_rows db key Hi).
  destruct (sql_table db !! key) as [row|] eqn:Erow.
  - apply yields_le1 in Hy as [-> | (-> & e & ->)]; intros [= <- <-]; done.
  - apply yields_nil in Hy as ->. destruct (sr_error run); intros [= <- <-]; done.
Qed.

Lemma row_meta_deleted key row : row_meta key (deleted_row row) = tombstone (row_meta key row).
Proof. done. Qed.

Lemma sqlite_Delete_law db key s db' :
  sql_inv db → nul_free key → Delete key db = (s, db') → sql_inv db' ∧
  ((s = Ok ∧ ∃ m, sql_rows db !! key = Some m ∧ om_deleted m = false ∧
     sql_rows db' = <[key := tombstone m]> (sql_rows db)) ∨
   (st_code s = kNotFound ∧ (∀ m, sql_rows db !! key = Some m → om_deleted m = true) ∧
     sql_rows db' = sql_rows db) ∨
   (backend_error s ∧ sql_rows db' = sql_rows db)).
Proof.
  intros Hi Hk. unfold Delete. prep sql_delete db db1.
  2:{ intros [= <- <-]. destruct (sql_same_table db db1); auto with dos. }
 
  destruct (sqlite3_run _ _ db1) as [run db2] eqn:Er.
  apply sqlite3_delete_law in Er as [-> Ht]; [|done]. rewrite Et1 in *.
  destruct (sr_error run) as [e|].
  { intros [= <- <-]. destruct (sql_same_table db db2 Hi Ht) as [? ?]. split; [done|]. by do 2 right. }
  rewrite (lookup_sql_rows db key Hi).
  destruct (sql_table db !! key) as [row|] eqn:Erow;
    [destruct (sq_deleted row =? 0) eqn:Heqb; prop_bool|]; destruct Ht as [Ht ->]; intros [= <- <-].
  - edestruct (sql_insert_table db db2) as [? Er]; [done| |exact Ht|].
    { destruct (Hi _ _ Erow) as (? & ? & ? & ?). split_and!; auto with dos. }
    split; [done|]. left. split; [done|]. eexists. split; [done|]. simpl.
    by rewrite Heqb, Er, row_meta_deleted.
  - destruct (sql_same_table db db2 Hi Ht) as [? ?]. split; [done|]. right. left.
    split; [done|]. split; [|done]. intros m [= <-]. simpl. by apply negb_true_iff, Z.eqb_neq.
  - destruct (sql_same_table db db2 Hi Ht) as [? ?]. split; [done|]. by right; left.
Qed.

(** The entries [List] reads, and the metadata it makes of them. *)
Lemma ReadRow_entries db l :
  sql_inv db → Forall (λ e, sql_table db !! e.1 = Some e.2) l →
  map ReadRow (map (λ e : bytes * SqlRow, row_values e.1 e.2) l) = map (λ e, row_meta e.1 e.2) l.
Proof.
  intros Hi Hl. rewrite map_map. induction Hl as [|e l He Hl IH]; simpl; [done|].
  by rewrite ReadRow_row_values, IH by by eapply Hi.
Qed.

Lemma sqlite_List_law db prefix r db' :
  sql_inv db → nul_free prefix → scannable prefix → List prefix db = (r, db') →
  sql_inv db' ∧ sql_rows db' = sql_rows db ∧
  match r with
  | FromValue ms =>
      StronglySorted bytes_le (om_key <$> ms) ∧ NoDup (om_key <$> ms) ∧
      ∀ m, m ∈ ms ↔ sql_rows db !! om_key m = Some m ∧ om_deleted m = false ∧
                    prefix `prefix_of` om_key m
  | FromStatus s => backend_error s
  end.
Proof.
  intros Hi Hk Hs. unfold List. prep sql_list db db1.
  2:{ intros [= <- <-]. destruct (sql_same_table db db1); auto with dos. }
  pose proof (λ k, list_range_prefix prefix k Hs) as Hrange.
  destruct (nul_free_list_range prefix Hk) as [Hlo Hhi].
  destruct (list_range prefix) as [lo hi]. cbn [fst snd] in *.
  destruct (sqlite3_run _ _ db1) as [run db2] eqn:Er.
  apply sqlite3_list_law in Er as [Et2 [_ Hy]]; [|done|done]. rewrite Et1 in *.
  destruct (sql_same_table db db2 Hi Et2) as [Hi2 E2].
  destruct (sr_error run); intros [= <- <-]; [auto with dos|].
  rewrite Hy by done. split; [done|]. split; [done|].
  set (l := filter (in_range lo hi) (in_order bytes_le (sql_table db))).
  assert (∀ k row, (k, row) ∈ l ↔ sql_table db !! k = Some row ∧ sq_deleted row = 0 ∧ prefix `prefix_of` k) as Hl.
  { intros k row. unfold l. rewrite list_elem_of_filter, elem_of_in_order, <-Hrange.
    unfold in_range. simpl. tauto. }
  assert (Forall (λ e, sql_table db !! e.1 = Some e.2) l) as Hlt.
  { apply Forall_forall. intros [k row] [? _]%Hl. done. }
  rewrite (ReadRow_entries db) by done.
  assert (om_key <$> map (λ e, row_meta e.1 e.2) l = l.*1) as ->.
  { rewrite <-list_fmap_compose. done. }
  split; [|split].
  - assert (StronglySorted (entry_le bytes_le) l) as Hsorted.
    { apply StronglySorted_filter, in_order_sorted; apply _. }
    by apply (StronglySorted_fmap (entry_le bytes_le)).
  - eapply sublist_NoDup; [apply (NoDup_fst_in_order bytes_le (sql_table db))|].
    apply fmap_sublist, sublist_filter.
  - intros m. rewrite lookup_sql_rows by done. rewrite list_elem_of_fmap. split.
    + intros ([k row] & -> & (Et & Ed & Hp)%Hl). simpl. by rewrite Et, Ed.
    + intros (Em & Ed & Hp). apply fmap_Some in Em as (row & Et & Em).
      exists (om_key m, row). split; [done|]. apply Hl. split; [done|].
      split; [|done]. rewrite Em in Ed. simpl in Ed. apply negb_false_iff, Z.eqb_eq in Ed. done.
Qed.

Lemma sqlite_rows_key db key m :
  sql_inv db → sql_rows db !! key = Some m → om_key m = key ∧ nul_free key.
Proof.
  intros Hi. rewrite lookup_sql_rows by done. intros (row & Et & ->)%fmap_Some.
  destruct (Hi _ _ Et) as (? & _). done.
Qed.

#[export] Instance SqliteMetadataStoreLaws : MetadataStoreLaws DB := {|
  ms_inv := sql_inv; ms_rows := sql_rows;
  ms_rows_key := sqlite_rows_key;
  ms_Put_law := sqlite_Put_law;
  ms_Peek_law := sqlite_Peek_law;
  ms_Get_law := sqlite_Get_law;
  ms_CurrentVersion_law := sqlite_CurrentVersion_law;
  ms_Delete_law := sqlite_Delete_law;
  ms_List_law := sqlite_List_law;
|}.

#[export] Instance SqliteBackendLaws : MetadataBackendLaws DB.
Proof.
  intros name db s db' Hi. change (ms_Open name db) with (Open name db). unfold Open.
  destruct (sqlite3_open_v2 name db) as [[e|] db1] eqn:E1; apply sqlite3_open_law in E1.
  { intros [= <- <-]. by apply sql_same_table. }
  destruct (sqlite3_exec kPragmaJournal db1) as [? db2] eqn:E2.
  destruct (sqlite3_exec kPragmaSync db2) as [? db3] eqn:E3.
  destruct (sqlite3_exec kSchema db3) as [? db4] eqn:E4.
  apply sqlite3_exec_law in E2, E3, E4; [|by set_solver..].
  intros H'. apply sql_same_table; [done|]. by case_match; simplify_eq; congruence.
Qed.
End sqlite_laws.

(** ** A database in memory, an instance of the SQLite interface *)

Record MemDb := mkMemDb {
  mem_table : gmap bytes SqlRow;
  mem_changes : Z;
  mem_errors : list (option bytes);  (** how the coming statements end *)
}.

Definition mem_row (q : list SqlValue) : option (bytes * SqlRow) :=
  match q with
  | [SqlText k; SqlInt s; SqlText c; SqlInt v; SqlInt t; SqlInt d; SqlText r] =>
      Some (k, mkSqlRow s c v t d r)
  | _ => None
  end.

Definition mem_run (sql : bytes) (q : list SqlValue) (db : MemDb) : SqlRun * MemDb :=
  match mem_errors db with
  | Some e :: errs => (mkSqlRun [] (Some e), mkMemDb (mem_table db) (mem_changes db) errs)
  | errs =>
      let t := mem_table db in
      let same rows := (mkSqlRun rows None, mkMemDb t (mem_changes db) (tail errs)) in
      let changed t n := (mkSqlRun [] None, mkMemDb t n (tail errs)) in
      let find k (f : SqlRow → list SqlValue) :=
        match t !! k with Some row => [f row] | None => [] end in
      if bool_decide (sql = sql_put) then
        match mem_row q with Some (k, row) => changed (<[k := row]> t) 1 | None => same [] end
      else
        match q with
        | [SqlText k] =>
            if bool_decide (sql = sql_select) then same (find k (row_values k))
            else if bool_decide (sql = sql_version) then same (find k (λ row, [SqlInt (sq_version row)]))
            else if bool_decide (sql = sql_delete) then
              match t !! k with
              | Some row => if sq_deleted row =? 0 then changed (<[k := deleted_row row]> t) 1 else changed t 0
              | None => changed t 0
              end
            else same []
        | [SqlText lo; SqlText hi] =>
            same (map (λ e, row_values e.1 e.2) (filter (in_range lo hi) (in_order bytes_le t)))
        | _ => same []
        end
  end.

#[export] Instance mem_sqlite : Sqlite MemDb := {|
  sqlite3_open_v2 := λ _ db, (None, db);
  sqlite3_exec := λ _ db, (None, db);
  sqlite3_prepare_v2 := λ _ db, (None, db);
  sqlite3_run := mem_run;
  sqlite3_changes := mem_changes;
|}.

(** Decide which statement is run, and how it ends. *)
Ltac mem_stmt db :=
  unfold mem_run, yields;
  repeat match goal with
  | |- context [bool_decide (?a = ?b)] =>
      let r := eval vm_compute in (bool_decide (a = b)) in
      replace (bool_decide (a = b)) with r by (vm_compute; reflexivity)
  end;
  destruct (mem_errors db) as [|[?e|] ?errs]; cbv beta iota zeta.

#[export] Instance mem_sqlite_laws : SqliteLaws MemDb.
Proof.
  refine {| sql_table := mem_table |};
    cbn [sqlite3_open_v2 sqlite3_exec sqlite3_prepare_v2 sqlite3_run sqlite3_changes mem_sqlite].
  - intros name db r db' [= <- <-]. done.
  - intros sql db r db' _ [= <- <-]. done.
  - intros sql db r db' [= <- <-]. done.
  - intros key row db run db' _ _ _ _ _ _ _. mem_stmt db; destruct row; intros [= <- <-]; done.
  - intros key db run db' _. mem_stmt db; intros [= <- <-];
      (split; [done|]); split; try done; apply prefix_nil.
  - intros key db run db' _. mem_stmt db; intros [= <- <-];
      (split; [done|]); split; try done; apply prefix_nil.
  - intros key db run db' _. mem_stmt db.
    2: by intros [= <- <-].
    all: destruct (mem_table db !! key) as [row|];
      [destruct (sq_deleted row =? 0)|]; intros [= <- <-]; done.
  - intros lo hi db run db' _ _. mem_stmt db; intros [= <- <-];
      (split; [done|]); split; try done; apply prefix_nil.
Defined.
