(* ===== verification/LocalObjectStore.v ===== *)
(** * The single-node object store

    [include/storage/local_object_store.h] and
    [src/storage/local_object_store.cc]: the write path (write-ahead log, staged
    file, rename, metadata commit), reads with integrity check, deletes, and the
    recovery run by [Open].

    The payload files and the log are the files of [World], the metadata is a
    backend of interface [MetadataStore].  Each operation holds its key's shard
    lock, so the operations on one key are sequential: they are functions on the
    store object and the world.  The results proved hold for every script, that
    is for every pattern of I/O failures and for a crash in every call. *)

From stdpp Require Import base gmap list.
From Stdlib Require Import ZArith Lia.
From S2P Require Import Prelude Status Wire Framing Posix Wal Sha256 MetadataStore.

Local Open Scope Z_scope.

(** The fields of [LocalObjectStore], with the process-wide counter of
    [UniqueTmpPath]; [metadata_] is the database of the world. *)
Record LocalObjectStore := mkLocalObjectStore {
  los_root : path;
  los_wal : Wal;
  los_counter : Z;
}.

Definition DataRoot (root : path) : path := root ++ [lit "data"].
Definition TmpDir (root : path) : path := root ++ [lit "data"; lit "tmp"].
Definition WalPath (root : path) : path := root ++ [lit "wal"; lit "node.wal"].
Definition DbPath (root : path) : path := root ++ [lit "metadata"; lit "objects.sqlite"].

(** Where a key's payload lives. *)
Definition ObjectPath (root : path) (key : bytes) : path := PhysicalPath (DataRoot root) (KeyDigest key).

(** [path.string()] *)
Definition path_string (p : path) : bytes := concat (map (λ c, lit "/" ++ c) p).

Section store.
Context {DB : Type} `{!MetadataStore DB, !MetadataBackend DB}.
Variable getpid : Z.
Implicit Types st : LocalObjectStore.

Definition FsyncDir (dir : path) : IO DB Status :=
  let! e := sys_open_dir dir in
  match e with
  | Some err => ret (IoError (lit "open dir for fsync: " ++ err))
  | None =>
      let! rc := sys_fsync in
      let! _ := sys_close in
      match rc with
      | Some err => ret (IoError (lit "fsync dir: " ++ err))
      | None => ret Ok
      end
  end.

Definition UniqueTmpPath st (tmp_dir : path) : IO DB (path * LocalObjectStore) :=
  let n := los_counter st in
  let! t := sys_time in
  let name := lit ".put-" ++ to_string getpid ++ lit "-" ++ to_string t ++ lit "-" ++ to_string n
              ++ lit ".tmp" in
  ret (tmp_dir ++ [name], mkLocalObjectStore (los_root st) (los_wal st) (u64 (n + 1))).

(** [WriteFileAtomic] once the staging file [tmp] is chosen *)
Definition WriteStaged (tmp final_path : path) (data : bytes) : IO DB Status :=
  let! e := sys_open_trunc tmp in
  match e with
  | Some err => ret (IoError (lit "open temp file: " ++ err))
  | None =>
      let! e := write_all tmp data in
      match e with
      | Some err =>
          let! _ := sys_close in
          let! _ := sys_unlink tmp in
          ret (IoError (lit "write temp file: " ++ err))
      | None =>
          let! e := sys_fsync in
          match e with
          | Some err =>
              let! _ := sys_close in
              let! _ := sys_unlink tmp in
              ret (IoError (lit "fsync temp file: " ++ err))
          | None =>
              let! e := sys_close in
              match e with
              | Some err =>
                  let! _ := sys_unlink tmp in
                  ret (IoError (lit "close temp file: " ++ err))
              | None =>
                  let! e := sys_rename tmp final_path in
                  match e with
                  | Some err =>
                      let! _ := sys_unlink tmp in
                      ret (IoError (lit "rename temp file: " ++ err))
                  | None => FsyncDir (removelast final_path)
                  end
              end
          end
      end
  end.

Definition WriteFileAtomic st (tmp_dir final_path : path) (data : bytes)
    : IO DB (Status * LocalObjectStore) :=
  let! ec := create_directories (removelast final_path) in
  match ec with
  | Some msg => ret (IoError (lit "create object dir: " ++ msg), st)
  | None =>
      let! '(tmp, st) := UniqueTmpPath st tmp_dir in
      let! s := WriteStaged tmp final_path data in
      ret (s, st)
  end.

Definition ReadWholeFile (p : path) : IO DB (StatusOr bytes) :=
  let! r := read_file p in
  match r with
  | None => ret (FromStatus (IoError (lit "open for read: " ++ path_string p)))
  | Some (data, bad) =>
      if bad : bool then ret (FromStatus (IoError (lit "read failed: " ++ path_string p)))
      else ret (FromValue data)
  end.

(** ** The write path *)

(** The steps of [DoPut] from the choice of the version: log the intent, place
    the payload, commit the metadata, log the commit. *)
Definition DoPut_commit st (key data : bytes) (version : Z) (request_id : bytes)
    : IO DB (StatusOr ObjectMetadata * LocalObjectStore) :=
  let object_path := ObjectPath (los_root st) key in
  let! now := sys_time in
  let meta := mkObjectMetadata key (Zlen data) (Sha256Hex data) version now false request_id in
  let '(seq, wal) := NextSeq (los_wal st) in
  let st := mkLocalObjectStore (los_root st) wal (los_counter st) in
  let! wb := AppendBegin (los_wal st) seq kPut key version (om_checksum meta) (om_size meta) in
  if negb (st_ok wb) then ret (FromStatus wb, st) else
  let! '(w, st) := WriteFileAtomic st (TmpDir (los_root st)) object_path data in
  if negb (st_ok w) then ret (FromStatus w, st) else
  let! c := on_db (ms_Put meta) in
  if negb (st_ok c) then ret (FromStatus c, st) else
  let! _ := AppendCommit (los_wal st) seq in
  ret (FromValue meta, st).

(** The version check of [DoPut] and the version the write gets. *)
Definition DoPut_version (key : bytes) (current_version explicit_version : Z) (conditional : bool)
    (expected_version : Z) : Status + Z :=
  if conditional && negb (current_version =? expected_version) then
    inl (Conflict (lit "version conflict for '" ++ key ++ lit "': expected " ++
                   to_string expected_version ++ lit ", have " ++ to_string current_version))
  else if negb (explicit_version =? 0) then inr explicit_version
  else if conditional then inr (u64 (expected_version + 1))
  else inr (u64 (current_version + 1)).

Definition DoPut st (key data : bytes) (explicit_version : Z) (conditional : bool)
    (expected_version : Z) (request_id : bytes)
    : IO DB (StatusOr ObjectMetadata * LocalObjectStore) :=
  let go current_version :=
    match DoPut_version key current_version explicit_version conditional expected_version with
    | inl s => ret (FromStatus s, st)
    | inr version => DoPut_commit st key data version request_id
    end in
  let! peek := on_db (ms_Peek key) in
  match peek with
  | FromValue m =>
      if bool_decide (request_id ≠ []) && bool_decide (om_request_id m = request_id)
      then ret (FromValue m, st)
      else go (om_version m)
  | FromStatus s =>
      if bool_decide (st_code s = kNotFound) then go 0 else ret (FromStatus s, st)
  end.

Definition Put st (key data : bytes) : IO DB (StatusOr ObjectMetadata * LocalObjectStore) :=
  if bool_decide (key = []) then ret (FromStatus (InvalidArgument (lit "empty key")), st)
  else DoPut st key data 0 false 0 [].

Definition PutWithVersion st (key data : bytes) (version : Z)
    : IO DB (StatusOr ObjectMetadata * LocalObjectStore) :=
  if bool_decide (key = []) then ret (FromStatus (InvalidArgument (lit "empty key")), st)
  else if version =? 0 then
    ret (FromStatus (InvalidArgument (lit "explicit version must be non-zero")), st)
  else DoPut st key data version false 0 [].

Definition PutConditional st (key data : bytes) (expected_version : Z) (request_id : bytes)
    : IO DB (StatusOr ObjectMetadata * LocalObjectStore) :=
  if bool_decide (key = []) then ret (FromStatus (InvalidArgument (lit "empty key")), st)
  else DoPut st key data 0 true expected_version request_id.

(** ** Reads *)

Definition Get st (key : bytes) : IO DB (StatusOr bytes) :=
  let! meta := on_db (ms_Get key) in
  match meta with
  | FromStatus s => ret (FromStatus s)
  | FromValue m =>
      let! data := ReadWholeFile (ObjectPath (los_root st) key) in
      match data with
      | FromStatus s => ret (FromStatus s)
      | FromValue d =>
          if bool_decide (Sha256Hex d ≠ om_checksum m)
          then ret (FromStatus (ChecksumMismatch (lit "checksum mismatch for key: " ++ key)))
          else ret (FromValue d)
      end
  end.

Definition Head st (key : bytes) : IO DB (StatusOr ObjectMetadata) := on_db (ms_Get key).

Definition List st (prefix : bytes) : IO DB (StatusOr (list ObjectMetadata)) :=
  on_db (ms_List prefix).

(** ** Delete *)

Definition Delete st (key : bytes) : IO DB (Status * LocalObjectStore) :=
  let '(seq, wal) := NextSeq (los_wal st) in
  let st := mkLocalObjectStore (los_root st) wal (los_counter st) in
  let! wb := AppendBegin (los_wal st) seq kDelete key 0 [] 0 in
  if negb (st_ok wb) then ret (wb, st) else
  let! s := on_db (ms_Delete key) in
  if negb (st_ok s) then ret (s, st) else
  let! _ := AppendCommit (los_wal st) seq in
  ret (s, st).

(** ** Recovery *)

(** The sequences with a commit record. *)
Definition committed (records : list WalRecord) : gset Z :=
  list_to_set (wr_seq <$> filter (λ r, wr_is_commit r = true) records).

(** One record of the recovery loop: [Some s] when [Recover] returns [s]. *)
Definition Recover_record (root : path) (rec : WalRecord) : IO DB (option Status) :=
  let! peek := on_db (ms_Peek (wr_key rec)) in
  let peeked := if so_ok peek then so_value peek else None in
  match wr_op rec with
  | kPut =>
      if (if peeked is Some m then wr_version rec <=? om_version m else false) then ret None
      else
        let! data := ReadWholeFile (ObjectPath root (wr_key rec)) in
        match data with
        | FromValue d =>
            if bool_decide (Sha256Hex d = wr_checksum rec) then
              let! now := sys_time in
              let meta := mkObjectMetadata (wr_key rec) (wr_size rec) (wr_checksum rec)
                            (wr_version rec) now false [] in
              let! c := on_db (ms_Put meta) in
              ret (if negb (st_ok c) then Some c else None)
            else ret None
        | FromStatus _ => ret None
        end
  | _ =>
      if (if peeked is Some m then negb (om_deleted m) else false) then
        let! d := on_db (ms_Delete (wr_key rec)) in
        ret (if negb (st_ok d) && bool_decide (st_code d ≠ kNotFound) then Some d else None)
      else ret None
  end.

Fixpoint Recover_loop (root : path) (done : gset Z) (records : list WalRecord)
    : IO DB (option Status) :=
  match records with
  | [] => ret None
  | rec :: records =>
      if wr_is_commit rec || bool_decide (wr_seq rec ∈ done) then Recover_loop root done records
      else
        let! r := Recover_record root rec in
        match r with
        | Some s => ret (Some s)
        | None => Recover_loop root done records
        end
  end.

(** Remove the files of the staging directory, ignoring errors. *)
Fixpoint remove_all (ps : list path) : IO DB () :=
  match ps with
  | [] => ret ()
  | p :: ps => let! _ := sys_unlink p in remove_all ps
  end.

Definition Recover st (records : list WalRecord) : IO DB (Status * LocalObjectStore) :=
  let! r := Recover_loop (los_root st) (committed records) records in
  match r with
  | Some s => ret (s, st)
  | None =>
      let! entries := sys_list_dir (TmpDir (los_root st)) in
      let! _ := remove_all entries in
      let! '(s, wal) := Truncate (los_wal st) in
      ret (s, mkLocalObjectStore (los_root st) wal (los_counter st))
  end.

Definition Open (root : path) : IO DB (StatusOr LocalObjectStore) :=
  let! ec := create_directories (TmpDir root) in
  match ec with
  | Some msg => ret (FromStatus (IoError (lit "create data dir: " ++ msg)))
  | None =>
      let! ec := create_directories (root ++ [lit "metadata"]) in
      match ec with
      | Some msg => ret (FromStatus (IoError (lit "create metadata dir: " ++ msg)))
      | None =>
          let! meta := on_db (ms_Open (path_string (DbPath root))) in
          if negb (st_ok meta) then ret (FromStatus meta) else
          let! records := Replay (WalPath root) in
          match records with
          | FromStatus s => ret (FromStatus s)
          | FromValue records =>
              let! wal := Wal.Open (WalPath root) in
              match wal with
              | FromStatus s => ret (FromStatus s)
              | FromValue wal =>
                  let st := mkLocalObjectStore root wal 0 in
                  let! '(r, st) := Recover st records in
                  if negb (st_ok r) then ret (FromStatus r) else ret (FromValue st)
              end
          end
      end
  end.
End store.
