(* ===== verification/StoreRecovery.v ===== *)
(** * Crash safety of the object store

    The invariant of the store, what a write leaves on disk at each of its
    steps, and the recovery of [LocalObjectStore::Open] from each of them. *)

From stdpp Require Import base gmap list.
From Stdlib Require Import ZArith Lia.
From S2P Require Import Prelude Status Wire Framing Posix IoLogic Wal Sha256 MetadataStore.
From S2P Require Import LocalObjectStore.

Local Open Scope Z_scope.

(** ** Paths *)

Lemma tmp_ne_wal root p : removelast p = TmpDir root → p ≠ WalPath root.
Proof.
  intros H ->. unfold WalPath, TmpDir in H.
  change [lit "wal"; lit "node.wal"] with ([lit "wal"] ++ [lit "node.wal"]) in H.
  rewrite app_assoc, removelast_last in H. apply (f_equal length) in H.
  rewrite !length_app in H. simpl in H. lia.
Qed.

Lemma tmp_ne_object root p key : removelast p = TmpDir root → p ≠ ObjectPath root key.
Proof.
  intros H ->. unfold ObjectPath, PhysicalPath, DataRoot, TmpDir in H.
  set (d := KeyDigest key) in *.
  change [substr d 0 2; substr d 2 2; d] with ([substr d 0 2; substr d 2 2] ++ [d]) in H.
  rewrite app_assoc, removelast_last in H. apply (f_equal length) in H.
  rewrite !length_app in H. simpl in H. lia.
Qed.

Lemma wal_ne_object root key : WalPath root ≠ ObjectPath root key.
Proof.
  unfold WalPath, ObjectPath, PhysicalPath, DataRoot. intros H. apply (f_equal length) in H.
  rewrite !length_app in H. simpl in H. lia.
Qed.

Lemma ObjectPath_inj root k1 k2 : ObjectPath root k1 = ObjectPath root k2 → KeyDigest k1 = KeyDigest k2.
Proof. apply PhysicalPath_inj. Qed.

#[export] Hint Resolve tmp_ne_wal tmp_ne_object wal_ne_object : dos.

(** ** Settled logs: every operation begun is committed *)

Definition settled (rs : list WalRecord) : Prop :=
  Forall (λ r, wr_is_commit r = false → wr_seq r ∈ committed rs) rs.

#[global] Instance settled_dec rs : Decision (settled rs).
Proof. unfold settled. apply _. Defined.

Lemma committed_app rs ss : committed (rs ++ ss) = committed rs ∪ committed ss.
Proof. unfold committed. by rewrite filter_app, fmap_app, list_to_set_app_L. Qed.

Lemma committed_begin r : wr_is_commit r = false → committed [r] = ∅.
Proof. intros H. unfold committed. by rewrite filter_cons_False by by rewrite H. Qed.

Lemma committed_commit r : wr_is_commit r = true → committed [r] = {[wr_seq r]}.
Proof. intros H. unfold committed. rewrite filter_cons_True by done. simpl. set_solver. Qed.

Lemma committed_fresh rs n : Forall (λ r, wr_seq r < n) rs → n ∉ committed rs.
Proof.
  intros H. unfold committed. rewrite elem_of_list_to_set, list_elem_of_fmap.
  intros (r & -> & [_ Hr]%list_elem_of_filter). eapply Forall_forall in H; [|done]. simpl in H. lia.
Qed.

Lemma settled_snoc_op rs b c :
  settled rs → wr_is_commit b = false → wr_is_commit c = true → wr_seq b = wr_seq c →
  settled (rs ++ [b; c]).
Proof.
  intros Hs Hb Hc E. unfold settled. rewrite committed_app. apply Forall_app. split.
  - eapply Forall_impl; [exact Hs|]. intros r Hr Hf. apply elem_of_union_l. auto.
  - assert (wr_seq c ∈ committed [b; c]).
    { change [b; c] with ([b] ++ [c]).
      rewrite committed_app, (committed_commit c) by done. set_solver. }
    repeat constructor; [|congruence]. intros _. rewrite E. set_solver.
Qed.

Section recovery_loop.
Context {DB : Type} `{!MetadataStore DB}.

Lemma Recover_loop_skip root (seqs : gset Z) rs ss :
  Forall (λ r, wr_is_commit r = true ∨ wr_seq r ∈ seqs) rs →
  Recover_loop (DB := DB) root seqs (rs ++ ss) = Recover_loop root seqs ss.
Proof.
  induction 1 as [|r rs Hr _ IH]; [done|]. cbn [app Recover_loop].
  destruct Hr as [-> | Hr]; [done|]. by rewrite bool_decide_true, orb_true_r by done.
Qed.

Lemma settled_skip rs ss :
  settled rs → Forall (λ r, wr_is_commit r = true ∨ wr_seq r ∈ committed (rs ++ ss)) rs.
Proof.
  intros H. eapply Forall_impl; [exact H|]. intros r Hr. simpl in *.
  destruct (wr_is_commit r); [by left|]. right. rewrite committed_app.
  apply elem_of_union_l. auto.
Qed.

Lemma Recover_loop_settled root rs :
  settled rs → Recover_loop (DB := DB) root (committed rs) rs = ret None.
Proof.
  intros H. pose proof (settled_skip rs [] H) as Hs. rewrite app_nil_r in Hs.
  rewrite <-(app_nil_r rs) at 2. by rewrite Recover_loop_skip.
Qed.

(** The records of the log before an operation that is not committed. *)
Lemma Recover_loop_pending root rs b :
  settled rs → wr_is_commit b = false → wr_seq b ∉ committed rs →
  Recover_loop (DB := DB) root (committed (rs ++ [b])) (rs ++ [b]) =
  (let! r := Recover_record root b in match r with Some s => ret (Some s) | None => ret None end).
Proof.
  intros Hs Hb Hf. rewrite Recover_loop_skip by by apply settled_skip.
  cbn [Recover_loop]. rewrite committed_app, (committed_begin b), Hb by done.
  rewrite bool_decide_false by set_solver. done.
Qed.

(** A put begun and committed leaves nothing to do. *)
Lemma Recover_loop_committed root rs b c :
  settled rs → wr_is_commit b = false → wr_is_commit c = true → wr_seq b = wr_seq c →
  Recover_loop (DB := DB) root (committed (rs ++ [b; c])) (rs ++ [b; c]) = ret None.
Proof. intros. by apply Recover_loop_settled, settled_snoc_op. Qed.
End recovery_loop.

(** ** The rules of the store's own routines *)

Section routines.
Context {DB : Type} `{!MetadataStore DB}.
Implicit Types db : DB.
Implicit Types S : outcome → Prop.
Implicit Types fs : gmap path bytes.

Lemma wp_FsyncDir S (dir : path) (Q : Status → gmap path bytes → DB → Prop)
    (C : gmap path bytes → DB → Prop) fs db :
  (∀ s, Q s fs db) → C fs db → wp S (FsyncDir dir) Q C fs db.
Proof.
  intros HQ HC. unfold FsyncDir. apply wp_bind, wp_syscall; [|intros _ e; by apply wp_ret|done].
  assert (∀ rc, wp S sys_close (λ _, wp S match rc with
    | Some err => ret (IoError (lit "fsync dir: " ++ err))
    | None => ret Ok
    end Q C) C fs db) as Hclose.
  { intros rc. apply wp_syscall; [|intros _ e|done]; destruct rc; by apply wp_ret. }
  apply wp_bind, wp_syscall; [|intros _ e|done]; apply wp_bind;
    [apply (Hclose None)|apply (Hclose (Some e))].
Qed.

Lemma wp_remove_all S (ps : list path) (Q : () → gmap path bytes → DB → Prop) (P : gmap path bytes → DB → Prop) fs db :
  (∀ fs db p, p ∈ ps → P fs db → P (delete p fs) db) →
  (∀ fs db, P fs db → Q tt fs db) → P fs db →
  wp S (remove_all ps) Q P fs db.
Proof.
  intros Hdel HQ. revert fs db. induction ps as [|p ps IH]; intros fs db HP; cbn [remove_all].
  { apply wp_ret. auto. }
  assert (∀ fs db, P fs db → wp S (remove_all ps) Q P fs db) as Hps.
  { apply IH. intros ???. set_solver. }
  apply wp_bind, wp_syscall; [|intros _ e|done]; apply Hps; [|done].
  apply Hdel; [set_solver|done].
Qed.

(** [P] does not depend on the staging files. *)
Definition tmp_stable (root : path) (P : gmap path bytes → DB → Prop) : Prop :=
  ∀ fs db p x, removelast p = TmpDir root → P fs db → P (<[p := x]> fs) db ∧ P (delete p fs) db.

(** The staged write keeps [P] until the rename, which establishes [P']; the
    caller sees [Ok] only after the rename. *)
Lemma wp_WriteStaged S (root tmp final : path) (data : bytes) (P P' C : gmap path bytes → DB → Prop) fs db :
  removelast tmp = TmpDir root → tmp_stable root P →
  (∀ fs db, P fs db → fs !! tmp = Some data → P' (<[final := data]> (delete tmp fs)) db) →
  (∀ fs db, P fs db → C fs db) → (∀ fs db, P' fs db → C fs db) →
  P fs db →
  wp S (WriteStaged tmp final data)
    (λ s fs db, if st_ok s then P' fs db else P fs db ∨ P' fs db) C fs db.
Proof.
  intros Htmp Hst Hren HC HC' HP. unfold WriteStaged.
  set (Q := λ (s : Status) fs db, if st_ok s then P' fs db else P fs db ∨ P' fs db).
  assert (∀ fs s, P fs db → st_ok s = false → wp S (let! _ := sys_unlink tmp in ret s) Q C fs db)
    as Hunlink.
  { intros fs' s HP' Hs. apply wp_bind, wp_syscall; [|intros _ e|auto];
      apply wp_ret; unfold Q; rewrite Hs; left; [|done]. by apply Hst. }
  assert (∀ fs s, P fs db → st_ok s = false →
    wp S (let! _ := sys_close in let! _ := sys_unlink tmp in ret s) Q C fs db) as Hclose.
  { intros fs' s HP' Hs. apply wp_bind, wp_syscall; [|intros _ e|auto]; by apply Hunlink. }
  apply wp_bind, wp_syscall; [|intros _ e; apply wp_ret; by left|auto].
  assert (∀ l, P (<[tmp := l]> fs) db) as HPt by (intros; by apply Hst).
  apply wp_bind, (wp_write_all _ _ _ _ _ _ _ []); [by rewrite lookup_insert_eq|..];
    intros; rewrite insert_insert_eq; simpl; [by auto|by apply Hclose|].
  apply wp_bind, wp_syscall; [|intros _ e; by apply Hclose|auto].
  apply wp_bind, wp_syscall; [|intros _ e; by apply Hunlink|auto].
  apply wp_bind, wp_syscall; [|intros _ e; by apply Hunlink|auto].
  rewrite lookup_insert_eq.
  assert (P' (<[final := data]> (delete tmp (<[tmp := data]> fs))) db) as HP'.
  { apply Hren; [done|]. by rewrite lookup_insert_eq. }
  apply wp_FsyncDir; [|auto]. intros s. unfold Q. case_match; auto.
Qed.
End routines.

(** ** The invariant of the store *)

Section invariant.
Context {DB : Type} `{MetadataStoreLaws DB}.
Implicit Types fs : gmap path bytes.
Implicit Types db : DB.

(** The payload of every live object is there, with the checksum its row has. *)
Definition intact (root : path) fs db : Prop :=
  map_Forall (λ k m, om_deleted m = false →
    ∃ c, fs !! ObjectPath root k = Some c ∧ Sha256Hex c = om_checksum m) (ms_rows db).

(** Between operations: the log is settled, and the next sequence number is new. *)
Record StoreInv (st : LocalObjectStore) fs db : Prop := {
  si_db : ms_inv db;
  si_fd : wal_fd (los_wal st) = true;
  si_path : wal_path (los_wal st) = WalPath (los_root st);
  si_seq : is_u64 (wal_next_seq (los_wal st));
  si_log : ∃ rs, fs !! WalPath (los_root st) = Some (log_bytes rs) ∧ Forall record_ok rs ∧
             settled rs ∧ Forall (λ r, wr_seq r < wal_next_seq (los_wal st)) rs;
  si_intact : intact (los_root st) fs db;
}.

(** No other key of the table has the digest of [key]. *)
Definition no_collision db (key : bytes) : Prop :=
  ∀ k, is_Some (ms_rows db !! k) → k ≠ key → KeyDigest k ≠ KeyDigest key.
End invariant.

(** ** Opening a store *)

Section open.
Context {DB : Type} `{MetadataBackendLaws DB}.
Implicit Types fs : gmap path bytes.
Implicit Types db : DB.
Variable root : path.

(** A call without failures. *)
Lemma wp_smooth_syscall (f : gmap path bytes → gmap path bytes) (Q : option bytes → gmap path bytes → DB → Prop) (C : gmap path bytes → DB → Prop) fs db :
  Q None (f fs) db → C fs db → wp smooth (syscall f) Q C fs db.
Proof. intros. apply wp_syscall; auto. by intros ?%smooth_no_fail. Qed.

Lemma wp_smooth_read (p : path) (Q : option (bytes * bool) → gmap path bytes → DB → Prop) (C : gmap path bytes → DB → Prop) fs db :
  match fs !! p with Some c => Q (Some (c, false)) fs db | None => Q None fs db end →
  C fs db → wp smooth (read_file p) Q C fs db.
Proof.
  intros. apply wp_read_file; auto; [by intros ?%smooth_no_fail|by intros ?%smooth_no_short].
Qed.

Lemma wp_WalOpen fs db (Q : StatusOr Wal → gmap path bytes → DB → Prop) (C : gmap path bytes → DB → Prop) :
  is_Some (fs !! WalPath root) → C fs db →
  (∀ n, Q (FromValue (mkWal true (WalPath root) n)) fs db) →
  wp smooth (Wal.Open (WalPath root)) Q C fs db.
Proof.
  intros [content Hl] HC HQ. unfold Wal.Open.
  apply wp_bind, wp_smooth_syscall; [|done]. apply wp_bind, wp_smooth_syscall; [|done].
  rewrite Hl. unfold Replay. apply wp_bind, wp_bind, wp_smooth_read; [|done]. rewrite Hl.
  apply wp_ret, wp_ret. apply HQ.
Qed.

(** [Pend]: the states operations, or an interrupted recovery, can leave behind;
    [Sett]: those in which the recovery loop has done its work, and the log is
    still to be reset. *)
Variable Pend Sett : gmap path bytes → DB → Prop.
Hypothesis Sett_Pend : ∀ fs db, Sett fs db → Pend fs db.
Hypothesis Sett_tmp : tmp_stable root Sett.
Hypothesis Sett_reset : ∀ fs db, Sett fs db → Sett (<[WalPath root := []]> fs) db.
Hypothesis Pend_rows : ∀ fs db db', Pend fs db → ms_inv db' → ms_rows db' = ms_rows db → Pend fs db'.
Hypothesis Pend_inv : ∀ fs db, Pend fs db → ms_inv db ∧ is_Some (fs !! WalPath root).
Hypothesis Hloop : ∀ fs db content, Pend fs db → fs !! WalPath root = Some content →
  wp smooth (Recover_loop root (committed (Replay_bytes content)) (Replay_bytes content))
    (λ r fs' db', match r with
                  | None => Sett fs' db'
                  | Some s => st_ok s = false ∧ Pend fs' db'
                  end)
    Pend fs db.

Definition Opened (st : LocalObjectStore) fs db : Prop :=
  Sett fs db ∧ st = mkLocalObjectStore root (mkWal true (WalPath root) 1) 0 ∧ fs !! WalPath root = Some [].

Lemma wp_Recover wal fs db content :
  Pend fs db → fs !! WalPath root = Some content → wal_path wal = WalPath root →
  wp smooth (Recover (mkLocalObjectStore root wal 0) (Replay_bytes content))
    (λ r fs' db', if st_ok r.1 then Opened r.2 fs' db' else Pend fs' db') Pend fs db.
Proof.
  intros HP Hc Hp. unfold Recover. cbn [los_root los_wal los_counter].
  apply wp_bind. eapply wp_mono; [by apply Hloop| |done].
  clear fs db HP Hc. intros [s|] fs db HP.
  { apply wp_ret. cbn [fst snd]. destruct HP as [-> HP]. done. }
  apply wp_bind, wp_list_dir; [|by apply Sett_Pend]. intros ps Hps. apply wp_bind.
  eapply (wp_mono _ _ (λ _, Sett) _ Sett); [| |done].
  { apply wp_remove_all; [|done|done]. intros fs' db' p Hin HS.
    eapply Forall_forall in Hps as [Hp' _]; [|done]. by apply (Sett_tmp _ _ p []). }
  clear fs db HP. intros _ fs db HS. unfold Truncate.
  apply wp_bind, wp_bind, wp_smooth_syscall; [|by apply Sett_Pend].
  apply wp_bind, wp_smooth_syscall; [|by apply Sett_Pend].
  rewrite Hp. apply wp_ret, wp_ret. cbn [fst snd].
  change (st_ok Ok) with true. cbv iota. split; [by apply Sett_reset|]. by rewrite lookup_insert_eq.
Qed.

(** When [Open] returns a store, the work is done; when it fails or the process
    dies again, the state is still one of those to recover from. *)
Lemma wp_Open_from fs db :
  Pend fs db →
  wp smooth (Open root)
    (λ r fs' db', match r with FromValue st => Opened st fs' db' | FromStatus _ => Pend fs' db' end)
    Pend fs db.
Proof.
  intros HP. unfold Open.
  apply wp_bind, wp_smooth_syscall; [|done]. apply wp_bind, wp_smooth_syscall; [|done].
  apply wp_bind, wp_on_db; [|done]. intros s db' Ho.
  assert (Pend fs db') as HP'.
  { apply ms_Open_law in Ho as [? ?]; [by eapply Pend_rows|by eapply Pend_inv]. }
  clear HP Ho db. case_bool; [by apply wp_ret|].
  destruct (Pend_inv _ _ HP') as [_ [content Hc]].
  apply wp_bind. unfold Replay. apply wp_bind, wp_smooth_read; [|done]. rewrite Hc. apply wp_ret.
  apply wp_bind, wp_WalOpen; [by eauto|done|]. intros n.
  apply wp_bind. eapply wp_mono; [by apply wp_Recover| |done].
  intros [r st] fs' db'' HR. cbn [fst snd] in HR.
  destruct (st_ok r); by apply wp_ret.
Qed.
End open.

(** ** Reopening after an interrupted operation *)

Section reopen.
Context {DB : Type} `{MetadataBackendLaws DB}.
Implicit Types fs : gmap path bytes.
Implicit Types db : DB.

(** The operation: its key, its two records, and the state it started from. *)
Variable (root : path) (key : bytes) (b c : WalRecord).
Variable (fs0 : gmap path bytes) (rows0 : gmap bytes ObjectMetadata).
Hypothesis Hb : wr_is_commit b = false.
Hypothesis Hc : wr_is_commit c = true.
Hypothesis Hseq : wr_seq b = wr_seq c.

(** What may be found for the key (row and payload) while the operation is
    pending, and once it is settled. *)
Variable (Mid Fin : option ObjectMetadata → option bytes → Prop).
Hypothesis Fin_Mid : ∀ row file, Fin row file → Mid row file.

Definition row_of db := ms_rows db !! key.
Definition file_of fs := fs !! ObjectPath root key.

(** Everything else is as it was. *)
Definition others fs db : Prop :=
  ms_inv db ∧ (∀ k, k ≠ key → ms_rows db !! k = rows0 !! k) ∧
  (∀ p, p ≠ WalPath root → p ≠ ObjectPath root key → removelast p ≠ TmpDir root →
     fs !! p = fs0 !! p).

Definition log_is fs (rs extra : list WalRecord) : Prop :=
  ∃ content, fs !! WalPath root = Some content ∧ Replay_bytes content = rs ++ extra.

(** The states an interrupted operation, or an interrupted recovery of it, can
    leave behind. *)
Definition Pending fs db : Prop :=
  others fs db ∧ Mid (row_of db) (file_of fs) ∧
  ∃ rs extra, log_is fs rs extra ∧ settled rs ∧ wr_seq b ∉ committed rs ∧
    (extra = [b] ∨ (extra = [] ∨ extra = [b; c]) ∧ Fin (row_of db) (file_of fs)).

Definition Reopened (st : LocalObjectStore) fs db : Prop :=
  others fs db ∧ Fin (row_of db) (file_of fs) ∧ st = mkLocalObjectStore root (mkWal true (WalPath root) 1) 0 ∧
  fs !! WalPath root = Some [].

(** Recovering the one pending record changes the key's row at most, and
    settles it. *)
Hypothesis Hrecord : ∀ fs db,
  others fs db → Mid (row_of db) (file_of fs) →
  wp smooth (Recover_record root b)
    (λ r fs' db', fs' = fs ∧ others fs db' ∧
       match r with
       | None => Fin (row_of db') (file_of fs)
       | Some s => st_ok s = false ∧ Mid (row_of db') (file_of fs)
       end)
    (λ fs' db', fs' = fs ∧ others fs db' ∧ Mid (row_of db') (file_of fs)) fs db.

Lemma others_tmp : tmp_stable root others.
Proof.
  intros fs db p x Hp (Hi & Hr & Hf). split; (split; [done|]; split; [done|]);
    intros q ? ? ?; [rewrite lookup_insert_ne|rewrite lookup_delete_ne]; auto; congruence.
Qed.

Lemma file_of_insert_tmp fs p x : removelast p = TmpDir root → file_of (<[p := x]> fs) = file_of fs.
Proof. intros Hp. unfold file_of. apply lookup_insert_ne. eauto with dos. Qed.

Lemma file_of_delete_tmp fs p : removelast p = TmpDir root → file_of (delete p fs) = file_of fs.
Proof. intros Hp. unfold file_of. apply lookup_delete_ne. eauto with dos. Qed.

Lemma log_is_insert_tmp fs p x rs extra :
  removelast p = TmpDir root → log_is fs rs extra → log_is (<[p := x]> fs) rs extra.
Proof. intros Hp. unfold log_is. rewrite lookup_insert_ne by eauto with dos. done. Qed.

Lemma log_is_delete_tmp fs p rs extra :
  removelast p = TmpDir root → log_is fs rs extra → log_is (delete p fs) rs extra.
Proof. intros Hp. unfold log_is. rewrite lookup_delete_ne by eauto with dos. done. Qed.

Lemma Pending_tmp : tmp_stable root Pending.
Proof.
  intros fs db p x Hp (Ho & Hm & rs & extra & Hl & ? & ? & ?).
  destruct (others_tmp fs db p x Hp Ho). unfold Pending.
  rewrite file_of_insert_tmp, file_of_delete_tmp by done.
  eauto 20 using log_is_insert_tmp, log_is_delete_tmp.
Qed.

(** Settled, but the log not yet reset. *)
Definition Settled fs db : Prop := Pending fs db ∧ Fin (row_of db) (file_of fs).

Lemma Settled_tmp : tmp_stable root Settled.
Proof.
  intros fs db p x Hp [HP HF]. destruct (Pending_tmp fs db p x Hp HP). unfold Settled.
  by rewrite file_of_insert_tmp, file_of_delete_tmp by done.
Qed.

(** The recovery loop settles the operation. *)
Lemma wp_Recover_loop fs db rs extra :
  others fs db → Mid (row_of db) (file_of fs) → log_is fs rs extra →
  settled rs → wr_seq b ∉ committed rs →
  (extra = [b] ∨ (extra = [] ∨ extra = [b; c]) ∧ Fin (row_of db) (file_of fs)) →
  wp smooth (Recover_loop root (committed (rs ++ extra)) (rs ++ extra))
    (λ r fs' db', match r with
                  | None => Settled fs' db'
                  | Some s => st_ok s = false ∧ Pending fs' db'
                  end)
    Pending fs db.
Proof.
  intros Ho Hm Hl Hs Hf Hx.
  assert (Pending fs db) as HP by (split; [done|]; split; [done|]; eauto 10).
  destruct Hx as [-> | [Hx HF]].
  - rewrite Recover_loop_pending by done. apply wp_bind.
    eapply wp_mono; [by apply Hrecord| |].
    + intros r fs' db' (-> & Ho' & Hr). destruct r as [s|]; apply wp_ret.
      * destruct Hr as [? ?]. do 2 (split; [done|]). split; [done|]. eauto 10.
      * split; [|done]. split; [done|]. split; [auto|]. eauto 10.
    + intros fs' db' (-> & Ho' & Hr). split; [done|]. split; [done|]. eauto 10.
  - assert (Recover_loop (DB := DB) root (committed (rs ++ extra)) (rs ++ extra) = ret None) as ->.
    { destruct Hx as [-> | ->].
      - rewrite app_nil_r. by apply Recover_loop_settled.
      - by apply Recover_loop_committed. }
    by apply wp_ret.
Qed.

Lemma Pending_reset fs db : Settled fs db → Pending (<[WalPath root := []]> fs) db.
Proof.
  intros [(Ho & Hm & _) HF].
  assert (file_of (<[WalPath root := []]> fs) = file_of fs) as E.
  { apply lookup_insert_ne. eauto with dos. }
  split; [|rewrite E; split; [done|]].
  - destruct Ho as (? & ? & ?). split; [done|]. split; [done|]. intros. rewrite lookup_insert_ne; auto.
  - exists [], []. split; [exists []; by rewrite lookup_insert_eq|].
    split; [by constructor|]. split; [by apply not_elem_of_empty|]. auto.
Qed.

(** Reopening from any state the operation can leave: when [Open] returns a
    store the operation is settled; when it fails or the process dies again, the
    state is still one of those. *)
Lemma wp_Open fs db :
  Pending fs db →
  wp smooth (Open root)
    (λ r fs' db', match r with FromValue st => Reopened st fs' db' | FromStatus _ => Pending fs' db' end)
    Pending fs db.
Proof.
  intros HP. eapply wp_mono; [apply (wp_Open_from root Pending Settled); [..|exact HP]| |done].
  - by intros ? ? [? _].
  - apply Settled_tmp.
  - intros fs' db' HS. split; [by apply Pending_reset|].
    unfold file_of. rewrite lookup_insert_ne by eauto with dos. apply HS.
  - intros fs' db1 db2 ((Hi & Hr & Hf) & Hm & Hx) Hi' Er.
    unfold Pending, others, row_of in *. rewrite Er. auto.
  - intros fs' db' ((Hi & _) & _ & ? & ? & (content & Hc' & _) & _). eauto.
  - intros fs' db' content (Ho & Hm & rs & extra & Hl & Hs & Hf & Hx) Hc'.
    pose proof Hl as (content' & Hc'' & Er). assert (content' = content) as -> by congruence.
    rewrite Er. by apply wp_Recover_loop.
  - intros [s|st] fs' db' HO; [done|]. destruct HO as [[(Ho & Hm & _) HF] HO]. done.
Qed.
End reopen.

(** ** Writes *)

Section put.
Context {DB : Type} `{MetadataBackendLaws DB}.
Implicit Types fs : gmap path bytes.
Implicit Types db : DB.

Variable (getpid : Z) (root : path) (key data : bytes) (version seq : Z).
Variable (fs0 : gmap path bytes) (rows0 : gmap bytes ObjectMetadata).
(** [undecided]: the write is not known to have been acknowledged. *)
Variable undecided : Prop.

Definition put_begin : WalRecord := mkWalRecord seq false kPut key version (Sha256Hex data) (Zlen data).
Definition put_commit : WalRecord := mkWalRecord seq true kPut [] 0 [] 0.

(** The arguments of the write. *)
Record put_args_ok : Prop := {
  pa_key : nul_free key;
  pa_version : is_u64 version;
  pa_data : Zlen data * 8 < 2 ^ 64;
  pa_newer : ∀ m, rows0 !! key = Some m → om_version m < version;
}.
Hypothesis Hargs : put_args_ok.

Definition new_meta (m : ObjectMetadata) : Prop :=
  om_key m = key ∧ om_size m = Zlen data ∧ om_checksum m = Sha256Hex data ∧
  om_version m = version ∧ om_deleted m = false.

Definition is_old (row : option ObjectMetadata) (file : option bytes) : Prop :=
  undecided ∧ row = rows0 !! key ∧ file = fs0 !! ObjectPath root key.

(** The payload is placed, the metadata not yet committed. *)
Definition is_placed (row : option ObjectMetadata) (file : option bytes) : Prop :=
  undecided ∧ row = rows0 !! key ∧ file = Some data.

(** The new version: its row, and a payload with its checksum. *)
Definition is_new (row : option ObjectMetadata) (file : option bytes) : Prop :=
  ∃ m c, row = Some m ∧ new_meta m ∧ file = Some c ∧ Sha256Hex c = Sha256Hex data ∧
         (undecided ∨ c = data).

Definition put_fin row file : Prop := is_old row file ∨ is_new row file.
Definition put_mid row file : Prop := is_old row file ∨ is_placed row file ∨ is_new row file.

Lemma put_fin_mid row file : put_fin row file → put_mid row file.
Proof. unfold put_fin, put_mid. tauto. Qed.

Lemma nul_free_Sha256Hex d : Zlen d * 8 < 2 ^ 64 → nul_free (Sha256Hex d).
Proof.
  intros Hd Hin. pose proof (Sha256Hex_is_hex d Hd) as Hh. eapply Forall_forall in Hh; [|exact Hin].
  revert Hh. unfold is_hex. by apply (bool_decide_unpack (¬ (Byte.x00 ∈ kHex))).
Qed.

Lemma new_meta_ok m :
  new_meta m → nul_free (om_request_id m) → is_i64 (om_created_at m) → meta_ok m.
Proof.
  intros (Ek & Es & Ec & Ev & _) Hr Ht. destruct Hargs. unfold meta_ok. rewrite Ek, Es, Ec, Ev.
  split_and!; auto using nul_free_Sha256Hex. unfold is_u64. lia.
Qed.

(** Recovery of the pending write: it is completed if its payload is in place,
    and dropped otherwise. *)
Lemma wp_Recover_put fs db :
  others root key fs0 rows0 fs db → put_mid (row_of key db) (file_of root key fs) →
  wp smooth (Recover_record root put_begin)
    (λ r fs' db', fs' = fs ∧ others root key fs0 rows0 fs db' ∧
       match r with
       | None => put_fin (row_of key db') (file_of root key fs)
       | Some s => st_ok s = false ∧ put_mid (row_of key db') (file_of root key fs)
       end)
    (λ fs' db', fs' = fs ∧ others root key fs0 rows0 fs db' ∧
       put_mid (row_of key db') (file_of root key fs)) fs db.
Proof.
  intros Ho Hm. unfold Recover_record. cbn [wr_key wr_op wr_version wr_size wr_checksum put_begin].
  apply wp_bind, wp_on_db; [|done]. intros peek db1 Hpeek.
  destruct Ho as (Hi & Hr & Hf).
  apply ms_Peek_law in Hpeek as (Hi1 & Er1 & Hpk); [|done|apply Hargs].
  assert (others root key fs0 rows0 fs db1) as Ho1 by (unfold others; by rewrite Er1).
  assert (put_mid (row_of key db1) (file_of root key fs)) as Hm1 by (unfold row_of; by rewrite Er1).
  clear Hm Hr Hf. set (peeked := if so_ok peek then so_value peek else None).
  assert (peeked = None ∨ ∃ m, peeked = Some m ∧ row_of key db1 = Some m) as Hpk'.
  { unfold peeked, row_of. rewrite Er1. destruct peek as [s|m]; [|by eauto].
    left. unfold so_ok. by case_match. }
  destruct (match peeked with Some m => version <=? om_version m | None => false end) eqn:Ev.
  { (* the row is at or after this version: it is the new one *)
    apply wp_ret. split; [done|]. split; [done|].
    destruct Hpk' as [->|(m & -> & Em)]; [done|]. prop_bool. rewrite Em in Hm1 |- *.
    destruct Hargs. destruct Hm1 as [(_ & E & _)|[(_ & E & _)|?]]; [| |by right];
      symmetry in E; apply pa_newer0 in E; lia. }
  unfold ReadWholeFile. apply wp_bind, wp_bind, wp_smooth_read; [|done].
  fold (file_of root key fs).
  destruct (file_of root key fs) as [d|] eqn:Ef; apply wp_ret.
  2:{ apply wp_ret. split; [done|]. split; [done|].
      destruct Hm1 as [?|[(_ & _ & ?)|(? & ? & _ & _ & ? & _)]]; [by left|done..]. }
  case_bool; prop_bool.
  2:{ apply wp_ret. split; [done|]. split; [done|]. rewrite <-Ef in *.
      destruct Hm1 as [?|[(_ & _ & E)|(? & ? & _ & _ & E & Es & _)]]; [by left|congruence..]. }
  apply wp_bind, wp_sys_time. intros t Ht. apply wp_bind, wp_on_db; [|done].
  intros s db2 Hput.
  set (m := mkObjectMetadata key (Zlen data) (Sha256Hex data) version t false []) in *.
  assert (new_meta m) as Hnew by done.
  apply ms_Put_law in Hput as (Hi2 & Hs); [|done|apply new_meta_ok; [done|apply not_elem_of_nil|done]].
  destruct Ho1 as (_ & Hr1 & Hf1). destruct Hs as [[-> Er2]|[Hs Er2]].
  - change (negb (st_ok Ok)) with false. apply wp_ret. split; [done|]. unfold others, row_of. rewrite Er2.
    split.
    { split; [done|]. split; [|done]. intros. rewrite lookup_insert_ne; auto. }
    rewrite lookup_insert_eq. right. exists m, d. repeat (split; [done|]).
    destruct Hm1 as [(? & _)|[(? & _)|(? & ? & _ & _ & E & _ & ?)]]; [by left..|].
    by injection E as ->.
  - assert (st_ok s = false) as Es by (unfold st_ok; by rewrite Hs).
    rewrite Es. apply wp_ret. unfold others, row_of. rewrite Er2. done.
Qed.
End put.

Section do_put.
Context {DB : Type} `{MetadataBackendLaws DB}.
Implicit Types fs : gmap path bytes.
Implicit Types db : DB.

Variable (getpid : Z) (st : LocalObjectStore) (key data : bytes) (version : Z) (request_id : bytes).
Variable (fs0 : gmap path bytes) (rows0 : gmap bytes ObjectMetadata) (rs : list WalRecord).

Notation root := (los_root st).
Notation seq := (wal_next_seq (los_wal st)).
Notation begin_rec := (put_begin key data version seq).
Notation commit_rec := (put_commit seq).

Hypothesis Hargs : put_args_ok key data version rows0.
Hypothesis Hrid : nul_free request_id.
Hypothesis Hfd : wal_fd (los_wal st) = true.
Hypothesis Hpath : wal_path (los_wal st) = WalPath root.
Hypothesis Hlog : fs0 !! WalPath root = Some (log_bytes rs).
Hypothesis Hrs : Forall record_ok rs.
Hypothesis Hset : settled rs.
Hypothesis Hfresh : Forall (λ r, wr_seq r < seq) rs.
Hypothesis Hseq : is_u64 seq.
Hypothesis Hkey : Zlen key < 2 ^ 32 - 98.

(** The states the write can leave: as before or written when it was not
    acknowledged, written when it was. *)
Definition PutPending (undecided : Prop) : gmap path bytes → DB → Prop :=
  Pending root key begin_rec commit_rec fs0 rows0
    (put_mid root key data version fs0 rows0 undecided) (put_fin root key data version fs0 rows0 undecided).

Lemma begin_rec_ok : record_ok begin_rec.
Proof.
  destruct Hargs. unfold record_ok. cbn. rewrite length_Sha256Hex by done.
  split_and!; try done; unfold is_u64; lia.
Qed.

Lemma commit_rec_ok : record_ok commit_rec.
Proof. unfold record_ok. cbn. split_and!; try done. Qed.

Lemma settled_log_fresh : seq ∉ committed rs.
Proof. by apply committed_fresh. Qed.

(** The log holds the intent, the row is the old one, the payload is [file]. *)
Definition Logged (file : option bytes) fs db : Prop :=
  others root key fs0 rows0 fs db ∧ fs !! WalPath root = Some (log_bytes (rs ++ [begin_rec])) ∧
  row_of key db = rows0 !! key ∧ file_of root key fs = file.

Lemma log_is_bytes fs l extra :
  fs !! WalPath root = Some (log_bytes (l ++ extra)) → Forall record_ok (l ++ extra) →
  log_is root fs l extra.
Proof. intros E Hl. exists (log_bytes (l ++ extra)). split; [done|]. by apply Replay_log. Qed.

Lemma Forall_begin : Forall record_ok (rs ++ [begin_rec]).
Proof. apply Forall_app. split; [done|]. apply Forall_singleton, begin_rec_ok. Qed.

Lemma Logged_Pending file fs db :
  file = fs0 !! ObjectPath root key ∨ file = Some data → Logged file fs db → PutPending True fs db.
Proof.
  intros Hfile (Ho & Hl & Hr & Hf). split; [done|]. split.
  - rewrite Hr, Hf. destruct Hfile as [-> | ->]; [by left|by right; left].
  - exists rs, [begin_rec]. split; [apply log_is_bytes; auto using Forall_begin|].
    split; [done|]. split; [apply settled_log_fresh|]. by left.
Qed.

Lemma Logged_tmp file : tmp_stable root (Logged file).
Proof.
  intros fs db p x Hp (Ho & Hl & Hr & Hf).
  destruct (others_tmp root key fs0 rows0 fs db p x Hp Ho). unfold Logged.
  rewrite file_of_insert_tmp, file_of_delete_tmp by done.
  rewrite lookup_insert_ne, lookup_delete_ne by eauto with dos. done.
Qed.

Lemma Logged_rename file tmp fs db :
  removelast tmp = TmpDir root → Logged file fs db →
  Logged (Some data) (<[ObjectPath root key := data]> (delete tmp fs)) db.
Proof.
  intros Hp HL. apply (Logged_tmp _ _ _ tmp []) in HL as [_ ((Hi & Hr & Hf) & Hl & Hrow & Hfile)]; [|done].
  split; [|split; [|split]].
  - split; [done|]. split; [done|]. intros. rewrite lookup_insert_ne; auto.
  - rewrite lookup_insert_ne by (apply not_eq_sym; eauto with dos). done.
  - done.
  - unfold file_of. by rewrite lookup_insert_eq.
Qed.

Lemma wp_WriteFileAtomic S st' fs db :
  los_root st' = root →
  Logged (fs0 !! ObjectPath root key) fs db →
  wp S (WriteFileAtomic getpid st' (TmpDir root) (ObjectPath root key) data)
    (λ r fs db, los_root r.2 = root ∧ los_wal r.2 = los_wal st' ∧
       (if st_ok r.1 then Logged (Some data) fs db else PutPending True fs db))
    (PutPending True) fs db.
Proof.
  intros Hst HL. unfold WriteFileAtomic.
  assert (∀ fs db, Logged (fs0 !! ObjectPath root key) fs db → PutPending True fs db) as HC
    by (intros; eapply Logged_Pending; [|done]; auto).
  assert (∀ fs db, Logged (Some data) fs db → PutPending True fs db) as HC'
    by (intros; eapply Logged_Pending; [|done]; auto).
  apply wp_bind, wp_syscall; [|intros _ e; apply wp_ret; cbn [fst snd]|by auto].
  2:{ split; [done|]. split; [done|]. by apply HC. }
  unfold UniqueTmpPath. apply wp_bind, wp_bind, wp_sys_time. intros t _. apply wp_ret, wp_bind.
  set (tmp := TmpDir root ++ [_]).
  assert (removelast tmp = TmpDir root) as Htmp by apply removelast_last.
  eapply wp_mono.
  - apply (wp_WriteStaged S root tmp _ _ (Logged (fs0 !! ObjectPath root key)) (Logged (Some data))
      (PutPending True)); auto using Logged_tmp. intros. by eapply Logged_rename.
  - intros s fs' db' Hs. cbv beta in Hs. apply wp_ret. simpl. split; [done|]. split; [done|].
    destruct (st_ok s); [done|]. destruct Hs; auto.
  - done.
Qed.

(** After the metadata is committed: the log holds the intent and perhaps the
    commit record. *)
Lemma committed_Pending undecided fs db m extra content :
  others root key fs0 rows0 fs db → row_of key db = Some m → new_meta key data version m →
  file_of root key fs = Some data → fs !! WalPath root = Some content →
  Replay_bytes content = rs ++ extra → extra = [begin_rec] ∨ extra = [begin_rec; commit_rec] →
  PutPending undecided fs db.
Proof.
  intros Ho Hr Hm Hf Hl Er Hx.
  assert (is_new key data version undecided (row_of key db) (file_of root key fs)) as Hn.
  { exists m, data. split_and!; auto. }
  split; [done|]. split; [by right; right|]. exists rs, extra.
  split; [by exists content|]. split; [done|]. split; [apply settled_log_fresh|].
  destruct Hx as [-> | ->]; [by left|]. right. split; [auto|by right].
Qed.

Lemma committed_log k :
  ∃ extra, Replay_bytes (log_bytes (rs ++ [begin_rec]) ++ take k (record_frame commit_rec)) = rs ++ extra ∧
           (extra = [begin_rec] ∨ extra = [begin_rec; commit_rec]).
Proof.
  rewrite Replay_log_torn; [|apply Forall_begin|apply commit_rec_ok].
  case_bool; [exists [begin_rec; commit_rec]|exists [begin_rec]]; rewrite <-?app_assoc; auto.
Qed.

(** The log after a write: one sequence number further. *)
Definition next_store (n : Z) : LocalObjectStore :=
  mkLocalObjectStore root (mkWal true (WalPath root) (u64 (seq + 1))) n.

(** [others] does not look at the log. *)
Lemma others_log content fs db :
  others root key fs0 rows0 fs db → others root key fs0 rows0 (<[WalPath root := content]> fs) db.
Proof.
  intros (? & ? & Hf). split; [done|]. split; [done|]. intros. rewrite lookup_insert_ne; auto.
Qed.

Lemma file_of_log content fs : file_of root key (<[WalPath root := content]> fs) = file_of root key fs.
Proof. apply lookup_insert_ne. eauto with dos. Qed.

(** Where the write starts from. *)
Variable db0 : DB.
Hypothesis Hdb : ms_inv db0.
Hypothesis Hrows : ms_rows db0 = rows0.

Lemma others_start : others root key fs0 rows0 fs0 db0.
Proof. by rewrite <-Hrows. Qed.

Lemma Logged_start :
  Logged (fs0 !! ObjectPath root key) (<[WalPath root := log_bytes (rs ++ [begin_rec])]> fs0) db0.
Proof.
  split; [apply others_log, others_start|]. rewrite lookup_insert_eq, file_of_log.
  unfold row_of. by rewrite Hrows.
Qed.

Lemma begin_torn_Pending k :
  PutPending True (<[WalPath root := log_bytes rs ++ take k (record_frame begin_rec)]> fs0) db0.
Proof.
  unfold PutPending, Pending. rewrite file_of_log. unfold row_of. rewrite Hrows.
  split; [apply others_log, others_start|]. split; [by left|].
  destruct (Replay_after_append rs begin_rec k Hrs begin_rec_ok) as [E|E];
    [exists rs, []|exists rs, [begin_rec]]; (split; [|split; [done|]; split; [apply settled_log_fresh|]]).
  - exists (log_bytes rs ++ take k (record_frame begin_rec)).
    by rewrite lookup_insert_eq, app_nil_r.
  - right. split; [by left|]. by left.
  - exists (log_bytes rs ++ take k (record_frame begin_rec)). by rewrite lookup_insert_eq.
  - by left.
Qed.

Lemma commit_torn_Pending undecided fs db m k :
  others root key fs0 rows0 fs db → row_of key db = Some m → new_meta key data version m →
  file_of root key fs = Some data →
  PutPending undecided
    (<[WalPath root := log_bytes (rs ++ [begin_rec]) ++ take k (record_frame commit_rec)]> fs) db.
Proof.
  intros Ho Hr Hm Hf. destruct (committed_log k) as (extra & Er & Hx).
  eapply committed_Pending; [by apply others_log|done|done|by rewrite file_of_log| |done|done].
  by rewrite lookup_insert_eq.
Qed.

Lemma wp_DoPut_commit S :
  wp S (DoPut_commit getpid st key data version request_id)
    (λ r fs db, ∃ n, r.2 = next_store n ∧
       match r.1 with
       | FromStatus s => st_ok s = false ∧ PutPending True fs db
       | FromValue m =>
           PutPending False fs db ∧ row_of key db = Some m ∧ file_of root key fs = Some data ∧
           new_meta key data version m ∧ om_request_id m = request_id ∧
           (¬ may_fail S →
              fs !! WalPath root = Some (log_bytes (rs ++ [begin_rec; commit_rec])))
       end)
    (PutPending True) fs0 db0.
Proof.
  unfold DoPut_commit. apply wp_bind, wp_sys_time. intros t Ht.
  unfold NextSeq. cbv beta iota zeta. cbn [los_root los_wal los_counter]. rewrite Hfd, Hpath.
  set (m := mkObjectMetadata key (Zlen data) (Sha256Hex data) version t false request_id).
  assert (new_meta key data version m) as Hm by done.
  (* the intent is logged *)
  unfold AppendBegin. apply wp_bind, (wp_AppendRecord _ _ _ _ _ _ _ (log_bytes rs)); [done|done|..];
    cbn [wal_path].
  - intros k Hk. by apply begin_torn_Pending.
  - intros _ k s Hk [Hs _]. rewrite Hs. apply wp_ret. cbn [fst snd].
    exists (los_counter st). split; [done|]. split; [done|]. by apply begin_torn_Pending.
  - change (negb (st_ok Ok)) with false. cbv iota. cbn [om_checksum om_size m].
    fold (put_begin key data version seq). rewrite <-log_bytes_snoc. apply wp_bind.
    eapply wp_mono; [apply wp_WriteFileAtomic; [done|apply Logged_start]| |done].
    intros [s st'] fs db (Hroot & Hwal & Hs). cbn [fst snd] in *. destruct st' as [? ? n]. simpl in Hroot, Hwal. subst.
    destruct (st_ok s) eqn:Es; cbn [negb].
    2:{ apply wp_ret. cbn [fst snd]. exists n. done. }
    apply wp_bind, wp_on_db; [|eapply Logged_Pending; [|done]; auto].
    intros c db' Hput. destruct Hs as ((Hi & Hr & Hf) & Hl & Hrow & Hfile).
    apply ms_Put_law in Hput as (Hi' & Hput); [|done|by eapply new_meta_ok].
    destruct Hput as [[-> Er]|[Hc Er]].
    2:{ assert (st_ok c = false) as Ec by (unfold st_ok; by rewrite Hc). rewrite Ec.
        apply wp_ret. cbn [fst snd].
        exists n. split; [done|]. split; [done|].
        eapply (Logged_Pending (Some data)); [by auto|]. unfold Logged, others, row_of in *. by rewrite Er. }
    change (negb (st_ok Ok)) with false. cbv iota.
    assert (others root key fs0 rows0 fs db') as Ho'.
    { split; [done|]. split; [|done]. intros. rewrite Er, lookup_insert_ne; auto. }
    assert (row_of key db' = Some m) as Hrow' by (unfold row_of; by rewrite Er, lookup_insert_eq).
    apply wp_bind. unfold AppendCommit. fold (put_commit seq).
    apply (wp_AppendRecord _ _ _ _ _ _ _ (log_bytes (rs ++ [begin_rec]))); [done|done|..];
      cbn [los_wal wal_path].
    + intros k Hk. by apply (commit_torn_Pending True _ _ m).
    + intros Hfail k s' Hk _. apply wp_ret. cbn [fst snd]. exists n. split; [done|].
      split_and!; auto; [by apply (commit_torn_Pending False _ _ m)| |done].
      unfold file_of. rewrite lookup_insert_ne; [done|]. eauto with dos.
    + apply wp_ret. cbn [fst snd]. exists n. split; [done|].
      rewrite <-(firstn_all (record_frame commit_rec)).
      split_and!; auto; [by apply (commit_torn_Pending False _ _ m)| |].
      * unfold file_of. rewrite lookup_insert_ne; [done|]. eauto with dos.
      * intros _. rewrite lookup_insert_eq, firstn_all, <-log_bytes_snoc, <-app_assoc. done.
Qed.
End do_put.
