(* ===== verification/StoreProps.v ===== *)
(** * The object store: what its operations guarantee

    The properties of [LocalObjectStore] that its header and its comments
    promise: atomicity and durability of writes and deletes across crashes,
    conditional and idempotent writes, and the integrity of reads. *)

From stdpp Require Import base gmap list.
From Stdlib Require Import ZArith Lia.
From S2P Require Import Prelude Status Wire Framing Posix IoLogic Wal Sha256 MetadataStore.
From S2P Require Import LocalObjectStore StoreRecovery.

Local Open Scope Z_scope.

(** A new process on the same disk and database, whose calls do not fail (it may
    crash again at any of them). *)
Definition restarted {DB} (w w' : World DB) : Prop :=
  w_files w' = w_files w ∧ w_db w' = w_db w ∧ world_ok smooth w'.

Section restarts.
Context {DB : Type} `{!MetadataStore DB, !MetadataBackend DB}.

(** The process is started again, perhaps several times: every [Open] but the
    one to come failed or crashed. *)
Inductive restarts (root : path) (w : World DB) : World DB → Prop :=
  | restarts_once w' : restarted w w' → restarts root w w'
  | restarts_again w1 r w2 w' :
      restarts root w w1 → Open root w1 = (r, w2) → (∀ st, r ≠ Some (FromValue st)) →
      restarted w2 w' → restarts root w w'.
End restarts.

(** A state predicate kept by failed openings and turned into another by a
    successful one. *)
Lemma restarts_spec {DB} `{MetadataBackendLaws DB} (root : path) (P : gmap path bytes → DB → Prop)
    (Q : LocalObjectStore → gmap path bytes → DB → Prop) (w w1 : World DB) (st : LocalObjectStore) (w2 : World DB) :
  (∀ fs db, P fs db →
     wp smooth (Open root)
       (λ r fs' db', match r with FromValue st => Q st fs' db' | FromStatus _ => P fs' db' end)
       P fs db) →
  P (w_files w) (w_db w) → restarts root w w1 → Open root w1 = (Some (FromValue st), w2) →
  Q st (w_files w2) (w_db w2).
Proof.
  intros HO HP Hr E.
  assert (P (w_files w1) (w_db w1) ∧ world_ok smooth w1) as [HP1 Hw1].
  { clear E. induction Hr as [w' (-> & -> & ?)|w1 r w2' w' Hr [IH Hw] EO Hne (-> & -> & ?)]; [done|].
    split; [|done]. eapply wp_elim in EO as [_ HX]; [|by apply HO|done].
    destruct r as [[s|st']|]; [done|by specialize (Hne st')|done]. }
  eapply wp_elim in E as [_ HX]; [|by apply HO|done]. exact HX.
Qed.

Section props.
Context {DB : Type} `{MetadataBackendLaws DB}.
Implicit Types fs : gmap path bytes.
Implicit Types db : DB.

(** ** Opening after an interrupted write re-establishes the invariant *)

(** Nothing but the key's row and payload (and staging files and the log) changed. *)
Lemma intact_others root key fs0 db0 fs db :
  intact root fs0 db0 → no_collision db0 key → others root key fs0 (ms_rows db0) fs db →
  (∀ m, ms_rows db !! key = Some m → om_deleted m = false →
     ∃ c, fs !! ObjectPath root key = Some c ∧ Sha256Hex c = om_checksum m) →
  intact root fs db.
Proof.
  intros Hint Hcol (_ & Hr & Hf) Hkey k m Em Hd.
  destruct (decide (k = key)) as [->|Hne]; [by apply Hkey|].
  rewrite Hr in Em by done. destruct (Hint k m Em Hd) as (c & Ec & Es).
  exists c. split; [|done]. rewrite Hf; [done|..].
  - apply not_eq_sym, wal_ne_object.
  - intros E%ObjectPath_inj. by eapply Hcol; eauto.
  - intros E. by eapply tmp_ne_object.
Qed.

Lemma StoreInv_reset root key fs0 db0 fs db :
  intact root fs0 db0 → no_collision db0 key → others root key fs0 (ms_rows db0) fs db →
  (∀ m, ms_rows db !! key = Some m → om_deleted m = false →
     ∃ c, fs !! ObjectPath root key = Some c ∧ Sha256Hex c = om_checksum m) →
  fs !! WalPath root = Some [] →
  StoreInv (mkLocalObjectStore root (mkWal true (WalPath root) 1) 0) fs db.
Proof.
  intros Hint Hcol Ho Hkey Hl. split; simpl; try done.
  - apply Ho.
  - exists []. split; [done|]. repeat split; by constructor.
  - by eapply intact_others.
Qed.

(** ** Writes *)

(** What the write path decides from the current row: answer a retry with the
    existing metadata, refuse, or write a version. *)
Definition row_decision (key : bytes) (row : option ObjectMetadata) (explicit_version : Z)
    (conditional : bool) (expected_version : Z) (request_id : bytes) : ObjectMetadata + (Status + Z) :=
  let choose current := inr (DoPut_version key current explicit_version conditional expected_version) in
  match row with
  | Some m =>
      if bool_decide (request_id ≠ []) && bool_decide (om_request_id m = request_id)
      then inl m else choose (om_version m)
  | None => choose 0
  end.

Section write.
Variable (getpid : Z) (st : LocalObjectStore) (key data : bytes).
Variable (fs0 : gmap path bytes) (db0 : DB).
Notation root := (los_root st).
Notation row0 := (ms_rows db0 !! key).
Notation current := (from_option om_version 0 (ms_rows db0 !! key)).

Hypothesis Hinv : StoreInv st fs0 db0.
Hypothesis Hkey : nul_free key.
Hypothesis Hklen : Zlen key < 2 ^ 32 - 98.
Hypothesis Hcol : no_collision db0 key.

Definition unchanged fs db : Prop := fs = fs0 ∧ ms_inv db ∧ ms_rows db = ms_rows db0.

Definition Write (version : Z) (undecided : Prop) : gmap path bytes → DB → Prop :=
  PutPending st key data version fs0 (ms_rows db0) undecided.

Lemma unchanged_Write version fs db :
  put_args_ok key data version (ms_rows db0) → unchanged fs db → Write version True fs db.
Proof.
  intros Hargs (-> & Hi & Er). destruct Hinv as [_ _ _ _ (rs & Hl & Hok & Hs & Hlt) _].
  split; [by unfold others; rewrite Er|]. split; [left; split; [done|]; split; [|done]; unfold row_of; by rewrite Er|].
  exists rs, []. split; [exists (log_bytes rs); rewrite app_nil_r; auto using Replay_log|].
  split; [done|]. split; [by apply committed_fresh|]. right. split; [by left|].
  left. split; [done|]. split; [|done]. unfold row_of. by rewrite Er.
Qed.

(** The outcome of a write that got as far as choosing [version]. *)
Definition written (S : outcome → Prop) (version : Z) (request_id : bytes) (r : StatusOr ObjectMetadata * LocalObjectStore)
  fs db : Prop :=
  match r.1 with
  | FromStatus s => st_ok s = false ∧ Write version True fs db
  | FromValue m =>
      Write version False fs db ∧ ms_rows db !! key = Some m ∧
      fs !! ObjectPath root key = Some data ∧
      new_meta key data version m ∧ om_request_id m = request_id ∧
      (¬ may_fail S → StoreInv r.2 fs db)
  end.

Lemma wp_commit S version request_id db :
  put_args_ok key data version (ms_rows db0) → nul_free request_id →
  wal_next_seq (los_wal st) + 1 < 2 ^ 64 →
  ms_inv db → ms_rows db = ms_rows db0 →
  wp S (DoPut_commit getpid st key data version request_id)
    (written S version request_id) (Write version True) fs0 db.
Proof.
  intros Hargs Hrid Hnext Hi Er.
  pose proof Hinv as [_ Hfd Hpath Hseq (rs & Hl & Hok & Hs & Hlt) Hint].
  eapply wp_mono.
  - eapply (wp_DoPut_commit getpid st key data version request_id fs0 (ms_rows db0) rs); done.
  - intros [r st'] fs' db' (n & Hst & Hr). cbn [fst snd] in *. unfold written. cbn [fst snd].
    destruct r as [s|m]; [done|]. destruct Hr as (HP & Hrow & Hfile & Hm & Hid & Hlog).
    split_and!; auto. intros Hnf. specialize (Hlog Hnf). subst st'.
    unfold next_store. split; cbn [los_root los_wal wal_fd wal_path wal_next_seq]; try done.
    + apply HP.
    + apply u64_range.
    + exists (rs ++ [put_begin key data version (wal_next_seq (los_wal st)); put_commit (wal_next_seq (los_wal st))]).
      split; [done|]. split; [|split].
      * apply Forall_app. split; [done|].
        apply Forall_cons. split; [by eapply begin_rec_ok|].
        apply Forall_singleton. by eapply commit_rec_ok.
      * by apply settled_snoc_op.
      * rewrite u64_small by (unfold is_u64 in *; lia). apply Forall_app. split.
        { eapply Forall_impl; [done|]. simpl. lia. }
        apply Forall_cons. split; [simpl; lia|]. apply Forall_singleton. simpl. lia.
    + eapply intact_others; [done|done|apply HP|]. intros m' Em _.
      unfold row_of in Hrow. rewrite Hrow in Em. injection Em as <-. exists data.
      split; [done|]. by destruct Hm as (_ & _ & -> & _).
  - done.
Qed.

Definition put_decision := row_decision key row0.

(** The decisions of a conditional write. *)
Lemma put_decision_conditional expected request_id :
  0 <= current < 2 ^ 64 - 1 →
  let retry m := row0 = Some m ∧ request_id ≠ [] ∧ om_request_id m = request_id in
  match put_decision 0 true expected request_id with
  | inl m => retry m
  | inr (inl s) => (∀ m, ¬ retry m) ∧ current ≠ expected ∧ st_code s = kConflict
  | inr (inr v) => (∀ m, ¬ retry m) ∧ current = expected ∧ v = expected + 1
  end.
Proof.
  intros Hv retry.
  assert (∀ c, c = current → match DoPut_version key c 0 true expected with
    | inl s => current ≠ expected ∧ st_code s = kConflict
    | inr v => current = expected ∧ v = expected + 1
    end) as Hver.
  { intros c ->. unfold DoPut_version. cbn [andb negb Z.eqb].
    destruct (current =? expected) eqn:E; prop_bool; cbn [negb]; [|done].
    split; [done|]. apply u64_small. unfold is_u64. lia. }
  unfold put_decision, row_decision, retry. destruct row0 as [m|]; simpl in *.
  - destruct (bool_decide (request_id ≠ []) && _) eqn:E; prop_bool; [done|].
    apply andb_false_iff in E.
    assert (∀ m0, ¬ (Some m = Some m0 ∧ request_id ≠ [] ∧ om_request_id m0 = request_id)) as Hn.
    { intros m0 ([= <-] & ? & ?). destruct E as [E|E]; prop_bool; done. }
    specialize (Hver _ eq_refl). by destruct (DoPut_version _ _ _ _ _).
  - specialize (Hver _ eq_refl).
    destruct (DoPut_version _ _ _ _ _); (split; [by intros ? [? _]|done]).
Qed.

Lemma wp_DoPut S explicit_version conditional expected_version request_id :
  nul_free request_id → wal_next_seq (los_wal st) + 1 < 2 ^ 64 →
  (∀ v, put_decision explicit_version conditional expected_version request_id = inr (inr v) →
     put_args_ok key data v (ms_rows db0)) →
  wp S (DoPut getpid st key data explicit_version conditional expected_version request_id)
    (λ r fs db,
      (∃ s, r = (FromStatus s, st) ∧ backend_error s ∧ unchanged fs db) ∨
      match put_decision explicit_version conditional expected_version request_id with
      | inl m => r = (FromValue m, st) ∧ unchanged fs db
      | inr (inl s) => r = (FromStatus s, st) ∧ unchanged fs db
      | inr (inr v) => written S v request_id r fs db
      end)
    (λ fs db,
      match put_decision explicit_version conditional expected_version request_id with
      | inr (inr v) => Write v True fs db
      | _ => unchanged fs db
      end) fs0 db0.
Proof.
  intros Hrid Hnext Hargs. unfold DoPut. pose proof (si_db _ _ _ Hinv) as Hdb.
  apply wp_bind, wp_on_db.
  2:{ destruct (put_decision _ _ _ _) as [m|[s|v]]; [done..|]. by apply unchanged_Write; auto. }
  intros peek db Hpeek. apply ms_Peek_law in Hpeek as (Hi & Er & Hpeek); [|done|done].
  assert (unchanged fs0 db) as Hun by done.
  assert (∀ current, put_decision explicit_version conditional expected_version request_id =
      inr (DoPut_version key current explicit_version conditional expected_version) →
    wp S match DoPut_version key current explicit_version conditional expected_version with
         | inl s => ret (FromStatus s, st)
         | inr version => DoPut_commit getpid st key data version request_id
         end
    (λ r fs db,
      (∃ s, r = (FromStatus s, st) ∧ backend_error s ∧ unchanged fs db) ∨
      match put_decision explicit_version conditional expected_version request_id with
      | inl m => r = (FromValue m, st) ∧ unchanged fs db
      | inr (inl s) => r = (FromStatus s, st) ∧ unchanged fs db
      | inr (inr v) => written S v request_id r fs db
      end)
    (λ fs db,
      match put_decision explicit_version conditional expected_version request_id with
      | inr (inr v) => Write v True fs db
      | _ => unchanged fs db
      end) fs0 db) as Hgo.
  { intros current E. rewrite E in *. destruct (DoPut_version _ _ _ _ _) as [s|v].
    - apply wp_ret. by right.
    - eapply wp_mono; [by apply wp_commit; auto| |done]. intros. by right. }
  unfold put_decision, row_decision in Hgo |- *. destruct peek as [s|m].
  - destruct (bool_decide (st_code s = kNotFound)) eqn:Ec; prop_bool.
    + destruct Hpeek as [[_ E]|E]; [|by unfold backend_error in E; congruence].
      rewrite E in *. by apply Hgo.
    + destruct Hpeek as [[E _]|E]; [done|]. apply wp_ret. left. by eauto.
  - rewrite Hpeek in *. destruct (bool_decide (request_id ≠ []) && _).
    + apply wp_ret. by right.
    + by apply Hgo.
Qed.

(** [Put] writes the version after the current one. *)
Lemma wp_Put S :
  Zlen data * 8 < 2 ^ 64 → 0 <= current < 2 ^ 64 - 1 → wal_next_seq (los_wal st) + 1 < 2 ^ 64 →
  wp S (Put getpid st key data)
    (λ r fs db,
      match r.1 with
      | FromStatus s => Write (current + 1) True fs db
      | FromValue m => written S (current + 1) [] r fs db ∧ Write (current + 1) False fs db
      end)
    (Write (current + 1) True) fs0 db0.
Proof.
  intros Hd Hv Hseq.
  assert (put_args_ok key data (current + 1) (ms_rows db0)) as Hargs.
  { split; [done|unfold is_u64; lia|done|]. intros m E. rewrite E. simpl. lia. }
  assert (put_decision 0 false 0 [] = inr (inr (current + 1))) as Edec.
  { unfold put_decision, row_decision. rewrite (bool_decide_false ([] ≠ [])) by by intros ?. cbn [andb].
    unfold DoPut_version. cbn [andb Z.eqb negb].
    destruct row0; simpl; by rewrite u64_small by (unfold is_u64; simpl in *; lia). }
  assert (unchanged fs0 db0) as Hun by (split_and!; [done|apply Hinv|done]).
  unfold Put. case_bool; prop_bool.
  { apply wp_ret. cbn [fst]. by apply unchanged_Write. }
  eapply wp_mono; [apply wp_DoPut; try done|..]; rewrite ?Edec.
  - apply not_elem_of_nil.
  - by intros v [= <-].
  - intros r fs db [(s & -> & _ & Hu)|Hw]; cbn [fst]; [by apply unchanged_Write|].
    pose proof Hw as Hw'. unfold written in Hw'. destruct r as [[s|m] st']; cbn [fst] in *; [by apply Hw'|].
    split; [done|apply Hw'].
  - done.
Qed.

(** Opening the store after a write in any state it can leave. *)
Lemma write_recovered version undecided w1 w2 st' w3 :
  put_args_ok key data version (ms_rows db0) →
  Write version undecided (w_files w1) (w_db w1) →
  restarts root w1 w2 → Open root w2 = (Some (FromValue st'), w3) →
  StoreInv st' (w_files w3) (w_db w3) ∧ los_root st' = root ∧
  others root key fs0 (ms_rows db0) (w_files w3) (w_db w3) ∧
  put_fin root key data version fs0 (ms_rows db0) undecided
    (ms_rows (w_db w3) !! key) (w_files w3 !! ObjectPath root key).
Proof.
  intros Hargs HP Hr HO.
  eapply restarts_spec in HO; [|intros fs db; eapply wp_Open|exact HP|exact Hr]; try done.
  2: apply put_fin_mid. 2: intros; by apply wp_Recover_put.
  destruct HO as (Ho & HF & -> & Hl). split; [|done].
  eapply StoreInv_reset; [apply Hinv|done|done| |done].
  intros m Em Hd. unfold row_of, file_of in HF. rewrite Em in HF.
  destruct HF as [(_ & E & ->)|(m' & c & E & Hm & -> & Es & _)].
  - symmetry in E. by eapply (si_intact _ _ _ Hinv).
  - injection E as <-. exists c. split; [done|]. destruct Hm as (_ & _ & -> & _). done.
Qed.
End write.

(** The version [Put] assigns is the current one plus one. *)
Lemma put_args_next key data db :
  nul_free key → Zlen data * 8 < 2 ^ 64 →
  0 <= from_option om_version 0 (ms_rows db !! key) < 2 ^ 64 - 1 →
  put_args_ok key data (from_option om_version 0 (ms_rows db !! key) + 1) (ms_rows db).
Proof.
  intros Hk Hd Hv. split; [done|unfold is_u64; lia|done|]. intros m E. rewrite E. simpl. lia.
Qed.

(** ** Reads *)

Lemma wp_Get S st key fs db :
  ms_inv db → nul_free key →
  wp S (Get st key)
    (λ r fs' db', fs' = fs ∧ ms_inv db' ∧ ms_rows db' = ms_rows db ∧
      match r with
      | FromValue d => ∃ m, ms_rows db !! key = Some m ∧ om_deleted m = false ∧
          Sha256Hex d = om_checksum m ∧
          ∃ c, fs !! ObjectPath (los_root st) key = Some c ∧ d `prefix_of` c ∧ (¬ may_short S → d = c)
      | FromStatus s =>
          (st_code s = kNotFound ∧ ∀ m, ms_rows db !! key = Some m → om_deleted m = true) ∨
          (st_code s = kChecksumMismatch ∧ ∃ m c, ms_rows db !! key = Some m ∧ om_deleted m = false ∧
             fs !! ObjectPath (los_root st) key = Some c ∧
             (¬ may_short S → Sha256Hex c ≠ om_checksum m)) ∨
          (backend_error s ∧
           ((ms_Get key db).1 = FromStatus s ∨ may_fail S ∨
            ∃ m, ms_rows db !! key = Some m ∧ om_deleted m = false ∧
                 fs !! ObjectPath (los_root st) key = None))
      end)
    (λ fs' db', fs' = fs ∧ ms_inv db' ∧ ms_rows db' = ms_rows db) fs db.
Proof.
  intros Hi Hk. unfold Get. apply wp_bind, wp_on_db; [|done].
  intros r db1 Hg. pose proof (f_equal fst Hg) as Hr. cbn [fst] in Hr.
  apply ms_Get_law in Hg as (Hi1 & Er & Hg); [|done|done].
  destruct r as [s|m]; [apply wp_ret; split_and!; auto; tauto|]. destruct Hg as [Em Ed].
  unfold ReadWholeFile. apply wp_bind, wp_bind, wp_read_file; [..|done].
  - intros Hfail. apply wp_ret, wp_ret. split_and!; auto. right. right. auto with dos.
  - intros Hshort n c Ec. apply wp_ret. case_bool; prop_bool; apply wp_ret; split_and!; auto.
    + right. left. split; [done|]. exists m, c. done.
    + exists m. split_and!; auto; [by apply dec_stable|]. exists c. split_and!; [done| |done].
      apply prefix_take.
  - destruct (fs !! ObjectPath (los_root st) key) as [c|] eqn:Ec; apply wp_ret.
    + case_bool; prop_bool; apply wp_ret; split_and!; auto.
      * right. left. split; [done|]. exists m, c. done.
      * exists m. split_and!; auto; [by apply dec_stable|]. by exists c.
    + apply wp_ret. split_and!; auto. right. right. split; [done|]. right. right. by exists m.
Qed.

(** ** Deletes *)

Section delete.
Variable (st : LocalObjectStore) (key : bytes) (fs0 : gmap path bytes) (db0 : DB).
Notation root := (los_root st).
Notation seq := (wal_next_seq (los_wal st)).

Hypothesis Hinv : StoreInv st fs0 db0.
Hypothesis Hkey : nul_free key.
Hypothesis Hklen : Zlen key < 2 ^ 32 - 98.
Hypothesis Hcol : no_collision db0 key.

Definition del_begin : WalRecord := mkWalRecord seq false kDelete key 0 [] 0.
Definition del_commit : WalRecord := mkWalRecord seq true kPut [] 0 [] 0.

(** As before, or tombstoned. *)
Definition del_fin (undecided : Prop) (row : option ObjectMetadata) (file : option bytes) : Prop :=
  file = fs0 !! ObjectPath root key ∧
  ((undecided ∧ row = ms_rows db0 !! key) ∨
   (∃ m, ms_rows db0 !! key = Some m ∧ om_deleted m = false ∧ row = Some (tombstone m))).

Definition DelPending (undecided : Prop) : gmap path bytes → DB → Prop :=
  Pending root key del_begin del_commit fs0 (ms_rows db0) (del_fin undecided) (del_fin undecided).

Lemma del_begin_ok : record_ok del_begin.
Proof.
  unfold record_ok. cbn. split_and!; try done; [apply Hinv|lia].
Qed.

Lemma del_commit_ok : record_ok del_commit.
Proof. unfold record_ok. cbn. split_and!; try done. apply Hinv. Qed.

(** What deleting a row in the backend does to a state of the delete. *)
Lemma ms_Delete_fin undecided fs db s db' :
  others root key fs0 (ms_rows db0) fs db → del_fin undecided (row_of key db) (file_of root key fs) →
  ms_Delete key db = (s, db') →
  others root key fs0 (ms_rows db0) fs db' ∧ del_fin undecided (row_of key db') (file_of root key fs) ∧
  (s = Ok → del_fin False (row_of key db') (file_of root key fs) ∧
     ∃ m, row_of key db' = Some m ∧ om_deleted m = true) ∧
  (st_ok s = true → s = Ok).
Proof.
  intros (Hi & Hr & Hf) HF Hd. apply ms_Delete_law in Hd as (Hi' & Hd); [|done|done].
  unfold others, row_of in *.
  destruct Hd as [(-> & m & Em & Hl & Er)|[(Hs & Hgone & Er)|(Hs & Er)]]; rewrite Er.
  - rewrite lookup_insert_eq, Em in *. destruct HF as (Ef & HF).
    assert (ms_rows db0 !! key = Some m) as E0.
    { destruct HF as [[_ <-]|(m' & E & _ & [= ->])]; done. }
    split; [split; [done|]; split; [|done]; intros; rewrite lookup_insert_ne; auto|].
    assert (∀ u, del_fin u (Some (tombstone m)) (file_of root key fs)) as HT.
    { split; [done|]. right. by exists m. }
    split; [done|]. split; [|done]. intros _. split; [done|]. by exists (tombstone m).
  - split_and!; auto; [intros ->; done|]. unfold st_ok. by rewrite Hs.
  - split_and!; auto; [intros ->; done|]. unfold st_ok. by rewrite Hs.
Qed.

Lemma wp_Recover_delete undecided fs db :
  others root key fs0 (ms_rows db0) fs db → del_fin undecided (row_of key db) (file_of root key fs) →
  wp smooth (Recover_record root del_begin)
    (λ r fs' db', fs' = fs ∧ others root key fs0 (ms_rows db0) fs db' ∧
       match r with
       | None => del_fin undecided (row_of key db') (file_of root key fs)
       | Some s => st_ok s = false ∧ del_fin undecided (row_of key db') (file_of root key fs)
       end)
    (λ fs' db', fs' = fs ∧ others root key fs0 (ms_rows db0) fs db' ∧
       del_fin undecided (row_of key db') (file_of root key fs)) fs db.
Proof.
  intros Ho HF. unfold Recover_record. cbn [wr_key wr_op del_begin].
  apply wp_bind, wp_on_db; [|done]. intros peek db1 Hpeek.
  pose proof Ho as (Hi & _ & _). apply ms_Peek_law in Hpeek as (Hi1 & Er1 & _); [|done|done].
  assert (others root key fs0 (ms_rows db0) fs db1) as Ho1.
  { destruct Ho as (_ & ? & ?). unfold others. by rewrite Er1. }
  assert (del_fin undecided (row_of key db1) (file_of root key fs)) as HF1
    by (unfold row_of; by rewrite Er1).
  destruct (match _ with Some m => negb (om_deleted m) | None => false end); [|by apply wp_ret].
  apply wp_bind, wp_on_db; [|done]. intros s db2 Hd.
  destruct (ms_Delete_fin _ _ _ _ _ Ho1 HF1 Hd) as (? & ? & _ & ?). apply wp_ret.
  split; [done|]. split; [done|]. destruct (st_ok s) eqn:Es; cbn [negb andb]; [done|].
  by destruct (bool_decide _).
Qed.

Section states.
Variable rs : list WalRecord.
Hypothesis Hlog : fs0 !! WalPath root = Some (log_bytes rs).
Hypothesis Hrs : Forall record_ok rs.
Hypothesis Hset : settled rs.
Hypothesis Hfresh : Forall (λ r, wr_seq r < seq) rs.

Lemma DelPending_log undecided fs db extra content :
  others root key fs0 (ms_rows db0) fs db →
  del_fin undecided (row_of key db) (file_of root key fs) →
  fs !! WalPath root = Some content → Replay_bytes content = rs ++ extra →
  extra = [] ∨ extra = [del_begin] ∨ extra = [del_begin; del_commit] →
  DelPending undecided fs db.
Proof.
  intros Ho HF Hl Er Hx. split; [done|]. split; [done|]. exists rs, extra.
  split; [by exists content|]. split; [done|]. split; [by apply committed_fresh|]. tauto.
Qed.

Lemma others_wal fs db content :
  others root key fs0 (ms_rows db0) fs db →
  others root key fs0 (ms_rows db0) (<[WalPath root := content]> fs) db.
Proof. intros (? & ? & ?). split_and!; auto. intros. rewrite lookup_insert_ne; auto. Qed.

Lemma file_of_wal fs content : file_of root key (<[WalPath root := content]> fs) = file_of root key fs.
Proof. apply lookup_insert_ne. eauto with dos. Qed.

Lemma del_begin_torn undecided fs db k :
  others root key fs0 (ms_rows db0) fs db →
  del_fin undecided (row_of key db) (file_of root key fs) →
  DelPending undecided (<[WalPath root := log_bytes rs ++ take k (record_frame del_begin)]> fs) db.
Proof.
  intros Ho HF.
  destruct (Replay_after_append rs del_begin k Hrs del_begin_ok) as [E|E];
    (eapply DelPending_log; [by apply others_wal|by rewrite file_of_wal|by rewrite lookup_insert_eq|..]).
  - by rewrite app_nil_r.
  - by left.
  - done.
  - auto.
Qed.

Lemma del_commit_torn undecided fs db k :
  others root key fs0 (ms_rows db0) fs db →
  del_fin undecided (row_of key db) (file_of root key fs) →
  DelPending undecided
    (<[WalPath root := log_bytes (rs ++ [del_begin]) ++ take k (record_frame del_commit)]> fs) db.
Proof.
  intros Ho HF.
  assert (Forall record_ok (rs ++ [del_begin])) as Hrs'
    by (apply Forall_app; split; [done|]; apply Forall_singleton, del_begin_ok).
  destruct (Replay_after_append (rs ++ [del_begin]) del_commit k Hrs' del_commit_ok) as [E|E];
    (eapply DelPending_log; [by apply others_wal|by rewrite file_of_wal|by rewrite lookup_insert_eq|..]).
  - done.
  - auto.
  - by rewrite <-app_assoc in E.
  - auto.
Qed.
End states.

Lemma del_start : others root key fs0 (ms_rows db0) fs0 db0 ∧
  del_fin True (row_of key db0) (file_of root key fs0).
Proof. split; [split; [apply Hinv|done]|]. split; [done|]. by left. Qed.

Lemma wp_Delete S :
  seq + 1 < 2 ^ 64 →
  wp S (Delete st key)
    (λ r fs db,
      (r.1 = Ok ∧ DelPending False fs db ∧ (¬ may_fail S → StoreInv r.2 fs db)) ∨
      (st_ok r.1 = false ∧ DelPending True fs db))
    (DelPending True) fs0 db0.
Proof.
  intros Hnext. destruct del_start as [Ho HF].
  pose proof Hinv as [_ Hfd Hpath Hseq (rs & Hl & Hok & Hs & Hlt) Hint].
  unfold Delete, NextSeq. cbv beta iota zeta. cbn [los_root los_wal los_counter]. rewrite Hfd, Hpath.
  unfold AppendBegin. fold del_begin.
  apply wp_bind, (wp_AppendRecord _ _ _ _ _ _ _ (log_bytes rs)); [done|done|..]; cbn [wal_path].
  - intros k Hk. by eapply del_begin_torn.
  - intros _ k s Hk [Hsf _]. rewrite Hsf. apply wp_ret. right. split; [done|]. by eapply del_begin_torn.
  - change (negb (st_ok Ok)) with false. cbv iota.
    assert (∀ fs db, others root key fs0 (ms_rows db0) fs db →
      del_fin True (row_of key db) (file_of root key fs) →
      DelPending True (<[WalPath root := log_bytes rs ++ record_frame del_begin]> fs) db) as HC.
    { intros fs db Ho' HF'. rewrite <-(firstn_all (record_frame del_begin)). by eapply del_begin_torn. }
    apply wp_bind, wp_on_db; [|by apply HC]. intros s db Hd.
    destruct (ms_Delete_fin _ _ _ _ _ Ho HF Hd) as (Ho' & HF' & Hok' & Hs').
    destruct (st_ok s) eqn:Es; cbn [negb].
    2:{ apply wp_ret. right. split; [done|]. by apply HC. }
    rewrite (Hs' eq_refl) in *. destruct (Hok' eq_refl) as [HFF (m & Em & Hdel)].
    rewrite <-log_bytes_snoc. apply wp_bind. unfold AppendCommit. fold del_commit.
    apply (wp_AppendRecord _ _ _ _ _ _ _ (log_bytes (rs ++ [del_begin]))); [done| |..];
      cbn [los_wal wal_path]; rewrite ?insert_insert_eq.
    + by rewrite lookup_insert_eq.
    + intros k Hk. rewrite insert_insert_eq. by eapply del_commit_torn.
    + intros Hfail k s' Hk _. rewrite insert_insert_eq. apply wp_ret. left. split; [done|].
      split; [by eapply del_commit_torn|done].
    + apply wp_ret. left. split; [done|].
      split; [rewrite <-(firstn_all (record_frame del_commit)); by eapply del_commit_torn|].
      intros _. cbn [snd]. rewrite <-log_bytes_snoc, <-app_assoc.
      split; cbn [los_root los_wal wal_fd wal_path wal_next_seq]; try done.
      * apply Ho'.
      * apply u64_range.
      * exists (rs ++ [del_begin; del_commit]). rewrite lookup_insert_eq. split; [done|]. split; [|split].
        -- apply Forall_app. split; [done|]. apply Forall_cons. split; [apply del_begin_ok|].
           apply Forall_singleton, del_commit_ok.
        -- by apply settled_snoc_op.
        -- rewrite u64_small by (unfold is_u64 in *; lia). apply Forall_app. split.
           { eapply Forall_impl; [done|]. simpl. lia. }
           apply Forall_cons. split; [simpl; lia|]. apply Forall_singleton. simpl. lia.
      * eapply intact_others; [done|done|by apply others_wal|].
        intros m' Em' Hl'. unfold row_of in Em. rewrite Em in Em'. injection Em' as <-. congruence.
Qed.

Lemma delete_recovered undecided w1 w2 st' w3 :
  DelPending undecided (w_files w1) (w_db w1) →
  restarts root w1 w2 → Open root w2 = (Some (FromValue st'), w3) →
  StoreInv st' (w_files w3) (w_db w3) ∧ los_root st' = root ∧
  others root key fs0 (ms_rows db0) (w_files w3) (w_db w3) ∧
  del_fin undecided (ms_rows (w_db w3) !! key) (w_files w3 !! ObjectPath root key).
Proof.
  intros HP Hr HO.
  eapply restarts_spec in HO; [|intros fs db; eapply wp_Open|exact HP|exact Hr]; try done.
  2: intros; by apply wp_Recover_delete.
  destruct HO as (Ho & HF & -> & Hl). split; [|done].
  eapply StoreInv_reset; [apply Hinv|done|done| |done].
  intros m Em Hd. unfold row_of, file_of in HF. rewrite Em in HF.
  destruct HF as (-> & [(_ & E)|(m' & _ & _ & [= ->])]); [|done].
  symmetry in E. by eapply (si_intact _ _ _ Hinv).
Qed.
End delete.
End props.

(** ** Properties *)

Section theorems.
Context {DB : Type} `{MetadataBackendLaws DB}.

(** The preconditions of a write: a store in order, a key and a payload of
    representable sizes, and counters that do not overflow. *)
Record write_ready (st : LocalObjectStore) (key data : bytes) (w : World DB) : Prop := {
  wr_inv : StoreInv st (w_files w) (w_db w);
  wr_key_ok : nul_free key ∧ Zlen key < 2 ^ 32 - 98;
  wr_data_ok : Zlen data * 8 < 2 ^ 64;
  wr_collision : no_collision (w_db w) key;
  wr_version_ok : 0 <= from_option om_version 0 (ms_rows (w_db w) !! key) < 2 ^ 64 - 1;
  wr_seq_ok : wal_next_seq (los_wal st) + 1 < 2 ^ 64;
  wr_clock_ok : clock_ok (w_times w);
}.

Lemma world_ok_anything (w : World DB) : clock_ok (w_times w) → world_ok anything w.
Proof. intros Ht. split; [|done]. by apply Forall_true. Qed.

(** C2: an object written by [Put] is never half written.  [Put] starts on a store in
    order ([write_ready]; the operations in its log are all committed), runs under any
    pattern of I/O failures and may be cut by a crash in any system call or
    database call; the process is then restarted any number of times, crashing
    at any point of recovery, until [Open] succeeds.  Then the store is in order
    again (in particular every live object has its bytes), the other keys are
    unchanged, and the key either is exactly as it was (row and bytes) or has
    the new version: its row with version current + 1 and bytes with the
    checksum of the data.  When [Put] had returned the metadata, the new version
    is there, with exactly the data. *)
Theorem put_atomic_across_crashes (getpid : Z) (st st' : LocalObjectStore) (key data : bytes)
    (w w1 w2 w3 : World DB) r :
  write_ready st key data w →
  Put getpid st key data w = (r, w1) →
  restarts (los_root st) w1 w2 → Open (los_root st) w2 = (Some (FromValue st'), w3) →
  let version := from_option om_version 0 (ms_rows (w_db w) !! key) + 1 in
  let row := ms_rows (w_db w3) !! key in
  let file := w_files w3 !! ObjectPath (los_root st) key in
  StoreInv st' (w_files w3) (w_db w3) ∧
  (∀ k, k ≠ key → ms_rows (w_db w3) !! k = ms_rows (w_db w) !! k) ∧
  ((row = ms_rows (w_db w) !! key ∧ file = w_files w !! ObjectPath (los_root st) key) ∨
   (∃ m c, row = Some m ∧ new_meta key data version m ∧ file = Some c ∧ Sha256Hex c = Sha256Hex data)) ∧
  (∀ m st1, r = Some (FromValue m, st1) →
     (∃ m', row = Some m' ∧ new_meta key data version m') ∧ file = Some data).
Proof.
  intros [Hinv [Hk Hkl] Hd Hcol Hv Hseq Ht] E Hr HO version row file.
  assert (put_args_ok key data version (ms_rows (w_db w))) as Hargs by by apply put_args_next.
  eapply wp_elim in E as [_ HX]; [|by eapply wp_Put|by apply world_ok_anything].
  assert (∃ undecided, Write st key data (w_files w) (w_db w) version undecided (w_files w1) (w_db w1) ∧
    (undecided ∨ ∃ m st1, r = Some (FromValue m, st1)) ∧
    (∀ m st1, r = Some (FromValue m, st1) → ¬ undecided)) as (u & HW & _ & Hu).
  { destruct r as [[[s|m] st1]|]; [exists True|exists False|exists True]; cbn [fst] in HX; split_and!;
      try done; eauto; by apply HX. }
  eapply write_recovered in HW as (Hinv' & _ & (_ & Hrows & _) & HF); [|done..].
  split; [done|]. split; [done|]. subst row file. split.
  - destruct HF as [(_ & -> & ->)|(m & c & -> & Hm & -> & Es & _)]; [by left|]. right. by exists m, c.
  - intros m st1 Er. specialize (Hu _ _ Er).
    destruct HF as [(? & _)|(m' & c & E1 & Hm & E2 & _ & Hc)]; [done|].
    split; [by exists m'|]. rewrite E2. by destruct Hc as [? | ->].
Qed.

(** C13: a deletion is atomic.  [Delete] starts on a store in order ([write_ready];
    the operations in its log are all committed), runs under any pattern of failures and a
    crash in any call, and recovery may crash any number of times: when [Open]
    succeeds the store is in order, the other keys and the payload are
    unchanged, and the key's row is either what it was or, if it was live, its
    tombstone; it is the tombstone when [Delete] had returned [Ok]. *)
Theorem delete_atomic_across_crashes (st st' : LocalObjectStore) (key : bytes)
    (w w1 w2 w3 : World DB) r :
  write_ready st key [] w →
  Delete st key w = (r, w1) →
  restarts (los_root st) w1 w2 → Open (los_root st) w2 = (Some (FromValue st'), w3) →
  StoreInv st' (w_files w3) (w_db w3) ∧
  (∀ k, k ≠ key → ms_rows (w_db w3) !! k = ms_rows (w_db w) !! k) ∧
  w_files w3 !! ObjectPath (los_root st) key = w_files w !! ObjectPath (los_root st) key ∧
  (ms_rows (w_db w3) !! key = ms_rows (w_db w) !! key ∨
   ∃ m, ms_rows (w_db w) !! key = Some m ∧ om_deleted m = false ∧
        ms_rows (w_db w3) !! key = Some (tombstone m)) ∧
  (∀ st1, r = Some (Ok, st1) →
     ∃ m, ms_rows (w_db w) !! key = Some m ∧ om_deleted m = false ∧
          ms_rows (w_db w3) !! key = Some (tombstone m)).
Proof.
  intros [Hinv [Hk Hkl] _ Hcol _ Hseq Ht] E Hr HO.
  eapply wp_elim in E as [_ HX]; [|by eapply wp_Delete|by apply world_ok_anything].
  assert (∃ undecided, DelPending st key (w_files w) (w_db w) undecided (w_files w1) (w_db w1) ∧
    (∀ st1, r = Some (Ok, st1) → ¬ undecided)) as (u & HW & Hu).
  { destruct r as [[s st1]|]; [|by exists True]. destruct HX as [(_ & ? & _)|[Hs ?]].
    - exists False. split; [done|]. by intros ? _ [].
    - exists True. split; [done|]. intros ? [= -> _]. done. }
  eapply delete_recovered in HW as (Hinv' & _ & (_ & Hrows & _) & Hf & HF); [|done..].
  split_and!; [done..|destruct HF as [[_ ?]|?]; auto|].
  intros st1 Er. specialize (Hu _ Er). destruct HF as [[? _]|?]; done.
Qed.

(** C14: a conditional write, on every branch and under any failures.  Unless the
    backend cannot be read: a retry of the request that made the current version
    returns that version and changes nothing; otherwise a version other than the
    expected one is refused with [kConflict] and nothing changes; otherwise the
    write goes ahead, and if it returns metadata it is version expected + 1, with
    the request's id, and the row and the bytes are there. *)
Theorem put_conditional_spec (getpid : Z) (st st' : LocalObjectStore) (key data : bytes)
    (expected : Z) (request_id : bytes) (w w' : World DB) (r : StatusOr ObjectMetadata) :
  write_ready st key data w → key ≠ [] → nul_free request_id →
  PutConditional getpid st key data expected request_id w = (Some (r, st'), w') →
  let row := ms_rows (w_db w) !! key in
  let current := from_option om_version 0 row in
  let same := w_files w' = w_files w ∧ ms_rows (w_db w') = ms_rows (w_db w) ∧ st' = st in
  let retry m := row = Some m ∧ request_id ≠ [] ∧ om_request_id m = request_id in
  (∃ s, r = FromStatus s ∧ backend_error s ∧ same) ∨
  (∃ m, retry m ∧ r = FromValue m ∧ same) ∨
  ((∀ m, ¬ retry m) ∧ current ≠ expected ∧ (∃ s, r = FromStatus s ∧ st_code s = kConflict) ∧ same) ∨
  ((∀ m, ¬ retry m) ∧ current = expected ∧
   match r with
   | FromStatus s => st_ok s = false
   | FromValue m =>
       new_meta key data (expected + 1) m ∧ om_request_id m = request_id ∧
       ms_rows (w_db w') !! key = Some m ∧
       w_files w' !! ObjectPath (los_root st) key = Some data ∧
       (∀ k, k ≠ key → ms_rows (w_db w') !! k = ms_rows (w_db w) !! k)
   end).
Proof.
  intros [Hinv [Hk Hkl] Hd Hcol Hv Hseq Ht] Hne Hrid E row current same retry.
  unfold PutConditional in E. rewrite bool_decide_false in E by done.
  pose proof (put_decision_conditional key (w_db w) expected request_id Hv) as Hdec.
  eapply wp_elim in E as [_ HX]; [|eapply (wp_DoPut getpid st key data _ _ Hinv Hk Hkl Hcol anything); try done
    |by apply world_ok_anything].
  2:{ intros v Ev. rewrite Ev in Hdec. destruct Hdec as (_ & <- & ->). by apply put_args_next. }
  cbv beta in HX. destruct HX as [(s & [= -> ->] & Hs & Hf & _ & Er)|HX].
  { left. exists s. done. }
  right. destruct (put_decision _ _ _ _ _ _) as [m|[s|v]].
  - destruct HX as ([= -> ->] & Hf & _ & Er). left. exists m. done.
  - destruct HX as ([= -> ->] & Hf & _ & Er). destruct Hdec as (? & ? & ?). right. left.
    split_and!; [done|done|by exists s|done].
  - destruct Hdec as (? & ? & ->). right. right. split; [done|]. split; [done|].
    unfold written in HX. cbn [fst] in HX. destruct r as [s|m]; [apply HX|].
    destruct HX as ((( _ & Hrows & _) & _) & Hrow & Hfile & Hm & Hid & _). done.
Qed.

(** C15: reads are checked and complete.  Under any failures, bytes that [Get]
    returns have the checksum of a live row of the key, and [Get] changes
    nothing.  In a store that is in order, and without I/O failures, [Get]
    returns the object's bytes when the key is live, [kNotFound] when it is
    absent or deleted, and [kChecksumMismatch] never (the backend's own errors
    apart). *)
Theorem get_returns_committed_bytes (S : outcome → Prop) (st : LocalObjectStore) (key : bytes)
    (w w' : World DB) (r : StatusOr bytes) :
  ms_inv (w_db w) → nul_free key → world_ok S w → Get st key w = (Some r, w') →
  w_files w' = w_files w ∧ ms_rows (w_db w') = ms_rows (w_db w) ∧
  (∀ d, r = FromValue d →
     ∃ m, ms_rows (w_db w) !! key = Some m ∧ om_deleted m = false ∧ Sha256Hex d = om_checksum m) ∧
  (StoreInv st (w_files w) (w_db w) → S = smooth →
     (∃ s, (ms_Get key (w_db w)).1 = FromStatus s ∧ backend_error s ∧ r = FromStatus s) ∨
     match ms_rows (w_db w) !! key with
     | Some m =>
         if om_deleted m then ∃ s, r = FromStatus s ∧ st_code s = kNotFound
         else ∃ c, r = FromValue c ∧ w_files w !! ObjectPath (los_root st) key = Some c
     | None => ∃ s, r = FromStatus s ∧ st_code s = kNotFound
     end).
Proof.
  intros Hi Hk Hw E. eapply wp_elim in E as [_ HX]; [|by eapply wp_Get|done].
  cbv beta in HX. destruct HX as (Hf & _ & Hr & HX). split; [done|]. split; [done|]. split.
  - intros d ->. destruct HX as (m & ? & ? & ? & _). by exists m.
  - intros Hinv ->. destruct r as [s|d].
    + destruct HX as [[Hs Hgone]|[(Hs & m & c & Em & Ed & Ec & Hne)|(Hs & Hwhy)]].
      * right. destruct (ms_rows (w_db w) !! key) as [m|] eqn:Em; [|by exists s].
        rewrite (Hgone m eq_refl). by exists s.
      * destruct (si_intact _ _ _ Hinv key m Em Ed) as (c' & Ec' & Es).
        exfalso. apply (Hne smooth_no_short). congruence.
      * left. exists s. split; [|done]. destruct Hwhy as [?|[?%smooth_no_fail|(m & Em & Ed & En)]]; [done..|].
        destruct (si_intact _ _ _ Hinv key m Em Ed) as (c' & Ec' & _). congruence.
    + right. destruct HX as (m & -> & -> & _ & c & Ec & _ & Hc). exists c. split; [|done].
      by rewrite (Hc smooth_no_short).
Qed.
End theorems.

(** ** Concrete runs, on the database in memory *)

Definition demo_root : path := [lit "srv"].
Definition demo_st : LocalObjectStore := mkLocalObjectStore demo_root (mkWal true (WalPath demo_root) 1) 0.
Definition demo_world (script : list outcome) : World MemDb :=
  mkWorld {[WalPath demo_root := []]} (mkMemDb ∅ 0 []) script [].
Definition demo_key : bytes := lit "greeting".
Definition demo_data : bytes := lit "hello".

Lemma demo_rows db : mem_table db = ∅ → ms_rows db = ∅.
Proof. intros E. cbn. unfold sql_rows. cbn. by rewrite E, map_imap_empty. Qed.

Lemma demo_inv script : StoreInv demo_st (w_files (demo_world script)) (w_db (demo_world script)).
Proof.
  split; try done.
  exists []. split; [vm_compute; reflexivity|]. repeat split; by constructor.
Qed.

Lemma demo_ready script data :
  Zlen data * 8 < 2 ^ 64 → write_ready demo_st demo_key data (demo_world script).
Proof.
  intros Hd. split.
  - apply demo_inv.
  - split; [apply (bool_decide_unpack _); vm_compute; done|done].
  - done.
  - intros k Hs _. exfalso. rewrite demo_rows, lookup_empty in Hs by done. by apply is_Some_None in Hs.
  - rewrite demo_rows by done. rewrite lookup_empty. simpl. lia.
  - simpl. lia.
  - by constructor.
Qed.

(** The process dies after the payload was renamed into place. *)
Definition demo_crash : list outcome := replicate 9 SysOk ++ [SysCrash].
Definition demo_run := Put 7 demo_st demo_key demo_data (demo_world demo_crash).
Definition restart {DB} (w : World DB) : World DB := mkWorld (w_files w) (w_db w) [] [].
Definition demo_open := Open demo_root (restart demo_run.2).

Lemma restarted_restart {DB} (w : World DB) : restarted w (restart w).
Proof. split; [done|]. split; [done|]. split; by constructor. Qed.

Lemma demo_open_ok : demo_open.1 = Some (FromValue demo_st).
Proof. vm_compute. reflexivity. Qed.

Lemma put_atomic_across_crashes_witness :
  demo_run.1 = None ∧
  StoreInv demo_st (w_files demo_open.2) (w_db demo_open.2) ∧
  om_version <$> (ms_rows (w_db demo_open.2) !! demo_key) = Some 1.
Proof.
  split; [vm_compute; reflexivity|].
  destruct (put_atomic_across_crashes 7 demo_st demo_st demo_key demo_data (demo_world demo_crash)
    demo_run.2 (restart demo_run.2) demo_open.2 demo_run.1) as (Hinv & _).
  - by apply demo_ready.
  - apply surjective_pairing.
  - apply restarts_once, restarted_restart.
  - rewrite <-demo_open_ok. apply surjective_pairing.
  - split; [exact Hinv|]. vm_compute. reflexivity.
Defined.

#[local] Opaque Sha256Hex KeyDigest.

(** A store that holds one object. *)
Definition demo_meta : ObjectMetadata :=
  mkObjectMetadata demo_key 5 (Sha256Hex demo_data) 1 100 false (lit "req-1").
Definition demo_world1 (script : list outcome) : World MemDb :=
  mkWorld {[WalPath demo_root := []; ObjectPath demo_root demo_key := demo_data]}
    (mkMemDb {[demo_key := meta_row demo_meta]} 0 []) script [].

Lemma demo_meta_ok : meta_ok demo_meta.
Proof.
  split_and!; try (apply (bool_decide_unpack _); vm_compute; done); try done.
Qed.

Lemma demo_inv1_db : sql_inv (mkMemDb {[demo_key := meta_row demo_meta]} 0 []).
Proof. apply map_Forall_singleton, (meta_row_ok demo_meta), demo_meta_ok. Qed.

Lemma demo_rows1 k :
  ms_rows (w_db (demo_world1 [])) !! k = if decide (k = demo_key) then Some demo_meta else None.
Proof.
  change (ms_rows (w_db (demo_world1 []))) with (sql_rows (w_db (demo_world1 []))).
  rewrite lookup_sql_rows by apply demo_inv1_db. cbn [sql_table mem_sqlite_laws mem_table w_db demo_world1].
  case_decide as E.
  - subst k. rewrite lookup_singleton_eq. cbn [fmap option_fmap option_map].
    exact (f_equal Some (row_meta_meta_row demo_meta demo_meta_ok)).
  - by rewrite lookup_singleton_ne by by apply not_eq_sym.
Qed.

Lemma demo_ready1 script data :
  Zlen data * 8 < 2 ^ 64 → write_ready demo_st demo_key data (demo_world1 script).
Proof.
  intros Hd. split.
  - split.
    + apply demo_inv1_db.
    + reflexivity.
    + reflexivity.
    + split; reflexivity || discriminate.
    + exists []. split; [vm_compute; reflexivity|]. repeat split; by constructor.
    + intros k m E _. change (w_db (demo_world1 script)) with (w_db (demo_world1 [])) in E.
      rewrite demo_rows1 in E. case_decide; [|discriminate]. subst k. injection E as <-.
      exists demo_data. split; [vm_compute; reflexivity|reflexivity].
  - split; [apply (bool_decide_unpack _); vm_compute; done|reflexivity].
  - exact Hd.
  - intros k [m E] Hne. change (w_db (demo_world1 script)) with (w_db (demo_world1 [])) in E.
    rewrite demo_rows1, decide_False in E by exact Hne. discriminate E.
  - change (w_db (demo_world1 script)) with (w_db (demo_world1 [])).
    rewrite demo_rows1, decide_True by reflexivity. cbn. lia.
  - reflexivity.
  - constructor.
Qed.

(** The process dies in a delete, after the tombstone is written. *)
Definition demo_del_script : list outcome := [SysOk; SysOk; SysOk; SysCrash].
Definition demo_del := Delete demo_st demo_key (demo_world1 demo_del_script).
Definition demo_del_open := Open demo_root (restart demo_del.2).

Lemma demo_del_open_ok : demo_del_open.1 = Some (FromValue demo_st).
Proof. vm_compute. reflexivity. Qed.

Lemma delete_atomic_across_crashes_witness :
  demo_del.1 = None ∧ StoreInv demo_st (w_files demo_del_open.2) (w_db demo_del_open.2) ∧
  om_deleted <$> (ms_rows (w_db demo_del_open.2) !! demo_key) = Some true.
Proof.
  split; [vm_compute; reflexivity|].
  destruct (delete_atomic_across_crashes demo_st demo_st demo_key (demo_world1 demo_del_script)
    demo_del.2 (restart demo_del.2) demo_del_open.2 demo_del.1) as (Hinv & _).
  - by apply demo_ready1.
  - apply surjective_pairing.
  - apply restarts_once, restarted_restart.
  - rewrite <-demo_del_open_ok. apply surjective_pairing.
  - split; [exact Hinv|]. vm_compute. reflexivity.
Defined.

(** A conditional write over version 1. *)
Definition demo_cond := PutConditional 7 demo_st demo_key (lit "bye") 1 (lit "req-2") (demo_world1 []).
Definition demo_meta2 : ObjectMetadata :=
  mkObjectMetadata demo_key 3 (Sha256Hex (lit "bye")) 2 0 false (lit "req-2").

Lemma demo_cond_ok : demo_cond.1 = Some (FromValue demo_meta2, next_store demo_st 1).
Proof. vm_compute. reflexivity. Qed.

Lemma put_conditional_spec_witness :
  om_version demo_meta2 = 1 + 1 ∧ ms_rows (w_db demo_cond.2) !! demo_key = Some demo_meta2.
Proof.
  destruct (put_conditional_spec 7 demo_st (next_store demo_st 1) demo_key (lit "bye") 1 (lit "req-2")
    (demo_world1 []) demo_cond.2 (FromValue demo_meta2))
    as [(s & E & _)|[(m & (E & _ & Eid) & _)|[(_ & _ & (s & E & _) & _)|(_ & _ & _ & _ & Hrow & _)]]].
  - by apply demo_ready1.
  - discriminate.
  - apply (bool_decide_unpack _). vm_compute. reflexivity.
  - rewrite <-demo_cond_ok. apply surjective_pairing.
  - discriminate E.
  - rewrite demo_rows1, decide_True in E by reflexivity. injection E as <-. discriminate Eid.
  - discriminate E.
  - split; [reflexivity|exact Hrow].
Defined.

Definition demo_get := Get demo_st demo_key (demo_world1 []).

Lemma demo_get_ok : demo_get.1 = Some (FromValue demo_data).
Proof. vm_compute. reflexivity. Qed.

Lemma get_returns_committed_bytes_witness :
  demo_get.1 = Some (FromValue demo_data) ∧ w_files demo_get.2 = w_files (demo_world1 []).
Proof.
  split; [exact demo_get_ok|].
  destruct (get_returns_committed_bytes smooth demo_st demo_key (demo_world1 []) demo_get.2
    (FromValue demo_data)) as (Hf & _).
  - apply demo_inv1_db.
  - apply (bool_decide_unpack _). vm_compute. reflexivity.
  - split; constructor.
  - rewrite <-demo_get_ok. apply surjective_pairing.
  - exact Hf.
Defined.
