(* ===== verification/StoreLimits.v ===== *)
(** * Where the object store falls short of its comments

    Executable runs of [LocalObjectStore] in which a committed object is lost or
    becomes unreadable, or a retry is not recognized: the hypotheses of the
    theorems of StoreProps.v (a settled log, a version newer than the current
    one, no I/O error in recovery) are needed. *)

From stdpp Require Import base gmap list.
From Stdlib Require Import ZArith.
From S2P Require Import Prelude Status Posix IoLogic Wal Sha256 MetadataStore.
From S2P Require Import LocalObjectStore StoreRecovery StoreProps.

Local Open Scope Z_scope.

(** Reopen the store and read the key. *)
Definition reopen_and_get : IO MemDb (option (StatusOr bytes)) :=
  let! o := Open demo_root in
  match o with
  | FromStatus _ => ret None
  | FromValue st => let! g := Get st demo_key in ret (Some g)
  end.

(** [Delete] of an absent key logs its intent and no commit; the key is then
    written and read back. *)
Definition delete_then_put : IO MemDb (StatusCode * bool * StatusOr bytes) :=
  let! d := Delete demo_st demo_key in
  let! p := Put 7 d.2 demo_key demo_data in
  let! g := Get p.2 demo_key in
  ret (st_code d.1, so_ok p.1, g).

(** After a restart the intent of the delete is replayed over the object that was
    committed later: the object is gone, although nothing failed. *)
Theorem absent_delete_loses_later_put :
  let run := delete_then_put (demo_world []) in
  run.1 = Some (kNotFound, true, FromValue demo_data) ∧
  (reopen_and_get (restart run.2)).1
    = Some (Some (FromStatus (NotFound (lit "tombstoned: " ++ demo_key)))).
Proof. vm_compute. split; reflexivity. Qed.

(** The log append of a [Put] fails after a short write; the next [Put] crashes
    between the rename and the metadata commit. *)
Definition two_puts : IO MemDb () :=
  let! p := Put 7 demo_st demo_key (lit "second") in
  let! _ := Put 7 p.2 demo_key (lit "third") in
  ret ().

Definition short_append : list outcome :=
  [SysOk; SysShort 3; SysErr (lit "No space left on device")] ++ replicate 9 SysOk ++ [SysCrash].

(** The torn bytes hide the intent of the second write, so recovery does not
    complete it, and the object committed before both has lost its bytes. *)
Theorem torn_append_hides_later_records :
  (reopen_and_get (restart (two_puts (demo_world1 short_append)).2)).1
    = Some (Some (FromStatus (ChecksumMismatch (lit "checksum mismatch for key: " ++ demo_key)))).
Proof. vm_compute. reflexivity. Qed.

(** A replica is sent a version it already has ([PutWithVersion]) and crashes
    between the rename and the metadata commit: recovery keeps the row, whose
    checksum the bytes no longer have. *)
Theorem stale_version_crash_breaks_object :
  (reopen_and_get (restart
     (PutWithVersion 7 demo_st demo_key (lit "other") 1 (demo_world1 demo_crash)).2)).1
    = Some (Some (FromStatus (ChecksumMismatch (lit "checksum mismatch for key: " ++ demo_key)))).
Proof. vm_compute. reflexivity. Qed.

(** The metadata commit fails after the rename: [Put] reports the error, and the
    version that was committed before can no longer be read. *)
Definition failing_commit : World MemDb :=
  let w := demo_world1 [] in
  mkWorld (w_files w) (mkMemDb (mem_table (w_db w)) 0 [None; Some (lit "disk I/O error")]) [] [].

Definition put_then_get : IO MemDb (bool * StatusOr bytes) :=
  let! p := Put 7 demo_st demo_key (lit "other") in
  let! g := Get p.2 demo_key in
  ret (so_ok p.1, g).

Theorem failed_commit_breaks_object :
  (put_then_get failing_commit).1
    = Some (false, FromStatus (ChecksumMismatch (lit "checksum mismatch for key: " ++ demo_key))).
Proof. vm_compute. reflexivity. Qed.

(** A conditional write is completed by recovery without its request id: the
    client's retry of the same request is refused as a conflict. *)
Definition retry_after_restart : IO MemDb (option StatusCode) :=
  let! o := Open demo_root in
  match o with
  | FromStatus _ => ret None
  | FromValue st =>
      let! p := PutConditional 7 st demo_key demo_data 0 (lit "req-1") in
      ret (Some (st_code (so_status p.1)))
  end.

Theorem recovery_forgets_request_id :
  (retry_after_restart (restart
     (PutConditional 7 demo_st demo_key demo_data 0 (lit "req-1") (demo_world demo_crash)).2)).1
    = Some (Some kConflict).
Proof. vm_compute. reflexivity. Qed.

(** A read error during recovery is taken for a missing payload: the write is
    dropped, the log reset, and the old version's bytes are gone. *)
Theorem recovery_read_error_breaks_object :
  let w1 := (Put 7 demo_st demo_key (lit "second") (demo_world1 demo_crash)).2 in
  let reopen script := reopen_and_get (mkWorld (w_files w1) (w_db w1) script []) in
  (reopen []).1 = Some (Some (FromValue (lit "second"))) ∧
  (reopen (replicate 8 SysOk ++ [SysErr (lit "Input/output error")])).1
    = Some (Some (FromStatus (ChecksumMismatch (lit "checksum mismatch for key: " ++ demo_key)))).
Proof. vm_compute. split; reflexivity. Qed.
