(* ===== verification/RaftStorage.v ===== *)
(** * Durable Raft state

    [include/consensus/raft_types.h] and [src/consensus/raft_storage.cc]: the
    hard state (term and vote), rewritten atomically, and the log of CRC-framed
    entries, appended or rewritten.  The operations are proved atomic and durable
    under every pattern of failures and a crash in every call. *)

From stdpp Require Import base gmap list.
From Stdlib Require Import ZArith Lia.
From S2P Require Import Prelude Status Wire Framing Posix IoLogic.

Local Open Scope Z_scope.

(** ** Types *)

Inductive Role := kFollower | kCandidate | kLeader.

#[global] Instance Role_eq_dec : EqDecision Role.
Proof. solve_decision. Defined.

Record LogEntry := mkLogEntry {
  le_term : Z;
  le_index : Z;       (** 1-based position in the log *)
  le_command : bytes;
}.

#[global] Instance LogEntry_eq_dec : EqDecision LogEntry.
Proof. solve_decision. Defined.

Record HardState := mkHardState {
  hs_current_term : Z;
  hs_voted_for : bytes;  (** node id, empty = none *)
}.

#[global] Instance HardState_eq_dec : EqDecision HardState.
Proof. solve_decision. Defined.

Definition HardState_default : HardState := mkHardState 0 [].

(** ** The codec *)

Definition EncodeEntry (e : LogEntry) : bytes :=
  let body := PutU64 [] (le_term e) in
  let body := PutU64 body (le_index e) in
  PutStr body (le_command e).

Definition DecodeEntry (body : bytes) : option LogEntry :=
  let r := Reader_new body in
  match U64 r with
  | None => None
  | Some (term, r) =>
      match U64 r with
      | None => None
      | Some (index, r) =>
          match Str r with
          | None => None
          | Some (command, _) => Some (mkLogEntry term index command)
          end
      end
  end.

Arguments EncodeEntry : simpl never.
Arguments DecodeEntry : simpl never.

(** The body [SaveHardState] frames, and its decoding in [Open]. *)
Definition EncodeHardState (hs : HardState) : bytes :=
  PutStr (PutU64 [] (hs_current_term hs)) (hs_voted_for hs).

Definition DecodeHardState (body : bytes) : option HardState :=
  match U64 (Reader_new body) with
  | None => None
  | Some (current_term, r) =>
      match Str r with
      | None => None
      | Some (voted_for, _) => Some (mkHardState current_term voted_for)
      end
  end.

(** The two recovery loops of [Open], on the content of the files. *)
Fixpoint decode_log (bodies : list bytes) : list LogEntry :=
  match bodies with
  | [] => []
  | body :: rest =>
      match DecodeEntry body with
      | None => []
      | Some e => e :: decode_log rest
      end
  end.

Definition load_log (file : option bytes) : list LogEntry := decode_log (ReadFramedRecords file).

Definition load_hard (file : option bytes) : HardState :=
  match last (ReadFramedRecords file) with
  | None => HardState_default
  | Some body => default HardState_default (DecodeHardState body)
  end.

(** ** [class RaftStorage] *)

Record RaftStorage := mkRaftStorage {
  rst_dir : path;
  rst_fd : bool;                   (** [log_fd_ >= 0] *)
  rst_loaded_hard : HardState;
  rst_loaded_log : list LogEntry;
}.

Definition log_path (dir : path) : path := dir ++ [lit "raft-log"].
Definition meta_path (dir : path) : path := dir ++ [lit "raft-state"].

(** [path.string() + ".tmp"] *)
Definition tmp_path (p : path) : path := removelast p ++ [default [] (last p) ++ lit ".tmp"].

Section storage.
Context {DB : Type}.
Implicit Types st : RaftStorage.

(** [ReadFramedRecords] opens and reads the file. *)
Definition read_records (p : path) : IO DB (option bytes) :=
  let! r := read_file p in
  ret (fst <$> r).

Definition Open (dir : path) : IO DB (StatusOr RaftStorage) :=
  let! ec := create_directories dir in
  match ec with
  | Some msg => ret (FromStatus (IoError (lit "create raft dir: " ++ msg)))
  | None =>
      let! e := sys_open_append (log_path dir) in
      match e with
      | Some err => ret (FromStatus (IoError (lit "open raft-log: " ++ err)))
      | None =>
          let! log := read_records (log_path dir) in
          let! meta := read_records (meta_path dir) in
          ret (FromValue (mkRaftStorage dir true (load_hard meta) (load_log log)))
      end
  end.

(** [WriteAll]: to [log_fd_], then fsync *)
Definition WriteAll st (data : bytes) : IO DB Status :=
  let! e := (if rst_fd st then write_all (log_path (rst_dir st)) data
             else ret (Some (lit "Bad file descriptor"))) in
  match e with
  | Some err => ret (IoError (lit "raft-log write: " ++ err))
  | None =>
      let! f := sys_fsync in
      match f with
      | Some err => ret (IoError (lit "raft-log fsync: " ++ err))
      | None => ret Ok
      end
  end.

Definition WriteFileAtomic (p : path) (data : bytes) : IO DB Status :=
  let tmp := tmp_path p in
  let! e := sys_open_trunc tmp in
  match e with
  | Some err => ret (IoError (lit "open tmp: " ++ err))
  | None =>
      let! e := write_all tmp data in
      match e with
      | Some err => let! _ := sys_close in ret (IoError (lit "write tmp: " ++ err))
      | None =>
          let! e := sys_fsync in
          match e with
          | Some err => let! _ := sys_close in ret (IoError (lit "fsync tmp: " ++ err))
          | None =>
              let! _ := sys_close in
              let! ec := sys_rename tmp p in
              match ec with
              | Some msg => ret (IoError (lit "rename: " ++ msg))
              | None => ret Ok
              end
          end
      end
  end.

Definition SaveHardState st (hs : HardState) : IO DB Status :=
  let framed := Frame (EncodeHardState hs) in
  WriteFileAtomic (meta_path (rst_dir st)) framed.

Definition AppendEntry st (entry : LogEntry) : IO DB Status :=
  let framed := Frame (EncodeEntry entry) in
  WriteAll st framed.

Definition RewriteLog st (entries : list LogEntry) : IO DB (Status * RaftStorage) :=
  let all := concat (map (λ e, Frame (EncodeEntry e)) entries) in
  let! s := WriteFileAtomic (log_path (rst_dir st)) all in
  if negb (st_ok s) then ret (s, st) else
  let! _ := sys_close in
  let! e := sys_open_append (log_path (rst_dir st)) in
  match e with
  | Some err =>
      ret (IoError (lit "reopen raft-log: " ++ err),
           mkRaftStorage (rst_dir st) false (rst_loaded_hard st) (rst_loaded_log st))
  | None =>
      ret (Ok, mkRaftStorage (rst_dir st) true (rst_loaded_hard st) (rst_loaded_log st))
  end.
End storage.

(** ** Round trips *)

(** Entries and hard states of representable sizes. *)
Definition entry_ok (e : LogEntry) : Prop :=
  is_u64 (le_term e) ∧ is_u64 (le_index e) ∧ Zlen (le_command e) < 2 ^ 32 - 20.

Definition hard_ok (hs : HardState) : Prop :=
  is_u64 (hs_current_term hs) ∧ Zlen (hs_voted_for hs) < 2 ^ 32 - 12.

#[global] Instance entry_ok_dec e : Decision (entry_ok e).
Proof. unfold entry_ok, is_u64. apply _. Defined.

Lemma EncodeEntry_be e :
  EncodeEntry e = be_bytes 8 (le_term e) ++ be_bytes 8 (le_index e) ++
    be_bytes 4 (u32 (Zlen (le_command e))) ++ le_command e.
Proof. unfold EncodeEntry. rewrite PutStr_be, !PutU64_be, app_nil_l, <-!app_assoc. done. Qed.

Lemma EncodeHardState_be hs :
  EncodeHardState hs = be_bytes 8 (hs_current_term hs) ++
    be_bytes 4 (u32 (Zlen (hs_voted_for hs))) ++ hs_voted_for hs.
Proof. unfold EncodeHardState. by rewrite PutStr_be, PutU64_be, app_nil_l. Qed.

Lemma DecodeEntry_EncodeEntry e : entry_ok e → DecodeEntry (EncodeEntry e) = Some e.
Proof.
  intros (Ht & Hi & Hc). rewrite EncodeEntry_be. unfold DecodeEntry.
  erewrite U64_put; [|exact Ht|by rewrite rest_new].
  erewrite U64_put; [|exact Hi|by skip_read].
  erewrite (Str_put _ (le_command e) []); [|unfold is_u32; lia|by skip_read; rewrite app_nil_r].
  by destruct e.
Qed.

Lemma DecodeHardState_EncodeHardState hs :
  hard_ok hs → DecodeHardState (EncodeHardState hs) = Some hs.
Proof.
  intros (Ht & Hv). rewrite EncodeHardState_be. unfold DecodeHardState.
  erewrite U64_put; [|exact Ht|by rewrite rest_new].
  erewrite (Str_put _ (hs_voted_for hs) []); [|unfold is_u32; lia|by skip_read; rewrite app_nil_r].
  by destruct hs.
Qed.

Lemma EncodeEntry_ok e : entry_ok e → body_ok (EncodeEntry e).
Proof.
  intros (_ & _ & Hc). rewrite EncodeEntry_be. unfold body_ok.
  rewrite !length_app, !length_be_bytes. lia.
Qed.

Lemma EncodeHardState_ok hs : hard_ok hs → body_ok (EncodeHardState hs).
Proof.
  intros (_ & Hv). rewrite EncodeHardState_be. unfold body_ok.
  rewrite !length_app, !length_be_bytes. lia.
Qed.

(** The bytes of a log file without a torn tail. *)
Definition log_file (es : list LogEntry) : bytes := frames (map EncodeEntry es).

Lemma log_file_snoc es e : log_file (es ++ [e]) = log_file es ++ Frame (EncodeEntry e).
Proof. unfold log_file. rewrite map_app, frames_app. unfold frames. simpl. by rewrite app_nil_r. Qed.

Lemma decode_log_encode es : Forall entry_ok es → decode_log (map EncodeEntry es) = es.
Proof.
  induction 1 as [|e es He Hes IH]; cbn [map decode_log]; [done|].
  rewrite DecodeEntry_EncodeEntry by done. by rewrite IH.
Qed.

(** A log loads up to the first frame that is not complete. *)
Lemma load_log_file es tail :
  Forall entry_ok es → next_frame tail 0 = None → load_log (Some (log_file es ++ tail)) = es.
Proof.
  intros Hes Ht. unfold load_log, log_file. rewrite ReadFramedRecords_frames; [|..|done].
  - by apply decode_log_encode.
  - apply Forall_map. eapply Forall_impl; [done|]. intros e. apply EncodeEntry_ok.
Qed.

Lemma load_log_torn es e k :
  Forall entry_ok es → entry_ok e →
  load_log (Some (log_file es ++ take k (Frame (EncodeEntry e)))) =
  if (length (Frame (EncodeEntry e)) <=? k)%nat then es ++ [e] else es.
Proof.
  intros Hes He. case_bool; prop_bool.
  - rewrite take_ge by done. rewrite <-log_file_snoc, <-(app_nil_r (log_file _)).
    apply load_log_file; [|done]. apply Forall_app. split; [done|by apply Forall_singleton].
  - apply load_log_file; [done|]. apply next_frame_torn; [by apply EncodeEntry_ok|lia].
Qed.

Lemma load_hard_frame hs : hard_ok hs → load_hard (Some (Frame (EncodeHardState hs))) = hs.
Proof.
  intros Hh. unfold load_hard.
  pose proof (ReadFramedRecords_frames [EncodeHardState hs] []) as E.
  unfold frames in E. cbn [map concat] in E. rewrite !app_nil_r in E.
  rewrite E; [|apply Forall_singleton; by apply EncodeHardState_ok|done].
  cbn [last]. by rewrite DecodeHardState_EncodeHardState.
Qed.

(** ** Atomicity *)

Lemma tmp_path_ne p : p ≠ [] → tmp_path p ≠ p.
Proof.
  intros Hp E. destruct (exists_last Hp) as (q & x & ->). unfold tmp_path in E.
  rewrite removelast_last, last_snoc in E. simpl in E. apply app_inj_tail in E as [_ E].
  apply (f_equal length) in E. rewrite length_app in E. change (length (lit ".tmp")) with 4%nat in E. lia.
Qed.

Lemma tmp_paths dir :
  tmp_path (log_path dir) ≠ log_path dir ∧ tmp_path (log_path dir) ≠ meta_path dir ∧
  tmp_path (meta_path dir) ≠ log_path dir ∧ tmp_path (meta_path dir) ≠ meta_path dir ∧
  log_path dir ≠ meta_path dir.
Proof.
  unfold tmp_path, log_path, meta_path. rewrite !removelast_last, !last_snoc.
  split_and!; intros E; apply app_inj_tail in E as [_ E]; discriminate E.
Qed.

Section atomic.
Context {DB : Type}.
Implicit Types fs : gmap path bytes.
Implicit Types S : outcome → Prop.

Lemma wp_raft_WriteFileAtomic S (p : path) (data : bytes) (P P' C : gmap path bytes → DB → Prop) fs db :
  (∀ fs x, P fs db → P (<[tmp_path p := x]> fs) db) →
  (∀ fs, P fs db → P' (<[p := data]> (delete (tmp_path p) fs)) db) →
  (∀ fs, P fs db → C fs db) →  (∀ fs, P' fs db → C fs db) → P fs db →
  wp S (WriteFileAtomic p data)
    (λ s fs' db', db' = db ∧ if st_ok s then P' fs' db else may_fail S ∧ P fs' db) C fs db.
Proof.
  intros Htmp Hren HC HC' HP. unfold WriteFileAtomic.
  set (Q := λ (s : Status) fs' db', db' = db ∧ if st_ok s then P' fs' db else may_fail S ∧ P fs' db).
  assert (∀ fs s, may_fail S → P fs db → st_ok s = false →
    wp S (let! _ := sys_close in ret s) Q C fs db) as Hclose.
  { intros fs' s Hfail HP' Hs. apply wp_bind, wp_syscall; [|intros _ e|by auto];
      apply wp_ret; unfold Q; rewrite Hs; auto. }
  apply wp_bind, wp_syscall; [|intros Hfail e; apply wp_ret; by split|auto].
  assert (∀ l, P (<[tmp_path p := l]> fs) db) as HPt by auto.
  apply wp_bind, (wp_write_all _ _ _ _ _ _ _ []); [by rewrite lookup_insert_eq|..];
    intros; rewrite insert_insert_eq; simpl; [by auto|by apply Hclose|].
  apply wp_bind, wp_syscall; [|intros Hfail e; by apply Hclose|auto].
  assert (wp S (sys_rename (tmp_path p) p) (λ ec, wp S match ec with
      | Some msg => ret (IoError (lit "rename: " ++ msg)) | None => ret Ok end Q C) C
      (<[tmp_path p := data]> fs) db) as Hr.
  { apply wp_syscall; [|intros Hfail e; apply wp_ret; by split|auto].
    rewrite lookup_insert_eq. apply wp_ret. split; [done|]. apply Hren. auto. }
  apply wp_bind, wp_syscall; [|intros _ e|by auto]; apply wp_bind, Hr.
Qed.

(** What the files hold: the hard state and the log a restart would load. *)
Definition persisted (dir : path) fs : HardState * list LogEntry :=
  (load_hard (fs !! meta_path dir), load_log (fs !! log_path dir)).

(** The log file holds exactly these entries, without a torn tail. *)
Definition log_clean (dir : path) fs (es : list LogEntry) : Prop :=
  fs !! log_path dir = Some (log_file es) ∧ Forall entry_ok es.

Lemma log_clean_load dir fs es : log_clean dir fs es → load_log (fs !! log_path dir) = es.
Proof.
  intros [-> Hes]. rewrite <-(app_nil_r (log_file es)). by apply load_log_file.
Qed.

Lemma wp_SaveHardState S st hs fs (db : DB) C :
  hard_ok hs →
  (∀ fs', persisted (rst_dir st) fs' = persisted (rst_dir st) fs ∨
          persisted (rst_dir st) fs' = (hs, (persisted (rst_dir st) fs).2) → C fs' db) →
  wp S (SaveHardState st hs)
    (λ s fs' _, fs' !! log_path (rst_dir st) = fs !! log_path (rst_dir st) ∧
       persisted (rst_dir st) fs' =
         (if st_ok s then (hs, (persisted (rst_dir st) fs).2) else persisted (rst_dir st) fs)) C fs db.
Proof.
  intros Hh HC. unfold SaveHardState. set (dir := rst_dir st) in *.
  destruct (tmp_paths dir) as (_ & _ & Hne1 & Hne2 & Hne3).
  set (P := λ fs' (_ : DB), fs' !! log_path dir = fs !! log_path dir ∧ fs' !! meta_path dir = fs !! meta_path dir).
  set (P' := λ fs' (_ : DB), fs' !! log_path dir = fs !! log_path dir ∧
               fs' !! meta_path dir = Some (Frame (EncodeHardState hs))).
  assert (∀ fs', P fs' db → persisted dir fs' = persisted dir fs) as HP.
  { intros fs' [E1 E2]. unfold persisted. by rewrite E1, E2. }
  assert (∀ fs', P' fs' db → persisted dir fs' = (hs, (persisted dir fs).2)) as HP'.
  { intros fs' [E1 E2]. unfold persisted. by rewrite E1, E2, load_hard_frame. }
  eapply wp_mono; [apply (wp_raft_WriteFileAtomic S (meta_path dir) _ P P' C)|..].
  - intros fs' x [E1 E2]. split; by rewrite lookup_insert_ne.
  - intros fs' [E1 E2]. split; [|by rewrite lookup_insert_eq].
    by rewrite lookup_insert_ne, lookup_delete_ne by auto.
  - auto.
  - auto.
  - done.
  - intros s fs' db' [-> Hs]. destruct (st_ok s); [split; [apply Hs|by apply HP']|].
    destruct Hs as [_ Hs]. split; [apply Hs|by apply HP].
  - done.
Qed.

Lemma wp_AppendEntry S st e es fs (db : DB) C :
  rst_fd st = true → log_clean (rst_dir st) fs es → entry_ok e →
  (∀ fs', persisted (rst_dir st) fs' = persisted (rst_dir st) fs ∨
          persisted (rst_dir st) fs' = ((persisted (rst_dir st) fs).1, es ++ [e]) → C fs' db) →
  wp S (AppendEntry st e)
    (λ s fs' _,
       (persisted (rst_dir st) fs' = persisted (rst_dir st) fs ∨
        persisted (rst_dir st) fs' = ((persisted (rst_dir st) fs).1, es ++ [e])) ∧
       (st_ok s = true → log_clean (rst_dir st) fs' (es ++ [e]) ∧
          fs' !! meta_path (rst_dir st) = fs !! meta_path (rst_dir st))) C fs db.
Proof.
  intros Hfd Hcl He HC. unfold AppendEntry, WriteAll. rewrite Hfd. set (dir := rst_dir st) in *.
  destruct (tmp_paths dir) as (_ & _ & _ & _ & Hne).
  pose proof Hcl as [Hl Hes]. pose proof (log_clean_load _ _ _ Hcl) as Hload.
  set (fs_k k := <[log_path dir := log_file es ++ take k (Frame (EncodeEntry e))]> fs).
  assert (∀ k, persisted dir (fs_k k) = persisted dir fs ∨
               persisted dir (fs_k k) = ((persisted dir fs).1, es ++ [e])) as Hk.
  { intros k. unfold persisted, fs_k.
    rewrite lookup_insert_ne, lookup_insert_eq, load_log_torn, Hload by auto.
    case_bool; [by right|by left]. }
  apply wp_bind, (wp_write_all _ _ _ _ _ _ _ (log_file es)); [done|..].
  - intros k _. apply HC, Hk.
  - intros _ k err _. apply wp_ret. split; [apply Hk|done].
  - pose proof (firstn_all (Frame (EncodeEntry e))) as Hall. rewrite <-Hall.
    apply wp_bind, wp_syscall; [|intros _ err; apply wp_ret; split; [apply Hk|done]|apply HC, Hk].
    apply wp_ret. split; [apply Hk|]. intros _. split; [split|].
    + by rewrite lookup_insert_eq, Hall, log_file_snoc.
    + apply Forall_app. split; [done|by apply Forall_singleton].
    + by rewrite lookup_insert_ne by auto.
Qed.

Lemma wp_RewriteLog S st es es' fs (db : DB) C :
  log_clean (rst_dir st) fs es → Forall entry_ok es' →
  (∀ fs', persisted (rst_dir st) fs' = persisted (rst_dir st) fs ∨
          persisted (rst_dir st) fs' = ((persisted (rst_dir st) fs).1, es') → C fs' db) →
  wp S (RewriteLog st es')
    (λ r fs' _,
       (persisted (rst_dir st) fs' = persisted (rst_dir st) fs ∨
        persisted (rst_dir st) fs' = ((persisted (rst_dir st) fs).1, es')) ∧
       (st_ok r.1 = true → rst_fd r.2 = true ∧ rst_dir r.2 = rst_dir st ∧
          log_clean (rst_dir st) fs' es' ∧
          fs' !! meta_path (rst_dir st) = fs !! meta_path (rst_dir st))) C fs db.
Proof.
  intros Hcl Hes' HC. unfold RewriteLog. set (dir := rst_dir st) in *.
  replace (concat _) with (log_file es') by (unfold log_file, frames; by rewrite map_map).
  destruct (tmp_paths dir) as (Hne1 & Hne2 & _ & _ & Hne3).
  set (P := λ fs' (_ : DB), fs' !! log_path dir = fs !! log_path dir ∧ fs' !! meta_path dir = fs !! meta_path dir).
  set (P' := λ fs' (_ : DB), fs' !! log_path dir = Some (log_file es') ∧
               fs' !! meta_path dir = fs !! meta_path dir).
  assert (∀ fs', P fs' db → persisted dir fs' = persisted dir fs) as HP.
  { intros fs' [E1 E2]. unfold persisted. by rewrite E1, E2. }
  assert (∀ fs', P' fs' db → persisted dir fs' = ((persisted dir fs).1, es')) as HP'.
  { intros fs' [E1 E2]. unfold persisted. rewrite E2, (log_clean_load dir fs' es'); done. }
  apply wp_bind. eapply wp_mono; [apply (wp_raft_WriteFileAtomic S (log_path dir) _ P P' C)|..].
  - intros fs' x [E1 E2]. split; by rewrite lookup_insert_ne.
  - intros fs' [E1 E2]. split; [by rewrite lookup_insert_eq|].
    by rewrite lookup_insert_ne, lookup_delete_ne by auto.
  - auto.
  - auto.
  - done.
  - intros s fs' db' [-> Hs]. destruct (st_ok s) eqn:Es; cbn [negb].
    2:{ apply wp_ret. cbn [fst snd]. rewrite Es. split; [|done]. left. by apply HP, Hs. }
    pose proof (HP' _ Hs) as Hp. destruct Hs as [E1 E2].
    assert (wp S (sys_open_append (DB := DB) (log_path dir)) (λ e, wp S match e with
      | Some err => ret (IoError (lit "reopen raft-log: " ++ err),
           mkRaftStorage dir false (rst_loaded_hard st) (rst_loaded_log st))
      | None => ret (Ok, mkRaftStorage dir true (rst_loaded_hard st) (rst_loaded_log st))
      end (λ r fs' _,
       (persisted dir fs' = persisted dir fs ∨ persisted dir fs' = ((persisted dir fs).1, es')) ∧
       (st_ok r.1 = true → rst_fd r.2 = true ∧ rst_dir r.2 = dir ∧
          log_clean dir fs' es' ∧ fs' !! meta_path dir = fs !! meta_path dir)) C) C fs' db) as Hopen.
    { apply wp_syscall; [rewrite E1|intros _ err|auto]; apply wp_ret; split; auto; done. }
    apply wp_bind, wp_syscall; [|intros _ err|auto]; apply wp_bind, Hopen.
  - done.
Qed.

(** A restart loads what the files hold. *)
Lemma wp_raft_Open (dir : path) fs (db : DB) :
  wp smooth (Open dir)
    (λ r _ _, ∃ st, r = FromValue st ∧ rst_dir st = dir ∧ rst_fd st = true ∧
       (rst_loaded_hard st, rst_loaded_log st) = persisted dir fs) (λ _ _, True) fs db.
Proof.
  unfold Open. destruct (tmp_paths dir) as (_ & _ & _ & _ & Hne).
  apply wp_bind, wp_syscall; [|by intros ?%smooth_no_fail|done].
  apply wp_bind, wp_syscall; [|by intros ?%smooth_no_fail|done].
  set (fs' := match fs !! log_path dir with Some _ => fs | None => <[log_path dir := []]> fs end).
  assert (∃ c, fs' !! log_path dir = Some c ∧ load_log (Some c) = load_log (fs !! log_path dir)) as (c & Hc & El).
  { unfold fs'. destruct (fs !! log_path dir) as [c|] eqn:E; [by exists c|].
    exists []. by rewrite lookup_insert_eq. }
  assert (fs' !! meta_path dir = fs !! meta_path dir) as Em.
  { unfold fs'. destruct (fs !! log_path dir); [done|]. by apply lookup_insert_ne. }
  apply wp_bind. unfold read_records.
  apply wp_bind, wp_read_file; [by intros ?%smooth_no_fail|by intros ?%smooth_no_short| |done].
  rewrite Hc. apply wp_ret. apply wp_bind.
  apply wp_bind, wp_read_file; [by intros ?%smooth_no_fail|by intros ?%smooth_no_short| |done].
  destruct (fs' !! meta_path dir) as [m|]; apply wp_ret, wp_ret;
    eexists; (split; [done|]); unfold persisted; by rewrite <-Em, <-El.
Qed.
End atomic.

(** ** Properties *)

(** The three ways a node changes its durable state. *)
Inductive storage_op :=
  | OpSave (hs : HardState)
  | OpAppend (e : LogEntry)
  | OpRewrite (es : list LogEntry).

Definition run_op {DB} (st : RaftStorage) (op : storage_op) : IO DB Status :=
  match op with
  | OpSave hs => SaveHardState st hs
  | OpAppend e => AppendEntry st e
  | OpRewrite es => let! r := RewriteLog st es in ret r.1
  end.

(** What each does to the hard state and the log. *)
Definition op_effect (op : storage_op) (s : HardState * list LogEntry) : HardState * list LogEntry :=
  match op with
  | OpSave hs => (hs, s.2)
  | OpAppend e => (s.1, s.2 ++ [e])
  | OpRewrite es => (s.1, es)
  end.

Definition op_ok (op : storage_op) : Prop :=
  match op with
  | OpSave hs => hard_ok hs
  | OpAppend e => entry_ok e
  | OpRewrite es => Forall entry_ok es
  end.

Lemma wp_run_op {DB} (S : outcome → Prop) (st : RaftStorage) op es fs (db : DB) :
  rst_fd st = true → log_clean (rst_dir st) fs es → op_ok op →
  let allowed fs' := persisted (rst_dir st) fs' = persisted (rst_dir st) fs ∨
                     persisted (rst_dir st) fs' = op_effect op (persisted (rst_dir st) fs) in
  wp S (run_op st op)
    (λ s fs' _, allowed fs' ∧
       (s = Ok → persisted (rst_dir st) fs' = op_effect op (persisted (rst_dir st) fs) ∧
          ∃ es', log_clean (rst_dir st) fs' es'))
    (λ fs' _, allowed fs') fs db.
Proof.
  intros Hfd Hcl Hop allowed. pose proof (log_clean_load _ _ _ Hcl) as Hload.
  destruct op as [hs|e|es']; simpl in Hop; cbn [run_op].
  - eapply wp_mono; [by apply (wp_SaveHardState S st hs fs db (λ fs' _, allowed fs'))|..|done].
    intros s fs' _ [El Hp]. split; [unfold allowed; destruct (st_ok s); auto|].
    intros ->. split; [done|]. exists es. unfold log_clean. by rewrite El.
  - assert (op_effect (OpAppend e) (persisted (rst_dir st) fs) = ((persisted (rst_dir st) fs).1, es ++ [e])) as Eop.
    { unfold op_effect, persisted. cbn [fst snd]. by rewrite Hload. }
    unfold allowed. rewrite Eop.
    eapply wp_mono; [by apply (wp_AppendEntry S st e es fs db
      (λ fs' _, persisted (rst_dir st) fs' = persisted (rst_dir st) fs ∨
         persisted (rst_dir st) fs' = ((persisted (rst_dir st) fs).1, es ++ [e])))|..|done].
    intros s fs' _ [Hp Hs]. split; [done|]. intros ->. destruct (Hs eq_refl) as [Hcl' Em].
    split; [|by eauto]. unfold persisted. by rewrite Em, (log_clean_load _ _ _ Hcl').
  - apply wp_bind. eapply wp_mono;
      [by apply (wp_RewriteLog S st es es' fs db (λ fs' _, allowed fs'))|..|done].
    intros [s st'] fs' db' [Hp Hs]. apply wp_ret. split; [done|]. cbn [fst snd] in *. intros ->.
    destruct (Hs eq_refl) as (_ & _ & Hcl' & Em).
    split; [|by eauto]. unfold persisted. by rewrite Em, (log_clean_load _ _ _ Hcl').
Qed.

(** C22: the durable state of a node changes atomically.  Saving the hard state,
    appending an entry or rewriting the log, under any failures and a crash in any
    call, leaves the files with the state before or the state after, nothing in
    between; they have the state after when the operation returned [Ok], and then
    the log again has no torn tail; and a node that restarts on those files loads
    exactly that state. *)
Theorem raft_storage_crash_atomic {DB} (st st' : RaftStorage) (op : storage_op) (es : list LogEntry)
    (w w' w2 w3 : World DB) r :
  rst_fd st = true → log_clean (rst_dir st) (w_files w) es → op_ok op → clock_ok (w_times w) →
  run_op st op w = (r, w') →
  w_files w2 = w_files w' → world_ok smooth w2 → Open (rst_dir st) w2 = (Some (FromValue st'), w3) →
  let before := persisted (rst_dir st) (w_files w) in
  let after := (rst_loaded_hard st', rst_loaded_log st') in
  (after = before ∨ after = op_effect op before) ∧
  (r = Some Ok → after = op_effect op before ∧ ∃ es', log_clean (rst_dir st) (w_files w') es').
Proof.
  intros Hfd Hcl Hop Ht E Ef Hw2 HO before after.
  eapply wp_elim in E as [_ HX]; [|by apply (wp_run_op anything st op es)|split; [by apply Forall_true|done]].
  cbv zeta beta in HX.
  eapply wp_elim in HO as [_ HY]; [|apply wp_raft_Open|done].
  cbv beta in HY. destruct HY as (st'' & [= <-] & _ & _ & Hl). unfold after, before. rewrite Hl, Ef.
  destruct r as [s|]; [|by split]. destruct HX as [Ha Hok]. split; [done|]. intros [= ->]. auto.
Qed.

(** A vote saved by a node that dies while the new state file is being renamed in,
    then restarts. *)
Definition demo_dir : path := [lit "raft"].
Definition demo_storage : RaftStorage := mkRaftStorage demo_dir true HardState_default [].
Definition demo_entry : LogEntry := mkLogEntry 1 1 (lit "put").
Definition demo_vote : HardState := mkHardState 3 (lit "n2").
Definition demo_disk : World () := mkWorld {[log_path demo_dir := log_file [demo_entry]]} ()
  [SysOk; SysShort 5; SysOk; SysOk; SysOk; SysCrash] [].
Definition demo_save := run_op demo_storage (OpSave demo_vote) demo_disk.
Definition demo_reload := Open demo_dir (mkWorld (w_files demo_save.2) () [] []).

Lemma raft_storage_crash_atomic_witness :
  demo_save.1 = None ∧ demo_reload.1 = Some (FromValue (mkRaftStorage demo_dir true HardState_default [demo_entry])) ∧
  ((HardState_default, [demo_entry]) = persisted demo_dir (w_files demo_disk) ∨
   (HardState_default, [demo_entry]) = (demo_vote, (persisted demo_dir (w_files demo_disk)).2)).
Proof.
  assert (demo_reload.1 = Some (FromValue (mkRaftStorage demo_dir true HardState_default [demo_entry]))) as E
    by (vm_compute; reflexivity).
  split; [vm_compute; reflexivity|]. split; [exact E|].
  refine (proj1 (raft_storage_crash_atomic demo_storage
    (mkRaftStorage demo_dir true HardState_default [demo_entry]) (OpSave demo_vote) [demo_entry] demo_disk
    demo_save.2 (mkWorld (w_files demo_save.2) () [] []) demo_reload.2 demo_save.1 _ _ _ _ _ _ _ _)).
  - reflexivity.
  - split; [vm_compute; reflexivity|]. apply Forall_singleton. repeat split; discriminate.
  - repeat split; discriminate.
  - constructor.
  - apply surjective_pairing.
  - reflexivity.
  - split; constructor.
  - rewrite <-E. apply surjective_pairing.
Defined.

(** A node that restarts on a log with a torn tail loads the entries before it,
    and keeps the torn bytes in the file.  An entry it then appends is written
    after them, [AppendEntry] returns [Ok], and the next restart does not load it. *)
Theorem torn_tail_hides_appended_entry :
  let disk := mkWorld {[log_path demo_dir := log_file [demo_entry] ++ take 5 (Frame (EncodeEntry demo_entry))]}
                () [] [] in
  let session : IO () (option (list LogEntry * Status * list LogEntry)) :=
    let! o := Open demo_dir in
    match o with
    | FromStatus _ => ret None
    | FromValue st =>
        let! s := AppendEntry st (mkLogEntry 2 2 (lit "del")) in
        let! o' := Open demo_dir in
        match o' with
        | FromStatus _ => ret None
        | FromValue st' => ret (Some (rst_loaded_log st, s, rst_loaded_log st'))
        end
    end in
  (session disk).1 = Some (Some ([demo_entry], Ok, [demo_entry])).
Proof. vm_compute. reflexivity. Qed.
