(* ===== verification/RaftNode.v ===== *)
(** * A Raft node

    [include/consensus/raft_node.h] and [src/consensus/raft_node.cc]: the state
    of a node and its operations, each the critical section of one handler or of
    one step of a background loop (everything between taking and releasing
    [mu_]).  The clock, the random election timeout and the outcome of the
    storage calls are arguments or state; logging is left out.

    The cluster in which the operations interleave is in RaftNet.v. *)

From stdpp Require Import base gmap numbers list.
From Stdlib Require Import ZArith Lia.
From S2P Require Import Prelude Status RaftStorage.

Local Open Scope Z_scope.

(** ** Messages (proto/raft.proto) *)

Record RequestVoteRequest := mkRequestVoteRequest {
  rv_term : Z; rv_candidate_id : bytes; rv_last_log_index : Z; rv_last_log_term : Z; rv_pre_vote : bool;
}.
Record RequestVoteResponse := mkRequestVoteResponse { rvr_term : Z; rvr_vote_granted : bool }.

Record AppendEntriesRequest := mkAppendEntriesRequest {
  ae_term : Z; ae_leader_id : bytes; ae_prev_log_index : Z; ae_prev_log_term : Z;
  ae_entries : list LogEntry; ae_leader_commit : Z;
}.
Record AppendEntriesResponse := mkAppendEntriesResponse {
  aer_term : Z; aer_success : bool; aer_conflict_index : Z;
}.

#[global] Instance RequestVoteRequest_eq_dec : EqDecision RequestVoteRequest.
Proof. solve_decision. Defined.
#[global] Instance RequestVoteResponse_eq_dec : EqDecision RequestVoteResponse.
Proof. solve_decision. Defined.
#[global] Instance AppendEntriesRequest_eq_dec : EqDecision AppendEntriesRequest.
Proof. solve_decision. Defined.
#[global] Instance AppendEntriesResponse_eq_dec : EqDecision AppendEntriesResponse.
Proof. solve_decision. Defined.

(** ** State *)

(** [struct RaftConfig] (times in milliseconds) *)
Record RaftConfig := mkRaftConfig {
  cfg_id : bytes;
  cfg_peers : list bytes;      (** excludes self *)
  cfg_election_min : Z;
  cfg_election_max : Z;
}.

(** The durable state behind [storage_]; [dk_outcomes] tells which of the coming
    storage calls fail (their status is ignored by the node), none when empty. *)
Record Disk := mkDisk { dk_hard : HardState; dk_log : list LogEntry; dk_outcomes : list bool }.

(** The fields of [RaftNode]; [rn_applied] is the sequence of calls of [apply_]. *)
Record RaftNode := mkRaftNode {
  rn_config : RaftConfig;
  rn_disk : Disk;
  rn_applied : list LogEntry;
  rn_current_term : Z;
  rn_voted_for : bytes;
  rn_log : list LogEntry;
  rn_role : Role;
  rn_leader_id : bytes;
  rn_commit_index : Z;
  rn_last_applied : Z;
  rn_last_activity : Z;
  rn_last_leader_contact : Z;
  rn_election_timeout : Z;
  rn_next_index : gmap bytes Z;
  rn_match_index : gmap bytes Z;
}.

Implicit Types n : RaftNode.

(** Assignments to the fields. *)
Definition set_disk (d : Disk) n := mkRaftNode (rn_config n) d (rn_applied n) (rn_current_term n)
  (rn_voted_for n) (rn_log n) (rn_role n) (rn_leader_id n) (rn_commit_index n) (rn_last_applied n)
  (rn_last_activity n) (rn_last_leader_contact n) (rn_election_timeout n) (rn_next_index n) (rn_match_index n).
Definition set_term_vote (term : Z) (voted_for : bytes) n := mkRaftNode (rn_config n) (rn_disk n) (rn_applied n)
  term voted_for (rn_log n) (rn_role n) (rn_leader_id n) (rn_commit_index n) (rn_last_applied n)
  (rn_last_activity n) (rn_last_leader_contact n) (rn_election_timeout n) (rn_next_index n) (rn_match_index n).
Definition set_log (log : list LogEntry) n := mkRaftNode (rn_config n) (rn_disk n) (rn_applied n)
  (rn_current_term n) (rn_voted_for n) log (rn_role n) (rn_leader_id n) (rn_commit_index n) (rn_last_applied n)
  (rn_last_activity n) (rn_last_leader_contact n) (rn_election_timeout n) (rn_next_index n) (rn_match_index n).
Definition set_role (role : Role) n := mkRaftNode (rn_config n) (rn_disk n) (rn_applied n)
  (rn_current_term n) (rn_voted_for n) (rn_log n) role (rn_leader_id n) (rn_commit_index n) (rn_last_applied n)
  (rn_last_activity n) (rn_last_leader_contact n) (rn_election_timeout n) (rn_next_index n) (rn_match_index n).
Definition set_leader_id (id : bytes) n := mkRaftNode (rn_config n) (rn_disk n) (rn_applied n)
  (rn_current_term n) (rn_voted_for n) (rn_log n) (rn_role n) id (rn_commit_index n) (rn_last_applied n)
  (rn_last_activity n) (rn_last_leader_contact n) (rn_election_timeout n) (rn_next_index n) (rn_match_index n).
Definition set_commit (commit last_applied : Z) (applied : list LogEntry) n := mkRaftNode (rn_config n) (rn_disk n)
  applied (rn_current_term n) (rn_voted_for n) (rn_log n) (rn_role n) (rn_leader_id n) commit last_applied
  (rn_last_activity n) (rn_last_leader_contact n) (rn_election_timeout n) (rn_next_index n) (rn_match_index n).
Definition set_timer (activity contact timeout : Z) n := mkRaftNode (rn_config n) (rn_disk n) (rn_applied n)
  (rn_current_term n) (rn_voted_for n) (rn_log n) (rn_role n) (rn_leader_id n) (rn_commit_index n) (rn_last_applied n)
  activity contact timeout (rn_next_index n) (rn_match_index n).
Definition set_progress (next_index match_index : gmap bytes Z) n := mkRaftNode (rn_config n) (rn_disk n) (rn_applied n)
  (rn_current_term n) (rn_voted_for n) (rn_log n) (rn_role n) (rn_leader_id n) (rn_commit_index n) (rn_last_applied n)
  (rn_last_activity n) (rn_last_leader_contact n) (rn_election_timeout n) next_index match_index.

(** The constructor, on a storage that loaded [d]. *)
Definition RaftNode_new (cfg : RaftConfig) (d : Disk) (now timeout : Z) : RaftNode :=
  mkRaftNode cfg d [] (hs_current_term (dk_hard d)) (hs_voted_for (dk_hard d)) (dk_log d)
    kFollower [] 0 0 now (now - 24 * 3600 * 1000) timeout ∅ ∅.

(** ** Storage calls *)

(** A call stores its argument unless it fails. *)
Definition disk_write (hard : HardState) (log : list LogEntry) (d : Disk) : Disk :=
  match dk_outcomes d with
  | false :: o => mkDisk (dk_hard d) (dk_log d) o
  | o => mkDisk hard log (tail o)
  end.

(** [storage_->SaveHardState], [storage_->RewriteLog], [storage_->AppendEntry] *)
Definition SaveHardState (hs : HardState) n : RaftNode :=
  set_disk (disk_write hs (dk_log (rn_disk n)) (rn_disk n)) n.
Definition RewriteLog (log : list LogEntry) n : RaftNode :=
  set_disk (disk_write (dk_hard (rn_disk n)) log (rn_disk n)) n.
Definition AppendEntry (e : LogEntry) n : RaftNode :=
  set_disk (disk_write (dk_hard (rn_disk n)) (dk_log (rn_disk n) ++ [e]) (rn_disk n)) n.

(** ** Index helpers *)

Definition LogEntry_default : LogEntry := mkLogEntry 0 0 [].

Definition LastLogIndexLocked n : Z := from_option le_index 0 (last (rn_log n)).
Definition LastLogTermLocked n : Z := from_option le_term 0 (last (rn_log n)).

Definition TermAtLocked n (index : Z) : Z :=
  if (index =? 0) || (Zlen (rn_log n) <? index) then 0
  else le_term (nth (Z.to_nat (index - 1)) (rn_log n) LogEntry_default).

Definition MajorityLocked n : Z := (Zlen (cfg_peers (rn_config n)) + 1) / 2 + 1.

(** The range [RandomElectionTimeout] draws from. *)
Definition election_timeout_range (cfg : RaftConfig) (t : Z) : Prop :=
  let lo := cfg_election_min cfg in
  let hi := Z.max (lo + 1) (cfg_election_max cfg) in
  lo <= t <= hi - 1.

Definition PersistHardStateLocked n : RaftNode :=
  SaveHardState (mkHardState (rn_current_term n) (rn_voted_for n)) n.

Definition StepDownIfStaleLocked (term : Z) n : RaftNode :=
  if rn_current_term n <? term
  then PersistHardStateLocked (set_role kFollower (set_term_vote term [] n))
  else n.

(** ** RPC handlers *)

(** The candidate's log is at least as up-to-date (paper, 5.4.1). *)
Definition up_to_date (req : RequestVoteRequest) n : bool :=
  (LastLogTermLocked n <? rv_last_log_term req) ||
  ((rv_last_log_term req =? LastLogTermLocked n) && (LastLogIndexLocked n <=? rv_last_log_index req)).

Definition HandleRequestVote (now timeout : Z) (req : RequestVoteRequest) n
    : RaftNode * RequestVoteResponse :=
  if rv_pre_vote req then
    let grant :=
      if (rn_current_term n <=? rv_term req) && negb (bool_decide (rn_role n = kLeader)) then
        let leaderless := cfg_election_min (rn_config n) <=? now - rn_last_leader_contact n in
        up_to_date req n && leaderless
      else false in
    (n, mkRequestVoteResponse (rn_current_term n) grant)
  else
    let n := StepDownIfStaleLocked (rv_term req) n in
    if (rv_term req =? rn_current_term n) &&
       (bool_decide (rn_voted_for n = []) || bool_decide (rn_voted_for n = rv_candidate_id req)) &&
       up_to_date req n
    then
      let n := PersistHardStateLocked (set_term_vote (rn_current_term n) (rv_candidate_id req) n) in
      let n := set_timer now (rn_last_leader_contact n) timeout n in
      (n, mkRequestVoteResponse (rn_current_term n) true)
    else (n, mkRequestVoteResponse (rn_current_term n) false).

(** [while (last_applied_ < commit_index_) { ++last_applied_; apply_(...); }] *)
Fixpoint ApplyCommitted_loop (fuel : nat) n : RaftNode :=
  match fuel with
  | O => n
  | S fuel' =>
      if rn_last_applied n <? rn_commit_index n then
        let last_applied := rn_last_applied n + 1 in
        let e := nth (Z.to_nat (last_applied - 1)) (rn_log n) LogEntry_default in
        ApplyCommitted_loop fuel' (set_commit (rn_commit_index n) last_applied (rn_applied n ++ [e]) n)
      else n
  end.

Definition ApplyCommittedLocked n : RaftNode :=
  ApplyCommitted_loop (Z.to_nat (rn_commit_index n - rn_last_applied n)) n.

(** [log_.resize(size)] *)
Definition resize (log : list LogEntry) (size : Z) : list LogEntry :=
  take (Z.to_nat size) log ++ replicate (Z.to_nat (size - Zlen log)) LogEntry_default.

(** The loop over the entries of a request: the log, and whether it changed. *)
Definition append_entry (acc : RaftNode * bool) (e : LogEntry) : RaftNode * bool :=
  let '(n, changed) := acc in
  let idx := le_index e in
  if idx <=? LastLogIndexLocked n then
    if TermAtLocked n idx =? le_term e then (n, changed)
    else (set_log (resize (rn_log n) (u64 (idx - 1)) ++ [e]) n, true)
  else (set_log (rn_log n ++ [e]) n, true).

Definition HandleAppendEntries (now timeout : Z) (req : AppendEntriesRequest) n
    : RaftNode * AppendEntriesResponse :=
  if ae_term req <? rn_current_term n then
    (n, mkAppendEntriesResponse (rn_current_term n) false 0)
  else
    let n := StepDownIfStaleLocked (ae_term req) n in
    let n := set_role kFollower n in
    let n := set_leader_id (ae_leader_id req) n in
    let n := set_timer now now timeout n in
    let prev_index := ae_prev_log_index req in
    if LastLogIndexLocked n <? prev_index then
      (n, mkAppendEntriesResponse (rn_current_term n) false (u64 (LastLogIndexLocked n + 1)))
    else if (0 <? prev_index) && negb (TermAtLocked n prev_index =? ae_prev_log_term req) then
      (n, mkAppendEntriesResponse (rn_current_term n) false prev_index)
    else
      let '(n, changed) := foldl append_entry (n, false) (ae_entries req) in
      let n := if changed : bool then RewriteLog (rn_log n) n else n in
      let n :=
        if rn_commit_index n <? ae_leader_commit req then
          let commit := Z.min (ae_leader_commit req) (LastLogIndexLocked n) in
          ApplyCommittedLocked (set_commit commit (rn_last_applied n) (rn_applied n) n)
        else n in
      (n, mkAppendEntriesResponse (rn_current_term n) true 0).

(** ** Proposals *)

(** Whether [match_index_] says the peer holds entry [idx], and how many nodes do,
    this leader included. *)
Definition peer_has n (idx : Z) (peer : bytes) : bool :=
  match rn_match_index n !! peer with Some m => idx <=? m | None => false end.

Definition replica_count n (idx : Z) : Z :=
  1 + Zlen (filter (λ peer, peer_has n idx peer = true) (cfg_peers (rn_config n))).

Fixpoint AdvanceCommit_loop (fuel : nat) (idx : Z) n : RaftNode :=
  match fuel with
  | O => n
  | S fuel' =>
      if rn_commit_index n <? idx then
        if negb (TermAtLocked n idx =? rn_current_term n) then AdvanceCommit_loop fuel' (idx - 1) n
        else if MajorityLocked n <=? replica_count n idx then
          ApplyCommittedLocked (set_commit idx (rn_last_applied n) (rn_applied n) n)
        else AdvanceCommit_loop fuel' (idx - 1) n
      else n
  end.

Definition AdvanceCommitLocked n : RaftNode :=
  AdvanceCommit_loop (Z.to_nat (LastLogIndexLocked n - rn_commit_index n)) (LastLogIndexLocked n) n.

Definition Propose (command : bytes) n : StatusOr Z * RaftNode :=
  if negb (bool_decide (rn_role n = kLeader)) then
    (FromStatus (Unavailable (lit "not leader (leader=" ++ rn_leader_id n ++ lit ")")), n)
  else
    let entry := mkLogEntry (rn_current_term n) (u64 (LastLogIndexLocked n + 1)) command in
    let n := set_log (rn_log n ++ [entry]) n in
    let n := AppendEntry entry n in
    let n := AdvanceCommitLocked n in
    (FromValue (le_index entry), n).

(** [WaitApplied]: one pass of its loop on the state found under the lock, [None]
    when it goes to sleep. *)
Definition WaitApplied_check (index term : Z) n : option Status :=
  if rn_last_applied n <? index then
    if term <? rn_current_term n then Some (Unavailable (lit "term advanced; proposal may be lost"))
    else if (index <=? LastLogIndexLocked n) && negb (TermAtLocked n index =? term)
    then Some (Unavailable (lit "log entry overwritten before commit"))
    else None
  else if negb (TermAtLocked n index =? term)
  then Some (Unavailable (lit "log entry overwritten before apply"))
  else Some Ok.

(** The states the waiter finds each time it wakes up, the last one before the
    deadline passes. *)
Fixpoint WaitApplied (index term : Z) (wakeups : list RaftNode) : Status :=
  match wakeups with
  | [] => Unavailable (lit "timed out waiting for commit")
  | n :: rest =>
      match WaitApplied_check index term n with
      | Some s => s
      | None => WaitApplied index term rest
      end
  end.

(** ** Elections *)

(** [ElectionLoop]: whether an election is due. *)
Definition election_due (now : Z) n : bool :=
  negb (bool_decide (rn_role n = kLeader)) && (rn_last_activity n + rn_election_timeout n <=? now).

(** The critical sections of [StartElection]: the pre-vote request, ... *)
Definition StartElection_pre n : option RequestVoteRequest :=
  if bool_decide (rn_role n = kLeader) then None
  else Some (mkRequestVoteRequest (u64 (rn_current_term n + 1)) (cfg_id (rn_config n))
               (LastLogIndexLocked n) (LastLogTermLocked n) true).

(** ... the start of the real election once the pre-vote is won, ... *)
Definition StartElection_begin (now timeout would_be_term : Z) n
    : option (RaftNode * RequestVoteRequest) :=
  if bool_decide (rn_role n = kLeader) || negb (u64 (rn_current_term n + 1) =? would_be_term) ||
     (now - rn_last_leader_contact n <? cfg_election_min (rn_config n))
  then None
  else
    let id := cfg_id (rn_config n) in
    let n := set_role kCandidate (set_term_vote (u64 (rn_current_term n + 1)) id n) in
    let n := PersistHardStateLocked (set_leader_id [] n) in
    let n := set_timer now (rn_last_leader_contact n) timeout n in
    Some (n, mkRequestVoteRequest (rn_current_term n) id (LastLogIndexLocked n) (LastLogTermLocked n) false).

Definition BecomeLeaderLocked n : RaftNode :=
  let id := cfg_id (rn_config n) in
  let n := set_leader_id id (set_role kLeader n) in
  let next := u64 (LastLogIndexLocked n + 1) in
  set_progress (foldl (λ m peer, <[peer := next]> m) (rn_next_index n) (cfg_peers (rn_config n)))
               (foldl (λ m peer, <[peer := 0]> m) (rn_match_index n) (cfg_peers (rn_config n))) n.

(** ... and its end. *)
Definition StartElection_win (term : Z) n : RaftNode :=
  if bool_decide (rn_role n = kCandidate) && (rn_current_term n =? term)
  then BecomeLeaderLocked n else n.

(** [WinVoteRound]: what a peer's thread does with its reply; [votes] is the
    counter the threads share. *)
Definition WinVoteRound_reply (pre_vote : bool) (term : Z) (resp : RequestVoteResponse) (votes : Z) n
    : RaftNode * Z :=
  if rn_current_term n <? rvr_term resp then (StepDownIfStaleLocked (rvr_term resp) n, votes)
  else if negb pre_vote && (negb (bool_decide (rn_role n = kCandidate)) || negb (rn_current_term n =? term))
  then (n, votes)
  else (n, if rvr_vote_granted resp then votes + 1 else votes).

Definition WinVoteRound_result (votes : Z) n : bool := MajorityLocked n <=? votes.

(** ** Replication *)

(** [ReplicateTo] up to the call: the request for a peer, if this node still leads
    [term]. *)
Definition ReplicateTo_request (peer : bytes) (term : Z) n : option AppendEntriesRequest :=
  if negb (bool_decide (rn_role n = kLeader)) || negb (rn_current_term n =? term) then None
  else
    let next := match rn_next_index n !! peer with
                | Some next => next
                | None => u64 (LastLogIndexLocked n + 1)
                end in
    let prev := u64 (next - 1) in
    let entries := map (λ i, nth (Z.to_nat (i - 1)) (rn_log n) LogEntry_default)
                     (seqZ next (LastLogIndexLocked n - next + 1)) in
    Some (mkAppendEntriesRequest term (cfg_id (rn_config n)) prev (TermAtLocked n prev) entries
            (rn_commit_index n)).

(** ... and what it does with the reply. *)
Definition ReplicateTo_reply (peer : bytes) (term : Z) (req : AppendEntriesRequest)
    (resp : AppendEntriesResponse) n : RaftNode :=
  if negb (rn_current_term n =? term) || negb (bool_decide (rn_role n = kLeader)) then n
  else if rn_current_term n <? aer_term resp then StepDownIfStaleLocked (aer_term resp) n
  else if aer_success resp then
    let matched := u64 (ae_prev_log_index req + Zlen (ae_entries req)) in
    let m := Z.max (default 0 (rn_match_index n !! peer)) matched in
    AdvanceCommitLocked
      (set_progress (<[peer := u64 (m + 1)]> (rn_next_index n)) (<[peer := m]> (rn_match_index n)) n)
  else
    let conflict := aer_conflict_index resp in
    set_progress (<[peer := if conflict =? 0 then 1 else conflict]> (rn_next_index n)) (rn_match_index n) n.
