(* ===== verification/RaftSpec.v ===== *)
(** * Raft, abstractly

    The protocol that the nodes of raft_node.cc run, without messages, timers and
    indices: who is in which term, who voted for whom, what is in the logs.  Next
    to that the state carries the history the safety argument is about: the
    candidacies and the votes with the logs they were made with, the log of the
    leader of each term, and which prefixes of it were acknowledged.

    The results: one leader per term (election safety), logs agree below a common
    entry (log matching), the leader of a later term holds every committed entry
    (leader completeness), and any two committed prefixes agree (state machine
    safety).  RaftRefine.v shows that the implementation refines this protocol. *)

From stdpp Require Import base gmap fin_maps functions numbers list.
From Stdlib Require Import ZArith Lia.
From S2P Require Import Prelude RaftStorage.

Local Open Scope Z_scope.

Notation log := (list LogEntry).

Definition last_term (l : log) : Z := from_option le_term 0 (last l).

(** The candidate's log [c] is at least as up-to-date as the voter's log [v]. *)
Definition uptodate (c v : log) : Prop :=
  last_term v < last_term c ∨ (last_term c = last_term v ∧ (length v <= length c)%nat).

(** The term of the entry at a 1-based position, 0 at position 0. *)
Definition term_at (l : log) (i : nat) : Z :=
  match i with O => 0 | S i => from_option le_term 0 (l !! i) end.

Record cand_fact := mkCand { cf_term : Z; cf_id : bytes; cf_log : log }.

(** A vote; the voter's log is kept when the term had no leader yet. *)
Record vote_fact := mkVote { vf_voter : bytes; vf_term : Z; vf_cand : bytes; vf_log : option log }.

(** A voter acknowledged the first [af_len] entries of the leader of a term. *)
Record ack_fact := mkAck { af_voter : bytes; af_term : Z; af_len : nat }.

Record abs := mkAbs {
  a_term : bytes → Z;
  a_vote : bytes → bytes;              (** empty = none *)
  a_log : bytes → log;
  a_cands : list cand_fact;
  a_votes : list vote_fact;
  a_lead : gmap Z (bytes * log);       (** the leader of a term, and its log *)
  a_acks : list ack_fact;
}.

(** The log a vote is recorded with. *)
Definition early (s : abs) (T : Z) (l : log) : option log :=
  match a_lead s !! T with None => Some l | Some _ => None end.

Section spec.
Variable members : list bytes.

Definition quorum (Q : list bytes) : Prop :=
  NoDup Q ∧ Q ⊆ members ∧ (length members < 2 * length Q)%nat.

Definition abs_init : abs := mkAbs (λ _, 0) (λ _, []) (λ _, []) [] [] ∅ [].

Inductive astep (s : abs) : abs → Prop :=
  | as_bump v T :  (* a higher term is seen *)
      a_term s v < T →
      astep s (mkAbs (<[v := T]> (a_term s)) (<[v := []]> (a_vote s)) (a_log s)
                 (a_cands s) (a_votes s) (a_lead s) (a_acks s))
  | as_cand c T :  (* an election is started *)
      c ∈ members → c ≠ [] → a_term s c < T →
      astep s (mkAbs (<[c := T]> (a_term s)) (<[c := c]> (a_vote s)) (a_log s)
                 (mkCand T c (a_log s c) :: a_cands s)
                 (mkVote c T c (early s T (a_log s c)) :: a_votes s) (a_lead s) (a_acks s))
  | as_vote v T c clog :  (* a vote is granted *)
      v ∈ members → a_term s v = T → a_vote s v = [] → mkCand T c clog ∈ a_cands s →
      uptodate clog (a_log s v) →
      astep s (mkAbs (a_term s) (<[v := c]> (a_vote s)) (a_log s) (a_cands s)
                 (mkVote v T c (early s T (a_log s v)) :: a_votes s) (a_lead s) (a_acks s))
  | as_elect c T clog Q :  (* an election is won *)
      mkCand T c clog ∈ a_cands s → a_term s c = T → a_log s c = clog → a_lead s !! T = None →
      quorum Q → (∀ v, v ∈ Q → ∃ vl, mkVote v T c vl ∈ a_votes s) →
      astep s (mkAbs (a_term s) (a_vote s) (a_log s) (a_cands s) (a_votes s)
                 (<[T := (c, clog)]> (a_lead s)) (mkAck c T (length clog) :: a_acks s))
  | as_propose c T l e :  (* the leader appends an entry *)
      a_lead s !! T = Some (c, l) → a_term s c = T → a_log s c = l →
      le_term e = T → le_index e = Z.of_nat (length l) + 1 →
      astep s (mkAbs (a_term s) (a_vote s) (<[c := l ++ [e]]> (a_log s)) (a_cands s) (a_votes s)
                 (<[T := (c, l ++ [e])]> (a_lead s)) (mkAck c T (length l + 1) :: a_acks s))
  | as_append v T c l prev k log' :  (* entries prev+1 .. prev+k of the leader are accepted *)
      a_lead s !! T = Some (c, l) → a_term s v = T → (prev + k <= length l)%nat →
      (prev <= length (a_log s v))%nat → term_at (a_log s v) prev = term_at l prev →
      (take (prev + k) l `prefix_of` a_log s v ∧ log' = a_log s v ∨
       ¬ take (prev + k) l `prefix_of` a_log s v ∧ log' = take (prev + k) l) →
      astep s (mkAbs (a_term s) (a_vote s) (<[v := log']> (a_log s)) (a_cands s) (a_votes s)
                 (a_lead s) (mkAck v T (prev + k) :: a_acks s)).

(** ** Invariants *)

(** Below each entry, a log agrees with the leader of the entry's term. *)
Definition matching (ld : gmap Z (bytes * log)) (l : log) : Prop :=
  ∀ i e, l !! i = Some e → ∃ c ll, ld !! le_term e = Some (c, ll) ∧ take (S i) l `prefix_of` ll.

(** The first [m] entries of the leader of [T] are in [l], unless a leader of a
    term in (T, T'] does not have them. *)
Definition retained (ld : gmap Z (bytes * log)) (T T' : Z) (m : nat) (l : log) : Prop :=
  ∃ c ll, ld !! T = Some (c, ll) ∧ (m <= length ll)%nat ∧
    (take m ll `prefix_of` l ∨
     ∃ T'' c'' l'', T < T'' <= T' ∧ ld !! T'' = Some (c'', l'') ∧ ¬ take m ll `prefix_of` l'').

Record Inv (s : abs) : Prop := {
  inv_term : ∀ v, 0 <= a_term s v;
  inv_node_log : ∀ v, matching (a_lead s) (a_log s v) ∧ Forall (λ e, le_term e <= a_term s v) (a_log s v);
  inv_cand : ∀ f, f ∈ a_cands s →
    1 <= cf_term f <= a_term s (cf_id f) ∧ cf_id f ≠ [] ∧ matching (a_lead s) (cf_log f) ∧
    Forall (λ e, le_term e < cf_term f) (cf_log f);
  inv_cand_unique : ∀ f g, f ∈ a_cands s → g ∈ a_cands s →
    cf_term f = cf_term g → cf_id f = cf_id g → f = g;
  inv_vote : ∀ f, f ∈ a_votes s →
    vf_term f <= a_term s (vf_voter f) ∧
    (a_term s (vf_voter f) = vf_term f → a_vote s (vf_voter f) = vf_cand f) ∧
    ∃ clog, mkCand (vf_term f) (vf_cand f) clog ∈ a_cands s ∧
      ∀ vl, vf_log f = Some vl → uptodate clog vl ∧ matching (a_lead s) vl;
  inv_vote_unique : ∀ f g, f ∈ a_votes s → g ∈ a_votes s →
    vf_voter f = vf_voter g → vf_term f = vf_term g → vf_cand f = vf_cand g;
  inv_vote_early : ∀ f, f ∈ a_votes s → a_lead s !! vf_term f = None → is_Some (vf_log f);
  inv_lead : ∀ T c l, a_lead s !! T = Some (c, l) →
    (∃ clog l', mkCand T c clog ∈ a_cands s ∧ l = clog ++ l' ∧ Forall (λ e, le_term e = T) l') ∧
    (∃ Q, quorum Q ∧ ∀ v, v ∈ Q → ∃ vl, mkVote v T c (Some vl) ∈ a_votes s) ∧
    matching (a_lead s) l ∧ Forall (λ e, 1 <= le_term e <= T) l ∧
    (∀ i e, l !! i = Some e → le_index e = Z.of_nat i + 1);
  inv_ack : ∀ f, f ∈ a_acks s → af_term f <= a_term s (af_voter f);
  inv_retained : ∀ f m, f ∈ a_acks s → (m <= af_len f)%nat →
    retained (a_lead s) (af_term f) (a_term s (af_voter f)) m (a_log s (af_voter f));
  inv_vote_retained : ∀ f g vl m, f ∈ a_acks s → g ∈ a_votes s → af_voter f = vf_voter g →
    af_term f < vf_term g → vf_log g = Some vl → (m <= af_len f)%nat →
    retained (a_lead s) (af_term f) (vf_term g - 1) m vl;
}.

(** ** The leaders' logs only grow *)

Definition lead_mono (ld ld' : gmap Z (bytes * log)) : Prop :=
  ∀ T c l, ld !! T = Some (c, l) →
    ∃ l', ld' !! T = Some (c, l ++ l') ∧ Forall (λ e, le_term e = T) l'.

Definition lead_terms (ld : gmap Z (bytes * log)) : Prop :=
  ∀ T c l, ld !! T = Some (c, l) → Forall (λ e, 1 <= le_term e <= T) l.

Lemma lead_mono_refl ld : lead_mono ld ld.
Proof. intros T c l E. exists []. rewrite app_nil_r. by split; [|constructor]. Qed.

Lemma matching_mono ld ld' l : lead_mono ld ld' → matching ld l → matching ld' l.
Proof.
  intros Hm HL i e E. destruct (HL i e E) as (c & ll & El & Hp).
  destruct (Hm _ _ _ El) as (l' & El' & _). exists c, (ll ++ l'). split; [done|].
  by apply prefix_app_r.
Qed.

Lemma retained_mono ld ld' T T1 T2 m l :
  lead_mono ld ld' → lead_terms ld → T1 <= T2 → retained ld T T1 m l → retained ld' T T2 m l.
Proof.
  intros Hm Ht HT (c & ll & El & Hlen & Hr).
  destruct (Hm _ _ _ El) as (l' & El' & _). exists c, (ll ++ l'). split; [done|].
  rewrite length_app. split; [lia|]. rewrite take_app_le by done.
  destruct Hr as [?|(T'' & c'' & l'' & ? & E'' & Hn)]; [by left|]. right.
  destruct (Hm _ _ _ E'') as (x & Ex & Hx). exists T'', c'', (l'' ++ x).
  split; [lia|]. split; [done|]. intros Hp. apply Hn.
  (* the new entries of T'' have a term that no entry of the prefix has *)
  destruct (decide (length (take m ll) <= length l'')%nat) as [Hle|Hgt].
  - destruct Hp as [k Hk]. exists (drop (length (take m ll)) l'').
    rewrite <-(take_drop (length (take m ll)) l'') at 1. f_equal.
    apply (f_equal (take (length (take m ll)))) in Hk.
    rewrite take_app_le in Hk by done. by rewrite take_app_length in Hk.
  - exfalso. destruct Hp as [k Hk].
    destruct x as [|e x]; [rewrite app_nil_r in Hk; apply (f_equal length) in Hk; rewrite length_app in Hk; lia|].
    apply (f_equal (.!! length l'')) in Hk. rewrite lookup_app_r, Nat.sub_diag in Hk by lia. simpl in Hk.
    rewrite lookup_app_l in Hk by lia. symmetry in Hk. apply lookup_take_Some in Hk as [Hk _].
    apply Forall_cons in Hx as [Hx _]. specialize (Ht _ _ _ El).
    eapply Forall_lookup_1 in Hk; [|exact Ht]. simpl in Hk. lia.
Qed.

(** ** Quorums intersect *)

Lemma quorum_intersect Q Q' : quorum Q → quorum Q' → ∃ v, v ∈ Q ∧ v ∈ Q'.
Proof.
  intros (Hn & Hs & Hl) (Hn' & Hs' & Hl').
  destruct (list_find (.∈ Q') Q) as [[i v]|] eqn:E.
  { apply list_find_Some in E as (E & Hv & _). exists v. split; [|done].
    by eapply list_elem_of_lookup_2. }
  apply list_find_None in E. exfalso.
  assert (NoDup (Q ++ Q')) as Hnd.
  { apply NoDup_app. split; [done|]. split; [|done]. intros v Hv. by eapply Forall_forall in E. }
  assert (Q ++ Q' ⊆+ members) as Hsub%submseteq_length.
  { apply NoDup_submseteq; [done|]. intros v [?|?]%elem_of_app; auto. }
  rewrite length_app in Hsub. lia.
Qed.

(** Whoever has a quorum of votes in a term that has a leader is that leader. *)
Lemma elected_unique s T c c' l Q :
  Inv s → quorum Q → (∀ v, v ∈ Q → ∃ vl, mkVote v T c vl ∈ a_votes s) →
  a_lead s !! T = Some (c', l) → c = c'.
Proof.
  intros HI HQ Hv El. destruct (inv_lead _ HI _ _ _ El) as (_ & (Q' & HQ' & Hv') & _).
  destruct (quorum_intersect _ _ HQ HQ') as (v & Hin & Hin').
  destruct (Hv v Hin) as (vl & E1). destruct (Hv' v Hin') as (vl' & E2).
  by apply (inv_vote_unique _ HI _ _ E1 E2).
Qed.

(** ** Logs *)

Lemma lead_terms_inv s : Inv s → lead_terms (a_lead s).
Proof. intros HI T c l E. by destruct (inv_lead _ HI _ _ _ E) as (_ & _ & _ & ? & _). Qed.

(** The entries of a log up to position [i] have terms up to that of entry [i]. *)
Lemma matching_sorted s l i j e f :
  Inv s → matching (a_lead s) l → l !! i = Some e → l !! j = Some f → (j <= i)%nat →
  1 <= le_term f <= le_term e.
Proof.
  intros HI HL Ei Ej Hij. destruct (HL i e Ei) as (c & ll & El & Hp).
  pose proof (lead_terms_inv _ HI _ _ _ El) as Ht.
  assert (ll !! j = Some f) as Ej'.
  { eapply prefix_lookup_Some; [|exact Hp]. rewrite lookup_take_lt by lia. done. }
  exact (Forall_lookup_1 _ _ _ _ Ht Ej').
Qed.

Lemma matching_index s l i e :
  Inv s → matching (a_lead s) l → l !! i = Some e → le_index e = Z.of_nat i + 1 ∧ 1 <= le_term e.
Proof.
  intros HI HL Ei. destruct (HL i e Ei) as (c & ll & El & Hp).
  destruct (inv_lead _ HI _ _ _ El) as (_ & _ & _ & Ht & Hx).
  assert (ll !! i = Some e) as Ei'.
  { eapply prefix_lookup_Some; [|exact Hp]. rewrite lookup_take_lt by lia. done. }
  split; [by apply Hx|]. eapply Forall_lookup_1 in Ei'; [|exact Ht]. apply Ei'.
Qed.

Lemma take_prefix_le (l : log) i j : (i <= j)%nat → take i l `prefix_of` take j l.
Proof. intros Hij. replace i with (i `min` j)%nat by lia. rewrite <-take_take. apply prefix_take. Qed.

(** Log matching: two logs with the same term at a position agree up to it. *)
Lemma matching_agree s l l' i :
  Inv s → matching (a_lead s) l → matching (a_lead s) l' →
  (i <= length l)%nat → (i <= length l')%nat → term_at l i = term_at l' i → take i l = take i l'.
Proof.
  intros HI HL HL' Hi Hi' Et. destruct i as [|i]; [done|].
  destruct (lookup_lt_is_Some_2 l i) as [e E]; [lia|].
  destruct (lookup_lt_is_Some_2 l' i) as [e' E']; [lia|].
  unfold term_at in Et. rewrite E, E' in Et. simpl in Et.
  destruct (HL i e E) as (c & ll & El & Hp). destruct (HL' i e' E') as (c' & ll' & El' & Hp').
  rewrite Et, El' in El. injection El as <- <-.
  apply (prefix_length_eq (take (S i) l)); [|rewrite !length_take; lia].
  destruct (prefix_weak_total _ _ _ Hp Hp') as [?|Hb]; [done|].
  apply prefix_length_eq in Hb; [by rewrite Hb|rewrite !length_take; lia].
Qed.

Lemma matching_prefix ld l l' : matching ld l → l' `prefix_of` l → matching ld l'.
Proof.
  intros HL [k ->] i e E. destruct (HL i e) as (c & ll & El & Hp).
  { by apply lookup_app_l_Some. }
  exists c, ll. split; [done|]. rewrite take_app_le in Hp; [done|].
  apply lookup_lt_Some in E. lia.
Qed.

(** A log whose last term is [t] is a prefix of the log of the leader of [t]. *)
Lemma matching_last ld l :
  matching ld l → l ≠ [] → ∃ c ll, ld !! last_term l = Some (c, ll) ∧ l `prefix_of` ll.
Proof.
  intros HL Hne. destruct (exists_last Hne) as (l0 & e & ->).
  destruct (HL (length l0) e) as (c & ll & El & Hp).
  { by rewrite lookup_app_r, Nat.sub_diag by lia. }
  exists c, ll. unfold last_term. rewrite last_snoc. split; [done|].
  rewrite take_ge in Hp; [done|]. rewrite length_app. simpl. lia.
Qed.

(** ** Preservation *)

Lemma Inv_init : Inv abs_init.
Proof.
  split; simpl; try done; intros; set_solver.
Qed.

Ltac at_node v k :=
  let Hne := fresh "Hne" in let E := fresh "E" in
  destruct (decide (k = v)) as [E|Hne];
  [rewrite ?E, ?fn_lookup_insert; rewrite ?E in * | rewrite ?(fn_lookup_insert_ne _ v k) by congruence].

Lemma Inv_bump s v T :
  a_term s v < T → Inv s →
  Inv (mkAbs (<[v := T]> (a_term s)) (<[v := []]> (a_vote s)) (a_log s)
         (a_cands s) (a_votes s) (a_lead s) (a_acks s)).
Proof.
  intros HT HI. pose proof (inv_term _ HI v) as H0.
  assert (∀ w, a_term s w <= <[v := T]> (a_term s) w) as Hle.
  { intros w. at_node v w; lia. }
  split; simpl.
  - intros w. specialize (Hle w). pose proof (inv_term _ HI w). lia.
  - intros w. destruct (inv_node_log _ HI w) as [? Hf]. split; [done|].
    eapply Forall_impl; [exact Hf|]. intros e He. specialize (Hle w). simpl in He. lia.
  - intros f Hf. destruct (inv_cand _ HI f Hf) as (? & ? & ? & ?). specialize (Hle (cf_id f)).
    split_and!; (done || lia).
  - exact (inv_cand_unique _ HI).
  - intros f Hf. destruct (inv_vote _ HI f Hf) as (? & ? & ?). at_node v (vf_voter f); [|by split_and!].
    split_and!; [lia|lia|done].
  - exact (inv_vote_unique _ HI).
  - exact (inv_vote_early _ HI).
  - exact (inv_lead _ HI).
  - intros f Hf. pose proof (inv_ack _ HI f Hf). specialize (Hle (af_voter f)). lia.
  - intros f m Hf Hm. eapply retained_mono; [apply lead_mono_refl|by apply lead_terms_inv| |by apply (inv_retained _ HI)].
    apply Hle.
  - exact (inv_vote_retained _ HI).
Qed.

Lemma uptodate_refl l : uptodate l l.
Proof. right. split; lia. Qed.

Lemma Inv_add_cand s c T :
  a_term s c = T → 1 <= T → c ≠ [] →
  (∀ f, f ∈ a_cands s → cf_id f = c → cf_term f ≠ T) →
  Forall (λ e, le_term e < T) (a_log s c) → Inv s →
  Inv (mkAbs (a_term s) (a_vote s) (a_log s) (mkCand T c (a_log s c) :: a_cands s)
         (a_votes s) (a_lead s) (a_acks s)).
Proof.
  intros HT H1 Hc Hnew Hlog HI. split; simpl; try apply HI.
  - intros f [->|Hf]%elem_of_cons; [|by apply (inv_cand _ HI)]. simpl.
    split_and!; [lia|lia|done|apply (inv_node_log _ HI)|done].
  - intros f g [->|Hf]%elem_of_cons [->|Hg]%elem_of_cons; simpl; intros Et Ei.
    + done.
    + by destruct (Hnew g Hg).
    + by destruct (Hnew f Hf).
    + by apply (inv_cand_unique _ HI).
  - intros f Hf. destruct (inv_vote _ HI f Hf) as (? & ? & clog & Hin & ?).
    split_and!; [done|done|]. exists clog. split; [by right|done].
  - intros T' c' l E. destruct (inv_lead _ HI _ _ _ E) as ((clog & l' & Hin & ? & ?) & ?).
    split; [|done]. exists clog, l'. split_and!; [by right|done|done].
Qed.

Lemma Inv_vote s v T c clog :
  a_term s v = T → a_vote s v = [] → mkCand T c clog ∈ a_cands s →
  uptodate clog (a_log s v) → Inv s →
  Inv (mkAbs (a_term s) (<[v := c]> (a_vote s)) (a_log s) (a_cands s)
         (mkVote v T c (early s T (a_log s v)) :: a_votes s) (a_lead s) (a_acks s)).
Proof.
  intros HT Hv Hc Hup HI.
  destruct (inv_cand _ HI _ Hc) as (_ & Hne & _). simpl in Hne.
  assert (∀ f, f ∈ a_votes s → vf_voter f = v → vf_term f ≠ T) as Hnew.
  { intros f Hf <- Et. destruct (inv_vote _ HI f Hf) as (_ & Hcand & clog' & Hin & _).
    destruct (inv_cand _ HI _ Hin) as (_ & Hne' & _). simpl in Hne'.
    rewrite Hcand in Hv by congruence. by apply Hne'. }
  split; simpl; try apply HI.
  - intros f [->|Hf]%elem_of_cons; simpl.
    + rewrite fn_lookup_insert. split_and!; [lia|done|]. exists clog. split; [done|].
      unfold early. intros vl. destruct (a_lead s !! T); [done|]. intros [= <-].
      split; [done|]. apply (inv_node_log _ HI).
    + destruct (inv_vote _ HI f Hf) as (? & Hcand & ?). split_and!; [done| |done].
      intros Et. specialize (Hnew f Hf). at_node v (vf_voter f); [|by apply Hcand].
      exfalso. by apply Hnew; congruence.
  - intros f g [->|Hf]%elem_of_cons [->|Hg]%elem_of_cons; simpl; intros Ev Et.
    + done.
    + by destruct (Hnew g Hg).
    + by destruct (Hnew f Hf).
    + by apply (inv_vote_unique _ HI).
  - intros f [->|Hf]%elem_of_cons El; simpl in *.
    + unfold early. by rewrite El.
    + by apply (inv_vote_early _ HI).
  - intros T' c' l E. destruct (inv_lead _ HI _ _ _ E) as (? & (Q & HQ & Hvs) & ?).
    split; [done|]. split; [|done]. exists Q. split; [done|]. intros w Hw.
    destruct (Hvs w Hw) as (vl & Hin). exists vl. by right.
  - intros f g vl m Hf [->|Hg]%elem_of_cons; simpl; [|by apply (inv_vote_retained _ HI)].
    unfold early. destruct (a_lead s !! T) eqn:El; [done|]. intros Ev Hlt [= <-] Hm.
    pose proof (inv_retained _ HI f m Hf Hm) as (cl & ll & E & Hlen & Hr). rewrite Ev in Hr.
    exists cl, ll. split_and!; [done|done|].
    destruct Hr as [?|(T'' & c'' & l'' & Hr & E'' & Hn)]; [by left|]. right.
    assert (T'' ≠ T) by congruence. exists T'', c'', l''. split_and!; (done || lia).
Qed.

Lemma Inv_ext s s' :
  (∀ v, a_term s' v = a_term s v) → (∀ v, a_vote s' v = a_vote s v) → (∀ v, a_log s' v = a_log s v) →
  a_cands s' = a_cands s → a_votes s' = a_votes s → a_lead s' = a_lead s → a_acks s' = a_acks s →
  Inv s → Inv s'.
Proof.
  intros Ht Hv Hl Ec Evs El Ea HI.
  split; intros; rewrite ?Ht, ?Hv, ?Hl, ?Ec, ?Evs, ?El, ?Ea in *; solve [by apply HI | by eapply HI].
Qed.

Lemma Inv_cand s c T :
  c ≠ [] → a_term s c < T → Inv s →
  Inv (mkAbs (<[c := T]> (a_term s)) (<[c := c]> (a_vote s)) (a_log s)
         (mkCand T c (a_log s c) :: a_cands s)
         (mkVote c T c (early s T (a_log s c)) :: a_votes s) (a_lead s) (a_acks s)).
Proof.
  intros Hc HT HI. pose proof (inv_term _ HI c) as H0.
  pose proof (Inv_bump s c T HT HI) as H1.
  assert (∀ f, f ∈ a_cands s → cf_id f = c → cf_term f ≠ T) as Hnew.
  { intros f Hf <- <-. destruct (inv_cand _ HI f Hf) as (? & _). lia. }
  apply (Inv_add_cand _ c T) in H1; simpl in *; rewrite ?fn_lookup_insert; [|done|lia|done|done|].
  - apply (Inv_vote _ c T c (a_log s c)) in H1; simpl in *; rewrite ?fn_lookup_insert;
      [|done|done|set_solver|apply uptodate_refl].
    eapply Inv_ext; [..|exact H1]; simpl; try done.
    intros v. at_node c v; done.
  - destruct (inv_node_log _ HI c) as [_ Hf]. eapply Forall_impl; [exact Hf|].
    intros e He. simpl in He. lia.
Qed.

Lemma retained_self ld T c l T' m l' :
  ld !! T = Some (c, l) → (m <= length l)%nat → take m l `prefix_of` l' → retained ld T T' m l'.
Proof. intros E Hm Hp. exists c, l. split_and!; [done|done|by left]. Qed.

Lemma retained_longer ld T T' m l l' :
  l `prefix_of` l' → retained ld T T' m l → retained ld T T' m l'.
Proof.
  intros Hl (c & ll & E & Hm & [Hp|Hp]); exists c, ll; (split; [done|]); (split; [done|]).
  - left. by etrans.
  - by right.
Qed.

(** What a growing map of leaders preserves. *)
Lemma Inv_cand_mono s ld f :
  lead_mono (a_lead s) ld → Inv s → f ∈ a_cands s →
  1 <= cf_term f <= a_term s (cf_id f) ∧ cf_id f ≠ [] ∧ matching ld (cf_log f) ∧
  Forall (λ e, le_term e < cf_term f) (cf_log f).
Proof.
  intros Hm HI Hf. destruct (inv_cand _ HI f Hf) as (? & ? & ? & ?).
  split; [done|]. split; [done|]. split; [by eapply matching_mono|done].
Qed.

Lemma Inv_vote_mono s ld f :
  lead_mono (a_lead s) ld → Inv s → f ∈ a_votes s →
  vf_term f <= a_term s (vf_voter f) ∧
  (a_term s (vf_voter f) = vf_term f → a_vote s (vf_voter f) = vf_cand f) ∧
  ∃ clog, mkCand (vf_term f) (vf_cand f) clog ∈ a_cands s ∧
    ∀ vl, vf_log f = Some vl → uptodate clog vl ∧ matching ld vl.
Proof.
  intros Hm HI Hf. destruct (inv_vote _ HI f Hf) as (? & ? & clog & ? & Hl).
  split; [done|]. split; [done|]. exists clog. split; [done|].
  intros vl E. destruct (Hl vl E). split; [done|by eapply matching_mono].
Qed.

Lemma Inv_elect s c T clog Q :
  mkCand T c clog ∈ a_cands s → a_term s c = T → a_log s c = clog → a_lead s !! T = None →
  quorum Q → (∀ v, v ∈ Q → ∃ vl, mkVote v T c vl ∈ a_votes s) → Inv s →
  Inv (mkAbs (a_term s) (a_vote s) (a_log s) (a_cands s) (a_votes s)
         (<[T := (c, clog)]> (a_lead s)) (mkAck c T (length clog) :: a_acks s)).
Proof.
  intros Hc HT Hlog El HQ Hv HI.
  destruct (inv_cand _ HI _ Hc) as (HT1 & _ & Hmat & Hlt). simpl in HT1, Hmat, Hlt.
  assert (lead_mono (a_lead s) (<[T := (c, clog)]> (a_lead s))) as Hm.
  { intros T' c' l' E. exists []. rewrite app_nil_r, lookup_insert_ne by congruence.
    by split; [|constructor]. }
  split; simpl.
  - apply HI.
  - intros w. destruct (inv_node_log _ HI w). split; [by eapply matching_mono|done].
  - intros f Hf. by apply Inv_cand_mono.
  - apply HI.
  - intros f Hf. by apply Inv_vote_mono.
  - apply HI.
  - intros f Hf [E _]%lookup_insert_None. by apply (inv_vote_early _ HI).
  - intros T' c' l' [[<- [= <- <-]]|[Hne E]]%lookup_insert_Some.
    + split; [exists clog, []; by rewrite app_nil_r|]. split.
      { exists Q. split; [done|]. intros v Hq. destruct (Hv v Hq) as (vl & Hin).
        destruct (inv_vote_early _ HI _ Hin El) as [vl' E]. simpl in E. subst vl. eauto. }
      split; [by eapply matching_mono|]. split.
      * apply Forall_lookup_2. intros i e E.
        pose proof (matching_index _ _ _ _ HI Hmat E) as [_ ?].
        pose proof (Forall_lookup_1 _ _ _ _ Hlt E) as Hx. simpl in Hx. lia.
      * intros i e E. by apply (matching_index _ _ _ _ HI Hmat E).
    + destruct (inv_lead _ HI _ _ _ E) as (? & ? & ? & ? & ?).
      split_and!; try done. by eapply matching_mono.
  - intros f [->|Hf]%elem_of_cons; simpl; [lia|by apply HI].
  - intros f m [->|Hf]%elem_of_cons Hlen; simpl in *.
    + eapply retained_self; [by rewrite lookup_insert_eq|done|]. rewrite Hlog. apply prefix_take.
    + eapply retained_mono; [done|by apply lead_terms_inv|reflexivity|by apply HI].
  - intros f g vl m [->|Hf]%elem_of_cons Hg Ev Hlt' Evl Hlen; simpl in *.
    + destruct (inv_vote _ HI g Hg) as (Hle & _). rewrite <-Ev in Hle. lia.
    + eapply retained_mono; [done|by apply lead_terms_inv|reflexivity|by eapply HI].
Qed.

Lemma Inv_propose s c T l e :
  a_lead s !! T = Some (c, l) → a_term s c = T → a_log s c = l →
  le_term e = T → le_index e = Z.of_nat (length l) + 1 → Inv s →
  Inv (mkAbs (a_term s) (a_vote s) (<[c := l ++ [e]]> (a_log s)) (a_cands s) (a_votes s)
         (<[T := (c, l ++ [e])]> (a_lead s)) (mkAck c T (length l + 1) :: a_acks s)).
Proof.
  intros El HT Hlog Het Hei HI.
  destruct (inv_lead _ HI _ _ _ El) as ((clog & l0 & Hc & -> & Hl0) & HQ & Hmat & Hterms & Hidx).
  destruct (inv_cand _ HI _ Hc) as (HT1 & _). simpl in HT1.
  set (l := clog ++ l0) in *.
  assert (lead_mono (a_lead s) (<[T := (c, l ++ [e])]> (a_lead s))) as Hm.
  { intros T' c' l' E. destruct (decide (T' = T)) as [->|Hne].
    - rewrite El in E. injection E as <- <-. exists [e]. rewrite lookup_insert_eq.
      by split; [|repeat constructor].
    - exists []. rewrite app_nil_r, lookup_insert_ne by congruence. by split; [|constructor]. }
  assert (matching (<[T := (c, l ++ [e])]> (a_lead s)) (l ++ [e])) as Hmat'.
  { intros i x [Hi|[Hi Ex]]%lookup_app_Some.
    - destruct (matching_mono _ _ _ Hm Hmat i x Hi) as (c' & ll & ? & ?).
      exists c', ll. split; [done|]. rewrite take_app_le; [done|]. apply lookup_lt_Some in Hi. lia.
    - apply list_lookup_singleton_Some in Ex as [Ex <-].
      exists c, (l ++ [e]). rewrite Het, lookup_insert_eq. split; [done|]. apply prefix_take. }
  split; simpl.
  - apply HI.
  - intros w. destruct (inv_node_log _ HI w) as [? Hf]. at_node c w.
    + split; [done|]. rewrite Hlog in Hf. apply Forall_app_2; [done|]. repeat constructor. lia.
    + split; [by eapply matching_mono|done].
  - intros f Hf. by apply Inv_cand_mono.
  - apply HI.
  - intros f Hf. by apply Inv_vote_mono.
  - apply HI.
  - intros f Hf [E _]%lookup_insert_None. by apply (inv_vote_early _ HI).
  - intros T' c' l' [[<- [= <- <-]]|[Hne E]]%lookup_insert_Some.
    + split; [exists clog, (l0 ++ [e])|].
      { unfold l. rewrite <-app_assoc. split_and!; [done|done|]. apply Forall_app_2; [done|by repeat constructor]. }
      split; [done|]. split; [done|]. split.
      * apply Forall_app_2; [done|]. repeat constructor; lia.
      * intros i x [Hi|[Hi Ex]]%lookup_app_Some; [by apply Hidx|].
        apply list_lookup_singleton_Some in Ex as [Ex <-]. rewrite Hei. lia.
    + destruct (inv_lead _ HI _ _ _ E) as (? & ? & ? & ? & ?).
      split_and!; try done. by eapply matching_mono.
  - intros f [->|Hf]%elem_of_cons; simpl; [lia|by apply HI].
  - intros f m [->|Hf]%elem_of_cons Hlen; simpl in *.
    + rewrite fn_lookup_insert.
      eapply retained_self; [by rewrite lookup_insert_eq|rewrite length_app; simpl; lia|apply prefix_take].
    + eapply retained_longer; [|eapply retained_mono; [done|by apply lead_terms_inv|reflexivity|by apply (inv_retained _ HI)]].
      at_node c (af_voter f); [|done]. rewrite Hlog. by apply prefix_app_r.
  - intros f g vl m [->|Hf]%elem_of_cons Hg Ev Hlt' Evl Hlen; simpl in *.
    + destruct (inv_vote _ HI g Hg) as (Hle & _). rewrite <-Ev in Hle. lia.
    + eapply retained_mono; [done|by apply lead_terms_inv|reflexivity|by eapply HI].
Qed.

Lemma Inv_append s v T c l prev k log' :
  a_lead s !! T = Some (c, l) → a_term s v = T → (prev + k <= length l)%nat →
  (take (prev + k) l `prefix_of` a_log s v ∧ log' = a_log s v ∨
   ¬ take (prev + k) l `prefix_of` a_log s v ∧ log' = take (prev + k) l) → Inv s →
  Inv (mkAbs (a_term s) (a_vote s) (<[v := log']> (a_log s)) (a_cands s) (a_votes s)
         (a_lead s) (mkAck v T (prev + k) :: a_acks s)).
Proof.
  intros El HT Hk Hlog HI.
  destruct (inv_lead _ HI _ _ _ El) as (_ & _ & Hmat & Hterms & _).
  assert (take (prev + k) l `prefix_of` log') as Hnew by (by destruct Hlog as [[? ->]|[_ ->]]).
  split; simpl; try apply HI.
  - intros w. at_node v w; [|apply HI]. destruct Hlog as [[_ ->]|[_ ->]]; [apply HI|].
    split; [eapply matching_prefix; [done|apply prefix_take]|]. rewrite HT.
    apply Forall_take. eapply Forall_impl; [exact Hterms|]. simpl. lia.
  - intros f [->|Hf]%elem_of_cons; simpl; [lia|by apply HI].
  - intros f m [->|Hf]%elem_of_cons Hlen; simpl in *.
    + rewrite fn_lookup_insert. eapply retained_self; [done|lia|]. etrans; [|exact Hnew].
      by apply take_prefix_le.
    + pose proof (inv_retained _ HI f m Hf Hlen) as Hr. pose proof (inv_ack _ HI f Hf) as Ha.
      at_node v (af_voter f); [|done]. destruct Hlog as [[_ ->]|[Hn ->]]; [done|].
      destruct Hr as (cl & ll & E' & Hm & [Hr|Hr]); exists cl, ll; (split; [done|]); (split; [done|]); [|by right].
      destruct (decide (take m ll `prefix_of` l)) as [Hp|Hp].
      * left. destruct (prefix_weak_total _ _ _ Hp (prefix_take l (prev + k))) as [?|Hb]; [done|].
        exfalso. apply Hn. by etrans.
      * right. exists T, c, l. split; [|done]. split; [|lia].
        destruct (decide (af_term f = T)) as [Et|]; [|lia]. exfalso. apply Hp.
        rewrite Et, El in E'. injection E' as <- <-. apply prefix_take.
  - intros f g vl m [->|Hf]%elem_of_cons Hg Ev Hlt' Evl Hlen; simpl in *; [|by eapply HI].
    destruct (inv_vote _ HI g Hg) as (Hle & _). rewrite <-Ev in Hle. lia.
Qed.

Lemma astep_Inv s s' : astep s s' → Inv s → Inv s'.
Proof.
  intros [] HI; eauto using Inv_bump, Inv_cand, Inv_vote, Inv_elect, Inv_propose, Inv_append.
Qed.

Lemma astep_rtc_Inv s s' : rtc astep s s' → Inv s → Inv s'.
Proof. induction 1; eauto using astep_Inv. Qed.

(** ** Safety *)

(** The first [m] entries of the leader of [T] are committed: entry [m] is of
    term [T] and a quorum holds it. *)
Definition committed (s : abs) (T : Z) (m : nat) (p : log) : Prop :=
  ∃ c l Q, a_lead s !! T = Some (c, l) ∧ (1 <= m <= length l)%nat ∧ term_at l m = T ∧
    quorum Q ∧ (∀ v, v ∈ Q → ∃ k, mkAck v T k ∈ a_acks s ∧ (m <= k)%nat) ∧ p = take m l.

Lemma prefix_shorter (l1 l2 l : log) :
  l1 `prefix_of` l → l2 `prefix_of` l → (length l1 <= length l2)%nat → l1 `prefix_of` l2.
Proof.
  intros H1 H2 Hlen. destruct (prefix_weak_total _ _ _ H1 H2) as [?|Hb]; [done|].
  assert (l2 = l1) as -> by (apply prefix_length_eq; done). done.
Qed.

(** A voter that holds a prefix ending in an entry of term [T] only votes for
    candidates that hold it, when the leaders in between do. *)
Lemma uptodate_holds s T p clog vl T' :
  Inv s → matching (a_lead s) vl → matching (a_lead s) clog → uptodate clog vl →
  p `prefix_of` vl → p ≠ [] → last_term p = T → Forall (λ e, le_term e <= T) p →
  Forall (λ e, le_term e < T') clog →
  (∀ t c l, T < t < T' → a_lead s !! t = Some (c, l) → p `prefix_of` l) →
  p `prefix_of` clog.
Proof.
  intros HI Hmv Hmc Hup Hp Hne HpT Hterms Hlt IH.
  assert (T <= last_term vl ∧ vl ≠ []) as [HTv Hvne].
  { destruct (exists_last Hne) as (p0 & e & ->). destruct Hp as [k ->].
    unfold last_term in HpT. rewrite last_snoc in HpT. simpl in HpT.
    destruct (exists_last (l := (p0 ++ [e]) ++ k)) as (v0 & f & Ev); [by destruct p0|].
    split; [|by destruct p0]. unfold last_term. rewrite Ev, last_snoc. simpl. rewrite <-HpT.
    rewrite Ev in Hmv.
    apply (matching_sorted _ _ (length v0) (length p0) f e HI Hmv).
    - by rewrite lookup_app_r, Nat.sub_diag by lia.
    - rewrite <-Ev, <-app_assoc, lookup_app_r, Nat.sub_diag by lia. done.
    - apply (f_equal length) in Ev. rewrite !length_app in Ev. simpl in Ev. lia. }
  destruct (matching_last _ _ Hmv Hvne) as (cv & lv & Ev & Hpv).
  assert (clog ≠ []) as Hcne.
  { intros ->. pose proof (lead_terms_inv _ HI _ _ _ Ev) as Ht.
    destruct vl as [|e0 vl0]; [done|]. destruct Hup as [Hup|[_ Hup]]; [|simpl in Hup; lia].
    destruct Hpv as [k ->]. unfold last_term in Hup at 2. simpl in Hup.
    apply Forall_app in Ht as [Ht _]. apply Forall_cons in Ht as [Ht _]. lia. }
  destruct (matching_last _ _ Hmc Hcne) as (cc & lc & Ec & Hpc).
  destruct Hup as [Hup|[Heq Hlen]].
  - assert (p `prefix_of` lc) as Hplc.
    { apply (IH (last_term clog) cc lc); [|done]. split; [lia|].
      destruct (exists_last Hcne) as (c0 & e & ->). unfold last_term. rewrite last_snoc. simpl.
      apply Forall_app in Hlt as [_ Hlt]. by apply Forall_cons in Hlt as [Hlt _]. }
    destruct (prefix_weak_total _ _ _ Hplc Hpc) as [?|Hb]; [done|]. exfalso.
    destruct (exists_last Hcne) as (c0 & e & ->). destruct Hb as [k ->].
    unfold last_term in Hup at 2. rewrite last_snoc in Hup. simpl in Hup.
    rewrite <-app_assoc in Hterms. apply Forall_app in Hterms as [_ Hterms].
    apply Forall_cons in Hterms as [Hterms _]. lia.
  - rewrite Heq, Ev in Ec. injection Ec as <- <-.
    etrans; [exact Hp|]. by eapply prefix_shorter.
Qed.

Lemma term_at_last (l : log) m :
  (1 <= m <= length l)%nat → take m l ≠ [] ∧ last_term (take m l) = term_at l m.
Proof.
  intros Hm. destruct m as [|m]; [lia|].
  destruct (lookup_lt_is_Some_2 l m) as [e E]; [lia|].
  rewrite (take_S_r _ _ _ E). split; [by destruct (take m l)|].
  unfold last_term, term_at. by rewrite last_snoc, E.
Qed.

(** Leader completeness. *)
Lemma leader_complete s T m p T' c' l' :
  Inv s → committed s T m p → T <= T' → a_lead s !! T' = Some (c', l') → p `prefix_of` l'.
Proof.
  intros HI (c & l & Q & El & Hm & Ht & HQ & Hack & ->).
  destruct (term_at_last l m Hm) as [Hne Hlast]. rewrite Ht in Hlast.
  assert (Forall (λ e, le_term e <= T) (take m l)) as Hterms.
  { apply Forall_take. eapply Forall_impl; [exact (lead_terms_inv _ HI _ _ _ El)|]. simpl. lia. }
  revert c' l'. induction T' as [T' IH] using (well_founded_induction (Z.lt_wf T)).
  intros c' l' HT El'. destruct (decide (T' = T)) as [->|HneT].
  { rewrite El in El'. injection El' as <- <-. apply prefix_take. }
  destruct (inv_lead _ HI _ _ _ El') as ((clog & l0 & Hc & -> & _) & (Q' & HQ' & Hvs) & _).
  destruct (quorum_intersect _ _ HQ HQ') as (v & Hv & Hv').
  destruct (Hack v Hv) as (k & Hk & Hkm). destruct (Hvs v Hv') as (vl & Hvl).
  destruct (inv_vote _ HI _ Hvl) as (_ & _ & clog' & Hc' & Hup). simpl in *.
  assert (clog' = clog) as ->.
  { pose proof (inv_cand_unique _ HI _ _ Hc Hc' eq_refl eq_refl) as E. by injection E. }
  destruct (Hup vl eq_refl) as [Hu Hmv]. destruct (inv_cand _ HI _ Hc) as (_ & _ & Hmc & Hlt). simpl in *.
  apply prefix_app_r. eapply (uptodate_holds s T (take m l) clog vl T'); try done.
  - destruct (inv_vote_retained _ HI _ _ vl m Hk Hvl eq_refl) as (c0 & ll & E & _ & Hr); simpl in *; [lia|done|done|].
    rewrite El in E. injection E as <- <-. destruct Hr as [?|(T2 & c2 & l2 & HT2 & E2 & Hn)]; [done|].
    destruct Hn. eapply (IH T2); [lia|lia|done].
  - intros t c2 l2 Hrange E2. eapply (IH t); [lia|lia|done].
Qed.

(** State machine safety: of two committed prefixes, one extends the other. *)
Lemma committed_comparable s T m p T' m' p' :
  Inv s → committed s T m p → committed s T' m' p' → p `prefix_of` p' ∨ p' `prefix_of` p.
Proof.
  intros HI H1 H2. pose proof H1 as (c & l & Q & El & _ & _ & _ & _ & Ep).
  pose proof H2 as (c' & l' & Q' & El' & _ & _ & _ & _ & Ep').
  destruct (Z.le_ge_cases T T') as [HT|HT].
  - apply (prefix_weak_total _ _ l'); [by eapply leader_complete|rewrite Ep'; apply prefix_take].
  - apply (prefix_weak_total _ _ l); [rewrite Ep; apply prefix_take|by eapply (leader_complete s T' m' p' T)].
Qed.
End spec.
