(* ===== verification/RaftFacts.v ===== *)
(** * What the operations of a Raft node do

    The loops of raft_node.cc against their reference definitions: the log a
    follower ends up with, the entries that are applied, the index a leader
    commits up to, the requests a leader sends. *)

From stdpp Require Import base gmap numbers list.
From Stdlib Require Import ZArith Lia.
From S2P Require Import Prelude Status RaftStorage RaftNode RaftSpec.

Local Open Scope Z_scope.

Implicit Types n : RaftNode.
Local Arguments Z.of_nat : simpl never.

(** Entry [i] (from 0) of a log has index [i + 1]. *)
Definition indexed (l : log) : Prop :=
  ∀ i e, l !! i = Some e → le_index e = Z.of_nat i + 1.

Lemma indexed_prefix l l' : l `prefix_of` l' → indexed l' → indexed l.
Proof. intros [k ->] Hl i e E. apply Hl. by apply lookup_app_l_Some. Qed.

Lemma indexed_app l l' :
  indexed l → (∀ i e, l' !! i = Some e → le_index e = Z.of_nat (length l + i) + 1) → indexed (l ++ l').
Proof.
  intros Hl Hl' i e [E|[Hi E]]%lookup_app_Some; [by apply Hl|].
  rewrite (Hl' _ _ E). lia.
Qed.

Lemma LastLogIndex_length n : indexed (rn_log n) → LastLogIndexLocked n = Zlen (rn_log n).
Proof.
  unfold LastLogIndexLocked. generalize (rn_log n). intros l0 Hl.
  destruct l0 as [|x l _] using rev_ind; [done|].
  rewrite last_snoc. simpl. rewrite (Hl (length l) x) by (by rewrite lookup_app_r, Nat.sub_diag by lia).
  rewrite length_app. simpl. lia.
Qed.

Lemma TermAt_term_at n i : TermAtLocked n (Z.of_nat i) = term_at (rn_log n) i.
Proof.
  unfold TermAtLocked, term_at. destruct i as [|i]; [done|].
  destruct (Z.eqb_spec (Z.of_nat (S i)) 0); [lia|]. simpl orb.
  destruct (Z.ltb_spec (Z.of_nat (length (rn_log n))) (Z.of_nat (S i))) as [Hlt|Hge].
  - by rewrite lookup_ge_None_2 by lia.
  - replace (Z.to_nat (Z.of_nat (S i) - 1)) with i by lia.
    destruct (lookup_lt_is_Some_2 (rn_log n) i) as [e E]; [lia|]. by rewrite E, (nth_lookup_Some _ _ _ _ E).
Qed.

Lemma LastLogTerm_last_term n : LastLogTermLocked n = last_term (rn_log n).
Proof. done. Qed.

(** ** Appending *)

(** The log after a request: the entries that agree are kept, from the first one
    that does not on (or past the end) the log is replaced. *)
Fixpoint merge (prev : nat) (es l : log) : log :=
  match es with
  | [] => l
  | e :: es' =>
      match l !! prev with
      | Some x => if le_term x =? le_term e then merge (S prev) es' l else take prev l ++ es
      | None => l ++ es
      end
  end.

Fixpoint merge_changes (prev : nat) (es l : log) : bool :=
  match es with
  | [] => false
  | e :: es' =>
      match l !! prev with
      | Some x => if le_term x =? le_term e then merge_changes (S prev) es' l else true
      | None => true
      end
  end.

Lemma append_past_end es n changed :
  indexed (rn_log n ++ es) →
  foldl append_entry (n, changed) es =
  (set_log (rn_log n ++ es) n, match es with [] => changed | _ => true end).
Proof.
  revert n changed. induction es as [|e es IH]; intros n changed Hx; cbn [foldl].
  { rewrite app_nil_r. by destruct n. }
  assert (append_entry (n, changed) e = (set_log (rn_log n ++ [e]) n, true)) as ->.
  { unfold append_entry. rewrite LastLogIndex_length.
    - rewrite (Hx (length (rn_log n)) e) by (by rewrite lookup_app_r, Nat.sub_diag by lia).
      destruct (Z.leb_spec (Z.of_nat (length (rn_log n)) + 1) (Z.of_nat (length (rn_log n)))); [lia|done].
    - eapply indexed_prefix; [|exact Hx]. by apply prefix_app_r. }
  rewrite IH by (simpl; by rewrite <-app_assoc).
  simpl. rewrite <-app_assoc. by destruct es.
Qed.

Lemma append_entries_merge es n changed prev :
  (prev <= length (rn_log n))%nat → Zlen (rn_log n) < 2 ^ 64 →
  indexed (rn_log n) → indexed (take prev (rn_log n) ++ es) →
  foldl append_entry (n, changed) es =
  (set_log (merge prev es (rn_log n)) n, changed || merge_changes prev es (rn_log n)).
Proof.
  revert prev changed. induction es as [|e es IH]; intros prev changed Hprev Hbound Hl Hes; cbn [foldl].
  { rewrite orb_false_r. by destruct n. }
  assert (le_index e = Z.of_nat prev + 1) as Hidx.
  { apply Hes. rewrite lookup_app_r, length_take by (rewrite length_take; lia).
    by replace (prev - prev `min` length (rn_log n))%nat with O by lia. }
  cbn [merge merge_changes]. destruct (rn_log n !! prev) as [x|] eqn:Ex.
  - pose proof (lookup_lt_Some _ _ _ Ex) as Hlt.
    destruct (Z.eqb_spec (le_term x) (le_term e)) as [Et|Et].
    + assert (append_entry (n, changed) e = (n, changed)) as ->.
      { unfold append_entry. rewrite LastLogIndex_length by done. rewrite Hidx.
        replace (Z.of_nat prev + 1) with (Z.of_nat (S prev)) by lia. rewrite TermAt_term_at. simpl. rewrite Ex. simpl.
        destruct (Z.leb_spec (Z.of_nat (S prev)) (Z.of_nat (length (rn_log n)))); [|lia].
        by rewrite Et, Z.eqb_refl. }
      apply IH; [lia|done|done|]. intros i f E.
      apply lookup_app_Some in E as [E|[Hi E]].
      * apply Hl. by apply lookup_take_Some in E as [??].
      * rewrite length_take in *. apply Hes.
        rewrite lookup_app_r, length_take by (rewrite length_take; lia).
        replace (i - prev `min` length (rn_log n))%nat with (S (i - S prev `min` length (rn_log n)))%nat by lia. done.
    + assert (append_entry (n, changed) e = (set_log (take prev (rn_log n) ++ [e]) n, true)) as ->.
      { unfold append_entry. rewrite LastLogIndex_length by done. rewrite Hidx.
        replace (Z.of_nat prev + 1) with (Z.of_nat (S prev)) by lia. rewrite TermAt_term_at. simpl. rewrite Ex. simpl.
        destruct (Z.leb_spec (Z.of_nat (S prev)) (Z.of_nat (length (rn_log n)))); [|lia].
        destruct (Z.eqb_spec (le_term x) (le_term e)); [done|].
        unfold resize, u64. replace (Z.of_nat (S prev) - 1) with (Z.of_nat prev) by lia.
        rewrite Z.mod_small by lia. rewrite Nat2Z.id.
        replace (Z.to_nat (Z.of_nat prev - Z.of_nat (length (rn_log n)))) with O by lia. simpl.
        by rewrite app_nil_r. }
      rewrite append_past_end.
      * simpl. rewrite <-app_assoc, orb_true_r. by destruct es.
      * simpl. by rewrite <-app_assoc.
  - pose proof (lookup_ge_None_1 _ _ Ex) as Hge.
    rewrite take_ge in Hes by done. rewrite orb_true_r.
    exact (append_past_end (e :: es) n changed Hes).
Qed.

Lemma merge_unchanged prev es l : merge_changes prev es l = false → merge prev es l = l.
Proof.
  revert prev. induction es as [|e es IH]; intros prev; simpl; [done|].
  destruct (l !! prev); [|done]. destruct (_ =? _); [apply IH|done].
Qed.

(** ** Applying *)

Lemma ApplyCommitted_loop_spec k n :
  0 <= rn_last_applied n → rn_commit_index n = rn_last_applied n + Z.of_nat k → rn_commit_index n <= Zlen (rn_log n) →
  ApplyCommitted_loop k n =
  set_commit (rn_commit_index n) (rn_commit_index n)
    (rn_applied n ++ take k (drop (Z.to_nat (rn_last_applied n)) (rn_log n))) n.
Proof.
  revert n. induction k as [|k IH]; intros n H0 Hc Hlen; simpl ApplyCommitted_loop.
  { rewrite take_0, app_nil_r. assert (rn_commit_index n = rn_last_applied n) as E by lia.
    clear -E. destruct n; simpl in *. by subst. }
  destruct (Z.ltb_spec (rn_last_applied n) (rn_commit_index n)); [|lia].
  rewrite IH; simpl; [|lia|lia|done].
  destruct (lookup_lt_is_Some_2 (rn_log n) (Z.to_nat (rn_last_applied n))) as [e E]; [lia|].
  replace (Z.to_nat (rn_last_applied n + 1 - 1)) with (Z.to_nat (rn_last_applied n)) by lia.
  replace (Z.to_nat (rn_last_applied n + 1)) with (S (Z.to_nat (rn_last_applied n))) by lia.
  rewrite (nth_lookup_Some _ _ _ _ E), (drop_S _ _ _ E). simpl. rewrite <-app_assoc. done.
Qed.

(** When the applied entries are the first [last_applied] ones of the log,
    afterwards they are the first [commit_index] ones. *)
Lemma ApplyCommitted_spec n :
  0 <= rn_last_applied n <= rn_commit_index n → rn_commit_index n <= Zlen (rn_log n) →
  rn_applied n = take (Z.to_nat (rn_last_applied n)) (rn_log n) →
  ApplyCommittedLocked n =
  set_commit (rn_commit_index n) (rn_commit_index n) (take (Z.to_nat (rn_commit_index n)) (rn_log n)) n.
Proof.
  intros H0 Hlen Ha. unfold ApplyCommittedLocked. rewrite ApplyCommitted_loop_spec; [|lia|lia|done].
  f_equal. rewrite Ha, take_take_drop. f_equal. lia.
Qed.

(** ** Committing *)

(** [AdvanceCommitLocked] either leaves the node as it is or commits, and applies,
    up to an entry of the current term that a majority holds. *)
Lemma AdvanceCommit_loop_spec k i n :
  AdvanceCommit_loop k i n = n ∨
  ∃ idx, rn_commit_index n < idx <= i ∧ TermAtLocked n idx = rn_current_term n ∧
    MajorityLocked n <= replica_count n idx ∧
    AdvanceCommit_loop k i n = ApplyCommittedLocked (set_commit idx (rn_last_applied n) (rn_applied n) n).
Proof.
  revert i. induction k as [|k IH]; intros i; simpl; [by left|].
  destruct (Z.ltb_spec (rn_commit_index n) i) as [Hlt|]; [|by left].
  assert (AdvanceCommit_loop k (i - 1) n = n ∨
    ∃ idx, rn_commit_index n < idx <= i ∧ TermAtLocked n idx = rn_current_term n ∧
      MajorityLocked n <= replica_count n idx ∧
      AdvanceCommit_loop k (i - 1) n = ApplyCommittedLocked (set_commit idx (rn_last_applied n) (rn_applied n) n)) as Hnext.
  { destruct (IH (i - 1)) as [?|(idx & ? & ?)]; [by left|]. right. exists idx. split; [lia|done]. }
  destruct (Z.eqb_spec (TermAtLocked n i) (rn_current_term n)) as [Et|]; simpl; [|exact Hnext].
  destruct (Z.leb_spec (MajorityLocked n) (replica_count n i)); [|exact Hnext].
  right. exists i. split_and!; [lia|lia|done|done|done].
Qed.

(** ** Replicating *)

(** The entries a leader sends are the rest of its log. *)
Lemma log_slice (l : log) next :
  1 <= next <= Zlen l + 1 →
  map (λ i, nth (Z.to_nat (i - 1)) l LogEntry_default) (seqZ next (Zlen l - next + 1)) =
  drop (Z.to_nat (next - 1)) l.
Proof.
  intros Hn. apply list_eq. intros i. rewrite lookup_drop, list_lookup_fmap.
  destruct (decide (Z.of_nat i < Zlen l - next + 1)) as [Hi|Hi].
  - rewrite lookup_seqZ_lt by lia. simpl.
    replace (Z.to_nat (next + Z.of_nat i - 1)) with (Z.to_nat (next - 1) + i)%nat by lia.
    destruct (lookup_lt_is_Some_2 l (Z.to_nat (next - 1) + i)) as [e E]; [lia|].
    by rewrite E, (nth_lookup_Some _ _ _ _ E).
  - rewrite lookup_seqZ_ge by lia. by rewrite lookup_ge_None_2 by lia.
Qed.

Lemma foldl_insert_lookup (ps : list bytes) (x : Z) (m : gmap bytes Z) p :
  p ∈ ps → foldl (λ m peer, <[peer := x]> m) m ps !! p = Some x.
Proof.
  revert m. induction ps as [|q ps IH] using rev_ind; intros m Hp; [by apply not_elem_of_nil in Hp|].
  rewrite foldl_snoc. destruct (decide (p = q)) as [->|Hne]; [by rewrite lookup_insert_eq|].
  rewrite lookup_insert_ne by done. apply IH. set_solver.
Qed.
