(* ===== verification/RaftNet.v ===== *)
(** * A cluster of Raft nodes

    The nodes of RaftNode.v behind an unreliable network, as the threads of
    raft_node.cc run them: the election thread of a node goes through the phases
    of [ElectionLoop], [StartElection] and [WinVoteRound], the replication threads
    through [ReplicateTo], the RPC handlers answer, a client proposes, and a node
    can stop at any point and be started again from its storage.  A message that
    was sent may be delivered any number of times, in any order, or never. *)

From stdpp Require Import base gmap functions numbers list.
From Stdlib Require Import ZArith Lia.
From S2P Require Import Prelude Status RaftStorage RaftNode.

Local Open Scope Z_scope.

(** A reply travels with the request it answers: the caller's stack has it. *)
Inductive message :=
  | RVReq (dst : bytes) (req : RequestVoteRequest)
  | RVResp (src : bytes) (req : RequestVoteRequest) (resp : RequestVoteResponse)
  | AEReq (dst : bytes) (req : AppendEntriesRequest)
  | AEResp (src : bytes) (req : AppendEntriesRequest) (resp : AppendEntriesResponse).

(** Where the election thread is between two critical sections. *)
Inductive election_thread :=
  | et_idle                             (** in [ElectionLoop] *)
  | et_due                              (** about to run [StartElection] *)
  | et_round (pre_vote : bool) (term : Z) (req : RequestVoteRequest)
             (pending : list bytes) (votes : Z)   (** in [WinVoteRound]; the peers still to answer *)
  | et_pre_won (would_be_term : Z)      (** between the phases of [StartElection] *)
  | et_won (term : Z).                  (** before [BecomeLeaderLocked] *)

Record cluster := mkCluster {
  cl_node : bytes → RaftNode;
  cl_elect : bytes → election_thread;
  cl_net : list message;
}.

(** The term of a request that makes its handler persist a new term first. *)
Inductive carries_term (dst : bytes) (term : Z) : message → Prop :=
  | ct_vote req : rv_pre_vote req = false → rv_term req = term → carries_term dst term (RVReq dst req)
  | ct_append req : ae_term req = term → carries_term dst term (AEReq dst req).

Section net.
Variable members : list bytes.
Variable cfg : bytes → RaftConfig.

Definition vote_requests (v : bytes) (req : RequestVoteRequest) : list message :=
  map (λ p, RVReq p req) (cfg_peers (cfg v)).

(** The node [v] moves to [n], its election thread to [et], sending [msgs]. *)
Definition update (v : bytes) (n : RaftNode) (et : election_thread) (msgs : list message)
    (cl : cluster) : cluster :=
  mkCluster (<[v := n]> (cl_node cl)) (<[v := et]> (cl_elect cl)) (msgs ++ cl_net cl).

Definition initial_node (v : bytes) (now timeout : Z) : RaftNode :=
  RaftNode_new (cfg v) (mkDisk (mkHardState 0 []) [] []) now timeout.

Definition cluster_init (now timeout : bytes → Z) : cluster :=
  mkCluster (λ v, initial_node v (now v) (timeout v)) (λ _, et_idle) [].

Inductive net_step (cl : cluster) : cluster → Prop :=
  | ns_due v now :
      v ∈ members → cl_elect cl v = et_idle → election_due now (cl_node cl v) = true →
      net_step cl (update v (cl_node cl v) et_due [] cl)
  | ns_pre_vote v req :
      v ∈ members → cl_elect cl v = et_due → StartElection_pre (cl_node cl v) = Some req →
      net_step cl (update v (cl_node cl v)
        (et_round true (rv_term req) req (cfg_peers (cfg v)) 1) (vote_requests v req) cl)
  | ns_pre_vote_skip v :
      v ∈ members → cl_elect cl v = et_due → StartElection_pre (cl_node cl v) = None →
      net_step cl (update v (cl_node cl v) et_idle [] cl)
  | ns_vote_reply v p pre term req pending votes resp n' votes' :
      v ∈ members → cl_elect cl v = et_round pre term req pending votes → p ∈ pending →
      RVResp p req resp ∈ cl_net cl →
      WinVoteRound_reply pre term resp votes (cl_node cl v) = (n', votes') →
      net_step cl (update v n' (et_round pre term req (filter (.≠ p) pending) votes') [] cl)
  | ns_vote_failed v p pre term req pending votes :  (* [SendRequestVote] returns false *)
      v ∈ members → cl_elect cl v = et_round pre term req pending votes → p ∈ pending →
      net_step cl (update v (cl_node cl v) (et_round pre term req (filter (.≠ p) pending) votes) [] cl)
  | ns_round_end v pre term req votes :
      v ∈ members → cl_elect cl v = et_round pre term req [] votes →
      net_step cl (update v (cl_node cl v)
        (if WinVoteRound_result votes (cl_node cl v)
         then if pre then et_pre_won term else et_won term else et_idle) [] cl)
  | ns_begin v now timeout term n' req :
      v ∈ members → cl_elect cl v = et_pre_won term → rn_current_term (cl_node cl v) + 1 < 2 ^ 64 →
      StartElection_begin now timeout term (cl_node cl v) = Some (n', req) →
      net_step cl (update v n' (et_round false (rv_term req) req (cfg_peers (cfg v)) 1)
        (vote_requests v req) cl)
  | ns_begin_skip v now timeout term :
      v ∈ members → cl_elect cl v = et_pre_won term →
      StartElection_begin now timeout term (cl_node cl v) = None →
      net_step cl (update v (cl_node cl v) et_idle [] cl)
  | ns_win v term :
      v ∈ members → cl_elect cl v = et_won term →
      net_step cl (update v (StartElection_win term (cl_node cl v)) et_idle [] cl)
  | ns_request_vote v now timeout req n' resp :
      v ∈ members → RVReq v req ∈ cl_net cl →
      HandleRequestVote now timeout req (cl_node cl v) = (n', resp) →
      net_step cl (update v n' (cl_elect cl v) [RVResp v req resp] cl)
  | ns_append v now timeout req n' resp :
      v ∈ members → AEReq v req ∈ cl_net cl →
      HandleAppendEntries now timeout req (cl_node cl v) = (n', resp) →
      net_step cl (update v n' (cl_elect cl v) [AEResp v req resp] cl)
  | ns_replicate v p term req :
      v ∈ members → p ∈ cfg_peers (cfg v) → ReplicateTo_request p term (cl_node cl v) = Some req →
      net_step cl (update v (cl_node cl v) (cl_elect cl v) [AEReq p req] cl)
  | ns_replicate_reply v p req resp :
      v ∈ members → AEResp p req resp ∈ cl_net cl → ae_leader_id req = v →
      net_step cl (update v (ReplicateTo_reply p (ae_term req) req resp (cl_node cl v))
        (cl_elect cl v) [] cl)
  | ns_propose v command :
      v ∈ members → Zlen (rn_log (cl_node cl v)) + 2 < 2 ^ 64 →
      net_step cl (update v (Propose command (cl_node cl v)).2 (cl_elect cl v) [] cl)
  | ns_restart v now timeout :
      v ∈ members →
      net_step cl (update v (RaftNode_new (cfg v) (rn_disk (cl_node cl v)) now timeout) et_idle [] cl)
  | ns_restart_handler v now timeout term m :  (* stopped inside a handler, between its two writes *)
      v ∈ members → m ∈ cl_net cl → carries_term v term m →
      net_step cl (update v
        (RaftNode_new (cfg v) (rn_disk (StepDownIfStaleLocked term (cl_node cl v))) now timeout)
        et_idle [] cl).

Definition reachable (now timeout : bytes → Z) (cl : cluster) : Prop :=
  rtc net_step (cluster_init now timeout) cl.
End net.
