(* ===== verification/RaftRefine.v ===== *)
(** * The cluster implements Raft

    The refinement of the abstract protocol (RaftSpec.v) by the cluster of
    raft_node.cc nodes (RaftNet.v): every step of the cluster is matched by
    abstract steps that keep the two related, so the safety results of the
    protocol hold of the nodes' terms, logs and applied entries. *)

From stdpp Require Import base gmap functions numbers list.
From Stdlib Require Import ZArith Lia.
From S2P Require Import Prelude Status RaftStorage RaftNode RaftSpec RaftFacts RaftNet.

Local Open Scope Z_scope.
Local Arguments Z.of_nat : simpl never.

Implicit Types n : RaftNode.

(** ** Abstract steps of one node *)

(** From [s] to [s'] facts are only added, and only those of [v] change. *)
Record grows (v : bytes) (s s' : abs) : Prop := {
  g_cands : a_cands s ⊆ a_cands s';
  g_votes : a_votes s ⊆ a_votes s';
  g_acks : a_acks s ⊆ a_acks s';
  g_mono : lead_mono (a_lead s) (a_lead s');
  g_term : ∀ w, w ≠ v → a_term s' w = a_term s w;
  g_vote : ∀ w, w ≠ v → a_vote s' w = a_vote s w;
  g_log : ∀ w, w ≠ v → a_log s' w = a_log s w;
  g_lead : ∀ T w l, w ≠ v → a_lead s' !! T = Some (w, l) ↔ a_lead s !! T = Some (w, l);
}.

Lemma grows_refl v s : grows v s s.
Proof. split; try done. apply lead_mono_refl. Qed.

Lemma lead_mono_trans l1 l2 l3 : lead_mono l1 l2 → lead_mono l2 l3 → lead_mono l1 l3.
Proof.
  intros H1 H2 T c l E. destruct (H1 _ _ _ E) as (x & E1 & Hx). destruct (H2 _ _ _ E1) as (y & E2 & Hy).
  exists (x ++ y). rewrite app_assoc. split; [done|]. by apply Forall_app_2.
Qed.

Lemma grows_trans v s1 s2 s3 : grows v s1 s2 → grows v s2 s3 → grows v s1 s3.
Proof.
  intros H1 H2. split.
  - etrans; [apply H1|apply H2].
  - etrans; [apply H1|apply H2].
  - etrans; [apply H1|apply H2].
  - eapply lead_mono_trans; [apply H1|apply H2].
  - intros w Hw. by rewrite (g_term _ _ _ H2), (g_term _ _ _ H1).
  - intros w Hw. by rewrite (g_vote _ _ _ H2), (g_vote _ _ _ H1).
  - intros w Hw. by rewrite (g_log _ _ _ H2), (g_log _ _ _ H1).
  - intros T w l Hw. by rewrite (g_lead _ _ _ H2), (g_lead _ _ _ H1).
Qed.

Section refine.
Variable members : list bytes.
Variable cfg : bytes → RaftConfig.
Hypothesis members_nodup : NoDup members.
Hypothesis members_named : [] ∉ members.
Hypothesis cfg_id_ok : ∀ v, v ∈ members → cfg_id (cfg v) = v.
Hypothesis cfg_peers_ok : ∀ v, v ∈ members → v :: cfg_peers (cfg v) ≡ₚ members.

Notation astep := (astep members).
Notation Inv := (Inv members).
Notation committed := (committed members).
Notation quorum := (quorum members).

Definition steps (v : bytes) (s s' : abs) : Prop := rtc astep s s' ∧ grows v s s'.

Lemma steps_refl v s : steps v s s.
Proof. split; [reflexivity|apply grows_refl]. Qed.

Lemma steps_trans v s1 s2 s3 : steps v s1 s2 → steps v s2 s3 → steps v s1 s3.
Proof. intros [H1 H1'] [H2 H2']. split; [by etrans|by eapply grows_trans]. Qed.

Lemma steps_Inv v s s' : steps v s s' → Inv s → Inv s'.
Proof. intros [H _]. by apply astep_rtc_Inv. Qed.

(** Each step changes one node. *)
Lemma steps_bump s v T (H : a_term s v < T) :
  steps v s (mkAbs (<[v := T]> (a_term s)) (<[v := []]> (a_vote s)) (a_log s)
               (a_cands s) (a_votes s) (a_lead s) (a_acks s)).
Proof.
  split; [by apply rtc_once, as_bump|].
  split; simpl; try done; try apply lead_mono_refl; intros w Hw; by rewrite fn_lookup_insert_ne by congruence.
Qed.

Lemma steps_cand s v T (Hm : v ∈ members) (H : a_term s v < T) :
  steps v s (mkAbs (<[v := T]> (a_term s)) (<[v := v]> (a_vote s)) (a_log s)
               (mkCand T v (a_log s v) :: a_cands s)
               (mkVote v T v (early s T (a_log s v)) :: a_votes s) (a_lead s) (a_acks s)).
Proof.
  split; [apply rtc_once, as_cand; [done|set_solver|done]|].
  split; simpl; try done; try apply lead_mono_refl; try (intros ??; by right);
    intros w Hw; by rewrite fn_lookup_insert_ne by congruence.
Qed.

Lemma steps_vote s v T c clog :
  v ∈ members → a_term s v = T → a_vote s v = [] → mkCand T c clog ∈ a_cands s → uptodate clog (a_log s v) →
  steps v s (mkAbs (a_term s) (<[v := c]> (a_vote s)) (a_log s) (a_cands s)
               (mkVote v T c (early s T (a_log s v)) :: a_votes s) (a_lead s) (a_acks s)).
Proof.
  intros. split; [eapply rtc_once, as_vote; done|].
  split; simpl; try done; try apply lead_mono_refl; try (intros ??; by right);
    intros w Hw; by rewrite fn_lookup_insert_ne by congruence.
Qed.

Lemma steps_elect s v T clog Q :
  mkCand T v clog ∈ a_cands s → a_term s v = T → a_log s v = clog → a_lead s !! T = None →
  quorum Q → (∀ w, w ∈ Q → ∃ vl, mkVote w T v vl ∈ a_votes s) →
  steps v s (mkAbs (a_term s) (a_vote s) (a_log s) (a_cands s) (a_votes s)
               (<[T := (v, clog)]> (a_lead s)) (mkAck v T (length clog) :: a_acks s)).
Proof.
  intros Hc HT Hl HN HQ Hv. split; [eapply rtc_once, as_elect; done|].
  split; simpl; try done; try (intros ??; by right).
  - intros T' c l E. exists []. rewrite app_nil_r, lookup_insert_ne by congruence.
    by split; [|constructor].
  - intros T' w l Hw. destruct (decide (T' = T)) as [->|].
    + rewrite lookup_insert_eq, HN. split; congruence.
    + by rewrite lookup_insert_ne.
Qed.

Lemma steps_propose s v T l e :
  a_lead s !! T = Some (v, l) → a_term s v = T → a_log s v = l →
  le_term e = T → le_index e = Z.of_nat (length l) + 1 →
  steps v s (mkAbs (a_term s) (a_vote s) (<[v := l ++ [e]]> (a_log s)) (a_cands s) (a_votes s)
               (<[T := (v, l ++ [e])]> (a_lead s)) (mkAck v T (length l + 1) :: a_acks s)).
Proof.
  intros El HT Hl He Hi. split; [eapply rtc_once, as_propose; done|].
  split; simpl; try done; try (intros ??; by right).
  - intros T' c' l' E. destruct (decide (T' = T)) as [->|Hne].
    + rewrite El in E. injection E as <- <-. exists [e]. rewrite lookup_insert_eq.
      by split; [|repeat constructor].
    + exists []. rewrite app_nil_r, lookup_insert_ne by congruence. by split; [|constructor].
  - intros w Hw. by rewrite fn_lookup_insert_ne by congruence.
  - intros T' w l' Hw. destruct (decide (T' = T)) as [->|].
    + rewrite lookup_insert_eq, El. split; congruence.
    + by rewrite lookup_insert_ne.
Qed.

Lemma steps_append s v T c l prev k log' :
  a_lead s !! T = Some (c, l) → a_term s v = T → (prev + k <= length l)%nat →
  (prev <= length (a_log s v))%nat → term_at (a_log s v) prev = term_at l prev →
  (take (prev + k) l `prefix_of` a_log s v ∧ log' = a_log s v ∨
   ¬ take (prev + k) l `prefix_of` a_log s v ∧ log' = take (prev + k) l) →
  steps v s (mkAbs (a_term s) (a_vote s) (<[v := log']> (a_log s)) (a_cands s) (a_votes s)
               (a_lead s) (mkAck v T (prev + k) :: a_acks s)).
Proof.
  intros. split; [eapply rtc_once, as_append; done|].
  split; simpl; try done; try apply lead_mono_refl; try (intros ??; by right);
    intros w Hw; by rewrite fn_lookup_insert_ne by congruence.
Qed.

(** ** The relation *)

(** [p] is known to be committed by a term up to [T]. *)
Definition known (s : abs) (T : Z) (p : log) : Prop :=
  p = [] ∨ ∃ T0 m q, T0 <= T ∧ committed s T0 m q ∧ p `prefix_of` q.

Definition thread_ok (s : abs) (v : bytes) (et : election_thread) : Prop :=
  match et with
  | et_round false T req pending votes =>
      ∃ granted, NoDup (granted ++ pending) ∧ granted ++ pending ⊆ cfg_peers (cfg v) ∧
        votes = 1 + Zlen granted ∧ rv_pre_vote req = false ∧ rv_term req = T ∧ rv_candidate_id req = v ∧
        ∀ p, p = v ∨ p ∈ granted → ∃ vl, mkVote p T v vl ∈ a_votes s
  | et_won T => ∃ Q, quorum Q ∧ ∀ p, p ∈ Q → ∃ vl, mkVote p T v vl ∈ a_votes s
  | _ => True
  end.

Record NodeOk (s : abs) (v : bytes) n : Prop := {
  no_config : rn_config n = cfg v;
  no_disk : rn_disk n = mkDisk (mkHardState (rn_current_term n) (rn_voted_for n)) (rn_log n) [];
  no_term : a_term s v = rn_current_term n;
  no_vote : a_vote s v = rn_voted_for n;
  no_log : a_log s v = rn_log n;
  no_bound : rn_current_term n < 2 ^ 64 ∧ Zlen (rn_log n) + 1 < 2 ^ 64;
  no_voted : rn_voted_for n ≠ [] →
    ∃ vl, mkVote v (rn_current_term n) (rn_voted_for n) vl ∈ a_votes s;
  no_commit : 0 <= rn_commit_index n <= Zlen (rn_log n) ∧ rn_last_applied n = rn_commit_index n ∧
    rn_applied n = take (Z.to_nat (rn_commit_index n)) (rn_log n) ∧
    known s (rn_current_term n) (rn_applied n);
  no_cand : rn_role n = kCandidate →
    mkCand (rn_current_term n) v (rn_log n) ∈ a_cands s ∧
    ∀ l, a_lead s !! rn_current_term n ≠ Some (v, l);
  no_lead : rn_role n = kLeader →
    a_lead s !! rn_current_term n = Some (v, rn_log n) ∧
    mkAck v (rn_current_term n) (length (rn_log n)) ∈ a_acks s ∧
    ∀ p, p ∈ cfg_peers (cfg v) →
      (∃ nx, rn_next_index n !! p = Some nx ∧ 1 <= nx <= Zlen (rn_log n) + 1) ∧
      (∃ m, rn_match_index n !! p = Some m ∧ 0 <= m <= Zlen (rn_log n) ∧
        (m = 0 ∨ ∃ k, mkAck p (rn_current_term n) k ∈ a_acks s ∧ m <= Z.of_nat k));
}.

(** An AppendEntries request holds what the leader's log [l] was when it was sent. *)
Definition ae_ok (s : abs) (req : AppendEntriesRequest) : Prop :=
  ae_term req < 2 ^ 64 ∧
  ∃ ll l prev, a_lead s !! ae_term req = Some (ae_leader_id req, ll) ∧ l `prefix_of` ll ∧
    (prev <= length l)%nat ∧ ae_prev_log_index req = Z.of_nat prev ∧
    ae_prev_log_term req = term_at l prev ∧ ae_entries req = drop prev l ∧
    0 <= ae_leader_commit req <= Zlen l ∧ Zlen l + 1 < 2 ^ 64 ∧
    known s (ae_term req) (take (Z.to_nat (ae_leader_commit req)) l).

Definition msg_ok (s : abs) (m : message) : Prop :=
  match m with
  | RVReq dst req =>
      rv_pre_vote req = false →
      rv_term req < 2 ^ 64 ∧
      ∃ clog, mkCand (rv_term req) (rv_candidate_id req) clog ∈ a_cands s ∧
        rv_last_log_index req = Zlen clog ∧ rv_last_log_term req = last_term clog
  | RVResp src req resp =>
      rvr_term resp < 2 ^ 64 ∧
      (rv_pre_vote req = false → rvr_vote_granted resp = true →
       ∃ vl, mkVote src (rv_term req) (rv_candidate_id req) vl ∈ a_votes s)
  | AEReq dst req => ae_ok s req
  | AEResp src req resp =>
      ae_ok s req ∧ aer_term resp < 2 ^ 64 ∧ 0 <= aer_conflict_index resp <= ae_prev_log_index req ∧
      (aer_success resp = true →
       ∃ k, mkAck src (ae_term req) k ∈ a_acks s ∧
         Z.of_nat k = ae_prev_log_index req + Zlen (ae_entries req))
  end.

Record Related (cl : cluster) (s : abs) : Prop := {
  r_inv : Inv s;
  r_nodes : ∀ v, v ∈ members → NodeOk s v (cl_node cl v);
  r_threads : ∀ v, v ∈ members → thread_ok s v (cl_elect cl v);
  r_net : ∀ m, m ∈ cl_net cl → msg_ok s m;
}.

(** ** Stability *)

Lemma committed_grows v s s' T m p : grows v s s' → committed s T m p → committed s' T m p.
Proof.
  intros HG (c & l & Q & El & Hm & Ht & HQ & Ha & ->).
  destruct (g_mono _ _ _ HG _ _ _ El) as (x & El' & _). exists c, (l ++ x), Q.
  split_and!; [done|lia|rewrite length_app; lia| |done| |].
  - rewrite <-Ht. destruct m as [|m]; [done|]. simpl. by rewrite lookup_app_l by lia.
  - intros w Hw. destruct (Ha w Hw) as (k & Hk & ?). exists k. split; [by apply (g_acks _ _ _ HG)|done].
  - by rewrite take_app_le by lia.
Qed.

Lemma known_grows v s s' T T' p : grows v s s' → T <= T' → known s T p → known s' T' p.
Proof.
  intros HG HT [?|(T0 & m & q & ? & Hc & ?)]; [by left|]. right. exists T0, m, q.
  split_and!; [lia|by eapply committed_grows|done].
Qed.

Lemma thread_ok_grows v s s' w et : grows v s s' → thread_ok s w et → thread_ok s' w et.
Proof.
  intros HG. destruct et as [| |[] T req pending votes| |T]; simpl; try done.
  - intros (g & H1 & H2 & H3 & H4 & H5 & H6 & Hv). exists g. split_and!; try done.
    intros p Hp. destruct (Hv p Hp) as (vl & ?). exists vl. by apply (g_votes _ _ _ HG).
  - intros (Q & HQ & Hv). exists Q. split; [done|]. intros p Hp. destruct (Hv p Hp) as (vl & ?).
    exists vl. by apply (g_votes _ _ _ HG).
Qed.

Lemma NodeOk_grows v s s' w n : grows v s s' → w ≠ v → NodeOk s w n → NodeOk s' w n.
Proof.
  intros HG Hw HN. split; try apply HN.
  - rewrite (g_term _ _ _ HG) by done. apply HN.
  - rewrite (g_vote _ _ _ HG) by done. apply HN.
  - rewrite (g_log _ _ _ HG) by done. apply HN.
  - intros Hv. destruct (no_voted _ _ _ HN Hv) as (vl & ?). exists vl. by apply (g_votes _ _ _ HG).
  - destruct (no_commit _ _ _ HN) as (? & ? & ? & ?). split_and!; try done; try lia.
    by eapply known_grows.
  - intros Hr. destruct (no_cand _ _ _ HN Hr) as (? & Hl). split; [by apply (g_cands _ _ _ HG)|].
    intros l. rewrite (g_lead _ _ _ HG) by done. apply Hl.
  - intros Hr. destruct (no_lead _ _ _ HN Hr) as (Hl & Ha & Hp).
    split; [by apply (g_lead _ _ _ HG)|]. split; [by apply (g_acks _ _ _ HG)|].
    intros p Hin. destruct (Hp p Hin) as (? & m & ? & ? & Hm). split; [done|].
    exists m. split; [done|]. split; [done|]. destruct Hm as [?|(k & ? & ?)]; [by left|right].
    exists k. split; [by apply (g_acks _ _ _ HG)|done].
Qed.

Lemma ae_ok_grows v s s' req : grows v s s' → ae_ok s req → ae_ok s' req.
Proof.
  intros HG (Hb & ll & l & prev & El & Hp & H1 & H2 & H3 & H4 & H5 & H6 & Hk). split; [done|].
  destruct (g_mono _ _ _ HG _ _ _ El) as (x & El' & _). exists (ll ++ x), l, prev.
  split; [done|]. split; [by apply prefix_app_r|]. do 6 (split; [done|]). eapply known_grows; [done|reflexivity|done].
Qed.

Lemma msg_ok_grows v s s' m : grows v s s' → msg_ok s m → msg_ok s' m.
Proof.
  intros HG. destruct m as [dst req|src req resp|dst req|src req resp]; simpl.
  - intros H Hp. destruct (H Hp) as (? & clog & ? & ?). split; [done|]. exists clog.
    split; [by apply (g_cands _ _ _ HG)|done].
  - intros [? H]. split; [done|]. intros Hp Hg. destruct (H Hp Hg) as (vl & ?). exists vl.
    by apply (g_votes _ _ _ HG).
  - by eapply ae_ok_grows.
  - intros (? & ? & ? & H). split; [by eapply ae_ok_grows|]. split; [done|]. split; [done|].
    intros Hs. destruct (H Hs) as (k & ? & ?). exists k. split; [by apply (g_acks _ _ _ HG)|done].
Qed.

(** What is left to show for a step of node [v]. *)
Lemma Related_update cl s s' v n et msgs :
  Related cl s → v ∈ members → steps v s s' → NodeOk s' v n → thread_ok s' v et →
  (∀ m, m ∈ msgs → msg_ok s' m) → Related (update v n et msgs cl) s'.
Proof.
  intros HR Hv Hs Hn Het Hmsgs. pose proof (proj2 Hs) as HG. split; simpl.
  - eapply steps_Inv; [done|apply HR].
  - intros w Hw. destruct (decide (w = v)) as [->|Hne]; [by rewrite fn_lookup_insert|].
    rewrite fn_lookup_insert_ne by congruence. eapply NodeOk_grows; [done|done|by apply HR].
  - intros w Hw. destruct (decide (w = v)) as [->|Hne]; [by rewrite fn_lookup_insert|].
    rewrite fn_lookup_insert_ne by congruence. eapply thread_ok_grows; [done|by apply HR].
  - intros m [?|?]%elem_of_app; [by apply Hmsgs|]. eapply msg_ok_grows; [done|by apply HR].
Qed.

(** ** The node's operations *)

Lemma disk_write_ok hs l d : dk_outcomes d = [] → disk_write hs l d = mkDisk hs l [].
Proof. intros E. unfold disk_write. by rewrite E. Qed.

Lemma NodeOk_indexed s v n : Inv s → NodeOk s v n → indexed (rn_log n).
Proof.
  intros HI HN i e E. rewrite <-(no_log _ _ _ HN) in E.
  destruct (inv_node_log _ _ HI v) as [Hm _]. by destruct (matching_index _ _ _ _ _ HI Hm E).
Qed.

Lemma NodeOk_term_nonneg s v n : Inv s → NodeOk s v n → 0 <= rn_current_term n.
Proof. intros HI HN. rewrite <-(no_term _ _ _ HN). apply (inv_term _ _ HI). Qed.

(** Fields the relation does not mention. *)
Lemma NodeOk_timer s v n a c t : NodeOk s v n → NodeOk s v (set_timer a c t n).
Proof. intros []. by split. Qed.

Lemma NodeOk_leader_id s v n id : NodeOk s v n → NodeOk s v (set_leader_id id n).
Proof. intros []. by split. Qed.

Lemma NodeOk_follower s v n : NodeOk s v n → NodeOk s v (set_role kFollower n).
Proof. intros []. by split. Qed.

Lemma StepDown_fields T n :
  rn_current_term (StepDownIfStaleLocked T n) = Z.max (rn_current_term n) T ∧
  rn_log (StepDownIfStaleLocked T n) = rn_log n.
Proof.
  unfold StepDownIfStaleLocked. destruct (Z.ltb_spec (rn_current_term n) T); simpl; split; (done || lia).
Qed.

Lemma sim_stepdown s v n T :
  NodeOk s v n → T < 2 ^ 64 →
  ∃ s', steps v s s' ∧ NodeOk s' v (StepDownIfStaleLocked T n).
Proof.
  intros HN Hb. unfold StepDownIfStaleLocked.
  destruct (Z.ltb_spec (rn_current_term n) T) as [Hlt|]; [|exists s; split; [apply steps_refl|done]].
  eexists. split; [apply (steps_bump s v T); by rewrite (no_term _ _ _ HN)|].
  split; simpl; rewrite ?fn_lookup_insert; try done; try apply HN.
  - by rewrite (no_disk _ _ _ HN).
  - destruct (no_bound _ _ _ HN). lia.
  - destruct (no_commit _ _ _ HN) as (? & ? & ? & Hk). split_and!; try done; try lia.
    destruct Hk as [?|(T0 & m & q & ? & ? & ?)]; [by left|]. right. exists T0, m, q. split_and!; (done || lia).
Qed.

(** *** Votes *)

Lemma up_to_date_uptodate s v n req clog :
  Inv s → NodeOk s v n → rv_last_log_index req = Zlen clog → rv_last_log_term req = last_term clog →
  up_to_date req n = true → uptodate clog (a_log s v).
Proof.
  intros HI HN Ei Et Hup. unfold up_to_date in Hup.
  rewrite (LastLogIndex_length n) in Hup by by eapply NodeOk_indexed.
  rewrite Ei, Et, LastLogTerm_last_term in Hup. rewrite (no_log _ _ _ HN). unfold uptodate.
  destruct (Z.ltb_spec (last_term (rn_log n)) (last_term clog)) as [|]; [by left|]. simpl in Hup.
  destruct (Z.eqb_spec (last_term clog) (last_term (rn_log n))) as [|]; [|done]. simpl in Hup.
  right. split; [done|]. destruct (Z.leb_spec (Zlen (rn_log n)) (Zlen clog)); [lia|done].
Qed.

Lemma sim_request_vote s v n now timeout req n' resp :
  Inv s → NodeOk s v n → v ∈ members → msg_ok s (RVReq v req) →
  HandleRequestVote now timeout req n = (n', resp) →
  ∃ s', steps v s s' ∧ NodeOk s' v n' ∧ msg_ok s' (RVResp v req resp).
Proof.
  intros HI HN Hv Hm. unfold HandleRequestVote. destruct (rv_pre_vote req) eqn:Epre.
  { intros [= <- <-]. exists s. split; [apply steps_refl|]. split; [done|]. simpl.
    rewrite Epre. split; [apply HN|done]. }
  destruct (Hm Epre) as (Hb & clog & Hc & Ei & Et).
  destruct (sim_stepdown s v n (rv_term req) HN Hb) as (s1 & Hs1 & HN1).
  pose proof (steps_Inv _ _ _ Hs1 HI) as HI1. apply (g_cands _ _ _ (proj2 Hs1)) in Hc.
  set (n1 := StepDownIfStaleLocked (rv_term req) n) in *. clearbody n1.
  destruct ((rv_term req =? rn_current_term n1) && _ && _) eqn:Egrant; cycle 1.
  { intros [= <- <-]. exists s1. split; [done|]. split; [done|]. simpl. split; [apply HN1|done]. }
  apply andb_true_iff in Egrant as [[Eterm Evote]%andb_true_iff Eup].
  apply Z.eqb_eq in Eterm. intros [= <- <-]. simpl.
  destruct (decide (rn_voted_for n1 = [])) as [Enone|Esome].
  - assert (uptodate clog (a_log s1 v)) as Hup by (by eapply up_to_date_uptodate).
    eexists. split; [eapply steps_trans; [done|]; eapply (steps_vote s1 v (rv_term req) (rv_candidate_id req) clog)|].
    + done.
    + rewrite Eterm. apply HN1.
    + by rewrite (no_vote _ _ _ HN1).
    + done.
    + done.
    + split.
      * apply NodeOk_timer. split; simpl; rewrite ?fn_lookup_insert; try done; try apply HN1.
        -- by rewrite (no_disk _ _ _ HN1).
        -- intros _. rewrite <-Eterm. eexists. by left.
      * simpl. split; [apply HN1|]. intros _ _. eexists. by left.
  - rewrite bool_decide_eq_false_2 in Evote by done. simpl in Evote. apply bool_decide_eq_true in Evote.
    destruct (no_voted _ _ _ HN1 Esome) as (vl & Hvl). rewrite Evote in Hvl.
    exists s1. split; [done|]. split.
    + apply NodeOk_timer. split; simpl; try apply HN1.
      * by rewrite (no_disk _ _ _ HN1).
      * rewrite <-Evote. apply HN1.
      * intros _. by exists vl.
    + split; [apply HN1|]. intros _ _. exists vl. by rewrite Eterm.
Qed.

(** *** Log entries *)

Lemma known_lead s T p c l :
  Inv s → known s T p → a_lead s !! T = Some (c, l) → p `prefix_of` l.
Proof.
  intros HI [->|(T0 & m & q & HT & Hc & Hp)] El; [apply prefix_nil|].
  etrans; [exact Hp|]. by eapply leader_complete.
Qed.

Lemma merge_lead s L l es prev :
  Inv s → matching (a_lead s) L → matching (a_lead s) l → es = drop prev l →
  (prev <= length L)%nat → (prev <= length l)%nat → take prev L = take prev l →
  l `prefix_of` L ∧ merge prev es L = L ∨ ¬ l `prefix_of` L ∧ merge prev es L = l.
Proof.
  intros HI HL Hl. revert prev. induction es as [|e es IH]; intros prev Ees HpL Hpl Et; simpl.
  { left. split; [|done]. symmetry in Ees. apply drop_nil_inv in Ees.
    rewrite <-(take_ge l prev) by lia. rewrite <-Et. apply prefix_take. }
  assert (l !! prev = Some e ∧ drop (S prev) l = es) as [El Ees'].
  { destruct (lookup_lt_is_Some_2 l prev) as [x Ex].
    { apply (f_equal length) in Ees. rewrite length_drop in Ees. simpl in Ees. lia. }
    rewrite (drop_S _ _ _ Ex) in Ees. injection Ees as -> ->. done. }
  pose proof (lookup_lt_Some _ _ _ El) as Hlt.
  destruct (L !! prev) as [x|] eqn:Ex.
  - pose proof (lookup_lt_Some _ _ _ Ex).
    destruct (Z.eqb_spec (le_term x) (le_term e)) as [Eq|Hne].
    + apply IH; [done|lia|lia|].
      eapply matching_agree; [done..|lia|lia|]. simpl. by rewrite Ex, El.
    + right. split.
      * intros Hp. apply Hne. f_equal.
        pose proof (prefix_lookup_Some _ _ _ _ El Hp). congruence.
      * rewrite Et, Ees. apply take_drop.
  - apply lookup_ge_None in Ex. right. split.
    + intros Hp%prefix_length. lia.
    + rewrite <-(take_ge L prev) by lia. rewrite Et, Ees. apply take_drop.
Qed.

(** A prefix that is committed by the time of [T] stays when the log follows the
    leader of [T]. *)
Lemma known_kept s T p c ll l L log' :
  Inv s → known s T p → a_lead s !! T = Some (c, ll) → l `prefix_of` ll → p `prefix_of` L →
  (l `prefix_of` L ∧ log' = L ∨ ¬ l `prefix_of` L ∧ log' = l) → p `prefix_of` log'.
Proof.
  intros HI Hk El Hl Hp [[_ ->]|[Hn ->]]; [done|].
  pose proof (known_lead _ _ _ _ _ HI Hk El) as Hpl.
  destruct (prefix_weak_total _ _ _ Hpl Hl) as [?|Hb]; [done|]. destruct Hn. by etrans.
Qed.

Lemma NodeOk_apply s v n c :
  NodeOk s v n → rn_commit_index n <= c <= Zlen (rn_log n) →
  known s (rn_current_term n) (take (Z.to_nat c) (rn_log n)) →
  NodeOk s v (ApplyCommittedLocked (set_commit c (rn_last_applied n) (rn_applied n) n)).
Proof.
  intros HN Hc Hk. destruct (no_commit _ _ _ HN) as (? & Hla & Happ & _).
  rewrite ApplyCommitted_spec; simpl; [|lia|lia|by rewrite Hla].
  split; simpl; try apply HN. split_and!; (done || lia).
Qed.

Lemma take_of_prefix (l l' : log) k : l `prefix_of` l' → (k <= length l)%nat → take k l' = take k l.
Proof. intros [x ->] Hk. by rewrite take_app_le. Qed.

(** The part of [HandleAppendEntries] after the consistency check. *)
Lemma sim_append_entries s v n req :
  Inv s → NodeOk s v n → ae_ok s req → rn_current_term n = ae_term req → rn_role n = kFollower →
  ae_prev_log_index req <= Zlen (rn_log n) →
  (0 < ae_prev_log_index req → TermAtLocked n (ae_prev_log_index req) = ae_prev_log_term req) →
  ∃ s' n1 changed, foldl append_entry (n, false) (ae_entries req) = (n1, changed) ∧
    steps v s s' ∧ rn_current_term n1 = rn_current_term n ∧
    NodeOk s' v (if changed : bool then RewriteLog (rn_log n1) n1 else n1) ∧
    0 <= ae_leader_commit req <= Zlen (rn_log n1) ∧
    known s' (ae_term req) (take (Z.to_nat (ae_leader_commit req)) (rn_log n1)) ∧
    ∃ k, mkAck v (ae_term req) k ∈ a_acks s' ∧
      Z.of_nat k = ae_prev_log_index req + Zlen (ae_entries req).
Proof.
  intros HI HN (Hb & ll & l & prev & El & Hl & Hprev & Epi & Ept & Ees & Hlc & Hlen & Hk) HT Hrole Hpi Hpt.
  destruct (inv_lead _ _ HI _ _ _ El) as (_ & _ & Hmat & _ & Hidx).
  pose proof (matching_prefix _ _ _ Hmat Hl) as Hml.
  destruct (inv_node_log _ _ HI v) as [HmL _]. rewrite (no_log _ _ _ HN) in HmL.
  assert (term_at (rn_log n) prev = term_at l prev) as Eterm.
  { destruct prev as [|prev]; [done|]. rewrite <-Ept, <-TermAt_term_at, <-Epi. apply Hpt. lia. }
  assert (take prev (rn_log n) = take prev l) as Etake.
  { eapply matching_agree; [done..|lia|lia|done]. }
  pose proof (merge_lead s (rn_log n) l _ prev HI HmL Hml eq_refl ltac:(lia) Hprev Etake) as Hmerge.
  assert (indexed l) as Hil by (eapply indexed_prefix; [exact Hl|exact Hidx]).
  assert (Zlen (rn_log n) < 2 ^ 64) as Hbd by (destruct (no_bound _ _ _ HN); lia).
  pose proof (append_entries_merge (ae_entries req) n false prev ltac:(lia) Hbd
    (NodeOk_indexed _ _ _ HI HN)) as Hfold.
  rewrite Ees, Etake, take_drop in Hfold. specialize (Hfold Hil). simpl orb in Hfold.
  set (log' := merge prev (drop prev l) (rn_log n)) in *.
  assert (l `prefix_of` log') as Hnew by (by destruct Hmerge as [[? ->]|[_ ->]]).
  assert (length l = prev + length (drop prev l))%nat as Elen by (rewrite length_drop; lia).
  assert (take (prev + length (drop prev l)) ll = l) as Etl.
  { rewrite <-Elen, (take_of_prefix l ll) by (done || lia). by apply take_ge. }
  destruct (no_commit _ _ _ HN) as (Hc1 & Hc2 & Hc3 & Hc4).
  assert (rn_applied n `prefix_of` log') as Happ.
  { pose proof Hc4 as Hc5. rewrite HT in Hc5. eapply known_kept; [done|exact Hc5|exact El|exact Hl| |exact Hmerge].
    rewrite Hc3. apply prefix_take. }
  assert (length (rn_applied n) = Z.to_nat (rn_commit_index n)) as Hla.
  { rewrite Hc3, length_take. lia. }
  assert (steps v s (mkAbs (a_term s) (a_vote s) (<[v := log']> (a_log s)) (a_cands s) (a_votes s)
            (a_lead s) (mkAck v (ae_term req) (prev + length (drop prev l)) :: a_acks s))) as Hst.
  { eapply steps_append; [exact El|rewrite (no_term _ _ _ HN); done|rewrite <-Elen; by apply prefix_length| | |].
    - rewrite (no_log _ _ _ HN). lia.
    - rewrite (no_log _ _ _ HN), Eterm. destruct prev as [|prev]; [done|]. simpl.
      destruct Hl as [x ->]. by rewrite lookup_app_l by lia.
    - rewrite Etl, (no_log _ _ _ HN). exact Hmerge. }
  eexists _, _, _. split; [rewrite Ees; exact Hfold|]. split; [exact Hst|].
  split; [done|]. split; [|split; [|split]]; simpl.
  - assert (Zlen log' + 1 < 2 ^ 64) as Hlog'.
    { destruct Hmerge as [[_ ->]|[_ ->]]; [apply HN|done]. }
    assert (NodeOk (mkAbs (a_term s) (a_vote s) (<[v := log']> (a_log s)) (a_cands s) (a_votes s)
      (a_lead s) (mkAck v (ae_term req) (prev + length (drop prev l)) :: a_acks s)) v
      (set_disk (mkDisk (mkHardState (rn_current_term n) (rn_voted_for n)) log' []) (set_log log' n))) as Hok.
    { split; simpl; rewrite ?fn_lookup_insert; try apply HN; try done; try congruence.
      - split; [apply HN|done].
      - pose proof (prefix_length _ _ Happ). split_and!; [lia|lia|done| |].
        + rewrite <-Hla. by rewrite (take_of_prefix (rn_applied n) log'), take_ge by (done || lia).
        + eapply known_grows; [apply Hst|reflexivity|done]. }
    destruct (merge_changes prev (drop prev l) (rn_log n)) eqn:Ech.
    + unfold RewriteLog. simpl. by rewrite (no_disk _ _ _ HN).
    + assert (log' = rn_log n) as Esame by (by apply merge_unchanged).
      replace (set_log log' n) with (set_disk (mkDisk (mkHardState (rn_current_term n) (rn_voted_for n)) log' []) (set_log log' n)); [done|].
      rewrite Esame, <-(no_disk _ _ _ HN). done.
  - apply prefix_length in Hnew. lia.
  - rewrite (take_of_prefix l log') by (done || lia). eapply known_grows; [apply Hst|reflexivity|done].
  - eexists. split; [by left|]. rewrite Epi, Ees. lia.
Qed.

Lemma sim_append s v n now timeout req n' resp :
  Inv s → NodeOk s v n → ae_ok s req → HandleAppendEntries now timeout req n = (n', resp) →
  ∃ s', steps v s s' ∧ NodeOk s' v n' ∧ msg_ok s' (AEResp v req resp).
Proof.
  intros HI HN Hreq. pose proof Hreq as (Hb & ll & l & prev & _ & _ & Hprev & Epi & _ & _ & _ & Hlen & _).
  unfold HandleAppendEntries. destruct (Z.ltb_spec (ae_term req) (rn_current_term n)) as [Hlt|Hge].
  { intros [= <- <-]. exists s. split; [apply steps_refl|]. split; [done|]. simpl.
    split_and!; [done|apply HN|lia|lia|done]. }
  destruct (sim_stepdown s v n (ae_term req) HN Hb) as (s1 & Hs1 & HN1).
  pose proof (steps_Inv _ _ _ Hs1 HI) as HI1. apply (ae_ok_grows _ _ _ _ (proj2 Hs1)) in Hreq.
  pose proof (NodeOk_timer _ _ _ now now timeout
    (NodeOk_leader_id _ _ _ (ae_leader_id req) (NodeOk_follower _ _ _ HN1))) as HN2.
  pose proof (proj1 (StepDown_fields (ae_term req) n)) as HT.
  set (n2 := set_timer now now timeout _) in *.
  assert (rn_current_term n2 = ae_term req) as HT2 by (simpl; lia).
  assert (rn_role n2 = kFollower) as Hrole by done. clearbody n2. clear HT.
  rewrite (LastLogIndex_length n2) by (by eapply NodeOk_indexed).
  destruct (Z.ltb_spec (Zlen (rn_log n2)) (ae_prev_log_index req)) as [Hshort|Hlong].
  { intros [= <- <-]. exists s1. split; [done|]. split; [done|]. simpl.
    unfold u64. rewrite Z.mod_small by lia. split_and!; [done|apply HN2|lia|lia|done]. }
  destruct ((0 <? ae_prev_log_index req) && negb _) eqn:Ecf.
  { intros [= <- <-]. exists s1. split; [done|]. split; [done|]. simpl.
    split_and!; [done|apply HN2|lia|lia|done]. }
  destruct (sim_append_entries s1 v n2 req HI1 HN2 Hreq HT2 Hrole Hlong)
    as (s2 & n3 & changed & -> & Hs2 & HT3 & HN3 & Hlc & Hk & Hack).
  { intros Hpos. destruct (Z.ltb_spec 0 (ae_prev_log_index req)); [|lia]. simpl in Ecf.
    apply negb_false_iff, Z.eqb_eq in Ecf. done. }
  pose proof (steps_trans _ _ _ _ Hs1 Hs2) as Hs. pose proof (steps_Inv _ _ _ Hs2 HI1) as HI2.
  assert (rn_log (if changed then RewriteLog (rn_log n3) n3 else n3) = rn_log n3 ∧
          rn_current_term (if changed then RewriteLog (rn_log n3) n3 else n3) = ae_term req) as [Elog Et]
    by (destruct changed; simpl; split; congruence).
  set (n4 := if changed then RewriteLog (rn_log n3) n3 else n3) in *. clearbody n4.
  assert (msg_ok s2 (AEResp v req (mkAppendEntriesResponse (ae_term req) true 0))) as Hmsg.
  { simpl. split_and!; [by eapply ae_ok_grows; [apply Hs2|]|done|lia|lia|done]. }
  rewrite (LastLogIndex_length n4) by (by eapply NodeOk_indexed). rewrite Elog.
  destruct (Z.ltb_spec (rn_commit_index n4) (ae_leader_commit req)) as [Hc|Hc].
  - rewrite Z.min_l by lia. intros [= <- <-]. exists s2. split; [done|].
    assert (NodeOk s2 v (ApplyCommittedLocked
      (set_commit (ae_leader_commit req) (rn_last_applied n4) (rn_applied n4) n4))) as HN5.
    { apply NodeOk_apply; [done|rewrite Elog; lia|]. by rewrite Et, Elog. }
    split; [exact HN5|]. rewrite <-(no_term _ _ _ HN5), (no_term _ _ _ HN3), Et. done.
  - intros [= <- <-]. exists s2. split; [done|]. split; [done|]. by rewrite Et.
Qed.

(** *** Leaders *)

Lemma peers_facts v :
  v ∈ members → NoDup (cfg_peers (cfg v)) ∧ v ∉ cfg_peers (cfg v) ∧ cfg_peers (cfg v) ⊆ members ∧
  length members = S (length (cfg_peers (cfg v))).
Proof.
  intros Hv. pose proof (cfg_peers_ok v Hv) as Hp.
  pose proof members_nodup as Hnd. rewrite <-Hp in Hnd. apply NoDup_cons in Hnd as [? ?].
  split_and!; [done|done| |by rewrite <-Hp]. intros p Hin. rewrite <-Hp. by right.
Qed.

Lemma quorum_majority n v P :
  v ∈ members → rn_config n = cfg v → NoDup P → P ⊆ cfg_peers (cfg v) →
  MajorityLocked n <= 1 + Zlen P → quorum (v :: P).
Proof.
  intros Hv Ec Hnd Hsub Hmaj. destruct (peers_facts v Hv) as (? & Hvp & ? & Elen).
  unfold MajorityLocked in Hmaj. rewrite Ec in Hmaj.
  pose proof (Z.div_mod (Zlen (cfg_peers (cfg v)) + 1) 2 ltac:(lia)) as Hdm.
  pose proof (Z.mod_pos_bound (Zlen (cfg_peers (cfg v)) + 1) 2 ltac:(lia)).
  split; [constructor; [set_solver|done]|]. split; [set_solver|]. rewrite Elen. simpl. lia.
Qed.

Lemma NodeOk_advance s v n :
  Inv s → NodeOk s v n → v ∈ members → rn_role n = kLeader → NodeOk s v (AdvanceCommitLocked n).
Proof.
  intros HI HN Hv Hr. unfold AdvanceCommitLocked.
  pose proof (LastLogIndex_length n (NodeOk_indexed _ _ _ HI HN)) as Elast.
  destruct (AdvanceCommit_loop_spec (Z.to_nat (LastLogIndexLocked n - rn_commit_index n)) (LastLogIndexLocked n) n)
    as [->|(idx & Hidx & Hterm & Hmaj & ->)]; [done|].
  destruct (no_commit _ _ _ HN) as (Hc & _). destruct (no_lead _ _ _ HN Hr) as (El & Hack & Hpeers).
  apply NodeOk_apply; [done|lia|]. right.
  exists (rn_current_term n), (Z.to_nat idx), (take (Z.to_nat idx) (rn_log n)).
  split; [lia|]. split; [|done].
  set (P := filter (λ peer, peer_has n idx peer = true) (cfg_peers (cfg v))).
  exists v, (rn_log n), (v :: P). split_and!; [done|lia|lia| | | |done].
  - rewrite <-TermAt_term_at, Z2Nat.id by lia. done.
  - eapply quorum_majority; [done|apply HN| | |].
    + apply NoDup_filter. by apply peers_facts.
    + intros p Hp. by apply list_elem_of_filter in Hp as [_ ?].
    + unfold replica_count in Hmaj. by rewrite (no_config _ _ _ HN) in Hmaj.
  - intros w [->|Hw]%elem_of_cons; [exists (length (rn_log n)); split; [done|lia]|].
    apply list_elem_of_filter in Hw as [Hhas Hw]. destruct (Hpeers w Hw) as (_ & m & Em & Hm & Hk).
    unfold peer_has in Hhas. rewrite Em in Hhas. apply Z.leb_le in Hhas.
    destruct Hk as [?|(k & Hk & ?)]; [lia|]. exists k. split; [done|lia].
Qed.

Lemma sim_propose s v n command :
  Inv s → NodeOk s v n → v ∈ members → Zlen (rn_log n) + 2 < 2 ^ 64 →
  ∃ s', steps v s s' ∧ NodeOk s' v (Propose command n).2.
Proof.
  intros HI HN Hv Hb. unfold Propose. destruct (bool_decide (rn_role n = kLeader)) eqn:Er; simpl;
    [|exists s; split; [apply steps_refl|done]].
  apply bool_decide_eq_true in Er. destruct (no_lead _ _ _ HN Er) as (El & Hack & Hpeers).
  rewrite (LastLogIndex_length n) by (by eapply NodeOk_indexed).
  unfold u64. rewrite Z.mod_small by lia. set (e := mkLogEntry _ _ _).
  assert (Hst := steps_propose s v (rn_current_term n) (rn_log n) e El
    (no_term _ _ _ HN) (no_log _ _ _ HN) eq_refl eq_refl).
  eexists. split; [exact Hst|]. apply NodeOk_advance; [by eapply steps_Inv| |done|done].
  destruct (no_commit _ _ _ HN) as (? & ? & Happ & Hk).
  split; simpl; rewrite ?fn_lookup_insert; try apply HN; try done.
  - by rewrite (no_disk _ _ _ HN).
  - split; [apply HN|]. rewrite length_app. simpl. lia.
  - rewrite length_app. split_and!; [lia|lia|done| |].
    + rewrite take_app_le by lia. done.
    + eapply known_grows; [apply Hst|reflexivity|done].
  - by rewrite Er.
  - intros _. rewrite lookup_insert_eq, length_app. split; [done|]. split; [by left|].
    intros p Hp. destruct (Hpeers p Hp) as ((nx & Enx & ?) & m & Em & ? & Hm). split.
    + exists nx. split; [done|]. simpl. lia.
    + exists m. split; [done|]. split; [simpl; lia|]. destruct Hm as [?|(k & ? & ?)]; [by left|].
      right. exists k. split; [by right|done].
Qed.

Lemma sim_replicate s v n p term req :
  Inv s → NodeOk s v n → v ∈ members → p ∈ cfg_peers (cfg v) →
  ReplicateTo_request p term n = Some req → ae_ok s req.
Proof.
  intros HI HN Hv Hp. unfold ReplicateTo_request.
  destruct (bool_decide (rn_role n = kLeader)) eqn:Er; [|done]. apply bool_decide_eq_true in Er.
  destruct (Z.eqb_spec (rn_current_term n) term) as [<-|]; [|done]. simpl.
  destruct (no_lead _ _ _ HN Er) as (El & _ & Hpeers).
  destruct (Hpeers p Hp) as ((nx & Enx & Hnx) & _). rewrite Enx.
  destruct (no_bound _ _ _ HN) as [? ?]. destruct (no_commit _ _ _ HN) as (? & _ & Happ & Hk).
  rewrite (LastLogIndex_length n) by (by eapply NodeOk_indexed).
  unfold u64. rewrite Z.mod_small by lia. rewrite (log_slice (rn_log n) nx) by lia.
  intros [= <-]. split; [done|]. simpl.
  exists (rn_log n), (rn_log n), (Z.to_nat (nx - 1)). rewrite (no_config _ _ _ HN), (cfg_id_ok v Hv).
  split; [done|]. split; [done|]. split_and!; try done; try lia.
  - rewrite <-TermAt_term_at, Z2Nat.id by lia. done.
  - by rewrite <-Happ.
Qed.

Lemma sim_replicate_reply s v n p req resp :
  Inv s → NodeOk s v n → v ∈ members → ae_leader_id req = v → msg_ok s (AEResp p req resp) →
  ∃ s', steps v s s' ∧ NodeOk s' v (ReplicateTo_reply p (ae_term req) req resp n).
Proof.
  intros HI HN Hv Hid (Hreq & Hb & Hcf & Hack). unfold ReplicateTo_reply.
  destruct (Z.eqb_spec (rn_current_term n) (ae_term req)) as [ET|]; cbn [negb orb];
    [|exists s; split; [apply steps_refl|done]].
  destruct (bool_decide (rn_role n = kLeader)) eqn:Er; cbn [negb orb];
    [|exists s; split; [apply steps_refl|done]].
  apply bool_decide_eq_true in Er.
  destruct (Z.ltb_spec (rn_current_term n) (aer_term resp)); [by apply sim_stepdown|].
  exists s. split; [apply steps_refl|].
  destruct Hreq as (_ & ll & l & prev & El & Hl & Hprev & Epi & _ & Ees & _ & Hlen & _).
  destruct (no_lead _ _ _ HN Er) as (El' & Hself & Hpeers). rewrite ET, El, Hid in El'.
  injection El' as ->. apply prefix_length in Hl. destruct (no_bound _ _ _ HN) as [_ Hbl].
  destruct (aer_success resp) eqn:Esucc.
  - destruct (Hack eq_refl) as (k & Hk & Ek).
    assert (Z.of_nat k = Zlen l) as Ekl by (rewrite Ek, Epi, Ees, length_drop; lia).
    unfold u64 at 2 3. rewrite !(Z.mod_small (ae_prev_log_index req + _)) by lia.
    apply NodeOk_advance; [done| |done|done].
    split; simpl; try apply HN. intros _. split; [by rewrite ET, El, Hid|]. split; [done|].
    intros q Hq. destruct (Hpeers q Hq) as ((nx & Enx & Hnx) & m & Em & Hm & Hmk).
    destruct (decide (q = p)) as [->|Hne].
    + rewrite !lookup_insert_eq, Em. simpl. unfold u64. rewrite Z.mod_small by lia.
      split; [eexists; split; [done|lia]|]. eexists. split; [done|]. split; [lia|].
      destruct (Z.max_spec m (ae_prev_log_index req + Zlen (ae_entries req))) as [[? ->]|[? ->]]; [|done].
      right. exists k. rewrite ET. split; [done|lia].
    + rewrite !lookup_insert_ne by done. split; [by exists nx|by exists m].
  - split; simpl; try apply HN. intros _. split; [by rewrite ET, El, Hid|]. split; [done|].
    intros q Hq. destruct (Hpeers q Hq) as ((nx & Enx & Hnx) & Hm). split; [|done].
    destruct (decide (q = p)) as [->|Hne].
    + rewrite lookup_insert_eq. eexists. split; [done|].
      destruct (Z.eqb_spec (aer_conflict_index resp) 0); lia.
    + rewrite lookup_insert_ne by done. by exists nx.
Qed.

(** *** Elections *)

Lemma thread_ok_drop s v pre term req pending votes p :
  thread_ok s v (et_round pre term req pending votes) →
  thread_ok s v (et_round pre term req (filter (.≠ p) pending) votes).
Proof.
  destruct pre; [done|]. intros (g & Hnd & Hsub & ? & ? & ? & ? & Hv). exists g.
  apply NoDup_app in Hnd as (Hn1 & Hn2 & Hn3). split_and!; try done.
  - apply NoDup_app. split_and!; [done| |by apply NoDup_filter].
    intros x Hx [_ Hf]%list_elem_of_filter. by apply (Hn2 x Hx).
  - intros x [?|[_ Hf]%list_elem_of_filter]%elem_of_app; apply Hsub; set_solver.
Qed.

Lemma sim_vote_reply s v n p pre term req pending votes resp n' votes' :
  NodeOk s v n → thread_ok s v (et_round pre term req pending votes) → p ∈ pending →
  msg_ok s (RVResp p req resp) → WinVoteRound_reply pre term resp votes n = (n', votes') →
  ∃ s', steps v s s' ∧ NodeOk s' v n' ∧
    thread_ok s' v (et_round pre term req (filter (.≠ p) pending) votes').
Proof.
  intros HN Ht Hp [Hb Hg]. unfold WinVoteRound_reply.
  destruct (Z.ltb_spec (rn_current_term n) (rvr_term resp)).
  { intros [= <- <-]. destruct (sim_stepdown s v n _ HN Hb) as (s' & Hs & HN'). exists s'.
    split; [done|]. split; [done|]. eapply thread_ok_grows; [apply Hs|]. by apply thread_ok_drop. }
  destruct (negb pre && _) eqn:Eg.
  { intros [= <- <-]. exists s. split; [apply steps_refl|]. split; [done|]. by apply thread_ok_drop. }
  intros [= <- <-]. exists s. split; [apply steps_refl|]. split; [done|].
  destruct (rvr_vote_granted resp) eqn:Egr; [|by apply thread_ok_drop].
  destruct pre; [done|]. destruct Ht as (g & Hnd & Hsub & -> & Hpre & Hterm & Hcand & Hv).
  exists (p :: g). apply NoDup_app in Hnd as (Hn1 & Hn2 & Hn3). split_and!; try done.
  - apply NoDup_app. split_and!; [| |by apply NoDup_filter].
    + constructor; [|done]. intros Hin. by apply (Hn2 p Hin).
    + intros x [->|Hx]%elem_of_cons [? Hf]%list_elem_of_filter; [done|]. by apply (Hn2 x Hx).
  - intros x [[->|?]%elem_of_cons|[_ Hf]%list_elem_of_filter]%elem_of_app; apply Hsub; set_solver.
  - simpl. lia.
  - intros q [->|[->|Hq]%elem_of_cons]; [by apply Hv; left| |by apply Hv; right].
    rewrite <-Hcand, <-Hterm. by apply Hg.
Qed.

Lemma sim_begin s v n now timeout would n' req :
  Inv s → NodeOk s v n → v ∈ members → rn_current_term n + 1 < 2 ^ 64 →
  StartElection_begin now timeout would n = Some (n', req) →
  ∃ s', steps v s s' ∧ NodeOk s' v n' ∧
    thread_ok s' v (et_round false (rv_term req) req (cfg_peers (cfg v)) 1) ∧
    ∀ m, m ∈ vote_requests cfg v req → msg_ok s' m.
Proof.
  intros HI HN Hv Hb. pose proof (NodeOk_term_nonneg _ _ _ HI HN) as H0.
  unfold StartElection_begin. destruct (_ || _ || _); [done|].
  unfold u64. rewrite Z.mod_small by lia. rewrite (no_config _ _ _ HN), (cfg_id_ok v Hv).
  intros [= <- <-]. set (T := rn_current_term n + 1).
  assert (a_term s v < T) as HT by (rewrite (no_term _ _ _ HN); lia).
  pose proof (steps_cand s v T Hv HT) as Hst. eexists. split; [exact Hst|].
  pose proof (no_log _ _ _ HN) as Elog. split; [|split].
  - split; simpl; rewrite ?fn_lookup_insert; try apply HN; try done.
    + by rewrite (no_disk _ _ _ HN).
    + split; [done|apply HN].
    + intros _. eexists. by left.
    + destruct (no_commit _ _ _ HN) as (? & ? & ? & ?). split_and!; try done; try lia.
      eapply known_grows; [apply Hst| |done]. lia.
    + intros _. rewrite <-Elog. split; [by left|]. intros l E.
      destruct (inv_lead _ _ HI _ _ _ E) as ((clog & l' & Hc & _) & _).
      destruct (inv_cand _ _ HI _ Hc) as (Hle & _). simpl in Hle. lia.
  - exists []. simpl. destruct (peers_facts v Hv) as (? & _). split_and!; try done.
    intros p [->|Hp]; [|by apply not_elem_of_nil in Hp]. eexists. by left.
  - intros m Hm. unfold vote_requests in Hm. apply list_elem_of_fmap in Hm as (p & -> & _).
    simpl. intros _. split; [done|]. exists (rn_log n). rewrite Elog. split; [by left|].
    change (LastLogIndexLocked _) with (LastLogIndexLocked n).
    split; [|done]. apply LastLogIndex_length. by eapply NodeOk_indexed.
Qed.

Lemma sim_win s v n T :
  Inv s → NodeOk s v n → v ∈ members → thread_ok s v (et_won T) →
  ∃ s', steps v s s' ∧ NodeOk s' v (StartElection_win T n).
Proof.
  intros HI HN Hv (Q & HQ & Hvotes). unfold StartElection_win.
  destruct (bool_decide (rn_role n = kCandidate)) eqn:Er; simpl; [|exists s; split; [apply steps_refl|done]].
  destruct (Z.eqb_spec (rn_current_term n) T) as [<-|]; [|exists s; split; [apply steps_refl|done]].
  apply bool_decide_eq_true in Er. destruct (no_cand _ _ _ HN Er) as (Hc & Hnl).
  assert (a_lead s !! rn_current_term n = None) as Enone.
  { destruct (a_lead s !! _) as [[c l]|] eqn:E; [|done].
    pose proof (elected_unique _ _ _ _ _ _ _ HI HQ Hvotes E) as <-. by destruct (Hnl l). }
  pose proof (steps_elect s v _ _ Q Hc (no_term _ _ _ HN) (no_log _ _ _ HN) Enone HQ Hvotes) as Hst.
  eexists. split; [exact Hst|]. unfold BecomeLeaderLocked.
  change (LastLogIndexLocked _) with (LastLogIndexLocked n).
  rewrite (LastLogIndex_length n) by (by eapply NodeOk_indexed).
  destruct (no_bound _ _ _ HN) as [_ Hbl]. unfold u64. rewrite Z.mod_small by lia.
  split; simpl; try apply HN; try done.
  - destruct (no_commit _ _ _ HN) as (? & ? & ? & ?). split_and!; try done; try lia.
    eapply known_grows; [apply Hst|reflexivity|done].
  - intros _. rewrite lookup_insert_eq. split; [done|]. split; [by left|].
    intros p Hp. rewrite (no_config _ _ _ HN), !foldl_insert_lookup by done. split; eexists; (split; [done|lia]).
Qed.

Lemma sim_restart s v n now timeout :
  NodeOk s v n → NodeOk s v (RaftNode_new (cfg v) (rn_disk n) now timeout).
Proof.
  intros HN. rewrite (no_disk _ _ _ HN). split; simpl; try apply HN; try done.
  split_and!; try done; try lia. by left.
Qed.

(** ** The simulation *)

Lemma Related_stay cl s v et msgs :
  Related cl s → v ∈ members → thread_ok s v et → (∀ m, m ∈ msgs → msg_ok s m) →
  Related (update v (cl_node cl v) et msgs cl) s.
Proof.
  intros HR Hv Het Hm. eapply Related_update; [done|done|apply steps_refl|by apply HR|done|done].
Qed.

Lemma no_msgs s m : m ∈ [] → msg_ok s m.
Proof. intros Hm. by apply not_elem_of_nil in Hm. Qed.

Lemma pre_vote_requests s v req m :
  rv_pre_vote req = true → m ∈ vote_requests cfg v req → msg_ok s m.
Proof.
  intros Hp Hm. unfold vote_requests in Hm. apply list_elem_of_fmap in Hm as (p & -> & _).
  simpl. by rewrite Hp.
Qed.

Lemma StartElection_pre_flag n req : StartElection_pre n = Some req → rv_pre_vote req = true.
Proof. unfold StartElection_pre. destruct (bool_decide _); [done|]. by intros [= <-]. Qed.

Lemma round_end_ok s v n pre term req votes :
  NodeOk s v n → v ∈ members → thread_ok s v (et_round pre term req [] votes) →
  thread_ok s v (if WinVoteRound_result votes n then if pre then et_pre_won term else et_won term else et_idle).
Proof.
  intros HN Hv Ht. unfold WinVoteRound_result.
  destruct (Z.leb_spec (MajorityLocked n) votes) as [Hmaj|]; [|done]. destruct pre; [done|].
  destruct Ht as (g & Hnd & Hsub & -> & _ & _ & _ & Hvotes). rewrite app_nil_r in Hnd, Hsub.
  exists (v :: g). split; [by eapply quorum_majority; [| apply HN|..]|].
  intros p [->|Hp]%elem_of_cons; apply Hvotes; auto.
Qed.

(** A reply of the relation: the node moved, its thread did not. *)
Lemma Related_node cl s s' v n msgs :
  Related cl s → v ∈ members → steps v s s' → NodeOk s' v n → (∀ m, m ∈ msgs → msg_ok s' m) →
  Related (update v n (cl_elect cl v) msgs cl) s'.
Proof.
  intros HR Hv Hs Hn Hm. eapply Related_update; [done..| |done].
  eapply thread_ok_grows; [apply Hs|by apply HR].
Qed.

Lemma carries_term_bound s v T m : msg_ok s m → carries_term v T m → T < 2 ^ 64.
Proof.
  intros Hm Hc. destruct Hc as [req Hp E|req E]; simpl in Hm; rewrite <-E; [by apply Hm|by destruct Hm].
Qed.

Lemma simulation cl cl' s :
  net_step members cfg cl cl' → Related cl s → ∃ s', rtc astep s s' ∧ Related cl' s'.
Proof.
  intros Hstep HR. pose proof (r_inv _ _ HR) as HI.
  assert (∀ v s', steps v s s' → Related cl' s' → ∃ s', rtc astep s s' ∧ Related cl' s') as Hdone.
  { intros v s' [? _] ?. eauto. }
  assert (Related cl' s → ∃ s', rtc astep s s' ∧ Related cl' s') as Hstay.
  { intros ?. exists s. split; [reflexivity|done]. }
  destruct Hstep as [v now Hv|v req Hv _ Epre|v Hv|v p pre term req pending votes resp n' votes' Hv Et Hp Hm E
    |v p pre term req pending votes Hv Et Hp|v pre term req votes Hv Et|v now timeout term n' req Hv _ Hb E|v now timeout term Hv
    |v term Hv Et|v now timeout req n' resp Hv Hm E|v now timeout req n' resp Hv Hm E|v p term req Hv Hp E
    |v p req resp Hv Hm Hid|v command Hv Hb|v now timeout Hv|v now timeout term m Hv Hm Hc];
    pose proof (r_nodes _ _ HR v Hv) as HN; pose proof (r_threads _ _ HR v Hv) as Hth.
  - apply Hstay, Related_stay; [done..|apply no_msgs].
  - apply Hstay, Related_stay; [done..|]. intros m. apply pre_vote_requests. by eapply StartElection_pre_flag.
  - apply Hstay, Related_stay; [done..|apply no_msgs].
  - rewrite Et in Hth. pose proof (r_net _ _ HR _ Hm) as Hok.
    destruct (sim_vote_reply _ _ _ _ _ _ _ _ _ _ _ _ HN Hth Hp Hok E) as (s' & Hs & HN' & Ht').
    eapply Hdone; [exact Hs|]. eapply Related_update; [done..|apply no_msgs].
  - rewrite Et in Hth. apply Hstay, Related_stay; [done..| |apply no_msgs]. by apply thread_ok_drop.
  - rewrite Et in Hth. apply Hstay, Related_stay; [done..| |apply no_msgs]. by eapply round_end_ok.
  - destruct (sim_begin _ _ _ _ _ _ _ _ HI HN Hv Hb E) as (s' & Hs & HN' & Ht' & Hms).
    eapply Hdone; [exact Hs|]. by eapply Related_update.
  - apply Hstay, Related_stay; [done..|apply no_msgs].
  - rewrite Et in Hth. destruct (sim_win _ _ _ _ HI HN Hv Hth) as (s' & Hs & HN').
    eapply Hdone; [exact Hs|]. eapply Related_update; [done..|apply no_msgs].
  - destruct (sim_request_vote _ _ _ _ _ _ _ _ HI HN Hv (r_net _ _ HR _ Hm) E) as (s' & Hs & HN' & Hok).
    eapply Hdone; [exact Hs|]. eapply Related_node; [done..|]. intros x ->%list_elem_of_singleton. done.
  - destruct (sim_append _ _ _ _ _ _ _ _ HI HN (r_net _ _ HR _ Hm) E) as (s' & Hs & HN' & Hok).
    eapply Hdone; [exact Hs|]. eapply Related_node; [done..|]. intros x ->%list_elem_of_singleton. done.
  - apply Hstay, Related_stay; [done..|]. intros x ->%list_elem_of_singleton. by eapply sim_replicate.
  - destruct (sim_replicate_reply _ _ _ _ _ _ HI HN Hv Hid (r_net _ _ HR _ Hm)) as (s' & Hs & HN').
    eapply Hdone; [exact Hs|]. eapply Related_node; [done..|apply no_msgs].
  - destruct (sim_propose _ _ _ command HI HN Hv Hb) as (s' & Hs & HN').
    eapply Hdone; [exact Hs|]. eapply Related_node; [done..|apply no_msgs].
  - apply Hstay. eapply Related_update; [done|done|apply steps_refl|by apply sim_restart|done|apply no_msgs].
  - pose proof (carries_term_bound _ _ _ _ (r_net _ _ HR _ Hm) Hc) as Hb.
    destruct (sim_stepdown _ _ _ term HN Hb) as (s' & Hs & HN').
    eapply Hdone; [exact Hs|].
    eapply Related_update; [done|done|exact Hs|by apply sim_restart|done|apply no_msgs].
Qed.

Lemma Related_init now timeout : Related (cluster_init cfg now timeout) abs_init.
Proof.
  split; simpl; [apply Inv_init| |done|apply no_msgs].
  intros v Hv. split; simpl; try done.
  split_and!; try done; try lia. by left.
Qed.

Lemma refinement now timeout cl :
  reachable members cfg now timeout cl → ∃ s, rtc astep abs_init s ∧ Related cl s.
Proof.
  unfold reachable. intros Hr.
  assert (∀ c0, rtc (net_step members cfg) c0 cl → ∀ s0, rtc astep abs_init s0 → Related c0 s0 →
    ∃ s, rtc astep abs_init s ∧ Related cl s) as Hgen.
  { clear Hr. intros c0. induction 1 as [c0|c0 c1 c2 Hstep _ IH]; intros s0 Hs0 HR; [eauto|].
    destruct (simulation _ _ _ Hstep HR) as (s1 & Hs1 & HR1). apply (IH s1); [by etrans|done]. }
  eapply Hgen; [exact Hr|reflexivity|apply Related_init].
Qed.
End refine.
