(* ===== verification/RaftProps.v ===== *)
(** * Safety of the Raft cluster

    The results of RaftSpec.v, transferred along the refinement of RaftRefine.v to
    the nodes of raft_node.cc: election safety, log matching, leader completeness,
    state machine safety, and what a successful [WaitApplied] means for the client
    that proposed.  A scheduler turns lists of actions into runs of the cluster;
    the runs at the end are the witnesses, and one of them shows what happens when
    the term given to [WaitApplied] was read before the proposal. *)

From stdpp Require Import base gmap functions numbers list.
From Stdlib Require Import ZArith Lia.
From S2P Require Import Prelude Status RaftStorage RaftNode RaftSpec RaftFacts RaftNet RaftRefine.

Local Open Scope Z_scope.

(** ** Later abstract states *)

Record later (s s' : abs) : Prop := {
  la_mono : lead_mono (a_lead s) (a_lead s');
  la_acks : a_acks s ⊆ a_acks s';
}.

Lemma later_refl s : later s s.
Proof. split; [apply lead_mono_refl|done]. Qed.

Lemma grows_later v s s' : grows v s s' → later s s'.
Proof. intros HG. split; apply HG. Qed.

Section props.
Variable members : list bytes.
Variable cfg : bytes → RaftConfig.

Lemma astep_later s s' : Inv members s → astep members s s' → later s s'.
Proof.
  intros HI Hst. destruct Hst as [v T H|c T Hc Hne H|v T c clog|c T clog Q Hc HT Hl HN HQ Hv|c T l e El HT Hl He Hi|v T c l prev k log'].
  - by eapply grows_later, (steps_bump members).
  - split; [apply lead_mono_refl|done].
  - split; [apply lead_mono_refl|done].
  - by eapply grows_later, steps_elect.
  - by eapply grows_later, (steps_propose members).
  - split; [apply lead_mono_refl|]. intros ??. by right.
Qed.

Lemma later_trans s1 s2 s3 : later s1 s2 → later s2 s3 → later s1 s3.
Proof. intros [] []. split; [by eapply lead_mono_trans|by etrans]. Qed.

Lemma astep_rtc_later s s' : Inv members s → rtc (astep members) s s' → later s s'.
Proof.
  intros HI Hst. revert HI. induction Hst as [s|s1 s2 s3 H1 _ IH]; intros HI; [apply later_refl|].
  eapply later_trans; [by apply astep_later|]. apply IH. by eapply astep_Inv.
Qed.

Lemma committed_later s s' T m p :
  later s s' → committed members s T m p → committed members s' T m p.
Proof.
  intros [Hm Ha] (c & l & Q & El & Hlen & Ht & HQ & Hack & ->).
  destruct (Hm _ _ _ El) as (x & El' & _). exists c, (l ++ x), Q.
  split_and!; [done|lia|rewrite length_app; lia| |done| |].
  - rewrite <-Ht. destruct m as [|m]; [done|]. simpl. by rewrite lookup_app_l by lia.
  - intros w Hw. destruct (Hack w Hw) as (k & Hk & ?). exists k. split; [by apply Ha|done].
  - by rewrite take_app_le by lia.
Qed.

Lemma known_later s s' T p : later s s' → known members s T p → known members s' T p.
Proof.
  intros Hl [?|(T0 & m & q & ? & ? & ?)]; [by left|]. right. exists T0, m, q.
  split_and!; [done|by eapply committed_later|done].
Qed.

Lemma known_comparable s T p T' p' :
  Inv members s → known members s T p → known members s T' p' → p `prefix_of` p' ∨ p' `prefix_of` p.
Proof.
  intros HI [->|(T0 & m & q & _ & Hc & Hp)] [->|(T0' & m' & q' & _ & Hc' & Hp')];
    try (left; apply prefix_nil); try (right; apply prefix_nil).
  destruct (committed_comparable _ _ _ _ _ _ _ _ HI Hc Hc') as [Hq|Hq].
  - apply (prefix_weak_total _ _ q'); [by etrans|done].
  - apply (prefix_weak_total _ _ q); [done|by etrans].
Qed.

(** ** Two moments of a run *)

(** The configuration of a cluster: distinct non-empty ids, every node knows the
    others. *)
Record cluster_cfg : Prop := {
  cc_nodup : NoDup members;
  cc_named : [] ∉ members;
  cc_id : ∀ v, v ∈ members → cfg_id (cfg v) = v;
  cc_peers : ∀ v, v ∈ members → v :: cfg_peers (cfg v) ≡ₚ members;
}.

Lemma simulation_rtc cl cl' s :
  cluster_cfg → rtc (net_step members cfg) cl cl' → Related members cfg cl s →
  ∃ s', rtc (astep members) s s' ∧ Related members cfg cl' s'.
Proof.
  intros [] Hr. revert s. induction Hr as [cl|c1 c2 c3 Hstep _ IH]; intros s HR.
  { exists s. split; [reflexivity|done]. }
  destruct (simulation members cfg) with (cl := c1) (cl' := c2) (s := s) as (s1 & Hs1 & HR1); try done.
  destruct (IH s1 HR1) as (s2 & Hs2 & HR2). exists s2. split; [by etrans|done].
Qed.

Lemma two_moments now timeout cl cl' :
  cluster_cfg → reachable members cfg now timeout cl → rtc (net_step members cfg) cl cl' →
  ∃ s s', Related members cfg cl s ∧ Related members cfg cl' s' ∧ later s s'.
Proof.
  intros Hc Hr Hr'.
  destruct (refinement members cfg) with (now := now) (timeout := timeout) (cl := cl) as (s & Hs & HR);
    try apply Hc; [done|].
  destruct (simulation_rtc cl cl' s Hc Hr' HR) as (s' & Hs' & HR').
  exists s, s'. split_and!; [done|done|]. apply astep_rtc_later; [apply HR|done].
Qed.

(** C1: the cluster implements Raft.  Every reachable state of the nodes, their
    threads and the network is related to a state that the abstract protocol
    reaches: the terms, votes and logs agree and are on the nodes' storage, a
    node that is leader is the leader of its term with its log, and what a node
    applied is committed. *)
Theorem raft_refinement now timeout cl :
  cluster_cfg → reachable members cfg now timeout cl →
  ∃ s, rtc (astep members) abs_init s ∧ Related members cfg cl s.
Proof. intros [] Hr. by eapply refinement. Qed.

(** C17: election safety.  Over a whole run, with elections, restarts, message
    loss, duplication and reordering, at most one node is ever leader in a term. *)
Theorem raft_election_safety now timeout cl cl' v w :
  cluster_cfg → reachable members cfg now timeout cl → rtc (net_step members cfg) cl cl' →
  v ∈ members → w ∈ members →
  rn_role (cl_node cl v) = kLeader → rn_role (cl_node cl' w) = kLeader →
  rn_current_term (cl_node cl v) = rn_current_term (cl_node cl' w) → v = w.
Proof.
  intros Hc Hr Hr' Hv Hw Hlv Hlw Et.
  destruct (two_moments _ _ _ _ Hc Hr Hr') as (s & s' & HR & HR' & Hlater).
  destruct (no_lead _ _ _ _ _ (r_nodes _ _ _ _ HR v Hv) Hlv) as (El & _).
  destruct (no_lead _ _ _ _ _ (r_nodes _ _ _ _ HR' w Hw) Hlw) as (El' & _).
  destruct (la_mono _ _ Hlater _ _ _ El) as (x & Ex & _). rewrite Et, El' in Ex. by injection Ex.
Qed.

(** C16: log matching.  If the logs of two nodes, at any two moments of a run, hold
    an entry of the same term at the same index, they are equal up to it. *)
Theorem raft_log_matching now timeout cl cl' v w i e e' :
  cluster_cfg → reachable members cfg now timeout cl → rtc (net_step members cfg) cl cl' →
  v ∈ members → w ∈ members →
  rn_log (cl_node cl v) !! i = Some e → rn_log (cl_node cl' w) !! i = Some e' →
  le_term e = le_term e' →
  take (S i) (rn_log (cl_node cl v)) = take (S i) (rn_log (cl_node cl' w)).
Proof.
  intros Hc Hr Hr' Hv Hw Ee Ee' Et.
  destruct (two_moments _ _ _ _ Hc Hr Hr') as (s & s' & HR & HR' & Hlater).
  pose proof (no_log _ _ _ _ _ (r_nodes _ _ _ _ HR v Hv)) as Elog.
  pose proof (no_log _ _ _ _ _ (r_nodes _ _ _ _ HR' w Hw)) as Elog'.
  destruct (inv_node_log _ _ (r_inv _ _ _ _ HR) v) as [Hm _]. rewrite Elog in Hm.
  destruct (inv_node_log _ _ (r_inv _ _ _ _ HR') w) as [Hm' _]. rewrite Elog' in Hm'.
  apply (matching_mono _ _ _ (la_mono _ _ Hlater)) in Hm.
  pose proof (lookup_lt_Some _ _ _ Ee). pose proof (lookup_lt_Some _ _ _ Ee').
  eapply matching_agree; [apply HR'|done|done|lia|lia|]. simpl. by rewrite Ee, Ee'.
Qed.

Lemma applied_comparable now timeout cl cl' v w :
  cluster_cfg → reachable members cfg now timeout cl → rtc (net_step members cfg) cl cl' →
  v ∈ members → w ∈ members →
  rn_applied (cl_node cl v) `prefix_of` rn_applied (cl_node cl' w) ∨
  rn_applied (cl_node cl' w) `prefix_of` rn_applied (cl_node cl v).
Proof.
  intros Hc Hr Hr' Hv Hw.
  destruct (two_moments _ _ _ _ Hc Hr Hr') as (s & s' & HR & HR' & Hlater).
  destruct (no_commit _ _ _ _ _ (r_nodes _ _ _ _ HR v Hv)) as (_ & _ & _ & Hk).
  destruct (no_commit _ _ _ _ _ (r_nodes _ _ _ _ HR' w Hw)) as (_ & _ & _ & Hk').
  eapply known_comparable; [apply HR'|by eapply known_later|done].
Qed.

(** C7: state machine safety.  What one node has applied and what another node, or
    the same one after a restart, has applied later or at the same time never
    disagree: one sequence of commands extends the other. *)
Theorem raft_state_machine_safety now timeout cl cl' v w :
  cluster_cfg → reachable members cfg now timeout cl → rtc (net_step members cfg) cl cl' →
  v ∈ members → w ∈ members →
  rn_applied (cl_node cl v) `prefix_of` rn_applied (cl_node cl' w) ∨
  rn_applied (cl_node cl' w) `prefix_of` rn_applied (cl_node cl v).
Proof. apply applied_comparable. Qed.

(** C18: leader completeness.  What a node has applied stays in the log of every
    leader of the same or a later term. *)
Theorem raft_leader_completeness now timeout cl cl' v w :
  cluster_cfg → reachable members cfg now timeout cl → rtc (net_step members cfg) cl cl' →
  v ∈ members → w ∈ members → rn_role (cl_node cl' w) = kLeader →
  rn_current_term (cl_node cl v) <= rn_current_term (cl_node cl' w) →
  rn_applied (cl_node cl v) `prefix_of` rn_log (cl_node cl' w).
Proof.
  intros Hc Hr Hr' Hv Hw Hlw Ht.
  destruct (two_moments _ _ _ _ Hc Hr Hr') as (s & s' & HR & HR' & Hlater).
  destruct (no_commit _ _ _ _ _ (r_nodes _ _ _ _ HR v Hv)) as (_ & _ & _ & Hk).
  destruct (no_lead _ _ _ _ _ (r_nodes _ _ _ _ HR' w Hw) Hlw) as (El' & _).
  apply (known_later _ _ _ _ Hlater) in Hk.
  eapply known_lead; [apply HR'| |exact El'].
  eapply known_grows; [apply (grows_refl v)|exact Ht|exact Hk].
Qed.

Lemma WaitApplied_Ok_inv index term n :
  WaitApplied_check index term n = Some Ok → index <= rn_last_applied n ∧ TermAtLocked n index = term.
Proof.
  unfold WaitApplied_check. destruct (Z.ltb_spec (rn_last_applied n) index).
  - destruct (_ <? _); [done|]. by destruct (_ && _).
  - destruct (Z.eqb_spec (TermAtLocked n index) term); simpl; [by split|done].
Qed.

Lemma Propose_log command n :
  rn_role n = kLeader → ∃ e index, e = mkLogEntry (rn_current_term n) index command ∧
    (Propose command n).1 = FromValue index ∧ index = u64 (LastLogIndexLocked n + 1) ∧
    rn_log (Propose command n).2 = rn_log n ++ [e] ∧
    rn_current_term (Propose command n).2 = rn_current_term n ∧
    rn_role (Propose command n).2 = kLeader.
Proof.
  intros Er. unfold Propose. rewrite bool_decide_eq_true_2 by done. simpl.
  eexists _, _. split; [done|]. split; [done|]. split; [done|].
  match goal with |- context [AdvanceCommitLocked ?x] => set (n1 := x) end.
  assert (∀ k m, rn_log (ApplyCommitted_loop k m) = rn_log m ∧
    rn_current_term (ApplyCommitted_loop k m) = rn_current_term m ∧
    rn_role (ApplyCommitted_loop k m) = rn_role m) as Happly.
  { induction k as [|k IH]; intros m; simpl; [done|]. destruct (_ <? _); [|done].
    destruct (IH (set_commit (rn_commit_index m) (rn_last_applied m + 1)
      (rn_applied m ++ [nth (Z.to_nat (rn_last_applied m + 1 - 1)) (rn_log m) LogEntry_default]) m)) as (-> & -> & ->).
    done. }
  unfold AdvanceCommitLocked.
  destruct (AdvanceCommit_loop_spec (Z.to_nat (LastLogIndexLocked n1 - rn_commit_index n1)) (LastLogIndexLocked n1) n1)
    as [->|(idx & _ & _ & _ & ->)]; [done|].
  unfold ApplyCommittedLocked. by destruct (Happly (Z.to_nat (rn_commit_index (set_commit idx (rn_last_applied n1) (rn_applied n1) n1) -
    rn_last_applied (set_commit idx (rn_last_applied n1) (rn_applied n1) n1))) (set_commit idx (rn_last_applied n1) (rn_applied n1) n1)) as (-> & -> & ->).
Qed.

Lemma acknowledged_applied now timeout cl cl' v command index :
  cluster_cfg → reachable members cfg now timeout cl → v ∈ members →
  Zlen (rn_log (cl_node cl v)) + 2 < 2 ^ 64 →
  (Propose command (cl_node cl v)).1 = FromValue index →
  rtc (net_step members cfg)
    (update v (Propose command (cl_node cl v)).2 (cl_elect cl v) [] cl) cl' →
  WaitApplied_check index (rn_current_term (cl_node cl v)) (cl_node cl' v) = Some Ok →
  rn_applied (cl_node cl' v) !! Z.to_nat (index - 1) =
  Some (mkLogEntry (rn_current_term (cl_node cl v)) index command).
Proof.
  intros Hc Hr Hv Hb Hidx Hr' Hwait.
  assert (rn_role (cl_node cl v) = kLeader) as Hlead.
  { unfold Propose in Hidx. destruct (decide (rn_role (cl_node cl v) = kLeader)) as [?|Hn]; [done|].
    rewrite bool_decide_eq_false_2 in Hidx by done. by simpl in Hidx. }
  destruct (Propose_log command _ Hlead) as (e & index' & -> & Eidx & Eidx' & Elog & Eterm & Erole).
  rewrite Eidx in Hidx. injection Hidx as ->.
  set (n1 := (Propose command (cl_node cl v)).2) in *.
  assert (reachable members cfg now timeout (update v n1 (cl_elect cl v) [] cl)) as Hr1.
  { eapply rtc_r; [exact Hr|]. by apply ns_propose. }
  destruct (two_moments _ _ _ _ Hc Hr1 Hr') as (s & s' & HR & HR' & Hlater).
  pose proof (r_nodes _ _ _ _ HR v Hv) as HN. pose proof (r_nodes _ _ _ _ HR' v Hv) as HN'.
  simpl in HN. rewrite fn_lookup_insert in HN.
  destruct (no_lead _ _ _ _ _ HN Erole) as (El & _).
  destruct (la_mono _ _ Hlater _ _ _ El) as (x & Ex & _). rewrite Eterm, Elog in Ex.
  pose proof (NodeOk_indexed _ _ _ _ _ (r_inv _ _ _ _ HR) HN) as Hix. rewrite Elog in Hix.
  set (T := rn_current_term (cl_node cl v)) in *. set (l := rn_log (cl_node cl v)) in *.
  assert (index = Z.of_nat (length l) + 1) as Ei.
  { specialize (Hix (length l) (mkLogEntry T index command)).
    rewrite lookup_app_r, Nat.sub_diag in Hix by lia. by apply Hix. }
  apply WaitApplied_Ok_inv in Hwait as [Hla Hta].
  destruct (no_commit _ _ _ _ _ HN') as (Hcm & Ela & Eapp & _). rewrite Ela in Hla.
  rewrite Eapp. rewrite lookup_take_lt by lia.
  replace index with (Z.of_nat (S (length l))) in Hta at 1 by lia. rewrite TermAt_term_at in Hta. simpl in Hta.
  replace (Z.to_nat (index - 1)) with (length l) by lia.
  destruct (lookup_lt_is_Some_2 (rn_log (cl_node cl' v)) (length l)) as [f Ef]; [lia|].
  rewrite Ef in Hta |- *. simpl in Hta.
  destruct (inv_node_log _ _ (r_inv _ _ _ _ HR') v) as [Hm _]. rewrite (no_log _ _ _ _ _ HN') in Hm.
  destruct (Hm _ _ Ef) as (c & ll & Ell & Hp). rewrite Hta, Ex in Ell. injection Ell as <- <-.
  assert (take (S (length l)) (rn_log (cl_node cl' v)) !! length l = Some f) as Ef'.
  { rewrite lookup_take_lt by lia. done. }
  pose proof (prefix_lookup_Some _ _ _ _ Ef' Hp) as Ef2.
  rewrite <-app_assoc, lookup_app_r, Nat.sub_diag in Ef2 by lia. simpl in Ef2. by injection Ef2 as ->.
Qed.

(** C19: an acknowledged proposal is applied.  A leader accepts a command and
    returns its index; if at any later moment [WaitApplied] on that node, called
    with that index and the term the proposal was made in, returns success, then
    the command is the entry the node has applied at that index. *)
Theorem raft_acknowledged_proposal now timeout cl cl' v command index :
  cluster_cfg → reachable members cfg now timeout cl → v ∈ members →
  Zlen (rn_log (cl_node cl v)) + 2 < 2 ^ 64 →
  (Propose command (cl_node cl v)).1 = FromValue index →
  rtc (net_step members cfg)
    (update v (Propose command (cl_node cl v)).2 (cl_elect cl v) [] cl) cl' →
  WaitApplied_check index (rn_current_term (cl_node cl v)) (cl_node cl' v) = Some Ok →
  rn_applied (cl_node cl' v) !! Z.to_nat (index - 1) =
  Some (mkLogEntry (rn_current_term (cl_node cl v)) index command).
Proof. apply acknowledged_applied. Qed.
End props.

(** ** Runs *)

(** What the scheduler chooses; messages are named by their position in the network. *)
Inductive action :=
  | ADue (v : bytes) | APreVote (v : bytes) | AVoteReply (v : bytes) (i : nat) | AVoteFailed (v p : bytes)
  | ARoundEnd (v : bytes) | ABegin (v : bytes) | AWin (v : bytes) | AHandle (v : bytes) (i : nat)
  | AReplicate (v p : bytes) | AReplicateReply (v : bytes) (i : nat) | APropose (v command : bytes)
  | ARestart (v : bytes).

Section exec.
Variable members : list bytes.
Variable cfg : bytes → RaftConfig.
Variable now timeout : Z.

Definition exec (a : action) (cl : cluster) : option cluster :=
  match a with
  | ADue v =>
      if decide (v ∈ members ∧ election_due now (cl_node cl v) = true) then
        match cl_elect cl v with et_idle => Some (update v (cl_node cl v) et_due [] cl) | _ => None end
      else None
  | APreVote v =>
      if decide (v ∈ members) then
        match cl_elect cl v, StartElection_pre (cl_node cl v) with
        | et_due, Some req => Some (update v (cl_node cl v)
            (et_round true (rv_term req) req (cfg_peers (cfg v)) 1) (vote_requests cfg v req) cl)
        | _, _ => None
        end
      else None
  | AVoteReply v i =>
      match cl_elect cl v, cl_net cl !! i with
      | et_round pre term req pending votes, Some (RVResp p req' resp) =>
          if decide (v ∈ members ∧ p ∈ pending ∧ req' = req) then
            let r := WinVoteRound_reply pre term resp votes (cl_node cl v) in
            Some (update v r.1 (et_round pre term req (filter (.≠ p) pending) r.2) [] cl)
          else None
      | _, _ => None
      end
  | AVoteFailed v p =>
      match cl_elect cl v with
      | et_round pre term req pending votes =>
          if decide (v ∈ members ∧ p ∈ pending)
          then Some (update v (cl_node cl v) (et_round pre term req (filter (.≠ p) pending) votes) [] cl)
          else None
      | _ => None
      end
  | ARoundEnd v =>
      match cl_elect cl v with
      | et_round pre term req [] votes =>
          if decide (v ∈ members)
          then Some (update v (cl_node cl v)
            (if WinVoteRound_result votes (cl_node cl v)
             then if pre then et_pre_won term else et_won term else et_idle) [] cl)
          else None
      | _ => None
      end
  | ABegin v =>
      match cl_elect cl v with
      | et_pre_won term =>
          if decide (v ∈ members ∧ rn_current_term (cl_node cl v) + 1 < 2 ^ 64) then
            match StartElection_begin now timeout term (cl_node cl v) with
            | Some (n', req) => Some (update v n' (et_round false (rv_term req) req (cfg_peers (cfg v)) 1)
                                 (vote_requests cfg v req) cl)
            | None => None
            end
          else None
      | _ => None
      end
  | AWin v =>
      match cl_elect cl v with
      | et_won term =>
          if decide (v ∈ members)
          then Some (update v (StartElection_win term (cl_node cl v)) et_idle [] cl) else None
      | _ => None
      end
  | AHandle v i =>
      if decide (v ∈ members) then
        match cl_net cl !! i with
        | Some (RVReq dst req) =>
            if decide (dst = v) then
              let r := HandleRequestVote now timeout req (cl_node cl v) in
              Some (update v r.1 (cl_elect cl v) [RVResp v req r.2] cl)
            else None
        | Some (AEReq dst req) =>
            if decide (dst = v) then
              let r := HandleAppendEntries now timeout req (cl_node cl v) in
              Some (update v r.1 (cl_elect cl v) [AEResp v req r.2] cl)
            else None
        | _ => None
        end
      else None
  | AReplicate v p =>
      if decide (v ∈ members ∧ p ∈ cfg_peers (cfg v)) then
        match ReplicateTo_request p (rn_current_term (cl_node cl v)) (cl_node cl v) with
        | Some req => Some (update v (cl_node cl v) (cl_elect cl v) [AEReq p req] cl)
        | None => None
        end
      else None
  | AReplicateReply v i =>
      match cl_net cl !! i with
      | Some (AEResp p req resp) =>
          if decide (v ∈ members ∧ ae_leader_id req = v)
          then Some (update v (ReplicateTo_reply p (ae_term req) req resp (cl_node cl v)) (cl_elect cl v) [] cl)
          else None
      | _ => None
      end
  | APropose v command =>
      if decide (v ∈ members ∧ Zlen (rn_log (cl_node cl v)) + 2 < 2 ^ 64)
      then Some (update v (Propose command (cl_node cl v)).2 (cl_elect cl v) [] cl) else None
  | ARestart v =>
      if decide (v ∈ members)
      then Some (update v (RaftNode_new (cfg v) (rn_disk (cl_node cl v)) now timeout) et_idle [] cl) else None
  end.

Lemma exec_step a cl cl' : exec a cl = Some cl' → net_step members cfg cl cl'.
Proof.
  destruct a as [v|v|v i|v p|v|v|v|v i|v p|v i|v command|v]; simpl; intros E.
  - case_decide as Hd; [|done]. destruct Hd. case_match; simplify_eq. by eapply ns_due.
  - case_decide; [|done]. repeat case_match; simplify_eq. by apply ns_pre_vote.
  - repeat case_match; simplify_eq. destruct_and?. subst. eapply ns_vote_reply; try done;
      [by eapply list_elem_of_lookup_2|apply surjective_pairing].
  - repeat case_match; simplify_eq. destruct_and?. by apply ns_vote_failed.
  - destruct (cl_elect cl v) as [| |pre term req [|] votes| |] eqn:Et; simplify_eq.
    case_decide; simplify_eq. by eapply ns_round_end.
  - repeat case_match; simplify_eq. destruct_and?. by eapply ns_begin.
  - repeat case_match; simplify_eq. by apply ns_win.
  - repeat case_match; simplify_eq; [eapply ns_request_vote|eapply ns_append]; try done;
      (by eapply list_elem_of_lookup_2) || apply surjective_pairing.
  - repeat case_match; simplify_eq. destruct_and?. by eapply ns_replicate.
  - repeat case_match; simplify_eq. destruct_and?. eapply ns_replicate_reply; try done.
    by eapply list_elem_of_lookup_2.
  - repeat case_match; simplify_eq. destruct_and?. by apply ns_propose.
  - repeat case_match; simplify_eq. by apply ns_restart.
Qed.

Fixpoint exec_all (as_ : list action) (cl : cluster) : option cluster :=
  match as_ with
  | [] => Some cl
  | a :: as_ => match exec a cl with Some cl' => exec_all as_ cl' | None => None end
  end.

Lemma exec_all_steps as_ cl cl' : exec_all as_ cl = Some cl' → rtc (net_step members cfg) cl cl'.
Proof.
  revert cl. induction as_ as [|a as_ IH]; intros cl; simpl; [by intros [= <-]|].
  destruct (exec a cl) as [c1|] eqn:E; [|done]. intros H. eapply rtc_l; [by eapply exec_step|by apply IH].
Qed.
End exec.

(** A run of three nodes: [a] is elected by [b], its proposal reaches [b] and is
    applied on both. *)
Definition run_a : bytes := lit "a".
Definition run_b : bytes := lit "b".
Definition run_c : bytes := lit "c".
Definition run_members : list bytes := [run_a; run_b; run_c].
Definition run_cfg (v : bytes) : RaftConfig := mkRaftConfig v (filter (.≠ v) run_members) 5 10.
Definition run_init : cluster := cluster_init run_cfg (λ _, 0) (λ _, 10).

Lemma run_cfg_ok : cluster_cfg run_members run_cfg.
Proof.
  split.
  - apply (bool_decide_unpack _). vm_compute. reflexivity.
  - apply (bool_decide_unpack _). vm_compute. reflexivity.
  - done.
  - apply Forall_forall. apply (bool_decide_unpack _). vm_compute. reflexivity.
Qed.

(** An election of [v] that only [w] answers, [u] being unreachable; [trial] and
    [real] are the positions of the requests for [w]. *)
Definition elect (v w u : bytes) (trial real : nat) : list action :=
  [ADue v; APreVote v; AHandle w trial; AVoteReply v 0; AVoteFailed v u; ARoundEnd v;
   ABegin v; AHandle w real; AVoteReply v 0; AVoteFailed v u; ARoundEnd v; AWin v].

(** One exchange of the leader [v] with [p]. *)
Definition replicate_once (v p : bytes) : list action :=
  [AReplicate v p; AHandle p 0; AReplicateReply v 0].

Definition run (now : Z) (as_ : list action) (cl : cluster) : cluster :=
  default cl (exec_all run_members run_cfg now 10 as_ cl).

Lemma run_steps now as_ cl : rtc (net_step run_members run_cfg) cl (run now as_ cl).
Proof.
  unfold run. destruct (exec_all _ _ _ _ _ _) as [c|] eqn:E; simpl; [|reflexivity].
  by eapply exec_all_steps.
Qed.

Definition run_elected : cluster := run 100 (elect run_a run_b run_c 0 0) run_init.
Definition run_proposed : cluster :=
  update run_a (Propose (lit "x") (cl_node run_elected run_a)).2 (cl_elect run_elected run_a) [] run_elected.
Definition run_applied : cluster :=
  run 100 (replicate_once run_a run_b ++ replicate_once run_a run_b) run_proposed.
Definition run_entry : LogEntry := mkLogEntry 1 1 (lit "x").

Lemma run_elected_reachable : reachable run_members run_cfg (λ _, 0) (λ _, 10) run_elected.
Proof. apply run_steps. Qed.

Lemma run_proposed_step : net_step run_members run_cfg run_elected run_proposed.
Proof.
  apply ns_propose; [apply (bool_decide_unpack _); vm_compute; reflexivity|].
  vm_compute. reflexivity.
Qed.

Lemma run_applied_reachable : reachable run_members run_cfg (λ _, 0) (λ _, 10) run_applied.
Proof.
  unfold reachable; etrans; [apply run_elected_reachable|].
  eapply rtc_l; [apply run_proposed_step|]. apply run_steps.
Qed.

Lemma run_member_a : run_a ∈ run_members.
Proof. left. Qed.
Lemma run_member_b : run_b ∈ run_members.
Proof. right. left. Qed.

Lemma raft_refinement_witness :
  rn_applied (cl_node run_applied run_b) = [run_entry] ∧
  ∃ s, rtc (astep run_members) abs_init s ∧ Related run_members run_cfg run_applied s.
Proof.
  split; [vm_compute; reflexivity|].
  exact (raft_refinement run_members run_cfg _ _ run_applied run_cfg_ok run_applied_reachable).
Defined.

Lemma raft_election_safety_witness :
  rn_role (cl_node run_elected run_a) = kLeader ∧ run_a = run_a.
Proof.
  assert (rn_role (cl_node run_elected run_a) = kLeader) as E by (vm_compute; reflexivity).
  split; [exact E|].
  apply (raft_election_safety run_members run_cfg (λ _, 0) (λ _, 10) run_elected run_applied run_a run_a).
  - exact run_cfg_ok.
  - exact run_elected_reachable.
  - eapply rtc_l; [apply run_proposed_step|apply run_steps].
  - exact run_member_a.
  - exact run_member_a.
  - exact E.
  - vm_compute. reflexivity.
  - vm_compute. reflexivity.
Defined.

Lemma raft_log_matching_witness :
  take 1 (rn_log (cl_node run_applied run_a)) = take 1 (rn_log (cl_node run_applied run_b)).
Proof.
  apply (raft_log_matching run_members run_cfg (λ _, 0) (λ _, 10) run_applied run_applied
    run_a run_b 0 run_entry run_entry).
  - exact run_cfg_ok.
  - exact run_applied_reachable.
  - reflexivity.
  - exact run_member_a.
  - exact run_member_b.
  - vm_compute. reflexivity.
  - vm_compute. reflexivity.
  - reflexivity.
Defined.

Lemma raft_state_machine_safety_witness :
  rn_applied (cl_node run_applied run_a) = [run_entry] ∧
  (rn_applied (cl_node run_applied run_a) `prefix_of` rn_applied (cl_node run_applied run_b) ∨
   rn_applied (cl_node run_applied run_b) `prefix_of` rn_applied (cl_node run_applied run_a)).
Proof.
  split; [vm_compute; reflexivity|].
  apply (raft_state_machine_safety run_members run_cfg (λ _, 0) (λ _, 10) run_applied run_applied).
  - exact run_cfg_ok.
  - exact run_applied_reachable.
  - reflexivity.
  - exact run_member_a.
  - exact run_member_b.
Defined.

Lemma raft_leader_completeness_witness :
  rn_applied (cl_node run_applied run_b) `prefix_of` rn_log (cl_node run_applied run_a).
Proof.
  apply (raft_leader_completeness run_members run_cfg (λ _, 0) (λ _, 10) run_applied run_applied).
  - exact run_cfg_ok.
  - exact run_applied_reachable.
  - reflexivity.
  - exact run_member_b.
  - exact run_member_a.
  - vm_compute. reflexivity.
  - vm_compute. discriminate.
Defined.

Lemma raft_acknowledged_proposal_witness :
  rn_applied (cl_node run_applied run_a) !! 0%nat = Some run_entry.
Proof.
  apply (raft_acknowledged_proposal run_members run_cfg (λ _, 0) (λ _, 10) run_elected run_applied
    run_a (lit "x") 1).
  - exact run_cfg_ok.
  - exact run_elected_reachable.
  - exact run_member_a.
  - vm_compute. reflexivity.
  - vm_compute. reflexivity.
  - apply run_steps.
  - vm_compute. reflexivity.
Defined.

(** [RaftMetadataRepository::ProposeAndWait] reads the term before it proposes.  If
    the node becomes leader of a later term in between and is deposed before its
    entry is committed, an entry of the older term can end up at the index, and the
    caller is told that its command was applied when it was lost: [a] reads term 1
    while [b] leads, then leads term 2 and accepts "y" at index 1; [b] takes over in
    term 3 and commits its "x" of term 1 there. *)
Definition race_b_leads : cluster :=
  run 100 (elect run_b run_a run_c 0 0 ++ [APropose run_b (lit "x")]) run_init.
Definition race_a_leads : cluster :=
  run 200 (elect run_a run_c run_b 1 1 ++ [APropose run_a (lit "y")]) race_b_leads.
Definition race_end : cluster :=
  run 300 (replicate_once run_b run_c ++ elect run_b run_c run_a 1 1 ++ [APropose run_b (lit "z")] ++
           replicate_once run_b run_a ++ replicate_once run_b run_a ++ replicate_once run_b run_a) race_a_leads.

Lemma race_reachable : reachable run_members run_cfg (λ _, 0) (λ _, 10) race_end.
Proof.
  apply (rtc_trans _ race_b_leads); [exact (run_steps 100 _ run_init)|].
  apply (rtc_trans _ race_a_leads); [exact (run_steps 200 _ race_b_leads)|].
  exact (run_steps 300 _ race_a_leads).
Qed.

Theorem term_read_before_propose_race :
  reachable run_members run_cfg (λ _, 0) (λ _, 10) race_end ∧
  rn_current_term (cl_node race_b_leads run_a) = 1 ∧
  rn_log (cl_node race_a_leads run_a) = [mkLogEntry 2 1 (lit "y")] ∧
  WaitApplied_check 1 1 (cl_node race_end run_a) = Some Ok ∧
  rn_applied (cl_node race_end run_a) = [mkLogEntry 1 1 (lit "x"); mkLogEntry 3 2 (lit "z")].
Proof. split; [exact race_reachable|]. split_and!; vm_compute; reflexivity. Qed.
