(* ===== verification/Ring.v ===== *)
(** * The consistent-hash ring

    [include/cluster/consistent_hash_ring.h] and
    [src/cluster/consistent_hash_ring.cc].  The [std::map] of ring positions is a
    finite map; an iterator into it is an index into its entries in key order,
    [length] of them for [end()].

    The replica walk is compared with its reference (the distinct owners met going
    clockwise from the key), placement is shown to depend on the members only, and
    to move minimally when one joins or leaves. *)

From stdpp Require Import base gmap fin_maps sorting numbers list.
From Stdlib Require Import ZArith Lia.
From S2P Require Import Prelude Sha256.

Local Open Scope Z_scope.
Local Arguments Nat.eqb : simpl never.
Local Arguments Nat.ltb : simpl never.
Local Opaque Hash64.

Record ConsistentHashRing := mkRing {
  chr_vnodes : nat;
  chr_ring : gmap Z bytes;             (** ring position -> physical node id *)
  chr_physical_nodes : list bytes;
}.

Implicit Types r : ConsistentHashRing.

(** The constructor. *)
Definition Ring_new (virtual_nodes_per_node : nat) : ConsistentHashRing :=
  mkRing (if (virtual_nodes_per_node =? 0)%nat then 1 else virtual_nodes_per_node) ∅ [].

Definition Contains r (node_id : bytes) : bool := find_in node_id (chr_physical_nodes r).

(** The position of a virtual node. *)
Definition vnode_pos (id : bytes) (i : nat) : Z := Hash64 (id ++ lit "#" ++ to_string (Z.of_nat i)).

(** [ring_.emplace(pos, id)]: an existing owner is kept. *)
Definition emplace (pos : Z) (id : bytes) (ring : gmap Z bytes) : gmap Z bytes :=
  match ring !! pos with Some _ => ring | None => <[pos := id]> ring end.

Definition AddNode (node_id : bytes) r : ConsistentHashRing :=
  if Contains r node_id then r
  else mkRing (chr_vnodes r)
         (foldl (λ ring i, emplace (vnode_pos node_id i) node_id ring) (chr_ring r) (seq 0 (chr_vnodes r)))
         (chr_physical_nodes r ++ [node_id]).

(** [physical_nodes_.erase(it)] of the first occurrence. *)
Fixpoint erase_first (x : bytes) (l : list bytes) : list bytes :=
  match l with
  | [] => []
  | y :: l' => if bool_decide (y = x) then l' else y :: erase_first x l'
  end.

Definition RemoveNode (node_id : bytes) r : ConsistentHashRing :=
  if negb (Contains r node_id) then r
  else mkRing (chr_vnodes r) (filter (λ e, e.2 ≠ node_id) (chr_ring r))
         (erase_first node_id (chr_physical_nodes r)).

(** The entries of [ring_] in iteration order. *)
Definition entries (ring : gmap Z bytes) : list (Z * bytes) := in_order Z.le ring.

(** [ring_.lower_bound(pos)]: the first position not below [pos]. *)
Fixpoint lower_bound (es : list (Z * bytes)) (pos : Z) : nat :=
  match es with
  | [] => 0
  | (p, _) :: es' => if p <? pos then S (lower_bound es' pos) else 0
  end.

(** Where a search for [pos] starts, wrapping around the ring. *)
Definition start_at (es : list (Z * bytes)) (pos : Z) : nat :=
  let it := lower_bound es pos in
  if (it =? length es)%nat then 0%nat else it.

(** [it->second] *)
Definition owner (es : list (Z * bytes)) (it : nat) : bytes := (nth it es (0, [])).2.

Definition LookupPrimary r (key : bytes) : bytes :=
  if bool_decide (chr_ring r = ∅) then []
  else
    let es := entries (chr_ring r) in
    owner es (start_at es (Hash64 key)).

(** The loop of [LookupReplicas], at most [steps] more virtual nodes to visit. *)
Fixpoint walk (es : list (Z * bytes)) (max_distinct steps it : nat) (result : list bytes) : list bytes :=
  match steps with
  | O => result
  | S steps' =>
      if (length result <? max_distinct)%nat then
        let node := owner es it in
        let result := if find_in node result then result else result ++ [node] in
        walk es max_distinct steps' (if (S it =? length es)%nat then 0%nat else S it) result
      else result
  end.

Definition LookupReplicas r (key : bytes) (count : nat) : list bytes :=
  if bool_decide (chr_ring r = ∅) || (count =? 0)%nat then []
  else
    let max_distinct := Nat.min count (length (chr_physical_nodes r)) in
    let es := entries (chr_ring r) in
    walk es max_distinct (length es) (start_at es (Hash64 key)) [].

Local Opaque vnode_pos.

(** ** The reference *)

(** The entries going clockwise from a position. *)
Definition clockwise (pos : Z) (es : list (Z * bytes)) : list (Z * bytes) :=
  filter (λ e, pos <= e.1) es ++ filter (λ e, e.1 < pos) es.

(** The first occurrences of the elements of a list. *)
Fixpoint firsts (l : list bytes) : list bytes :=
  match l with
  | [] => []
  | x :: l' => x :: filter (.≠ x) (firsts l')
  end.

(** The owners met going clockwise from a key, each once. *)
Definition preference (ring : gmap Z bytes) (key : bytes) : list bytes :=
  firsts (clockwise (Hash64 key) (entries ring)).*2.

Lemma elem_of_firsts x l : x ∈ firsts l ↔ x ∈ l.
Proof.
  induction l as [|y l IH]; simpl; [done|].
  rewrite !elem_of_cons, list_elem_of_filter, IH. destruct (decide (x = y)); naive_solver.
Qed.

Lemma NoDup_firsts l : NoDup (firsts l).
Proof.
  induction l as [|y l IH]; simpl; constructor; [|by apply NoDup_filter].
  rewrite list_elem_of_filter. naive_solver.
Qed.

Lemma firsts_filter (P : bytes → Prop) `{∀ x, Decision (P x)} l : firsts (filter P l) = filter P (firsts l).
Proof.
  induction l as [|y l IH]; simpl; [done|]. rewrite !filter_cons.
  destruct (decide (P y)) as [Hy|Hy].
  - simpl. f_equal. rewrite IH, !list_filter_filter. apply list_filter_iff. naive_solver.
  - rewrite IH, list_filter_filter. apply list_filter_iff. naive_solver.
Qed.

(** ** The walk *)

(** Pushing a list of nodes, stopping at [max]. *)
Fixpoint collect (max : nat) (l result : list bytes) : list bytes :=
  match l with
  | [] => result
  | node :: l' =>
      if (length result <? max)%nat
      then collect max l' (if find_in node result then result else result ++ [node])
      else result
  end.

Lemma collect_firsts max l result :
  (length result <= max)%nat →
  collect max l result = take max (result ++ filter (.∉ result) (firsts l)).
Proof.
  revert result. induction l as [|x l IH]; intros result Hlen; simpl.
  { rewrite filter_nil, app_nil_r. by rewrite take_ge. }
  destruct (Nat.ltb_spec (length result) max) as [Hlt|Hge].
  - unfold find_in. destruct (bool_decide (x ∈ result)) eqn:E; prop_bool.
    + rewrite IH by done. rewrite filter_cons_False by auto. do 2 f_equal.
      rewrite list_filter_filter. apply list_filter_iff. intros y. set_solver.
    + rewrite IH by (rewrite length_app; simpl; lia). rewrite filter_cons_True by done.
      rewrite <-app_assoc. simpl. do 3 f_equal. rewrite list_filter_filter. apply list_filter_iff. intros y. set_solver.
  - rewrite take_app_le by lia. by rewrite take_ge by lia.
Qed.

Lemma walk_collect es max steps it result :
  (it < length es)%nat → (steps <= length es)%nat →
  walk es max steps it result = collect max (take steps (drop it (es ++ es))).*2 result.
Proof.
  revert it result. induction steps as [|steps IH]; intros it result Hit Hst; simpl; [done|].
  destruct (lookup_lt_is_Some_2 es it Hit) as [e He].
  rewrite (drop_S _ e it) by (by apply lookup_app_l_Some). simpl.
  assert (owner es it = e.2) as -> by (unfold owner; by rewrite (nth_lookup_Some _ _ _ _ He)).
  destruct (length result <? max)%nat; [|done].
  destruct (Nat.eqb_spec (S it) (length es)) as [E|E].
  - rewrite IH by lia. rewrite E, drop_app_length, drop_0, take_app_le by lia. done.
  - rewrite IH by lia. done.
Qed.

Lemma lower_bound_split es pos :
  StronglySorted (entry_le Z.le) es →
  take (lower_bound es pos) es = filter (λ e, e.1 < pos) es ∧
  drop (lower_bound es pos) es = filter (λ e, pos <= e.1) es.
Proof.
  induction 1 as [|[p n] es Hs IH Hf]; simpl; [done|]. destruct (Z.ltb_spec p pos) as [Hlt|Hge].
  - simpl. rewrite filter_cons_True, filter_cons_False by (simpl; lia). destruct IH as [-> ->]. done.
  - assert (∀ e, e ∈ es → pos <= e.1) as Hall.
    { intros e He. rewrite List.Forall_forall in Hf. apply list_elem_of_In in He.
      specialize (Hf e He). unfold entry_le in Hf. simpl in Hf. lia. }
    rewrite filter_cons_False, filter_cons_True by (simpl; lia). simpl. split.
    + symmetry. apply filter_none. intros e He. specialize (Hall e He). lia.
    + f_equal. symmetry. by apply filter_all.
Qed.

Lemma lower_bound_le es pos : (lower_bound es pos <= length es)%nat.
Proof. induction es as [|[p n] es IH]; simpl; [lia|]. destruct (p <? pos); lia. Qed.

Lemma rotation es pos :
  StronglySorted (entry_le Z.le) es → es ≠ [] →
  take (length es) (drop (start_at es pos) (es ++ es)) = clockwise pos es.
Proof.
  intros Hs Hne. destruct (lower_bound_split es pos Hs) as [Ht Hd]. unfold clockwise, start_at.
  rewrite <-Ht, <-Hd. pose proof (lower_bound_le es pos).
  destruct (Nat.eqb_spec (lower_bound es pos) (length es)) as [E|E].
  - rewrite E, drop_0, (drop_ge es), (take_ge es) by lia. simpl. by rewrite take_app_length.
  - rewrite drop_app_le by lia. rewrite take_app, length_drop.
    rewrite take_ge by (rewrite length_drop; lia). f_equal. f_equal. lia.
Qed.

Lemma start_at_lt es pos : es ≠ [] → (start_at es pos < length es)%nat.
Proof.
  intros Hne. unfold start_at. pose proof (lower_bound_le es pos).
  destruct (Nat.eqb_spec (lower_bound es pos) (length es)); destruct es; simpl in *; (done || lia).
Qed.

Lemma entries_sorted ring : StronglySorted (entry_le Z.le) (entries ring).
Proof. apply in_order_sorted; apply _. Qed.

Lemma entries_nil ring : entries ring = [] ↔ ring = ∅.
Proof.
  rewrite <-length_zero_iff_nil. unfold entries. rewrite length_in_order. apply map_size_empty_iff.
Qed.

Lemma elem_of_preference ring key n : n ∈ preference ring key ↔ ∃ pos, ring !! pos = Some n.
Proof.
  unfold preference, clockwise. rewrite elem_of_firsts, list_elem_of_fmap. split.
  - intros ([p m] & -> & [Hin|Hin]%elem_of_app); apply list_elem_of_filter in Hin as [_ Hin];
      apply elem_of_in_order in Hin; eauto.
  - intros [pos Hpos]. exists (pos, n). split; [done|]. apply elem_of_app. rewrite !list_elem_of_filter.
    apply (elem_of_in_order Z.le) in Hpos. simpl. destruct (Z.lt_ge_cases pos (Hash64 key)); eauto.
Qed.

Lemma preference_empty key : preference ∅ key = [].
Proof. unfold preference. by rewrite (proj2 (entries_nil ∅)). Qed.

(** The walk returns the first owners of the clockwise order. *)
Lemma LookupReplicas_preference r key count :
  LookupReplicas r key count =
  take (Nat.min count (length (chr_physical_nodes r))) (preference (chr_ring r) key).
Proof.
  unfold LookupReplicas. destruct (bool_decide (chr_ring r = ∅)) eqn:E; prop_bool; simpl.
  { by rewrite E, preference_empty, take_nil. }
  destruct (Nat.eqb_spec count 0) as [->|Hc]; [done|]. rewrite <-entries_nil in E.
  rewrite walk_collect, rotation by (auto using start_at_lt, entries_sorted).
  rewrite collect_firsts by (simpl; lia). simpl. unfold preference. f_equal.
  apply filter_all. intros x _. apply not_elem_of_nil.
Qed.

Lemma LookupPrimary_preference r key :
  LookupPrimary r key = default [] (head (preference (chr_ring r) key)).
Proof.
  unfold LookupPrimary. destruct (bool_decide (chr_ring r = ∅)) eqn:E; prop_bool; [by rewrite E, preference_empty|].
  rewrite <-entries_nil in E. unfold preference.
  rewrite <-(rotation _ _ (entries_sorted _) E).
  set (es := entries (chr_ring r)) in *. pose proof (start_at_lt es (Hash64 key) E) as Hlt.
  destruct (lookup_lt_is_Some_2 es _ Hlt) as [e He].
  rewrite (drop_S _ e) by (by apply lookup_app_l_Some). unfold owner.
  rewrite (nth_lookup_Some _ _ _ _ He). by destruct es.
Qed.

(** ** Invariant *)

Record RingInv r : Prop := {
  ri_nodes : NoDup (chr_physical_nodes r);
  ri_owner : ∀ pos n, chr_ring r !! pos = Some n →
    n ∈ chr_physical_nodes r ∧ ∃ i, (i < chr_vnodes r)%nat ∧ pos = vnode_pos n i;
}.

Lemma RingInv_new k : RingInv (Ring_new k).
Proof. split; simpl; [constructor|]. intros pos n. by rewrite lookup_empty. Qed.

(** What placing the virtual nodes of [id] does. *)
Lemma place_lookup id ids ring pos :
  foldl (λ ring i, emplace (vnode_pos id i) id ring) ring ids !! pos =
  match ring !! pos with
  | Some n => Some n
  | None => if decide (pos ∈ vnode_pos id <$> ids) then Some id else None
  end.
Proof.
  revert ring. induction ids as [|i ids IH]; intros ring; cbn [foldl].
  { destruct (ring !! pos); [done|]. by rewrite decide_False by apply not_elem_of_nil. }
  rewrite IH. unfold emplace. rewrite fmap_cons.
  destruct (ring !! vnode_pos id i) as [n|] eqn:Ei.
  - destruct (ring !! pos) as [m|] eqn:Ep; [done|].
    assert (pos ≠ vnode_pos id i) by congruence. apply decide_ext. rewrite elem_of_cons. tauto.
  - destruct (decide (pos = vnode_pos id i)) as [->|Hne].
    + rewrite lookup_insert_eq, Ei. by rewrite decide_True by (by left).
    + rewrite lookup_insert_ne by done. destruct (ring !! pos); [done|]. apply decide_ext. rewrite elem_of_cons. tauto.
Qed.

Lemma AddNode_lookup r n pos :
  n ∉ chr_physical_nodes r →
  chr_ring (AddNode n r) !! pos =
  match chr_ring r !! pos with
  | Some m => Some m
  | None => if decide (pos ∈ vnode_pos n <$> seq 0 (chr_vnodes r)) then Some n else None
  end.
Proof.
  intros Hn. unfold AddNode, Contains, find_in. rewrite bool_decide_eq_false_2 by done.
  simpl. apply place_lookup.
Qed.

Lemma AddNode_nodes r n :
  n ∉ chr_physical_nodes r → chr_physical_nodes (AddNode n r) = chr_physical_nodes r ++ [n].
Proof. intros Hn. unfold AddNode, Contains, find_in. by rewrite bool_decide_eq_false_2. Qed.

Lemma AddNode_vnodes r n : chr_vnodes (AddNode n r) = chr_vnodes r.
Proof. unfold AddNode. by destruct (Contains r n). Qed.

Lemma AddNode_present r n : n ∈ chr_physical_nodes r → AddNode n r = r.
Proof. intros Hn. unfold AddNode, Contains, find_in. by rewrite bool_decide_eq_true_2. Qed.

Lemma AddNode_inv r n : RingInv r → RingInv (AddNode n r).
Proof.
  intros HI. destruct (decide (n ∈ chr_physical_nodes r)) as [Hn|Hn]; [by rewrite AddNode_present|].
  split.
  - rewrite AddNode_nodes by done. apply NoDup_app. split; [apply HI|].
    split; [set_solver|apply NoDup_singleton].
  - intros pos m. rewrite AddNode_lookup, AddNode_nodes, AddNode_vnodes by done.
    destruct (chr_ring r !! pos) as [m'|] eqn:E.
    + intros [= <-]. destruct (ri_owner _ HI _ _ E). split; [set_solver|done].
    + case_decide as Hd; [|done]. intros [= <-]. split; [set_solver|].
      apply list_elem_of_fmap in Hd as (i & -> & Hi). apply elem_of_seq in Hi. exists i. split; [lia|done].
Qed.

Lemma elem_of_erase_first x y l : NoDup l → y ∈ erase_first x l ↔ y ∈ l ∧ y ≠ x.
Proof.
  induction 1 as [|z l Hz Hnd IH]; simpl; [set_solver|].
  destruct (bool_decide (z = x)) eqn:E; prop_bool; set_solver.
Qed.

Lemma NoDup_erase_first x l : NoDup l → NoDup (erase_first x l).
Proof.
  induction 1 as [|z l Hz Hnd IH]; simpl; [constructor|].
  destruct (bool_decide (z = x)) eqn:E; [done|]. constructor; [|done].
  rewrite elem_of_erase_first by done. tauto.
Qed.

Lemma length_erase_first x l : x ∈ l → S (length (erase_first x l)) = length l.
Proof.
  induction l as [|z l IH]; simpl; [by intros ?%not_elem_of_nil|].
  destruct (bool_decide (z = x)) eqn:E; prop_bool; [done|]. intros [->|Hx]%elem_of_cons; [done|].
  simpl. by rewrite IH.
Qed.

Lemma RemoveNode_present r n :
  n ∈ chr_physical_nodes r →
  RemoveNode n r = mkRing (chr_vnodes r) (filter (λ e, e.2 ≠ n) (chr_ring r)) (erase_first n (chr_physical_nodes r)).
Proof. intros Hn. unfold RemoveNode, Contains, find_in. by rewrite bool_decide_eq_true_2. Qed.

Lemma RemoveNode_absent r n : n ∉ chr_physical_nodes r → RemoveNode n r = r.
Proof. intros Hn. unfold RemoveNode, Contains, find_in. by rewrite bool_decide_eq_false_2. Qed.

Lemma RemoveNode_inv r n : RingInv r → RingInv (RemoveNode n r).
Proof.
  intros HI. destruct (decide (n ∈ chr_physical_nodes r)) as [Hn|Hn]; [|by rewrite RemoveNode_absent].
  rewrite RemoveNode_present by done. split; simpl; [apply NoDup_erase_first, HI|].
  intros pos m [Hp Hm]%map_lookup_filter_Some. simpl in Hm. destruct (ri_owner _ HI _ _ Hp).
  split; [|done]. rewrite elem_of_erase_first by apply HI. done.
Qed.

(** ** Placement *)

Lemma preference_nodes r key n : RingInv r → n ∈ preference (chr_ring r) key → n ∈ chr_physical_nodes r.
Proof. intros HI [pos Hpos]%elem_of_preference. by apply (ri_owner _ HI) in Hpos as [? _]. Qed.

Lemma NoDup_preference ring key : NoDup (preference ring key).
Proof. apply NoDup_firsts. Qed.

Lemma length_preference r key :
  RingInv r → (length (preference (chr_ring r) key) <= length (chr_physical_nodes r))%nat.
Proof.
  intros HI. apply submseteq_length, NoDup_submseteq; [apply NoDup_preference|].
  intros n. by apply preference_nodes.
Qed.

(** Filtering a map filters its entries. *)
Lemma entries_filter (P : bytes → Prop) `{∀ n, Decision (P n)} ring :
  entries (filter (λ e, P e.2) ring) = filter (λ e, P e.2) (entries ring).
Proof.
  apply (StronglySorted_unique_strong (entry_le Z.le)).
  - intros [p n] [q m] Hp Hq. unfold entry_le. simpl. intros ??. assert (p = q) as -> by lia.
    apply elem_of_in_order in Hp. apply map_lookup_filter_Some in Hp as [Hp _].
    apply list_elem_of_filter in Hq as [_ Hq]. apply elem_of_in_order in Hq. congruence.
  - apply entries_sorted.
  - apply StronglySorted_filter, entries_sorted.
  - apply NoDup_Permutation.
    + eapply NoDup_fmap_1, (NoDup_fst_in_order Z.le).
    + apply NoDup_filter. eapply NoDup_fmap_1, (NoDup_fst_in_order Z.le).
    + intros [p n]. rewrite list_elem_of_filter. unfold entries.
      rewrite !elem_of_in_order, map_lookup_filter_Some. tauto.
Qed.

Lemma filter_snd (P : bytes → Prop) `{∀ n, Decision (P n)} (l : list (Z * bytes)) :
  filter P l.*2 = (filter (λ e, P e.2) l).*2.
Proof.
  induction l as [|e l IH]; [done|]. rewrite fmap_cons, !filter_cons. simpl.
  case_decide; by rewrite ?fmap_cons, IH.
Qed.

Lemma preference_filter (P : bytes → Prop) `{∀ n, Decision (P n)} ring key :
  preference (filter (λ e, P e.2) ring) key = filter P (preference ring key).
Proof.
  unfold preference, clockwise. rewrite entries_filter, <-firsts_filter, filter_snd, filter_app. do 3 f_equal.
  all: rewrite !list_filter_filter; apply list_filter_iff; tauto.
Qed.

Lemma RemoveNode_AddNode r n : RingInv r → n ∉ chr_physical_nodes r → RemoveNode n (AddNode n r) = r.
Proof.
  intros HI Hn. rewrite RemoveNode_present by (rewrite AddNode_nodes by done; set_solver).
  rewrite AddNode_vnodes, AddNode_nodes by done.
  assert (filter (λ e, e.2 ≠ n) (chr_ring (AddNode n r)) = chr_ring r) as ->.
  { apply map_eq. intros pos. apply option_eq. intros m. rewrite map_lookup_filter_Some. simpl.
    rewrite AddNode_lookup by done. destruct (chr_ring r !! pos) as [m'|] eqn:E.
    + split; [tauto|]. intros [= <-]. split; [done|]. intros ->.
      by destruct Hn, (ri_owner _ HI _ _ E).
    + case_decide; naive_solver. }
  assert (erase_first n (chr_physical_nodes r ++ [n]) = chr_physical_nodes r) as ->.
  { clear -Hn. induction (chr_physical_nodes r) as [|x l IH]; simpl.
    + by rewrite bool_decide_eq_true_2.
    + rewrite bool_decide_eq_false_2 by set_solver. rewrite IH by set_solver. done. }
  by destruct r.
Qed.

(** Placement.  The replicas of a key are the first distinct owners met going
    clockwise from its hash: no node twice, members only, the primary first, at
    most [count] and at most as many as there are members, and exactly that many
    when every member owns a position. *)
Theorem ring_placement r key count :
  RingInv r →
  let reps := LookupReplicas r key count in
  let most := Nat.min count (length (chr_physical_nodes r)) in
  reps = take most (firsts (clockwise (Hash64 key) (entries (chr_ring r))).*2) ∧
  NoDup reps ∧ reps ⊆ chr_physical_nodes r ∧ (length reps <= most)%nat ∧
  (most ≠ 0%nat → default [] (head reps) = LookupPrimary r key) ∧
  ((∀ n, n ∈ chr_physical_nodes r → ∃ pos, chr_ring r !! pos = Some n) → length reps = most).
Proof.
  intros HI. simpl. rewrite LookupReplicas_preference. split; [done|]. split_and!.
  - apply NoDup_take, NoDup_preference.
  - intros n Hn. apply (preference_nodes _ key); [done|]. eapply elem_of_take in Hn as (i & Hi & _).
    by eapply list_elem_of_lookup_2.
  - rewrite length_take. lia.
  - intros Hm. rewrite LookupPrimary_preference.
    destruct (Nat.min _ _); [done|]. by destruct (preference (chr_ring r) key).
  - intros Hall. rewrite length_take.
    enough (length (chr_physical_nodes r) <= length (preference (chr_ring r) key))%nat by lia.
    apply submseteq_length, NoDup_submseteq; [apply HI|]. intros n Hn. by apply elem_of_preference, Hall.
Qed.

Lemma LookupReplicas_take r key count :
  RingInv r → LookupReplicas r key count = take count (preference (chr_ring r) key).
Proof.
  intros HI. rewrite LookupReplicas_preference. pose proof (length_preference r key HI).
  destruct (Nat.le_ge_cases count (length (chr_physical_nodes r))) as [Hc|Hc].
  - by rewrite Nat.min_l.
  - rewrite Nat.min_r by done. by rewrite !take_ge by lia.
Qed.

(** An element of a list without duplicates, and what filtering it out leaves. *)
Lemma filter_ne_split (x : bytes) l :
  NoDup l → x ∈ l → ∃ a b, l = a ++ x :: b ∧ filter (.≠ x) l = a ++ b.
Proof.
  intros Hnd (a & b & ->)%list_elem_of_split. apply NoDup_app in Hnd as (_ & Ha & [Hb _]%NoDup_cons).
  exists a, b. split; [done|]. rewrite filter_app, filter_cons_False by auto.
  f_equal; apply filter_all; intros y Hy ->; [apply (Ha x Hy); by left|done].
Qed.

Lemma not_elem_of_take (x : bytes) k l : x ∉ l → x ∉ take k l.
Proof. intros Hl (i & Hi & _)%elem_of_take. by eapply Hl, list_elem_of_lookup_2. Qed.

Lemma take_insert_middle (x : bytes) a b count :
  ∃ before after, take count (a ++ b) = before ++ after ∧
    (take count (a ++ x :: b) = take count (a ++ b) ∨
     take count (a ++ x :: b) = take count (before ++ x :: after)).
Proof.
  destruct (Nat.le_gt_cases count (length a)) as [Hc|Hc].
  - exists (take count (a ++ b)), []. rewrite app_nil_r. split; [done|]. left. by rewrite !take_app_le by done.
  - exists a, (take (count - length a) b). split; [by rewrite take_app, take_ge by lia|]. right.
    rewrite !take_app, !(take_ge a) by lia. destruct (count - length a)%nat as [|k] eqn:Ek; [lia|]. simpl.
    do 2 f_equal. rewrite take_take. f_equal. lia.
Qed.

Lemma take_remove_middle (x : bytes) a b count :
  x ∉ a ++ b → ∃ extra, take count (a ++ b) = filter (.≠ x) (take count (a ++ x :: b)) ++ extra ∧
    (length extra <= 1)%nat ∧ (x ∉ take count (a ++ x :: b) → extra = []).
Proof.
  intros [Ha Hb]%not_elem_of_app.
  assert (∀ l : list bytes, x ∉ l → filter (.≠ x) l = l) as Hf.
  { intros l Hl. apply filter_all. by intros y Hy ->. }
  destruct (Nat.le_gt_cases count (length a)) as [Hc|Hc].
  - exists []. rewrite !take_app_le, app_nil_r by done. split; [|by split; [cbn; lia|]]. symmetry. by apply Hf, not_elem_of_take.
  - destruct (count - length a)%nat as [|k] eqn:Ek; [lia|]. exists (take 1 (drop k b)).
    rewrite !take_app, !(take_ge a), Ek by lia. cbn [take]. split_and!.
    + rewrite filter_app, filter_cons_False, !Hf by auto using not_elem_of_take.
      rewrite <-app_assoc, take_take_drop. do 2 f_equal. lia.
    + rewrite length_take. lia.
    + intros []. apply elem_of_app. right. by left.
Qed.

(** A node that joins is inserted in the clockwise order of the key, or owns no
    position. *)
Lemma AddNode_preference r n key :
  RingInv r → n ∉ chr_physical_nodes r →
  preference (chr_ring (AddNode n r)) key = preference (chr_ring r) key ∨
  ∃ a b, preference (chr_ring r) key = a ++ b ∧ preference (chr_ring (AddNode n r)) key = a ++ n :: b.
Proof.
  intros HI Hn.
  assert (preference (chr_ring r) key = filter (.≠ n) (preference (chr_ring (AddNode n r)) key)) as Epref.
  { rewrite <-(RemoveNode_AddNode r n HI Hn) at 1.
    rewrite RemoveNode_present by (rewrite AddNode_nodes by done; set_solver). exact (preference_filter (.≠ n) _ _). }
  destruct (decide (n ∈ preference (chr_ring (AddNode n r)) key)) as [Hin|Hout].
  - right. destruct (filter_ne_split n _ (NoDup_preference _ _) Hin) as (a & b & E & Ef).
    exists a, b. by rewrite Epref.
  - left. rewrite Epref. symmetry. apply filter_all. by intros m Hm ->.
Qed.

(** A node joins. *)
Lemma ring_join r n key count :
  RingInv r → n ∉ chr_physical_nodes r →
  let old := LookupReplicas r key count in
  let new := LookupReplicas (AddNode n r) key count in
  (∃ before after, old = before ++ after ∧ (new = old ∨ new = take count (before ++ n :: after))) ∧
  ((∃ i, (i < chr_vnodes r)%nat ∧ chr_ring r !! vnode_pos n i = None) → (length old < count)%nat → n ∈ new) ∧
  (LookupPrimary (AddNode n r) key ≠ LookupPrimary r key → LookupPrimary (AddNode n r) key = n) ∧
  RemoveNode n (AddNode n r) = r.
Proof.
  intros HI Hn old new. subst old new. rewrite !LookupReplicas_take by auto using AddNode_inv.
  split_and!; [..|by apply RemoveNode_AddNode].
  - destruct (AddNode_preference r n key HI Hn) as [->|(a & b & -> & ->)]; [|apply take_insert_middle].
    exists (take count (preference (chr_ring r) key)), []. rewrite app_nil_r. auto.
  - intros (i & Hi & Hfree) Hlen. rewrite length_take in Hlen.
    assert (n ∈ preference (chr_ring (AddNode n r)) key) as Hin.
    { apply elem_of_preference. exists (vnode_pos n i). rewrite AddNode_lookup, Hfree by done.
      rewrite decide_True; [done|]. apply list_elem_of_fmap_2. apply elem_of_seq. lia. }
    rewrite take_ge; [done|].
    destruct (AddNode_preference r n key HI Hn) as [->|(a & b & E & ->)]; [lia|].
    rewrite E, length_app in Hlen. rewrite length_app. cbn [length]. lia.
  - rewrite !LookupPrimary_preference.
    destruct (AddNode_preference r n key HI Hn) as [->|(a & b & -> & ->)]; [done|]. by destruct a.
Qed.

(** A node leaves. *)
Lemma ring_leave r n key count :
  RingInv r → n ∈ chr_physical_nodes r →
  let old := LookupReplicas r key count in
  let new := LookupReplicas (RemoveNode n r) key count in
  n ∉ new ∧
  (∃ extra, new = filter (.≠ n) old ++ extra ∧ (length extra <= 1)%nat ∧ (n ∉ old → new = old)) ∧
  (LookupPrimary r key ≠ n → LookupPrimary (RemoveNode n r) key = LookupPrimary r key).
Proof.
  intros HI Hn old new. subst old new. rewrite !LookupReplicas_take by auto using RemoveNode_inv.
  assert (preference (chr_ring (RemoveNode n r)) key = filter (.≠ n) (preference (chr_ring r) key)) as E.
  { rewrite RemoveNode_present by done. exact (preference_filter (.≠ n) _ _). }
  rewrite E. split_and!.
  - intros (i & Hi & _)%elem_of_take. apply list_elem_of_lookup_2, list_elem_of_filter in Hi as [Hne _]. by apply Hne.
  - destruct (decide (n ∈ preference (chr_ring r) key)) as [Hin|Hout].
    + pose proof (NoDup_preference (chr_ring r) key) as Hnd.
      destruct (filter_ne_split n _ Hnd Hin) as (a & b & Ep & ->). rewrite Ep in *.
      destruct (take_remove_middle n a b count) as (extra & Et & Hlen & Hno).
      { apply NoDup_app in Hnd as (_ & Ha & [Hb _]%NoDup_cons). apply not_elem_of_app. split; [|done].
        intros Hx. apply (Ha n Hx). by left. }
      exists extra. rewrite Et. split_and!; [done..|]. intros Hx. rewrite (Hno Hx), app_nil_r.
      apply filter_all. by intros y Hy ->.
    + assert (filter (.≠ n) (preference (chr_ring r) key) = preference (chr_ring r) key) as ->
        by (apply filter_all; by intros m Hm ->).
      exists []. rewrite app_nil_r. split_and!; [|cbn; lia|done]. symmetry. apply filter_all.
      intros m Hm ->. by apply (not_elem_of_take n count) in Hout.
  - rewrite !LookupPrimary_preference, E. clear E. destruct (preference (chr_ring r) key) as [|m l]; [done|]. simpl.
    intros Hm. rewrite filter_cons_True by done. done.
Qed.

(** C32: membership changes move as little as they can.  The replicas of a key are
    the first [count] distinct owners met going clockwise from its hash, the primary
    first.  When a node joins, a replica set is unchanged, or the node is inserted at
    one place of it and at most the last member drops out; it is inserted whenever
    there was room and one of its virtual nodes has a position of its own; a key
    whose primary changes moves to the new node; and removing the node again restores
    the ring.  When a node leaves, it is in no replica set any more; a set it was not
    in is unchanged, and in the others the remaining members stay in their order and
    at most one is added at the end; a key keeps its primary unless that was the
    node. *)
Theorem ring_minimal_movement r n key count :
  RingInv r →
  let old := LookupReplicas r key count in
  old = take count (firsts (clockwise (Hash64 key) (entries (chr_ring r))).*2) ∧
  (count ≠ 0%nat → LookupPrimary r key = default [] (head old)) ∧
  (n ∉ chr_physical_nodes r →
     let new := LookupReplicas (AddNode n r) key count in
     (∃ before after, old = before ++ after ∧ (new = old ∨ new = take count (before ++ n :: after))) ∧
     ((∃ i, (i < chr_vnodes r)%nat ∧ chr_ring r !! vnode_pos n i = None) → (length old < count)%nat → n ∈ new) ∧
     (LookupPrimary (AddNode n r) key ≠ LookupPrimary r key → LookupPrimary (AddNode n r) key = n) ∧
     RemoveNode n (AddNode n r) = r) ∧
  (n ∈ chr_physical_nodes r →
     let new := LookupReplicas (RemoveNode n r) key count in
     n ∉ new ∧
     (∃ extra, new = filter (.≠ n) old ++ extra ∧ (length extra <= 1)%nat ∧ (n ∉ old → new = old)) ∧
     (LookupPrimary r key ≠ n → LookupPrimary (RemoveNode n r) key = LookupPrimary r key)).
Proof.
  intros HI old. split; [by apply LookupReplicas_take|]. split.
  - intros Hc. subst old. rewrite LookupReplicas_take, LookupPrimary_preference by done.
    destruct count; [done|]. by destruct (preference _ _).
  - split; intros Hn; [by apply ring_join|by apply ring_leave].
Qed.

(** The ring of a list of members, added in that order. *)
Definition ring_of (virtual_nodes : nat) (members : list bytes) : ConsistentHashRing :=
  foldl (λ r n, AddNode n r) (Ring_new virtual_nodes) members.

(** No two members share a position. *)
Definition no_collision (virtual_nodes : nat) (members : list bytes) : Prop :=
  ∀ n m i j, n ∈ members → m ∈ members → (i < virtual_nodes)%nat → (j < virtual_nodes)%nat →
    vnode_pos n i = vnode_pos m j → n = m.

Lemma ring_of_snoc k l n : ring_of k (l ++ [n]) = AddNode n (ring_of k l).
Proof. unfold ring_of. by rewrite foldl_snoc. Qed.

Lemma ring_of_shape k l :
  NoDup l → chr_vnodes (ring_of k l) = chr_vnodes (Ring_new k) ∧ chr_physical_nodes (ring_of k l) = l.
Proof.
  induction l as [|n l IH] using rev_ind; [done|]. intros (Hl & Hn & _)%NoDup_app.
  destruct (IH Hl) as [Ev En]. rewrite ring_of_snoc, AddNode_vnodes. split; [done|].
  rewrite AddNode_nodes, En; [done|]. rewrite En. set_solver.
Qed.

Lemma ring_of_lookup k l pos n :
  NoDup l → no_collision (chr_vnodes (Ring_new k)) l →
  chr_ring (ring_of k l) !! pos = Some n ↔
  n ∈ l ∧ ∃ i, (i < chr_vnodes (Ring_new k))%nat ∧ pos = vnode_pos n i.
Proof.
  intros Hnd. revert pos n. induction l as [|x l IH] using rev_ind; intros pos n Hnc.
  { simpl. rewrite lookup_empty. set_solver. }
  apply NoDup_app in Hnd as (Hl & Hx & _). destruct (ring_of_shape k l Hl) as [Ev En].
  assert (no_collision (chr_vnodes (Ring_new k)) l) as Hnc'.
  { intros a b i j Ha Hb. apply Hnc; set_solver. }
  assert (x ∉ l) as Hxl by set_solver.
  rewrite ring_of_snoc, AddNode_lookup by (by rewrite En). rewrite Ev.
  assert (pos ∈ vnode_pos x <$> seq 0 (chr_vnodes (Ring_new k)) ↔
          ∃ i, (i < chr_vnodes (Ring_new k))%nat ∧ pos = vnode_pos x i) as Hpos.
  { rewrite list_elem_of_fmap. split; intros (i & H1 & H2); exists i; rewrite ?elem_of_seq in *; split; auto; lia. }
  destruct (chr_ring (ring_of k l) !! pos) as [m|] eqn:E.
  - apply (IH Hl) in E as (Hm & i & Hi & ->); [|done]. split.
    + intros [= <-]. split; [set_solver|]. eauto.
    + intros (Hn & j & Hj & Ep). f_equal. apply (Hnc m n i j); [apply elem_of_app; by left|done|done|done|exact Ep].
  - rewrite elem_of_app, list_elem_of_singleton. case_decide as Hd; rewrite Hpos in Hd.
    + split; [intros [= <-]; eauto|]. intros (Hn & i & Hi & ->). destruct Hd as (j & Hj & Ep).
      f_equal. apply (Hnc x n j i); [apply elem_of_app; right; by left|apply elem_of_app; by rewrite list_elem_of_singleton|done|done|exact (eq_sym Ep)].
    + split; [done|]. intros ([Hn| ->] & Hi); [|by destruct Hd].
      exfalso. assert (chr_ring (ring_of k l) !! pos = Some n) as E' by (by apply IH). congruence.
Qed.

(** Placement depends on the members only, not on the order in which they were
    added, when their virtual nodes do not collide. *)
Theorem ring_order_independent k members members' key count :
  NoDup members → members ≡ₚ members' → no_collision (chr_vnodes (Ring_new k)) members →
  LookupReplicas (ring_of k members) key count = LookupReplicas (ring_of k members') key count ∧
  LookupPrimary (ring_of k members) key = LookupPrimary (ring_of k members') key.
Proof.
  intros Hnd Hp Hnc.
  assert (NoDup members') as Hnd' by (by rewrite <-Hp).
  assert (no_collision (chr_vnodes (Ring_new k)) members') as Hnc'.
  { intros n m i j. rewrite <-!(elem_of_Permutation_proper _ _ _ Hp). apply Hnc. }
  assert (chr_ring (ring_of k members) = chr_ring (ring_of k members')) as Er.
  { apply map_eq. intros pos. apply option_eq. intros n. rewrite !ring_of_lookup by done.
    by rewrite Hp. }
  rewrite !LookupReplicas_preference, !LookupPrimary_preference, Er.
  rewrite (proj2 (ring_of_shape k _ Hnd)), (proj2 (ring_of_shape k _ Hnd')). by rewrite (Permutation_length Hp).
Qed.

Lemma ring_of_inv k l : RingInv (ring_of k l).
Proof.
  induction l as [|n l IH] using rev_ind; [apply RingInv_new|]. rewrite ring_of_snoc. by apply AddNode_inv.
Qed.

(** ** Concrete rings *)

Definition node_a : bytes := lit "node-a".
Definition node_b : bytes := lit "node-b".
Definition node_c : bytes := lit "node-c".
Definition ring_ab : ConsistentHashRing := ring_of 2 [node_a; node_b].

Lemma ring_placement_witness :
  LookupReplicas ring_ab (lit "k") 2 = [node_a; node_b] ∧ NoDup (LookupReplicas ring_ab (lit "k") 2).
Proof.
  split; [vm_compute; reflexivity|].
  apply (ring_placement ring_ab (lit "k") 2). apply ring_of_inv.
Defined.

Lemma ring_minimal_movement_witness :
  LookupReplicas ring_ab (lit "k") 2 = [node_a; node_b] ∧
  LookupReplicas (AddNode node_c ring_ab) (lit "k") 2 = [node_c; node_a] ∧
  RemoveNode node_c (AddNode node_c ring_ab) = ring_ab ∧
  LookupReplicas (RemoveNode node_b ring_ab) (lit "k") 2 = [node_a] ∧
  node_b ∉ LookupReplicas (RemoveNode node_b ring_ab) (lit "k") 2.
Proof.
  split; [vm_compute; reflexivity|]. split; [vm_compute; reflexivity|]. split.
  - destruct (ring_minimal_movement ring_ab node_c (lit "k") 2 (ring_of_inv _ _)) as (_ & _ & Hjoin & _).
    refine (proj2 (proj2 (proj2 (Hjoin _)))). apply (bool_decide_unpack _). vm_compute. reflexivity.
  - split; [vm_compute; reflexivity|].
    destruct (ring_minimal_movement ring_ab node_b (lit "k") 2 (ring_of_inv _ _)) as (_ & _ & _ & Hleave).
    refine (proj1 (Hleave _)). apply (bool_decide_unpack _). vm_compute. reflexivity.
Defined.

Lemma ring_order_independent_witness :
  LookupReplicas (ring_of 1 [node_a; node_b]) (lit "k") 2 =
  LookupReplicas (ring_of 1 [node_b; node_a]) (lit "k") 2.
Proof.
  refine (proj1 (ring_order_independent 1 [node_a; node_b] [node_b; node_a] (lit "k") 2 _ _ _)).
  - apply (bool_decide_unpack _). vm_compute. reflexivity.
  - apply Permutation_swap.
  - assert ((vnode_pos node_a 0 =? vnode_pos node_b 0) = false) as Hne by (vm_compute; reflexivity).
    apply Z.eqb_neq in Hne.
    intros n m i j Hn Hm Hi Hj. simpl in Hi, Hj. replace i with 0%nat by lia. replace j with 0%nat by lia.
    apply elem_of_cons in Hn as [->|Hn]; [|apply list_elem_of_singleton in Hn as ->];
      (apply elem_of_cons in Hm as [->|Hm]; [|apply list_elem_of_singleton in Hm as ->]); intros E;
      solve [reflexivity | destruct (Hne E) | destruct (Hne (eq_sym E))].
Defined.
