(* ===== verification/ClusterMap.v ===== *)
(** * Cluster membership

    [include/cluster/node_info.h], [include/cluster/cluster_map.h] and
    [src/cluster/cluster_map.cc]: the table of nodes and the ring that places keys
    on them, kept in step. *)

From stdpp Require Import base gmap numbers list.
From Stdlib Require Import ZArith Lia.
From S2P Require Import Prelude Sha256 Ring.

Local Open Scope Z_scope.
Local Opaque Hash64 vnode_pos.

Inductive NodeState := kJoining | kHealthy | kSuspect | kUnavailable | kRecovering.

#[global] Instance NodeState_eq_dec : EqDecision NodeState.
Proof. solve_decision. Defined.

Definition NodeStateName (state : NodeState) : bytes :=
  match state with
  | kJoining => lit "JOINING"
  | kHealthy => lit "HEALTHY"
  | kSuspect => lit "SUSPECT"
  | kUnavailable => lit "UNAVAILABLE"
  | kRecovering => lit "RECOVERING"
  end.

Record NodeInfo := mkNodeInfo {
  ni_id : bytes;
  ni_address : bytes;
  ni_state : NodeState;
  ni_capacity_bytes : Z;
  ni_last_heartbeat_ms : Z;
}.

#[global] Instance NodeInfo_eq_dec : EqDecision NodeInfo.
Proof. solve_decision. Defined.

(** A [NodeInfo] of which only the id and the address are set. *)
Definition NodeInfo_at (id address : bytes) : NodeInfo := mkNodeInfo id address kHealthy 0 0.

Record ClusterMap := mkClusterMap {
  cm_nodes : list NodeInfo;
  cm_ring : ConsistentHashRing;
}.

Implicit Types cm : ClusterMap.

Definition ClusterMap_new (virtual_nodes_per_node : nat) : ClusterMap :=
  mkClusterMap [] (Ring_new virtual_nodes_per_node).

(** [std::find_if] by id: the index of the first match. *)
Definition find_node (id : bytes) (nodes : list NodeInfo) : option (nat * NodeInfo) :=
  list_find (λ n, ni_id n = id) nodes.

Definition AddOrUpdateNode (node : NodeInfo) cm : ClusterMap :=
  match find_node (ni_id node) (cm_nodes cm) with
  | Some (i, _) => mkClusterMap (<[i := node]> (cm_nodes cm)) (cm_ring cm)
  | None => mkClusterMap (cm_nodes cm ++ [node]) (AddNode (ni_id node) (cm_ring cm))
  end.

Definition RemoveNode (node_id : bytes) cm : bool * ClusterMap :=
  match find_node node_id (cm_nodes cm) with
  | None => (false, cm)
  | Some (i, _) => (true, mkClusterMap (delete i (cm_nodes cm)) (Ring.RemoveNode node_id (cm_ring cm)))
  end.

Definition GetNode cm (node_id : bytes) : option NodeInfo :=
  match find_node node_id (cm_nodes cm) with Some (_, n) => Some n | None => None end.

Definition Nodes cm : list NodeInfo := cm_nodes cm.
Definition Size cm : nat := length (cm_nodes cm).
Definition PlacementFor cm (key : bytes) (replication_factor : nat) : list bytes :=
  LookupReplicas (cm_ring cm) key replication_factor.
Definition PrimaryFor cm (key : bytes) : bytes := LookupPrimary (cm_ring cm) key.

(** ** The table and the ring agree *)

Record ClusterInv cm : Prop := {
  ci_ids : ni_id <$> cm_nodes cm = chr_physical_nodes (cm_ring cm);
  ci_ring : RingInv (cm_ring cm);
}.

Lemma ClusterInv_new k : ClusterInv (ClusterMap_new k).
Proof. split; [done|apply RingInv_new]. Qed.

Lemma find_node_Some id nodes i n :
  find_node id nodes = Some (i, n) → nodes !! i = Some n ∧ ni_id n = id.
Proof. unfold find_node. intros (H1 & H2 & _)%list_find_Some. done. Qed.

Lemma find_node_None id nodes : find_node id nodes = None ↔ id ∉ ni_id <$> nodes.
Proof.
  unfold find_node. rewrite list_find_None, Forall_forall. split.
  - intros Hall (n & -> & Hn)%list_elem_of_fmap. by apply (Hall n Hn).
  - intros Hid n Hn E. apply Hid. subst id. by apply list_elem_of_fmap_2.
Qed.

Lemma AddOrUpdateNode_inv node cm : ClusterInv cm → ClusterInv (AddOrUpdateNode node cm).
Proof.
  intros [Hids HI]. unfold AddOrUpdateNode.
  destruct (find_node (ni_id node) (cm_nodes cm)) as [[i n]|] eqn:E.
  - apply find_node_Some in E as [Hi En]. split; [|done]. simpl. rewrite <-Hids, list_fmap_insert.
    apply list_insert_id. by rewrite list_lookup_fmap, Hi, <-En.
  - apply find_node_None in E. rewrite Hids in E. split; simpl; [|by apply AddNode_inv].
    by rewrite AddNode_nodes, fmap_app, Hids.
Qed.

Lemma fmap_delete_nodes (nodes : list NodeInfo) i : ni_id <$> delete i nodes = delete i (ni_id <$> nodes).
Proof. revert i. induction nodes as [|n nodes IH]; intros [|i]; simpl; f_equal; auto. Qed.

Lemma erase_first_delete x l i : NoDup l → l !! i = Some x → erase_first x l = delete i l.
Proof.
  intros Hnd. revert i. induction Hnd as [|y l Hy Hnd IH]; intros i; [done|].
  destruct i as [|i]; simpl.
  - intros [= ->]. by rewrite bool_decide_eq_true_2.
  - intros Hi. rewrite bool_decide_eq_false_2; [by rewrite (IH i)|]. intros ->.
    apply Hy. by eapply list_elem_of_lookup_2.
Qed.

Lemma ClusterMap_RemoveNode_inv node_id cm : ClusterInv cm → ClusterInv (RemoveNode node_id cm).2.
Proof.
  intros [Hids HI]. unfold RemoveNode.
  destruct (find_node node_id (cm_nodes cm)) as [[i n]|] eqn:E; [|done].
  apply find_node_Some in E as [Hi En]. split; simpl; [|by apply Ring.RemoveNode_inv].
  assert (chr_physical_nodes (cm_ring cm) !! i = Some node_id) as Hi'.
  { by rewrite <-Hids, list_lookup_fmap, Hi, <-En. }
  rewrite RemoveNode_present by (by eapply list_elem_of_lookup_2). simpl.
  by rewrite fmap_delete_nodes, Hids, (erase_first_delete _ _ i) by (done || apply HI).
Qed.

(** The operations that change a cluster map. *)
Inductive cluster_op := OpAdd (node : NodeInfo) | OpRemove (node_id : bytes).

Definition run_cluster (cm : ClusterMap) (op : cluster_op) : ClusterMap :=
  match op with OpAdd node => AddOrUpdateNode node cm | OpRemove id => (RemoveNode id cm).2 end.

Lemma run_cluster_inv ops cm : ClusterInv cm → ClusterInv (foldl run_cluster cm ops).
Proof.
  revert cm. induction ops as [|op ops IH]; intros cm HI; simpl; [done|].
  apply IH. destruct op; [by apply AddOrUpdateNode_inv|by apply ClusterMap_RemoveNode_inv].
Qed.

Lemma GetNode_Some cm id : is_Some (GetNode cm id) ↔ id ∈ ni_id <$> cm_nodes cm.
Proof.
  unfold GetNode. destruct (find_node id (cm_nodes cm)) as [[i n]|] eqn:E.
  - apply find_node_Some in E as [Hi <-]. split; [|eauto]. intros _.
    apply list_elem_of_fmap_2. by eapply list_elem_of_lookup_2.
  - apply find_node_None in E. split; [by intros [? ?]|done].
Qed.

(** *** The table *)

Lemma GetNode_lookup cm id n :
  NoDup (ni_id <$> cm_nodes cm) → GetNode cm id = Some n ↔ n ∈ cm_nodes cm ∧ ni_id n = id.
Proof.
  intros Hnd. unfold GetNode. destruct (find_node id (cm_nodes cm)) as [[i m]|] eqn:E.
  - apply find_node_Some in E as [Hi Em]. split.
    + intros [= <-]. split; [by eapply list_elem_of_lookup_2|done].
    + intros [[j Hj]%list_elem_of_lookup_1 En]. assert (i = j) as <-; [|congruence].
      eapply NoDup_lookup; [exact Hnd|..]; rewrite list_lookup_fmap, ?Hi, ?Hj; cbn; by rewrite ?Em, ?En.
  - apply find_node_None in E. split; [done|]. intros [Hn <-]. destruct E. by apply list_elem_of_fmap_2.
Qed.

Lemma ClusterInv_ids cm : ClusterInv cm → NoDup (ni_id <$> cm_nodes cm).
Proof. intros [-> HI]. apply HI. Qed.

Lemma GetNode_add node cm id :
  ClusterInv cm →
  GetNode (AddOrUpdateNode node cm) id = if decide (ni_id node = id) then Some node else GetNode cm id.
Proof.
  intros HC. pose proof (ClusterInv_ids _ HC) as Hnd. pose proof (ClusterInv_ids _ (AddOrUpdateNode_inv node _ HC)) as Hnd'.
  apply option_eq. intros n. rewrite GetNode_lookup by done.
  assert (n ∈ cm_nodes (AddOrUpdateNode node cm) ↔ n = node ∨ n ∈ cm_nodes cm ∧ ni_id n ≠ ni_id node) as ->.
  { unfold AddOrUpdateNode. destruct (find_node (ni_id node) (cm_nodes cm)) as [[i m]|] eqn:E; cbn [cm_nodes].
    - apply find_node_Some in E as [Hi Em]. split.
      + intros [j Hj]%list_elem_of_lookup_1. apply list_lookup_insert_Some in Hj as [(_ & <- & _)|[Hne Hj]]; [by left|].
        right. split; [by eapply list_elem_of_lookup_2|]. intros En. apply Hne.
        eapply NoDup_lookup; [exact Hnd|..]; rewrite list_lookup_fmap, ?Hi, ?Hj; cbn; by rewrite ?Em, ?En.
      + intros [->|[[j Hj]%list_elem_of_lookup_1 En]].
        * apply (list_elem_of_lookup_2 _ i), list_lookup_insert_eq. by eapply lookup_lt_Some.
        * apply (list_elem_of_lookup_2 _ j). rewrite list_lookup_insert_ne; [done|]. intros ->. congruence.
    - apply find_node_None in E. rewrite elem_of_app, list_elem_of_singleton. split.
      + intros [Hn|?]; [right|by left]. split; [done|]. intros En. apply E. rewrite <-En. by apply list_elem_of_fmap_2.
      + intros [?|[? _]]; auto. }
  case_decide as Hd.
  - split; [intros [[->|[_ ?]] ?]; congruence|]. intros [= <-]. auto.
  - rewrite GetNode_lookup by done. split; [intros [[->|[? _]] ?]; [done|auto]|]. intros [? <-]. auto.
Qed.

Lemma GetNode_remove node_id cm id :
  ClusterInv cm → GetNode (RemoveNode node_id cm).2 id = if decide (node_id = id) then None else GetNode cm id.
Proof.
  intros HC. pose proof (ClusterInv_ids _ HC) as Hnd.
  pose proof (ClusterInv_ids _ (ClusterMap_RemoveNode_inv node_id _ HC)) as Hnd'.
  apply option_eq. intros n. rewrite GetNode_lookup by done.
  assert (n ∈ cm_nodes (RemoveNode node_id cm).2 ↔ n ∈ cm_nodes cm ∧ ni_id n ≠ node_id) as ->.
  { unfold RemoveNode. destruct (find_node node_id (cm_nodes cm)) as [[i m]|] eqn:E; cbn [snd cm_nodes].
    - apply find_node_Some in E as [Hi Em]. rewrite <-(take_drop_middle _ _ _ Hi) in Hnd.
      rewrite <-(take_drop_middle _ _ _ Hi) at 2. rewrite delete_take_drop, !elem_of_app, elem_of_cons.
      rewrite fmap_app, fmap_cons, Em in Hnd. apply NoDup_app in Hnd as (_ & H1 & [H2 _]%NoDup_cons).
      split; [|intros [[?|[->|?]] ?]; auto; done]. intros [Hn|Hn]; (split; [auto|]); intros <-.
      + eapply H1; [by apply list_elem_of_fmap_2|by left].
      + apply H2. by apply list_elem_of_fmap_2.
    - apply find_node_None in E. split; [|tauto]. intros Hn. split; [done|]. intros <-. apply E.
      by apply list_elem_of_fmap_2. }
  case_decide as Hd; [split; [intros [[_ ?] ?]; congruence|done]|].
  rewrite GetNode_lookup by done. split; [tauto|]. intros [? <-]. auto.
Qed.

Definition op_id (op : cluster_op) : bytes := match op with OpAdd node => ni_id node | OpRemove id => id end.

(** The last operation on an id decides. *)
Lemma GetNode_run ops cm id :
  ClusterInv cm →
  GetNode (foldl run_cluster cm ops) id =
  match last (filter (λ op, op_id op = id) ops) with
  | Some (OpAdd node) => Some node
  | Some (OpRemove _) => None
  | None => GetNode cm id
  end.
Proof.
  intros HC. induction ops as [|op ops IH] using rev_ind; [done|].
  rewrite foldl_snoc, filter_app, filter_cons, filter_nil. pose proof (run_cluster_inv ops cm HC) as HC'.
  destruct op as [node|x]; cbn [run_cluster op_id]; [rewrite GetNode_add by done|rewrite GetNode_remove by done];
    case_decide; by rewrite ?last_snoc, ?app_nil_r.
Qed.

(** *** The ring *)

(** Every member owns the positions of all its virtual nodes. *)
Definition ring_exact (r : ConsistentHashRing) : Prop :=
  ∀ pos n, chr_ring r !! pos = Some n ↔
    n ∈ chr_physical_nodes r ∧ ∃ i, (i < chr_vnodes r)%nat ∧ pos = vnode_pos n i.

Lemma ring_exact_add r n :
  RingInv r → ring_exact r → no_collision (chr_vnodes r) (n :: chr_physical_nodes r) → ring_exact (AddNode n r).
Proof.
  intros HI Hx Hnc. destruct (decide (n ∈ chr_physical_nodes r)) as [Hn|Hn]; [by rewrite AddNode_present|].
  intros pos m. split; [apply (AddNode_inv _ _ HI)|]. rewrite AddNode_lookup, AddNode_nodes, AddNode_vnodes by done.
  intros [Hm (i & Hi & ->)]. rewrite elem_of_app, list_elem_of_singleton in Hm.
  destruct (chr_ring r !! vnode_pos m i) as [m'|] eqn:E.
  - apply Hx in E as (Hm' & j & Hj & E). f_equal. symmetry. apply (Hnc m m' i j); [..|done|done|done]; set_solver.
  - destruct Hm as [Hm| ->]; [|rewrite decide_True; [done|]; apply list_elem_of_fmap_2, elem_of_seq; lia].
    assert (chr_ring r !! vnode_pos m i = Some m) as E' by (apply Hx; eauto). congruence.
Qed.

Lemma ring_exact_remove r n : RingInv r → ring_exact r → ring_exact (Ring.RemoveNode n r).
Proof.
  intros HI Hx. destruct (decide (n ∈ chr_physical_nodes r)) as [Hn|Hn]; [|by rewrite RemoveNode_absent].
  rewrite RemoveNode_present by done. intros pos m. cbn [chr_ring chr_physical_nodes chr_vnodes].
  rewrite map_lookup_filter_Some, elem_of_erase_first by apply HI. cbn [snd]. rewrite (Hx pos m). tauto.
Qed.

(** The ids that the operations add. *)
Definition added_ids (ops : list cluster_op) : list bytes :=
  omap (λ op, match op with OpAdd node => Some (ni_id node) | OpRemove _ => None end) ops.

Lemma run_cluster_ring virtual_nodes ops :
  let r := cm_ring (foldl run_cluster (ClusterMap_new virtual_nodes) ops) in
  let vnodes := chr_vnodes (Ring_new virtual_nodes) in
  chr_vnodes r = vnodes ∧ chr_physical_nodes r ⊆ added_ids ops ∧
  (no_collision vnodes (added_ids ops) → ring_exact r).
Proof.
  cbn zeta. induction ops as [|op ops (Hv & Hs & Hx)] using rev_ind.
  { split; [done|]. split; [done|]. intros _ pos n. cbn. rewrite lookup_empty. set_solver. }
  pose proof (run_cluster_inv ops _ (ClusterInv_new virtual_nodes)) as [_ HI].
  rewrite foldl_snoc. set (cm := foldl run_cluster (ClusterMap_new virtual_nodes) ops) in *.
  unfold added_ids. rewrite omap_app. fold (added_ids ops).
  assert (∀ l l', no_collision (chr_vnodes (Ring_new virtual_nodes)) l → l' ⊆ l →
    no_collision (chr_vnodes (Ring_new virtual_nodes)) l') as Hsub.
  { intros l l' Hnc Hl n m i j Hn Hm. apply Hnc; auto. }
  destruct op as [node|id]; cbn [run_cluster omap list_omap]; unfold AddOrUpdateNode, RemoveNode;
    destruct (find_node _ _) as [[i n]|] eqn:E; cbn [snd cm_ring].
  - split; [done|]. split; [set_solver|]. intros Hnc. apply Hx. eapply Hsub; [done|set_solver].
  - apply find_node_None in E. destruct (run_cluster_inv ops _ (ClusterInv_new virtual_nodes)) as [Hids _]. fold cm in Hids.
    rewrite Hids in E. rewrite AddNode_vnodes, AddNode_nodes by done. split; [done|]. split; [set_solver|].
    intros Hnc. apply ring_exact_add; [done|apply Hx; eapply Hsub; [done|set_solver]|].
    rewrite Hv. eapply Hsub; [done|set_solver].
  - destruct (decide (id ∈ chr_physical_nodes (cm_ring cm))) as [Hn|Hn].
    + rewrite app_nil_r. split_and!; [by rewrite RemoveNode_present|..].
      * rewrite RemoveNode_present by done. cbn. intros m. rewrite elem_of_erase_first by apply HI. set_solver.
      * intros Hnc. apply ring_exact_remove; auto.
    + rewrite RemoveNode_absent, app_nil_r by done. done.
  - rewrite app_nil_r. done.
Qed.

(** C37: membership and placement.  After any sequence of additions, updates and
    removals: ids are unique, [GetNode] returns the node of the last operation on an
    id if that is an addition or update and nothing otherwise, and the replicas of a
    key are distinct nodes of the table.  If the virtual nodes of different ids have
    different positions, the ring holds exactly the virtual nodes of the table's
    nodes, every key has [min(rf, Size)] replicas, and all nodes when [rf] is at
    least [Size]. *)
Theorem cluster_map_consistent virtual_nodes ops key rf :
  let cm := foldl run_cluster (ClusterMap_new virtual_nodes) ops in
  let vnodes := chr_vnodes (Ring_new virtual_nodes) in
  NoDup (ni_id <$> Nodes cm) ∧
  (∀ id, GetNode cm id = match last (filter (λ op, op_id op = id) ops) with
                         | Some (OpAdd node) => Some node
                         | _ => None
                         end) ∧
  NoDup (PlacementFor cm key rf) ∧
  (∀ id, id ∈ PlacementFor cm key rf → is_Some (GetNode cm id)) ∧
  (no_collision vnodes (added_ids ops) →
     (∀ pos id, chr_ring (cm_ring cm) !! pos = Some id ↔
        is_Some (GetNode cm id) ∧ ∃ i, (i < vnodes)%nat ∧ pos = vnode_pos id i) ∧
     length (PlacementFor cm key rf) = Nat.min rf (Size cm) ∧
     ((Size cm <= rf)%nat → PlacementFor cm key rf ≡ₚ ni_id <$> Nodes cm)).
Proof.
  intros cm vnodes. pose proof (run_cluster_inv ops _ (ClusterInv_new virtual_nodes)) as HC. fold cm in HC.
  pose proof HC as [Hids HI]. destruct (run_cluster_ring virtual_nodes ops) as (Hv & _ & Hx). fold cm vnodes in Hv, Hx.
  assert (length (Nodes cm) = length (chr_physical_nodes (cm_ring cm))) as Hlen by (by rewrite <-Hids, length_fmap).
  destruct (ring_placement (cm_ring cm) key rf HI) as (_ & Hnd & Hin & _ & _ & Hfull).
  unfold PlacementFor, Size, Nodes in *. split_and!; [by apply ClusterInv_ids| |done| |].
  - intros id. unfold cm. rewrite GetNode_run by apply ClusterInv_new. by destruct (last _) as [[]|].
  - intros id Hid. rewrite GetNode_Some, Hids. by apply Hin.
  - intros Hnc. specialize (Hx Hnc). split; [intros pos id; rewrite GetNode_Some, Hids, <-Hv; apply Hx|].
    assert (length (LookupReplicas (cm_ring cm) key rf) = Nat.min rf (length (cm_nodes cm))) as Hl.
    { rewrite Hfull, Hlen; [done|]. intros n Hn. exists (vnode_pos n 0). apply Hx. split; [done|]. exists 0%nat.
      split; [|done]. rewrite Hv. unfold vnodes, Ring_new. cbn. destruct (Nat.eqb_spec virtual_nodes 0); lia. }
    split; [done|]. intros Hrf. apply submseteq_length_Permutation.
    + rewrite Hids. apply NoDup_submseteq; [done|]. intros n. apply Hin.
    + rewrite length_fmap, Hl. lia.
Qed.

(** Two nodes, one of them updated, and a third that has left. *)
Definition demo_ops : list cluster_op :=
  [OpAdd (NodeInfo_at node_a (lit "a:1")); OpAdd (NodeInfo_at node_b (lit "b:1"));
   OpAdd (NodeInfo_at node_c (lit "c:1")); OpAdd (NodeInfo_at node_a (lit "a:2")); OpRemove node_c].

Lemma distinct_three {A} (f : bytes → A) a b c n m :
  f a ≠ f b → f a ≠ f c → f b ≠ f c → n ∈ [a; b; c; a] → m ∈ [a; b; c; a] → f n = f m → n = m.
Proof. rewrite !elem_of_cons, !elem_of_nil. intros ? ? ? [->|[->|[->|[->|[]]]]] [->|[->|[->|[->|[]]]]]; congruence. Qed.

Lemma demo_ops_no_collision : no_collision 1 (added_ids demo_ops).
Proof.
  assert ((vnode_pos node_a 0 =? vnode_pos node_b 0) = false ∧ (vnode_pos node_a 0 =? vnode_pos node_c 0) = false ∧
    (vnode_pos node_b 0 =? vnode_pos node_c 0) = false) as (H1 & H2 & H3) by (vm_compute; auto).
  apply Z.eqb_neq in H1, H2, H3. intros n m i j Hn Hm Hi Hj.
  replace i with 0%nat by lia. replace j with 0%nat by lia.
  exact (distinct_three (λ n, vnode_pos n 0) _ _ _ n m H1 H2 H3 Hn Hm).
Qed.

Lemma cluster_map_consistent_witness :
  let cm := foldl run_cluster (ClusterMap_new 1) demo_ops in
  GetNode cm node_a = Some (NodeInfo_at node_a (lit "a:2")) ∧ GetNode cm node_c = None ∧
  length (PlacementFor cm (lit "k") 2) = 2%nat ∧ PlacementFor cm (lit "k") 2 ≡ₚ [node_a; node_b].
Proof.
  split; [vm_compute; reflexivity|]. split; [vm_compute; reflexivity|].
  destruct (cluster_map_consistent 1 demo_ops (lit "k") 2) as (_ & _ & _ & _ & Hx).
  destruct (Hx demo_ops_no_collision) as (_ & Hlen & Hall). split; [exact Hlen|]. apply Hall. apply Nat.leb_le. vm_compute. reflexivity.
Defined.

(** An update of a known id does not move any key. *)
Lemma AddOrUpdateNode_known node cm key rf :
  is_Some (GetNode cm (ni_id node)) →
  PlacementFor (AddOrUpdateNode node cm) key rf = PlacementFor cm key rf.
Proof.
  unfold GetNode, AddOrUpdateNode. destruct (find_node (ni_id node) (cm_nodes cm)) as [[i n]|]; [done|].
  by intros [? ?].
Qed.
