(* ===== verification/FailureDetector.v ===== *)
(** * The failure detector

    [include/cluster/failure_detector.h] and [src/cluster/failure_detector.cc]: the
    heartbeat state machine of each node, with its misses counted in a [size_t]. *)

From stdpp Require Import base gmap numbers list.
From Stdlib Require Import ZArith Lia.
From S2P Require Import Prelude ClusterMap.

Local Open Scope Z_scope.

Record Entry := mkEntry { en_state : NodeState; en_misses : Z }.

Definition Entry_default : Entry := mkEntry kHealthy 0.

Record FailureDetector := mkFailureDetector {
  fd_miss_threshold : Z;
  fd_nodes : gmap bytes Entry;
}.

Implicit Types fd : FailureDetector.

Definition FailureDetector_new (miss_threshold : Z) : FailureDetector :=
  mkFailureDetector (if miss_threshold =? 0 then 1 else miss_threshold) ∅.

(** [nodes_[id]]: the entry, default-constructed when absent. *)
Definition entry fd (node_id : bytes) : Entry := default Entry_default (fd_nodes fd !! node_id).

Definition set_entry (node_id : bytes) (e : Entry) fd : FailureDetector :=
  mkFailureDetector (fd_miss_threshold fd) (<[node_id := e]> (fd_nodes fd)).

(** [try_emplace] *)
Definition AddNode (node_id : bytes) fd : FailureDetector :=
  match fd_nodes fd !! node_id with Some _ => fd | None => set_entry node_id Entry_default fd end.

Definition RecordSuccess (node_id : bytes) fd : FailureDetector :=
  let e := entry fd node_id in
  let state := match en_state e with
               | kUnavailable => kRecovering
               | kRecovering => kRecovering
               | kHealthy | kSuspect | kJoining => kHealthy
               end in
  set_entry node_id (mkEntry state 0) fd.

Definition RecordFailure (node_id : bytes) fd : FailureDetector :=
  let e := entry fd node_id in
  let misses := u64 (en_misses e + 1) in
  let state :=
    if fd_miss_threshold fd <=? misses then kUnavailable
    else if bool_decide (en_state e = kHealthy) || bool_decide (en_state e = kJoining) then kSuspect
    else en_state e in
  set_entry node_id (mkEntry state misses) fd.

Definition RecordRepairComplete (node_id : bytes) fd : FailureDetector :=
  match fd_nodes fd !! node_id with
  | Some e => if bool_decide (en_state e = kRecovering) then set_entry node_id (mkEntry kHealthy 0) fd else fd
  | None => fd
  end.

Definition GetState fd (node_id : bytes) : NodeState :=
  match fd_nodes fd !! node_id with None => kJoining | Some e => en_state e end.

Definition consecutive_misses fd (node_id : bytes) : Z :=
  match fd_nodes fd !! node_id with None => 0 | Some e => en_misses e end.

Definition Snapshot fd : list (bytes * NodeState) :=
  (λ p, (p.1, en_state p.2)) <$> in_order bytes_le (fd_nodes fd).

(** ** Histories *)

Inductive event := EvAdd | EvSuccess | EvFailure | EvRepaired.

#[global] Instance event_eq_dec : EqDecision event.
Proof. solve_decision. Defined.

Definition run_event fd (ev : bytes * event) : FailureDetector :=
  match ev.2 with
  | EvAdd => AddNode ev.1 fd
  | EvSuccess => RecordSuccess ev.1 fd
  | EvFailure => RecordFailure ev.1 fd
  | EvRepaired => RecordRepairComplete ev.1 fd
  end.

Definition run_events fd (evs : list (bytes * event)) : FailureDetector := foldl run_event fd evs.

(** The diagram of the header, for one node: a miss makes a healthy node suspect,
    the threshold makes it unavailable, a success clears a suspicion and turns an
    unavailable node into a recovering one, which only a repair makes healthy. *)
Definition next_entry (threshold : Z) (e : Entry) (ev : event) : Entry :=
  match ev with
  | EvAdd => e
  | EvSuccess =>
      mkEntry (match en_state e with kUnavailable | kRecovering => kRecovering | _ => kHealthy end) 0
  | EvFailure =>
      if threshold <=? u64 (en_misses e + 1) then mkEntry kUnavailable (u64 (en_misses e + 1))
      else mkEntry (match en_state e with kHealthy | kJoining => kSuspect | st => st end) (u64 (en_misses e + 1))
  | EvRepaired => match en_state e with kRecovering => mkEntry kHealthy 0 | _ => e end
  end.

(** The events of one node, in order. *)
Definition events_of (node_id : bytes) (evs : list (bytes * event)) : list event :=
  (filter (λ ev, ev.1 = node_id) evs).*2.

Lemma run_event_threshold fd ev : fd_miss_threshold (run_event fd ev) = fd_miss_threshold fd.
Proof.
  destruct ev as [id []]; unfold run_event; simpl; try done.
  - unfold AddNode. by destruct (fd_nodes fd !! id).
  - unfold RecordRepairComplete. destruct (fd_nodes fd !! id); [|done]. by destruct (bool_decide _).
Qed.

Lemma run_event_other fd ev id : ev.1 ≠ id → fd_nodes (run_event fd ev) !! id = fd_nodes fd !! id.
Proof.
  destruct ev as [id' ev]. simpl. intros Hne. destruct ev; unfold run_event; simpl.
  - unfold AddNode. destruct (fd_nodes fd !! id') eqn:E; [done|]. simpl. by rewrite lookup_insert_ne.
  - by rewrite lookup_insert_ne.
  - by rewrite lookup_insert_ne.
  - unfold RecordRepairComplete. destruct (fd_nodes fd !! id'); [|done].
    destruct (bool_decide _); [|done]. simpl. by rewrite lookup_insert_ne.
Qed.

Lemma run_event_entry fd id ev :
  entry (run_event fd (id, ev)) id = next_entry (fd_miss_threshold fd) (entry fd id) ev.
Proof.
  unfold entry. destruct ev; unfold run_event; simpl.
  - unfold AddNode. destruct (fd_nodes fd !! id) eqn:E; simpl; [by rewrite E|]. by rewrite lookup_insert_eq.
  - rewrite lookup_insert_eq. simpl. unfold entry. by destruct (en_state _).
  - rewrite lookup_insert_eq. simpl. unfold entry. destruct (_ <=? _); [done|].
    by destruct (en_state _).
  - unfold RecordRepairComplete. destruct (fd_nodes fd !! id) as [e|] eqn:E; simpl; [|by rewrite E].
    destruct (bool_decide (en_state e = kRecovering)) eqn:Eb; prop_bool; simpl.
    + by rewrite lookup_insert_eq, Eb.
    + rewrite E. simpl. by destruct (en_state e).
Qed.

Lemma run_events_entry evs fd id :
  entry (run_events fd evs) id = foldl (next_entry (fd_miss_threshold fd)) (entry fd id) (events_of id evs).
Proof.
  unfold run_events, events_of. revert fd. induction evs as [|[id' ev] evs IH]; intros fd; simpl; [done|].
  rewrite IH, run_event_threshold, filter_cons. simpl. case_decide as Hid.
  - subst id'. simpl. by rewrite run_event_entry.
  - f_equal. unfold entry. by rewrite run_event_other.
Qed.

(** What a reachable entry looks like. *)
Definition entry_ok (threshold : Z) (e : Entry) : Prop :=
  match en_state e with
  | kHealthy => en_misses e = 0
  | kSuspect => 0 < en_misses e < threshold
  | kRecovering => 0 <= en_misses e < threshold
  | kUnavailable => 0 <= en_misses e < 2 ^ 64
  | kJoining => False
  end.

Lemma next_entry_ok t e ev : 0 < t < 2 ^ 64 → entry_ok t e → entry_ok t (next_entry t e ev).
Proof.
  unfold entry_ok. destruct e as [st m]. destruct ev; simpl; intros Ht He.
  - done.
  - destruct st; simpl; (done || lia).
  - pose proof (u64_range (m + 1)) as Hr. unfold is_u64 in Hr.
    destruct (Z.leb_spec t (u64 (m + 1))) as [|Hlt]; simpl; [lia|].
    destruct st; simpl in *; try (done || lia).
    + subst m. unfold u64 in *. rewrite Z.mod_small in Hlt |- * by lia. lia.
    + unfold u64 in *. rewrite Z.mod_small in Hlt |- * by lia. lia.
  - destruct st; simpl in *; (done || lia).
Qed.

Lemma foldl_entry_ok t e evs : 0 < t < 2 ^ 64 → entry_ok t e → entry_ok t (foldl (next_entry t) e evs).
Proof.
  intros Ht. revert e. induction evs as [|ev evs IH]; intros e He; simpl; [done|].
  by apply IH, next_entry_ok.
Qed.

Lemma GetState_entry fd id : is_Some (fd_nodes fd !! id) → GetState fd id = en_state (entry fd id).
Proof. unfold GetState, entry. by intros [e ->]. Qed.

Lemma consecutive_misses_entry fd id : consecutive_misses fd id = en_misses (entry fd id).
Proof. unfold consecutive_misses, entry. by destruct (fd_nodes fd !! id). Qed.

Lemma run_event_known fd ev id : is_Some (fd_nodes fd !! id) → is_Some (fd_nodes (run_event fd ev) !! id).
Proof.
  intros Hid. destruct (decide (ev.1 = id)) as [<-|Hne]; [|by rewrite run_event_other].
  destruct ev as [id' ev]. simpl in *. destruct ev; unfold run_event; simpl.
  - unfold AddNode. destruct (fd_nodes fd !! id') eqn:E; [by rewrite E|]. simpl. rewrite lookup_insert_eq. eauto.
  - rewrite lookup_insert_eq. eauto.
  - rewrite lookup_insert_eq. eauto.
  - unfold RecordRepairComplete. destruct (fd_nodes fd !! id') eqn:E; [|by rewrite E].
    destruct (bool_decide _); [|by rewrite E]. simpl. rewrite lookup_insert_eq. eauto.
Qed.

Lemma AddNode_known fd id : is_Some (fd_nodes (run_event fd (id, EvAdd)) !! id).
Proof.
  unfold run_event, AddNode. simpl. destruct (fd_nodes fd !! id) eqn:E; [by rewrite E|].
  simpl. rewrite lookup_insert_eq. eauto.
Qed.

Lemma run_events_known fd evs id : is_Some (fd_nodes fd !! id) → is_Some (fd_nodes (run_events fd evs) !! id).
Proof.
  unfold run_events. revert fd. induction evs as [|ev evs IH]; intros fd Hid; simpl; [done|].
  apply IH. by apply run_event_known.
Qed.

(** C39: each node follows the diagram of the header.  After any history, with the
    events of the nodes interleaved in any way, the state and the misses of a known
    node are those of its own events run through the diagram from a fresh healthy
    entry; a healthy node has no misses, a suspect one some but fewer than the
    threshold, and a recovering one fewer than the threshold. *)
Theorem failure_detector_diagram threshold evs id :
  0 <= threshold < 2 ^ 64 →
  let fd := run_events (FailureDetector_new threshold) evs in
  let t := if threshold =? 0 then 1 else threshold in
  GetState fd id ≠ kJoining →
  mkEntry (GetState fd id) (consecutive_misses fd id) =
    foldl (next_entry t) Entry_default (events_of id evs) ∧
  entry_ok t (mkEntry (GetState fd id) (consecutive_misses fd id)).
Proof.
  intros Ht fd t Hj.
  assert (is_Some (fd_nodes fd !! id)) as Hk.
  { unfold GetState in Hj. destruct (fd_nodes fd !! id) as [e|]; [eauto|done]. }
  rewrite GetState_entry, consecutive_misses_entry by done.
  assert (entry fd id = foldl (next_entry t) Entry_default (events_of id evs)) as Ee.
  { unfold fd. rewrite run_events_entry. unfold entry. simpl. by rewrite lookup_empty. }
  replace (mkEntry (en_state (entry fd id)) (en_misses (entry fd id))) with (entry fd id) by (by destruct (entry fd id)).
  rewrite Ee. split; [done|]. apply foldl_entry_ok; [|done].
  unfold t. destruct (Z.eqb_spec threshold 0); lia.
Qed.

Lemma untrusted_fold t e evs :
  (en_state e = kUnavailable ∨ en_state e = kRecovering) → EvRepaired ∉ evs →
  let e' := foldl (next_entry t) e evs in en_state e' = kUnavailable ∨ en_state e' = kRecovering.
Proof.
  revert e. induction evs as [|ev evs IH]; intros e He Hn; simpl; [done|].
  apply IH; [|set_solver]. destruct ev; simpl; [done| | |set_solver].
  - destruct He as [-> | ->]; auto.
  - destruct (_ <=? _); simpl; [auto|]. by destruct He as [-> | ->]; auto.
Qed.

(** An unavailable node is not trusted again before it is repaired.  Whatever
    happens after a node was declared unavailable, as long as no repair of it
    completes, it is unavailable or recovering. *)
Theorem failure_detector_trust fd evs id :
  GetState fd id = kUnavailable → EvRepaired ∉ events_of id evs →
  GetState (run_events fd evs) id = kUnavailable ∨ GetState (run_events fd evs) id = kRecovering.
Proof.
  intros Hu Hn.
  assert (is_Some (fd_nodes fd !! id)) as Hk.
  { unfold GetState in Hu. destruct (fd_nodes fd !! id) as [e|]; [eauto|done]. }
  rewrite GetState_entry by (by apply run_events_known). rewrite run_events_entry.
  apply untrusted_fold; [left|done]. by rewrite <-GetState_entry.
Qed.

Lemma failures_fold t k :
  0 < t → Z.of_nat k < 2 ^ 64 →
  foldl (next_entry t) Entry_default (replicate k EvFailure) =
  mkEntry (if t <=? Z.of_nat k then kUnavailable else if (k =? 0)%nat then kHealthy else kSuspect) (Z.of_nat k).
Proof.
  intros Ht. induction k as [|k IH]; intros Hk.
  { change (Z.of_nat 0) with 0. destruct (Z.leb_spec t 0); [lia|done]. }
  rewrite replicate_S_end, foldl_snoc, IH by lia. cbn [next_entry en_misses en_state].
  unfold u64. rewrite Z.mod_small by lia. replace (Z.of_nat k + 1) with (Z.of_nat (S k)) by lia.
  destruct (Z.leb_spec t (Z.of_nat (S k))); [done|].
  destruct (Z.leb_spec t (Z.of_nat k)); [lia|]. by destruct k.
Qed.

(** A single timeout does not declare a node dead.  A registered node all of
    whose heartbeats fail is suspect until the number of failures reaches the
    threshold and unavailable from then on, whatever is recorded for other nodes. *)
Theorem failure_detector_threshold threshold evs id k :
  0 < threshold < 2 ^ 64 → Z.of_nat k < 2 ^ 64 →
  events_of id evs = EvAdd :: replicate k EvFailure →
  GetState (run_events (FailureDetector_new threshold) evs) id =
  if threshold <=? Z.of_nat k then kUnavailable else if (k =? 0)%nat then kHealthy else kSuspect.
Proof.
  intros Ht Hk Hev. set (fd := run_events _ evs).
  assert (is_Some (fd_nodes fd !! id)) as Hknown.
  { assert (∃ pre post, evs = pre ++ (id, EvAdd) :: post) as (pre & post & ->).
    { assert (EvAdd ∈ events_of id evs) as Hin by (rewrite Hev; left).
      unfold events_of in Hin. apply list_elem_of_fmap in Hin as ([i e] & Ee & Hin). simpl in Ee. subst e.
      apply list_elem_of_filter in Hin as [Hi Hin]. simpl in Hi. subst i. by apply list_elem_of_split in Hin. }
    unfold fd, run_events. rewrite foldl_app. cbn [foldl].
    apply (run_events_known _ post), AddNode_known. }
  rewrite GetState_entry by done. unfold fd. rewrite run_events_entry, Hev. simpl.
  destruct (Z.eqb_spec threshold 0); [lia|].
  replace (entry (FailureDetector_new threshold) id) with Entry_default.
  - rewrite failures_fold by lia. done.
  - unfold entry. simpl. by rewrite lookup_empty.
Qed.

(** Three misses of [a] among successes of [b], then a heartbeat. *)
Definition fd_id_a : bytes := lit "a".
Definition fd_id_b : bytes := lit "b".
Definition fd_evs : list (bytes * event) :=
  [(fd_id_a, EvAdd); (fd_id_b, EvAdd); (fd_id_a, EvFailure); (fd_id_b, EvSuccess);
   (fd_id_a, EvFailure); (fd_id_a, EvFailure)].
Definition fd_run : FailureDetector := run_events (FailureDetector_new 3) fd_evs.

Lemma failure_detector_diagram_witness :
  GetState fd_run fd_id_b = kHealthy ∧
  entry_ok 3 (mkEntry (GetState fd_run fd_id_b) (consecutive_misses fd_run fd_id_b)).
Proof.
  split; [vm_compute; reflexivity|].
  apply (failure_detector_diagram 3 fd_evs fd_id_b); [lia|]. vm_compute. discriminate.
Defined.

Lemma failure_detector_trust_witness :
  GetState (run_events fd_run [(fd_id_a, EvSuccess)]) fd_id_a = kUnavailable ∨
  GetState (run_events fd_run [(fd_id_a, EvSuccess)]) fd_id_a = kRecovering.
Proof.
  apply (failure_detector_trust fd_run [(fd_id_a, EvSuccess)] fd_id_a).
  - vm_compute. reflexivity.
  - apply (bool_decide_unpack _). vm_compute. reflexivity.
Defined.

Lemma failure_detector_threshold_witness : GetState fd_run fd_id_a = kUnavailable.
Proof.
  apply (failure_detector_threshold 3 fd_evs fd_id_a 3); [lia|lia|]. vm_compute. reflexivity.
Defined.
