(* ===== verification/LruCache.v ===== *)
(** * The LRU cache

    [include/common/lru_cache.h].  A [std::list] node has an identity that the index
    holds as an iterator: the list is the sequence of node identities, next to the
    contents of the nodes, and the index maps keys to identities.

    The cache is shown to implement a recency list: the entries from the most to the
    least recently used, of which the first [capacity] are kept. *)

From stdpp Require Import base gmap fin_maps numbers list.
From Stdlib Require Import ZArith Lia.
From S2P Require Import Prelude.

Section lru.
Context {K V : Type} `{Countable K}.

Record LruCache := mkLruCache {
  lc_capacity : nat;
  lc_order : list nat;                (** front = most recently used *)
  lc_node : gmap nat (K * V);         (** the contents of the list nodes *)
  lc_index : gmap K nat;
  lc_fresh : nat;                     (** the identity of the next node *)
  lc_hits : Z;
  lc_misses : Z;
}.

Implicit Types c : LruCache.

Definition LruCache_new (capacity : nat) : LruCache :=
  mkLruCache (if (capacity =? 0)%nat then 1 else capacity)%nat [] ∅ ∅ 0 0 0.

(** [order_.splice(order_.begin(), order_, it)] *)
Definition splice_front (it : nat) (order : list nat) : list nat := it :: filter (.≠ it) order.

Definition Get (key : K) c : option V * LruCache :=
  match lc_index c !! key with
  | None => (None, mkLruCache (lc_capacity c) (lc_order c) (lc_node c) (lc_index c) (lc_fresh c)
                     (lc_hits c) (u64 (lc_misses c + 1)))
  | Some it =>
      (snd <$> (lc_node c !! it),
       mkLruCache (lc_capacity c) (splice_front it (lc_order c)) (lc_node c) (lc_index c) (lc_fresh c)
         (u64 (lc_hits c + 1)) (lc_misses c))
  end.

Definition Put (key : K) (value : V) c : LruCache :=
  match lc_index c !! key with
  | Some it =>
      mkLruCache (lc_capacity c) (splice_front it (lc_order c))
        (alter (λ e, (e.1, value)) it (lc_node c)) (lc_index c) (lc_fresh c) (lc_hits c) (lc_misses c)
  | None =>
      let it := lc_fresh c in
      let order := it :: lc_order c in
      let node := <[it := (key, value)]> (lc_node c) in
      let index := <[key := it]> (lc_index c) in
      if (lc_capacity c <? size index)%nat then
        match last order with
        | Some back =>
            mkLruCache (lc_capacity c) (removelast order) (delete back node)
              (match node !! back with Some e => delete e.1 index | None => index end)
              (S it) (lc_hits c) (lc_misses c)
        | None => c (* the list is not empty *)
        end
      else mkLruCache (lc_capacity c) order node index (S it) (lc_hits c) (lc_misses c)
  end.

Definition Erase (key : K) c : LruCache :=
  match lc_index c !! key with
  | None => c
  | Some it =>
      mkLruCache (lc_capacity c) (filter (.≠ it) (lc_order c)) (delete it (lc_node c))
        (delete key (lc_index c)) (lc_fresh c) (lc_hits c) (lc_misses c)
  end.

Definition Clear c : LruCache :=
  mkLruCache (lc_capacity c) [] ∅ ∅ (lc_fresh c) (lc_hits c) (lc_misses c).

Definition Contains c (key : K) : bool := bool_decide (is_Some (lc_index c !! key)).
Definition lru_size c : nat := size (lc_index c).

(** ** The recency list *)

Definition recency c : list (K * V) := omap (lc_node c !!.) (lc_order c).

Definition without (key : K) (l : list (K * V)) : list (K * V) := filter (λ e, e.1 ≠ key) l.

Definition find_key (key : K) (l : list (K * V)) : option V :=
  snd <$> head (filter (λ e, e.1 = key) l).

Definition spec_get (key : K) (l : list (K * V)) : option V * list (K * V) :=
  match find_key key l with
  | Some v => (Some v, (key, v) :: without key l)
  | None => (None, l)
  end.

Definition spec_put (capacity : nat) (key : K) (value : V) (l : list (K * V)) : list (K * V) :=
  take capacity ((key, value) :: without key l).

(** The nodes of the list are those with contents, and the index knows exactly
    their keys. *)
Record LruInv c : Prop := {
  li_order : NoDup (lc_order c);
  li_node : ∀ it, it ∈ lc_order c ↔ is_Some (lc_node c !! it);
  li_index : ∀ key it, lc_index c !! key = Some it ↔ ∃ v, lc_node c !! it = Some (key, v);
  li_fresh : ∀ it, it ∈ lc_order c → (it < lc_fresh c)%nat;
  li_capacity : (1 <= lc_capacity c)%nat;
  li_size : (length (lc_order c) <= lc_capacity c)%nat;
}.

Lemma LruInv_new capacity : LruInv (LruCache_new capacity).
Proof.
  split; simpl.
  - constructor.
  - intros it. rewrite lookup_empty. split; [by intros ?%not_elem_of_nil|by intros [? ?]].
  - intros key it. rewrite lookup_empty. split; [done|]. intros [v Hv]. by rewrite lookup_empty in Hv.
  - intros it. by intros ?%not_elem_of_nil.
  - destruct (Nat.eqb_spec capacity 0); lia.
  - lia.
Qed.

(** *** Lists of nodes *)

Lemma recency_lookup c key it v :
  LruInv c → lc_node c !! it = Some (key, v) → (key, v) ∈ recency c.
Proof.
  intros HI E. apply list_elem_of_omap. exists it. split; [|done]. apply (li_node _ HI). eauto.
Qed.

Lemma elem_of_recency c key v :
  LruInv c → (key, v) ∈ recency c ↔ ∃ it, lc_index c !! key = Some it ∧ lc_node c !! it = Some (key, v).
Proof.
  intros HI. unfold recency. rewrite list_elem_of_omap. split.
  - intros (it & Hit & E). exists it. split; [|done]. apply (li_index _ HI). eauto.
  - intros (it & _ & E). exists it. split; [|done]. apply (li_node _ HI). eauto.
Qed.

(** Removing a node from the list removes its key from the recency list. *)
Lemma omap_filter_node c key it v order :
  LruInv c → lc_node c !! it = Some (key, v) → order ⊆ lc_order c →
  omap (lc_node c !!.) (filter (.≠ it) order) = without key (omap (lc_node c !!.) order).
Proof.
  intros HI E. unfold without. induction order as [|x order IH]; intros Hsub; [done|].
  assert (x ∈ lc_order c) as Hx by (apply Hsub; left).
  rewrite filter_cons. cbn [omap list_omap].
  apply (li_node _ HI) in Hx as [[k w] Ex].
  assert (order ⊆ lc_order c) as Hsub' by (intros y Hy; apply Hsub; by right).
  destruct (decide (x ≠ it)) as [Hne|Heq].
  - cbn [omap list_omap]. rewrite Ex, filter_cons_True; [by rewrite IH|]. simpl. intros ->.
    assert (lc_index c !! key = Some x) as E1 by (apply (li_index _ HI); eauto).
    assert (lc_index c !! key = Some it) as E2 by (apply (li_index _ HI); eauto). congruence.
  - apply dec_stable in Heq. subst x. rewrite Ex. rewrite E in Ex. injection Ex as <- <-.
    rewrite filter_cons_False by (simpl; tauto). by apply IH.
Qed.

Lemma omap_nodes_eq (node node' : gmap nat (K * V)) (order : list nat) :
  (∀ it, it ∈ order → node !! it = node' !! it) → omap (node !!.) order = omap (node' !!.) order.
Proof.
  induction order as [|x order IH]; intros Heq; [done|]. cbn [omap list_omap].
  rewrite (Heq x) by left. rewrite IH; [done|]. intros it Hit. apply Heq. by right.
Qed.

Lemma length_recency c : LruInv c → length (recency c) = length (lc_order c).
Proof.
  intros HI. unfold recency. assert (∀ it, it ∈ lc_order c → is_Some (lc_node c !! it)) as Hall by apply HI.
  induction (lc_order c) as [|x order IH]; [done|]. cbn [omap list_omap].
  destruct (Hall x) as [e ->]; [left|]. simpl. f_equal. apply IH. intros it Hit. apply Hall. by right.
Qed.

Lemma NoDup_recency c : LruInv c → NoDup (recency c).*1.
Proof.
  intros HI. unfold recency. pose proof (li_order _ HI) as Hnd.
  assert (∀ it, it ∈ lc_order c → is_Some (lc_node c !! it)) as Hall by apply HI.
  induction Hnd as [|x order Hx Hnd IH]; [constructor|]. cbn [omap list_omap].
  destruct (Hall x) as [[k w] Ex]; [left|]. rewrite Ex. simpl. constructor.
  - rewrite list_elem_of_fmap. intros ([k' w'] & Ek & (y & Hy & Ey)%list_elem_of_omap). simpl in Ek. subst k'.
    assert (lc_index c !! k = Some x) as E1 by (apply (li_index _ HI); eauto).
    assert (lc_index c !! k = Some y) as E2 by (apply (li_index _ HI); eauto). congruence.
  - apply IH. intros it Hit. apply Hall. by right.
Qed.

Lemma size_index c : LruInv c → size (lc_index c) = length (lc_order c).
Proof.
  intros HI. rewrite <-length_recency by done. rewrite <-(length_fmap fst).
  rewrite <-size_dom, <-(size_list_to_set (C := gset K)) by (by apply NoDup_recency). f_equal.
  apply set_eq. intros k. rewrite elem_of_dom, elem_of_list_to_set, list_elem_of_fmap. split.
  - intros [it Hit]. pose proof Hit as Hi. apply (li_index _ HI) in Hi as [v Hv]. exists (k, v).
    split; [done|]. by eapply recency_lookup.
  - intros ([k' v] & -> & Hin). apply elem_of_recency in Hin as (it & ? & _); [|done]. eauto.
Qed.

Lemma find_key_recency c key :
  LruInv c → find_key key (recency c) = (it ← lc_index c !! key; snd <$> lc_node c !! it).
Proof.
  intros HI. unfold find_key. destruct (lc_index c !! key) as [it|] eqn:E; simpl.
  - pose proof E as E'. apply (li_index _ HI) in E' as [v Hv]. rewrite Hv. simpl.
    destruct (filter _ (recency c)) as [|[k w] l] eqn:Ef.
    + exfalso. assert ((key, v) ∈ filter (λ e, e.1 = key) (recency c)) as Hin.
      { apply list_elem_of_filter. split; [done|]. by eapply recency_lookup. }
      rewrite Ef in Hin. by apply not_elem_of_nil in Hin.
    + assert ((k, w) ∈ filter (λ e, e.1 = key) (recency c)) as Hin by (rewrite Ef; left).
      apply list_elem_of_filter in Hin as [Hk Hin]. simpl in Hk. subst k.
      apply elem_of_recency in Hin as (it' & E' & Hw); [|done]. simpl. congruence.
  - rewrite filter_none; [done|]. intros [k w] Hin Hk. simpl in Hk. subst k.
    apply elem_of_recency in Hin as (it' & E' & Hw); [|done]. congruence.
Qed.
(** *** Operations *)

Lemma splice_front_perm it order : NoDup order → it ∈ order → splice_front it order ≡ₚ order.
Proof.
  intros Hnd Hin. unfold splice_front. apply NoDup_Permutation; [|done|].
  - constructor; [|by apply NoDup_filter]. rewrite list_elem_of_filter. tauto.
  - intros x. rewrite elem_of_cons, list_elem_of_filter. destruct (decide (x = it)); naive_solver.
Qed.

Lemma LruInv_reorder c order hits misses :
  LruInv c → order ≡ₚ lc_order c →
  LruInv (mkLruCache (lc_capacity c) order (lc_node c) (lc_index c) (lc_fresh c) hits misses).
Proof.
  intros HI Hp. split; simpl; try apply HI.
  - rewrite Hp. apply HI.
  - intros it. rewrite Hp. apply HI.
  - intros it. rewrite Hp. apply HI.
  - rewrite Hp. apply HI.
Qed.

Lemma Get_spec key c :
  LruInv c →
  LruInv (Get key c).2 ∧ lc_capacity (Get key c).2 = lc_capacity c ∧
  ((Get key c).1, recency (Get key c).2) = spec_get key (recency c).
Proof.
  intros HI. unfold Get, spec_get. rewrite find_key_recency by done.
  destruct (lc_index c !! key) as [it|] eqn:E; simpl.
  - pose proof E as E'. apply (li_index _ HI) in E' as [v Hv]. rewrite Hv. simpl.
    assert (it ∈ lc_order c) as Hin by (apply (li_node _ HI); eauto).
    split; [|split; [done|]].
    + apply LruInv_reorder; [done|]. apply splice_front_perm; [apply HI|done].
    + unfold recency at 1. simpl. rewrite Hv. do 2 f_equal. by eapply omap_filter_node.
  - split; [|split; [done|done]]. by apply LruInv_reorder.
Qed.

Lemma Erase_spec key c :
  LruInv c →
  LruInv (Erase key c) ∧ lc_capacity (Erase key c) = lc_capacity c ∧
  recency (Erase key c) = without key (recency c).
Proof.
  intros HI. unfold Erase. destruct (lc_index c !! key) as [it|] eqn:E.
  - pose proof E as E'. apply (li_index _ HI) in E' as [v Hv]. split; [|split; [done|]].
    + split; simpl.
      * apply NoDup_filter, HI.
      * intros x. rewrite list_elem_of_filter, (li_node _ HI), lookup_delete_is_Some. naive_solver.
      * intros k x. rewrite lookup_delete_Some, (li_index _ HI). split.
        -- intros [Hk [w Hw]]. exists w. rewrite lookup_delete_ne; [done|]. intros <-. congruence.
        -- intros [w [Hx Hw]%lookup_delete_Some]. split; [|eauto]. intros <-.
           assert (lc_index c !! key = Some x) by (apply (li_index _ HI); eauto). congruence.
      * intros x [_ Hx]%list_elem_of_filter. by apply (li_fresh _ HI).
      * apply HI.
      * etrans; [apply length_filter|apply HI].
    + unfold recency. rewrite <-(omap_filter_node c key it v) by done. simpl.
      apply omap_nodes_eq. intros x [Hx _]%list_elem_of_filter. by rewrite lookup_delete_ne.
  - split; [done|]. split; [done|]. symmetry. apply filter_all. intros [k w] Hin Hk. simpl in Hk. subst k.
    apply elem_of_recency in Hin as (it & ? & _); [congruence|done].
Qed.

Lemma without_absent key c : LruInv c → lc_index c !! key = None → without key (recency c) = recency c.
Proof.
  intros HI E. apply filter_all. intros [k w] Hin Hk. simpl in Hk. subst k.
  apply elem_of_recency in Hin as (it & ? & _); [congruence|done].
Qed.

(** Updating the value of a node. *)
Lemma Put_update key value it c :
  LruInv c → lc_index c !! key = Some it →
  LruInv (Put key value c) ∧ recency (Put key value c) = (key, value) :: without key (recency c).
Proof.
  intros HI E. unfold Put. rewrite E. pose proof E as E'. apply (li_index _ HI) in E' as [v Hv].
  assert (it ∈ lc_order c) as Hin by (apply (li_node _ HI); eauto).
  assert (alter (λ e, (e.1, value)) it (lc_node c) = <[it := (key, value)]> (lc_node c)) as ->.
  { apply map_eq. intros x. destruct (decide (x = it)) as [->|Hne].
    - by rewrite lookup_alter_eq, lookup_insert_eq, Hv.
    - by rewrite lookup_alter_ne, lookup_insert_ne by done. }
  split.
  - pose proof (LruInv_reorder c _ (lc_hits c) (lc_misses c) HI
      (splice_front_perm it _ (li_order _ HI) Hin)) as HI1.
    split; simpl; try apply HI1.
    + intros x. rewrite (li_node _ HI1). simpl. rewrite lookup_insert_is_Some.
      destruct (decide (it = x)) as [<-|Hne]; [|naive_solver]. split; [by left|]. intros _. eauto.
    + intros k x. rewrite (li_index _ HI). destruct (decide (it = x)) as [<-|Hne].
      * rewrite lookup_insert_eq. split; [|by intros [w [= <- <-]]; eauto]. intros [w Hw].
        rewrite Hv in Hw. injection Hw as <- <-. eauto.
      * by rewrite lookup_insert_ne.
  - unfold recency. rewrite <-(omap_filter_node c key it v) by done. simpl. rewrite lookup_insert_eq. f_equal.
    apply omap_nodes_eq. intros x [Hx _]%list_elem_of_filter. by rewrite lookup_insert_ne.
Qed.

(** A new node at the front, before the eviction. *)
Definition pushed (key : K) (value : V) c : LruCache :=
  mkLruCache (S (lc_capacity c)) (lc_fresh c :: lc_order c) (<[lc_fresh c := (key, value)]> (lc_node c))
    (<[key := lc_fresh c]> (lc_index c)) (S (lc_fresh c)) (lc_hits c) (lc_misses c).

Lemma pushed_spec key value c :
  LruInv c → lc_index c !! key = None →
  LruInv (pushed key value c) ∧ recency (pushed key value c) = (key, value) :: recency c.
Proof.
  intros HI E. assert (lc_fresh c ∉ lc_order c) as Hf.
  { intros Hin%(li_fresh _ HI). lia. }
  assert (lc_node c !! lc_fresh c = None) as Hn.
  { apply eq_None_not_Some. by rewrite <-(li_node _ HI). }
  split.
  - split; simpl.
    + constructor; [done|apply HI].
    + intros x. rewrite elem_of_cons, lookup_insert_is_Some, (li_node _ HI).
      destruct (decide (lc_fresh c = x)) as [<-|]; [tauto|]. split; [intros [->|?]; tauto|tauto].
    + intros k x. destruct (decide (k = key)) as [->|Hk].
      * rewrite lookup_insert_eq. split.
        -- intros [= <-]. exists value. by rewrite lookup_insert_eq.
        -- intros [w [[<- _]|[_ Hw]]%lookup_insert_Some]; [done|].
           assert (lc_index c !! key = Some x) by (apply (li_index _ HI); eauto). congruence.
      * rewrite lookup_insert_ne by done. rewrite (li_index _ HI). split; intros [w Hw]; exists w.
        -- rewrite lookup_insert_ne; [done|]. intros <-. congruence.
        -- apply lookup_insert_Some in Hw as [[_ [= -> _]]|[_ Hw]]; done.
    + intros x [->|Hx]%elem_of_cons; [lia|]. apply (li_fresh _ HI) in Hx. lia.
    + lia.
    + pose proof (li_size _ HI). lia.
  - unfold recency at 1. simpl. rewrite lookup_insert_eq. f_equal.
    apply omap_nodes_eq. intros x Hx. rewrite lookup_insert_ne; [done|]. intros <-. done.
Qed.

(** The eviction of the last node. *)
Lemma evict_spec c cap order back :
  LruInv c → lc_order c = order ++ [back] → lc_capacity c = S cap → (1 <= cap)%nat →
  ∃ e, lc_node c !! back = Some e ∧
    let c' := mkLruCache cap order (delete back (lc_node c)) (delete e.1 (lc_index c)) (lc_fresh c)
                (lc_hits c) (lc_misses c) in
    LruInv c' ∧ recency c = recency c' ++ [e].
Proof.
  intros HI Eo Ec Hcap. pose proof (li_order _ HI) as Hnd. rewrite Eo in Hnd.
  apply NoDup_app in Hnd as (Hnd & Hb & _).
  assert (back ∉ order) as Hbo by (intros Hin; apply (Hb back Hin); left).
  destruct (proj1 (li_node _ HI back)) as [[k w] Hw]; [rewrite Eo; apply elem_of_app; right; left|].
  exists (k, w). split; [done|]. simpl. split.
  - split; simpl; [done| | | |done|].
    + intros x. rewrite lookup_delete_is_Some, <-(li_node _ HI), Eo, elem_of_app, list_elem_of_singleton.
      destruct (decide (x = back)) as [->|]; naive_solver.
    + intros k' x. rewrite lookup_delete_Some, (li_index _ HI). split.
      * intros [Hk [w' Hw']]. exists w'. rewrite lookup_delete_ne; [done|]. intros <-. congruence.
      * intros [w' [Hx Hw']%lookup_delete_Some]. split; [|eauto]. intros <-.
        assert (lc_index c !! k = Some x) by (apply (li_index _ HI); eauto).
        assert (lc_index c !! k = Some back) by (apply (li_index _ HI); eauto). congruence.
    + intros x Hx. apply (li_fresh _ HI). rewrite Eo. apply elem_of_app. by left.
    + pose proof (li_size _ HI) as Hs. rewrite Eo, Ec, length_app in Hs. simpl in Hs. lia.
  - unfold recency. simpl. rewrite Eo, omap_app. simpl. rewrite Hw. f_equal.
    apply omap_nodes_eq. intros x Hx. rewrite lookup_delete_ne; [done|]. intros ->. done.
Qed.
Lemma length_without key (l : list (K * V)) : (length (without key l) <= length l)%nat.
Proof. apply length_filter. Qed.

Lemma Put_spec key value c :
  LruInv c →
  LruInv (Put key value c) ∧ lc_capacity (Put key value c) = lc_capacity c ∧
  recency (Put key value c) = spec_put (lc_capacity c) key value (recency c).
Proof.
  intros HI. unfold spec_put. pose proof (li_capacity _ HI) as Hcap. pose proof (li_size _ HI) as Hsz.
  destruct (lc_index c !! key) as [it|] eqn:E.
  { destruct (Put_update key value it c HI E) as [HI' Er]. split; [done|].
    split; [unfold Put; by rewrite E|]. rewrite Er, take_ge; [done|].
    rewrite <-Er, length_recency by done. etrans; [apply (li_size _ HI')|]. unfold Put. by rewrite E. }
  destruct (pushed_spec key value c HI E) as [HI' Er]. rewrite without_absent by done.
  pose proof (size_index _ HI') as Hsize. unfold Put. rewrite E. simpl in Hsize.
  rewrite Hsize. simpl length.
  destruct (Nat.ltb_spec (lc_capacity c) (S (length (lc_order c)))) as [Hlt|Hge].
  - destruct (exists_last (l := lc_fresh c :: lc_order c)) as (order & back & Eo); [done|].
    rewrite Eo, last_snoc, removelast_last.
    destruct (evict_spec _ (lc_capacity c) order back HI' Eo eq_refl Hcap) as (e & He & HI2 & Er2).
    simpl in He. rewrite He. split; [exact HI2|]. split; [done|].
    pose proof (length_recency _ HI2) as Hl. cbn [lc_order] in Hl.
    apply (f_equal length) in Eo. rewrite length_app in Eo. simpl length in Eo.
    rewrite <-Er, Er2. rewrite take_app_le, take_ge; [done|rewrite Hl; lia|rewrite Hl; lia].
  - split; [|split; [done|]].
    + split; try apply HI'; simpl; lia.
    + rewrite take_ge; [by rewrite <-Er|]. simpl. rewrite length_recency by done. lia.
Qed.

Lemma Clear_spec c : LruInv c → LruInv (Clear c) ∧ lc_capacity (Clear c) = lc_capacity c ∧ recency (Clear c) = [].
Proof.
  intros HI. split; [|done]. split; simpl; try apply HI.
  - constructor.
  - intros it. rewrite lookup_empty. split; [by intros ?%not_elem_of_nil|by intros [? ?]].
  - intros key it. rewrite lookup_empty. split; [done|]. intros [v Hv]. by rewrite lookup_empty in Hv.
  - intros it. by intros ?%not_elem_of_nil.
  - lia.
Qed.

(** *** Any sequence of operations *)

Inductive lru_op := LruGet (key : K) | LruPut (key : K) (value : V) | LruErase (key : K) | LruClear.

(** The cache after an operation, and what it returned (for [Get]). *)
Definition run_lru (c : LruCache) (op : lru_op) : option V * LruCache :=
  match op with
  | LruGet key => Get key c
  | LruPut key value => (None, Put key value c)
  | LruErase key => (None, Erase key c)
  | LruClear => (None, Clear c)
  end.

Definition spec_run (capacity : nat) (l : list (K * V)) (op : lru_op) : option V * list (K * V) :=
  match op with
  | LruGet key => spec_get key l
  | LruPut key value => (None, spec_put capacity key value l)
  | LruErase key => (None, without key l)
  | LruClear => (None, [])
  end.

Fixpoint lru_outputs (ops : list lru_op) c : list (option V) :=
  match ops with [] => [] | op :: ops => (run_lru c op).1 :: lru_outputs ops (run_lru c op).2 end.

Fixpoint spec_outputs (capacity : nat) (ops : list lru_op) (l : list (K * V)) : list (option V) :=
  match ops with
  | [] => []
  | op :: ops => (spec_run capacity l op).1 :: spec_outputs capacity ops (spec_run capacity l op).2
  end.

Lemma run_lru_spec c op :
  LruInv c →
  LruInv (run_lru c op).2 ∧ lc_capacity (run_lru c op).2 = lc_capacity c ∧
  ((run_lru c op).1, recency (run_lru c op).2) = spec_run (lc_capacity c) (recency c) op.
Proof.
  intros HI. destruct op as [key|key value|key|]; simpl.
  - by apply Get_spec.
  - destruct (Put_spec key value c HI) as (? & ? & ->). done.
  - destruct (Erase_spec key c HI) as (? & ? & ->). done.
  - destruct (Clear_spec c HI) as (? & ? & ->). done.
Qed.

Lemma run_lru_all ops c :
  LruInv c →
  let c' := foldl (λ c op, (run_lru c op).2) c ops in
  LruInv c' ∧ lc_capacity c' = lc_capacity c ∧
  recency c' = foldl (λ l op, (spec_run (lc_capacity c) l op).2) (recency c) ops ∧
  lru_outputs ops c = spec_outputs (lc_capacity c) ops (recency c).
Proof.
  revert c. induction ops as [|op ops IH]; intros c HI; simpl; [done|].
  destruct (run_lru_spec c op HI) as (HI' & Ec & E). destruct (IH _ HI') as (H1 & H2 & H3 & H4).
  rewrite Ec in H2, H3, H4. rewrite <-E. simpl. split; [done|]. split; [done|]. split; [done|]. by rewrite H4.
Qed.

(** C27: the cache is a least-recently-used cache.  Under any sequence of operations
    the answers of [Get] are those of the recency list, in which a key that is read
    or written moves to the front and only the first [capacity] entries are kept;
    the index and the list never disagree, no key is held twice, and there are never
    more than [capacity] entries. *)
Theorem lru_refines_recency_list capacity ops :
  let cap := if (capacity =? 0)%nat then 1%nat else capacity in
  let c := foldl (λ c op, (run_lru c op).2) (LruCache_new capacity) ops in
  lru_outputs ops (LruCache_new capacity) = spec_outputs cap ops [] ∧
  recency c = foldl (λ l op, (spec_run cap l op).2) [] ops ∧
  NoDup (recency c).*1 ∧ (lru_size c <= cap)%nat ∧ lru_size c = length (recency c) ∧
  ∀ key, Contains c key = bool_decide (key ∈ (recency c).*1).
Proof.
  intros cap c. destruct (run_lru_all ops _ (LruInv_new capacity)) as (HI & Ec & Er & Eo). fold c in HI, Ec, Er.
  split; [exact Eo|]. split; [exact Er|]. split; [by apply NoDup_recency|].
  assert (lru_size c = length (lc_order c)) as Hs by (by apply size_index).
  split; [rewrite Hs; etrans; [apply (li_size _ HI)|]; by rewrite Ec|].
  split; [by rewrite Hs, length_recency|].
  intros key. unfold Contains. apply bool_decide_ext. rewrite list_elem_of_fmap. split.
  - intros [it Hit]. pose proof Hit as Hi. apply (li_index _ HI) in Hi as [v Hv]. exists (key, v).
    split; [done|]. by eapply recency_lookup.
  - intros ([k v] & -> & Hin). apply elem_of_recency in Hin as (it & ? & _); [|done]. eauto.
Qed.
End lru.

Arguments LruCache K V {_ _}.
