(* ===== verification/ThreadPool.v ===== *)
(** * The worker pool

    [include/common/thread_pool.h] and [src/common/thread_pool.cc].  Tasks are
    identified by numbers; whether one throws is a parameter.  A step is a critical
    section of a worker or of a caller; between them a worker is waiting, running a
    task, or gone.  The state also records what was accepted and what was started,
    in order, for the statements. *)

From stdpp Require Import base relations numbers list.
From Stdlib Require Import ZArith Lia.
From S2P Require Import Prelude Status.

Local Open Scope Z_scope.

Inductive worker := Waiting | Running (task : nat) | Exited.

#[global] Instance worker_eq_dec : EqDecision worker.
Proof. solve_decision. Defined.

Record ThreadPool := mkThreadPool {
  tp_queue : list nat;
  tp_stopping : bool;
  tp_max_queue_size : nat;
  tp_workers : list worker;
  tp_completed : Z;
  tp_rejected : Z;
  tp_failed : Z;
  tp_accepted : list nat;     (** the tasks [Submit] accepted, in order *)
  tp_started : list nat;      (** the tasks taken by a worker, in order *)
  tp_finished : list nat;     (** the tasks that ended *)
}.

Implicit Types tp : ThreadPool.

(** The constructor; every worker starts in [WorkerLoop]. *)
Definition ThreadPool_new (num_threads max_queue_size : nat) : ThreadPool :=
  mkThreadPool [] false (Nat.max 1 max_queue_size) (replicate (Nat.max 1 num_threads) Waiting) 0 0 0 [] [] [].

Definition Submit (task : nat) tp : Status * ThreadPool :=
  let reject := mkThreadPool (tp_queue tp) (tp_stopping tp) (tp_max_queue_size tp) (tp_workers tp)
    (tp_completed tp) (u64 (tp_rejected tp + 1)) (tp_failed tp) (tp_accepted tp) (tp_started tp) (tp_finished tp) in
  if tp_stopping tp then (Unavailable (lit "thread pool is shutting down"), reject)
  else if (tp_max_queue_size tp <=? length (tp_queue tp))%nat
  then (Unavailable (lit "task queue is full"), reject)
  else (Ok, mkThreadPool (tp_queue tp ++ [task]) false (tp_max_queue_size tp) (tp_workers tp)
              (tp_completed tp) (tp_rejected tp) (tp_failed tp) (tp_accepted tp ++ [task]) (tp_started tp)
              (tp_finished tp)).

(** [Shutdown] up to the joins. *)
Definition Shutdown_begin tp : ThreadPool :=
  mkThreadPool (tp_queue tp) true (tp_max_queue_size tp) (tp_workers tp) (tp_completed tp) (tp_rejected tp)
    (tp_failed tp) (tp_accepted tp) (tp_started tp) (tp_finished tp).

(** The joins of [Shutdown] return when every worker is gone. *)
Definition all_exited tp : bool := forallb (λ w, match w with Exited => true | _ => false end) (tp_workers tp).

(** The critical section at the top of [WorkerLoop], for a worker that is waiting:
    [None] when it keeps waiting. *)
Definition Worker_take (i : nat) tp : option ThreadPool :=
  match tp_workers tp !! i with
  | Some Waiting =>
      match tp_queue tp with
      | [] =>
          if tp_stopping tp
          then Some (mkThreadPool [] true (tp_max_queue_size tp) (<[i := Exited]> (tp_workers tp))
                       (tp_completed tp) (tp_rejected tp) (tp_failed tp) (tp_accepted tp) (tp_started tp)
                       (tp_finished tp))
          else None
      | task :: queue =>
          Some (mkThreadPool queue (tp_stopping tp) (tp_max_queue_size tp)
                  (<[i := Running task]> (tp_workers tp)) (tp_completed tp) (tp_rejected tp) (tp_failed tp)
                  (tp_accepted tp) (tp_started tp ++ [task]) (tp_finished tp))
      end
  | _ => None
  end.

(** The end of a task, [throws] telling how. *)
Definition Worker_finish (throws : nat → bool) (i : nat) tp : option ThreadPool :=
  match tp_workers tp !! i with
  | Some (Running task) =>
      Some (mkThreadPool (tp_queue tp) (tp_stopping tp) (tp_max_queue_size tp)
              (<[i := Waiting]> (tp_workers tp))
              (if throws task then tp_completed tp else u64 (tp_completed tp + 1))
              (tp_rejected tp)
              (if throws task then u64 (tp_failed tp + 1) else tp_failed tp)
              (tp_accepted tp) (tp_started tp) (tp_finished tp ++ [task]))
  | _ => None
  end.

Section pool.
Variable throws : nat → bool.

(** A worker moves. *)
Inductive worker_step tp : ThreadPool → Prop :=
  | ws_take i tp' : Worker_take i tp = Some tp' → worker_step tp tp'
  | ws_finish i tp' : Worker_finish throws i tp = Some tp' → worker_step tp tp'.

Inductive pool_step tp : ThreadPool → Prop :=
  | ps_submit task : pool_step tp (Submit task tp).2
  | ps_shutdown : pool_step tp (Shutdown_begin tp)
  | ps_worker tp' : worker_step tp tp' → pool_step tp tp'.

(** ** Invariant *)

Definition running (ws : list worker) : list nat :=
  omap (λ w, match w with Running t => Some t | _ => None end) ws.

Record PoolInv tp : Prop := {
  pi_bound : (length (tp_queue tp) <= tp_max_queue_size tp)%nat;
  pi_order : tp_accepted tp = tp_started tp ++ tp_queue tp;
  pi_running : tp_started tp ≡ₚ tp_finished tp ++ running (tp_workers tp);
  pi_workers : tp_workers tp ≠ [];
  pi_exit : Exited ∈ tp_workers tp → tp_stopping tp = true ∧ tp_queue tp = [];
  pi_completed : tp_completed tp = u64 (Zlen (filter (λ t, throws t = false) (tp_finished tp)));
  pi_failed : tp_failed tp = u64 (Zlen (filter (λ t, throws t = true) (tp_finished tp)));
}.

Lemma running_insert ws i w w' :
  ws !! i = Some w →
  running (<[i := w']> ws) ++ running [w] ≡ₚ running ws ++ running [w'].
Proof.
  intros E. unfold running. rewrite <-!omap_app.
  apply (omap_Permutation _). rewrite <-(take_drop_middle ws i w E) at 2.
  rewrite insert_take_drop by (by eapply lookup_lt_Some).
  set (a := take i ws). set (b := drop (S i) ws). clearbody a b. clear E.
  rewrite <-!app_assoc. simpl. solve_Permutation.
Qed.

Lemma PoolInv_new num_threads max : PoolInv (ThreadPool_new num_threads max).
Proof.
  split; simpl tp_queue; try done; simpl; try lia.
  - set (k := Nat.max 1 num_threads). induction k as [|k IH]; [done|]. exact IH.
  - by destruct num_threads.
  - intros Hin%elem_of_replicate. by destruct Hin.
Qed.

Lemma u64_succ z : u64 (u64 z + 1) = u64 (z + 1).
Proof. unfold u64. by rewrite Zplus_mod_idemp_l. Qed.

Lemma finish_counters (P : nat → Prop) `{∀ t, Decision (P t)} l task z :
  z = u64 (Zlen (filter P l)) →
  (if decide (P task) then u64 (z + 1) else z) = u64 (Zlen (filter P (l ++ [task]))).
Proof.
  intros ->. rewrite filter_app, length_app, filter_cons, filter_nil. case_decide; simpl.
  - rewrite u64_succ. f_equal. lia.
  - f_equal. lia.
Qed.

Lemma insert_nonempty (ws : list worker) i w : ws ≠ [] → <[i := w]> ws ≠ [].
Proof. intros Hne E. apply (f_equal length) in E. rewrite length_insert in E. by destruct ws. Qed.

Lemma worker_step_inv tp tp' : worker_step tp tp' → PoolInv tp → PoolInv tp'.
Proof.
  intros Hst HI. destruct Hst as [i tp' E|i tp' E].
  - unfold Worker_take in E. destruct (tp_workers tp !! i) as [[| |]|] eqn:Ew; try done.
    pose proof (running_insert _ _ _ Exited Ew) as Hre.
    destruct (tp_queue tp) as [|task queue] eqn:Eq.
    + destruct (tp_stopping tp) eqn:Es; [|done]. injection E as <-. split; simpl; try apply HI; try apply insert_nonempty, HI.
      * lia.
      * rewrite (pi_order _ HI), Eq. done.
      * rewrite (pi_running _ HI). simpl in Hre. rewrite !app_nil_r in Hre. by rewrite Hre.
      * done.
    + pose proof (running_insert _ _ _ (Running task) Ew) as Hr. simpl in Hr. rewrite app_nil_r in Hr.
      injection E as <-. split; simpl; try apply HI; try apply insert_nonempty, HI.
      * pose proof (pi_bound _ HI) as Hb. rewrite Eq in Hb. simpl in Hb. lia.
      * rewrite (pi_order _ HI), Eq, <-app_assoc. done.
      * rewrite (pi_running _ HI), Hr, app_assoc. done.
      * intros Hin. apply list_elem_of_lookup_1 in Hin as [j Hj].
        apply list_lookup_insert_Some in Hj as [(-> & ? & _)|[_ Hj]]; [done|].
        apply list_elem_of_lookup_2, (pi_exit _ HI) in Hj as [_ Hq]. by rewrite Eq in Hq.
  - unfold Worker_finish in E. destruct (tp_workers tp !! i) as [[|task|]|] eqn:Ew; try done.
    pose proof (running_insert _ _ _ Waiting Ew) as Hr. simpl in Hr. rewrite app_nil_r in Hr.
    injection E as <-. split; simpl; try apply HI; try apply insert_nonempty, HI.
    + rewrite (pi_running _ HI), <-Hr. solve_Permutation.
    + intros Hin. apply list_elem_of_lookup_1 in Hin as [j Hj].
      apply list_lookup_insert_Some in Hj as [(-> & ? & _)|[_ Hj]]; [done|].
      by apply list_elem_of_lookup_2, (pi_exit _ HI) in Hj.
    + rewrite <-(finish_counters _ _ task _ (pi_completed _ HI)). by destruct (throws task).
    + rewrite <-(finish_counters _ _ task _ (pi_failed _ HI)). by destruct (throws task).
Qed.

Lemma pool_step_inv tp tp' : pool_step tp tp' → PoolInv tp → PoolInv tp'.
Proof.
  intros [task| |tp'' Hw] HI.
  - unfold Submit. destruct (tp_stopping tp) eqn:Es; simpl; [split; simpl; try apply HI; intros Hin; split; [done|by apply (pi_exit _ HI)]|].
    destruct (Nat.leb_spec (tp_max_queue_size tp) (length (tp_queue tp))); simpl.
    + split; simpl; try apply HI. intros Hin. apply (pi_exit _ HI) in Hin as [? _]. congruence.
    + split; simpl; try apply HI.
      * rewrite length_app. simpl. lia.
      * by rewrite (pi_order _ HI), app_assoc.
      * intros Hin. apply (pi_exit _ HI) in Hin as [? _]. congruence.
  - split; simpl; try apply HI. intros Hin. apply (pi_exit _ HI) in Hin as [_ ?]. done.
  - by eapply worker_step_inv.
Qed.
(** ** Shutting down *)

Definition worker_weight (w : worker) : nat := match w with Waiting => 1 | Running _ => 2 | Exited => 0 end.

(** How many moves the workers have left once nothing is submitted any more. *)
Definition work_left tp : nat := (2 * length (tp_queue tp) + sum_list_with worker_weight (tp_workers tp))%nat.

Lemma weight_insert ws i w w' :
  ws !! i = Some w →
  (sum_list_with worker_weight (<[i := w']> ws) + worker_weight w =
   sum_list_with worker_weight ws + worker_weight w')%nat.
Proof.
  intros E. rewrite <-(take_drop_middle ws i w E) at 2.
  rewrite insert_take_drop by (by eapply lookup_lt_Some). rewrite !sum_list_with_app. simpl. lia.
Qed.

Lemma worker_step_work tp tp' : worker_step tp tp' → S (work_left tp') = work_left tp.
Proof.
  unfold work_left. intros [i tp1 E|i tp1 E].
  - unfold Worker_take in E. destruct (tp_workers tp !! i) as [[| |]|] eqn:Ew; try done.
    destruct (tp_queue tp) as [|task queue] eqn:Eq.
    + destruct (tp_stopping tp); [|done]. injection E as <-. simpl.
      pose proof (weight_insert _ _ _ Exited Ew) as Hw. simpl in Hw. lia.
    + injection E as <-. simpl. pose proof (weight_insert _ _ _ (Running task) Ew) as Hw. simpl in Hw. lia.
  - unfold Worker_finish in E. destruct (tp_workers tp !! i) as [[|task|]|] eqn:Ew; try done.
    injection E as <-. simpl. pose proof (weight_insert _ _ _ Waiting Ew) as Hw. simpl in Hw. lia.
Qed.

Lemma worker_steps_work k tp tp' : nsteps worker_step k tp tp' → (k + work_left tp' = work_left tp)%nat.
Proof. induction 1 as [|k tp1 tp2 tp3 H _ IH]; [done|]. apply worker_step_work in H. lia. Qed.

Lemma worker_step_stopping tp tp' : worker_step tp tp' → tp_stopping tp' = tp_stopping tp.
Proof.
  intros [i tp1 E|i tp1 E].
  - unfold Worker_take in E. destruct (tp_workers tp !! i) as [[| |]|]; try done.
    destruct (tp_queue tp); [destruct (tp_stopping tp)|]; by simplify_eq.
  - unfold Worker_finish in E. destruct (tp_workers tp !! i) as [[| |]|]; by simplify_eq.
Qed.

(** While shutting down some worker can move until all are gone. *)
Lemma shutdown_progress tp :
  tp_stopping tp = true → all_exited tp = true ∨ ∃ tp', worker_step tp tp'.
Proof.
  intros Hs. unfold all_exited.
  destruct (list_find (λ w, w ≠ Exited) (tp_workers tp)) as [[i w]|] eqn:E.
  - right. apply list_find_Some in E as (Ew & Hne & _). destruct w as [|task|]; [| |done].
    + destruct (Worker_take i tp) as [tp'|] eqn:Et; [eexists; by eapply ws_take|].
      unfold Worker_take in Et. rewrite Ew, Hs in Et. by destruct (tp_queue tp).
    + destruct (Worker_finish throws i tp) as [tp'|] eqn:Et; [eexists; by eapply ws_finish|].
      unfold Worker_finish in Et. by rewrite Ew in Et.
  - left. apply list_find_None in E. apply forallb_forall. intros w Hw%list_elem_of_In.
    rewrite Forall_forall in E. specialize (E w Hw). destruct w; [by destruct E|by destruct E|done].
Qed.

Lemma shutdown_reaches tp :
  tp_stopping tp = true → ∃ tp', rtc worker_step tp tp' ∧ all_exited tp' = true.
Proof.
  remember (work_left tp) as k eqn:Ek. revert tp Ek.
  induction k as [k IH] using lt_wf_ind. intros tp -> Hs.
  destruct (shutdown_progress tp Hs) as [?|(tp1 & H1)]; [by exists tp|].
  pose proof (worker_step_work _ _ H1). destruct (IH (work_left tp1)) with tp1 as (tp2 & H2 & ?);
    [lia|done|by rewrite (worker_step_stopping _ _ H1)|].
  exists tp2. split; [by eapply rtc_l|done].
Qed.

Lemma worker_steps_inv tp tp' : rtc worker_step tp tp' → PoolInv tp → PoolInv tp'.
Proof. induction 1; eauto using worker_step_inv. Qed.

Lemma pool_steps_inv tp tp' : rtc pool_step tp tp' → PoolInv tp → PoolInv tp'.
Proof. induction 1; eauto using pool_step_inv. Qed.

Lemma running_exited ws :
  forallb (λ w, match w with Exited => true | _ => false end) ws = true → running ws = [].
Proof. induction ws as [|[| |] ws IH]; simpl; try done. Qed.

(** When all workers are gone nothing is left. *)
Lemma drained tp : PoolInv tp → all_exited tp = true → tp_queue tp = [] ∧ running (tp_workers tp) = [].
Proof.
  intros HI Hex. split; [|by apply running_exited].
  destruct (tp_workers tp) as [|w ws] eqn:Ew; [by destruct (pi_workers _ HI)|].
  assert (Exited ∈ tp_workers tp) as Hin; [|by apply (pi_exit _ HI)].
  rewrite Ew. unfold all_exited in Hex. rewrite Ew in Hex. simpl in Hex. destruct w; try done. left.
Qed.

(** Every accepted task is accounted for.  After any interleaving of callers and
    workers: the queue never exceeds its bound, tasks are started in the order they
    were accepted, each started task is running or has ended (none is lost, none runs
    twice), a worker only leaves when the pool is stopping and the queue is empty, and
    the counters count the tasks that returned and that threw. *)
Theorem pool_accounting num_threads max tp :
  rtc pool_step (ThreadPool_new num_threads max) tp →
  (length (tp_queue tp) <= tp_max_queue_size tp)%nat ∧
  tp_accepted tp = tp_started tp ++ tp_queue tp ∧
  tp_started tp ≡ₚ tp_finished tp ++ running (tp_workers tp) ∧
  (Exited ∈ tp_workers tp → tp_stopping tp = true ∧ tp_queue tp = []) ∧
  tp_completed tp = u64 (Zlen (filter (λ t, throws t = false) (tp_finished tp))) ∧
  tp_failed tp = u64 (Zlen (filter (λ t, throws t = true) (tp_finished tp))).
Proof.
  intros Hr. destruct (pool_steps_inv _ _ Hr (PoolInv_new _ _)). done.
Qed.

(** [Shutdown] returns and drains the queue.  Once the pool is stopping, the
    workers make at most [work_left] moves, they are never stuck before all of them
    are gone, so the joins return; and then every task that was accepted has run to
    its end exactly once. *)
Theorem pool_shutdown_drains num_threads max tp :
  rtc pool_step (ThreadPool_new num_threads max) tp → tp_stopping tp = true →
  (∀ k tp', nsteps worker_step k tp tp' → (k <= work_left tp)%nat) ∧
  (∀ tp', rtc worker_step tp tp' → (¬ ∃ tp'', worker_step tp' tp'') → all_exited tp' = true) ∧
  (∃ tp', rtc worker_step tp tp' ∧ all_exited tp' = true) ∧
  (∀ tp', rtc worker_step tp tp' → all_exited tp' = true →
     tp_queue tp' = [] ∧ tp_finished tp' ≡ₚ tp_accepted tp').
Proof.
  intros Hr Hs. pose proof (pool_steps_inv _ _ Hr (PoolInv_new _ _)) as HI.
  split_and!.
  - intros k tp' Hk%worker_steps_work. lia.
  - intros tp' Hsteps Hstuck. assert (tp_stopping tp' = true) as Hs'.
    { clear Hstuck HI Hr. induction Hsteps as [|tp1 tp2 tp3 H1 _ IH]; [done|]. apply IH.
      by rewrite (worker_step_stopping _ _ H1). }
    by destruct (shutdown_progress tp' Hs').
  - by apply shutdown_reaches.
  - intros tp' Hsteps Hex. pose proof (worker_steps_inv _ _ Hsteps HI) as HI'.
    destruct (drained _ HI' Hex) as [Hq Hrun].
    pose proof (pi_running _ HI') as Hp. rewrite Hrun, app_nil_r in Hp.
    split; [done|]. by rewrite (pi_order _ HI'), Hq, app_nil_r.
Qed.
End pool.

(** ** A run: two tasks, one worker, a bound of one *)

Definition tp_throws (t : nat) : bool := (t =? 2)%nat.
Definition tp0 : ThreadPool := ThreadPool_new 1 1.
Definition tp1 : ThreadPool := (Submit 1 tp0).2.
Definition tp2 : ThreadPool := default tp1 (Worker_take 0 tp1).
Definition tp3 : ThreadPool := (Submit 2 tp2).2.
Definition tp4 : ThreadPool := (Submit 3 tp3).2.
Definition tp5 : ThreadPool := Shutdown_begin tp4.

Lemma tp5_reachable : rtc (pool_step tp_throws) tp0 tp5.
Proof.
  apply (rtc_l _ _ tp1); [apply ps_submit|].
  apply (rtc_l _ _ tp2); [apply ps_worker, (ws_take _ _ 0); reflexivity|].
  apply (rtc_l _ _ tp3); [apply ps_submit|].
  apply (rtc_l _ _ tp4); [apply ps_submit|].
  apply (rtc_l _ _ tp5); [apply ps_shutdown|]. reflexivity.
Qed.

Lemma pool_accounting_witness :
  tp_accepted tp5 = [1; 2]%nat ∧ tp_rejected tp5 = 1 ∧ tp_accepted tp5 = tp_started tp5 ++ tp_queue tp5.
Proof.
  split; [reflexivity|]. split; [reflexivity|].
  exact (proj1 (proj2 (pool_accounting tp_throws 1 1 tp5 tp5_reachable))).
Defined.

Lemma pool_shutdown_drains_witness :
  ∃ tp', rtc (worker_step tp_throws) tp5 tp' ∧ all_exited tp' = true.
Proof.
  exact (proj1 (proj2 (proj2 (pool_shutdown_drains tp_throws 1 1 tp5 tp5_reachable eq_refl)))).
Defined.
