(* ===== verification/MetadataView.v ===== *)
(** * The control plane's interfaces

    [include/cluster/metadata_view.h] and [include/cluster/control_plane.h]: the
    record of where an object lives, the interface [MetadataView] through which
    the coordinator and the repairer see the control plane, and what it promises
    them.  A view is a state and operations on it; the implementations are in
    MetadataRepository.v, CachingMetadataView.v and MetadataRpc.v. *)

From stdpp Require Import base gmap numbers list sorting.
From Stdlib Require Import ZArith Lia.
From S2P Require Import Prelude Status ClusterMap.

Local Open Scope Z_scope.

Record ObjectLocation := mkObjectLocation {
  ol_key : bytes;
  ol_version : Z;
  ol_checksum : bytes;
  ol_size : Z;
  ol_deleted : bool;
  ol_replicas : list bytes;
}.

#[global] Instance ObjectLocation_eq_dec : EqDecision ObjectLocation.
Proof. solve_decision. Defined.

(** The message [rpc::ObjectLocation] of proto/metadata.proto. *)
Record ProtoLocation := mkProtoLocation {
  pl_key : bytes;
  pl_version : Z;
  pl_checksum : bytes;
  pl_size : Z;
  pl_deleted : bool;
  pl_replicas : list bytes;
}.

Definition ProtoLocation_default : ProtoLocation := mkProtoLocation [] 0 [] 0 false [].

Class MetadataView (S : Type) := {
  mv_PlacementFor : bytes → nat → S → list bytes * S;
  mv_RegisterObject : ObjectLocation → S → Status * S;
  mv_LookupObject : bytes → S → StatusOr ObjectLocation * S;
  mv_RemoveObject : bytes → S → Status * S;
  mv_ListObjects : bytes → S → StatusOr (list ObjectLocation) * S;
}.

Inductive Leadership := kLeader | kFollower | kNoLeader.

#[global] Instance Leadership_eq_dec : EqDecision Leadership.
Proof. solve_decision. Defined.

Class ControlPlane (S : Type) := {
  cp_view :: MetadataView S;
  cp_AddNode : NodeInfo → S → S;
  cp_Nodes : S → list NodeInfo;
  cp_leadership : S → Leadership;
  cp_leader_forward_address : S → bytes;
}.

(** ** What the comments of metadata_view.h promise *)

(** The registry: the last location registered for each key, deleted ones
    included. *)
Notation registry := (gmap bytes ObjectLocation).

Implicit Types reg : registry.

(** What [RemoveObject] leaves of a location. *)
Definition removed (loc : ObjectLocation) : ObjectLocation :=
  mkObjectLocation (ol_key loc) (ol_version loc) (ol_checksum loc) (ol_size loc) true [].

(** The live location of a key. *)
Definition live reg (key : bytes) : option ObjectLocation :=
  match reg !! key with
  | Some loc => if ol_deleted loc then None else Some loc
  | None => None
  end.

Definition registered (loc : ObjectLocation) reg : registry := <[ol_key loc := loc]> reg.
Definition unregistered (key : bytes) reg : registry := alter removed key reg.

(** The live locations under a prefix, in key order. *)
Definition listing (prefix : bytes) reg : list ObjectLocation :=
  snd <$> filter (λ e, ol_deleted e.2 = false ∧ prefix `prefix_of` e.1) (in_order bytes_le reg).

(** Every key is the key of its location. *)
Definition keyed reg : Prop := map_Forall (λ key loc, ol_key loc = key) reg.

(** An operation that fails may have taken effect: the reply of a remote view can
    be lost. *)
Class MetadataViewLaws (S : Type) `{MetadataView S} := {
  mv_inv : S → Prop;
  mv_registry : S → registry;
  mv_keyed s : mv_inv s → keyed (mv_registry s);
  mv_PlacementFor_law s key rf l s' :
    mv_inv s → mv_PlacementFor key rf s = (l, s') →
    mv_inv s' ∧ mv_registry s' = mv_registry s ∧ NoDup l ∧ (length l ≤ rf)%nat;
  mv_RegisterObject_law s loc st s' :
    mv_inv s → ol_deleted loc = false → mv_RegisterObject loc s = (st, s') → mv_inv s' ∧
    (mv_registry s' = registered loc (mv_registry s) ∨
     (st_ok st = false ∧ mv_registry s' = mv_registry s));
  mv_LookupObject_law s key r s' :
    mv_inv s → mv_LookupObject key s = (r, s') →
    mv_inv s' ∧ mv_registry s' = mv_registry s ∧
    match r with
    | FromValue loc => live (mv_registry s) key = Some loc
    | FromStatus st => st_code st ≠ kOk ∧ (st_code st = kNotFound → live (mv_registry s) key = None)
    end;
  mv_RemoveObject_law s key st s' :
    mv_inv s → mv_RemoveObject key s = (st, s') → mv_inv s' ∧
    (st_ok st = true → is_Some (live (mv_registry s) key)) ∧
    (mv_registry s' = unregistered key (mv_registry s) ∨
     (st_ok st = false ∧ mv_registry s' = mv_registry s));
  mv_ListObjects_law s prefix r s' :
    mv_inv s → mv_ListObjects prefix s = (r, s') →
    mv_inv s' ∧ mv_registry s' = mv_registry s ∧
    match r with
    | FromValue locs => locs = listing prefix (mv_registry s)
    | FromStatus st => st_code st ≠ kOk
    end;
}.

(** A view whose failed operations have no effect. *)
Class MetadataViewAtomic (S : Type) `{MetadataViewLaws S} := {
  mv_RegisterObject_atomic s loc st s' :
    mv_inv s → mv_RegisterObject loc s = (st, s') → st_ok st = false → mv_registry s' = mv_registry s;
}.

(** ** The registry *)

Lemma live_Some reg key loc : live reg key = Some loc ↔ reg !! key = Some loc ∧ ol_deleted loc = false.
Proof.
  unfold live. destruct (reg !! key) as [l|]; [|naive_solver].
  destruct (ol_deleted l) eqn:E; naive_solver congruence.
Qed.

Lemma live_registered_eq loc reg : ol_deleted loc = false → live (registered loc reg) (ol_key loc) = Some loc.
Proof. intros E. unfold live, registered. by rewrite lookup_insert_eq, E. Qed.

Lemma live_registered_ne loc reg key : key ≠ ol_key loc → live (registered loc reg) key = live reg key.
Proof. intros E. unfold live, registered. by rewrite lookup_insert_ne. Qed.

Lemma live_unregistered_eq key reg : live (unregistered key reg) key = None.
Proof. unfold live, unregistered. rewrite lookup_alter_eq. by destruct (reg !! key). Qed.

Lemma live_unregistered_ne key k reg : k ≠ key → live (unregistered key reg) k = live reg k.
Proof. intros E. unfold live, unregistered. by rewrite lookup_alter_ne. Qed.

Lemma keyed_registered loc reg : keyed reg → keyed (registered loc reg).
Proof. intros Hk. by apply map_Forall_insert_2. Qed.

Lemma keyed_unregistered key reg : keyed reg → keyed (unregistered key reg).
Proof.
  intros Hk k loc. unfold unregistered. destruct (decide (k = key)) as [-> | Hne].
  - rewrite lookup_alter_eq. intros (l & E & ->)%fmap_Some. apply (Hk key l E).
  - rewrite lookup_alter_ne by done. apply Hk.
Qed.

Lemma elem_of_listing prefix reg loc :
  keyed reg → loc ∈ listing prefix reg ↔
  live reg (ol_key loc) = Some loc ∧ prefix `prefix_of` ol_key loc.
Proof.
  intros Hk. unfold listing. rewrite list_elem_of_fmap, live_Some. split.
  - intros ([k l] & -> & [[Hd Hp] Hin]%list_elem_of_filter). simpl in *.
    apply elem_of_in_order in Hin. by rewrite (Hk k l Hin).
  - intros [[E Hd] Hp]. exists (ol_key loc, loc). split; [done|].
    apply list_elem_of_filter. split; [done|]. by apply elem_of_in_order.
Qed.

Lemma listing_sorted prefix reg :
  keyed reg → StronglySorted bytes_le (ol_key <$> listing prefix reg) ∧ NoDup (ol_key <$> listing prefix reg).
Proof.
  intros Hk.
  assert (ol_key <$> listing prefix reg =
    fst <$> filter (λ e, ol_deleted e.2 = false ∧ prefix `prefix_of` e.1) (in_order bytes_le reg)) as ->.
  { unfold listing. rewrite <-list_fmap_compose. apply list_fmap_ext. intros i [k l] Hi.
    apply list_elem_of_lookup_2, list_elem_of_filter in Hi as [_ Hin%elem_of_in_order]. by apply Hk. }
  split.
  - eapply StronglySorted_fmap; [|apply StronglySorted_filter, in_order_sorted; apply _]. done.
  - eapply sublist_NoDup; [apply (NoDup_fst_in_order bytes_le reg)|].
    apply fmap_sublist, sublist_filter.
Qed.

#[export] Hint Resolve keyed_registered keyed_unregistered : dos.

(** ** Sequences of operations on a view *)

Inductive view_op :=
  | OpPlacement (key : bytes) (rf : nat)
  | OpRegister (loc : ObjectLocation)
  | OpLookup (key : bytes)
  | OpRemove (key : bytes)
  | OpList (prefix : bytes).

Inductive view_result :=
  | ResPlacement (nodes : list bytes)
  | ResStatus (st : Status)
  | ResLookup (r : StatusOr ObjectLocation)
  | ResList (r : StatusOr (list ObjectLocation)).

(** The operations a client makes: it registers live locations only. *)
Definition op_live (op : view_op) : Prop :=
  match op with OpRegister loc => ol_deleted loc = false | _ => True end.

Section ops.
Context {S : Type} `{MetadataView S}.

Definition run_view (op : view_op) (s : S) : view_result * S :=
  match op with
  | OpPlacement key rf => let '(l, s) := mv_PlacementFor key rf s in (ResPlacement l, s)
  | OpRegister loc => let '(st, s) := mv_RegisterObject loc s in (ResStatus st, s)
  | OpLookup key => let '(r, s) := mv_LookupObject key s in (ResLookup r, s)
  | OpRemove key => let '(st, s) := mv_RemoveObject key s in (ResStatus st, s)
  | OpList prefix => let '(r, s) := mv_ListObjects prefix s in (ResList r, s)
  end.

Fixpoint view_results (ops : list view_op) (s : S) : list view_result :=
  match ops with
  | [] => []
  | op :: ops => let '(r, s) := run_view op s in r :: view_results ops s
  end.
End ops.
