(* ===== verification/MetadataRepository.v ===== *)
(** * The in-process control plane

    [include/cluster/metadata_repository.h] and
    [src/cluster/metadata_repository.cc]: membership, placement and the object
    registry of a single-node control plane.  Every operation holds [mu_]
    throughout, so each is one function on the state. *)

From stdpp Require Import base gmap numbers list sorting.
From Stdlib Require Import ZArith Lia.
From S2P Require Import Prelude Status Sha256 Ring ClusterMap MetadataView.

Local Open Scope Z_scope.
Local Opaque Hash64 vnode_pos.

Record MetadataRepository := mkMetadataRepository {
  mr_cluster : ClusterMap;
  mr_objects : gmap bytes ObjectLocation;
}.

Implicit Types s : MetadataRepository.

Definition MetadataRepository_new (virtual_nodes_per_node : nat) : MetadataRepository :=
  mkMetadataRepository (ClusterMap_new virtual_nodes_per_node) ∅.

Definition AddNode (node : NodeInfo) s : MetadataRepository :=
  mkMetadataRepository (AddOrUpdateNode node (mr_cluster s)) (mr_objects s).

Definition Nodes s : list NodeInfo := ClusterMap.Nodes (mr_cluster s).

Definition PlacementFor (key : bytes) (rf : nat) s : list bytes * MetadataRepository :=
  (ClusterMap.PlacementFor (mr_cluster s) key rf, s).

Definition RegisterObject (loc : ObjectLocation) s : Status * MetadataRepository :=
  (Ok, mkMetadataRepository (mr_cluster s) (<[ol_key loc := loc]> (mr_objects s))).

(** The answer when the key has no live location. *)
Definition no_metadata (key : bytes) : Status := NotFound (lit "no metadata for key: " ++ key).

Definition LookupObject (key : bytes) s : StatusOr ObjectLocation * MetadataRepository :=
  match mr_objects s !! key with
  | None => (FromStatus (no_metadata key), s)
  | Some loc => if ol_deleted loc then (FromStatus (no_metadata key), s) else (FromValue loc, s)
  end.

Definition RemoveObject (key : bytes) s : Status * MetadataRepository :=
  match mr_objects s !! key with
  | None => (no_metadata key, s)
  | Some loc =>
      if ol_deleted loc then (no_metadata key, s)
      else (Ok, mkMetadataRepository (mr_cluster s)
                  (<[key := mkObjectLocation (ol_key loc) (ol_version loc) (ol_checksum loc)
                              (ol_size loc) true []]> (mr_objects s)))
  end.

(** The loop of [ListObjects] over the ordered map. *)
Definition ListObjects (prefix : bytes) s : StatusOr (list ObjectLocation) * MetadataRepository :=
  let step (out : list ObjectLocation) (e : bytes * ObjectLocation) :=
    if negb (ol_deleted e.2) && starts_with prefix e.1 then out ++ [e.2] else out in
  (FromValue (foldl step [] (in_order bytes_le (mr_objects s))), s).

#[export] Instance Repository_view : MetadataView MetadataRepository := {|
  mv_PlacementFor := PlacementFor; mv_RegisterObject := RegisterObject;
  mv_LookupObject := LookupObject; mv_RemoveObject := RemoveObject; mv_ListObjects := ListObjects;
|}.

#[export] Instance Repository_control_plane : ControlPlane MetadataRepository := {|
  cp_AddNode := AddNode; cp_Nodes := Nodes;
  cp_leadership := λ _, kLeader; cp_leader_forward_address := λ _, [];
|}.

(** ** The repository keeps its promises *)

Record RepoInv s : Prop := {
  ri_cluster : ClusterInv (mr_cluster s);
  ri_keyed : keyed (mr_objects s);
}.

Lemma RepoInv_new k : RepoInv (MetadataRepository_new k).
Proof. split; [apply ClusterInv_new|apply map_Forall_empty]. Qed.

Lemma Repository_AddNode_inv node s : RepoInv s → RepoInv (AddNode node s).
Proof. intros [? ?]. split; [by apply AddOrUpdateNode_inv|done]. Qed.

Lemma RegisterObject_inv loc s : RepoInv s → RepoInv (RegisterObject loc s).2.
Proof. intros [? ?]. split; [done|by apply keyed_registered]. Qed.

Lemma LookupObject_eq key s :
  LookupObject key s =
  (match live (mr_objects s) key with Some loc => FromValue loc | None => FromStatus (no_metadata key) end, s).
Proof. unfold LookupObject, live. destruct (mr_objects s !! key) as [loc|]; [|done]. by destruct (ol_deleted loc). Qed.

Lemma RemoveObject_eq key s :
  RemoveObject key s =
  match live (mr_objects s) key with
  | Some _ => (Ok, mkMetadataRepository (mr_cluster s) (unregistered key (mr_objects s)))
  | None => (no_metadata key, s)
  end.
Proof.
  unfold RemoveObject, live, unregistered. destruct (mr_objects s !! key) as [loc|] eqn:E; [|done].
  destruct (ol_deleted loc); [done|]. do 2 f_equal. apply map_eq. intros k.
  destruct (decide (k = key)) as [-> | Hne].
  - by rewrite lookup_insert_eq, lookup_alter_eq, E.
  - by rewrite lookup_insert_ne, lookup_alter_ne.
Qed.

Lemma RemoveObject_inv key s : RepoInv s → RepoInv (RemoveObject key s).2.
Proof.
  intros [? ?]. rewrite RemoveObject_eq. destruct (live _ _); [|done].
  split; [done|by apply keyed_unregistered].
Qed.

Lemma ListObjects_eq prefix s : ListObjects prefix s = (FromValue (listing prefix (mr_objects s)), s).
Proof.
  unfold ListObjects, listing. do 2 f_equal. generalize (in_order bytes_le (mr_objects s)). intros l.
  set (step := λ out (e : bytes * ObjectLocation), _).
  enough (∀ out, foldl step out l = out ++ (snd <$> filter (λ e : bytes * ObjectLocation,
    ol_deleted e.2 = false ∧ prefix `prefix_of` e.1) l)) as Hall by apply Hall.
  induction l as [|[k loc] l IH]; intros out; simpl; [by rewrite app_nil_r|].
  rewrite IH, filter_cons. unfold step, starts_with. simpl. case_decide as Hd; simpl.
  - destruct Hd as [-> Hp]. rewrite bool_decide_eq_true_2 by done. simpl. by rewrite <-app_assoc.
  - destruct (negb _ && _) eqn:E; [|done]. prop_bool. by destruct Hd.
Qed.

#[export] Instance Repository_laws : MetadataViewLaws MetadataRepository.
Proof.
  refine {| mv_inv := RepoInv; mv_registry := mr_objects |}.
  - by intros s [].
  - intros s key rf l s' [HC HK] [= <- <-]. split; [done|]. split; [done|].
    unfold ClusterMap.PlacementFor. rewrite LookupReplicas_preference.
    split; [apply NoDup_take, NoDup_preference|]. rewrite length_take. lia.
  - intros s loc st s' HI _ [= <- <-]. split; [by apply (RegisterObject_inv loc)|]. by left.
  - intros s key r s' HI E. cbn in E. rewrite LookupObject_eq in E. injection E as <- <-.
    split; [done|]. split; [done|]. by destruct (live _ _).
  - intros s key st s' HI E. pose proof (RemoveObject_inv key s HI) as HI'. cbn in E. rewrite E in HI'.
    split; [done|]. rewrite RemoveObject_eq in E. destruct (live _ _) eqn:El; injection E as <- <-.
    + split; [by eexists|]. by left.
    + split; [done|]. by right.
  - intros s prefix r s' HI E. cbn in E. rewrite ListObjects_eq in E. by injection E as <- <-.
Defined.

#[export] Instance Repository_atomic : MetadataViewAtomic MetadataRepository.
Proof. split. intros s loc st s' _ [= <- <-]. done. Qed.
