(* ===== verification/CachingMetadataView.v ===== *)
(** * The caching view

    [include/cluster/caching_metadata_view.h]: a view that keeps looked-up
    locations in an LRU cache.  [mu_] is held around each use of the cache and
    released around the calls of the view behind it, so an operation is the
    sequence of its critical sections; [LookupObject] is given by its two
    ([LookupObject_probe] and [LookupObject_fill]) and the call between them. *)

From stdpp Require Import base gmap numbers list sorting.
From Stdlib Require Import ZArith Lia.
From S2P Require Import Prelude Status Sha256 LruCache Ring ClusterMap MetadataView MetadataRepository.

Local Open Scope Z_scope.
Local Opaque Hash64 vnode_pos.

Record CachingMetadataView (S : Type) := mkCachingMetadataView {
  cv_inner : S;
  cv_cache : LruCache bytes ObjectLocation;
}.
Arguments mkCachingMetadataView {S}.
Arguments cv_inner {S}.
Arguments cv_cache {S}.

Section caching.
Context {S : Type} `{MetadataView S}.
Implicit Types s : CachingMetadataView S.

Definition CachingMetadataView_new (inner : S) (capacity : nat) : CachingMetadataView S :=
  mkCachingMetadataView inner (LruCache_new capacity).

Definition set_cache (c : LruCache bytes ObjectLocation) s : CachingMetadataView S :=
  mkCachingMetadataView (cv_inner s) c.

(** A call of the view behind the cache. *)
Definition on_inner {A} (f : S → A * S) s : A * CachingMetadataView S :=
  let '(x, inner) := f (cv_inner s) in (x, mkCachingMetadataView inner (cv_cache s)).

Definition PlacementFor (key : bytes) (rf : nat) s : list bytes * CachingMetadataView S :=
  on_inner (mv_PlacementFor key rf) s.

Definition LookupObject_probe (key : bytes) s : option ObjectLocation * CachingMetadataView S :=
  let '(hit, c) := LruCache.Get key (cv_cache s) in (hit, set_cache c s).

Definition LookupObject_fill (key : bytes) (result : StatusOr ObjectLocation) s : CachingMetadataView S :=
  match result with
  | FromValue loc => set_cache (LruCache.Put key loc (cv_cache s)) s
  | FromStatus _ => s
  end.

Definition LookupObject (key : bytes) s : StatusOr ObjectLocation * CachingMetadataView S :=
  match LookupObject_probe key s with
  | (Some hit, s) => (FromValue hit, s)
  | (None, s) =>
      let '(result, s) := on_inner (mv_LookupObject key) s in
      (result, LookupObject_fill key result s)
  end.

Definition RegisterObject (loc : ObjectLocation) s : Status * CachingMetadataView S :=
  let '(st, s) := on_inner (mv_RegisterObject loc) s in
  if st_ok st then (st, set_cache (LruCache.Put (ol_key loc) loc (cv_cache s)) s) else (st, s).

Definition RemoveObject (key : bytes) s : Status * CachingMetadataView S :=
  let '(st, s) := on_inner (mv_RemoveObject key) s in
  (st, set_cache (LruCache.Erase key (cv_cache s)) s).

Definition ListObjects (prefix : bytes) s : StatusOr (list ObjectLocation) * CachingMetadataView S :=
  on_inner (mv_ListObjects prefix) s.

Definition hits s : Z := lc_hits (cv_cache s).
Definition misses s : Z := lc_misses (cv_cache s).

#[export] Instance Caching_view : MetadataView (CachingMetadataView S) := {|
  mv_PlacementFor := PlacementFor; mv_RegisterObject := RegisterObject;
  mv_LookupObject := LookupObject; mv_RemoveObject := RemoveObject; mv_ListObjects := ListObjects;
|}.
End caching.

(** ** The cache is coherent *)

Section coherent.
Context {S : Type} `{MetadataViewAtomic S}.
Implicit Types s : CachingMetadataView S.

(** Every cached location is the live one of its key. *)
Definition coherent (c : LruCache bytes ObjectLocation) (reg : registry) : Prop :=
  ∀ key loc, (key, loc) ∈ recency c → live reg key = Some loc.

Record CacheInv s : Prop := {
  ca_inner : mv_inv (cv_inner s);
  ca_cache : LruInv (cv_cache s);
  ca_coherent : coherent (cv_cache s) (mv_registry (cv_inner s));
}.

Lemma CacheInv_new inner capacity : mv_inv inner → CacheInv (CachingMetadataView_new inner capacity).
Proof. intros HI. split; [done|apply LruInv_new|]. by intros key loc ?%not_elem_of_nil. Qed.

Lemma find_key_elem (key : bytes) l (loc : ObjectLocation) : find_key key l = Some loc → (key, loc) ∈ l.
Proof.
  unfold find_key. intros ([k v] & E & ->)%fmap_Some. simpl.
  assert ((k, v) ∈ filter (λ e : bytes * ObjectLocation, e.1 = key) l) as [<- ?]%list_elem_of_filter; [|done].
  destruct (filter _ l); [done|]. injection E as ->. by left.
Qed.

(** A hit moves an entry to the front and returns it. *)
Lemma probe_spec key c hit c' reg :
  LruInv c → coherent c reg → LruCache.Get key c = (hit, c') →
  LruInv c' ∧ coherent c' reg ∧ (∀ loc, hit = Some loc → live reg key = Some loc).
Proof.
  intros HI Hco E. destruct (Get_spec key c HI) as (HI' & _ & Es). rewrite E in HI', Es. simpl in *.
  split; [done|]. unfold spec_get in Es. destruct (find_key key (recency c)) as [v|] eqn:Ef; injection Es as -> Er.
  - apply find_key_elem in Ef. split; [|intros loc [= <-]; by apply Hco].
    intros k l. rewrite Er, elem_of_cons. intros [[= -> ->]|[_ Hin]%list_elem_of_filter]; by apply Hco.
  - split; [|done]. intros k l. rewrite Er. apply Hco.
Qed.

Lemma put_spec key loc c reg reg' :
  LruInv c → coherent c reg → live reg' key = Some loc →
  (∀ k, k ≠ key → live reg' k = live reg k) →
  LruInv (LruCache.Put key loc c) ∧ coherent (LruCache.Put key loc c) reg'.
Proof.
  intros HI Hco Hl Hne. destruct (Put_spec key loc c HI) as (HI' & _ & Er). split; [done|].
  intros k l. rewrite Er. unfold spec_put. intros (i & Hi & _)%elem_of_take.
  apply list_elem_of_lookup_2 in Hi. rewrite elem_of_cons in Hi.
  destruct Hi as [[= -> ->]|[Hk Hin]%list_elem_of_filter]; [done|]. rewrite Hne by done. by apply Hco.
Qed.

Lemma erase_spec key c reg reg' :
  LruInv c → coherent c reg → (∀ k, k ≠ key → live reg' k = live reg k) →
  LruInv (LruCache.Erase key c) ∧ coherent (LruCache.Erase key c) reg'.
Proof.
  intros HI Hco Hne. destruct (Erase_spec key c HI) as (HI' & _ & Er). split; [done|].
  intros k l. rewrite Er. intros [Hk Hin]%list_elem_of_filter. rewrite Hne by done. by apply Hco.
Qed.

Lemma on_inner_eq {A} (f : S → A * S) s x s' :
  on_inner f s = (x, s') → f (cv_inner s) = (x, cv_inner s') ∧ cv_cache s' = cv_cache s.
Proof. unfold on_inner. destruct (f (cv_inner s)). by intros [= <- <-]. Qed.

Lemma Caching_Lookup_spec s key r s' :
  CacheInv s → LookupObject key s = (r, s') →
  CacheInv s' ∧ mv_registry (cv_inner s') = mv_registry (cv_inner s) ∧
  match r with
  | FromValue loc => live (mv_registry (cv_inner s)) key = Some loc
  | FromStatus st => st_code st ≠ kOk ∧ (st_code st = kNotFound → live (mv_registry (cv_inner s)) key = None)
  end.
Proof.
  intros [Hi Hc Hco] E. unfold LookupObject, LookupObject_probe in E.
  destruct (LruCache.Get key (cv_cache s)) as [hit c'] eqn:Eg.
  eapply probe_spec in Eg as (Hc' & Hco' & Hhit); [|done..]. destruct hit as [loc|].
  { injection E as <- <-. split; [by split|]. split; [done|]. by apply Hhit. }
  destruct (on_inner _ _) as [r1 s1] eqn:E1. injection E as <- <-.
  apply on_inner_eq in E1 as [E1 Ec]. simpl in E1, Ec.
  apply mv_LookupObject_law in E1 as (Hi1 & Er & Hr); [|done].
  destruct r1 as [st|loc]; cbn [LookupObject_fill]; (split; [|done]).
  - split; [done|by rewrite Ec|by rewrite Ec, Er].
  - destruct (put_spec key loc c' (mv_registry (cv_inner s)) (mv_registry (cv_inner s))) as [? ?]; [done..|].
    split; simpl; [done|by rewrite Ec|by rewrite Ec, Er].
Qed.

Lemma Caching_Register_spec s loc st s' :
  CacheInv s → ol_deleted loc = false → RegisterObject loc s = (st, s') →
  CacheInv s' ∧
  (mv_registry (cv_inner s') = registered loc (mv_registry (cv_inner s)) ∨
   (st_ok st = false ∧ mv_registry (cv_inner s') = mv_registry (cv_inner s))).
Proof.
  intros [Hi Hc Hco] Hd E. unfold RegisterObject in E. destruct (on_inner _ _) as [st1 s1] eqn:E1.
  apply on_inner_eq in E1 as [E1 Ec]. pose proof E1 as Elaw.
  apply mv_RegisterObject_law in Elaw as (Hi1 & Hr); [|done..].
  destruct (st_ok st1) eqn:Est; injection E as <- <-; simpl.
  - destruct Hr as [Hr|[? _]]; [|congruence]. split; [|by left].
    destruct (put_spec (ol_key loc) loc (cv_cache s1) (mv_registry (cv_inner s)) (mv_registry (cv_inner s1)));
      rewrite ?Ec, ?Hr in *; auto using live_registered_eq, live_registered_ne.
    split; simpl; rewrite ?Ec, ?Hr in *; done.
  - assert (mv_registry (cv_inner s1) = mv_registry (cv_inner s)) as Er by (by eapply mv_RegisterObject_atomic).
    split; [|by right]. by split; rewrite ?Ec, ?Er.
Qed.

Lemma Caching_Remove_spec s key st s' :
  CacheInv s → RemoveObject key s = (st, s') →
  CacheInv s' ∧
  (st_ok st = true → is_Some (live (mv_registry (cv_inner s)) key)) ∧
  (mv_registry (cv_inner s') = unregistered key (mv_registry (cv_inner s)) ∨
   (st_ok st = false ∧ mv_registry (cv_inner s') = mv_registry (cv_inner s))).
Proof.
  intros [Hi Hc Hco] E. unfold RemoveObject in E. destruct (on_inner _ _) as [st1 s1] eqn:E1.
  injection E as <- <-. apply on_inner_eq in E1 as [E1 Ec].
  apply mv_RemoveObject_law in E1 as (Hi1 & Hok & Hr); [|done]. split; [|done].
  destruct (erase_spec key (cv_cache s) (mv_registry (cv_inner s)) (mv_registry (cv_inner s1))) as [? ?]; [done..| |].
  - destruct Hr as [-> |[_ ->]]; auto using live_unregistered_ne.
  - split; simpl; by rewrite ?Ec.
Qed.

#[export] Instance Caching_laws : MetadataViewLaws (CachingMetadataView S).
Proof.
  refine {| mv_inv := CacheInv; mv_registry := λ s, mv_registry (cv_inner s) |}.
  - intros s [Hi _ _]. by apply mv_keyed.
  - intros s key rf l s' [Hi Hc Hco] [E Ec]%on_inner_eq.
    apply mv_PlacementFor_law in E as (? & Er & ? & ?); [|done].
    split; [split; rewrite ?Ec, ?Er|]; done.
  - apply Caching_Register_spec.
  - apply Caching_Lookup_spec.
  - apply Caching_Remove_spec.
  - intros s prefix r s' [Hi Hc Hco] [E Ec]%on_inner_eq.
    apply mv_ListObjects_law in E as (? & Er & ?); [|done].
    split; [split; rewrite ?Ec, ?Er|]; done.
Defined.
End coherent.

(** ** Transparency over the in-process control plane *)

Section transparent.
Implicit Types s : CachingMetadataView MetadataRepository.

Lemma run_view_inv op s r s' : CacheInv s → op_live op → run_view op s = (r, s') → CacheInv s'.
Proof.
  intros HI Hl. destruct op as [key rf|loc|key|key|prefix]; cbn [run_view].
  - destruct (mv_PlacementFor key rf s) as [l s1] eqn:E. intros [= _ <-].
    exact (proj1 (mv_PlacementFor_law s key rf l s1 HI E)).
  - destruct (mv_RegisterObject loc s) as [st s1] eqn:E. intros [= _ <-].
    exact (proj1 (mv_RegisterObject_law s loc st s1 HI Hl E)).
  - destruct (mv_LookupObject key s) as [r1 s1] eqn:E. intros [= _ <-].
    exact (proj1 (mv_LookupObject_law s key r1 s1 HI E)).
  - destruct (mv_RemoveObject key s) as [st s1] eqn:E. intros [= _ <-].
    exact (proj1 (mv_RemoveObject_law s key st s1 HI E)).
  - destruct (mv_ListObjects prefix s) as [r1 s1] eqn:E. intros [= _ <-].
    exact (proj1 (mv_ListObjects_law s prefix r1 s1 HI E)).
Qed.

Lemma run_view_simulates op s r s' :
  CacheInv s → run_view op s = (r, s') → run_view op (cv_inner s) = (r, cv_inner s').
Proof.
  intros HI. destruct op as [key rf|loc|key|key|prefix]; cbn -[MetadataRepository.LookupObject].
  - by intros [= <- <-].
  - by intros [= <- <-].
  - unfold LookupObject, LookupObject_probe. destruct (LruCache.Get key (cv_cache s)) as [hit c] eqn:Eg.
    eapply probe_spec in Eg as (_ & _ & Hhit); [|apply HI..]. destruct hit as [loc|].
    + intros [= <- <-]. rewrite LookupObject_eq. specialize (Hhit loc eq_refl). cbn in Hhit. by rewrite Hhit.
    + unfold on_inner. cbn -[MetadataRepository.LookupObject].
      destruct (MetadataRepository.LookupObject key (cv_inner s)) as [[st|loc] inner]; by intros [= <- <-].
  - unfold RemoveObject, on_inner. cbn -[MetadataRepository.RemoveObject].
    destruct (MetadataRepository.RemoveObject key (cv_inner s)) as [st inner]. by intros [= <- <-].
  - by intros [= <- <-].
Qed.

Lemma view_results_simulates ops s :
  CacheInv s → Forall op_live ops → view_results ops s = view_results ops (cv_inner s).
Proof.
  intros HI Hl. revert s HI. induction Hl as [|op ops Hop _ IH]; intros s HI; [done|].
  cbn [view_results]. destruct (run_view op s) as [r s'] eqn:E.
  rewrite (run_view_simulates _ _ _ _ HI E). f_equal. apply IH. by eapply run_view_inv.
Qed.
End transparent.

(** C28: to a single thread of calls the cache never shows.  A sequence of operations
    through the caching view, of any capacity, that registers only locations not
    marked deleted, as the coordinator does ([op_live]), gets the same answers as on
    the repository behind it: a lookup served from the cache is the live location,
    after registrations and removals too.  (A location registered as deleted would be
    served from the cache, see [cache_returns_deleted]; concurrent calls can leave a
    stale location in it, see [cache_stale_after_race].) *)
Theorem caching_view_transparent (repo : MetadataRepository) capacity ops :
  RepoInv repo → Forall op_live ops →
  view_results ops (CachingMetadataView_new repo capacity) = view_results ops repo.
Proof. intros HI Hl. apply view_results_simulates; [by apply CacheInv_new|done]. Qed.

Definition demo_loc (key : bytes) (version : Z) : ObjectLocation :=
  mkObjectLocation key version (lit "c0ffee") 5 false [lit "node-a"; lit "node-b"].

Lemma caching_view_transparent_witness :
  let repo := MetadataRepository_new 4 in
  let ops := [OpRegister (demo_loc (lit "k") 1); OpLookup (lit "k"); OpRegister (demo_loc (lit "k") 2);
              OpLookup (lit "k"); OpRemove (lit "k"); OpLookup (lit "k")] in
  RepoInv repo ∧ Forall op_live ops ∧
  view_results ops (CachingMetadataView_new repo 1) = view_results ops repo ∧
  view_results ops repo !! 3%nat = Some (ResLookup (FromValue (demo_loc (lit "k") 2))).
Proof.
  split; [apply RepoInv_new|]. split; [by repeat constructor|].
  split; [|by vm_compute]. apply caching_view_transparent; [apply RepoInv_new|by repeat constructor].
Defined.

(** ** What interleaving does to the cache

    The header says a cached lookup never returns a stale version.  A lookup that
    misses reads the view behind the cache without the lock: when another thread
    registers a newer version before the first one fills the cache, the older
    location goes into the cache and later lookups return it. *)
Lemma cache_stale_after_race :
  let old := demo_loc (lit "k") 1 in
  let new := demo_loc (lit "k") 2 in
  let repo := (MetadataRepository.RegisterObject old (MetadataRepository_new 4)).2 in
  let s0 := CachingMetadataView_new repo 8 in
  let '(miss, s1) := LookupObject_probe (lit "k") s0 in          (* thread A *)
  let '(found, s2) := on_inner (mv_LookupObject (lit "k")) s1 in (* thread A *)
  let '(st, s3) := RegisterObject new s2 in                      (* thread B *)
  let s4 := LookupObject_fill (lit "k") found s3 in              (* thread A *)
  miss = None ∧ st = Ok ∧
  (mv_LookupObject (lit "k") (cv_inner s4)).1 = FromValue new ∧
  (LookupObject (lit "k") s4).1 = FromValue old.
Proof. vm_compute. done. Qed.

(** A location registered as deleted is not found in the repository, but the
    cache returns it. *)
Lemma cache_returns_deleted :
  let gone := mkObjectLocation (lit "k") 1 [] 0 true [] in
  let s := (RegisterObject gone (CachingMetadataView_new (MetadataRepository_new 4) 8)).2 in
  (mv_LookupObject (lit "k") (cv_inner s)).1 = FromStatus (no_metadata (lit "k")) ∧
  (LookupObject (lit "k") s).1 = FromValue gone.
Proof. vm_compute. done. Qed.
