(* ===== verification/RaftMetadata.v ===== *)
(** * The replicated control plane

    [include/cluster/raft_metadata_repository.h] and
    [src/cluster/raft_metadata_repository.cc]: mutations travel as commands
    through the Raft log and are applied, in log order, to the
    [MetadataRepository] of every replica; reads are served from it.

    The encoding of the commands is protobuf, which the definitions take as the
    parameters [serialize] and [parse].  The repository of a replica is what the
    calls of [Apply] made of its bootstrap state, that is [replay] of the entries
    its node has applied. *)

From stdpp Require Import base gmap numbers sorting relations functions.
From Stdlib Require Import ZArith Lia.
From S2P Require Import Prelude Status RaftStorage RaftNode RaftNet RaftProps.
From S2P Require Import Sha256 Ring ClusterMap MetadataView MetadataRepository.
From stdpp Require Import list.

Local Open Scope Z_scope.
Local Opaque Hash64 vnode_pos.

(** ** Commands (proto/raft.proto) *)

Inductive MetadataCommand :=
  | CmdRegisterObject (loc : ProtoLocation)
  | CmdRemoveObject (key : bytes)
  | CmdAddNode (id address : bytes)
  | CmdNotSet.

Definition ToProtoLocation (loc : ObjectLocation) : ProtoLocation :=
  mkProtoLocation (ol_key loc) (ol_version loc) (ol_checksum loc) (ol_size loc) (ol_deleted loc) (ol_replicas loc).

Definition FromProtoLocation (p : ProtoLocation) : ObjectLocation :=
  mkObjectLocation (pl_key p) (pl_version p) (pl_checksum p) (pl_size p) (pl_deleted p) (pl_replicas p).

Section repository.
Variable (serialize : MetadataCommand → bytes) (parse : bytes → option MetadataCommand).

(** ** State *)

(** The fields of [RaftMetadataRepository]; [inner_] is kept as its bootstrap state,
    see [inner]. *)
Record RaftMetadataRepository := mkRaftMetadataRepository {
  rm_bootstrap : MetadataRepository;
  rm_raft : option RaftNode;
  rm_peer_meta_addr : gmap bytes bytes;
}.

Implicit Types r : RaftMetadataRepository.

Definition RaftMetadataRepository_new (virtual_nodes_per_node : nat) : RaftMetadataRepository :=
  mkRaftMetadataRepository (MetadataRepository_new virtual_nodes_per_node) None ∅.

Definition AttachRaft (n : RaftNode) r : RaftMetadataRepository :=
  mkRaftMetadataRepository (rm_bootstrap r) (Some n) (rm_peer_meta_addr r).

Definition AddBootstrapNode (node : NodeInfo) r : RaftMetadataRepository :=
  mkRaftMetadataRepository (MetadataRepository.AddNode node (rm_bootstrap r)) (rm_raft r) (rm_peer_meta_addr r).

Definition SetPeerMetadataAddress (peer_id address : bytes) r : RaftMetadataRepository :=
  mkRaftMetadataRepository (rm_bootstrap r) (rm_raft r) (<[peer_id := address]> (rm_peer_meta_addr r)).

(** ** Applying the log *)

Definition Apply (entry : LogEntry) (inner : MetadataRepository) : MetadataRepository :=
  match parse (le_command entry) with
  | None => inner
  | Some (CmdRegisterObject loc) => (MetadataRepository.RegisterObject (FromProtoLocation loc) inner).2
  | Some (CmdRemoveObject key) => (MetadataRepository.RemoveObject key inner).2
  | Some (CmdAddNode id address) => MetadataRepository.AddNode (NodeInfo_at id address) inner
  | Some CmdNotSet => inner
  end.

Definition replay (boot : MetadataRepository) (entries : list LogEntry) : MetadataRepository :=
  foldl (λ inner e, Apply e inner) boot entries.

Definition inner r : MetadataRepository :=
  replay (rm_bootstrap r) (from_option rn_applied [] (rm_raft r)).

(** ** Mutations *)

(** [ProposeAndWait] with the node as it is when its term is read, when the command
    is proposed, and at each wake-up of the wait: the status, and the node after
    [Propose]. *)
Definition ProposeAndWait (command : bytes) (at_term at_propose : option RaftNode) (wakeups : list RaftNode)
    : Status * option RaftNode :=
  match at_term, at_propose with
  | Some n0, Some n1 =>
      let term := rn_current_term n0 in
      let '(index, n2) := Propose command n1 in
      match index with
      | FromStatus st => (st, Some n2)
      | FromValue i => (WaitApplied i term wakeups, Some n2)
      end
  | _, _ => (Unavailable (lit "raft not attached"), at_propose)
  end.

(** A mutation called with the repository as it is when the term is read. *)
Definition AddNode (node : NodeInfo) r (at_propose : option RaftNode) (wakeups : list RaftNode)
    : option RaftNode :=
  (ProposeAndWait (serialize (CmdAddNode (ni_id node) (ni_address node))) (rm_raft r) at_propose wakeups).2.

Definition RegisterObject (loc : ObjectLocation) r (at_propose : option RaftNode) (wakeups : list RaftNode)
    : Status * option RaftNode :=
  ProposeAndWait (serialize (CmdRegisterObject (ToProtoLocation loc))) (rm_raft r) at_propose wakeups.

Definition RemoveObject (key : bytes) r (at_propose : option RaftNode) (wakeups : list RaftNode)
    : Status * option RaftNode :=
  ProposeAndWait (serialize (CmdRemoveObject key)) (rm_raft r) at_propose wakeups.

(** ** Leadership and reads *)

Definition leadership r : Leadership :=
  match rm_raft r with
  | None => kLeader
  | Some n =>
      if bool_decide (rn_role n = RaftStorage.kLeader) then kLeader
      else if bool_decide (rn_leader_id n = []) then kNoLeader else kFollower
  end.

Definition leader_forward_address r : bytes :=
  match rm_raft r with
  | None => []
  | Some n => default [] (rm_peer_meta_addr r !! rn_leader_id n)
  end.

Definition Nodes r : list NodeInfo := MetadataRepository.Nodes (inner r).
Definition PlacementFor (key : bytes) (rf : nat) r : list bytes := (MetadataRepository.PlacementFor key rf (inner r)).1.
Definition LookupObject (key : bytes) r : StatusOr ObjectLocation := (MetadataRepository.LookupObject key (inner r)).1.
Definition ListObjects (prefix : bytes) r : StatusOr (list ObjectLocation) :=
  (MetadataRepository.ListObjects prefix (inner r)).1.

(** ** Lemmas *)

Lemma FromProtoLocation_ToProtoLocation loc : FromProtoLocation (ToProtoLocation loc) = loc.
Proof. by destruct loc. Qed.

Lemma Apply_inv e repo : RepoInv repo → RepoInv (Apply e repo).
Proof.
  intros HI. unfold Apply. destruct (parse _) as [[]|]; auto using RegisterObject_inv, RemoveObject_inv, Repository_AddNode_inv.
Qed.

Lemma replay_inv boot entries : RepoInv boot → RepoInv (replay boot entries).
Proof. revert boot. induction entries as [|e entries IH]; intros boot HI; simpl; auto using Apply_inv. Qed.

Lemma replay_app boot l1 l2 : replay boot (l1 ++ l2) = replay (replay boot l1) l2.
Proof. apply foldl_app. Qed.

Lemma WaitApplied_Ok index term wakeups :
  WaitApplied index term wakeups = Ok → ∃ n, n ∈ wakeups ∧ WaitApplied_check index term n = Some Ok.
Proof.
  induction wakeups as [|n wakeups IH]; simpl; [done|].
  destruct (WaitApplied_check index term n) as [st|] eqn:E.
  - intros ->. exists n. split; [by left|done].
  - intros (n' & ? & ?)%IH. exists n'. split; [by right|done].
Qed.

(** ** What a log means *)

(** The commands of the entries, those that do not parse left out. *)
Definition commands (entries : list LogEntry) : list MetadataCommand :=
  omap (λ e, parse (le_command e)) entries.

(** The key and the node a command is about. *)
Definition on_object (c : MetadataCommand) : option bytes :=
  match c with
  | CmdRegisterObject p => Some (pl_key p)
  | CmdRemoveObject key => Some key
  | _ => None
  end.
Definition on_node (c : MetadataCommand) : option bytes :=
  match c with CmdAddNode id _ => Some id | _ => None end.

(** The last of the commands about a key, and about a node. *)
Definition last_on_object (key : bytes) (cs : list MetadataCommand) : option MetadataCommand :=
  last (filter (λ c, on_object c = Some key) cs).
Definition last_on_node (id : bytes) (cs : list MetadataCommand) : option MetadataCommand :=
  last (filter (λ c, on_node c = Some id) cs).

(** The live location of a key after the commands, and the node of an id: the last
    command about it decides. *)
Definition object_after (key : bytes) (cs : list MetadataCommand) (before : option ObjectLocation)
    : option ObjectLocation :=
  match last_on_object key cs with
  | Some (CmdRegisterObject p) => if pl_deleted p then None else Some (FromProtoLocation p)
  | Some _ => None
  | None => before
  end.
Definition node_after (id : bytes) (cs : list MetadataCommand) (before : option NodeInfo) : option NodeInfo :=
  match last_on_node id cs with
  | Some (CmdAddNode _ address) => Some (NodeInfo_at id address)
  | _ => before
  end.

Lemma commands_snoc l e :
  commands (l ++ [e]) = commands l ++ match parse (le_command e) with Some c => [c] | None => [] end.
Proof. unfold commands. rewrite omap_app. cbn. by destruct (parse _). Qed.

Lemma last_filter_snoc {A} (P : A → Prop) `{∀ x, Decision (P x)} l x :
  last (filter P (l ++ [x])) = if decide (P x) then Some x else last (filter P l).
Proof. rewrite filter_app, filter_cons, filter_nil. case_decide; by rewrite ?last_snoc, ?app_nil_r. Qed.

Lemma live_removed_object key k repo :
  live (mr_objects (MetadataRepository.RemoveObject key repo).2) k =
  if decide (key = k) then None else live (mr_objects repo) k.
Proof.
  rewrite RemoveObject_eq. case_decide as Hd.
  - subst k. destruct (live (mr_objects repo) key) eqn:E; [apply live_unregistered_eq|done].
  - destruct (live (mr_objects repo) key); [|done]. apply live_unregistered_ne. auto.
Qed.

Lemma live_registered_object loc k repo :
  live (mr_objects (MetadataRepository.RegisterObject loc repo).2) k =
  if decide (ol_key loc = k) then (if ol_deleted loc then None else Some loc) else live (mr_objects repo) k.
Proof.
  cbn [MetadataRepository.RegisterObject snd mr_objects]. case_decide as Hd.
  - subst k. unfold live. by rewrite lookup_insert_eq.
  - unfold live. by rewrite lookup_insert_ne.
Qed.

Lemma replay_object boot entries key :
  live (mr_objects (replay boot entries)) key = object_after key (commands entries) (live (mr_objects boot) key).
Proof.
  unfold object_after, last_on_object. induction entries as [|e entries IH] using rev_ind; [done|].
  rewrite commands_snoc. unfold replay. rewrite foldl_snoc. fold (replay boot entries). unfold Apply.
  destruct (parse (le_command e)) as [[p|k|id address|]|]; [..|by rewrite app_nil_r]; rewrite last_filter_snoc; cbn [on_object].
  - rewrite live_registered_object. cbn [ol_key ol_deleted FromProtoLocation].
    destruct (decide (pl_key p = key)) as [E|E]; [by rewrite decide_True by congruence|].
    by rewrite decide_False by congruence.
  - rewrite live_removed_object. destruct (decide (k = key)) as [E|E]; [by rewrite decide_True by congruence|].
    by rewrite decide_False by congruence.
  - by rewrite decide_False.
  - by rewrite decide_False.
Qed.

Lemma replay_node boot entries id :
  RepoInv boot →
  GetNode (mr_cluster (replay boot entries)) id = node_after id (commands entries) (GetNode (mr_cluster boot) id).
Proof.
  intros HI. unfold node_after, last_on_node. induction entries as [|e entries IH] using rev_ind; [done|].
  pose proof (replay_inv boot entries HI) as [HC _].
  rewrite commands_snoc. unfold replay. rewrite foldl_snoc. fold (replay boot entries). unfold Apply.
  destruct (parse (le_command e)) as [[p|k|id' address|]|]; [..|by rewrite app_nil_r]; rewrite last_filter_snoc; cbn [on_node].
  - by rewrite decide_False.
  - rewrite decide_False, RemoveObject_eq by done. by destruct (live _ _).
  - cbn [MetadataRepository.AddNode mr_cluster]. rewrite GetNode_add by done. cbn [ni_id NodeInfo_at].
    destruct (decide (id' = id)) as [->|E]; [by rewrite decide_True by done|].
    by rewrite decide_False by congruence.
  - by rewrite decide_False.
Qed.

(** ** The replicas agree *)

Section cluster.
Variable (members : list bytes) (cfg : bytes → RaftConfig).
Implicit Types cl : cluster.

(** The repository of a member, all of which start from [boot]. *)
Definition repo_at (boot : MetadataRepository) cl (v : bytes) : MetadataRepository :=
  replay boot (rn_applied (cl_node cl v)).

(** C20: the replicated control plane is one repository, and its log says what is in
    it.  In every run of the Raft group (elections, crashes, restarts, lost and
    reordered messages), from the same bootstrap membership: the repository of a
    replica maps each key to the location of the last registration of the key among
    the commands the replica has applied, to nothing if a removal came after it, and
    to what the bootstrap had if no command is about it; it maps each node id to the
    address of the last [AddNode] command of the id; and it keeps its invariant.  Of
    two replicas, at the same or at different times, the commands of one are a prefix
    of those of the other, and replicas that have applied equally many entries have
    equal repositories. *)
Theorem metadata_replicas_agree now timeout cl cl' boot v w :
  cluster_cfg members cfg → reachable members cfg now timeout cl → rtc (net_step members cfg) cl cl' →
  v ∈ members → w ∈ members → RepoInv boot →
  let cs := commands (rn_applied (cl_node cl v)) in
  let cs' := commands (rn_applied (cl_node cl' w)) in
  (∀ key, live (mr_objects (repo_at boot cl v)) key = object_after key cs (live (mr_objects boot) key)) ∧
  (∀ id, GetNode (mr_cluster (repo_at boot cl v)) id = node_after id cs (GetNode (mr_cluster boot) id)) ∧
  RepoInv (repo_at boot cl v) ∧
  (cs `prefix_of` cs' ∨ cs' `prefix_of` cs) ∧
  (length (rn_applied (cl_node cl v)) = length (rn_applied (cl_node cl' w)) →
   repo_at boot cl v = repo_at boot cl' w).
Proof.
  intros Hc Hr Hr' Hv Hw HI cs cs'. unfold repo_at.
  pose proof (applied_comparable _ _ _ _ _ _ _ _ Hc Hr Hr' Hv Hw) as Hcmp.
  split_and!; [intros key; apply replay_object|intros id; by apply replay_node|by apply replay_inv|..].
  - subst cs cs'. destruct Hcmp as [[more ->]|[more ->]]; [left|right]; unfold commands; rewrite omap_app;
      by apply prefix_app_r.
  - intros Hlen. f_equal. destruct Hcmp as [[more E]|[more E]];
      rewrite E in Hlen |- *; rewrite length_app in Hlen; destruct more; simpl in Hlen; rewrite ?app_nil_r; (done || lia).
Qed.

(** The registration of [loc] by the entry [e] has been applied at [w]: the entry is
    among those applied, right after it [loc] is the live location of its key, and it
    still is unless a later command is about the key. *)
Definition registration_applied (boot : MetadataRepository) cl (w : bytes) (e : LogEntry) (loc : ObjectLocation)
    : Prop :=
  ∃ before after, rn_applied (cl_node cl w) = before ++ e :: after ∧
    live (mr_objects (replay boot (before ++ [e]))) (ol_key loc) = Some loc ∧
    (live (mr_objects (repo_at boot cl w)) (ol_key loc) = Some loc ∨
     ∃ c, c ∈ commands after ∧ on_object c = Some (ol_key loc)).

Lemma registration_applied_lookup boot cl w (e : LogEntry) loc i :
  ol_deleted loc = false → parse (le_command e) = Some (CmdRegisterObject (ToProtoLocation loc)) →
  rn_applied (cl_node cl w) !! i = Some e → registration_applied boot cl w e loc.
Proof.
  intros Hd Hparse Hi. exists (take i (rn_applied (cl_node cl w))), (drop (S i) (rn_applied (cl_node cl w))).
  split; [symmetry; by apply take_drop_middle|].
  assert (∀ l, live (mr_objects (replay boot (l ++ [e]))) (ol_key loc) = Some loc) as Hnow.
  { intros l. unfold replay. rewrite foldl_snoc. unfold Apply. rewrite Hparse, live_registered_object.
    rewrite FromProtoLocation_ToProtoLocation, decide_True by done. by rewrite Hd. }
  split; [apply Hnow|]. unfold repo_at. rewrite <-(take_drop_middle _ _ _ Hi) at 1.
  rewrite cons_middle, app_assoc, replay_app, replay_object, Hnow. unfold object_after, last_on_object.
  destruct (last (filter _ _)) as [c|] eqn:E; [|by left]. right. exists c.
  apply last_Some_elem_of, list_elem_of_filter in E as [? ?]. done.
Qed.

(** C21: an acknowledged registration is in the control plane.  A leader proposes a
    registration in the term it read, and [RegisterObject] returns success from
    what the node is at later moments of the run.  Then at one of those moments the
    replica has applied the command: right after it the object's live location is
    the one registered, and it still is unless a later command of the log is about
    the same key.  The same holds, from then on, of every replica that has applied
    as many entries as the index of the command. *)
Theorem acknowledged_registration_applied now timeout cl boot peers v loc wakeups n' index :
  cluster_cfg members cfg → reachable members cfg now timeout cl → v ∈ members →
  Zlen (rn_log (cl_node cl v)) + 2 < 2 ^ 64 → ol_deleted loc = false →
  let command := serialize (CmdRegisterObject (ToProtoLocation loc)) in
  parse command = Some (CmdRegisterObject (ToProtoLocation loc)) →
  let n := cl_node cl v in
  (Propose command n).1 = FromValue index →
  Forall (λ n'', ∃ cl', rtc (net_step members cfg) (update v (Propose command n).2 (cl_elect cl v) [] cl) cl' ∧
                        n'' = cl_node cl' v) wakeups →
  RegisterObject loc (mkRaftMetadataRepository boot (Some n) peers) (Some n) wakeups = (Ok, n') →
  let entry := mkLogEntry (rn_current_term n) index command in
  ∃ cl', rtc (net_step members cfg) (update v (Propose command n).2 (cl_elect cl v) [] cl) cl' ∧
    cl_node cl' v ∈ wakeups ∧ registration_applied boot cl' v entry loc ∧
    ∀ cl'' w, rtc (net_step members cfg) cl' cl'' → w ∈ members →
      (Z.to_nat (index - 1) < length (rn_applied (cl_node cl'' w)))%nat →
      registration_applied boot cl'' w entry loc.
Proof.
  intros Hc Hr Hv Hb Hd command Hparse n Hidx Hwake Hreg entry.
  unfold RegisterObject, ProposeAndWait in Hreg. cbn [rm_raft] in Hreg. fold command in Hreg.
  destruct (Propose command n) as [i n2] eqn:Ep. cbn [fst snd] in *. subst i. injection Hreg as Hw Hn'. clear Hn'.
  apply WaitApplied_Ok in Hw as (n1 & Hin & Hcheck). rewrite Forall_forall in Hwake.
  destruct (Hwake n1 Hin) as (cl' & Hsteps & ->). exists cl'. split; [done|]. split; [done|].
  assert (rn_applied (cl_node cl' v) !! Z.to_nat (index - 1) = Some entry) as Happ.
  { apply (acknowledged_applied members cfg now timeout cl cl' v command index); try done; fold n; by rewrite Ep. }
  split; [by eapply registration_applied_lookup|]. intros cl'' w Hmore Hw Hlen.
  assert (reachable members cfg now timeout cl') as Hr'.
  { eapply (rtc_trans (R:=net_step members cfg)); [eapply rtc_r; [exact Hr|]|exact Hsteps].
    replace n2 with (Propose command n).2 by by rewrite Ep. by apply ns_propose. }
  apply (registration_applied_lookup _ _ _ _ _ (Z.to_nat (index - 1))); [done..|].
  destruct (applied_comparable _ _ _ _ _ _ _ _ Hc Hr' Hmore Hv Hw) as [Hp|[more Hp]].
  - by eapply prefix_lookup_Some.
  - rewrite Hp, lookup_app_l in Happ; [done|]. lia.
Qed.
End cluster.
End repository.

(** ** A run of three replicas *)

Definition run_loc : ObjectLocation := mkObjectLocation (lit "k") 1 (lit "c0ffee") 5 false [lit "node-a"].

(** An encoding that knows one command. *)
Definition run_serialize (c : MetadataCommand) : bytes := lit "x".
Definition run_parse (c : MetadataCommand) (b : bytes) : option MetadataCommand :=
  if bool_decide (b = lit "x") then Some c else None.
Notation run_register := (CmdRegisterObject (ToProtoLocation run_loc)).
Definition run_boot : MetadataRepository := MetadataRepository_new 4.

Lemma metadata_replicas_agree_witness :
  let repo := repo_at (run_parse run_register) run_boot run_applied run_a in
  commands (run_parse run_register) (rn_applied (cl_node run_applied run_a)) = [run_register] ∧
  live (mr_objects repo) (lit "k") = object_after (lit "k") [run_register] None ∧
  object_after (lit "k") [run_register] None = Some run_loc.
Proof.
  assert (commands (run_parse run_register) (rn_applied (cl_node run_applied run_a)) = [run_register]) as E
    by (vm_compute; reflexivity).
  split; [exact E|]. split; [|vm_compute; reflexivity]. rewrite <-E.
  refine (proj1 (metadata_replicas_agree (run_parse run_register) run_members run_cfg (λ _, 0) (λ _, 10)
    run_applied run_applied run_boot run_a run_b run_cfg_ok run_applied_reachable _ run_member_a run_member_b _) (lit "k")).
  - reflexivity.
  - apply RepoInv_new.
Defined.

Definition run_wakeups : list RaftNode := [cl_node run_applied run_a].
Definition run_registration : Status * option RaftNode :=
  RegisterObject run_serialize run_loc (mkRaftMetadataRepository run_boot (Some (cl_node run_elected run_a)) ∅)
    (Some (cl_node run_elected run_a)) run_wakeups.

Lemma run_registration_ok :
  RegisterObject run_serialize run_loc (mkRaftMetadataRepository run_boot (Some (cl_node run_elected run_a)) ∅)
    (Some (cl_node run_elected run_a)) run_wakeups = (Ok, run_registration.2).
Proof. unfold run_registration. compute_pair. Qed.

Lemma acknowledged_registration_applied_witness :
  ∃ cl', cl_node cl' run_a ∈ run_wakeups ∧
    registration_applied (run_parse run_register) run_boot cl' run_a run_entry run_loc ∧
    ∀ cl'' w, rtc (net_step run_members run_cfg) cl' cl'' → w ∈ run_members →
      (0 < length (rn_applied (cl_node cl'' w)))%nat →
      registration_applied (run_parse run_register) run_boot cl'' w run_entry run_loc.
Proof.
  destruct (acknowledged_registration_applied run_serialize (run_parse run_register) run_members run_cfg
    (λ _, 0) (λ _, 10) run_elected run_boot ∅ run_a run_loc run_wakeups run_registration.2 1
    run_cfg_ok run_elected_reachable run_member_a) as (cl' & _ & Hin & Hnow & Hall).
  - vm_compute. reflexivity.
  - reflexivity.
  - reflexivity.
  - vm_compute. reflexivity.
  - constructor; [|constructor]. exists run_applied. split; [apply run_steps|reflexivity].
  - exact run_registration_ok.
  - exists cl'. split; [exact Hin|]. split; [exact Hnow|exact Hall].
Defined.

(** A removal returns success once its command is applied, whether or not there was
    an object: on a single node the same call returns [kNotFound]. *)
Lemma raft_remove_absent_ok :
  (RemoveObject run_serialize (lit "k") (mkRaftMetadataRepository run_boot (Some (cl_node run_elected run_a)) ∅)
     (Some (cl_node run_elected run_a)) run_wakeups).1 = Ok ∧
  (MetadataRepository.RemoveObject (lit "k") run_boot).1 = no_metadata (lit "k").
Proof. vm_compute. done. Qed.
