(* ===== verification/Text.v ===== *)
(** * Text

    The operations of the C++ library that the text-handling code under
    [src/network/] and [src/common/] uses: [std::string::find], [std::getline],
    extraction of a word from a stream, [std::stoul], [std::atoi], [std::tolower]
    (in the C locale), and the lemmas on them. *)

From stdpp Require Import base gmap list strings pretty numbers.
From Stdlib Require Import ZArith Lia.
From Stdlib Require Ascii.
From S2P Require Import Prelude.

Local Open Scope Z_scope.

(** ** Searching *)

(** [s.find(pat)]: the first position, [None] for [npos]. *)
Fixpoint find (pat s : bytes) : option nat :=
  if starts_with pat s then Some O
  else match s with
       | [] => None
       | _ :: s => S <$> find pat s
       end.

(** [s.find(pat, from)] *)
Definition find_from (pat s : bytes) (from : nat) : option nat := Nat.add from <$> find pat (drop from s).

Definition CR : byte := bZ 13.
Definition LF : byte := bZ 10.
Definition SP : byte := bZ 32.
Definition crlf : bytes := [CR; LF].
Definition quote : byte := bZ 34.
Definition backslash : byte := bZ 92.

(** ** Streams *)

(** [std::getline(ss, line, delim)]: the line and what is left. *)
Fixpoint getline (delim : byte) (s : bytes) : bytes * bytes :=
  match s with
  | [] => ([], [])
  | c :: s => if decide (c = delim) then ([], s) else let '(l, rest) := getline delim s in (c :: l, rest)
  end.

(** [while (std::getline(ss, line, delim))]: the lines it sees. *)
Fixpoint getlines (delim : byte) (s : bytes) : list bytes :=
  match s with
  | [] => []
  | c :: s =>
      if decide (c = delim) then [] :: getlines delim s
      else match getlines delim s with
           | [] => [[c]]
           | l :: ls => (c :: l) :: ls
           end
  end.

(** [std::isspace] in the C locale. *)
Definition is_space (c : byte) : bool := (Zb c =? 32) || ((9 <=? Zb c) && (Zb c <=? 13)).

Fixpoint skip_spaces (s : bytes) : bytes :=
  match s with
  | c :: s' => if is_space c then skip_spaces s' else s
  | [] => []
  end.

Fixpoint take_word (s : bytes) : bytes * bytes :=
  match s with
  | c :: s' => if is_space c then ([], s) else let '(w, rest) := take_word s' in (c :: w, rest)
  | [] => ([], [])
  end.

(** [ss >> word]; at the end of the stream the word stays empty. *)
Definition extract (s : bytes) : bytes * bytes := take_word (skip_spaces s).

(** ** Numbers *)

Definition is_digit (c : byte) : bool := (48 <=? Zb c) && (Zb c <=? 57).

Fixpoint digits (acc : Z) (s : bytes) : Z :=
  match s with
  | c :: s => if is_digit c then digits (acc * 10 + (Zb c - 48)) s else acc
  | [] => acc
  end.

(** A sign, if there is one. *)
Definition sign (s : bytes) : bool * bytes :=
  match s with
  | c :: s' => if Zb c =? 45 then (true, s') else if Zb c =? 43 then (false, s') else (false, s)
  | [] => (false, [])
  end.

Definition has_digit (s : bytes) : bool := match s with c :: _ => is_digit c | [] => false end.

(** [std::stoul(s)]; [None] when it throws. *)
Definition stoul (s : bytes) : option Z :=
  let '(neg, s) := sign (skip_spaces s) in
  if has_digit s then
    let v := digits 0 s in
    if v <? 2 ^ 64 then Some (if neg then u64 (- v) else v) else None
  else None.

(** [std::atoll(s.c_str())] and [std::atoi(s.c_str())].  The standard does not define
    them on a number out of range; the GNU C library saturates the first at 64 bits
    and cuts the second out of it. *)
Definition atoll (s : bytes) : Z :=
  let '(neg, s) := sign (skip_spaces s) in
  let v := digits 0 s in
  if neg then Z.max (- v) (- 2 ^ 63) else Z.min v (2 ^ 63 - 1).
Definition atoi (s : bytes) : Z := (atoll s + 2 ^ 31) mod 2 ^ 32 - 2 ^ 31.

(** [std::tolower] *)
Definition tolower (c : byte) : byte := if (65 <=? Zb c) && (Zb c <=? 90) then bZ (Zb c + 32) else c.

(** [while (!value.empty() && value.front() == ' ') value.erase(value.begin())] *)
Fixpoint strip_spaces (s : bytes) : bytes :=
  match s with
  | c :: s' => if decide (c = SP) then strip_spaces s' else s
  | [] => []
  end.

(** [if (!line.empty() && line.back() == '\r') line.pop_back()] *)
Definition pop_cr (s : bytes) : bytes :=
  match reverse s with
  | c :: r => if decide (c = CR) then reverse r else s
  | [] => s
  end.

(** ** Lemmas on searching *)

Lemma starts_with_true pat s : starts_with pat s = true ↔ pat `prefix_of` s.
Proof. apply bool_decide_eq_true. Qed.

Lemma starts_with_head p c pat s : p ≠ c → starts_with (p :: pat) (c :: s) = false.
Proof.
  intros Hne. apply bool_decide_eq_false. intros Hp. by apply prefix_cons_inv_1 in Hp.
Qed.

Lemma find_step pat c s : starts_with pat (c :: s) = false → find pat (c :: s) = S <$> find pat s.
Proof. intros E. cbn [find]. by rewrite E. Qed.

(** A stretch without the first byte of the pattern is skipped. *)
Lemma find_skip p pat l s : p ∉ l → find (p :: pat) (l ++ s) = Nat.add (length l) <$> find (p :: pat) s.
Proof.
  induction l as [|c l IH]; intros Hl; simpl app.
  { by destruct (find (p :: pat) s). }
  apply not_elem_of_cons in Hl as [Hc Hl]. cbn [find]. rewrite starts_with_head by done. rewrite IH by done.
  by destruct (find (p :: pat) s).
Qed.

Lemma find_here pat s : find pat (pat ++ s) = Some O.
Proof.
  assert (starts_with pat (pat ++ s) = true) as E by (apply starts_with_true; by exists s).
  destruct (pat ++ s); cbn [find]; by rewrite E.
Qed.

Lemma find_at p pat l s : p ∉ l → find (p :: pat) (l ++ (p :: pat) ++ s) = Some (length l).
Proof. intros Hl. rewrite find_skip by done. rewrite find_here. simpl. by rewrite Nat.add_0_r. Qed.

Lemma find_absent p pat l : p ∉ l → find (p :: pat) l = None.
Proof. intros Hl. rewrite <-(app_nil_r l), find_skip by done. done. Qed.

Lemma find_Some pat s i :
  find pat s = Some i ↔ pat `prefix_of` drop i s ∧ ∀ j, (j < i)%nat → ¬ pat `prefix_of` drop j s.
Proof.
  revert i. induction s as [|c s IH]; intros i; cbn [find]; unfold starts_with; case_bool_decide as E.
  - split; [intros [= <-]; split; [done|lia]|]. intros [_ Hj]. destruct i; [done|]. by destruct (Hj O ltac:(lia)).
  - split; [done|]. rewrite drop_nil. by intros [? _].
  - split; [intros [= <-]; split; [done|lia]|]. intros [_ Hj]. destruct i; [done|]. by destruct (Hj O ltac:(lia)).
  - rewrite fmap_Some. setoid_rewrite IH. split.
    + intros (j & [Hp Hj] & ->). split; [done|]. intros [|k] Hk; [done|]. apply Hj. lia.
    + intros [Hp Hj]. destruct i as [|i]; [done|]. exists i. split; [|done]. split; [done|].
      intros j Hlt. apply (Hj (S j)). lia.
Qed.

(** A pattern that is found is found at the same place in every continuation. *)
Lemma find_mono pat s t i : find pat s = Some i → find pat (s ++ t) = Some i.
Proof.
  rewrite !find_Some. intros [Hp Hj].
  assert (length pat + i ≤ length s ∨ pat = [])%nat as [Hlen| ->].
  { apply prefix_length in Hp. rewrite length_drop in Hp. destruct pat; [by right|]. left. simpl in *. lia. }
  - split; [rewrite drop_app_le by lia; by apply prefix_app_r|].
    intros j Hlt Hp'. apply (Hj j Hlt). rewrite drop_app_le in Hp' by lia.
    apply (prefix_weak_total pat (drop j s)) in Hp' as [?|Hd]; [done| |by apply prefix_app_r].
    apply prefix_length in Hd as Hl. rewrite length_drop in Hl.
    assert (length (drop j s) = length pat) as El by (rewrite length_drop; lia). 
    apply prefix_length_eq in Hd; [by rewrite Hd|lia].
  - destruct i; [|by destruct (Hj O ltac:(lia)); apply prefix_nil]. split; [apply prefix_nil|lia].
Qed.

(** ** Lemmas on streams *)

Lemma getline_app d l s : d ∉ l → getline d (l ++ d :: s) = (l, s).
Proof.
  induction l as [|c l IH]; intros Hl; simpl.
  - by rewrite decide_True.
  - apply not_elem_of_cons in Hl as [Hc Hl]. rewrite decide_False by done. by rewrite IH.
Qed.

Lemma getline_last d l : d ∉ l → getline d l = (l, []).
Proof.
  induction l as [|c l IH]; intros Hl; simpl; [done|].
  apply not_elem_of_cons in Hl as [Hc Hl]. rewrite decide_False by done. by rewrite IH.
Qed.

(** [getlines] is the loop over [getline]. *)
Lemma getlines_getline d s :
  getlines d s = match s with [] => [] | _ => let '(l, rest) := getline d s in l :: getlines d rest end.
Proof.
  induction s as [|c s IH]; [done|]. cbn [getlines getline]. destruct (decide (c = d)); [done|].
  rewrite IH. destruct s as [|c' s]; [done|]. by destruct (getline d (c' :: s)).
Qed.

Lemma getlines_app d l s : d ∉ l → getlines d (l ++ d :: s) = l :: getlines d s.
Proof. intros Hl. rewrite getlines_getline, getline_app by done. by destruct l. Qed.

Lemma getlines_last d l : d ∉ l → l ≠ [] → getlines d l = [l].
Proof. intros Hl Hne. rewrite getlines_getline, getline_last by done. by destruct l. Qed.

Definition no_space (s : bytes) : Prop := Forall (λ c, is_space c = false) s.

Lemma take_word_app w c s : no_space w → is_space c = true → take_word (w ++ c :: s) = (w, c :: s).
Proof.
  intros Hw Hc. induction Hw as [|d w Hd _ IH]; simpl; [by rewrite Hc|]. by rewrite Hd, IH.
Qed.

Lemma extract_word w c s : no_space w → w ≠ [] → is_space c = true → extract (w ++ c :: s) = (w, c :: s).
Proof.
  intros Hw Hne Hc. unfold extract. destruct Hw as [|d w Hd Hw]; [done|]. simpl skip_spaces. rewrite Hd.
  apply (take_word_app (d :: w)); [by constructor|done].
Qed.

Lemma extract_space s : extract (SP :: s) = extract s.
Proof. done. Qed.

Lemma pop_cr_app l : pop_cr (l ++ [CR]) = l.
Proof. unfold pop_cr. rewrite reverse_app. simpl. apply reverse_involutive. Qed.

Lemma pop_cr_id l : CR ∉ l → pop_cr l = l.
Proof.
  intros Hl. unfold pop_cr. destruct (reverse l) as [|c r] eqn:E; [done|]. rewrite decide_False; [done|].
  intros ->. apply Hl. apply elem_of_reverse. rewrite E. by left.
Qed.

Lemma strip_spaces_id s : head s ≠ Some SP → strip_spaces s = s.
Proof. destruct s as [|c s]; [done|]. simpl. intros Hc. rewrite decide_False; [done|]. by intros ->. Qed.

(** ** Decimal numerals *)

Definition all_digits (s : bytes) : Prop := Forall (λ c, is_digit c = true) s.

Lemma digits_app acc s t : all_digits s → digits acc (s ++ t) = digits (digits acc s) t.
Proof.
  intros Hs. revert acc. induction Hs as [|c s Hc _ IH]; intros acc; [done|]. cbn [digits app]. rewrite Hc. apply IH.
Qed.

Lemma lit_cons a s : lit (String a s) = Ascii.byte_of_ascii a :: lit s.
Proof. done. Qed.

Lemma pretty_char_digit x :
  (x < 10)%N → is_digit (Ascii.byte_of_ascii (pretty_N_char x)) = true ∧ Zb (Ascii.byte_of_ascii (pretty_N_char x)) - 48 = Z.of_N x.
Proof.
  intros Hx. assert (x = 0 ∨ x = 1 ∨ x = 2 ∨ x = 3 ∨ x = 4 ∨ x = 5 ∨ x = 6 ∨ x = 7 ∨ x = 8 ∨ x = 9)%N as Hcases by lia.
  repeat destruct Hcases as [-> | Hcases]; [done..|]. by subst.
Qed.

Lemma pretty_go_digits x s :
  ∃ ds, lit (pretty_N_go x s) = ds ++ lit s ∧ all_digits ds ∧ digits 0 ds = Z.of_N x.
Proof.
  revert s. induction (N.lt_wf_0 x) as [x _ IH]; intros s.
  destruct (decide (x = 0)%N) as [-> | Hx].
  { rewrite pretty_N_go_0. exists []. split; [done|]. split; [constructor|done]. }
  rewrite pretty_N_go_step by lia.
  destruct (IH (x / 10)%N ltac:(by apply N.div_lt; lia) (String (pretty_N_char (x mod 10)) s)) as (ds & E & Hd & Hv).
  assert (x mod 10 < 10)%N as Hm by (by apply N.mod_lt). destruct (pretty_char_digit _ Hm) as [Hc Hcv].
  exists (ds ++ [Ascii.byte_of_ascii (pretty_N_char (x mod 10))]). split; [|split].
  - by rewrite E, lit_cons, <-app_assoc.
  - apply Forall_app. split; [done|]. by constructor.
  - rewrite digits_app, Hv by done. cbn [digits]. rewrite Hc, Hcv. pose proof (N.div_mod x 10 ltac:(done)). lia.
Qed.

(** [std::to_string] of an unsigned number writes digits that read back as it. *)
Lemma to_string_digits z :
  0 ≤ z → all_digits (to_string z) ∧ to_string z ≠ [] ∧ digits 0 (to_string z) = z.
Proof.
  intros Hz. unfold to_string. replace (pretty z) with (pretty (Z.to_N z)).
  2: { unfold pretty, pretty_Z. destruct z; [done..|lia]. }
  unfold pretty, pretty_N. case_decide as E.
  - assert (z = 0) as -> by lia. split; [by repeat constructor|]. done.
  - destruct (pretty_go_digits (Z.to_N z) "") as (ds & -> & Hd & Hv).
    change (lit "") with (@nil byte). rewrite app_nil_r, Hv. split; [done|]. split; [|lia].
    intros ->. simpl in Hv. lia.
Qed.

Lemma digit_not_space c : is_digit c = true → is_space c = false.
Proof. unfold is_digit, is_space. intros E. prop_bool. apply orb_false_iff. rewrite andb_false_iff, Z.eqb_neq, !Z.leb_gt. lia. Qed.

(** A numeral has no sign and no leading space. *)
Lemma sign_digits s : all_digits s → s ≠ [] → sign (skip_spaces s) = (false, s) ∧ has_digit s = true.
Proof.
  intros Hs Hne. destruct Hs as [|c s Hc _]; [done|]. cbn [skip_spaces has_digit]. rewrite digit_not_space by done.
  unfold is_digit in Hc. unfold sign. prop_bool.
  replace (Zb c =? 45) with false by lia. replace (Zb c =? 43) with false by lia. split; [done|].
  unfold is_digit. lia.
Qed.

Lemma stoul_to_string z : is_u64 z → stoul (to_string z) = Some z.
Proof.
  intros Hz. destruct (to_string_digits z) as (Hd & Hne & Hv); [unfold is_u64 in Hz; lia|].
  unfold stoul. destruct (sign_digits _ Hd Hne) as [-> ->]. rewrite Hv. unfold is_u64 in Hz.
  by replace (z <? 2 ^ 64) with true by lia.
Qed.

Lemma atoi_to_string z : 0 ≤ z < 2 ^ 31 → atoi (to_string z) = z.
Proof.
  intros Hz. destruct (to_string_digits z ltac:(lia)) as (Hd & Hne & Hv). unfold atoi, atoll.
  destruct (sign_digits _ Hd Hne) as [-> _]. rewrite Hv, Z.min_l by lia. rewrite Z.mod_small; lia.
Qed.
