(* ===== verification/StoreThreads.v ===== *)
(** * Concurrent calls of the object store

    [LocalObjectStore] is called from the threads of a pool.  Each call runs
    under the [std::shared_mutex] of its key's shard: exclusively for the writes
    and deletes, shared for [Get] and [Head]; the write-ahead log has a mutex of
    its own, SQLite serialises the statements of the one connection, and the
    counters are atomic.  This file cuts the operations of LocalObjectStore.v
    into the steps between which another thread can run, proves that running the
    steps without interruption is the operation, and models the lock table and
    the threads that call the store. *)

From stdpp Require Import base gmap list.
From Stdlib Require Import ZArith Lia.
From S2P Require Import Prelude Status Wire Framing Posix Wal Sha256 MetadataStore LocalObjectStore.

Local Open Scope Z_scope.

(** ** Programs: sequences of atomic steps *)

Section programs.
Context {DB : Type}.

(** A step of a thread: it runs without interruption on the store's fields, the
    files and the database. *)
Definition Action (B : Type) : Type := LocalObjectStore → IO DB (B * LocalObjectStore).

Inductive prog (A : Type) : Type :=
  | Done (x : A)
  | Act (B : Type) (m : Action B) (k : B → prog A).
Arguments Done {A}.
Arguments Act {A B}.

Fixpoint pbind {A B} (p : prog A) (k : A → prog B) : prog B :=
  match p with
  | Done x => k x
  | Act m k' => Act m (λ y, pbind (k' y) k)
  end.

(** The steps one after the other, with no other thread in between. *)
Fixpoint run {A} (p : prog A) : Action A :=
  match p with
  | Done x => λ st, ret (x, st)
  | Act m k => λ st, let! '(y, st) := m st in run (k y) st
  end.

(** A call that does not touch the fields of the store. *)
Definition call {B} (m : IO DB B) : Action B := λ st, let! x := m in ret (x, st).
End programs.

Arguments Action : clear implicits.
Arguments prog : clear implicits.
Arguments Done {DB A}.
Arguments Act {DB A B}.

Notation "'do!' x ':=' m 'in' k" := (Act m (λ x, k))
  (at level 10, x name, m at level 100, k at level 200) : dos_scope.
Notation "'run!' x ':=' p 'in' k" := (pbind p (λ x, k))
  (at level 10, x name, p at level 100, k at level 200) : dos_scope.

(** ** The steps of the operations *)

Section steps.
Context {DB : Type} `{!Sqlite DB}.
Variable getpid : Z.

Definition FsyncDir_steps (dir : path) : prog DB Status :=
  do! e := call (sys_open_dir dir) in
  match e with
  | Some err => Done (IoError (lit "open dir for fsync: " ++ err))
  | None =>
      do! rc := call sys_fsync in
      do! _ := call sys_close in
      match rc with
      | Some err => Done (IoError (lit "fsync dir: " ++ err))
      | None => Done Ok
      end
  end.

(** The loop of [write] calls on the staging file is one step: the file is the
    thread's own. *)
Definition WriteStaged_steps (tmp final_path : path) (data : bytes) : prog DB Status :=
  let fail text err := do! _ := call (sys_unlink tmp) in Done (IoError (text ++ err)) in
  do! e := call (sys_open_trunc tmp) in
  match e with
  | Some err => Done (IoError (lit "open temp file: " ++ err))
  | None =>
      do! e := call (write_all tmp data) in
      match e with
      | Some err => do! _ := call sys_close in fail (lit "write temp file: ") err
      | None =>
          do! e := call sys_fsync in
          match e with
          | Some err => do! _ := call sys_close in fail (lit "fsync temp file: ") err
          | None =>
              do! e := call sys_close in
              match e with
              | Some err => fail (lit "close temp file: ") err
              | None =>
                  do! e := call (sys_rename tmp final_path) in
                  match e with
                  | Some err => fail (lit "rename temp file: ") err
                  | None => FsyncDir_steps (removelast final_path)
                  end
              end
          end
      end
  end.

(** [UniqueTmpPath] takes its number from an atomic counter, in one step. *)
Definition WriteFileAtomic_steps (root final_path : path) (data : bytes) : prog DB Status :=
  do! ec := call (create_directories (removelast final_path)) in
  match ec with
  | Some msg => Done (IoError (lit "create object dir: " ++ msg))
  | None =>
      do! tmp := (λ st, UniqueTmpPath getpid st (TmpDir root)) in
      WriteStaged_steps tmp final_path data
  end.

(** [wal_->NextSeq()] *)
Definition NextSeq_step : Action DB Z := λ st,
  let '(seq, wal) := NextSeq (los_wal st) in
  ret (seq, mkLocalObjectStore (los_root st) wal (los_counter st)).

(** [wal_->AppendRecord(...)], under the mutex of the log *)
Definition Append_step (rec : WalRecord) : Action DB Status := λ st,
  let! s := AppendRecord (los_wal st) rec in ret (s, st).

Definition DoPut_commit_steps (root : path) (key data : bytes) (version : Z) (request_id : bytes)
    : prog DB (StatusOr ObjectMetadata) :=
  do! now := call sys_time in
  let meta := mkObjectMetadata key (Zlen data) (Sha256Hex data) version now false request_id in
  do! seq := NextSeq_step in
  do! wb := Append_step (mkWalRecord seq false kPut key version (om_checksum meta) (om_size meta)) in
  if negb (st_ok wb) then Done (FromStatus wb) else
  run! w := WriteFileAtomic_steps root (ObjectPath root key) data in
  if negb (st_ok w) then Done (FromStatus w) else
  do! c := call (on_db (ms_Put meta)) in
  if negb (st_ok c) then Done (FromStatus c) else
  do! _ := Append_step (mkWalRecord seq true kPut [] 0 [] 0) in
  Done (FromValue meta).

Definition DoPut_steps (root : path) (key data : bytes) (explicit_version : Z) (conditional : bool)
    (expected_version : Z) (request_id : bytes) : prog DB (StatusOr ObjectMetadata) :=
  let go current_version :=
    match DoPut_version key current_version explicit_version conditional expected_version with
    | inl s => Done (FromStatus s)
    | inr version => DoPut_commit_steps root key data version request_id
    end in
  do! peek := call (on_db (ms_Peek key)) in
  match peek with
  | FromValue m =>
      if bool_decide (request_id ≠ []) && bool_decide (om_request_id m = request_id)
      then Done (FromValue m)
      else go (om_version m)
  | FromStatus s =>
      if bool_decide (st_code s = kNotFound) then go 0 else Done (FromStatus s)
  end.

Definition Get_steps (root : path) (key : bytes) : prog DB (StatusOr bytes) :=
  do! meta := call (on_db (ms_Get key)) in
  match meta with
  | FromStatus s => Done (FromStatus s)
  | FromValue m =>
      do! data := call (ReadWholeFile (ObjectPath root key)) in
      match data with
      | FromStatus s => Done (FromStatus s)
      | FromValue d =>
          if bool_decide (Sha256Hex d ≠ om_checksum m)
          then Done (FromStatus (ChecksumMismatch (lit "checksum mismatch for key: " ++ key)))
          else Done (FromValue d)
      end
  end.

Definition Head_steps (key : bytes) : prog DB (StatusOr ObjectMetadata) :=
  do! r := call (on_db (ms_Get key)) in Done r.

(** [SqliteMetadataStore::Delete] runs the statement and then asks the
    connection for the number of rows changed: two steps. *)
Definition DeleteRow_step (key : bytes) (db : DB) : option Status * DB :=
  let '(s, db) := Prepare sql_delete db in
  if negb (st_ok s) then (Some s, db) else
  let '(r, db) := sqlite3_run sql_delete [BindText key] db in
  match sr_rows r, sr_error r with
  | [], None => (None, db)
  | _, e => (Some (IoError (lit "delete failed: " ++ default [] e)), db)
  end.

Definition Changes_step (key : bytes) : IO DB Status := λ w,
  (Some (if sqlite3_changes (w_db w) =? 0 then NotFound (lit "no such key: " ++ key) else Ok), w).

Definition ms_Delete_steps (key : bytes) : prog DB Status :=
  do! r := call (on_db (DeleteRow_step key)) in
  match r with
  | Some s => Done s
  | None => do! s := call (Changes_step key) in Done s
  end.

Definition Delete_steps (key : bytes) : prog DB Status :=
  do! seq := NextSeq_step in
  do! wb := Append_step (mkWalRecord seq false kDelete key 0 [] 0) in
  if negb (st_ok wb) then Done wb else
  run! s := ms_Delete_steps key in
  if negb (st_ok s) then Done s else
  do! _ := Append_step (mkWalRecord seq true kPut [] 0 [] 0) in
  Done s.
End steps.

(** ** The steps are the operations *)

Section sequential.
Context {DB : Type}.

Lemma run_bind {A B} (p : prog DB A) (k : A → prog DB B) st w :
  run (pbind p k) st w = bind (run p st) (λ x, match x with (y, st') => run (k y) st' end) w.
Proof.
  revert st w. induction p as [x|C m k' IH]; intros st w; [done|].
  cbn [pbind run]. unfold bind. destruct (m st w) as [[[y st']|] w']; [|done]. apply IH.
Qed.

Lemma run_call {B C} (m : IO DB B) (k : B → prog DB C) st w :
  run (Act (call m) k) st w = bind m (λ x, run (k x) st) w.
Proof. cbn [run]. unfold call, bind, ret. by destruct (m w) as [[y|] w']. Qed.

Lemma bind_ext {A B} (m : IO DB A) (k k' : A → IO DB B) w :
  (∀ x w', k x w' = k' x w') → bind m k w = bind m k' w.
Proof. intros E. unfold bind. destruct (m w) as [[x|] w']; [apply E|done]. Qed.

Lemma bind_cong {A B} (m m' : IO DB A) (k k' : A → IO DB B) w :
  m w = m' w → (∀ x w', k x w' = k' x w') → bind m k w = bind m' k' w.
Proof. intros Em E. unfold bind. rewrite Em. by destruct (m' w) as [[x|] w']. Qed.

Lemma bind_assoc {A B C} (m : IO DB A) (k : A → IO DB B) (k' : B → IO DB C) w :
  bind (bind m k) k' w = bind m (λ x, bind (k x) k') w.
Proof. unfold bind. by destruct (m w) as [[x|] w']. Qed.

Lemma bind_ret {A B} (x : A) (k : A → IO DB B) w : bind (ret x) k w = k x w.
Proof. done. Qed.
End sequential.

(** Both sides make the same call next. *)
Ltac same_call :=
  rewrite ?run_call, ?bind_assoc; apply bind_ext; intros ? ?; rewrite ?bind_ret.

Section equivalence.
Context {DB : Type} `{!Sqlite DB}.
Variable getpid : Z.
Implicit Types (st : LocalObjectStore) (w : World DB).

Lemma run_FsyncDir dir st w :
  run (FsyncDir_steps dir) st w = bind (FsyncDir dir) (λ s, ret (s, st)) w.
Proof.
  unfold FsyncDir_steps, FsyncDir. same_call. case_match; [done|].
  do 2 same_call. by case_match.
Qed.

Lemma run_WriteStaged tmp final data st w :
  run (WriteStaged_steps tmp final data) st w = bind (WriteStaged tmp final data) (λ s, ret (s, st)) w.
Proof.
  unfold WriteStaged_steps, WriteStaged. same_call. case_match; [done|].
  same_call. case_match; [by do 2 same_call|]. same_call. case_match; [by do 2 same_call|].
  same_call. case_match; [by same_call|]. same_call. case_match; [by same_call|].
  apply run_FsyncDir.
Qed.

Lemma run_WriteFileAtomic final data st w :
  run (WriteFileAtomic_steps getpid (los_root st) final data) st w =
  WriteFileAtomic getpid st (TmpDir (los_root st)) final data w.
Proof.
  unfold WriteFileAtomic_steps, WriteFileAtomic. same_call. case_match; [done|]. cbn [run].
  apply bind_ext. intros [tmp st'] w2. apply run_WriteStaged.
Qed.

Lemma run_Append {C} rec (k : Status → prog DB C) st w :
  run (Act (Append_step rec) k) st w = bind (AppendRecord (los_wal st) rec) (λ s, run (k s) st) w.
Proof. apply (run_call (AppendRecord (los_wal st) rec)). Qed.

Lemma run_NextSeq {C} (k : Z → prog DB C) st w :
  run (Act NextSeq_step k) st w =
  (let '(seq, wal) := NextSeq (los_wal st) in
   run (k seq) (mkLocalObjectStore (los_root st) wal (los_counter st)) w).
Proof. done. Qed.

Lemma run_DoPut_commit key data version request_id st w :
  run (DoPut_commit_steps getpid (los_root st) key data version request_id) st w =
  DoPut_commit getpid st key data version request_id w.
Proof.
  unfold DoPut_commit_steps, DoPut_commit. same_call. rewrite run_NextSeq.
  destruct (NextSeq (los_wal st)) as [seq wal].
  rewrite run_Append. apply bind_ext. intros wb w1. case_match; [done|].
  rewrite run_bind. apply bind_cong.
  { apply (run_WriteFileAtomic _ _ (mkLocalObjectStore (los_root st) wal (los_counter st))). }
  intros [s st'] w2. case_match; [done|].
  same_call. case_match; [done|]. rewrite run_Append. by apply bind_ext.
Qed.

(** Cutting the write path into steps changes nothing when no other thread
    runs in between: the steps of [DoPut], one after the other, are [DoPut], for
    every state, script of failures and clock. *)
Theorem steps_are_put key data explicit conditional expected request_id st w :
  run (DoPut_steps getpid (los_root st) key data explicit conditional expected request_id) st w =
  DoPut getpid st key data explicit conditional expected request_id w.
Proof.
  unfold DoPut_steps, DoPut. same_call.
  repeat case_match; try done; apply run_DoPut_commit.
Qed.

Lemma run_Get key st w :
  run (Get_steps (los_root st) key) st w = bind (Get st key) (λ r, ret (r, st)) w.
Proof.
  unfold Get_steps, Get. same_call. case_match; [done|]. same_call. case_match; [done|].
  by case_match.
Qed.

Lemma run_Head key st w : run (Head_steps key) st w = bind (Head st key) (λ r, ret (r, st)) w.
Proof. by unfold Head_steps, Head; same_call. Qed.

Lemma run_ms_Delete key st w :
  run (ms_Delete_steps key) st w = bind (on_db (ms_Delete key)) (λ s, ret (s, st)) w.
Proof.
  unfold ms_Delete_steps. rewrite run_call. unfold on_db, bind, ret.
  destruct (next_outcome w) as [o w1]. cbn [ms_Delete SqliteMetadataStore].
  unfold DeleteRow_step, MetadataStore.Delete, Changes_step.
  destruct (Prepare sql_delete (w_db w1)) as [s db1]. destruct (st_ok s); cbn [negb]; [|by destruct o].
  destruct (sqlite3_run sql_delete [BindText key] db1) as [r db2].
  destruct (sr_rows r), (sr_error r); destruct o; try done; cbn; by case_match.
Qed.

Lemma run_Delete key st w : run (Delete_steps key) st w = LocalObjectStore.Delete st key w.
Proof.
  unfold Delete_steps, LocalObjectStore.Delete. rewrite run_NextSeq.
  destruct (NextSeq (los_wal st)) as [seq wal].
  rewrite run_Append. apply bind_ext. intros wb w1. case_match; [done|].
  rewrite run_bind. etransitivity.
  { apply bind_cong; [apply run_ms_Delete|]. by intros x w2. }
  rewrite bind_assoc. apply bind_ext. intros s w2. rewrite bind_ret. case_match; [done|].
  apply (run_Append (mkWalRecord seq true kPut [] 0 [] 0) (λ _, Done s)).
Qed.
End equivalence.

(** ** The lock table *)

(** [std::shared_mutex]: the thread that holds it exclusively, and those that
    share it. *)
Record SharedMutex := mkSharedMutex { sm_writer : option nat; sm_readers : gset nat }.

Definition SharedMutex_new : SharedMutex := mkSharedMutex None ∅.

Inductive Mode := Exclusive | Shared.

#[global] Instance Mode_eq_dec : EqDecision Mode.
Proof. solve_decision. Defined.

(** The constructor of [std::unique_lock] or [std::shared_lock]: [None] while the
    thread has to wait. *)
Definition lock (mode : Mode) (tid : nat) (m : SharedMutex) : option SharedMutex :=
  match mode, sm_writer m with
  | _, Some _ => None
  | Exclusive, None =>
      if bool_decide (sm_readers m = ∅) then Some (mkSharedMutex (Some tid) ∅) else None
  | Shared, None => Some (mkSharedMutex None ({[tid]} ∪ sm_readers m))
  end.

(** Its destructor. *)
Definition unlock (mode : Mode) (tid : nat) (m : SharedMutex) : SharedMutex :=
  match mode with
  | Exclusive => mkSharedMutex None (sm_readers m)
  | Shared => mkSharedMutex (sm_writer m) (sm_readers m ∖ {[tid]})
  end.

Definition kNumShards : nat := 64.

(** ** Calls of the store by threads *)

(** The operations on one key, with their arguments. *)
Inductive Request :=
  | RPut (key data : bytes)
  | RPutWithVersion (key data : bytes) (version : Z)
  | RPutConditional (key data : bytes) (expected_version : Z) (request_id : bytes)
  | RGet (key : bytes)
  | RHead (key : bytes)
  | RDelete (key : bytes).

Inductive Reply :=
  | AMeta (r : StatusOr ObjectMetadata)
  | ABytes (r : StatusOr bytes)
  | AStatus (s : Status).

Definition req_key (req : Request) : bytes :=
  match req with
  | RPut key _ | RPutWithVersion key _ _ | RPutConditional key _ _ _
  | RGet key | RHead key | RDelete key => key
  end.

Definition req_mode (req : Request) : Mode :=
  match req with RGet _ | RHead _ => Shared | _ => Exclusive end.

(** What is answered before any lock is taken. *)
Definition refused (req : Request) : option Reply :=
  let empty_key := Some (AMeta (FromStatus (InvalidArgument (lit "empty key")))) in
  match req with
  | RPut key _ | RPutConditional key _ _ _ => if bool_decide (key = []) then empty_key else None
  | RPutWithVersion key _ version =>
      if bool_decide (key = []) then empty_key
      else if version =? 0 then
        Some (AMeta (FromStatus (InvalidArgument (lit "explicit version must be non-zero"))))
      else None
  | _ => None
  end.

Section threads.
Context {DB : Type} `{!Sqlite DB}.
Variable getpid : Z.
Variable root : path.

(** [std::hash<std::string_view>] *)
Variable hash : bytes → Z.

Definition ShardFor (key : bytes) : nat := Z.to_nat (hash key mod Z.of_nat kNumShards).

(** The body of the operation, under its lock. *)
Definition req_steps (req : Request) : prog DB Reply :=
  match req with
  | RPut key data => run! r := DoPut_steps getpid root key data 0 false 0 [] in Done (AMeta r)
  | RPutWithVersion key data version =>
      run! r := DoPut_steps getpid root key data version false 0 [] in Done (AMeta r)
  | RPutConditional key data expected request_id =>
      run! r := DoPut_steps getpid root key data 0 true expected request_id in Done (AMeta r)
  | RGet key => run! r := Get_steps root key in Done (ABytes r)
  | RHead key => run! r := Head_steps key in Done (AMeta r)
  | RDelete key => run! s := Delete_steps key in Done (AStatus s)
  end.

Inductive Thread :=
  | Called (req : Request)                     (** before the lock *)
  | Inside (req : Request) (p : prog DB Reply) (** holding it, with [p] left to do *)
  | Returned (req : Request) (r : Reply).

Record Config := mkConfig {
  c_threads : list Thread;
  c_shards : list SharedMutex;
  c_store : LocalObjectStore;
  c_world : World DB;
}.

Inductive Turn :=
  | Blocked                                          (** the thread cannot run *)
  | Stepped (c : Config) (h : list (Request * Reply)) (** with the calls that returned *)
  | Crashed (w : World DB).                          (** the process died *)

Definition set_thread (i : nat) (t : Thread) (c : Config) : Config :=
  mkConfig (<[i := t]> (c_threads c)) (c_shards c) (c_store c) (c_world c).

Definition set_shard (s : nat) (m : SharedMutex) (c : Config) : Config :=
  mkConfig (c_threads c) (<[s := m]> (c_shards c)) (c_store c) (c_world c).

(** One step of thread [i]. *)
Definition turn (i : nat) (c : Config) : Turn :=
  match c_threads c !! i with
  | Some (Called req) =>
      match refused req with
      | Some r => Stepped (set_thread i (Returned req r) c) [(req, r)]
      | None =>
          match c_shards c !! ShardFor (req_key req) ≫= lock (req_mode req) i with
          | Some m =>
              Stepped (set_thread i (Inside req (req_steps req)) (set_shard (ShardFor (req_key req)) m c)) []
          | None => Blocked
          end
      end
  | Some (Inside req (Done r)) =>
      let s := ShardFor (req_key req) in
      let m := unlock (req_mode req) i (default SharedMutex_new (c_shards c !! s)) in
      Stepped (set_thread i (Returned req r) (set_shard s m c)) [(req, r)]
  | Some (Inside req (Act m k)) =>
      match m (c_store c) (c_world c) with
      | (Some (y, st), w) =>
          Stepped (mkConfig (<[i := Inside req (k y)]> (c_threads c)) (c_shards c) st w) []
      | (None, w) => Crashed w
      end
  | Some (Returned _ _) | None => Blocked
  end.

(** A run: the threads take turns in the order of a schedule; the history lists
    the calls that returned, in the order they did. *)
Inductive runs (c : Config) : list nat → list (Request * Reply) → Config → Prop :=
  | runs_start : runs c [] [] c
  | runs_turn s h c1 i c2 h' :
      runs c s h c1 → turn i c1 = Stepped c2 h' → runs c (s ++ [i]) (h ++ h') c2.

(** The threads of the pool each call the store once. *)
Definition Config_new (reqs : list Request) (st : LocalObjectStore) (w : World DB) : Config :=
  mkConfig (Called <$> reqs) (replicate kNumShards SharedMutex_new) st w.

(** A schedule run as far as it goes: turns of a thread that has to wait are
    skipped, and a crash ends it. *)
Fixpoint execute (s : list nat) (c : Config) : (Config + World DB) * list (Request * Reply) :=
  match s with
  | [] => (inl c, [])
  | i :: s =>
      match turn i c with
      | Blocked => execute s c
      | Stepped c' h => let '(r, h') := execute s c' in (r, h ++ h')
      | Crashed w => (inr w, [])
      end
  end.

Lemma ShardFor_bound key : (ShardFor key < kNumShards)%nat.
Proof. unfold ShardFor, kNumShards. pose proof (Z.mod_pos_bound (hash key) 64). lia. Qed.
End threads.
