(* ===== verification/StoreView.v ===== *)
(** * Calls of the object store seen by one thread

    A logic for the steps of a call while other threads run in between: [pwp]
    says what a call does from its own view of the store (its key's row and
    payload, and its own staging file) whatever the others do elsewhere, and what
    it leaves alone.  The operations of StoreThreads.v are proved in it against
    their sequential specification, [req_spec]; StoreLinear.v puts the threads
    together. *)

From stdpp Require Import base gmap list.
From Stdlib Require Import ZArith Lia.
From S2P Require Import Prelude Status Wire Framing Posix IoLogic Wal Sha256 MetadataStore.
From S2P Require Import Text LocalObjectStore StoreRecovery StoreProps StoreThreads.

Local Open Scope Z_scope.

(** ** Staging names *)

Definition tmp_name (getpid t n : Z) : bytes :=
  lit ".put-" ++ to_string getpid ++ lit "-" ++ to_string t ++ lit "-" ++ to_string n ++ lit ".tmp".

Lemma last_separator {A} (sep : A) (a b x y : list A) :
  sep ∉ x → sep ∉ y → a ++ sep :: x = b ++ sep :: y → x = y.
Proof.
  revert b. induction a as [|c a IH]; intros [|d b] Hx Hy; simpl; intros E.
  - by injection E.
  - injection E as <- ->. exfalso. apply Hx. set_solver.
  - injection E as -> <-. exfalso. apply Hy. set_solver.
  - injection E as _ E. by apply (IH b).
Qed.

(** The number is the last part of the name, and determines it. *)
Lemma tmp_name_inj pid t1 t2 n1 n2 :
  0 <= n1 → 0 <= n2 → tmp_name pid t1 n1 = tmp_name pid t2 n2 → n1 = n2.
Proof.
  intros H1 H2. set (dash := bZ 45).
  assert (∀ n, 0 <= n → dash ∉ to_string n ++ lit ".tmp") as Hd.
  { intros n Hn. apply not_elem_of_app. split; [|by vm_compute; set_solver].
    destruct (to_string_digits n Hn) as (Ha & _). intros Hin.
    by eapply list.Forall_forall in Hin; [|exact Ha]. }
  assert (∀ t n, tmp_name pid t n = (lit ".put-" ++ to_string pid ++ lit "-" ++ to_string t) ++
    dash :: (to_string n ++ lit ".tmp")) as Es by (intros; unfold tmp_name; by rewrite <-!app_assoc).
  rewrite !Es. intros E%last_separator; [|auto..]. apply app_inv_tail in E.
  destruct (to_string_digits n1 H1) as (_ & _ & <-), (to_string_digits n2 H2) as (_ & _ & <-). by rewrite E.
Qed.

(** ** What a thread has done *)

(** Its records in the log: none, the one of its intent, or both. *)
Inductive LogPhase := LIdle | LBegun (b : WalRecord) | LClosed.

(** The number of its staging file, its sequence number, its records. *)
Record ghost := mkGhost { g_tmp : option Z; g_seq : option Z; g_log : LogPhase }.

Definition ghost_new : ghost := mkGhost None None LIdle.

(** Appending the record [b] takes the thread from [g] to [g']. *)
Inductive appends (g : ghost) : WalRecord → ghost → Prop :=
  | appends_begin b :
      g_log g = LIdle → g_seq g = Some (wr_seq b) → wr_is_commit b = false →
      appends g b (mkGhost (g_tmp g) (g_seq g) (LBegun b))
  | appends_commit b0 :
      g_log g = LBegun b0 → g_seq g = Some (wr_seq b0) →
      appends g (mkWalRecord (wr_seq b0) true kPut [] 0 [] 0) (mkGhost (g_tmp g) (g_seq g) LClosed).

(** A counter and what a thread has taken from it. *)
Definition takes (before after : option Z) (n n' : Z) : Prop :=
  (after = before ∧ n' = n) ∨ (before = None ∧ after = Some n ∧ n' = u64 (n + 1)).

Section logic.
Context {DB : Type} `{SqliteLaws DB}.
Variable (S : outcome → Prop) (getpid : Z) (root : path).
(** When [quiet] holds, no other thread changes what [sqlite3_changes] answers. *)
Variable (quiet : Prop).
Implicit Types (fs : gmap path bytes) (db : DB) (st : LocalObjectStore) (g : ghost).

Definition owned g (p : path) : Prop :=
  match g_tmp g with
  | Some n => ∃ t, p = TmpDir root ++ [tmp_name getpid t n]
  | None => False
  end.

Lemma owned_tmp g p : owned g p → removelast p = TmpDir root.
Proof. unfold owned. destruct (g_tmp g); [|done]. intros [t ->]. apply removelast_last. Qed.

(** What every step finds and leaves. *)
Record shared st fs db : Prop := {
  sh_db : ms_inv db;
  sh_fd : wal_fd (los_wal st) = true;
  sh_path : wal_path (los_wal st) = WalPath root;
  sh_log : is_Some (fs !! WalPath root);
}.

(** The thread's view: the row and the payload of its key, its staging file, and
    when it is [quiet] the number of rows the last statement changed. *)
Record same_view (key : bytes) g fs db fs' db' : Prop := {
  sv_row : ms_rows db' !! key = ms_rows db !! key;
  sv_file : fs' !! ObjectPath root key = fs !! ObjectPath root key;
  sv_own : ∀ p, owned g p → fs' !! p = fs !! p;
  sv_changes : quiet → sqlite3_changes db' = sqlite3_changes db;
}.

Definition log_step g fs g' fs' : Prop :=
  (g_log g' = g_log g ∧ fs' !! WalPath root = fs !! WalPath root) ∨
  (∃ b old, appends g b g' ∧ fs !! WalPath root = Some old ∧
            fs' !! WalPath root = Some (old ++ record_frame b)) ∨
  may_fail S.

(** Nothing outside of the thread's key, staging file and the log changes. *)
Definition frame (mode : Mode) (key : bytes) g fs db fs' db' : Prop :=
  (∀ k, k ≠ key → ms_rows db' !! k = ms_rows db !! k) ∧
  (∀ p, p ≠ WalPath root → p ≠ ObjectPath root key → ¬ owned g p → fs' !! p = fs !! p) ∧
  (mode = Shared → ms_rows db' !! key = ms_rows db !! key ∧
                   fs' !! ObjectPath root key = fs !! ObjectPath root key).

Record step_ok (mode : Mode) (key : bytes) g st fs db g' st' fs' db' : Prop := {
  so_shared : shared st' fs' db';
  so_frame : frame mode key g' fs db fs' db';
  so_tmp : takes (g_tmp g) (g_tmp g') (los_counter st) (los_counter st');
  so_seq : takes (g_seq g) (g_seq g') (wal_next_seq (los_wal st)) (wal_next_seq (los_wal st'));
  so_log : log_step g fs g' fs';
}.

(** The process dies in a step: the log may end in a part of the record the
    thread was appending. *)
Definition crash_ok (mode : Mode) (key : bytes)
    (I : LogPhase → option ObjectMetadata → option bytes → Prop) g fs db fs' db' : Prop :=
  ms_inv db' ∧ frame mode key g fs db fs' db' ∧
  I (g_log g) (ms_rows db' !! key) (fs' !! ObjectPath root key) ∧
  (fs' !! WalPath root = fs !! WalPath root ∨
   ∃ b g' old k, appends g b g' ∧ fs !! WalPath root = Some old ∧
     fs' !! WalPath root = Some (old ++ take k (record_frame b)) ∧
     I (g_log g') (ms_rows db' !! key) (fs' !! ObjectPath root key)).

Section program.
Variable (mode : Mode) (key : bytes).
(** What holds of the key between the steps, by what is in the log. *)
Variable (I : LogPhase → option ObjectMetadata → option bytes → Prop).

(** From a view, whatever the others do: every step keeps to [step_ok] and [I],
    a crash leaves [crash_ok], and the result satisfies [Q]. *)
Fixpoint pwp {A} (p : prog DB A) (Q : A → ghost → gmap path bytes → DB → Prop) g fs db : Prop :=
  match p with
  | Done x => ∀ fs' db', same_view key g fs db fs' db' → Q x g fs' db'
  | Act m k =>
      ∀ st1 fs1 db1, shared st1 fs1 db1 → same_view key g fs db fs1 db1 → los_root st1 = root →
      wp S (m st1)
        (λ r fs2 db2, los_root r.2 = root ∧
           ∃ g', step_ok mode key g st1 fs1 db1 g' r.2 fs2 db2 ∧
                 I (g_log g') (ms_rows db2 !! key) (fs2 !! ObjectPath root key) ∧
                 pwp (k r.1) Q g' fs2 db2)
        (crash_ok mode key I g fs1 db1) fs1 db1
  end.

Lemma same_view_refl g fs db : same_view key g fs db fs db.
Proof. done. Qed.

Lemma same_view_trans g fs1 db1 fs2 db2 fs3 db3 :
  same_view key g fs1 db1 fs2 db2 → same_view key g fs2 db2 fs3 db3 → same_view key g fs1 db1 fs3 db3.
Proof.
  intros [R1 F1 O1 N1] [R2 F2 O2 N2]. split; [congruence..| |].
  - intros p Hp. by rewrite O2, O1 by done.
  - intros Hq. by rewrite N2, N1.
Qed.

Lemma pwp_stable {A : Type} (p : prog DB A) Q g fs db fs' db' :
  same_view key g fs db fs' db' → pwp p Q g fs db → pwp p Q g fs' db'.
Proof.
  intros Hv. destruct p as [x|B m k]; cbn [pwp]; intros Hp.
  - intros fs2 db2 Hv2. apply Hp. by eapply same_view_trans.
  - intros st1 fs1 db1 Hsh Hv1 Hr. apply Hp; [done| |done]. by eapply same_view_trans.
Qed.

Lemma pwp_bind {A B : Type} (p : prog DB A) (k : A → prog DB B) Q g fs db :
  pwp p (λ x, pwp (k x) Q) g fs db → pwp (pbind p k) Q g fs db.
Proof.
  revert g fs db. induction p as [x|C m k' IH]; intros g fs db; cbn [pbind pwp]; intros Hp.
  - apply Hp. apply same_view_refl.
  - intros st1 fs1 db1 Hsh Hv Hr. eapply wp_mono; [by apply Hp| |done].
    intros [y st2] fs2 db2 (Hr2 & g' & Hst & HI & Hk). split; [done|]. exists g'. auto.
Qed.

Lemma pwp_mono {A : Type} (p : prog DB A) (Q Q' : A → ghost → gmap path bytes → DB → Prop) g fs db :
  (∀ x g fs db, Q x g fs db → Q' x g fs db) → pwp p Q g fs db → pwp p Q' g fs db.
Proof.
  intros HQ. revert g fs db. induction p as [x|C m k' IH]; intros g fs db; cbn [pwp]; intros Hp.
  - auto.
  - intros st1 fs1 db1 Hsh Hv Hr. eapply wp_mono; [by apply Hp| |done].
    intros [y st2] fs2 db2 (Hr2 & g' & Hst & HI & Hk). split; [done|]. exists g'. auto.
Qed.

(** *** Rules for the calls *)

Lemma view_I g fs db fs' db' ph :
  same_view key g fs db fs' db' → I ph (ms_rows db !! key) (fs !! ObjectPath root key) →
  I ph (ms_rows db' !! key) (fs' !! ObjectPath root key).
Proof. by intros [-> -> _ _]. Qed.

(** A step that changes no more than the view: its new state is that of the
    thread's own change [fs2], [db2] in the current world. *)
Lemma step_ok_files g st fs db fs' :
  shared st fs db → fs' !! WalPath root = fs !! WalPath root →
  (∀ p, p ≠ ObjectPath root key → ¬ owned g p → fs' !! p = fs !! p) →
  (mode = Shared → fs' !! ObjectPath root key = fs !! ObjectPath root key) →
  step_ok mode key g st fs db g st fs' db.
Proof.
  intros [? ? ? ?] Hw Hf Hs. split; [by split; rewrite ?Hw|..].
  - split; [done|]. split; [|auto]. intros p _. apply Hf.
  - by left.
  - by left.
  - by left.
Qed.

Lemma crash_ok_same g fs db :
  ms_inv db → I (g_log g) (ms_rows db !! key) (fs !! ObjectPath root key) →
  crash_ok mode key I g fs db fs db.
Proof. intros Hi HI. split; [done|]. split; [done|]. split; [done|]. by left. Qed.

(** A call of the operating system that changes the files by [f], where [f]
    touches only the thread's own. *)
Lemma pwp_syscall {A : Type} (f : gmap path bytes → gmap path bytes) (k : option bytes → prog DB A) Q g fs db :
  I (g_log g) (ms_rows db !! key) (fs !! ObjectPath root key) →
  I (g_log g) (ms_rows db !! key) (f fs !! ObjectPath root key) →
  (∀ fs1, f fs1 !! WalPath root = fs1 !! WalPath root) →
  (∀ fs1 p, p ≠ ObjectPath root key → ¬ owned g p → f fs1 !! p = fs1 !! p) →
  (mode = Shared → ∀ fs1, f fs1 !! ObjectPath root key = fs1 !! ObjectPath root key) →
  (∀ fs1 db1, same_view key g fs db fs1 db1 → same_view key g (f fs) db (f fs1) db1) →
  pwp (k None) Q g (f fs) db → (∀ e, pwp (k (Some e)) Q g fs db) →
  pwp (Act (call (syscall f)) k) Q g fs db.
Proof.
  intros HI HIf Hw Hf Hs Hv HN HE. cbn [pwp]. intros st1 fs1 db1 Hsh Hv1 Hr.
  unfold call. apply wp_bind, wp_syscall.
  - apply wp_ret. split; [done|]. exists g. split; [apply step_ok_files; auto|]. cbn [fst].
    split; [by eapply view_I; [apply Hv|]|]. eapply pwp_stable; [by apply Hv|done].
  - intros _ e. apply wp_ret. split; [done|]. exists g. split; [by apply step_ok_files|]. cbn [fst].
    split; [by eapply view_I|]. by eapply pwp_stable.
  - apply crash_ok_same; [apply Hsh|]. by eapply view_I.
Qed.

Lemma pwp_nop {A : Type} (k : option bytes → prog DB A) Q g fs db :
  I (g_log g) (ms_rows db !! key) (fs !! ObjectPath root key) →
  (∀ e, pwp (k e) Q g fs db) → pwp (Act (call (syscall (λ fs, fs))) k) Q g fs db.
Proof. intros HI Hk. by apply pwp_syscall. Qed.

(** A change of the thread's staging file. *)
Lemma pwp_own {A : Type} (tmp : path) (x : option bytes) (k : option bytes → prog DB A) Q g fs db f :
  owned g tmp → (∀ fs1, f fs1 = partial_alter (λ _, x) tmp fs1) →
  I (g_log g) (ms_rows db !! key) (fs !! ObjectPath root key) →
  pwp (k None) Q g (partial_alter (λ _, x) tmp fs) db → (∀ e, pwp (k (Some e)) Q g fs db) →
  pwp (Act (call (syscall f)) k) Q g fs db.
Proof.
  intros Ho Ef HI HN HE. pose proof (owned_tmp _ _ Ho) as Ht.
  assert (∀ fs1 p, p ≠ tmp → f fs1 !! p = fs1 !! p) as Hne.
  { intros fs1 p Hp. rewrite Ef. by apply lookup_partial_alter_ne. }
  assert (∀ fs1, f fs1 !! ObjectPath root key = fs1 !! ObjectPath root key) as Hobj.
  { intros fs1. apply Hne. intros <-. by eapply tmp_ne_object. }
  apply pwp_syscall; auto.
  - by rewrite Hobj.
  - intros fs1. apply Hne. intros <-. by eapply tmp_ne_wal.
  - intros fs1 p _ Hp. apply Hne. by intros ->.
  - intros fs1 db1 [R F O N]. split; [done|by rewrite !Hobj| |done]. intros p Hp.
    destruct (decide (p = tmp)) as [->|]; [|rewrite !Hne by done; auto].
    by rewrite !Ef, !lookup_partial_alter_eq.
  - by rewrite Ef.
Qed.

Lemma own_view g tmp x fs db fs1 db1 :
  owned g tmp → same_view key g fs db fs1 db1 → same_view key g (<[tmp := x]> fs) db (<[tmp := x]> fs1) db1.
Proof.
  intros Ho [R F O N]. split; [done| | |done].
  - rewrite !lookup_insert_ne; [done|..]; intros ->; by eapply tmp_ne_object, eq_refl; eapply owned_tmp.
  - intros p Hp. destruct (decide (p = tmp)) as [->|]; [by rewrite !lookup_insert_eq|].
    rewrite !lookup_insert_ne by done. auto.
Qed.

Lemma own_step g st tmp x fs db :
  owned g tmp → shared st fs db → step_ok mode key g st fs db g st (<[tmp := x]> fs) db.
Proof.
  intros Ho Hsh. pose proof (owned_tmp _ _ Ho) as Ht. apply step_ok_files; [done|..].
  - rewrite lookup_insert_ne; [done|]. intros ->. by eapply tmp_ne_wal.
  - intros p _ Hp. rewrite lookup_insert_ne; [done|]. by intros ->.
  - intros _. rewrite lookup_insert_ne; [done|]. intros ->. by eapply tmp_ne_object.
Qed.

Lemma own_object g tmp x fs :
  owned g tmp → <[tmp := x]> fs !! ObjectPath root key = fs !! ObjectPath root key.
Proof. intros Ho. apply lookup_insert_ne. intros ->. by eapply tmp_ne_object, eq_refl; eapply owned_tmp. Qed.

Lemma pwp_write {A : Type} (tmp : path) (old data : bytes) (k : option bytes → prog DB A) Q g fs db :
  owned g tmp → fs !! tmp = Some old →
  I (g_log g) (ms_rows db !! key) (fs !! ObjectPath root key) →
  pwp (k None) Q g (<[tmp := old ++ data]> fs) db →
  (∀ n e, pwp (k (Some e)) Q g (<[tmp := old ++ take n data]> fs) db) →
  pwp (Act (call (write_all tmp data)) k) Q g fs db.
Proof.
  intros Ho Hold HI HN HE. cbn [pwp]. intros st1 fs1 db1 Hsh Hv Hr.
  assert (fs1 !! tmp = Some old) as Hold1 by by rewrite (sv_own _ _ _ _ _ _ Hv).
  assert (I (g_log g) (ms_rows db1 !! key) (fs1 !! ObjectPath root key)) as HI1 by by eapply view_I.
  unfold call. apply wp_bind. apply wp_write_all with (old := old); [done|..].
  - intros n _. split; [apply Hsh|]. split; [apply (own_step g st1 tmp (old ++ take n data) fs1 db1 Ho Hsh)|].
    rewrite (own_object g) by done. split; [done|]. left.
    rewrite lookup_insert_ne; [done|]. intros ->. by eapply tmp_ne_wal, eq_refl; eapply owned_tmp.
  - intros _ n e _. apply wp_ret. split; [done|]. exists g. split; [by apply own_step|].
    rewrite (own_object g) by done. split; [done|]. eapply pwp_stable; [by apply own_view|apply HE].
  - apply wp_ret. split; [done|]. exists g. split; [by apply own_step|].
    rewrite (own_object g) by done. split; [done|]. eapply pwp_stable; [by apply own_view|apply HN].
Qed.

(** The payload is put in place. *)
Lemma pwp_rename {A : Type} (tmp : path) (data : bytes) (k : option bytes → prog DB A) Q g fs db :
  mode = Exclusive → owned g tmp → fs !! tmp = Some data →
  I (g_log g) (ms_rows db !! key) (fs !! ObjectPath root key) → I (g_log g) (ms_rows db !! key) (Some data) →
  pwp (k None) Q g (<[ObjectPath root key := data]> (delete tmp fs)) db →
  (∀ e, pwp (k (Some e)) Q g fs db) →
  pwp (Act (call (sys_rename tmp (ObjectPath root key))) k) Q g fs db.
Proof.
  intros Hmode Ho Hd HI HIn HN HE. pose proof (owned_tmp _ _ Ho) as Ht.
  cbn [pwp]. intros st1 fs1 db1 Hsh Hv Hr.
  assert (fs1 !! tmp = Some data) as Hd1 by by rewrite (sv_own _ _ _ _ _ _ Hv).
  assert (I (g_log g) (ms_rows db1 !! key) (fs1 !! ObjectPath root key)) as HI1 by by eapply view_I.
  unfold call, sys_rename. apply wp_bind, wp_syscall; [apply wp_ret|intros _ e; apply wp_ret|].
  - split; [done|]. exists g. rewrite Hd1. split; [|split; [by rewrite lookup_insert_eq, (sv_row _ _ _ _ _ _ Hv)|]].
    + apply step_ok_files; [done|..|congruence].
      * rewrite lookup_insert_ne by (apply not_eq_sym, wal_ne_object).
        apply lookup_delete_ne. intros ->. by eapply tmp_ne_wal.
      * intros p Hp Hn. rewrite lookup_insert_ne by done. apply lookup_delete_ne. by intros ->.
    + eapply pwp_stable; [|done]. destruct Hv as [R F O N]. split; [done|by rewrite !lookup_insert_eq| |done].
      intros p Hp. assert (p ≠ ObjectPath root key).
      { intros ->. by eapply tmp_ne_object; [eapply owned_tmp|]. }
      rewrite !lookup_insert_ne by done. destruct (decide (p = tmp)) as [->|].
      * by rewrite !lookup_delete_eq.
      * rewrite !lookup_delete_ne by done. auto.
  - split; [done|]. exists g. split; [by apply step_ok_files|]. split; [done|]. eapply pwp_stable; [done|apply HE].
  - apply crash_ok_same; [apply Hsh|done].
Qed.

(** The numbers. *)
Lemma pwp_time {A : Type} (k : Z → prog DB A) Q g fs db :
  I (g_log g) (ms_rows db !! key) (fs !! ObjectPath root key) →
  (∀ t, - 2 ^ 63 <= t < 2 ^ 63 → pwp (k t) Q g fs db) → pwp (Act (call sys_time) k) Q g fs db.
Proof.
  intros HI Hk. cbn [pwp]. intros st1 fs1 db1 Hsh Hv Hr. unfold call. apply wp_bind, wp_sys_time.
  intros t Ht. apply wp_ret. split; [done|]. exists g. split; [by apply step_ok_files|].
  split; [by eapply view_I|]. eapply pwp_stable; [done|]. by apply Hk.
Qed.

(** The view does not depend on the log, nor, before a staging file is chosen,
    on the staging directory. *)
Lemma view_log g g' fs db fs' db' :
  g_tmp g' = g_tmp g → same_view key g fs db fs' db' → same_view key g' fs db fs' db'.
Proof. intros Et [R F O N]. split; [done..| |done]. intros p. unfold owned. rewrite Et. apply O. Qed.

Lemma view_wal g x fs db : same_view key g fs db (<[WalPath root := x]> fs) db.
Proof.
  split; [done| | |done].
  - apply lookup_insert_ne, wal_ne_object.
  - intros p Hp. apply lookup_insert_ne. intros <-. by eapply tmp_ne_wal, eq_refl; eapply owned_tmp.
Qed.

Lemma pwp_seq {A : Type} (k : Z → prog DB A) Q g fs db :
  g_seq g = None → I (g_log g) (ms_rows db !! key) (fs !! ObjectPath root key) →
  (∀ seq, pwp (k seq) Q (mkGhost (g_tmp g) (Some seq) (g_log g)) fs db) →
  pwp (Act NextSeq_step k) Q g fs db.
Proof.
  intros Hs HI Hk. cbn [pwp]. intros st1 fs1 db1 Hsh Hv Hr. unfold NextSeq_step, NextSeq.
  apply wp_ret. cbn [fst snd]. split; [done|].
  exists (mkGhost (g_tmp g) (Some (wal_next_seq (los_wal st1))) (g_log g)). split.
  - destruct Hsh. split; [by split|by split|by left|right; by rewrite Hs|by left].
  - split; [by eapply view_I|]. apply (pwp_stable _ _ _ fs db); [by apply (view_log g)|apply Hk].
Qed.

Lemma pwp_tmp {A : Type} (k : path → prog DB A) Q g fs db :
  g_tmp g = None → I (g_log g) (ms_rows db !! key) (fs !! ObjectPath root key) →
  (∀ t n fs1 db1, same_view key g fs db fs1 db1 →
     pwp (k (TmpDir root ++ [tmp_name getpid t n])) Q (mkGhost (Some n) (g_seq g) (g_log g)) fs1 db1) →
  pwp (Act (λ st, UniqueTmpPath getpid st (TmpDir root)) k) Q g fs db.
Proof.
  intros Ht HI Hk. cbn [pwp]. intros st1 fs1 db1 Hsh Hv Hr. unfold UniqueTmpPath.
  apply wp_bind, wp_sys_time. intros t _. apply wp_ret. cbn [fst snd]. split; [done|].
  exists (mkGhost (Some (los_counter st1)) (g_seq g) (g_log g)). split.
  - destruct Hsh. split; [by split|by split|right; by rewrite Ht|by left|by left].
  - split; [by eapply view_I|]. by apply Hk.
Qed.

Lemma append_crash g g' rec x fs db k :
  ms_inv db → appends g rec g' → fs !! WalPath root = Some x →
  I (g_log g) (ms_rows db !! key) (fs !! ObjectPath root key) →
  I (g_log g') (ms_rows db !! key) (fs !! ObjectPath root key) →
  crash_ok mode key I g fs db (<[WalPath root := x ++ take k (record_frame rec)]> fs) db.
Proof.
  intros Hi Ha Hx HI HI'. pose proof (sv_file _ _ _ _ _ _ (view_wal g (x ++ take k (record_frame rec)) fs db)) as E.
  split; [done|]. split.
  - split; [done|]. split; [|done]. intros p Hp _ _. by apply lookup_insert_ne.
  - rewrite E. split; [done|]. right. exists rec, g', x, k. rewrite lookup_insert_eq. done.
Qed.

Lemma append_step st g g' x y fs db :
  shared st fs db → fs !! WalPath root = Some x →
  g_tmp g' = g_tmp g → g_seq g' = g_seq g → log_step g fs g' (<[WalPath root := y]> fs) →
  step_ok mode key g st fs db g' st (<[WalPath root := y]> fs) db.
Proof.
  intros [] Hx Et Es Hl. split; [split; try done|split; [done|split]|by left|by left|done].
  - by rewrite lookup_insert_eq.
  - intros p Hp _ _. by apply lookup_insert_ne.
  - intros _. split; [done|]. apply lookup_insert_ne, wal_ne_object.
Qed.

Lemma pwp_append {A : Type} rec g' (k : Status → prog DB A) Q g fs db :
  appends g rec g' →
  I (g_log g) (ms_rows db !! key) (fs !! ObjectPath root key) →
  I (g_log g') (ms_rows db !! key) (fs !! ObjectPath root key) →
  pwp (k Ok) Q g' fs db →
  (may_fail S → ∀ s, st_ok s = false → st_code s = kIoError → pwp (k s) Q g fs db) →
  pwp (Act (Append_step rec) k) Q g fs db.
Proof.
  intros Ha HI HI' HO HE. cbn [pwp]. intros st1 fs1 db1 Hsh Hv Hr.
  pose proof Hsh as [Hi Hfd Hp [x Hx]].
  assert (I (g_log g) (ms_rows db1 !! key) (fs1 !! ObjectPath root key)) as HI1 by by eapply view_I.
  assert (I (g_log g') (ms_rows db1 !! key) (fs1 !! ObjectPath root key)) as HI1' by by eapply view_I.
  assert (∀ y, fs1 !! ObjectPath root key = <[WalPath root := y]> fs1 !! ObjectPath root key) as Ey
    by (intros y; symmetry; apply lookup_insert_ne, wal_ne_object).
  assert (g_tmp g' = g_tmp g ∧ g_seq g' = g_seq g) as [Et Es] by by inversion Ha.
  unfold Append_step. apply wp_bind, wp_AppendRecord with (old := x); rewrite ?Hp; [done|done|..].
  - intros n _. by eapply append_crash.
  - intros Hfail n s _ [Hs Hc]. apply wp_ret. split; [done|]. exists g. split.
    + apply (append_step _ _ _ x); try done. by right; right.
    + rewrite <-Ey. split; [done|]. apply (pwp_stable _ _ _ fs db); [|by apply HE].
      eapply same_view_trans; [done|apply view_wal].
  - apply wp_ret. split; [done|]. exists g'. split.
    + apply (append_step _ _ _ x); try done. right. left. exists rec, x. by rewrite lookup_insert_eq.
    + rewrite <-Ey. split; [done|]. apply (pwp_stable _ _ _ fs db); [|done].
      eapply same_view_trans; [by apply (view_log g)|apply view_wal].
Qed.

(** A statement of the database that changes at most the row of the key. *)
Lemma pwp_db {A B : Type} (f : DB → B * DB) (k : B → prog DB A) Q g fs db :
  I (g_log g) (ms_rows db !! key) (fs !! ObjectPath root key) →
  (∀ db1 x db2, ms_inv db1 → ms_rows db1 !! key = ms_rows db !! key → f db1 = (x, db2) →
     ms_inv db2 ∧ (∀ k, k ≠ key → ms_rows db2 !! k = ms_rows db1 !! k) ∧
     (mode = Shared → ms_rows db2 !! key = ms_rows db1 !! key) ∧
     I (g_log g) (ms_rows db2 !! key) (fs !! ObjectPath root key) ∧
     pwp (k x) Q g fs db2) →
  pwp (Act (call (on_db f)) k) Q g fs db.
Proof.
  intros HI Hf. cbn [pwp]. intros st1 fs1 db1 Hsh Hv Hr. unfold call.
  apply wp_bind, wp_on_db; [|by apply crash_ok_same; [apply Hsh|eapply view_I]].
  intros x db2 Ex. destruct Hv as [R F O N].
  destruct (Hf db1 x db2) as (Hi & Hk & Hm & HI2 & Hp); [apply Hsh|done..|].
  apply wp_ret. cbn [fst snd]. split; [done|]. exists g. rewrite F. destruct Hsh. split_and!.
  - split; [by split|by split; auto|by left|by left|by left].
  - done.
  - by apply (pwp_stable _ _ _ fs db2).
Qed.

(** What reading the payload returns. *)
Definition read_result (file : option bytes) (r : StatusOr bytes) : Prop :=
  match r with
  | FromStatus s => st_code s = kIoError ∧ (may_fail S ∨ file = None)
  | FromValue d => ∃ c, file = Some c ∧ d `prefix_of` c ∧ (¬ may_short S → d = c)
  end.

Lemma pwp_read {A : Type} (k : StatusOr bytes → prog DB A) Q g fs db :
  I (g_log g) (ms_rows db !! key) (fs !! ObjectPath root key) →
  (∀ r, read_result (fs !! ObjectPath root key) r → pwp (k r) Q g fs db) →
  pwp (Act (call (ReadWholeFile (ObjectPath root key))) k) Q g fs db.
Proof.
  intros HI Hk. cbn [pwp]. intros st1 fs1 db1 Hsh Hv Hr.
  assert (∀ r, read_result (fs !! ObjectPath root key) r → los_root st1 = root ∧
    ∃ g', step_ok mode key g st1 fs1 db1 g' st1 fs1 db1 ∧
          I (g_log g') (ms_rows db1 !! key) (fs1 !! ObjectPath root key) ∧
          pwp (k r) Q g' fs1 db1) as Hk'.
  { intros r Hrr. split; [done|]. exists g. split; [by apply step_ok_files|].
    split; [by eapply view_I|]. eapply pwp_stable; [done|]. by apply Hk. }
  pose proof (sv_file _ _ _ _ _ _ Hv) as F.
  unfold call, ReadWholeFile. apply wp_bind, wp_bind, wp_read_file.
  - intros Hfail. apply wp_ret, wp_ret. apply Hk'. split; [done|]. by left.
  - intros Hshort n c Ec. apply wp_ret, wp_ret. apply Hk'. exists c. rewrite <-F.
    split; [done|]. split; [apply prefix_take|done].
  - destruct (fs1 !! ObjectPath root key) as [c|] eqn:Ec; rewrite <-Ec in Hk';
      apply wp_ret, wp_ret, Hk'; rewrite <-F.
    + by exists c.
    + split; [done|]. by right.
  - apply crash_ok_same; [apply Hsh|by eapply view_I].
Qed.

(** *** The staging of a payload *)

Section staging.
Variable (data : bytes).
Hypothesis Hmode : mode = Exclusive.

(** The payload is in place when the result is [Ok], and may be when it is not. *)
Definition staged fs db (s : Status) fs' db' : Prop :=
  ms_rows db' !! key = ms_rows db !! key ∧
  ((s = Ok ∧ fs' !! ObjectPath root key = Some data) ∨
   (st_ok s = false ∧ st_code s = kIoError ∧
    (fs' !! ObjectPath root key = fs !! ObjectPath root key ∨ fs' !! ObjectPath root key = Some data))).

Lemma staged_fail g fs0 db0 fs db e :
  ms_rows db !! key = ms_rows db0 !! key →
  fs !! ObjectPath root key = fs0 !! ObjectPath root key ∨ fs !! ObjectPath root key = Some data →
  pwp (Done (IoError e)) (λ s g' fs' db', g' = g ∧ staged fs0 db0 s fs' db') g fs db.
Proof.
  intros Er Ef. cbn [pwp]. intros fs' db' [R F _ _]. split; [done|]. split; [by rewrite R|].
  right. by rewrite F.
Qed.

Lemma pwp_FsyncDir (dir : path) g fs0 db0 fs db :
  I (g_log g) (ms_rows db !! key) (fs !! ObjectPath root key) →
  ms_rows db !! key = ms_rows db0 !! key → fs !! ObjectPath root key = Some data →
  pwp (FsyncDir_steps dir) (λ s g' fs' db', g' = g ∧ staged fs0 db0 s fs' db') g fs db.
Proof.
  intros HI Er Ef. unfold FsyncDir_steps. apply pwp_nop; [done|]. intros [e|]; [by apply staged_fail; auto|].
  apply pwp_nop; [done|]. intros rc. apply pwp_nop; [done|]. intros _.
  destruct rc as [e|]; [by apply staged_fail; auto|].
  cbn [pwp]. intros fs' db' [R F _ _]. split; [done|]. split; [by rewrite R|]. left. by rewrite F.
Qed.

Lemma pwp_WriteStaged (tmp : path) g fs db :
  owned g tmp → I (g_log g) (ms_rows db !! key) (fs !! ObjectPath root key) →
  I (g_log g) (ms_rows db !! key) (Some data) →
  pwp (WriteStaged_steps tmp (ObjectPath root key) data)
    (λ s g' fs' db', g' = g ∧ staged fs db s fs' db') g fs db.
Proof.
  intros Ho HI HId. unfold WriteStaged_steps.
  assert (∀ fs' e, fs' !! ObjectPath root key = fs !! ObjectPath root key →
    pwp (do! _ := call (sys_unlink tmp) in Done (IoError e))
      (λ s g' fs' db', g' = g ∧ staged fs db s fs' db') g fs' db) as Hfail.
  { intros fs' e Ef. eapply (pwp_own tmp None); [done|done|by rewrite Ef|..].
    - apply staged_fail; [done|]. left. rewrite <-Ef. apply lookup_partial_alter_ne.
      intros ->. by eapply tmp_ne_object, eq_refl; eapply owned_tmp.
    - intros _. apply staged_fail; auto. }
  pose proof (λ x f, own_object g tmp x f Ho) as Hobj.
  eapply (pwp_own tmp (Some [])); [done|done|done| |intros e; apply staged_fail; auto].
  change (partial_alter (λ _, Some []) tmp fs) with (<[tmp := []]> fs).
  apply (pwp_write tmp []); [done|apply lookup_insert_eq|by rewrite Hobj|..].
  2:{ intros n e. apply pwp_nop; [by rewrite !Hobj|]. intros _. apply Hfail. by rewrite !Hobj. }
  cbn [app]. rewrite insert_insert_eq.
  apply pwp_nop; [by rewrite Hobj|]. intros [e|].
  { apply pwp_nop; [by rewrite Hobj|]. intros _. apply Hfail. by rewrite Hobj. }
  apply pwp_nop; [by rewrite Hobj|]. intros [e|]; [by apply Hfail; rewrite Hobj|].
  apply (pwp_rename tmp data); [done|done|apply lookup_insert_eq|by rewrite Hobj|done| |].
  - apply pwp_FsyncDir; [|done|]; by rewrite lookup_insert_eq.
  - intros e. apply Hfail. by rewrite Hobj.
Qed.

Lemma pwp_WriteFileAtomic g fs db :
  g_tmp g = None → I (g_log g) (ms_rows db !! key) (fs !! ObjectPath root key) →
  I (g_log g) (ms_rows db !! key) (Some data) →
  pwp (WriteFileAtomic_steps getpid root (ObjectPath root key) data)
    (λ s g' fs' db', g_seq g' = g_seq g ∧ g_log g' = g_log g ∧ staged fs db s fs' db') g fs db.
Proof.
  intros Ht HI HId. unfold WriteFileAtomic_steps. apply pwp_nop; [done|]. intros [e|].
  { eapply pwp_mono; [|apply (staged_fail g fs db); auto]. cbv beta. intros s g' fs' db' [-> ?]. done. }
  apply pwp_tmp; [done|done|]. intros t n fs1 db1 [R F _ _]. eapply pwp_mono.
  2:{ apply pwp_WriteStaged; cbn [g_log g_tmp]; [by exists t|by rewrite R, F|by rewrite R]. }
  cbv beta. intros s g' fs' db' [-> Hs]. split; [done|]. split; [done|].
  unfold staged in *. by rewrite R, F in Hs.
Qed.
End staging.
End program.
End logic.

(** ** The sequential specification *)

(** What the store holds for a key: its row and its payload. *)
Notation cell := (option ObjectMetadata * option bytes)%type.

(** A write: as [DoPut] decides from the row; when it goes ahead it makes the new
    version, or fails with an I/O error, the payload perhaps already replaced. *)
Definition put_spec (key data : bytes) (explicit : Z) (conditional : bool) (expected : Z)
    (request_id : bytes) (c : cell) (r : StatusOr ObjectMetadata) (c' : cell) : Prop :=
  (∃ s, r = FromStatus s ∧ st_code s = kIoError ∧ c' = c) ∨
  match row_decision key c.1 explicit conditional expected request_id with
  | inl m => r = FromValue m ∧ c' = c
  | inr (inl s) => r = FromStatus s ∧ c' = c
  | inr (inr v) =>
      (∃ m, r = FromValue m ∧ new_meta key data v m ∧ om_request_id m = request_id ∧
            c' = (Some m, Some data)) ∨
      (∃ s, r = FromStatus s ∧ st_code s = kIoError ∧ c'.1 = c.1 ∧ (c'.2 = c.2 ∨ c'.2 = Some data))
  end.

(** A read returns the payload of a live row, checked against the row's
    checksum; a read cut short by the file system is not taken for it. *)
Definition get_spec (S : outcome → Prop) (c : cell) (r : StatusOr bytes) : Prop :=
  match r with
  | FromValue d =>
      ∃ m p, c = (Some m, Some p) ∧ om_deleted m = false ∧ Sha256Hex d = om_checksum m ∧
             d `prefix_of` p ∧ (¬ may_short S → d = p)
  | FromStatus s =>
      (st_code s = kNotFound ∧ ∀ m, c.1 = Some m → om_deleted m = true) ∨
      (st_code s = kChecksumMismatch ∧ ∃ m p, c = (Some m, Some p) ∧ om_deleted m = false ∧
         (¬ may_short S → Sha256Hex p ≠ om_checksum m)) ∨
      st_code s = kIoError
  end.

Definition head_spec (c : cell) (r : StatusOr ObjectMetadata) : Prop :=
  match r with
  | FromValue m => c.1 = Some m ∧ om_deleted m = false
  | FromStatus s => (st_code s = kNotFound ∧ ∀ m, c.1 = Some m → om_deleted m = true) ∨ st_code s = kIoError
  end.

(** A deletion leaves the tombstone of the row, if there was one, and reports
    [Ok] or [kNotFound]; the report is [exact] when it is [Ok] for a live row and
    [kNotFound] for a row that is absent or a tombstone.  The number of rows changed
    is read after the statement: a statement of another thread in between can make
    the report wrong. *)
Definition delete_spec (exact : Prop) (c : cell) (s : Status) (c' : cell) : Prop :=
  c'.2 = c.2 ∧
  ((st_code s = kIoError ∧ c'.1 = c.1) ∨
   ((s = Ok ∨ st_code s = kNotFound) ∧ c'.1 = tombstone <$> c.1 ∧
    (exact → s = Ok ↔ ∃ m, c.1 = Some m ∧ om_deleted m = false))).

Definition req_spec (S : outcome → Prop) (exact : Prop) (req : Request) (c : cell) (a : Reply) (c' : cell) : Prop :=
  match refused req with
  | Some a' => a = a' ∧ c' = c
  | None =>
      match req, a with
      | RPut key data, AMeta r => put_spec key data 0 false 0 [] c r c'
      | RPutWithVersion key data v, AMeta r => put_spec key data v false 0 [] c r c'
      | RPutConditional key data expected request_id, AMeta r =>
          put_spec key data 0 true expected request_id c r c'
      | RGet _, ABytes r => get_spec S c r ∧ c' = c
      | RHead _, AMeta r => head_spec c r ∧ c' = c
      | RDelete _, AStatus s => delete_spec exact c s c'
      | _, _ => False
      end
  end.

(** The calls of a history, one after the other. *)
Inductive sequential (S : outcome → Prop) (exact : Prop) (cells : bytes → cell) :
    list (Request * Reply) → (bytes → cell) → Prop :=
  | sequential_nil cells' : (∀ k, cells' k = cells k) → sequential S exact cells [] cells'
  | sequential_snoc h req a cells1 cells2 :
      sequential S exact cells h cells1 →
      req_spec S exact req (cells1 (req_key req)) a (cells2 (req_key req)) →
      (∀ k, k ≠ req_key req → cells2 k = cells1 k) →
      sequential S exact cells (h ++ [(req, a)]) cells2.

(** Arguments the store can represent. *)
Definition write_args_ok (key data : bytes) (version : Z) (request_id : bytes) : Prop :=
  Zlen data * 8 < 2 ^ 64 ∧ is_u64 version ∧ nul_free request_id.

Definition request_ok (req : Request) : Prop :=
  nul_free (req_key req) ∧ Zlen (req_key req) < 2 ^ 32 - 98 ∧
  match req with
  | RPut key data => write_args_ok key data 0 []
  | RPutWithVersion key data version => write_args_ok key data version []
  | RPutConditional key data _ request_id => write_args_ok key data 0 request_id
  | _ => True
  end.

(** ** What holds of the key while a call is under way *)

(** The intent of a write is in the log: the row is the old one and the payload
    the old or the new one, or both are new. *)
Definition put_between (key data : bytes) (v : Z) (c0 c : cell) : Prop :=
  (c.1 = c0.1 ∧ (c.2 = c0.2 ∨ c.2 = Some data)) ∨ ∃ m, new_meta key data v m ∧ c = (Some m, Some data).

Definition put_phase (key data : bytes) (explicit : Z) (conditional : bool) (expected : Z)
    (request_id : bytes) (c0 : cell) (ph : LogPhase) (row : option ObjectMetadata) (file : option bytes) : Prop :=
  match ph with
  | LIdle => (row, file) = c0
  | LBegun b => ∃ v seq, row_decision key c0.1 explicit conditional expected request_id = inr (inr v) ∧
      b = put_begin key data v seq ∧ put_between key data v c0 (row, file)
  | LClosed => ∃ v m, row_decision key c0.1 explicit conditional expected request_id = inr (inr v) ∧
      new_meta key data v m ∧ (row, file) = (Some m, Some data)
  end.

Definition delete_log (key : bytes) (ph : LogPhase) : Prop :=
  match ph with LBegun b => b = mkWalRecord (wr_seq b) false kDelete key 0 [] 0 | _ => True end.

Definition req_phase (req : Request) (c0 : cell) (ph : LogPhase) (row : option ObjectMetadata)
    (file : option bytes) : Prop :=
  match req with
  | RPut key data => put_phase key data 0 false 0 [] c0 ph row file
  | RPutWithVersion key data v => put_phase key data v false 0 [] c0 ph row file
  | RPutConditional key data expected request_id => put_phase key data 0 true expected request_id c0 ph row file
  | RGet _ | RHead _ => ph = LIdle ∧ (row, file) = c0
  | RDelete key => file = c0.2 ∧ (row = c0.1 ∨ row = tombstone <$> c0.1) ∧ delete_log key ph
  end.

(** ** The operations keep to the specification *)

Lemma tombstone_deleted row :
  (∀ m, row = Some m → om_deleted m = true) → tombstone <$> row = row.
Proof. destruct row as [[]|]; [|done]. intros Hd. specialize (Hd _ eq_refl). simpl in *. by subst. Qed.

Lemma DoPut_version_u64 key current explicit conditional expected v :
  is_u64 explicit → DoPut_version key current explicit conditional expected = inr v → is_u64 v.
Proof.
  intros He. unfold DoPut_version. repeat case_match; intros [= <-]; auto using u64_range.
Qed.

Lemma row_decision_u64 key row explicit conditional expected request_id v :
  is_u64 explicit → row_decision key row explicit conditional expected request_id = inr (inr v) → is_u64 v.
Proof.
  intros He. unfold row_decision. repeat case_match; intros [=]; by eapply DoPut_version_u64.
Qed.

Definition cell_of {DB} `{MetadataStoreLaws DB} (root : path) (fs : gmap path bytes) (db : DB)
    (key : bytes) : cell := (ms_rows db !! key, fs !! ObjectPath root key).

Section operations.
Context {DB : Type} `{SqliteLaws DB}.
Variable (S : outcome → Prop) (getpid : Z) (root : path) (quiet : Prop).
Implicit Types (fs : gmap path bytes) (db : DB) (g : ghost).

Lemma DeleteRow_law key db r db' :
  ms_inv db → nul_free key → DeleteRow_step key db = (r, db') → ms_inv db' ∧
  (∀ k, k ≠ key → ms_rows db' !! k = ms_rows db !! k) ∧
  match r with
  | Some s => st_code s = kIoError ∧ ms_rows db' !! key = ms_rows db !! key
  | None =>
      ms_rows db' !! key = tombstone <$> ms_rows db !! key ∧
      (sqlite3_changes db' = 0 ↔ ∀ m, ms_rows db !! key = Some m → om_deleted m = true)
  end.
Proof.
  intros Hi Hk E.
  assert (∃ s, ms_Delete key db = (s, db') ∧
    match r with
    | Some s' => s = s' ∧ st_code s = kIoError
    | None => s = if sqlite3_changes db' =? 0 then NotFound (lit "no such key: " ++ key) else Ok
    end) as (s & Ed & Hs).
  { cbn [ms_Delete SqliteMetadataStore]. revert E. unfold DeleteRow_step, MetadataStore.Delete.
    destruct (Prepare sql_delete db) as [s db1] eqn:Ep. destruct (st_ok s) eqn:Es; cbn [negb].
    2:{ intros [= <- <-]. exists s. split_and!; [done..|].
        destruct (Prepare_cases sql_delete db) as (db2 & _ & [E|[e E]]); rewrite Ep in E; by injection E as -> ->. }
    destruct (sqlite3_run sql_delete [BindText key] db1) as [run db2].
    destruct (sr_rows run), (sr_error run); intros [= <- <-]; try by eexists.
    case_match; by eexists. }
  apply ms_Delete_law in Ed as [Hi' Hd]; [|done..]. split; [done|].
  destruct Hd as [(-> & m & Em & Ed & Er)|[(Hc & Hgone & Er)|(Hb & Er)]]; rewrite Er.
  - split; [intros; by apply lookup_insert_ne|]. rewrite lookup_insert_eq, Em.
    destruct r as [s'|]; [by destruct Hs as [_ ?]|]. split; [done|].
    destruct (Z.eqb_spec (sqlite3_changes db') 0); [done|]. split; [done|]. intros Hall.
    specialize (Hall m eq_refl). congruence.
  - split; [done|]. rewrite (tombstone_deleted _ Hgone).
    destruct r as [s'|]; [destruct Hs as [_ ?]; congruence|]. split; [done|].
    destruct (Z.eqb_spec (sqlite3_changes db') 0); [done|]. by subst s.
  - split; [done|]. destruct r as [s'|]; [by destruct Hs as [<- ?]|].
    unfold backend_error in Hb. destruct (_ =? 0); by subst s.
Qed.

(** *** Reads *)

Lemma pwp_Get I key fs db :
  nul_free key → I LIdle (ms_rows db !! key) (fs !! ObjectPath root key) →
  pwp S getpid root quiet Shared key I (Get_steps root key)
    (λ r g' fs' db', g' = ghost_new ∧ get_spec S (cell_of root fs db key) r ∧ cell_of root fs' db' key = cell_of root fs db key)
    ghost_new fs db.
Proof.
  intros Hk HI. unfold Get_steps.
  assert (∀ r, get_spec S (cell_of root fs db key) r → ∀ db2, ms_rows db2 !! key = ms_rows db !! key →
    pwp S getpid root quiet Shared key I (Done r)
      (λ r g' fs' db', g' = ghost_new ∧ get_spec S (cell_of root fs db key) r ∧ cell_of root fs' db' key = cell_of root fs db key)
      ghost_new fs db2) as Hdone.
  { intros r Hr db2 Er. cbn [pwp]. intros fs' db' [R F _ _]. do 2 (split; [done|]). unfold cell_of. by rewrite R, F, Er. }
  apply pwp_db; [done|]. intros db1 x db2 Hi Er Ex.
  apply ms_Get_law in Ex as (Hi2 & Er2 & Hx); [|done..]. rewrite Er2, Er in *.
  split_and!; try done. destruct x as [s|m].
  { apply Hdone; [|by rewrite Er2]. destruct Hx as [[? Hd]|?]; [by left|by right; right]. }
  destruct Hx as [Em Ed]. apply pwp_read; cbn [g_log ghost_new]; [by rewrite Er2, Er|].
  intros [s|d] Hr.
  { apply Hdone; [|by rewrite Er2]. right. right. apply Hr. }
  destruct Hr as (p & Ep & Hpre & Hshort). unfold cell_of in Hdone. rewrite Em, Ep in Hdone.
  unfold cell_of. rewrite Em, Ep. case_bool; prop_bool; (apply Hdone; [|by rewrite Er2, Er, Em]).
  - right. left. split; [done|]. exists m, p. split_and!; [done..|]. intros Hns. by rewrite <-(Hshort Hns).
  - exists m, p. split_and!; try done. by apply dec_stable.
Qed.

Lemma pwp_Head I key fs db :
  nul_free key → I LIdle (ms_rows db !! key) (fs !! ObjectPath root key) →
  pwp S getpid root quiet Shared key I (Head_steps key)
    (λ r g' fs' db', g' = ghost_new ∧ head_spec (cell_of root fs db key) r ∧ cell_of root fs' db' key = cell_of root fs db key)
    ghost_new fs db.
Proof.
  intros Hk HI. unfold Head_steps. apply pwp_db; [done|]. intros db1 x db2 Hi Er Ex.
  apply ms_Get_law in Ex as (Hi2 & Er2 & Hx); [|done..]. rewrite Er2, Er in *.
  split_and!; try done. cbn [pwp]. intros fs' db' [R F _ _].
  split; [done|]. split; [by destruct x|]. unfold cell_of. by rewrite R, F, Er2, Er.
Qed.

(** *** Writes *)

(** The log of a call that ended without an I/O error is settled. *)
Definition log_closed (failed : Prop) g : Prop := ¬ may_fail S → failed ∨ ∀ b, g_log g ≠ LBegun b.

Definition io_failed {A} (r : StatusOr A) : Prop := ∃ s, r = FromStatus s ∧ st_code s = kIoError.

Section write.
Variable (key data : bytes) (explicit : Z) (conditional : bool) (expected : Z) (request_id : bytes) (c0 : cell).
Hypothesis Hk : nul_free key.
Hypothesis Hargs : write_args_ok key data explicit request_id.

Notation decision := (row_decision key c0.1 explicit conditional expected request_id).
Notation spec := (put_spec key data explicit conditional expected request_id c0).
Notation phase := (put_phase key data explicit conditional expected request_id c0).
Notation pwp_put := (pwp S getpid root quiet Exclusive key phase).

Definition put_post (r : StatusOr ObjectMetadata) g fs db : Prop :=
  spec r (cell_of root fs db key) ∧ log_closed (io_failed r) g.

Lemma put_meta_ok v t : decision = inr (inr v) → is_i64 t →
  meta_ok (mkObjectMetadata key (Zlen data) (Sha256Hex data) v t false request_id).
Proof.
  intros Hv Ht. destruct Hargs as (Hd & He & Hr).
  unfold meta_ok. cbn. split_and!; auto using nul_free_Sha256Hex.
  - unfold is_u64. lia.
  - by eapply row_decision_u64.
Qed.

(** A write that fails before its metadata is committed. *)
Lemma pwp_put_failed v s g fs db :
  decision = inr (inr v) → st_code s = kIoError → ms_rows db !! key = c0.1 →
  fs !! ObjectPath root key = c0.2 ∨ fs !! ObjectPath root key = Some data →
  pwp_put (Done (FromStatus s)) put_post g fs db.
Proof.
  intros Hv Hs Er Ef. cbn [pwp]. intros fs' db' [R F _ _]. split.
  - right. rewrite Hv. right. exists s. unfold cell_of. cbn [fst snd]. by rewrite R, F.
  - intros _. left. by exists s.
Qed.

Lemma pwp_put_done m v g fs db :
  decision = inr (inr v) → new_meta key data v m → om_request_id m = request_id →
  ms_rows db !! key = Some m → fs !! ObjectPath root key = Some data →
  (¬ may_fail S → ∀ b, g_log g ≠ LBegun b) → pwp_put (Done (FromValue m)) put_post g fs db.
Proof.
  intros Hv Hm Hid Er Ef Hg. cbn [pwp]. intros fs' db' [R F _ _]. split.
  - right. rewrite Hv. left. exists m. unfold cell_of. by rewrite R, F, Er, Ef.
  - intros Hns. right. auto.
Qed.

Lemma pwp_DoPut_commit v fs db :
  decision = inr (inr v) → cell_of root fs db key = c0 →
  pwp_put (DoPut_commit_steps getpid root key data v request_id) put_post ghost_new fs db.
Proof.
  intros Hv Ec. pose proof (f_equal fst Ec) as Er. pose proof (f_equal snd Ec) as Ef. cbn [fst snd cell_of] in Er, Ef.
  unfold DoPut_commit_steps. cbv zeta. cbn [om_checksum om_size].
  assert (∀ row file, row = c0.1 → file = c0.2 → phase LIdle row file) as HIdle.
  { intros row file -> ->. by destruct c0. }
  apply pwp_time; [cbn; auto|]. intros t Ht. apply pwp_seq; [done|cbn; auto|]. intros seq.
  set (meta := mkObjectMetadata key (Zlen data) (Sha256Hex data) v t false request_id).
  set (b := mkWalRecord seq false kPut key v (Sha256Hex data) (Zlen data)).
  assert (∀ row file, put_between key data v c0 (row, file) → phase (LBegun b) row file) as HBegun.
  { intros row file Hb. exists v, seq. done. }
  apply (pwp_append _ _ _ _ _ _ _ _ (mkGhost None (Some seq) (LBegun b))); cbn [g_log g_tmp g_seq ghost_new].
  { by apply appends_begin. }
  { auto. }
  { apply HBegun. left. cbn [fst snd]. auto. }
  2:{ intros _ s Hs Hc. rewrite Hs. cbn [negb]. by eapply pwp_put_failed; eauto. }
  change (negb (st_ok Ok)) with false. cbv iota. apply pwp_bind.
  eapply pwp_mono; [|apply pwp_WriteFileAtomic; cbn [g_log g_tmp]; [done|done|..]].
  2:{ apply HBegun. left. cbn [fst snd]. auto. }
  2:{ apply HBegun. left. cbn [fst snd]. auto. }
  cbv beta. intros w g' fs1 db1 (Hsq & Hlg & Hrow & Hw). cbn [g_seq g_log] in Hsq, Hlg. rewrite Er in Hrow.
  destruct Hw as [[-> Hfile]|(Hok & Hc & Hfile)].
  2:{ rewrite Hok. cbn [negb]. eapply pwp_put_failed; eauto. by rewrite Ef in Hfile. }
  change (negb (st_ok Ok)) with false. cbv iota.
  apply pwp_db; rewrite Hlg, Hfile.
  { apply HBegun. left. cbn [fst snd]. auto. }
  intros db2 c db3 Hi2 Er2 Hput. rewrite Hrow in Er2.
  apply ms_Put_law in Hput as [Hi3 Hput]; [|done|by apply put_meta_ok].
  destruct Hput as [[-> Er3]|[Hc Er3]].
  2:{ assert (st_ok c = false) as Hok by (unfold st_ok; by rewrite Hc). rewrite Hok, Er3, Er2. cbn [negb].
      split_and!; try done.
      - apply HBegun. left. cbn [fst snd]. auto.
      - eapply pwp_put_failed; eauto. by rewrite Er3. }
  assert (ms_rows db3 !! key = Some meta) as Hmeta by (rewrite Er3; apply lookup_insert_eq).
  assert (new_meta key data v meta) as Hnew by done.
  rewrite Hmeta. split_and!; [done|intros; rewrite Er3; by apply lookup_insert_ne|done| |].
  { apply HBegun. right. by exists meta. }
  change (negb (st_ok Ok)) with false. cbv iota.
  change (mkWalRecord seq true kPut [] 0 [] 0) with (mkWalRecord (wr_seq b) true kPut [] 0 [] 0).
  apply (pwp_append _ _ _ _ _ _ _ _ (mkGhost (g_tmp g') (g_seq g') LClosed)); rewrite ?Hlg, ?Hmeta, ?Hfile; cbn [g_log].
  { by apply appends_commit. }
  { apply HBegun. right. by exists meta. }
  { by exists v, meta. }
  - by eapply pwp_put_done.
  - intros Hfail s Hs Hc. by eapply pwp_put_done.
Qed.

Lemma pwp_put_unchanged r fs db :
  cell_of root fs db key = c0 → spec r c0 → pwp_put (Done r) put_post ghost_new fs db.
Proof.
  intros Ec Hr. cbn [pwp]. intros fs' db' [R F _ _]. split; [|by intros _; right].
  unfold cell_of in *. by rewrite R, F, Ec.
Qed.

Lemma pwp_DoPut fs db :
  cell_of root fs db key = c0 →
  pwp_put (DoPut_steps getpid root key data explicit conditional expected request_id) put_post ghost_new fs db.
Proof.
  intros Ec. pose proof (f_equal fst Ec) as Er. cbn [fst cell_of] in Er. unfold DoPut_steps.
  assert (phase LIdle (ms_rows db !! key) (fs !! ObjectPath root key)) as HI by done.
  apply pwp_db; [done|]. intros db1 peek db2 Hi1 Er1 Hpeek.
  apply ms_Peek_law in Hpeek as (Hi2 & Er2 & Hpeek); [|done..]. rewrite Er2, Er1 in *.
  split_and!; try done. assert (cell_of root fs db2 key = c0) as Ec2.
  { unfold cell_of. by rewrite Er2, Er1. }
  assert (∀ current, decision = inr (DoPut_version key current explicit conditional expected) →
    pwp_put match DoPut_version key current explicit conditional expected with
            | inl s => Done (FromStatus s)
            | inr version => DoPut_commit_steps getpid root key data version request_id
            end put_post ghost_new fs db2) as Hgo.
  { intros current E. destruct (DoPut_version _ _ _ _ _) as [s|v].
    - apply pwp_put_unchanged; [done|]. right. by rewrite E.
    - by apply pwp_DoPut_commit. }
  unfold row_decision in Hgo. destruct peek as [s|m].
  - destruct (bool_decide (st_code s = kNotFound)) eqn:Hs; prop_bool.
    + destruct Hpeek as [[_ E]|E]; [|by unfold backend_error in E; congruence].
      apply Hgo. by rewrite <-Er, E.
    + destruct Hpeek as [[E _]|E]; [done|]. apply pwp_put_unchanged; [done|]. left. by exists s.
  - destruct (bool_decide (request_id ≠ []) && _) eqn:Hid.
    + apply pwp_put_unchanged; [done|]. right. unfold row_decision. by rewrite <-Er, Hpeek, Hid.
    + apply Hgo. by rewrite <-Er, Hpeek, Hid.
Qed.
End write.

(** *** Deletions *)

Definition delete_reply (key : bytes) (changes : Z) : Status :=
  if changes =? 0 then NotFound (lit "no such key: " ++ key) else Ok.

Lemma wp_Changes key Q C fs db :
  Q (delete_reply key (sqlite3_changes db)) fs db → wp S (Changes_step key) Q C fs db.
Proof. with_strategy transparent [wp] unfold wp. intros HQ w <- <- Hw. by split. Qed.

Lemma pwp_Changes {A : Type} mode key I (k : Status → prog DB A) Q g fs db :
  I (g_log g) (ms_rows db !! key) (fs !! ObjectPath root key) →
  (∀ n, (quiet → n = sqlite3_changes db) →
     pwp S getpid root quiet mode key I (k (delete_reply key n)) Q g fs db) →
  pwp S getpid root quiet mode key I (Act (call (Changes_step key)) k) Q g fs db.
Proof.
  intros HI Hk. cbn [pwp]. intros st1 fs1 db1 Hsh Hv Hr. unfold call. apply wp_bind, wp_Changes.
  apply wp_ret. split; [done|]. exists g. split; [by apply step_ok_files|].
  split; [by eapply view_I|]. eapply pwp_stable; [done|]. apply Hk. apply Hv.
Qed.

(** What the deletion reports of the row it found. *)
Lemma delete_reply_spec key n (c0 c' : cell) :
  c' = (tombstone <$> c0.1, c0.2) →
  (quiet → n = 0 ↔ ∀ m, c0.1 = Some m → om_deleted m = true) →
  delete_spec quiet c0 (delete_reply key n) c'.
Proof.
  intros -> Hn. split; [done|]. right. unfold delete_reply.
  split; [case_match; auto|]. split; [done|]. intros Hq. specialize (Hn Hq).
  destruct (Z.eqb_spec n 0) as [E|E].
  - split; [done|]. intros (m & Em & Hd). rewrite (proj1 Hn E m Em) in Hd. done.
  - split; [|done]. intros _. destruct c0.1 as [m|]; [|by destruct E; apply Hn].
    exists m. split; [done|]. destruct (om_deleted m) eqn:Ed; [|done]. destruct E. apply Hn. by intros m' [= <-].
Qed.

Lemma pwp_Delete key c0 fs db :
  nul_free key → cell_of root fs db key = c0 →
  pwp S getpid root quiet Exclusive key (req_phase (RDelete key) c0) (Delete_steps key)
    (λ s g' fs' db', delete_spec quiet c0 s (cell_of root fs' db' key)) ghost_new fs db.
Proof.
  intros Hk Ec. set (I := req_phase (RDelete key) c0).
  pose proof (f_equal fst Ec) as Er. pose proof (f_equal snd Ec) as Ef. cbn [fst snd cell_of] in Er, Ef.
  assert (∀ ph, delete_log key ph → I ph (ms_rows db !! key) (fs !! ObjectPath root key)) as HI.
  { intros ph. unfold I. cbn. auto. }
  assert (∀ s g db', delete_spec quiet c0 s (cell_of root fs db' key) →
    pwp S getpid root quiet Exclusive key I (Done s)
      (λ s g' fs' db', delete_spec quiet c0 s (cell_of root fs' db' key)) g fs db') as Hdone.
  { intros s g db' Hs. cbn [pwp]. intros fs2 db2 [R F _ _]. unfold cell_of in *. by rewrite R, F. }
  unfold Delete_steps. apply pwp_seq; [done|by apply HI|]. intros seq.
  set (b := mkWalRecord seq false kDelete key 0 [] 0).
  apply (pwp_append _ _ _ _ _ _ _ _ (mkGhost None (Some seq) (LBegun b))); [by apply appends_begin|by apply HI|by apply HI|..].
  2:{ intros _ s Hs Hc. rewrite Hs. cbn [negb]. apply Hdone. split; [done|]. left. cbn. auto. }
  change (negb (st_ok Ok)) with false. cbv iota. apply pwp_bind. unfold ms_Delete_steps.
  apply pwp_db; [by apply HI|]. intros db1 r db2 Hi1 Er1 Hd. rewrite Er in Er1.
  apply DeleteRow_law in Hd as (Hi2 & Hoth & Hr); [|done..]. rewrite Er1 in Hr.
  assert (∀ s g, delete_spec quiet c0 s (cell_of root fs db2 key) →
    (∀ ph, delete_log key ph → I ph (ms_rows db2 !! key) (fs !! ObjectPath root key)) →
    g_log g = LBegun b → g_seq g = Some seq →
    pwp S getpid root quiet Exclusive key I
      (if negb (st_ok s) then Done s
       else do! _ := Append_step (mkWalRecord seq true kPut [] 0 [] 0) in Done s)
      (λ s g' fs' db', delete_spec quiet c0 s (cell_of root fs' db' key)) g fs db2) as Hrest.
  { intros s g Hs HI2 Hl Hq. destruct (negb (st_ok s)); [by apply Hdone|].
    apply (pwp_append _ _ _ _ _ _ _ _ (mkGhost (g_tmp g) (g_seq g) LClosed)); rewrite ?Hl; auto.
    - by apply (appends_commit g b).
    - by apply HI2.
    - by apply HI2. }
  split; [done|]. split; [done|]. split; [done|]. destruct r as [s|].
  - destruct Hr as [Hc Hr].
    assert (∀ ph, delete_log key ph → I ph (ms_rows db2 !! key) (fs !! ObjectPath root key)) as HI2.
    { intros ph Hph. split; [done|]. auto. }
    split; [by apply HI2|]. cbn [pbind pwp]. intros fs' db' Hv. eapply pwp_stable; [done|].
    apply Hrest; auto. split; [done|]. unfold cell_of. cbn [fst]. auto.
  - destruct Hr as [Hr Hn].
    assert (∀ ph, delete_log key ph → I ph (ms_rows db2 !! key) (fs !! ObjectPath root key)) as HI2.
    { intros ph Hph. split; auto. }
    split; [by apply HI2|]. apply pwp_Changes; [by apply HI2|]. intros n Hq.
    cbn [pwp]. intros fs' db' Hv. eapply pwp_stable; [done|].
    apply Hrest; auto. apply delete_reply_spec; [unfold cell_of; by rewrite Hr, Ef|]. intros HQ. by rewrite Hq.
Qed.
End operations.

(** *** Requests *)

Section requests.
Context {DB : Type} `{SqliteLaws DB}.
Variable (S : outcome → Prop) (getpid : Z) (root : path) (exact : Prop).
Implicit Types (fs : gmap path bytes) (db : DB) (g : ghost).

(** Only a deletion asks for the number of rows changed. *)
Definition watches (req : Request) : Prop := match req with RDelete _ => exact | _ => False end.

Definition reply_failed (a : Reply) : Prop :=
  match a with
  | AMeta r => io_failed r
  | ABytes r => io_failed r
  | AStatus s => st_code s = kIoError
  end.

Definition req_post (req : Request) (c0 : cell) (a : Reply) g fs db : Prop :=
  req_spec S exact req c0 a (cell_of root fs db (req_key req)) ∧
  ((∀ k, req ≠ RDelete k) → log_closed S (reply_failed a) g).

Lemma req_phase_start req c0 : req_phase req c0 LIdle c0.1 c0.2.
Proof. destruct c0, req; cbn; auto. Qed.

Lemma pwp_post {A : Type} quiet mode key I (p : prog DB A) (f : A → Reply) Q Q' g fs db :
  pwp S getpid root quiet mode key I p Q g fs db →
  (∀ x g fs db, Q x g fs db → Q' (f x) g fs db) →
  (∀ x g fs db fs' db', same_view getpid root quiet key g fs db fs' db' → Q' x g fs db → Q' x g fs' db') →
  pwp S getpid root quiet mode key I (pbind p (λ x, Done (f x))) Q' g fs db.
Proof.
  intros Hp HQ Hst. apply pwp_bind. eapply pwp_mono; [|done]. cbv beta. cbn [pwp]. eauto.
Qed.

Lemma pwp_request req fs db :
  request_ok req → refused req = None →
  pwp S getpid root (watches req) (req_mode req) (req_key req) (req_phase req (cell_of root fs db (req_key req)))
    (req_steps getpid root req) (req_post req (cell_of root fs db (req_key req))) ghost_new fs db.
Proof.
  intros (Hk & _ & Hok) Href. unfold req_post, req_spec. rewrite Href.
  assert (∀ key quiet fs db g fs' db', same_view getpid root quiet key g fs db fs' db' →
    cell_of root fs' db' key = cell_of root fs db key) as Hv.
  { intros key quiet fs1 db1 g fs2 db2 [R F _ _]. unfold cell_of. by rewrite R, F. }
  destruct req as [key data|key data version|key data expected rid|key|key|key]; cbn [req_key req_mode req_steps] in *;
    (eapply pwp_post; [first [by apply pwp_DoPut|apply pwp_Get; [done|apply (req_phase_start (RGet key))]
      |apply pwp_Head; [done|apply (req_phase_start (RHead key))]|by apply pwp_Delete]|..]);
    cbv beta; try (intros ? ? ? ? ? ? Hsv; by rewrite (Hv _ _ _ _ _ _ _ Hsv)).
  1-3: by intros r g fs' db' [Hs Hl].
  1-2: intros r g fs' db' (-> & Hs & Ec); (split; [done|]); intros _ _; by right.
  intros r g fs' db' Hs. split; [done|]. intros Hn. by specialize (Hn key).
Qed.
End requests.
