(* ===== verification/StoreLinear.v ===== *)
(** * Concurrent calls of the object store are linearizable

    However the calls of a pool of threads are interleaved, and whatever fails,
    each call behaves as its sequential specification says, one after the other
    in the order they return.  The locks keep the views of the threads apart: two
    calls on one key run together only if both are reads, and the staging files
    have different names. *)

From stdpp Require Import base functions gmap list.
From Stdlib Require Import ZArith Lia.
From S2P Require Import Prelude Status Wire Framing Posix IoLogic Wal Sha256 MetadataStore.
From S2P Require Import LocalObjectStore StoreRecovery StoreProps StoreThreads StoreView.

Local Open Scope Z_scope.

Section threads.
Context {DB : Type} `{SqliteLaws DB}.
Variable (S : outcome → Prop) (getpid : Z) (root : path) (hash : bytes → Z).
Implicit Types (c : Config (DB := DB)) (g : nat → ghost).

Notation shard := (ShardFor hash).
Notation c_files c := (w_files (c_world c)).
Notation c_db c := (w_db (c_world c)).

Definition inside c (i : nat) (req : Request) (p : prog DB Reply) : Prop :=
  c_threads c !! i = Some (Inside req p).

(** ** The lock table *)

(** The lock a thread holds. *)
Definition thread_lock (t : Thread (DB := DB)) : option (nat * Mode) :=
  match t with Inside req _ => Some (shard (req_key req), req_mode req) | _ => None end.

Definition lock_of c (i : nat) : option (nat * Mode) := c_threads c !! i ≫= thread_lock.

(** A mutex records the threads that hold it, and no reader while it has a
    writer. *)
Record mutex_ok (holds : nat → option (nat * Mode)) (s : nat) (m : SharedMutex) : Prop := {
  mo_writer i : sm_writer m = Some i ↔ holds i = Some (s, Exclusive);
  mo_readers i : i ∈ sm_readers m ↔ holds i = Some (s, Shared);
  mo_exclusive : is_Some (sm_writer m) → sm_readers m = ∅;
}.

Definition LockInv c : Prop :=
  length (c_shards c) = kNumShards ∧ ∀ s m, c_shards c !! s = Some m → mutex_ok (lock_of c) s m.

Lemma shard_lookup c key : LockInv c → ∃ m, c_shards c !! shard key = Some m ∧ mutex_ok (lock_of c) (shard key) m.
Proof.
  intros [Hlen HL]. destruct (lookup_lt_is_Some_2 (c_shards c) (shard key)) as [m Em].
  { rewrite Hlen. apply ShardFor_bound. }
  eauto.
Qed.

Lemma inside_lock c i req p : inside c i req p → lock_of c i = Some (shard (req_key req), req_mode req).
Proof. unfold inside, lock_of. by intros ->. Qed.

(** Two calls on one shard run together only if both are reads. *)
Lemma lock_exclusion c i j req p req' p' :
  LockInv c → inside c i req p → inside c j req' p' → i ≠ j →
  shard (req_key req) = shard (req_key req') → req_mode req = Shared ∧ req_mode req' = Shared.
Proof.
  intros HL Hi%inside_lock Hj%inside_lock Hne Es.
  destruct (shard_lookup c (req_key req) HL) as (m & _ & [Hw Hr Hx]). rewrite <-Es in Hj.
  assert (∀ k, req_mode req = Exclusive ∨ req_mode req' = Exclusive → k ∉ sm_readers m) as Hno.
  { intros k Hk. rewrite Hx; [set_solver|].
    destruct Hk as [E|E]; rewrite E in *; [exists i|exists j]; by apply Hw. }
  destruct (req_mode req) eqn:E1, (req_mode req') eqn:E2; try done.
  - apply Hw in Hi, Hj. congruence.
  - by destruct (Hno j (or_introl eq_refl)); apply Hr.
  - by destruct (Hno i (or_intror eq_refl)); apply Hr.
Qed.

(** Changing one thread. *)
Lemma lock_of_insert c i t t0 shards st w j :
  c_threads c !! i = Some t0 →
  lock_of (mkConfig (<[i := t]> (c_threads c)) shards st w) j =
  if decide (j = i) then thread_lock t else lock_of c j.
Proof.
  intros E. unfold lock_of. cbn [c_threads]. case_decide as Hd.
  - subst j. by rewrite list_lookup_insert_eq by by eapply lookup_lt_Some.
  - by rewrite list_lookup_insert_ne.
Qed.

Lemma lookup_insert_thread (l : list (Thread (DB := DB))) i t t0 j :
  l !! i = Some t0 → <[i := t]> l !! j = if decide (j = i) then Some t else l !! j.
Proof.
  intros E. case_decide as Hd; [subst j; apply list_lookup_insert_eq; by eapply lookup_lt_Some|].
  by apply list_lookup_insert_ne.
Qed.

Lemma inside_insert c i t t0 j req p shards st w :
  c_threads c !! i = Some t0 →
  inside (mkConfig (<[i := t]> (c_threads c)) shards st w) j req p ↔
  (j = i ∧ t = Inside req p) ∨ (j ≠ i ∧ inside c j req p).
Proof.
  intros E. unfold inside. cbn [c_threads]. destruct (decide (j = i)) as [->|Hne].
  - rewrite list_lookup_insert_eq by by eapply lookup_lt_Some. naive_solver.
  - rewrite list_lookup_insert_ne by done. naive_solver.
Qed.

Lemma mutex_ok_ext holds holds' s m :
  (∀ i, holds' i = holds i) → mutex_ok holds s m → mutex_ok holds' s m.
Proof. intros E [? ? ?]. split; intros; rewrite ?E; auto. Qed.

Lemma LockInv_same c i t t0 st w :
  LockInv c → c_threads c !! i = Some t0 → thread_lock t = thread_lock t0 →
  LockInv (mkConfig (<[i := t]> (c_threads c)) (c_shards c) st w).
Proof.
  intros [Hlen HL] Ei Et. split; [done|]. intros s m Em. eapply mutex_ok_ext; [|by apply HL].
  intros j. rewrite (lock_of_insert _ _ _ _ _ _ _ _ Ei). case_decide as Hd; [|done].
  subst j. unfold lock_of. by rewrite Ei.
Qed.

(** Changing the lock of one thread from and to [None]. *)
Lemma LockInv_change c i t t0 s m st w :
  LockInv c → c_threads c !! i = Some t0 →
  (∀ s' mode, thread_lock t0 = Some (s', mode) ∨ thread_lock t = Some (s', mode) → s' = s) →
  mutex_ok (λ j, if decide (j = i) then thread_lock t else lock_of c j) s m →
  LockInv (mkConfig (<[i := t]> (c_threads c)) (<[s := m]> (c_shards c)) st w).
Proof.
  intros [Hlen HL] Ei Hs Hm. split; [by cbn; rewrite length_insert|]. cbn [c_shards].
  intros s' m' [(-> & -> & _)|[Hne Em]]%list_lookup_insert_Some.
  { eapply mutex_ok_ext; [|exact Hm]. intros j. by apply lock_of_insert with (t0 := t0). }
  assert (∀ j mode, lock_of (mkConfig (<[i := t]> (c_threads c)) (<[s := m]> (c_shards c)) st w) j = Some (s', mode) ↔
    lock_of c j = Some (s', mode)) as Hiff.
  { intros j mode. rewrite (lock_of_insert _ _ _ _ _ _ _ _ Ei). case_decide as Hd; [|done]. subst j.
    unfold lock_of. rewrite Ei. cbn. split; intros E; exfalso; apply Hne; symmetry; eauto. }
  destruct (HL _ _ Em) as [Hw Hr Hx]. split; intros; rewrite ?Hiff; auto.
Qed.

Lemma lock_inv_acquire c i req m m' st w p :
  LockInv c → c_threads c !! i = Some (Called req) → c_shards c !! shard (req_key req) = Some m →
  lock (req_mode req) i m = Some m' →
  LockInv (mkConfig (<[i := Inside req p]> (c_threads c)) (<[shard (req_key req) := m']> (c_shards c)) st w).
Proof.
  intros HL Ei Em El. apply (LockInv_change _ _ _ (Called req)); [done|done|..].
  { intros s' mode [?|E]; [done|]. by injection E. }
  destruct HL as [_ HL]. destruct (HL _ _ Em) as [Hw Hr Hx].
  assert (lock_of c i = None) as Hnone by (unfold lock_of; by rewrite Ei). cbn [thread_lock].
  unfold lock in El. destruct (sm_writer m) eqn:Ew; [by destruct (req_mode req)|].
  assert (∀ j, lock_of c j ≠ Some (shard (req_key req), Exclusive)) as HnoW.
  { intros j Hj%Hw. congruence. }
  destruct (req_mode req).
  - case_bool_decide as Hem; [|done]. injection El as <-.
    assert (∀ j, lock_of c j ≠ Some (shard (req_key req), Shared)) as HnoR.
    { intros j Hj%Hr. rewrite Hem in Hj. set_solver. }
    split; cbn [sm_writer sm_readers].
    + intros j. case_decide; [naive_solver|]. split; [naive_solver|]. by intros ?%HnoW.
    + intros j. split; [set_solver|]. case_decide; [done|]. by intros ?%HnoR.
    + done.
  - injection El as <-. split; cbn [sm_writer sm_readers].
    + intros j. split; [done|]. case_decide; [done|]. by intros ?%HnoW.
    + intros j. rewrite elem_of_union, elem_of_singleton, Hr. case_decide; [naive_solver|]. naive_solver.
    + by intros [? ?].
Qed.

Lemma lock_inv_release c i req m st w p a :
  LockInv c → c_threads c !! i = Some (Inside req p) → c_shards c !! shard (req_key req) = Some m →
  LockInv (mkConfig (<[i := Returned req a]> (c_threads c))
             (<[shard (req_key req) := unlock (req_mode req) i m]> (c_shards c)) st w).
Proof.
  intros HL Ei Em. apply (LockInv_change _ _ _ (Inside req p)); [done|done|..].
  { intros s' mode [E|?]; [|done]. by injection E. }
  destruct HL as [_ HL]. destruct (HL _ _ Em) as [Hw Hr Hx]. cbn [thread_lock].
  assert (lock_of c i = Some (shard (req_key req), req_mode req)) as Hi by by apply (inside_lock _ _ _ p).
  unfold unlock. destruct (req_mode req); split; cbn [sm_writer sm_readers].
  - intros j. split; [done|]. case_decide; [done|]. intros Hj%Hw. apply Hw in Hi. congruence.
  - intros j. rewrite Hr. case_decide; [|done]. subst j. by rewrite Hi.
  - by intros [? ?].
  - intros j. rewrite Hw. case_decide; [|done]. subst j. by rewrite Hi.
  - intros j. rewrite elem_of_difference, Hr, elem_of_singleton. case_decide; naive_solver.
  - intros Hs. rewrite (Hx Hs). set_solver.
Qed.

(** ** The invariant of a run *)

Definition thread_req (t : Thread (DB := DB)) : Request :=
  match t with Called req | Inside req _ | Returned req _ => req end.

(** Numbers taken from a counter: different, and below it. *)
Definition numbers_ok (num : nat → option Z) (next : Z) : Prop :=
  0 <= next ∧ (∀ i n, num i = Some n → 0 <= n < next) ∧
  (∀ i j n, num i = Some n → num j = Some n → i = j).

(** The log: what is begun and not committed belongs to a thread. *)
Definition log_ok g (next : Z) (content : bytes) : Prop :=
  ∃ rs, content = log_bytes rs ∧ Forall record_ok rs ∧ Forall (λ r, wr_seq r < next) rs ∧
    (∀ b, b ∈ rs → wr_is_commit b = false → wr_seq b ∉ committed rs → ∃ i, g_log (g i) = LBegun b) ∧
    (∀ i b, g_log (g i) = LBegun b → b ∈ rs ∧ wr_is_commit b = false ∧ g_seq (g i) = Some (wr_seq b)) ∧
    (∀ i n, g_seq (g i) = Some n → g_log (g i) ≠ LClosed → n ∉ committed rs).

Lemma numbers_takes (f : ghost → option Z) g i (gi : ghost) (next next' : Z) :
  numbers_ok (λ j, f (g j)) next → takes (f (g i)) (f gi) next next' → next + 1 < 2 ^ 64 →
  numbers_ok (λ j, f (<[i := gi]> g j)) next' ∧ next <= next' <= next + 1 ∧
  (∀ j n, j ≠ i → f (g j) = Some n → f gi ≠ Some n).
Proof.
  intros (Hz & Hlt & Hinj) Ht Hb.
  assert (next <= next' <= next + 1) as Hn.
  { destruct Ht as [[_ ->]|(_ & _ & ->)]; [lia|]. rewrite u64_small by (unfold is_u64; lia). lia. }
  assert (∀ n, f gi = Some n → f (g i) = Some n ∨ n = next ∧ next < next') as Hnew.
  { intros n Hg. destruct Ht as [[E ->]|(_ & E & ->)]; rewrite E in Hg; [by left|right].
    rewrite u64_small by (unfold is_u64; lia). injection Hg as <-. lia. }
  assert (∀ j n, j ≠ i → f (g j) = Some n → f gi ≠ Some n) as Hdis.
  { intros j n Hj Ej [Ei|[-> _]]%Hnew; [by eapply Hj, Hinj|]. apply Hlt in Ej. lia. }
  split; [|done]. split; [lia|]. split.
  - intros j n. destruct (decide (j = i)) as [->|Hj].
    + rewrite fn_lookup_insert. intros [E|E]%Hnew; [apply Hlt in E|]; lia.
    + rewrite fn_lookup_insert_ne by done. intros E%Hlt. lia.
  - intros j j' n. destruct (decide (j = i)) as [->|Hj], (decide (j' = i)) as [->|Hj'];
      rewrite ?fn_lookup_insert, ?(fn_lookup_insert_ne g i j), ?(fn_lookup_insert_ne g i j') by done; intros E E'.
    + done.
    + by destruct (Hdis _ _ Hj' E').
    + by destruct (Hdis _ _ Hj E).
    + by eapply Hinj.
Qed.

(** Staging files of different threads are different. *)
Lemma owned_disjoint (g1 g2 : ghost) p :
  (∀ n, g_tmp g1 = Some n → 0 <= n) → (∀ n, g_tmp g2 = Some n → 0 <= n) →
  (∀ n, g_tmp g1 = Some n → g_tmp g2 ≠ Some n) → owned getpid root g1 p → ¬ owned getpid root g2 p.
Proof.
  unfold owned. destruct (g_tmp g1) as [n1|], (g_tmp g2) as [n2|]; [|by intros ? ? ? ? []|by intros ? ? ? []..].
  intros H1 H2 Hne [t1 ->] [t2 E]. apply app_inj_2 in E as [_ E]; [|done]. apply (f_equal (hd [])) in E. cbn [hd] in E.
  apply tmp_name_inj in E; [|by apply H1|by apply H2]. subst. by eapply Hne.
Qed.

(** The log after a step of thread [i]. *)
Section log_step.
Variable (g : nat → ghost) (i : nat) (gi : ghost) (next next' : Z) (fs fs' : gmap path bytes) (rs : list WalRecord).
Hypothesis Hnum : numbers_ok (λ j, g_seq (g j)) next.
Hypothesis Htakes : takes (g_seq (g i)) (g_seq gi) next next'.
Hypothesis Hnext : next <= next'.
Hypothesis Hok : Forall record_ok rs.
Hypothesis Hlt : Forall (λ r, wr_seq r < next) rs.
Hypothesis Hpend : ∀ b, b ∈ rs → wr_is_commit b = false → wr_seq b ∉ committed rs → ∃ j, g_log (g j) = LBegun b.
Hypothesis Hbegun : ∀ j b, g_log (g j) = LBegun b →
  b ∈ rs ∧ wr_is_commit b = false ∧ g_seq (g j) = Some (wr_seq b).
Hypothesis Hopen : ∀ j n, g_seq (g j) = Some n → g_log (g j) ≠ LClosed → n ∉ committed rs.

Lemma log_ok_same : g_log gi = g_log (g i) → log_ok (<[i := gi]> g) next' (log_bytes rs).
Proof.
  intros El. exists rs. split; [done|]. split; [done|]. split; [|split; [|split]].
  - eapply Forall_impl; [exact Hlt|]. simpl. lia.
  - intros b Hb Hc Hn. destruct (Hpend b Hb Hc Hn) as [j Hj]. exists j.
    destruct (decide (j = i)) as [->|]; [by rewrite fn_lookup_insert, El|by rewrite fn_lookup_insert_ne].
  - intros j b. destruct (decide (j = i)) as [->|]; [|rewrite fn_lookup_insert_ne by done; apply Hbegun].
    rewrite fn_lookup_insert, El. intros Hb. destruct (Hbegun _ _ Hb) as (? & ? & Es).
    destruct Htakes as [[-> _]|(E & _)]; [done|congruence].
  - intros j n. destruct (decide (j = i)) as [->|]; [|rewrite fn_lookup_insert_ne by done; apply Hopen].
    rewrite fn_lookup_insert, El. destruct Htakes as [[-> _]|(_ & -> & _)]; [apply Hopen|].
    intros [= <-] _. by apply committed_fresh.
Qed.

Lemma log_ok_append b :
  appends (g i) b gi → record_ok b → log_ok (<[i := gi]> g) next' (log_bytes rs ++ record_frame b).
Proof.
  intros Ha Hb. rewrite <-log_bytes_snoc. exists (rs ++ [b]). split; [done|].
  assert (wr_seq b < next) as Hseq.
  { destruct Hnum as (_ & Hn & _). destruct Ha as [b' _ E _|b0 _ E]; apply Hn in E; cbn; lia. }
  split; [by apply Forall_app; split; [|apply Forall_singleton]|]. split.
  { apply Forall_app. split; [|apply Forall_singleton; lia].
    eapply Forall_impl; [exact Hlt|]. simpl. lia. }
  rewrite committed_app. destruct Ha as [b El Es Hc|b0 El Es]; cbn [wr_seq] in *.
  - rewrite committed_begin by done. split; [|split].
    + intros b' [Hin|Heq%list_elem_of_singleton]%elem_of_app Hc' Hn.
      * destruct (Hpend b' Hin Hc') as [j Hj]; [set_solver|]. exists j.
        rewrite fn_lookup_insert_ne; [done|]. intros ->. congruence.
      * subst b'. exists i. by rewrite fn_lookup_insert.
    + intros j b'. destruct (decide (j = i)) as [->|].
      * rewrite fn_lookup_insert. cbn [g_log g_seq]. intros [= <-]. split; [set_solver|]. by rewrite Es.
      * rewrite fn_lookup_insert_ne by done. intros Hj. destruct (Hbegun _ _ Hj) as (? & ? & ?). set_solver.
    + intros j n. destruct (decide (j = i)) as [->|].
      * rewrite fn_lookup_insert. cbn [g_log g_seq]. intros Hq _. rewrite (right_id_L ∅ (∪)).
        apply (Hopen i); [done|]. by rewrite El.
      * rewrite fn_lookup_insert_ne by done. intros Hq Hl. rewrite (right_id_L ∅ (∪)). eauto.
  - rewrite committed_commit by done. cbn [wr_seq]. split; [|split].
    + intros b' [Hin|Heq%list_elem_of_singleton]%elem_of_app Hc' Hn; [|by subst b'].
      destruct (Hpend b' Hin Hc') as [j Hj]; [set_solver|]. exists j.
      rewrite fn_lookup_insert_ne; [done|]. intros ->. rewrite El in Hj. injection Hj as ->. set_solver.
    + intros j b'. destruct (decide (j = i)) as [->|]; [by rewrite fn_lookup_insert|].
      rewrite fn_lookup_insert_ne by done. intros Hj. destruct (Hbegun _ _ Hj) as (? & ? & ?). set_solver.
    + intros j n. destruct (decide (j = i)) as [->|Hj]; [by rewrite fn_lookup_insert|].
      rewrite fn_lookup_insert_ne by done. intros Hq Hl. rewrite elem_of_union, elem_of_singleton.
      intros [Hin| -> ]; [by eapply Hopen|]. destruct Hnum as (_ & _ & Hinj). by apply Hj, (Hinj _ _ _ Hq Es).
Qed.
End log_step.

Lemma log_ok_step g i gi next next' fs fs' content :
  ¬ may_fail S → numbers_ok (λ j, g_seq (g j)) next → takes (g_seq (g i)) (g_seq gi) next next' →
  next <= next' → log_ok g next content → fs !! WalPath root = Some content →
  log_step S root (g i) fs gi fs' → (∀ b, appends (g i) b gi → record_ok b) →
  ∃ content', fs' !! WalPath root = Some content' ∧ log_ok (<[i := gi]> g) next' content'.
Proof.
  intros Hnf Hnum Ht Hn (rs & -> & Hok & Hlt & Hp & Hb & Ho) Hc Hl Hr.
  destruct Hl as [[El ->]|[(b & old & Ha & Hold & ->)|?]]; [| |done].
  - exists (log_bytes rs). split; [done|]. by eapply log_ok_same.
  - assert (old = log_bytes rs) as -> by congruence. eexists. split; [done|].
    eapply log_ok_append; eauto.
Qed.

(** The records a call appends can be encoded. *)
Lemma appends_record_ok req (c0 : option ObjectMetadata * option bytes) (g1 g2 : ghost) b row file :
  request_ok req → req_phase req c0 (g_log g2) row file → appends g1 b g2 →
  (∀ n, g_seq g1 = Some n → is_u64 n) → record_ok b.
Proof.
  intros (Hk & Hlen & Hargs) Hph Ha Hseq.
  destruct Ha as [b El Es Hc|b0 El Es]; cbn [g_log] in Hph.
  2:{ apply Hseq in Es. unfold record_ok. cbn. by split_and!. }
  apply Hseq in Es.
  assert (∀ key data explicit conditional expected rid,
    Zlen key < 2 ^ 32 - 98 → write_args_ok key data explicit rid →
    put_phase key data explicit conditional expected rid c0 (LBegun b) row file → record_ok b) as Hput.
  { intros key data explicit conditional expected rid Hl (Hd & He & _) (v & seq & Hv & -> & _).
    apply row_decision_u64 in Hv; [|done]. unfold record_ok. cbn in *. rewrite length_Sha256Hex by done.
    split_and!; try done; unfold is_u64 in *; lia. }
  destruct req; cbn [req_phase req_key] in *; eauto; [by destruct Hph..|].
  destruct Hph as (_ & _ & Hb). cbn in Hb. rewrite Hb. unfold record_ok. cbn. split_and!; try done. lia.
Qed.

(** ** Deletions and the number of rows changed *)

Definition is_deleting (t : Thread (DB := DB)) : bool :=
  match t with Inside (RDelete _) _ => true | _ => false end.

(** The turn of thread [i] from [c] to [c'] keeps what [sqlite3_changes] answers, or
    no other thread is in a deletion. *)
Definition keeps_count (i : nat) c c' : bool :=
  negb (existsb is_deleting (delete i (c_threads c))) || (sqlite3_changes (c_db c') =? sqlite3_changes (c_db c)).

(** No turn of the schedule changes it while another thread is in a deletion. *)
Fixpoint undisturbed (s : list nat) c : bool :=
  match s with
  | [] => true
  | i :: s =>
      match turn getpid root hash i c with
      | Stepped c' _ => keeps_count i c c' && undisturbed s c'
      | Blocked => undisturbed s c
      | Crashed _ => true
      end
  end.

Lemma keeps_count_inside i c c' j key p :
  keeps_count i c c' = true → j ≠ i → inside c j (RDelete key) p →
  sqlite3_changes (c_db c') = sqlite3_changes (c_db c).
Proof.
  intros Hk Hne Hj. unfold keeps_count in Hk. apply orb_true_iff in Hk as [Hk|Hk]; [|by apply Z.eqb_eq].
  apply negb_true_iff in Hk. rewrite <-not_true_iff_false in Hk. destruct Hk. apply existsb_exists.
  exists (Inside (RDelete key) p). split; [|done]. apply list_elem_of_In.
  destruct (decide (j < i)%nat) as [Hlt|Hge].
  - apply (list_elem_of_lookup_2 _ j). by rewrite list_lookup_delete_lt.
  - apply (list_elem_of_lookup_2 _ (j - 1)). rewrite list_lookup_delete_ge by lia.
    by replace (Datatypes.S (j - 1)) with j by lia.
Qed.

Lemma undisturbed_app c s h c1 s' :
  runs getpid root hash c s h c1 → undisturbed (s ++ s') c = undisturbed s c && undisturbed s' c1.
Proof.
  intros Hr. revert s'. induction Hr as [|s h c1 i c2 h' _ IH Ht]; intros s'; [done|].
  rewrite <-app_assoc, !IH. cbn [app undisturbed]. rewrite Ht. by rewrite andb_true_r, andb_assoc.
Qed.

(** The keys in use: their payloads live in different files. *)
Variable K : bytes → Prop.
Hypothesis HK : ∀ k1 k2, K k1 → K k2 → KeyDigest k1 = KeyDigest k2 → k1 = k2.

(** When the reports of deletions are exact. *)
Variable exact : Prop.

Record Inv c g (cells : bytes → option ObjectMetadata * option bytes) : Prop := {
  iv_locks : LockInv c;
  iv_shared : shared root (c_store c) (c_files c) (c_db c);
  iv_root : los_root (c_store c) = root;
  iv_world : world_ok S (c_world c);
  iv_reqs i t : c_threads c !! i = Some t → request_ok (thread_req t) ∧ K (req_key (thread_req t));
  iv_rows k : is_Some (ms_rows (c_db c) !! k) → K k;
  iv_called i : match c_threads c !! i with Some (Called _) | None => g i = ghost_new | _ => True end;
  iv_closed i req a : ¬ may_fail S → c_threads c !! i = Some (Returned req a) →
    (∀ k, req ≠ RDelete k) → ¬ reply_failed a → ∀ b, g_log (g i) ≠ LBegun b;
  iv_inside i req p : inside c i req p →
    pwp S getpid root (watches exact req) (req_mode req) (req_key req) (req_phase req (cells (req_key req))) p
      (req_post S root exact req (cells (req_key req))) (g i) (c_files c) (c_db c) ∧
    req_phase req (cells (req_key req)) (g_log (g i)) (ms_rows (c_db c) !! req_key req)
      (c_files c !! ObjectPath root (req_key req));
  iv_free k : K k → (∀ i req p, inside c i req p → req_key req = k → req_mode req = Shared) →
    cell_of root (c_files c) (c_db c) k = cells k;
  iv_tmp : numbers_ok (λ i, g_tmp (g i)) (los_counter (c_store c));
  iv_seq : numbers_ok (λ i, g_seq (g i)) (wal_next_seq (los_wal (c_store c)));
  iv_log : ¬ may_fail S → ∃ content, c_files c !! WalPath root = Some content ∧
    log_ok g (wal_next_seq (los_wal (c_store c))) content;
}.

(** What a step of one call leaves of the view of another. *)
Lemma frame_view quiet mode key1 key2 (g1 g2 : ghost) fs db fs' db' :
  K key1 → K key2 → (key1 = key2 → mode = Shared) →
  frame getpid root mode key1 g1 fs db fs' db' →
  (∀ p, owned getpid root g2 p → ¬ owned getpid root g1 p) →
  (quiet → sqlite3_changes db' = sqlite3_changes db) →
  same_view getpid root quiet key2 g2 fs db fs' db'.
Proof.
  intros K1 K2 Hm (Hr & Hf & Hs) Hd Hq. destruct (decide (key2 = key1)) as [->|Hne].
  - destruct (Hs (Hm eq_refl)) as [? ?]. split; [done..| |done]. intros p Hp. apply Hf; [..|by apply Hd].
    + intros ->. by eapply tmp_ne_wal, eq_refl; eapply owned_tmp.
    + intros ->. by eapply tmp_ne_object, eq_refl; eapply owned_tmp.
  - split; [by apply Hr|..|done].
    + apply Hf.
      * apply not_eq_sym, wal_ne_object.
      * intros E%ObjectPath_inj. by apply Hne, HK.
      * intros E. by eapply tmp_ne_object, eq_refl; eapply owned_tmp.
    + intros p Hp. apply Hf; [..|by apply Hd].
      * intros ->. by eapply tmp_ne_wal, eq_refl; eapply owned_tmp.
      * intros ->. by eapply tmp_ne_object, eq_refl; eapply owned_tmp.
Qed.

(** ** The turns keep the invariant *)

Notation store_small c := (los_counter (c_store c) + 1 < 2 ^ 64 ∧ wal_next_seq (los_wal (c_store c)) + 1 < 2 ^ 64).

Section act.
Variable (c : Config (DB := DB)) (g : nat → ghost) (cells : bytes → option ObjectMetadata * option bytes).
Variable (i : nat) (req : Request) (B : Type) (m : Action DB B) (k : B → prog DB Reply).
Hypothesis HI : Inv c g cells.
Hypothesis Hin : inside c i req (Act m k).
Hypothesis Hsmall : store_small c.

Lemma act_reqs : request_ok req ∧ K (req_key req).
Proof. by apply (iv_reqs _ _ _ HI i _ Hin). Qed.

(** The other calls do not see the step. *)
Lemma act_others fs' db' (gi : ghost) st' j req' p' :
  step_ok S getpid root (req_mode req) (req_key req) (g i) (c_store c) (c_files c) (c_db c) gi st' fs' db' →
  j ≠ i → inside c j req' p' → (watches exact req' → sqlite3_changes db' = sqlite3_changes (c_db c)) →
  same_view getpid root (watches exact req') (req_key req') (g j) (c_files c) (c_db c) fs' db'.
Proof.
  intros Hst Hne Hj Hq. destruct (iv_reqs _ _ _ HI j _ Hj) as [_ Kj]. destruct act_reqs as [_ Ki].
  eapply frame_view; [exact Ki|exact Kj| |apply Hst| |exact Hq].
  - intros E. destruct (lock_exclusion c i j _ _ _ _ (iv_locks _ _ _ HI) Hin Hj) as [? _]; [auto|by rewrite E|done].
  - destruct (numbers_takes g_tmp g i gi _ _ (iv_tmp _ _ _ HI) (so_tmp _ _ _ _ _ _ _ _ _ _ _ _ _ Hst))
      as ((_ & Hpos & _) & _ & Hdis); [apply Hsmall|].
    intros p. apply owned_disjoint.
    + intros n Hn. destruct (iv_tmp _ _ _ HI) as (_ & Hp & _). apply Hp in Hn. lia.
    + intros n Hn. apply (Hpos i). by rewrite fn_lookup_insert.
    + intros n Hn. by eapply Hdis.
Qed.

(** Nor does a key without a writer. *)
Lemma act_free fs' db' (gi : ghost) st' key :
  step_ok S getpid root (req_mode req) (req_key req) (g i) (c_store c) (c_files c) (c_db c) gi st' fs' db' →
  K key → (key = req_key req → req_mode req = Shared) →
  cell_of root fs' db' key = cell_of root (c_files c) (c_db c) key.
Proof.
  intros Hst Hk Hm. destruct act_reqs as [_ Ki].
  destruct (frame_view False (req_mode req) (req_key req) key gi ghost_new (c_files c) (c_db c) fs' db') as [R F _ _];
    [done|done|auto|apply Hst|done|done|].
  unfold cell_of. by rewrite R, F.
Qed.

Definition acted (y : B) (st' : LocalObjectStore) (w' : World DB) : Config :=
  mkConfig (<[i := Inside req (k y)]> (c_threads c)) (c_shards c) st' w'.

Lemma Inv_acted y st' w' (gi : ghost) :
  world_ok S w' → los_root st' = root →
  step_ok S getpid root (req_mode req) (req_key req) (g i) (c_store c) (c_files c) (c_db c) gi st'
    (w_files w') (w_db w') →
  req_phase req (cells (req_key req)) (g_log gi) (ms_rows (w_db w') !! req_key req)
    (w_files w' !! ObjectPath root (req_key req)) →
  pwp S getpid root (watches exact req) (req_mode req) (req_key req) (req_phase req (cells (req_key req))) (k y)
    (req_post S root exact req (cells (req_key req))) gi (w_files w') (w_db w') →
  (exact → keeps_count i c (acted y st' w') = true) →
  Inv (acted y st' w') (<[i := gi]> g) cells.
Proof.
  intros Hw Hroot Hst Hph Hp Hkeep. pose proof HI as [HL Hsh _ _ Hreq Hrow Hcal Hclo Hins Hfree Htmp Hseq Hlog].
  destruct (numbers_takes g_tmp g i gi _ _ Htmp (so_tmp _ _ _ _ _ _ _ _ _ _ _ _ _ Hst)) as (Htmp' & _);
    [apply Hsmall|].
  destruct (numbers_takes g_seq g i gi _ _ Hseq (so_seq _ _ _ _ _ _ _ _ _ _ _ _ _ Hst)) as (Hseq' & Hn & _);
    [apply Hsmall|].
  pose proof (λ j req' p', inside_insert c i (Inside req (k y)) _ j req' p' (c_shards c) st' w' Hin) as Hiff.
  split; cbn [acted c_store c_world c_threads]; try done.
  - eapply LockInv_same; [done|exact Hin|done].
  - apply Hst.
  - intros j t [(<- & <- & _)|[Hne Hj]]%list_lookup_insert_Some; [|by eapply Hreq].
    by apply (Hreq i _ Hin).
  - intros key. destruct (decide (key = req_key req)) as [->|Hne]; [intros _; apply act_reqs|].
    destruct (so_frame _ _ _ _ _ _ _ _ _ _ _ _ _ Hst) as (Hr & _). rewrite Hr by done. apply Hrow.
  - intros j. rewrite (lookup_insert_thread _ _ _ _ _ Hin). case_decide; [done|].
    rewrite fn_lookup_insert_ne by done. apply Hcal.
  - intros j req' a Hnf. rewrite (lookup_insert_thread _ _ _ _ _ Hin). case_decide; [done|].
    rewrite fn_lookup_insert_ne by done. by apply Hclo.
  - intros j req' p' [[-> [= <- <-]]|[Hne Hj]]%Hiff; [by rewrite fn_lookup_insert|].
    rewrite fn_lookup_insert_ne by done. destruct (Hins _ _ _ Hj) as [Hpj Hphj].
    assert (watches exact req' → sqlite3_changes (w_db w') = sqlite3_changes (c_db c)) as Hq.
    { destruct req' as [| | | | |key']; try done. intros Hx.
      exact (keeps_count_inside i c (acted y st' w') j key' p' (Hkeep Hx) Hne Hj). }
    pose proof (act_others _ _ _ _ _ _ _ Hst Hne Hj Hq) as Hv.
    split; [by eapply pwp_stable|by eapply view_I].
  - intros key Hk Hsha. rewrite <-Hfree; [|done|].
    + eapply act_free; [done|done|]. intros ->. eapply Hsha; [|done]. apply Hiff. by left.
    + intros j req' p' Hj E. destruct (decide (j = i)) as [->|Hne].
      * unfold inside in Hj, Hin. rewrite Hin in Hj. injection Hj as <- _.
        eapply Hsha; [|done]. apply Hiff. by left.
      * eapply Hsha; [|done]. apply Hiff. by right.
  - intros Hnf. destruct (Hlog Hnf) as (content & Ec & Hlo).
    eapply log_ok_step; [done|exact Hseq|apply Hst|lia|done|done|apply Hst|].
    intros b Hb. eapply appends_record_ok; [apply act_reqs|done|done|].
    intros n Hn'. destruct Hseq as (_ & Hs & _). apply Hs in Hn'. unfold is_u64. lia.
Qed.

Lemma Inv_act y st' w' :
  m (c_store c) (c_world c) = (Some (y, st'), w') → (exact → keeps_count i c (acted y st' w') = true) →
  ∃ gi, Inv (acted y st' w') (<[i := gi]> g) cells ∧
    los_counter st' <= los_counter (c_store c) + 1 ∧
    wal_next_seq (los_wal st') <= wal_next_seq (los_wal (c_store c)) + 1.
Proof.
  intros Em Hkeep. destruct (iv_inside _ _ _ HI _ _ _ Hin) as [Hp _]. cbn [pwp] in Hp.
  specialize (Hp _ _ _ (iv_shared _ _ _ HI) (same_view_refl _ _ _ _ _ _ _) (iv_root _ _ _ HI)).
  eapply wp_elim in Em as [Hw HX]; [|exact Hp|apply HI].
  destruct HX as (Hr & gi & Hst & Hph & Hk).
  exists gi. split; [by apply Inv_acted|].
  destruct (numbers_takes g_tmp g i gi _ _ (iv_tmp _ _ _ HI) (so_tmp _ _ _ _ _ _ _ _ _ _ _ _ _ Hst)) as (_ & ? & _);
    [apply Hsmall|].
  destruct (numbers_takes g_seq g i gi _ _ (iv_seq _ _ _ HI) (so_seq _ _ _ _ _ _ _ _ _ _ _ _ _ Hst)) as (_ & ? & _);
    [apply Hsmall|]. cbn [fst snd] in *. lia.
Qed.

(** The process dies in the step. *)
Lemma Inv_crash w' :
  m (c_store c) (c_world c) = (None, w') →
  crash_ok getpid root (req_mode req) (req_key req) (req_phase req (cells (req_key req))) (g i)
    (c_files c) (c_db c) (w_files w') (w_db w').
Proof.
  intros Em. destruct (iv_inside _ _ _ HI _ _ _ Hin) as [Hp _]. cbn [pwp] in Hp.
  specialize (Hp _ _ _ (iv_shared _ _ _ HI) (same_view_refl _ _ _ _ _ _ _) (iv_root _ _ _ HI)).
  by eapply wp_elim in Em as [_ Hc]; [|exact Hp|apply HI].
Qed.
End act.

Lemma Inv_refuse c g cells i req a :
  Inv c g cells → c_threads c !! i = Some (Called req) →
  Inv (mkConfig (<[i := Returned req a]> (c_threads c)) (c_shards c) (c_store c) (c_world c)) g cells.
Proof.
  intros [HL Hsh Hro Hw Hreq Hrow Hcal Hclo Hins Hfree Htmp Hseq Hlog] Ei.
  pose proof (λ j req' p', inside_insert c i (Returned req a) _ j req' p' (c_shards c) (c_store c) (c_world c) Ei) as Hiff.
  split; cbn [c_store c_world c_threads]; try done.
  - by eapply LockInv_same.
  - intros j t [(<- & <- & _)|[Hne Hj]]%list_lookup_insert_Some; [by apply (Hreq i _ Ei)|by eapply Hreq].
  - intros j. rewrite (lookup_insert_thread _ _ _ _ _ Ei). case_decide; [done|apply Hcal].
  - intros j req' a' Hnf. rewrite (lookup_insert_thread _ _ _ _ _ Ei). case_decide; [|by apply Hclo].
    subst j. specialize (Hcal i). rewrite Ei in Hcal. by rewrite Hcal.
  - intros j req' p' [[_ ?]|[_ Hj]]%Hiff; [done|by apply Hins].
  - intros key Hk Hsha. apply Hfree; [done|]. intros j req' p' Hj. apply (Hsha j req' p'), Hiff.
    right. split; [|done]. intros ->. unfold inside in Hj. congruence.
Qed.

Lemma Inv_acquire c g cells i req m m' :
  Inv c g cells → c_threads c !! i = Some (Called req) → refused req = None →
  c_shards c !! shard (req_key req) = Some m → lock (req_mode req) i m = Some m' →
  Inv (mkConfig (<[i := Inside req (req_steps getpid root req)]> (c_threads c))
         (<[shard (req_key req) := m']> (c_shards c)) (c_store c) (c_world c)) g cells.
Proof.
  intros [HL Hsh Hro Hw Hreq Hrow Hcal Hclo Hins Hfree Htmp Hseq Hlog] Ei Href Em El.
  set (c' := mkConfig _ _ _ _).
  assert (LockInv c') as HL' by by eapply lock_inv_acquire.
  pose proof (λ j req' p', inside_insert c i (Inside req (req_steps getpid root req)) _ j req' p'
    (<[shard (req_key req) := m']> (c_shards c)) (c_store c) (c_world c) Ei) as Hiff. fold c' in Hiff.
  destruct (Hreq i _ Ei) as [Hok Hk]. cbn [thread_req] in Hok, Hk.
  assert (inside c' i req (req_steps getpid root req)) as Hi by (apply Hiff; by left).
  assert (cell_of root (c_files c) (c_db c) (req_key req) = cells (req_key req)) as Hcell.
  { apply Hfree; [done|]. intros j req' p' Hj E.
    assert (j ≠ i) as Hne by (intros ->; unfold inside in Hj; congruence).
    destruct (lock_exclusion c' i j _ _ _ _ HL' Hi (proj2 (Hiff j req' p') (or_intror (conj Hne Hj)))) as [_ ?];
      [auto|by rewrite E|done]. }
  split; cbn [c' c_store c_world c_threads]; try done.
  - intros j t [(<- & <- & _)|[Hne Hj]]%list_lookup_insert_Some; [done|by eapply Hreq].
  - intros j. rewrite (lookup_insert_thread _ _ _ _ _ Ei). case_decide; [done|apply Hcal].
  - intros j req' a Hnf. rewrite (lookup_insert_thread _ _ _ _ _ Ei). case_decide; [done|by apply Hclo].
  - intros j req' p' [[-> [= <- <-]]|[Hne Hj]]%Hiff; [|by apply Hins].
    specialize (Hcal i). rewrite Ei in Hcal. rewrite Hcal, <-Hcell. split; [by apply pwp_request|].
    apply (req_phase_start req (cell_of root (c_files c) (c_db c) (req_key req))).
  - intros key Hkey Hsha. apply Hfree; [done|]. intros j req' p' Hj. apply (Hsha j req' p'), Hiff.
    right. split; [|done]. intros ->. unfold inside in Hj. congruence.
Qed.

Lemma req_spec_shared req (c0 c1 : option ObjectMetadata * option bytes) a : req_mode req = Shared → req_spec S exact req c0 a c1 → c1 = c0.
Proof. destruct req; try done; intros _; unfold req_spec; cbn [refused]; destruct a; try done; by intros [_ ?]. Qed.

Lemma Inv_return c g cells i req a m :
  Inv c g cells → inside c i req (Done a) → c_shards c !! shard (req_key req) = Some m →
  let cells' := <[req_key req := cell_of root (c_files c) (c_db c) (req_key req)]> cells in
  req_spec S exact req (cells (req_key req)) a (cells' (req_key req)) ∧
  ((∀ k, req ≠ RDelete k) → log_closed S (reply_failed a) (g i)) ∧
  Inv (mkConfig (<[i := Returned req a]> (c_threads c))
         (<[shard (req_key req) := unlock (req_mode req) i m]> (c_shards c)) (c_store c) (c_world c)) g cells'.
Proof.
  intros [HL Hsh Hro Hw Hreq Hrow Hcal Hclo Hins Hfree Htmp Hseq Hlog] Hi Em cells'.
  destruct (Hins _ _ _ Hi) as [Hp _]. cbn [pwp] in Hp.
  destruct (Hp _ _ (same_view_refl _ _ _ _ _ _ _)) as [Hspec Hclosed].
  unfold cells' at 1. rewrite fn_lookup_insert. split; [done|]. split; [done|].
  pose proof (λ j req' p', inside_insert c i (Returned req a) _ j req' p'
    (<[shard (req_key req) := unlock (req_mode req) i m]> (c_shards c)) (c_store c) (c_world c) Hi) as Hiff.
  assert (∀ j req' p', j ≠ i → inside c j req' p' → cells' (req_key req') = cells (req_key req')) as Hsame.
  { intros j req' p' Hne Hj. unfold cells'. destruct (decide (req_key req' = req_key req)) as [E|E].
    - rewrite E, fn_lookup_insert. apply (req_spec_shared req _ _ a); [|exact Hspec].
      by destruct (lock_exclusion c i j _ _ _ _ HL Hi Hj) as [? _]; [auto|rewrite E|].
    - by rewrite fn_lookup_insert_ne. }
  split; cbn [c_store c_world c_threads]; try done.
  - by eapply lock_inv_release.
  - intros j t [(<- & <- & _)|[Hne Hj]]%list_lookup_insert_Some; [by eapply (Hreq i _ Hi)|by eapply Hreq].
  - intros j. rewrite (lookup_insert_thread _ _ _ _ _ Hi). case_decide; [done|apply Hcal].
  - intros j req' a' Hnf. rewrite (lookup_insert_thread _ _ _ _ _ Hi). case_decide; [|by apply Hclo].
    subst j. intros [= <- <-] Hd Hf. by destruct (Hclosed Hd Hnf).
  - intros j req' p' [[_ ?]|[Hne Hj]]%Hiff; [done|]. rewrite (Hsame _ _ _ Hne Hj). by apply Hins.
  - intros key Hk Hsha. unfold cells'. destruct (decide (key = req_key req)) as [->|E].
    + by rewrite fn_lookup_insert.
    + rewrite fn_lookup_insert_ne by done. apply Hfree; [done|]. intros j req' p' Hj Ek.
      apply (Hsha j req' p'); [|done]. apply Hiff. right. split; [|done].
      intros ->. unfold inside in *. congruence.
Qed.

(** Every turn keeps the invariant, and the calls that return are specified. *)
Lemma Inv_turn c g cells i c' h :
  Inv c g cells → store_small c → turn getpid root hash i c = Stepped c' h →
  (exact → keeps_count i c c' = true) →
  ∃ g' cells', Inv c' g' cells' ∧
    los_counter (c_store c') <= los_counter (c_store c) + 1 ∧
    wal_next_seq (los_wal (c_store c')) <= wal_next_seq (los_wal (c_store c)) + 1 ∧
    ((h = [] ∧ cells' = cells) ∨
     ∃ req a, h = [(req, a)] ∧ req_spec S exact req (cells (req_key req)) a (cells' (req_key req)) ∧
       (∀ k, k ≠ req_key req → cells' k = cells k)).
Proof.
  intros HI Hsmall. unfold turn, set_thread, set_shard. cbn [c_threads c_shards c_store c_world].
  destruct (c_threads c !! i) as [[req|req [a|B m k]|req a]|] eqn:Ei; try done.
  - destruct (refused req) as [a|] eqn:Href.
    + intros [= <- <-] _. exists g, cells. split; [by eapply Inv_refuse|]. cbn. split_and!; [lia..|].
      right. exists req, a. unfold req_spec. rewrite Href. done.
    + destruct (c_shards c !! shard (req_key req)) as [m|] eqn:Em; cbn; [|done].
      destruct (lock (req_mode req) i m) as [m'|] eqn:El; [|done]. intros [= <- <-] _.
      exists g, cells. split; [by eapply Inv_acquire|]. cbn. split_and!; [lia..|by left].
  - intros [= <- <-] _. destruct (shard_lookup c (req_key req) (iv_locks _ _ _ HI)) as (m & Em & _).
    rewrite Em. cbn [default].
    destruct (Inv_return c g cells i req a m HI Ei Em) as (Hspec & _ & HI').
    exists g, (<[req_key req := cell_of root (c_files c) (c_db c) (req_key req)]> cells).
    split; [exact HI'|]. cbn. split_and!; [lia..|]. right. exists req, a. split_and!; [done|done|].
    intros k Hk. by rewrite fn_lookup_insert_ne.
  - destruct (m (c_store c) (c_world c)) as [[[y st']|] w'] eqn:Em; [|done]. intros [= <- <-] Hkeep.
    destruct (Inv_act c g cells i req B m k HI Ei Hsmall y st' w' Em Hkeep) as (gi & HI' & ? & ?).
    exists (<[i := gi]> g), cells. split; [done|]. cbn. split_and!; [done..|by left].
Qed.

(** ** Runs *)

(** The calls start on a store in order, with arguments it can represent. *)
Record calls_ready (reqs : list Request) (st : LocalObjectStore) (w : World DB) (turns : nat) : Prop := {
  cr_inv : StoreInv st (w_files w) (w_db w);
  cr_root : los_root st = root;
  cr_world : world_ok S w;
  cr_reqs : Forall (λ req, request_ok req ∧ K (req_key req)) reqs;
  cr_rows : ∀ k, is_Some (ms_rows (w_db w) !! k) → K k;
  cr_counter : 0 <= los_counter st ∧ los_counter st + Z.of_nat turns < 2 ^ 64;
  cr_seq : wal_next_seq (los_wal st) + Z.of_nat turns < 2 ^ 64;
}.

Lemma Config_new_lookup reqs st (w : World DB) i t :
  c_threads (Config_new reqs st w) !! i = Some t → ∃ req, req ∈ reqs ∧ t = Called req.
Proof.
  cbn [c_threads Config_new]. rewrite list_lookup_fmap. intros (req & E & ->)%fmap_Some.
  exists req. split; [by eapply list_elem_of_lookup_2|done].
Qed.

Lemma LockInv_new reqs st (w : World DB) : LockInv (Config_new reqs st w).
Proof.
  split; [apply length_replicate|]. cbn [c_shards Config_new]. intros s m [-> _]%lookup_replicate.
  assert (∀ i mode, lock_of (Config_new reqs st w) i ≠ Some (s, mode)) as Hno.
  { intros i mode. unfold lock_of. destruct (c_threads _ !! i) as [t|] eqn:E; [|done].
    by apply Config_new_lookup in E as (? & _ & ->). }
  split; cbn [sm_writer sm_readers SharedMutex_new].
  - intros i. split; [done|by intros ?%Hno].
  - intros i. split; [by intros ?%not_elem_of_empty|by intros ?%Hno].
  - by intros [? ?].
Qed.

Lemma Inv_new reqs st w turns :
  calls_ready reqs st w turns →
  Inv (Config_new reqs st w) (λ _, ghost_new) (cell_of root (w_files w) (w_db w)).
Proof.
  intros [[Hdb Hfd Hpath Hsq (rs & Hl & Hok & Hset & Hlt) _] Hroot Hw Hreqs Hrows Hc Hs].
  rewrite Hroot in Hpath, Hl.
  assert (∀ i req p, ¬ inside (Config_new reqs st w) i req p) as Hout.
  { intros i req p (? & _ & ?)%Config_new_lookup. done. }
  split; cbn [c_store c_world Config_new]; try done.
  - apply LockInv_new.
  - intros i t (req & Hin & ->)%Config_new_lookup. cbn. by eapply list.Forall_forall in Hreqs.
  - intros i. destruct (c_threads _ !! i) as [t|] eqn:E; [|done]. by apply Config_new_lookup in E as (? & _ & ->).
  - intros i req p Hi. by apply Hout in Hi.
  - split; [lia|done].
  - split; [unfold is_u64 in Hsq; lia|done].
  - intros _. exists (log_bytes rs). split; [done|]. exists rs. split_and!; try done.
    intros b' Hin Hcm Hn. exfalso. apply Hn. unfold settled in Hset. rewrite list.Forall_forall in Hset. auto.
Qed.

Lemma runs_inv reqs st w s h c :
  calls_ready reqs st w (length s) → runs getpid root hash (Config_new reqs st w) s h c →
  (exact → undisturbed s (Config_new reqs st w) = true) →
  ∃ g cells, Inv c g cells ∧ sequential S exact (cell_of root (w_files w) (w_db w)) h cells ∧
    los_counter (c_store c) <= los_counter st + Z.of_nat (length s) ∧
    wal_next_seq (los_wal (c_store c)) <= wal_next_seq (los_wal st) + Z.of_nat (length s).
Proof.
  intros Hr Hruns Hx. induction Hruns as [|s h c1 i c2 h' Hruns IH Ht].
  - exists (λ _, ghost_new), (cell_of root (w_files w) (w_db w)). split; [by eapply Inv_new|].
    split; [by constructor|]. cbn. lia.
  - rewrite length_app in *. cbn [length] in *.
    assert (exact → undisturbed s (Config_new reqs st w) = true ∧ keeps_count i c1 c2 = true) as Hx'.
    { intros Hex. specialize (Hx Hex). rewrite (undisturbed_app _ _ _ _ _ Hruns) in Hx. cbn [undisturbed] in Hx.
      rewrite Ht, andb_true_r in Hx. by apply andb_true_iff in Hx. }
    destruct IH as (g & cells & HI & Hseq & Hc & Hn).
    { destruct Hr. split; try done; lia. }
    { intros Hex. by apply Hx'. }
    destruct (Inv_turn c1 g cells i c2 h' HI) as (g' & cells' & HI' & ? & ? & Hh); [|done|by intros Hex; apply Hx'|].
    { destruct Hr. lia. }
    exists g', cells'. split; [done|]. split; [|lia].
    destruct Hh as [[-> ->]|(req & a & -> & Hspec & Hoth)]; [by rewrite app_nil_r|].
    by eapply sequential_snoc.
Qed.

(** The calls that have returned, with their replies. *)
Definition returned c : list (Request * Reply) :=
  omap (λ t, match t with Returned req a => Some (req, a) | _ => None end) (c_threads c).

Lemma omap_insert_middle {A B} (f : A → option B) (l : list A) i x y :
  l !! i = Some x → f x = None →
  omap f (<[i := y]> l) ≡ₚ omap f l ++ match f y with Some z => [z] | None => [] end.
Proof.
  intros Ei Hx. rewrite <-(take_drop_middle l i x Ei) at 2. rewrite insert_take_drop by by eapply lookup_lt_Some.
  rewrite !omap_app. cbn. rewrite Hx. destruct (f y) as [z|]; [|by rewrite app_nil_r].
  rewrite <-app_assoc. apply Permutation_app_head, Permutation_cons_append.
Qed.

Lemma returned_turn i c c' h :
  turn getpid root hash i c = Stepped c' h → returned c' ≡ₚ returned c ++ h.
Proof.
  unfold turn, set_thread, set_shard, returned.
  destruct (c_threads c !! i) as [[req|req [a|B m k]|req a]|] eqn:Ei; try done; repeat case_match; try done;
    intros [= <- <-]; cbn [c_threads]; by rewrite omap_insert_middle by done.
Qed.

Lemma returned_new reqs st (w : World DB) : returned (Config_new reqs st w) = [].
Proof. unfold returned. cbn [c_threads Config_new]. by induction reqs. Qed.

Lemma returned_runs c s h c' :
  runs getpid root hash c s h c' → returned c' ≡ₚ returned c ++ h.
Proof.
  induction 1 as [|s h c1 i c2 h' _ IH Ht]; [by rewrite app_nil_r|].
  by rewrite (returned_turn _ _ _ _ Ht), IH, app_assoc.
Qed.

Lemma runs_trans c s h c1 s' h' c2 :
  runs getpid root hash c s h c1 → runs getpid root hash c1 s' h' c2 →
  runs getpid root hash c (s ++ s') (h ++ h') c2.
Proof.
  intros H1. induction 1 as [|s' h' c2 i c3 h'' _ IH Ht]; [by rewrite !app_nil_r|].
  rewrite !app_assoc. by eapply runs_turn.
Qed.

Lemma runs_one c i h c' : turn getpid root hash i c = Stepped c' h → runs getpid root hash c [i] h c'.
Proof. intros Ht. apply (runs_turn _ _ _ _ [] [] c); [constructor|done]. Qed.

End threads.

(** C3: concurrent calls of the store are linearizable.  A pool of threads makes
    any calls ([Put], [PutWithVersion], [PutConditional], [Get], [Head],
    [Delete]) on a store in order; their steps are interleaved in any way the
    shard locks allow, and every system call and database call may fail.  Then
    the calls that have returned behaved as if run one at a time in the order in
    which they returned (so a call that returned before another started comes
    before it): every reply is one its specification allows from the state the calls
    before it left, and every key that no thread is writing has the row and the
    payload that state gives it.  In particular no two writes
    of one key read the same version, and no read sees the row of one write and the
    payload of another.  A [Delete] reports [Ok] exactly when it found a live row
    in every run that is [undisturbed]: no statement of another thread changes
    [sqlite3_changes] while a [Delete] is under way.  In the other runs its effect
    is still the specified one but its report can be wrong
    ([delete_race_misreports] has such a run). *)
Theorem store_linearizable {DB} `{SqliteLaws DB} (S : outcome → Prop) getpid root hash (K : bytes → Prop)
    (HK : ∀ k1 k2, K k1 → K k2 → KeyDigest k1 = KeyDigest k2 → k1 = k2) reqs st (w : World DB) s h c :
  calls_ready S root K reqs st w (length s) → runs getpid root hash (Config_new reqs st w) s h c →
  returned c ≡ₚ h ∧
  ∃ cells,
    sequential S (undisturbed getpid root hash s (Config_new reqs st w) = true)
      (cell_of root (w_files w) (w_db w)) h cells ∧
    ∀ k, K k →
      (∀ i req p, c_threads c !! i = Some (Inside req p) → req_key req = k → req_mode req = Shared) →
      cell_of root (w_files (c_world c)) (w_db (c_world c)) k = cells k.
Proof.
  intros Hr Hruns. split.
  - by rewrite (returned_runs _ _ _ _ _ _ _ Hruns), returned_new.
  - destruct (runs_inv S getpid root hash K HK _ _ _ _ _ _ _ Hr Hruns id) as (g & cells & HI & Hseq & _).
    exists cells. split; [done|]. intros k Hk Hfree. by apply (iv_free _ _ _ _ _ _ _ _ _ HI).
Qed.

(** ** Runs of a schedule *)

Lemma execute_runs {DB} `{!Sqlite DB} getpid root hash s (c c' : Config (DB := DB)) h :
  execute getpid root hash s c = (inl c', h) →
  ∃ s', (length s' <= length s)%nat ∧ runs getpid root hash c s' h c' ∧
    undisturbed getpid root hash s' c = undisturbed getpid root hash s c.
Proof.
  revert c h. induction s as [|i s IH]; intros c h; cbn [execute].
  { intros [= <- <-]. exists []. split_and!; [done|constructor|done]. }
  destruct (turn getpid root hash i c) as [|c1 h1|w] eqn:Et; [| |done].
  - intros (s' & ? & ? & Hu)%IH. exists s'. split_and!; [cbn; lia|done|]. cbn [undisturbed]. by rewrite Et.
  - destruct (execute getpid root hash s c1) as [r h2] eqn:Ee. intros [= -> <-].
    apply IH in Ee as (s' & ? & ? & Hu). exists ([i] ++ s'). split_and!; [cbn; lia| |].
    + by eapply runs_trans; [apply runs_one|].
    + cbn [app undisturbed]. by rewrite Et, Hu.
Qed.

(** Two writes, a read and a deletion of one key, from four threads; the second
    write waits for the first, the read for the second, the deletion for the read,
    and a second deletion for the first. *)
Definition demo_hash (key : bytes) : Z := Zlen key.
Definition demo_calls : list Request :=
  [RPut demo_key demo_data; RPut demo_key (lit "bye"); RGet demo_key; RDelete demo_key; RDelete demo_key].
Definition demo_schedule : list nat := replicate 5 0%nat ++ [1; 2; 0; 1]%nat ++ replicate 30 0%nat ++
  replicate 5 1%nat ++ [2]%nat ++ replicate 30 1%nat ++ replicate 10 2%nat ++ replicate 3 3%nat ++ [4]%nat ++
  replicate 20 3%nat ++ replicate 20 4%nat.
Definition demo_threads := execute 7 demo_root demo_hash demo_schedule (Config_new demo_calls demo_st (demo_world [])).

Lemma demo_calls_ready n : (n <= 1000)%nat →
  calls_ready smooth demo_root (λ k, k = demo_key) demo_calls demo_st (demo_world []) n.
Proof.
  intros Hn. split; [apply demo_inv|done|by split; constructor| | |cbn; lia|cbn; lia].
  2:{ intros k [m Hm]. by rewrite demo_rows, lookup_empty in Hm by done. }
  assert (nul_free demo_key) by (apply (bool_decide_unpack _); vm_compute; done).
  assert (nul_free []) by apply not_elem_of_nil.
  repeat constructor; cbn; done.
Qed.

Definition reply_version (a : Reply) : option Z :=
  match a with AMeta (FromValue m) => Some (om_version m) | _ => None end.
Definition reply_bytes (a : Reply) : option bytes :=
  match a with ABytes (FromValue d) => Some d | _ => None end.
Definition reply_code (a : Reply) : option StatusCode :=
  match a with AStatus s => Some (st_code s) | _ => None end.

Lemma ran_to_end {A B C} (r : (A + B) * C) :
  match r.1 with inl _ => true | inr _ => false end = true → ∃ c, r = (inl c, r.2).
Proof. destruct r as [[c|w] h]; [|done]. intros _. by exists c. Qed.

Lemma demo_threads_run :
  ∃ s c, (length s <= 1000)%nat ∧
    runs 7 demo_root demo_hash (Config_new demo_calls demo_st (demo_world [])) s demo_threads.2 c ∧
    undisturbed 7 demo_root demo_hash s (Config_new demo_calls demo_st (demo_world [])) = true.
Proof.
  destruct (ran_to_end demo_threads) as [c E]; [vm_compute; reflexivity|].
  apply execute_runs in E as (s & Hs & Hr & Hu). exists s, c. split_and!; [|done|].
  - etrans; [exact Hs|]. by vm_compute; lia.
  - rewrite Hu. vm_compute. reflexivity.
Qed.

(** The run is undisturbed, so the reports of its deletions are exact. *)
Lemma store_linearizable_witness :
  (reply_version <$> demo_threads.2.*2) = [Some 1; Some 2; None; None; None] ∧
  (reply_bytes <$> demo_threads.2.*2) = [None; None; Some (lit "bye"); None; None] ∧
  (reply_code <$> demo_threads.2.*2) = [None; None; None; Some kOk; Some kNotFound] ∧
  ∃ (exact : Prop) cells, exact ∧
    sequential smooth exact (cell_of demo_root (w_files (demo_world [])) (w_db (demo_world [])))
      demo_threads.2 cells.
Proof.
  split_and!; [vm_compute; reflexivity..|].
  destruct demo_threads_run as (s & c & Hs & Hruns & Hu).
  destruct (store_linearizable smooth 7 demo_root demo_hash (λ k, k = demo_key)
    (λ k1 k2 (E1 : k1 = demo_key) (E2 : k2 = demo_key) _, eq_trans E1 (eq_sym E2))
    demo_calls demo_st (demo_world []) s demo_threads.2 c) as [_ (cells & Hseq & _)];
    [by apply demo_calls_ready|exact Hruns|].
  exists (undisturbed 7 demo_root demo_hash s (Config_new demo_calls demo_st (demo_world [])) = true), cells.
  split; [exact Hu|exact Hseq].
Defined.

(** ** A race of deletions *)

(** [sqlite3_changes] belongs to the connection, which all threads use: when
    another thread's statement runs between the deletion and the question how
    many rows it changed, the answer is that statement's.  Here the deletion of
    an object that exists, interleaved with the deletion of one that does not
    (on another shard), tombstones the object and reports [kNotFound]; and the
    deletion of an absent object, interleaved with a write, reports success. *)
Definition race_calls : list Request := [RDelete demo_key; RDelete (lit "nothing")].
Definition race := execute 7 demo_root demo_hash (replicate 4 0%nat ++ replicate 20 1%nat ++ replicate 20 0%nat)
  (Config_new race_calls demo_st (demo_world1 [])).

Definition race2_calls : list Request := [RDelete (lit "nothing"); RPut demo_key demo_data].
Definition race2 := execute 7 demo_root demo_hash (replicate 4 0%nat ++ replicate 30 1%nat ++ replicate 20 0%nat)
  (Config_new race2_calls demo_st (demo_world [])).

Theorem delete_race_misreports :
  (reply_code <$> race.2.*2) = [Some kNotFound; Some kNotFound] ∧
  match race.1 with
  | inl c => om_deleted <$> ms_rows (w_db (c_world c)) !! demo_key = Some true
  | inr _ => False
  end ∧
  (reply_code <$> race2.2.*2) = [None; Some kOk].
Proof. split_and!; vm_compute; reflexivity. Qed.
