(* ===== verification/StoreCrash.v ===== *)
(** * Concurrent writes and crashes

    The process dies while any number of threads are writing.  The log then holds
    the intents of several writes, interleaved; recovery completes or drops each
    of them.  This file generalises the recovery argument of StoreRecovery.v from
    one pending operation to any number on different keys, and combines it with
    the invariant of StoreLinear.v. *)

From stdpp Require Import base functions gmap list.
From Stdlib Require Import ZArith Lia.
From S2P Require Import Prelude Status Wire Framing Posix IoLogic Wal Sha256 MetadataStore.
From S2P Require Import LocalObjectStore StoreRecovery StoreProps StoreThreads StoreView StoreLinear.

Local Open Scope Z_scope.

Notation cell := (option ObjectMetadata * option bytes)%type.

(** ** One pending write, on its key's row and payload *)

(** The new version: its row, and a payload with its checksum. *)
Definition new_cell (key data : bytes) (v : Z) (c : cell) : Prop :=
  ∃ m p, c = (Some m, Some p) ∧ new_meta key data v m ∧ Sha256Hex p = Sha256Hex data.

Definition fin_cell (key data : bytes) (v : Z) (c0 c : cell) : Prop := c = c0 ∨ new_cell key data v c.

Definition mid_cell (key data : bytes) (v : Z) (c0 c : cell) : Prop :=
  fin_cell key data v c0 c ∨ (c.1 = c0.1 ∧ c.2 = Some data).

(** The records of the log without a commit record. *)
Definition pending (rs : list WalRecord) : list WalRecord :=
  filter (λ r, wr_is_commit r = false ∧ wr_seq r ∉ committed rs) rs.

Section recovery.
Context {DB : Type} `{MetadataBackendLaws DB}.
Variable root : path.
Implicit Types fs : gmap path bytes.
Implicit Types db : DB.

Lemma wp_Recover_cell key data v seq (c0 : cell) fs db :
  ms_inv db → nul_free key → is_u64 v → Zlen data * 8 < 2 ^ 64 →
  (∀ m, c0.1 = Some m → om_version m < v) → mid_cell key data v c0 (cell_of root fs db key) →
  let same fs' db' := fs' = fs ∧ ms_inv db' ∧ ∀ k, k ≠ key → ms_rows db' !! k = ms_rows db !! k in
  wp smooth (Recover_record root (put_begin key data v seq))
    (λ r fs' db', same fs' db' ∧
       match r with
       | None => fin_cell key data v c0 (cell_of root fs db' key)
       | Some s => st_ok s = false ∧ mid_cell key data v c0 (cell_of root fs db' key)
       end)
    (λ fs' db', same fs' db' ∧ mid_cell key data v c0 (cell_of root fs db' key)) fs db.
Proof.
  intros Hi Hk Hv Hd Hnew Hm same.
  set (fs0 := partial_alter (λ _, c0.2) (ObjectPath root key) fs).
  set (rows0 := partial_alter (λ _, c0.1) key (ms_rows db)).
  assert (fs0 !! ObjectPath root key = c0.2) as Ef by apply lookup_partial_alter_eq.
  assert (rows0 !! key = c0.1) as Er by apply lookup_partial_alter_eq.
  assert (others root key fs0 rows0 fs db) as Ho.
  { split; [done|]. split; [|intros; symmetry; by apply lookup_partial_alter_ne].
    intros. symmetry. by apply lookup_partial_alter_ne. }
  assert (∀ row file, put_fin root key data v fs0 rows0 True row file ↔ fin_cell key data v c0 (row, file)) as Hfin.
  { intros row file. unfold put_fin, is_old, is_new, fin_cell, new_cell. rewrite Ef, Er.
    destruct c0 as [r0 f0]. cbn [fst snd]. split.
    - intros [(_ & -> & ->)|(m & p & -> & Hm' & -> & Hs & _)]; [by left|]. right. by exists m, p.
    - intros [[= -> ->]|(m & p & [= -> ->] & Hm' & Hs)]; [by left|]. right. exists m, p. auto 10. }
  assert (∀ row file, put_mid root key data v fs0 rows0 True row file ↔ mid_cell key data v c0 (row, file)) as Hmid.
  { intros row file. unfold mid_cell. rewrite <-Hfin. unfold put_mid, put_fin, is_placed. rewrite Er.
    cbn [fst snd]. split; [intros [?|[(_ & ? & ?)|?]]|intros [[?|?]|[? ?]]]; auto. }
  eapply wp_mono; [eapply (wp_Recover_put root key data v seq fs0 rows0 True)|..].
  - split; try done. by rewrite Er.
  - done.
  - by apply Hmid.
  - cbv beta. intros r fs' db' (-> & (Hi' & Hr & _) & Hx). split.
    + split; [done|]. split; [done|]. intros k Hne. rewrite Hr by done. by apply lookup_partial_alter_ne.
    + destruct r as [s|]; [|by apply Hfin]. destruct Hx as [? ?]. split; [done|]. by apply Hmid.
  - cbv beta. intros fs' db' (-> & (Hi' & Hr & _) & Hx). split; [|by apply Hmid].
    split; [done|]. split; [done|]. intros k Hne. rewrite Hr by done. by apply lookup_partial_alter_ne.
Qed.

(** The loop skips what is committed. *)
Lemma Recover_loop_filter (seqs : gset Z) rs :
  Recover_loop (DB := DB) root seqs rs =
  Recover_loop root seqs (filter (λ r, wr_is_commit r = false ∧ wr_seq r ∉ seqs) rs).
Proof.
  induction rs as [|r rs IH]; [done|]. rewrite filter_cons. cbn [Recover_loop].
  destruct (wr_is_commit r) eqn:Ec; cbn [orb].
  { rewrite decide_False by by intros [? _]. done. }
  destruct (decide (wr_seq r ∈ seqs)) as [Hin|Hout].
  { rewrite bool_decide_true by done. by rewrite decide_False by by intros [_ ?]. }
  rewrite bool_decide_false, decide_True by done. cbn [Recover_loop]. rewrite Ec, bool_decide_false by done.
  cbn [orb]. by rewrite IH.
Qed.

(** ** Any number of pending writes, on different keys *)

Section pendings.
Variable (pend : list WalRecord) (fs1 : gmap path bytes) (rows1 : gmap bytes ObjectMetadata).
Variable (Mid Fin : WalRecord → cell → Prop).
Hypothesis Fin_Mid : ∀ b c, Fin b c → Mid b c.
Hypothesis Hkeys : ∀ b b', b ∈ pend → b' ∈ pend → wr_key b = wr_key b' → b = b'.

Notation at_ b fs db := (cell_of root fs db (wr_key b)).

(** Recovering one record changes its key's row at most. *)
Hypothesis Hrecord : ∀ b fs db, b ∈ pend → ms_inv db → Mid b (at_ b fs db) →
  let same fs' db' := fs' = fs ∧ ms_inv db' ∧ ∀ k, k ≠ wr_key b → ms_rows db' !! k = ms_rows db !! k in
  wp smooth (Recover_record root b)
    (λ r fs' db', same fs' db' ∧
       match r with None => Fin b (at_ b fs db') | Some s => st_ok s = false ∧ Mid b (at_ b fs db') end)
    (λ fs' db', same fs' db' ∧ Mid b (at_ b fs db')) fs db.

(** The payloads, the rows of the other keys, and the pending writes. *)
Definition Mids fs db : Prop :=
  ms_inv db ∧ (∀ k, fs !! ObjectPath root k = fs1 !! ObjectPath root k) ∧
  (∀ k, k ∉ wr_key <$> pend → ms_rows db !! k = rows1 !! k) ∧
  ∀ b, b ∈ pend → Mid b (at_ b fs db).

Definition Fins (bs : list WalRecord) fs db : Prop := ∀ b, b ∈ bs → Fin b (at_ b fs db).

Definition Pendings fs db : Prop :=
  Mids fs db ∧ ∃ content, fs !! WalPath root = Some content ∧
    (pending (Replay_bytes content) = pend ∨ pending (Replay_bytes content) = [] ∧ Fins pend fs db).

Definition Settleds fs db : Prop := Pendings fs db ∧ Fins pend fs db.

(** Another row of the key of [b], the rest as it was. *)
Lemma Mids_record b fs db db' :
  b ∈ pend → Mids fs db → ms_inv db' → (∀ k, k ≠ wr_key b → ms_rows db' !! k = ms_rows db !! k) →
  Mid b (at_ b fs db') → Mids fs db'.
Proof.
  intros Hb (_ & Hf & Hr & Hm) Hi Hsame Hbm. split; [done|]. split; [done|]. split.
  - intros k Hk. rewrite Hsame; [by apply Hr|]. intros ->. apply Hk, list_elem_of_fmap. by exists b.
  - intros b' Hb'. destruct (decide (wr_key b' = wr_key b)) as [E|E].
    + by rewrite (Hkeys b' b).
    + unfold cell_of. rewrite Hsame by done. by apply Hm.
Qed.

Lemma Fins_record b bs fs db db' :
  b ∈ pend → (∀ b', b' ∈ bs → b' ∈ pend) → Fins bs fs db →
  (∀ k, k ≠ wr_key b → ms_rows db' !! k = ms_rows db !! k) → Fin b (at_ b fs db') → Fins (bs ++ [b]) fs db'.
Proof.
  intros Hb Hbs HF Hsame Hbf b' [Hin|Heq%list_elem_of_singleton]%elem_of_app; [|by subst b'].
  destruct (decide (wr_key b' = wr_key b)) as [E|E].
  - by rewrite (Hkeys b' b) by auto.
  - unfold cell_of. rewrite Hsame by done. by apply HF.
Qed.

Lemma wp_Recover_loop_all (seqs : gset Z) fs done todo db :
  pend = done ++ todo → Forall (λ r, wr_is_commit r = false ∧ wr_seq r ∉ seqs) todo →
  Mids fs db → Fins done fs db →
  wp smooth (Recover_loop root seqs todo)
    (λ r fs' db', fs' = fs ∧ Mids fs db' ∧
       match r with None => Fins pend fs db' | Some s => st_ok s = false end)
    (λ fs' db', fs' = fs ∧ Mids fs db') fs db.
Proof.
  intros E Htodo. revert done db E. induction Htodo as [|b todo [Hc Hs] _ IH]; intros done db E HM HF.
  { rewrite app_nil_r in E. subst done. by apply wp_ret. }
  assert (b ∈ pend) as Hb by (rewrite E; set_solver).
  cbn [Recover_loop]. rewrite Hc, bool_decide_false by done. cbn [orb]. apply wp_bind.
  pose proof HM as (Hi & _ & _ & Hm).
  eapply wp_mono; [by apply Hrecord; auto|..]; cbv beta.
  - intros r fs' db' ((-> & Hi' & Hsame) & Hr). destruct r as [s|].
    + destruct Hr as [? ?]. apply wp_ret. split; [done|]. split; [|done]. by eapply Mids_record.
    + apply (IH (done ++ [b])); [by rewrite <-app_assoc|eapply Mids_record; eauto|].
      eapply Fins_record; eauto. intros b' Hb'. rewrite E. set_solver.
  - intros fs' db' ((-> & Hi' & Hsame) & Hr). split; [done|]. by eapply Mids_record.
Qed.

Lemma wp_Recover_loop_pendings fs db content :
  Pendings fs db → fs !! WalPath root = Some content →
  wp smooth (Recover_loop root (committed (Replay_bytes content)) (Replay_bytes content))
    (λ r fs' db', match r with
                  | None => Settleds fs' db'
                  | Some s => st_ok s = false ∧ Pendings fs' db'
                  end)
    Pendings fs db.
Proof.
  intros (HM & content' & Hc' & Hx) Hc. assert (content' = content) as -> by congruence.
  rewrite Recover_loop_filter. fold (pending (Replay_bytes content)).
  destruct Hx as [E|[E HF]].
  2:{ rewrite E. apply wp_ret. split; [|done]. split; [done|]. exists content. auto. }
  rewrite E. eapply wp_mono; [apply (wp_Recover_loop_all _ fs []); [done| |done|]|..].
  - rewrite <-E. apply list.Forall_forall. by intros r [? _]%list_elem_of_filter.
  - intros b Hb. by apply not_elem_of_nil in Hb.
  - cbv beta. intros r fs' db' (-> & HM' & Hr).
    assert (Pendings fs db') as HP by (split; [done|]; exists content; auto).
    destruct r as [s|]; [by split|]. by split.
  - cbv beta. intros fs' db' (-> & HM'). split; [done|]. exists content. auto.
Qed.

(** What is not in the staging directory nor the log. *)
Lemma Mids_files fs fs' db :
  (∀ k, fs' !! ObjectPath root k = fs !! ObjectPath root k) → Mids fs db → Mids fs' db.
Proof.
  intros Hf (Hi & Hf1 & Hr & Hm). split; [done|]. split; [intros k; by rewrite Hf|]. split; [done|].
  intros b Hb. unfold cell_of. rewrite Hf. by apply Hm.
Qed.

Lemma Fins_files bs fs fs' db :
  (∀ k, fs' !! ObjectPath root k = fs !! ObjectPath root k) → Fins bs fs db → Fins bs fs' db.
Proof. intros Hf HF b Hb. unfold cell_of. rewrite Hf. by apply HF. Qed.

Lemma Settleds_files fs fs' db :
  (∀ k, fs' !! ObjectPath root k = fs !! ObjectPath root k) →
  fs' !! WalPath root = fs !! WalPath root ∨ fs' !! WalPath root = Some [] →
  Settleds fs db → Settleds fs' db.
Proof.
  intros Hf Hw [(HM & content & Hc & Hx) HF].
  split; [|by eapply Fins_files]. split; [by eapply Mids_files|].
  destruct Hw as [Hw|Hw].
  - exists content. split; [congruence|]. destruct Hx as [?|[? ?]]; [by left|]. right. eauto using Fins_files.
  - exists []. split; [done|]. right. split; [done|by eapply Fins_files].
Qed.

Lemma wp_Open_pendings fs db :
  Pendings fs db →
  wp smooth (Open root)
    (λ r fs' db', match r with FromValue st => Opened root Settleds st fs' db' | FromStatus _ => Pendings fs' db' end)
    Pendings fs db.
Proof.
  apply wp_Open_from.
  - by intros ? ? [? _].
  - intros fs' db' p x Hp HS.
    assert (∀ k, p ≠ ObjectPath root k) as Ho by (intros k; by eapply tmp_ne_object).
    assert (p ≠ WalPath root) as Hw by by eapply tmp_ne_wal.
    split; (eapply Settleds_files; [..|exact HS]); intros; try left;
      (rewrite ?lookup_insert_ne, ?lookup_delete_ne by done); done.
  - intros fs' db' HS. eapply Settleds_files; [..|exact HS].
    + intros k. apply lookup_insert_ne, wal_ne_object.
    + right. apply lookup_insert_eq.
  - intros fs' db1 db2 ((Hi & Hf & Hr & Hm) & content & Hc & Hx) Hi' Er.
    assert (∀ k, cell_of root fs' db2 k = cell_of root fs' db1 k) as Ec by (intros; unfold cell_of; by rewrite Er).
    split.
    + split; [done|]. split; [done|]. split; [intros; rewrite Er; by apply Hr|]. intros b Hb. rewrite Ec. by apply Hm.
    + exists content. split; [done|]. destruct Hx as [?|[? HF]]; [by left|]. right. split; [done|].
      intros b Hb. rewrite Ec. by apply HF.
  - intros fs' db' ((Hi & _) & content & Hc & _). eauto.
  - intros fs' db' content. apply wp_Recover_loop_pendings.
Qed.
End pendings.
End recovery.

(** ** The process dies in the middle of concurrent calls *)

(** The calls whose effects recovery restores: those that [Delete] and the
    replication path make can be undone or broken by a crash (StoreLimits.v). *)
Definition crash_safe (req : Request) : Prop :=
  match req with RPut _ _ | RPutConditional _ _ _ _ | RGet _ | RHead _ => True | _ => False end.

(** The call decides, from what the store holds, to write [data] as version [v]. *)
Definition writes (req : Request) (c0 : cell) (data : bytes) (v : Z) : Prop :=
  match req with
  | RPut key d => d = data ∧ row_decision key c0.1 0 false 0 [] = inr (inr v)
  | RPutConditional key d expected request_id =>
      d = data ∧ row_decision key c0.1 0 true expected request_id = inr (inr v)
  | _ => False
  end.

Definition cell_version (c : cell) : Z := from_option om_version 0 c.1.

Lemma writes_version req c0 data v :
  writes req c0 data v → 0 <= cell_version c0 < 2 ^ 64 - 1 → v = cell_version c0 + 1.
Proof.
  assert (∀ key current conditional expected,
    0 <= current < 2 ^ 64 - 1 → DoPut_version key current 0 conditional expected = inr v → v = current + 1) as Hver.
  { intros key current conditional expected Hc. unfold DoPut_version. cbn [Z.eqb negb andb].
    destruct conditional; cbn [andb].
    - destruct (current =? expected) eqn:E; prop_bool; cbn [negb]; [|done].
      intros [= <-]. rewrite u64_small; [lia|]. unfold is_u64. lia.
    - intros [= <-]. apply u64_small. unfold is_u64. lia. }
  unfold writes, row_decision, cell_version. intros Hw Hc.
  destruct req; try done; destruct Hw as [_ Hw]; destruct c0.1 as [m|]; cbn [from_option] in *;
    repeat case_match; try done; apply (inj inr) in Hw; by eapply Hver.
Qed.

Lemma writes_args req c0 data v :
  request_ok req → writes req c0 data v → nul_free (req_key req) ∧ Zlen data * 8 < 2 ^ 64.
Proof. intros (Hk & _ & Hok) Hw. destruct req; try done; destruct Hw as [<- _]; split; [done|apply Hok|done|apply Hok]. Qed.

(** What the phases of a call say of its key. *)
Lemma phase_writes req c0 ph row file :
  crash_safe req → req_phase req c0 ph row file →
  match ph with
  | LIdle => (row, file) = c0
  | LBegun b => ∃ data v seq, writes req c0 data v ∧ b = put_begin (req_key req) data v seq ∧
      mid_cell (req_key req) data v c0 (row, file)
  | LClosed => ∃ data v, writes req c0 data v ∧ new_cell (req_key req) data v (row, file)
  end.
Proof.
  assert (∀ key data v c0 c, put_between key data v c0 c → mid_cell key data v c0 c) as Hmid.
  { intros key data v c1 [row' file'] [[E [E'|E']]|(m & Hm & E)]; cbn [fst snd] in *.
    - left. left. destruct c1. cbn in *. congruence.
    - by right.
    - left. right. exists m, data. done. }
  intros Hs Hph. destruct req as [key data|key data v0|key data expected rid|key|key|key]; try done;
    cbn [req_phase req_key] in *.
  3-4: destruct Hph as [-> ?]; done.
  all: destruct ph as [|b|]; [done| |]; cbn [put_phase] in Hph.
  1,3: destruct Hph as (v & seq & Hv & -> & Hb); exists data, v, seq; split_and!; [done|done|by apply Hmid].
  all: destruct Hph as (v & m & Hv & Hm & E); exists data, v; split; [done|]; by exists m, data.
Qed.

Section crash.
Context {DB : Type} `{SqliteLaws DB}.
Variable (S : outcome → Prop) (getpid : Z) (root : path) (hash : bytes → Z) (K : bytes → Prop).
Hypothesis HS : ¬ may_fail S.
Hypothesis HK : ∀ k1 k2, K k1 → K k2 → KeyDigest k1 = KeyDigest k2 → k1 = k2.

Variable (c : Config (DB := DB)) (g : nat → ghost) (cells : bytes → cell) (i : nat) (w' : World DB).
Notation Inv := (Inv S getpid root hash K False).
Notation c_files c := (w_files (c_world c)).
Notation c_db c := (w_db (c_world c)).

Hypothesis HI : Inv c g cells.
Hypothesis Hsafe : ∀ j t, c_threads c !! j = Some t → crash_safe (thread_req t).
Hypothesis Hdone : ∀ j req a, c_threads c !! j = Some (Returned req a) → ¬ reply_failed a.
Hypothesis Hcrash : turn getpid root hash i c = Crashed w'.
Hypothesis Hsmall : wal_next_seq (los_wal (c_store c)) + 1 < 2 ^ 64.

(** The log as replayed after the crash, with the phases that go with it. *)
Lemma crash_log :
  ∃ g2 rs next, (∃ content, w_files w' !! WalPath root = Some content ∧ Replay_bytes content = rs) ∧
    Forall record_ok rs ∧ log_ok g2 next (log_bytes rs) ∧ ms_inv (w_db w') ∧
    (∀ j, j ≠ i → g2 j = g j) ∧
    (∃ req p, inside c i req p ∧
      req_phase req (cells (req_key req)) (g_log (g2 i)) (ms_rows (w_db w') !! req_key req)
        (w_files w' !! ObjectPath root (req_key req)) ∧
      frame getpid root (req_mode req) (req_key req) (g i) (c_files c) (c_db c) (w_files w') (w_db w')).
Proof.
  revert Hcrash. unfold turn.
  destruct (c_threads c !! i) as [[req|req [a|B m k]|req a]|] eqn:Ei; try done; [by repeat case_match|].
  destruct (m (c_store c) (c_world c)) as [[[y st']|] w1] eqn:Em; [done|]. intros [= ->].
  pose proof (Inv_crash S getpid root hash K False c g cells i req B m k HI Ei w' Em) as (Hi & Hfr & Hph & Hlog).
  destruct (iv_log _ _ _ _ _ _ _ _ _ HI HS) as (content & Hc & Hlo).
  pose proof Hlo as (rs & -> & Hok & Hlt & Hp & Hb & Ho).
  destruct Hlog as [Hsame|(b & g' & old & n & Ha & Hold & Hnew & Hph')].
  - exists g, rs, (wal_next_seq (los_wal (c_store c))). split_and!; try done.
    + exists (log_bytes rs). rewrite Hsame. split; [done|by apply Replay_log].
    + by exists req, (Act m k).
  - assert (old = log_bytes rs) as -> by congruence.
    assert (record_ok b) as Hbok.
    { eapply appends_record_ok; [by apply (iv_reqs _ _ _ _ _ _ _ _ _ HI i _ Ei)|exact Hph'|exact Ha|].
      intros q Hq. destruct (iv_seq _ _ _ _ _ _ _ _ _ HI) as (_ & Hs & _). apply Hs in Hq. unfold is_u64. lia. }
    destruct (Replay_after_append rs b n Hok Hbok) as [E|E].
    + exists g, rs, (wal_next_seq (los_wal (c_store c))). split_and!; try done; [by eexists|].
      by exists req, (Act m k).
    + exists (<[i := g']> g), (rs ++ [b]), (wal_next_seq (los_wal (c_store c))). split_and!.
      * by eexists.
      * apply Forall_app. split; [done|by apply Forall_singleton].
      * rewrite log_bytes_snoc.
        eapply (log_ok_append g i g' (wal_next_seq (los_wal (c_store c)))); try done; [apply HI|].
        left. by inversion Ha.
      * done.
      * intros j Hj. by rewrite fn_lookup_insert_ne.
      * exists req, (Act m k). rewrite fn_lookup_insert. done.
Qed.

(** The calls under way, each with its phase, and the keys nobody writes. *)
Definition phases_ok (g2 : nat → ghost) : Prop :=
  ∀ j req p, inside c j req p →
    req_phase req (cells (req_key req)) (g_log (g2 j)) (ms_rows (w_db w') !! req_key req)
      (w_files w' !! ObjectPath root (req_key req)).

Lemma crash_view req p key (gk : ghost) :
  inside c i req p → frame getpid root (req_mode req) (req_key req) (g i) (c_files c) (c_db c) (w_files w') (w_db w') →
  K key → (req_key req = key → req_mode req = Shared) →
  (∀ q, owned getpid root gk q → ¬ owned getpid root (g i) q) →
  same_view getpid root False key gk (c_files c) (c_db c) (w_files w') (w_db w').
Proof.
  intros Hi Hfr Hk Hm Ho. eapply frame_view; [exact HK| |exact Hk|exact Hm|exact Hfr|exact Ho|done].
  by apply (iv_reqs _ _ _ _ _ _ _ _ _ HI i _ Hi).
Qed.

Lemma crash_phases g2 :
  (∀ j, j ≠ i → g2 j = g j) →
  (∃ req p, inside c i req p ∧
    req_phase req (cells (req_key req)) (g_log (g2 i)) (ms_rows (w_db w') !! req_key req)
      (w_files w' !! ObjectPath root (req_key req)) ∧
    frame getpid root (req_mode req) (req_key req) (g i) (c_files c) (c_db c) (w_files w') (w_db w')) →
  phases_ok g2 ∧
  ∀ k, K k → (∀ j req p, inside c j req p → req_key req = k → req_mode req = Shared) →
    cell_of root (w_files w') (w_db w') k = cells k.
Proof.
  intros Hg2 (req & p & Hi & Hph & Hfr). split.
  - intros j req' p' Hj. destruct (decide (j = i)) as [->|Hne].
    { unfold inside in *. rewrite Hi in Hj. by injection Hj as <- <-. }
    rewrite Hg2 by done. eapply view_I; [|by apply (iv_inside _ _ _ _ _ _ _ _ _ HI _ _ _ Hj)].
    apply (crash_view req p (req_key req') (g j)); [done|done| | |].
    + by apply (iv_reqs _ _ _ _ _ _ _ _ _ HI j _ Hj).
    + intros E. destruct (lock_exclusion hash c i j _ _ _ _ (iv_locks _ _ _ _ _ _ _ _ _ HI) Hi Hj) as [? _];
        [auto|by rewrite E|done].
    + destruct (iv_tmp _ _ _ _ _ _ _ _ _ HI) as (_ & Hpos & Hinj). intros q. apply owned_disjoint.
      * intros n Hn. apply Hpos in Hn. lia.
      * intros n Hn. apply Hpos in Hn. lia.
      * intros n Hn Hn'. by apply Hne, (Hinj _ _ _ Hn Hn').
  - intros k Hk Hfree. rewrite <-(iv_free _ _ _ _ _ _ _ _ _ HI k Hk Hfree).
    destruct (crash_view req p k ghost_new Hi Hfr Hk) as [R F _ _]; [intros E; by apply (Hfree i req p)|done|].
    unfold cell_of. by rewrite R, F.
Qed.

(** The pending records are those of the calls under way. *)
Lemma crash_pending g2 rs next :
  (∀ j, j ≠ i → g2 j = g j) → (∃ req p, inside c i req p) →
  Forall record_ok rs → log_ok g2 next (log_bytes rs) →
  ∀ b, b ∈ pending rs ↔ ∃ j req p, inside c j req p ∧ g_log (g2 j) = LBegun b.
Proof.
  intros Hg2 (req0 & p0 & Hi) Hok (rs' & Ers & Hok' & _ & Hp & Hb & Ho) b.
  assert (rs' = rs) as -> by by rewrite <-(Replay_log rs), <-(Replay_log rs'), Ers.
  unfold pending. rewrite list_elem_of_filter. split.
  - intros [[Hc Hn] Hin]. destruct (Hp b Hin Hc Hn) as [j Hj]. exists j.
    destruct (decide (j = i)) as [->|Hne]; [by exists req0, p0|]. rewrite Hg2 in Hj |- * by done.
    pose proof (iv_called _ _ _ _ _ _ _ _ _ HI j) as Hcal.
    destruct (c_threads c !! j) as [[req|req p|req a]|] eqn:Ej.
    + by rewrite Hcal in Hj.
    + by exists req, p.
    + exfalso. eapply (iv_closed _ _ _ _ _ _ _ _ _ HI j); [exact HS|done| |by eapply Hdone|exact Hj].
      intros k ->. by apply Hsafe in Ej.
    + by rewrite Hcal in Hj.
  - intros (j & req & p & Hj & Hl). destruct (Hb _ _ Hl) as (Hin & Hc & Hs). split; [|done]. split; [done|].
    eapply Ho; [done|]. by rewrite Hl.
Qed.

Hypothesis Hversion : ∀ k, K k → 0 <= cell_version (cells k) < 2 ^ 64 - 1.

(** The writes the pending records belong to. *)
Definition write_of (P : bytes → bytes → Z → cell → cell → Prop) (b : WalRecord) (c1 : cell) : Prop :=
  ∃ j req p data v seq, inside c j req p ∧ writes req (cells (req_key req)) data v ∧
    b = put_begin (req_key req) data v seq ∧ P (req_key req) data v (cells (req_key req)) c1.

Lemma write_of_newer req j p data v :
  inside c j req p → writes req (cells (req_key req)) data v →
  is_u64 v ∧ ∀ m, (cells (req_key req)).1 = Some m → om_version m < v.
Proof.
  intros Hj Hw. destruct (iv_reqs _ _ _ _ _ _ _ _ _ HI j _ Hj) as [_ Hk]. cbn [thread_req] in Hk.
  pose proof (Hversion _ Hk) as Hv. rewrite (writes_version _ _ _ _ Hw Hv).
  split; [unfold is_u64; lia|]. intros m Em. unfold cell_version in *. rewrite Em in *. cbn in *. lia.
Qed.

Lemma write_of_record b fs (db : DB) :
  ms_inv db → write_of mid_cell b (cell_of root fs db (wr_key b)) →
  let same fs' db' := fs' = fs ∧ ms_inv db' ∧ ∀ k, k ≠ wr_key b → ms_rows db' !! k = ms_rows db !! k in
  wp smooth (Recover_record root b)
    (λ r fs' db', same fs' db' ∧
       match r with
       | None => write_of fin_cell b (cell_of root fs db' (wr_key b))
       | Some s => st_ok s = false ∧ write_of mid_cell b (cell_of root fs db' (wr_key b))
       end)
    (λ fs' db', same fs' db' ∧ write_of mid_cell b (cell_of root fs db' (wr_key b))) fs db.
Proof.
  intros Hi (j & req & p & data & v & seq & Hj & Hw & -> & Hm) same. cbn [wr_key put_begin] in *.
  destruct (write_of_newer _ _ _ _ _ Hj Hw) as [Hv Hnew].
  destruct (iv_reqs _ _ _ _ _ _ _ _ _ HI j _ Hj) as [Hok _]. cbn [thread_req] in Hok.
  destruct (writes_args _ _ _ _ Hok Hw) as [Hk Hd].
  eapply wp_mono; [by apply wp_Recover_cell|..]; cbv beta.
  - intros r fs' db' [Hs Hr]. split; [done|]. destruct r as [s|]; [destruct Hr as [? ?]; split; [done|]|];
      by exists j, req, p, data, v, seq.
  - intros fs' db' [Hs Hr]. split; [done|]. by exists j, req, p, data, v, seq.
Qed.

Lemma writes_exclusive req c0 data v : writes req c0 data v → req_mode req = Exclusive.
Proof. by destruct req. Qed.

Lemma inside_reqs j req p : inside c j req p → crash_safe req ∧ K (req_key req).
Proof. intros Hj. split; [by apply (Hsafe j _ Hj)|by apply (iv_reqs _ _ _ _ _ _ _ _ _ HI j _ Hj)]. Qed.

Lemma phases_begun g2 j req p b :
  phases_ok g2 → inside c j req p → g_log (g2 j) = LBegun b →
  ∃ data v seq, writes req (cells (req_key req)) data v ∧ b = put_begin (req_key req) data v seq ∧
    mid_cell (req_key req) data v (cells (req_key req)) (cell_of root (w_files w') (w_db w') (req_key req)).
Proof.
  intros Hph Hj Hl. pose proof (Hph _ _ _ Hj) as Hx.
  apply phase_writes in Hx; [|by eapply inside_reqs]. by rewrite Hl in Hx.
Qed.

(** A key as the crash, and then recovery, leaves it. *)
Definition old_or_written (k : bytes) (c1 : cell) : Prop :=
  c1 = cells k ∨ ∃ j req p data v, inside c j req p ∧ req_key req = k ∧ writes req (cells k) data v ∧
    new_cell k data v c1.

(** A key without a pending record. *)
Lemma phases_settled g2 k :
  phases_ok g2 → K k → (∀ j req p b, inside c j req p → req_key req = k → g_log (g2 j) ≠ LBegun b) →
  ((∀ j req p, inside c j req p → req_key req = k → req_mode req = Shared) →
   cell_of root (w_files w') (w_db w') k = cells k) →
  old_or_written k (cell_of root (w_files w') (w_db w') k).
Proof.
  intros Hph Hk Hno Hidle.
  destruct (decide (Exists (λ t, match t with
    | Inside req _ => bool_decide (req_key req = k) && bool_decide (req_mode req = Exclusive)
    | _ => false end = true) (c_threads c))) as [E|E].
  - apply Exists_exists in E as (t & [j Hj]%list_elem_of_lookup_1 & Ht).
    destruct t as [|req p|]; try done. prop_bool. pose proof (Hph j req p Hj) as Hx.
    apply phase_writes in Hx; [|by eapply inside_reqs]. subst k.
    destruct (g_log (g2 j)) as [|b|] eqn:El; [by left|by destruct (Hno j req p b)|].
    destruct Hx as (data & v & Hw & Hn). right. by exists j, req, p, data, v.
  - left. apply Hidle. intros j req p Hj Ek. destruct (req_mode req) eqn:Em; [|done]. exfalso.
    apply E, Exists_exists. exists (Inside req p). split; [by eapply list_elem_of_lookup_2|].
    by rewrite Ek, Em, !bool_decide_true.
Qed.

(** The state the crash leaves: several pending writes on different keys. *)
Lemma crash_Pendings :
  ∃ pend,
    (∀ b b', b ∈ pend → b' ∈ pend → wr_key b = wr_key b' → b = b') ∧
    (∀ b, b ∈ pend → K (wr_key b)) ∧
    Pendings root pend (w_files w') (ms_rows (w_db w')) (write_of mid_cell) (write_of fin_cell)
      (w_files w') (w_db w') ∧
    (∀ k, is_Some (ms_rows (w_db w') !! k) → K k) ∧
    (∀ k, K k → k ∉ wr_key <$> pend → old_or_written k (cell_of root (w_files w') (w_db w') k)).
Proof.
  destruct crash_log as (g2 & rs & next & (content & Hc & Hr) & Hok & Hlog & Hi & Hg2 & Hthis).
  destruct (crash_phases g2 Hg2 Hthis) as [Hph Hidle].
  destruct Hthis as (req0 & p0 & Hin0 & _ & Hfr).
  pose proof (crash_pending g2 rs next Hg2 (ex_intro _ req0 (ex_intro _ p0 Hin0)) Hok Hlog) as Hpend.
  exists (pending rs). split_and!.
  - intros b b' (j & req & p & Hj & Hl)%Hpend (j' & req' & p' & Hj' & Hl')%Hpend E.
    destruct (decide (j = j')) as [->|Hne]; [congruence|]. exfalso.
    destruct (phases_begun g2 _ _ _ _ Hph Hj Hl) as (data & v & seq & Hw & -> & _).
    destruct (phases_begun g2 _ _ _ _ Hph Hj' Hl') as (data' & v' & seq' & Hw' & -> & _). cbn in E.
    destruct (lock_exclusion hash c j j' _ _ _ _ (iv_locks _ _ _ _ _ _ _ _ _ HI) Hj Hj' Hne) as [Hs _]; [by rewrite E|].
    apply writes_exclusive in Hw. congruence.
  - intros b (j & req & p & Hj & Hl)%Hpend.
    destruct (phases_begun g2 _ _ _ _ Hph Hj Hl) as (data & v & seq & _ & -> & _). by eapply inside_reqs.
  - split; [|exists content; split; [done|]; left; by rewrite Hr].
    split; [done|]. split; [done|]. split; [done|]. intros b (j & req & p & Hj & Hl)%Hpend.
    destruct (phases_begun g2 _ _ _ _ Hph Hj Hl) as (data & v & seq & Hw & -> & Hm).
    by exists j, req, p, data, v, seq.
  - intros k Hk. destruct (decide (k = req_key req0)) as [->|Hne]; [by eapply inside_reqs|].
    destruct Hfr as (Hrows & _). rewrite Hrows in Hk by done. by apply (iv_rows _ _ _ _ _ _ _ _ _ HI).
  - intros k Hk Hout. apply (phases_settled g2); [done|done| |by apply Hidle].
    intros j req p b Hj Ek Hl. apply Hout, list_elem_of_fmap. exists b. split; [|apply Hpend; eauto].
    destruct (phases_begun g2 _ _ _ _ Hph Hj Hl) as (data & v & seq & _ & -> & _). by rewrite <-Ek.
Qed.

(** Reopening. *)
Lemma crash_reopened w2 st' w3 :
  restarts root w' w2 → Open root w2 = (Some (FromValue st'), w3) →
  ms_inv (w_db w3) ∧ st' = mkLocalObjectStore root (mkWal true (WalPath root) 1) 0 ∧
  w_files w3 !! WalPath root = Some [] ∧ (∀ k, is_Some (ms_rows (w_db w3) !! k) → K k) ∧
  ∀ k, K k → old_or_written k (cell_of root (w_files w3) (w_db w3) k).
Proof.
  intros Hres HO. destruct crash_Pendings as (pend & Hkeys & HpK & HP & Hrows & Hrest).
  assert (∀ b c1, write_of fin_cell b c1 → write_of mid_cell b c1) as Hfm.
  { intros b c1 (j & req & p & data & v & seq & Hj & Hw & E & Hf). exists j, req, p, data, v, seq.
    split_and!; try done. by left. }
  eapply restarts_spec in HO; [| |exact HP|exact Hres].
  2:{ intros fs db HP'. apply wp_Open_pendings; [done|done| |done]. intros b fs1 db1 _ Hi1 Hm. by apply write_of_record. }
  destruct HO as ([((Hi & Hf & Hr & _) & _) HF] & -> & Hl). split_and!; try done.
  - intros k Hk. destruct (decide (k ∈ wr_key <$> pend)) as [(b & -> & Hb)%list_elem_of_fmap|Hn]; [by apply HpK|].
    rewrite Hr in Hk by done. by apply Hrows.
  - intros k Hk. destruct (decide (k ∈ wr_key <$> pend)) as [(b & -> & Hb)%list_elem_of_fmap|Hn].
    + destruct (HF b Hb) as (j & req & p & data & v & seq & Hj & Hw & E & Hfin). subst b. cbn in *.
      destruct Hfin as [Hfin|Hfin]; [by left|]. right. by exists j, req, p, data, v.
    + specialize (Hrest k Hk Hn). unfold cell_of in *. by rewrite Hr, Hf.
Qed.
End crash.

(** ** The history of calls without I/O errors *)

Definition cell_intact (c : cell) : Prop :=
  ∀ m, c.1 = Some m → om_deleted m = false → ∃ p, c.2 = Some p ∧ Sha256Hex p = om_checksum m.

Lemma new_cell_intact key data v c : new_cell key data v c → cell_intact c.
Proof. intros (m & p & -> & (_ & _ & Hc & _) & Hs). intros m' [= <-] _. exists p. by rewrite Hc. Qed.

(** A call that did not fail keeps the object or makes the next version. *)
Lemma spec_step S exact req (c0 c1 : cell) a :
  crash_safe req → ¬ reply_failed a → req_spec S exact req c0 a c1 → 0 <= cell_version c0 < 2 ^ 64 - 1 →
  c1 = c0 ∨ ∃ data v, writes req c0 data v ∧ new_cell (req_key req) data v c1.
Proof.
  intros Hs Hf Hspec Hv. unfold req_spec in Hspec. destruct (refused req) as [a'|]; [by left; apply Hspec|].
  assert (∀ key data conditional expected rid r,
    ¬ io_failed r → put_spec key data 0 conditional expected rid c0 r c1 →
    c1 = c0 ∨ ∃ v, row_decision key c0.1 0 conditional expected rid = inr (inr v) ∧ new_cell key data v c1) as Hput.
  { intros key data conditional expected rid r Hr [(s & -> & Hc & _)|Hp]; [by destruct Hr; exists s|].
    destruct (row_decision _ _ _ _ _ _) as [m|[s|v]]; [by left; apply Hp..|].
    destruct Hp as [(m & -> & Hm & _ & ->)|(s & -> & Hc & _)]; [|by destruct Hr; exists s].
    right. exists v. split; [done|]. by exists m, data. }
  destruct req as [key data|key data v|key data expected rid|key|key|key]; try done; destruct a as [r|r|s]; try done.
  - destruct (Hput _ _ _ _ _ _ Hf Hspec) as [?|(v & ? & ?)]; [by left|]. right. by exists data, v.
  - destruct (Hput _ _ _ _ _ _ Hf Hspec) as [?|(v & ? & ?)]; [by left|]. right. by exists data, v.
  - left. by destruct Hspec.
  - left. by destruct Hspec.
Qed.

Lemma sequential_intact S exact cells0 h cells (k : bytes) :
  sequential S exact cells0 h cells → Forall (λ e, crash_safe e.1 ∧ ¬ reply_failed e.2) h →
  cell_intact (cells0 k) → 0 <= cell_version (cells0 k) →
  cell_version (cells0 k) + Zlen h < 2 ^ 64 - 1 →
  cell_intact (cells k) ∧ 0 <= cell_version (cells k) <= cell_version (cells0 k) + Zlen h.
Proof.
  intros Hseq. induction Hseq as [cells' E|h req a cells1 cells2 _ IH Hspec Hoth]; intros Hh Hi Hv Hb.
  { rewrite E. split; [done|]. cbn. lia. }
  apply Forall_app in Hh as [Hh [Hs Hf]%Forall_singleton]. cbn [fst snd] in Hs, Hf.
  rewrite length_app in *. cbn [length] in *.
  destruct IH as [Hi1 Hv1]; [done..|lia|].
  destruct (decide (k = req_key req)) as [->|Hne]; [|rewrite Hoth by done; split; [done|lia]].
  destruct (spec_step _ _ _ _ _ _ Hs Hf Hspec) as [->|(data & v & Hw & Hn)]; [lia|split; [done|lia]|].
  split; [by eapply new_cell_intact|]. apply writes_version in Hw; [|lia].
  destruct Hn as (m & p & -> & (_ & _ & _ & Em & _) & _). unfold cell_version at 1 2. cbn [fst from_option]. lia.
Qed.

(** Without deletions it does not matter whether their reports are exact. *)
Lemma sequential_exact S (P Q : Prop) cells0 h cells :
  Forall (λ e, crash_safe e.1) h → sequential S P cells0 h cells → sequential S Q cells0 h cells.
Proof.
  intros Hh Hseq. induction Hseq as [|h req a cells1 cells2 _ IH Hspec Hoth]; [by constructor|].
  apply Forall_app in Hh as [Hh Hs]. apply Forall_cons in Hs as [Hs _]. cbn [fst] in Hs.
  eapply sequential_snoc; [by apply IH| |done]. destruct req; [exact Hspec..|destruct Hs].
Qed.

(** The requests of the threads stay the same. *)
Lemma turn_reqs {DB} `{!Sqlite DB} getpid root hash i (c c' : Config (DB := DB)) h :
  turn getpid root hash i c = Stepped c' h → thread_req <$> c_threads c' = thread_req <$> c_threads c.
Proof.
  unfold turn, set_thread, set_shard.
  destruct (c_threads c !! i) as [[req|req [a|B m k]|req a]|] eqn:Ei; try done; repeat case_match; try done;
    intros [= <- <-]; cbn [c_threads]; rewrite list_fmap_insert; apply list_insert_id;
    by rewrite list_lookup_fmap, Ei.
Qed.

Lemma runs_reqs {DB} `{!Sqlite DB} getpid root hash reqs st (w : World DB) s h c :
  runs getpid root hash (Config_new reqs st w) s h c → thread_req <$> c_threads c = reqs.
Proof.
  induction 1 as [|s h c1 i c2 h' _ IH Ht].
  - cbn [c_threads Config_new]. rewrite <-list_fmap_compose. apply list_fmap_id.
  - by rewrite (turn_reqs _ _ _ _ _ _ _ Ht).
Qed.

Lemma runs_thread {DB} `{!Sqlite DB} getpid root hash reqs st (w : World DB) s h c j t :
  runs getpid root hash (Config_new reqs st w) s h c → c_threads c !! j = Some t → thread_req t ∈ reqs.
Proof.
  intros Hr Hj. rewrite <-(runs_reqs _ _ _ _ _ _ _ _ _ Hr). apply list_elem_of_fmap. exists t.
  split; [done|by eapply list_elem_of_lookup_2].
Qed.

(** ** Properties *)

Section theorem.
Context {DB : Type} `{SqliteLaws DB}.
Variable (S : outcome → Prop) (getpid : Z) (root : path) (hash : bytes → Z) (K : bytes → Prop).
Hypothesis HK : ∀ k1 k2, K k1 → K k2 → KeyDigest k1 = KeyDigest k2 → k1 = k2.

Lemma history_safe reqs st (w : World DB) s h c :
  runs getpid root hash (Config_new reqs st w) s h c → Forall crash_safe reqs →
  Forall (λ a, ¬ reply_failed a) h.*2 →
  Forall (λ e, crash_safe e.1 ∧ ¬ reply_failed e.2) h ∧
  ∀ j req a, c_threads c !! j = Some (Returned req a) → ¬ reply_failed a.
Proof.
  intros Hr Hs Hf. pose proof (returned_runs _ _ _ _ _ _ _ Hr) as Hperm. rewrite returned_new in Hperm.
  assert (∀ req a, (req, a) ∈ h ↔ ∃ j, c_threads c !! j = Some (Returned req a)) as Hh.
  { intros req a. change h with ([] ++ h). rewrite <-Hperm. unfold returned. rewrite list_elem_of_omap. split.
    - intros (t & [j Hj]%list_elem_of_lookup_1 & Et). exists j. destruct t; try done. by injection Et as -> ->.
    - intros [j Hj]. exists (Returned req a). split; [by eapply list_elem_of_lookup_2|done]. }
  rewrite list.Forall_forall in Hs. rewrite list.Forall_forall in Hf.
  assert (∀ req a, (req, a) ∈ h → ¬ reply_failed a) as Hf'.
  { intros req a Hin. apply Hf, list_elem_of_fmap. by exists (req, a). }
  split.
  - apply list.Forall_forall. intros [req a] Hin. split; [|by eapply Hf'].
    apply Hh in Hin as [j Hj]. apply Hs. by apply (runs_thread _ _ _ _ _ _ _ _ _ _ _ Hr Hj).
  - intros j req a Hj. eapply Hf', Hh. by exists j.
Qed.

(** C6: acknowledged writes survive a crash in the middle of concurrent calls, and
    the others are atomic.  Threads call [Put], [PutConditional], [Get] and [Head]
    in any interleaving; every system call they make succeeds, a write or a read
    possibly in part, until the one in which the process dies ([¬ may_fail S]: an
    append to the log that fails half-way leaves a torn record before those of the
    other threads, and is excluded); database calls may fail, but none of the calls
    that returned reported an I/O error.  The process dies inside a system call or
    database call of one thread, with any number of other calls half done and their
    log records interleaved; it is then restarted any number of times, crashing at
    any point of recovery, until [Open] succeeds.  Then the store is in order, and
    every key is as the calls that had returned left it (in the order they
    returned), or as a write that was under way at the crash would have left it:
    the next version, with its row and a payload of its checksum. *)
Theorem concurrent_writes_survive_crash reqs st w s h c i w1 w2 st' w3 :
  ¬ may_fail S → calls_ready S root K reqs st w (length s) → Forall crash_safe reqs →
  (∀ k, K k → 0 <= cell_version (cell_of root (w_files w) (w_db w) k) ∧
     cell_version (cell_of root (w_files w) (w_db w) k) + Zlen h < 2 ^ 64 - 1) →
  runs getpid root hash (Config_new reqs st w) s h c → Forall (λ a, ¬ reply_failed a) h.*2 →
  wal_next_seq (los_wal st) + Z.of_nat (length s) + 1 < 2 ^ 64 →
  turn getpid root hash i c = Crashed w1 →
  restarts root w1 w2 → Open root w2 = (Some (FromValue st'), w3) →
  StoreInv st' (w_files w3) (w_db w3) ∧
  ∃ cells, sequential S True (cell_of root (w_files w) (w_db w)) h cells ∧
    ∀ k, K k →
      let now := cell_of root (w_files w3) (w_db w3) k in
      now = cells k ∨
      ∃ j req p data v, c_threads c !! j = Some (Inside req p) ∧ req_key req = k ∧
        writes req (cells k) data v ∧ new_cell k data v now.
Proof.
  intros HS Hready Hsafe Hver Hruns Hfail Hseq Hcrash Hres HO.
  destruct (runs_inv S getpid root hash K HK False _ _ _ _ _ _ Hready Hruns) as (g & cells & HI & Hs & _ & Hn); [done|].
  destruct (history_safe _ _ _ _ _ _ Hruns Hsafe Hfail) as [Hh Hdone].
  assert (∀ k, K k → cell_intact (cell_of root (w_files w) (w_db w) k)) as Hint0.
  { intros k Hk m Em Hd. destruct (si_intact _ _ _ (cr_inv _ _ _ _ _ _ _ Hready) k m Em Hd) as (p & Hp & Hsha).
    exists p. rewrite <-(cr_root _ _ _ _ _ _ _ Hready). done. }
  assert (∀ k, K k → cell_intact (cells k) ∧ 0 <= cell_version (cells k) < 2 ^ 64 - 1) as Hcells.
  { intros k Hk. destruct (Hver k Hk) as [Hv0 Hvb].
    destruct (sequential_intact _ _ _ _ _ k Hs Hh (Hint0 k Hk) Hv0 Hvb) as [? ?]. split; [done|lia]. }
  destruct (crash_reopened S getpid root hash K HS HK c g cells i w1 HI) with (w2 := w2) (st' := st') (w3 := w3)
    as (Hi & -> & Hl & Hrows & Hnow); try done.
  - intros j t Hj. rewrite list.Forall_forall in Hsafe. by apply Hsafe, (runs_thread _ _ _ _ _ _ _ _ _ _ _ Hruns Hj).
  - lia.
  - intros k Hk. by apply Hcells.
  - split.
    2:{ exists cells. split; [|done]. eapply sequential_exact, Hs. eapply Forall_impl; [exact Hh|]. by intros e [? _]. }
    split; try done.
    + exists []. split; [done|]. repeat split; by constructor.
    + intros k m Em Hd.
      assert (K k) as Hk by (apply Hrows; by rewrite Em).
      assert (cell_intact (cell_of root (w_files w3) (w_db w3) k)) as Hc.
      { destruct (Hnow k Hk) as [->|(j & req & p & data & v & _ & _ & _ & Hnew)]; [by apply Hcells|by eapply new_cell_intact]. }
      by apply (Hc m).
Qed.
End theorem.

(** Two writes on different keys; the process dies when both payloads are in
    place and neither row is written. *)
Definition crash_key2 : bytes := lit "k2".
Definition crash_calls : list Request := [RPut demo_key demo_data; RPut crash_key2 (lit "bye")].
Definition crash_turns : list nat := replicate 7 0%nat ++ replicate 15 1%nat ++ replicate 8 0%nat.
Definition crash_world : World MemDb := demo_world (replicate 24 SysOk ++ [SysCrash]).
Definition short_writes (o : outcome) : Prop :=
  match o with SysOk | SysShort _ | SysCrash => True | _ => False end.
Definition crash_run := execute 7 demo_root demo_hash crash_turns (Config_new crash_calls demo_st crash_world).
Definition crash_config : Config (DB := MemDb) :=
  match crash_run.1 with inl c => c | inr w => Config_new [] demo_st w end.
Definition crash_end : World MemDb :=
  match turn 7 demo_root demo_hash 0 crash_config with Crashed w => w | _ => demo_world [] end.
Definition crash_open := Open demo_root (restart crash_end).

Definition crash_keys (k : bytes) : Prop := k ∈ [demo_key; crash_key2].

Lemma crash_keys_digest k1 k2 : crash_keys k1 → crash_keys k2 → KeyDigest k1 = KeyDigest k2 → k1 = k2.
Proof.
  assert (KeyDigest demo_key ≠ KeyDigest crash_key2) as Hne by absent.
  unfold crash_keys. rewrite !elem_of_cons.
  intros [-> |[-> |[]%not_elem_of_nil]] [-> |[-> |[]%not_elem_of_nil]] E.
  - reflexivity.
  - destruct (Hne E).
  - destruct (Hne (eq_sym E)).
  - reflexivity.
Qed.

Lemma crash_calls_ready n : (n <= 1000)%nat →
  calls_ready short_writes demo_root crash_keys crash_calls demo_st crash_world n.
Proof.
  intros Hn. split; [apply demo_inv|done| | | |cbn; lia|cbn; lia].
  - split; [|by constructor]. apply Forall_app. split; [by apply Forall_replicate|].
    by apply Forall_singleton.
  - assert (nul_free demo_key) by (apply (bool_decide_unpack _); vm_compute; done).
    assert (nul_free crash_key2) by (apply (bool_decide_unpack _); vm_compute; done).
    assert (nul_free []) by apply not_elem_of_nil.
    repeat constructor; try done; by unfold crash_keys; set_solver.
  - intros k [m Hm]. by rewrite demo_rows, lookup_empty in Hm by done.
Qed.

Lemma crash_run_runs :
  ∃ s, (length s <= 1000)%nat ∧
    runs 7 demo_root demo_hash (Config_new crash_calls demo_st crash_world) s [] crash_config.
Proof.
  assert (∃ c, crash_run = (inl c, crash_run.2)) as [c E] by (apply ran_to_end; vm_compute; reflexivity).
  assert (crash_run.2 = []) as E2 by (vm_compute; reflexivity).
  assert (crash_config = c) as -> by (unfold crash_config; by rewrite E).
  rewrite E2 in E. apply execute_runs in E as (s & Hs & Hr & _). exists s. split; [|done].
  etrans; [exact Hs|]. by vm_compute; lia.
Qed.

Lemma crashed_turn {DB} (t : Turn (DB := DB)) w0 :
  match t with Crashed _ => true | _ => false end = true →
  t = Crashed match t with Crashed w => w | _ => w0 end.
Proof. by destruct t. Qed.

Lemma crash_end_ok : turn 7 demo_root demo_hash 0 crash_config = Crashed crash_end.
Proof. apply crashed_turn. vm_compute. reflexivity. Qed.

Lemma crash_open_ok : crash_open.1 = Some (FromValue demo_st).
Proof. vm_compute. reflexivity. Qed.

Lemma concurrent_writes_survive_crash_witness :
  StoreInv demo_st (w_files crash_open.2) (w_db crash_open.2) ∧
  om_version <$> ms_rows (w_db crash_open.2) !! demo_key = Some 1 ∧
  om_version <$> ms_rows (w_db crash_open.2) !! crash_key2 = Some 1.
Proof.
  destruct crash_run_runs as (s & Hs & Hruns).
  destruct (concurrent_writes_survive_crash short_writes 7 demo_root demo_hash crash_keys crash_keys_digest
    crash_calls demo_st crash_world s [] crash_config 0 crash_end (restart crash_end) demo_st crash_open.2)
    as [Hinv _].
  - by intros [[]|[e []]].
  - by apply crash_calls_ready.
  - by repeat constructor.
  - intros k _. unfold cell_version, cell_of. cbn [fst]. rewrite demo_rows, lookup_empty by done. cbn. lia.
  - exact Hruns.
  - constructor.
  - cbn. lia.
  - exact crash_end_ok.
  - apply restarts_once, restarted_restart.
  - rewrite <-crash_open_ok. apply surjective_pairing.
  - split; [exact Hinv|]. split; vm_compute; reflexivity.
Defined.
