(* ===== verification/Http.v ===== *)
(** * HTTP

    [src/network/http_server.cc] and [src/network/http_client.cc]: the server that
    parses a request, calls a handler and writes its response, and the client of
    the command-line tool.  The kernel cuts a byte stream into chunks as it likes:
    what [::read] returns is a list of chunks, the end of the list (or an empty
    chunk) standing for the end of the stream or an error. *)

From stdpp Require Import base gmap list numbers.
From Stdlib Require Import ZArith Lia.
From S2P Require Import Prelude Status Text.

Local Open Scope Z_scope.

(** ** Messages *)

Record HttpRequest := mkHttpRequest {
  rq_method : bytes;
  rq_path : bytes;
  rq_query : gmap bytes bytes;
  rq_body : bytes;
}.

Record HttpResponse := mkHttpResponse {
  rs_status : Z;
  rs_content_type : bytes;
  rs_body : bytes;
  rs_headers : gmap bytes bytes;
}.

Definition HttpResponse_default : HttpResponse := mkHttpResponse 200 (lit "application/octet-stream") [] ∅.

Record HttpClientResponse := mkHttpClientResponse {
  cr_status : Z;
  cr_body : bytes;
  cr_headers : gmap bytes bytes;
}.

(** ** The server *)

Definition ReasonPhrase (status : Z) : bytes :=
  match status with
  | 200 => lit "OK"
  | 201 => lit "Created"
  | 204 => lit "No Content"
  | 400 => lit "Bad Request"
  | 404 => lit "Not Found"
  | 409 => lit "Conflict"
  | 422 => lit "Unprocessable Entity"
  | 500 => lit "Internal Server Error"
  | 503 => lit "Service Unavailable"
  | _ => lit "OK"
  end.

(** What [::write] does: it takes some bytes, is interrupted, or fails. *)
Inductive write_result := Wrote (n : nat) | Eintr | WriteFailed.

(** The loop of [WriteAll], over the results of its [::write] calls: whether it
    succeeded, and what went out.  After the script every call takes all it is
    given. *)
Fixpoint WriteAll (script : list write_result) (data : bytes) : bool * bytes :=
  match data with
  | [] => (true, [])
  | _ =>
      match script with
      | [] => (true, data)
      | Eintr :: script => WriteAll script data
      | WriteFailed :: _ => (false, [])
      | Wrote n :: script =>
          let '(ok, out) := WriteAll script (drop n data) in (ok, take n data ++ out)
      end
  end.

(** One [key=value] of a query string. *)
Definition add_param (query : gmap bytes bytes) (pair : bytes) : gmap bytes bytes :=
  match find (lit "=") pair with
  | None => <[pair := []]> query
  | Some eq => <[substr pair 0 eq := substr_from pair (eq + 1)]> query
  end.

(** The path and the parameters of a request target. *)
Definition ParseTarget (target : bytes) : bytes * gmap bytes bytes :=
  match find (lit "?") target with
  | None => (target, ∅)
  | Some q => (substr target 0 q, foldl add_param ∅ (getlines (bZ 38) (substr_from target (q + 1))))
  end.

Definition header_end : bytes := crlf ++ crlf.

(** Read until the header block is there: where it ends, what was read, and the
    chunks still to come. *)
Fixpoint read_head (buf : bytes) (chunks : list bytes) : option (nat * bytes * list bytes) :=
  match find header_end buf with
  | Some i => Some (i, buf, chunks)
  | None =>
      match chunks with
      | [] | [] :: _ => None
      | chunk :: chunks => read_head (buf ++ chunk) chunks
      end
  end.

(** A header line: its name in lower case, and its value. *)
Definition parse_header (line : bytes) : option (bytes * bytes) :=
  match find (lit ":") line with
  | None => None
  | Some colon => Some (tolower <$> substr line 0 colon, strip_spaces (substr_from line (colon + 1)))
  end.

(** The header loop: the content length, [None] once [std::stoul] throws. *)
Fixpoint parse_headers (content_length : Z) (lines : list bytes) : option Z :=
  match lines with
  | [] => Some content_length
  | line :: lines =>
      match parse_header (pop_cr line) with
      | Some (name, value) =>
          if bool_decide (name = lit "content-length") then
            match stoul value with
            | Some n => parse_headers n lines
            | None => None
            end
          else parse_headers content_length lines
      | None => parse_headers content_length lines
      end
  end.

Fixpoint read_body (content_length : Z) (body : bytes) (chunks : list bytes) : bytes :=
  if Zlen body <? content_length then
    match chunks with
    | [] | [] :: _ => body
    | chunk :: chunks => read_body content_length (body ++ chunk) chunks
    end
  else body.

Definition header_line (name value : bytes) : bytes := name ++ lit ": " ++ value ++ crlf.

Definition response_bytes (resp : HttpResponse) : bytes :=
  lit "HTTP/1.1 " ++ to_string (rs_status resp) ++ lit " " ++ ReasonPhrase (rs_status resp) ++ crlf
  ++ header_line (lit "Content-Length") (to_string (Zlen (rs_body resp)))
  ++ header_line (lit "Content-Type") (rs_content_type resp)
  ++ concat ((λ e, header_line e.1 e.2) <$> in_order bytes_le (rs_headers resp))
  ++ lit "Connection: close" ++ crlf ++ crlf
  ++ rs_body resp.

(** The request line and the content length of a header block. *)
Definition parse_head (head : bytes) : HttpRequest * option Z :=
  let '(request_line, rest) := getline LF head in
  let '(method, rl) := extract (pop_cr request_line) in
  let '(target, _) := extract rl in
  let '(path, query) := ParseTarget target in
  (mkHttpRequest method path query [], parse_headers 0 (getlines LF rest)).

(** How a connection ends. *)
Inductive connection :=
  | Closed                (** the stream ended within the header block *)
  | Threw                 (** [std::stoul] threw *)
  | Replied (out : bytes). (** the bytes that went out *)

Section serve.
Context {S : Type} (handler : HttpRequest → S → HttpResponse * S).

Definition ServeConnection (chunks : list bytes) (writes : list write_result) (s : S) : connection * S :=
  match read_head [] chunks with
  | None => (Closed, s)
  | Some (i, buf, chunks) =>
      match parse_head (substr buf 0 i) with
      | (_, None) => (Threw, s)
      | (req, Some content_length) =>
          let body := read_body content_length (substr_from buf (i + 4)) chunks in
          let '(resp, s) := handler (mkHttpRequest (rq_method req) (rq_path req) (rq_query req) body) s in
          (Replied (WriteAll writes (response_bytes resp)).2, s)
      end
  end.
End serve.

(** ** The client *)

Definition request_bytes (host method target body content_type : bytes) : bytes :=
  method ++ lit " " ++ target ++ lit " HTTP/1.1" ++ crlf
  ++ header_line (lit "Host") host
  ++ header_line (lit "Content-Type") content_type
  ++ header_line (lit "Content-Length") (to_string (Zlen body))
  ++ lit "Connection: close" ++ crlf ++ crlf
  ++ body.

(** The header loop of the client, from the line break at [pos]; [fuel] is enough
    when it is the length of the header block. *)
Fixpoint client_headers (fuel : nat) (head : bytes) (pos : option nat) (headers : gmap bytes bytes)
    : gmap bytes bytes :=
  match fuel, pos with
  | S fuel, Some pos =>
      let line_start := (pos + 2)%nat in
      let line_end := find_from crlf head line_start in
      let line := match line_end with
                  | None => substr_from head line_start
                  | Some e => substr head line_start (e - line_start)
                  end in
      client_headers fuel head line_end
        match parse_header line with Some (name, value) => <[name := value]> headers | None => headers end
  | _, _ => headers
  end.

Definition parse_response (resp : bytes) : HttpClientResponse :=
  let status :=
    match find (lit " ") resp with
    | Some sp => if (sp + 4 <=? length resp)%nat then atoi (substr resp (sp + 1) 3) else 0
    | None => 0
    end in
  match find header_end resp with
  | None => mkHttpClientResponse status [] ∅
  | Some i =>
      let head := substr resp 0 i in
      mkHttpClientResponse status (substr_from resp (i + 4))
        (client_headers (length head) head (find crlf head) ∅)
  end.

(** The client's side of a socket: the error texts of [::socket] and [::connect],
    what [::write] does, and what the peer answers to the bytes that went out. *)
Record Socket := mkSocket {
  sk_socket : option bytes;
  sk_host_ok : bool;
  sk_connect : option bytes;
  sk_writes : list write_result;
  sk_peer : bytes → bytes;
}.

Definition Request (sk : Socket) (host method target body content_type : bytes) : StatusOr HttpClientResponse :=
  match sk_socket sk with
  | Some e => FromStatus (IoError (lit "socket: " ++ e))
  | None =>
      if sk_host_ok sk then
        match sk_connect sk with
        | Some e => FromStatus (Unavailable (lit "connect to " ++ host ++ lit " failed: " ++ e))
        | None =>
            let '(ok, sent) := WriteAll (sk_writes sk) (request_bytes host method target body content_type) in
            if ok then FromValue (parse_response (sk_peer sk sent))
            else FromStatus (IoError (lit "write request failed"))
        end
      else FromStatus (InvalidArgument (lit "bad host: " ++ host))
  end.

(** ** Writing *)

(** [WriteAll] succeeds exactly when it has written everything, in order. *)
Lemma WriteAll_true script data out : WriteAll script data = (true, out) → out = data.
Proof.
  revert data out. induction script as [|w script IH]; intros data out; destruct data as [|c data];
    cbn [WriteAll]; try (by intros [= <-]).
  destruct w as [n| |]; [|by apply IH|done].
  destruct (WriteAll script (drop n (c :: data))) as [ok out'] eqn:E. intros [= -> <-].
  apply IH in E as ->. by rewrite take_drop.
Qed.

(** What went out is a prefix of what was to be written. *)
Lemma WriteAll_prefix script data : (WriteAll script data).2 `prefix_of` data.
Proof.
  revert data. induction script as [|w script IH]; intros data; destruct data as [|c data]; cbn [WriteAll];
    try done. destruct w as [n| |]; [|done|apply prefix_nil].
  specialize (IH (drop n (c :: data))). destruct (WriteAll script (drop n (c :: data))) as [ok out]. cbn in *.
  rewrite <-(take_drop n (c :: data)) at 2. by apply prefix_app.
Qed.

(** ** Header blocks

    A header block is a first line and further lines, each after a line break. *)

Definition block (lines : list bytes) : bytes := concat ((λ l, crlf ++ l) <$> lines).

(** A header line without its line break. *)
Definition hline (name value : bytes) : bytes := name ++ lit ": " ++ value.

Definition line_ok (l : bytes) : Prop := CR ∉ l ∧ l ≠ [].

Lemma block_app ls ls' : block (ls ++ ls') = block ls ++ block ls'.
Proof. unfold block. by rewrite fmap_app, concat_app. Qed.

Lemma block_shift ls : crlf ++ concat ((λ l, l ++ crlf) <$> ls) = block ls ++ crlf.
Proof.
  induction ls as [|l ls IH]; [done|]. unfold block in *. cbn [fmap list_fmap concat].
  by rewrite <-!app_assoc, IH, !app_assoc.
Qed.

(** The end of a header block is where it seems. *)
Lemma find_header_end first ls rest :
  CR ∉ first → Forall line_ok ls →
  find header_end (first ++ block ls ++ header_end ++ rest) = Some (length (first ++ block ls)).
Proof.
  intros Hf Hls. revert first Hf. induction Hls as [|l ls [Hl Hne] _ IH]; intros first Hf.
  { cbn [block fmap list_fmap concat app]. rewrite app_nil_r. by apply (find_at CR [LF; CR; LF]). }
  unfold block in *. cbn [fmap list_fmap concat].
  change header_end with (CR :: [LF; CR; LF]) at 1. rewrite find_skip by done.
  destruct l as [|c l]; [done|]. apply not_elem_of_cons in Hl as [Hc Hl].
  rewrite <-!app_assoc. change (crlf ++ (c :: l) ++ ?r) with (CR :: LF :: c :: l ++ r).
  assert (CR ∉ c :: l) as Hcl by (by apply not_elem_of_cons).
  rewrite find_step.
  2: { apply bool_decide_eq_false. intros Hp. do 2 apply prefix_cons_inv_2 in Hp. by apply prefix_cons_inv_1 in Hp. }
  rewrite find_step by (by apply starts_with_head).
  specialize (IH (c :: l) Hcl). change header_end with (CR :: [LF; CR; LF]) in IH at 1.
  cbn [app] in IH. rewrite IH. cbn. rewrite !length_app. cbn. f_equal.
  rewrite !length_app. cbn. lia.
Qed.

(** ** Reading a request *)

Definition nonempty (chunk : bytes) : Prop := chunk ≠ [].

(** However the stream is cut, the header block is found where it is. *)
Lemma read_head_spec chunks buf i :
  Forall nonempty chunks → find header_end (buf ++ concat chunks) = Some i →
  ∃ buf' chunks', read_head buf chunks = Some (i, buf', chunks') ∧ buf' ++ concat chunks' = buf ++ concat chunks ∧
    find header_end buf' = Some i ∧ Forall nonempty chunks'.
Proof.
  intros Hne. revert buf. induction Hne as [|c cs Hc Hcs IH]; intros buf Hf.
  - exists buf, []. cbn [concat] in *. rewrite app_nil_r in *. cbn [read_head]. by rewrite Hf.
  - cbn [read_head]. destruct (find header_end buf) as [j|] eqn:Ej.
    + pose proof (find_mono _ _ (concat (c :: cs)) _ Ej) as Em. rewrite Hf in Em. injection Em as ->.
      exists buf, (c :: cs). split; [done|]. split; [done|]. split; [done|]. by constructor.
    + destruct c as [|b c]; [done|]. cbn [concat] in Hf. rewrite app_assoc in Hf.
      destruct (IH _ Hf) as (buf' & cs' & E & Eapp & Ef & Hcs'). exists buf', cs'. split; [done|].
      split; [|done]. by rewrite Eapp, <-app_assoc.
Qed.

Lemma read_body_spec chunks body n :
  Forall nonempty chunks → Zlen (body ++ concat chunks) = n → read_body n body chunks = body ++ concat chunks.
Proof.
  intros Hne. revert body. induction Hne as [|c cs Hc Hcs IH]; intros body Hn; cbn [read_body].
  { cbn [concat]. rewrite app_nil_r. by case_bool. }
  destruct (Zlen body <? n) eqn:E; prop_bool.
  - destruct c as [|b c]; [done|]. rewrite IH; cbn [concat] in *; by rewrite <-?app_assoc.
  - exfalso. rewrite length_app in Hn. cbn [concat] in Hn. rewrite length_app in Hn.
    destruct c as [|b c]; [done|]. simpl in Hn. lia.
Qed.

(** The lines of a header block, as [std::getline] sees them. *)
Lemma getlines_block l ls :
  Forall (λ l, line_ok l ∧ LF ∉ l) (l :: ls) → pop_cr <$> getlines LF (l ++ block ls) = l :: ls.
Proof.
  revert l. induction ls as [|l' ls IH]; intros l [[[Hcr Hne] Hlf] Hls]%Forall_cons_1.
  - unfold block. cbn [fmap list_fmap concat]. rewrite app_nil_r, getlines_last by done.
    cbn. by rewrite pop_cr_id.
  - unfold block in *. cbn [fmap list_fmap concat].
    replace (l ++ (crlf ++ l') ++ concat ((λ l, crlf ++ l) <$> ls))
      with ((l ++ [CR]) ++ LF :: (l' ++ concat ((λ l, crlf ++ l) <$> ls))) by (by rewrite <-!app_assoc).
    rewrite getlines_app.
    + rewrite fmap_cons, IH by done. by rewrite pop_cr_app.
    + rewrite not_elem_of_app. split; [done|]. by apply not_elem_of_cons; split; [|apply not_elem_of_nil].
Qed.

Lemma parse_headers_ext n ls ls' : pop_cr <$> ls = pop_cr <$> ls' → parse_headers n ls = parse_headers n ls'.
Proof.
  revert n ls'. induction ls as [|l ls IH]; intros n [|l' ls'] E; try done. injection E as El E.
  cbn [parse_headers]. rewrite El. destruct (parse_header (pop_cr l')) as [[name value]|]; [|by apply IH].
  case_bool; [|by apply IH]. destruct (stoul value); [|done]. by apply IH.
Qed.

Lemma pop_cr_lines ls : Forall (λ l, line_ok l ∧ LF ∉ l) ls → pop_cr <$> ls = ls.
Proof. induction 1 as [|l ls [[Hl _] _] _ IH]; [done|]. cbn. by rewrite pop_cr_id, IH. Qed.

Lemma parse_header_hline name value :
  bZ 58 ∉ name → parse_header (hline name value) = Some (tolower <$> name, strip_spaces value).
Proof.
  intros Hn. unfold parse_header, hline. change (lit ":") with [bZ 58].
  change (lit ": " ++ value) with ([bZ 58] ++ (SP :: value)). rewrite find_at by done. f_equal. f_equal.
  - unfold substr. by rewrite drop_0, take_app_length.
  - unfold substr_from. rewrite Nat.add_1_r. cbn [app].
    rewrite (drop_app_ge name) by lia. replace (S (length name) - length name)%nat with 1%nat by lia. done.
Qed.

(** The request line. *)
Lemma extract_request_line method target :
  no_space method → method ≠ [] → no_space target → target ≠ [] →
  ∃ rest, extract (method ++ lit " " ++ target ++ lit " HTTP/1.1") = (method, rest) ∧ (extract rest).1 = target.
Proof.
  intros Hm Hmne Ht Htne. exists (SP :: target ++ lit " HTTP/1.1"). split.
  - by apply (extract_word method SP).
  - rewrite extract_space. change (lit " HTTP/1.1") with (SP :: lit "HTTP/1.1"). by rewrite extract_word.
Qed.

Definition request_lines (host body content_type : bytes) : list bytes :=
  [hline (lit "Host") host; hline (lit "Content-Type") content_type;
   hline (lit "Content-Length") (to_string (Zlen body)); lit "Connection: close"].

Definition request_line (method target : bytes) : bytes := method ++ lit " " ++ target ++ lit " HTTP/1.1".

Lemma request_bytes_block host method target body content_type :
  request_bytes host method target body content_type =
  request_line method target ++ block (request_lines host body content_type) ++ header_end ++ body.
Proof.
  unfold request_bytes, request_line, request_lines, block, header_line, hline, header_end.
  cbn [fmap list_fmap concat]. by rewrite <-!app_assoc.
Qed.

(** A request the client can send: a method and a target without white space, and
    header values without line breaks. *)
Record request_ok (host method target body content_type : bytes) : Prop := {
  ro_method : no_space method ∧ method ≠ [];
  ro_target : no_space target ∧ target ≠ [];
  ro_host : CR ∉ host ∧ LF ∉ host;
  ro_content_type : CR ∉ content_type ∧ LF ∉ content_type;
  ro_body : is_u64 (Zlen body);
}.

Lemma no_space_not_in s c : no_space s → is_space c = true → c ∉ s.
Proof. intros Hs Hc Hin. unfold no_space in Hs. rewrite list.Forall_forall in Hs. rewrite (Hs c Hin) in Hc. done. Qed.

Lemma digits_not_in s c : all_digits s → is_digit c = false → c ∉ s.
Proof. intros Hs Hc Hin. unfold all_digits in Hs. rewrite list.Forall_forall in Hs. rewrite (Hs c Hin) in Hc. done. Qed.

Lemma to_string_clean z c : 0 ≤ z → is_digit c = false → c ∉ to_string z.
Proof. intros Hz. apply digits_not_in. by apply to_string_digits. Qed.

Lemma not_in_hline c name value :
  c ∉ name → c ∉ lit ": " → c ∉ value → c ∉ hline name value.
Proof. intros ???. unfold hline. by rewrite !not_elem_of_app. Qed.

Lemma hline_ok name value : CR ∉ name → CR ∉ value → line_ok (hline name value).
Proof.
  intros ??. split; [by apply not_in_hline; [|vm_compute; set_solver|]|]. unfold hline. by destruct name.
Qed.

Lemma parse_headers_cons n name value ls :
  bZ 58 ∉ name → CR ∉ hline name value →
  parse_headers n (hline name value :: ls) =
  if bool_decide (tolower <$> name = lit "content-length") then
    match stoul (strip_spaces value) with Some n => parse_headers n ls | None => None end
  else parse_headers n ls.
Proof. intros Hn Hcr. cbn [parse_headers]. by rewrite pop_cr_id, parse_header_hline by done. Qed.

Lemma strip_spaces_number z : 0 ≤ z → strip_spaces (to_string z) = to_string z.
Proof.
  intros Hz. apply strip_spaces_id. pose proof (to_string_clean z SP Hz eq_refl) as Hn.
  destruct (to_string z) as [|c s]; [done|]. intros [= ->]. apply Hn. by left.
Qed.

Section request.
Context (host method target body content_type : bytes).
Hypothesis Hok : request_ok host method target body content_type.

Lemma request_line_clean c : is_space c = true → c ≠ SP → c ∉ request_line method target.
Proof using Hok.
  intros Hc Hsp. destruct Hok as [[Hm _] [Ht _] _ _ _]. unfold request_line.
  rewrite !not_elem_of_app. split; [by apply no_space_not_in|]. split; [|split; [by apply no_space_not_in|]].
  - change (lit " ") with [SP]. rewrite list_elem_of_singleton. done.
  - change (lit " HTTP/1.1") with (SP :: lit "HTTP/1.1"). rewrite not_elem_of_cons. split; [done|].
    apply no_space_not_in; [|done]. unfold no_space. absent.
Qed.

Lemma request_lines_ok : Forall (λ l, line_ok l ∧ LF ∉ l) (request_lines host body content_type).
Proof using Hok.
  destruct Hok as [_ _ [Hhc Hhl] [Hcc Hcl] Hb]. unfold is_u64 in Hb. unfold request_lines.
  repeat constructor; try (by apply hline_ok; [absent|]);
    try (apply hline_ok; [absent|apply to_string_clean; [lia|done]]);
    try (apply not_in_hline; [absent|absent|done]);
    try (apply not_in_hline; [absent|absent|apply to_string_clean; [lia|done]]); try absent; try done.
Qed.

Lemma parse_head_request :
  parse_head (request_line method target ++ block (request_lines host body content_type)) =
  (mkHttpRequest method (ParseTarget target).1 (ParseTarget target).2 [], Some (Zlen body)).
Proof using Hok.
  pose proof request_lines_ok as Hls. pose proof (request_line_clean CR eq_refl ltac:(done)) as Hcr.
  pose proof (request_line_clean LF eq_refl ltac:(done)) as Hlf.
  destruct Hok as [[Hm Hmne] [Ht Htne] _ _ Hb].
  destruct (extract_request_line method target Hm Hmne Ht Htne) as (rest & E1 & E2).
  unfold request_lines in *. remember [_; _; lit "Connection: close"] as ls eqn:Els. unfold parse_head.
  replace (request_line method target ++ block (hline (lit "Host") host :: ls))
    with ((request_line method target ++ [CR]) ++ LF :: (hline (lit "Host") host ++ block ls)).
  2: { unfold block. cbn [fmap list_fmap concat]. by rewrite <-!app_assoc. }
  rewrite getline_app.
  2: { rewrite not_elem_of_app. split; [done|]. absent. }
  rewrite pop_cr_app. unfold request_line. rewrite E1. destruct (extract rest) as [t rest']. simpl in E2. subst t.
  destruct (ParseTarget target) as [path query]. f_equal.
  rewrite (parse_headers_ext _ _ (hline (lit "Host") host :: ls)).
  2: { by rewrite getlines_block, pop_cr_lines. }
  subst ls. repeat match goal with H : Forall _ (_ :: _) |- _ => apply Forall_cons_1 in H as [[[? _] _] ?] end.
  unfold is_u64 in Hb.
  rewrite !parse_headers_cons by (done || absent).
  rewrite 2!bool_decide_eq_false_2 by (vm_compute; done). rewrite bool_decide_eq_true_2 by done.
  rewrite strip_spaces_number, stoul_to_string by (unfold is_u64; lia). done.
Qed.

(** The server gets the request that was sent. *)
Lemma serve_request {S} (handler : HttpRequest → S → HttpResponse * S) chunks writes s :
  Forall nonempty chunks → concat chunks = request_bytes host method target body content_type →
  ServeConnection handler chunks writes s =
  let '(resp, s) := handler (mkHttpRequest method (ParseTarget target).1 (ParseTarget target).2 body) s in
  (Replied (WriteAll writes (response_bytes resp)).2, s).
Proof using Hok.
  intros Hne Hc. rewrite request_bytes_block in Hc.
  set (head := request_line method target ++ block (request_lines host body content_type)) in *.
  destruct (read_head_spec chunks [] (length head)) as (buf & cs & Er & Eapp & Ef & Hcs); [done| |].
  { cbn [app]. rewrite Hc. apply find_header_end; [by apply request_line_clean|].
    eapply list.Forall_impl; [apply request_lines_ok|]. by intros l [? _]. }
  cbn [app] in Eapp. rewrite Hc, app_assoc in Eapp. fold head in Eapp.
  (* the header block lies within the buffer *)
  apply find_Some in Ef as [Hp _]. apply prefix_length in Hp as Hlen. rewrite length_drop in Hlen. simpl in Hlen.
  assert (take (length head) buf = head) as Ehead.
  { rewrite <-(take_app_le buf (concat cs)) by lia. rewrite Eapp. apply take_app_length. }
  assert (drop (length head + 4) buf ++ concat cs = body) as Ebody.
  { rewrite <-drop_app_le by lia. rewrite Eapp, <-drop_drop, drop_app_length. done. }
  unfold ServeConnection. rewrite Er. unfold substr, substr_from. rewrite drop_0, Ehead.
  unfold head at 1. rewrite parse_head_request. cbn [rq_method rq_path rq_query].
  rewrite read_body_spec by (done || by rewrite Ebody). by rewrite Ebody.
Qed.
End request.

(** ** Reading a response *)

(** The effect of one header line on the client's headers. *)
Definition add_header (headers : gmap bytes bytes) (line : bytes) : gmap bytes bytes :=
  match parse_header line with Some (name, value) => <[name := value]> headers | None => headers end.

(** The client's loop goes over the lines of the block. *)
Lemma client_headers_block ls : ∀ fuel pre headers,
  Forall line_ok ls → (length ls ≤ fuel)%nat →
  client_headers fuel (pre ++ block ls) (match ls with [] => None | _ => Some (length pre) end) headers =
  foldl add_header headers ls.
Proof.
  induction ls as [|l ls IH]; intros fuel pre headers Hls Hfuel.
  { by destruct fuel. }
  destruct fuel as [|fuel]; [simpl in Hfuel; lia|]. apply Forall_cons_1 in Hls as [[Hcr Hne] Hls].
  unfold block. cbn [fmap list_fmap concat foldl client_headers]. fold (block ls).
  assert (drop (length pre + 2) (pre ++ (crlf ++ l) ++ block ls) = l ++ block ls) as Ed.
  { by rewrite <-drop_drop, drop_app_length. }
  assert (find crlf (l ++ block ls) = match ls with [] => None | _ => Some (length l) end) as Ef.
  { destruct ls as [|l' ls]; [unfold block; cbn; rewrite app_nil_r; by apply find_absent|].
    unfold block. cbn [fmap list_fmap concat]. rewrite <-!app_assoc. by apply (find_at CR [LF]). }
  unfold find_from. rewrite Ed, Ef.
  replace (pre ++ (crlf ++ l) ++ block ls) with ((pre ++ crlf ++ l) ++ block ls) by (by rewrite <-!app_assoc).
  assert (length (pre ++ crlf ++ l) = length pre + 2 + length l)%nat as El by (rewrite !length_app; simpl; lia).
  rewrite <-(IH fuel (pre ++ crlf ++ l) (add_header headers l)); [|done|simpl in Hfuel; lia].
  replace ((pre ++ crlf ++ l) ++ block ls) with (pre ++ (crlf ++ l) ++ block ls) by (by rewrite <-!app_assoc).
  destruct ls as [|l' ls]; cbn [fmap option_fmap option_map].
  - unfold substr_from. rewrite Ed. unfold block. cbn [fmap list_fmap concat]. by rewrite !app_nil_r.
  - rewrite El. f_equal. unfold add_header, substr. rewrite Ed.
    replace (length pre + 2 + length l - (length pre + 2))%nat with (length l) by lia. by rewrite take_app_length.
Qed.

Lemma length_block ls : (length ls ≤ length (block ls))%nat.
Proof.
  induction ls as [|l ls IH]; [done|]. unfold block in *. cbn [fmap list_fmap concat]. rewrite length_app. simpl in *. lia.
Qed.

(** The header lines of a response, and what the client makes of them. *)
Definition response_headers (resp : HttpResponse) : list (bytes * bytes) :=
  [(lit "Content-Length", to_string (Zlen (rs_body resp))); (lit "Content-Type", rs_content_type resp)]
  ++ in_order bytes_le (rs_headers resp) ++ [(lit "Connection", lit "close")].

Definition received_headers (resp : HttpResponse) : gmap bytes bytes :=
  foldl (λ m e, <[tolower <$> e.1 := strip_spaces e.2]> m) ∅ (response_headers resp).

(** A response that can be sent: a three-digit status, and headers without line
    breaks whose names have no colon. *)
Record response_ok (resp : HttpResponse) : Prop := {
  so_status3 : 100 ≤ rs_status resp ≤ 999;
  so_content_type : CR ∉ rs_content_type resp;
  so_headers : map_Forall (λ k v, CR ∉ k ∧ bZ 58 ∉ k ∧ CR ∉ v) (rs_headers resp);
}.

Definition status_line (status : Z) : bytes := lit "HTTP/1.1 " ++ to_string status ++ lit " " ++ ReasonPhrase status.

Definition response_lines (resp : HttpResponse) : list bytes := (λ e, hline e.1 e.2) <$> response_headers resp.

Lemma response_bytes_block resp :
  response_bytes resp = status_line (rs_status resp) ++ block (response_lines resp) ++ header_end ++ rs_body resp.
Proof.
  unfold response_bytes, status_line, response_lines, response_headers, header_end.
  rewrite <-!app_assoc. do 4 f_equal.
  set (mid := in_order bytes_le (rs_headers resp)).
  rewrite !fmap_app, !block_app. cbn [fmap list_fmap]. 
  assert (crlf ++ concat ((λ e : bytes * bytes, header_line e.1 e.2) <$> mid) = block ((λ e, hline e.1 e.2) <$> mid) ++ crlf) as Em.
  { rewrite <-block_shift, <-list_fmap_compose. do 2 f_equal. apply list_fmap_ext. intros ? e _.
    unfold header_line, hline. cbn. by rewrite <-!app_assoc. }
  unfold block at 1 3. cbn [fmap list_fmap concat]. unfold header_line, hline. cbn [fst snd].
  rewrite app_nil_r, <-!app_assoc. do 8 f_equal. unfold header_line, hline in Em.
  rewrite (app_assoc crlf (concat _)), Em. by rewrite <-!app_assoc.
Qed.

Lemma status_facts status :
  100 ≤ status ≤ 999 → length (to_string status) = 3%nat ∧ CR ∉ ReasonPhrase status.
Proof.
  intros Hs. assert (Forall (λ z, length (to_string z) = 3%nat ∧ CR ∉ ReasonPhrase z) (seqZ 100 900)) as Hall by absent.
  rewrite list.Forall_forall in Hall. apply Hall. apply elem_of_seqZ. lia.
Qed.

Section response.
Context (resp : HttpResponse).
Hypothesis Hok : response_ok resp.

Lemma status_line_clean : CR ∉ status_line (rs_status resp).
Proof using Hok.
  destruct Hok as [Hst _ _]. destruct (status_facts _ Hst) as [_ Hr]. unfold status_line.
  rewrite !not_elem_of_app. split; [absent|]. split; [apply to_string_clean; [lia|done]|]. split; [absent|done].
Qed.

Lemma response_headers_ok : Forall (λ e, CR ∉ e.1 ∧ bZ 58 ∉ e.1 ∧ CR ∉ e.2) (response_headers resp).
Proof using Hok.
  destruct Hok as [_ Hct Hh]. unfold response_headers. rewrite !Forall_app. split; [|split].
  - repeat constructor; cbn [fst snd]; try absent; try done. apply to_string_clean; [lia|done].
  - rewrite list.Forall_forall. intros [k v] Hin%elem_of_in_order. by apply Hh.
  - repeat constructor; cbn [fst snd]; absent.
Qed.

Lemma response_lines_ok : Forall line_ok (response_lines resp).
Proof using Hok.
  unfold response_lines. rewrite Forall_fmap. eapply list.Forall_impl; [apply response_headers_ok|].
  intros e (? & _ & ?). by apply hline_ok.
Qed.

Lemma received_headers_lines : foldl add_header ∅ (response_lines resp) = received_headers resp.
Proof using Hok.
  unfold response_lines, received_headers. pose proof response_headers_ok as Hh. revert Hh.
  generalize (response_headers resp) (∅ : gmap bytes bytes). intros l.
  induction l as [|e l IH]; intros m Hh; [done|]. apply Forall_cons_1 in Hh as [(_ & Hc & _) Hh].
  cbn [fmap list_fmap foldl]. unfold add_header at 2. rewrite parse_header_hline by done. by apply IH.
Qed.

Lemma parse_response_sent :
  parse_response (response_bytes resp) = mkHttpClientResponse (rs_status resp) (rs_body resp) (received_headers resp).
Proof using Hok.
  pose proof Hok as [Hst _ _]. destruct (status_facts _ Hst) as [Hlen _].
  assert (find (lit " ") (response_bytes resp) = Some 8%nat) as Esp.
  { apply (find_at SP [] (lit "HTTP/1.1")). absent. }
  assert (substr (response_bytes resp) 9 3 = to_string (rs_status resp)) as Est.
  { unfold substr, response_bytes. change 9%nat with (length (lit "HTTP/1.1 ")).
    by rewrite drop_app_length, <-Hlen, take_app_length. }
  assert (12 ≤ length (response_bytes resp))%nat as Hlong.
  { pose proof (f_equal length Est) as El. unfold substr in El. rewrite length_take, length_drop in El. lia. }
  unfold parse_response. rewrite Esp. change (8 + 1)%nat with 9%nat. rewrite Est, atoi_to_string by lia.
  replace (8 + 4 <=? length (response_bytes resp))%nat with true by (symmetry; apply Nat.leb_le; lia).
  rewrite response_bytes_block.
  rewrite find_header_end by (apply status_line_clean || apply response_lines_ok).
  unfold substr, substr_from. rewrite drop_0, (app_assoc (status_line _)), take_app_length.
  rewrite <-drop_drop, drop_app_length. f_equal.
  rewrite <-received_headers_lines, <-(client_headers_block (response_lines resp) (length (status_line (rs_status resp) ++ block (response_lines resp)))
    (status_line (rs_status resp)));
    [|apply response_lines_ok|rewrite length_app; pose proof (length_block (response_lines resp)); lia].
  f_equal. unfold response_lines, response_headers, block. cbn [app fmap list_fmap concat].
  rewrite <-!app_assoc. apply (find_at CR [LF]), status_line_clean.
Qed.
End response.

(** One exchange: the client's writes go as [cw] says and the server's as [sw],
    and [cut] is how the kernel cuts the request. *)
Section exchange.
Context {S : Type} (handler : HttpRequest → S → HttpResponse * S) (cut : bytes → list bytes).

(** What the client reads of the server's answer to what it sent. *)
Definition answer (sw : list write_result) (s : S) (sent : bytes) : bytes :=
  match (ServeConnection handler (cut sent) sw s).1 with Replied out => out | _ => [] end.

Definition http_call (cw sw : list write_result) (host method target body content_type : bytes) (s : S)
    : StatusOr HttpClientResponse * S :=
  let sent := (WriteAll cw (request_bytes host method target body content_type)).2 in
  (Request (mkSocket None true None cw (answer sw s)) host method target body content_type,
   (ServeConnection handler (cut sent) sw s).2).

Definition no_write_error (ws : list write_result) : Prop := Forall (λ w, w ≠ WriteFailed) ws.

Lemma WriteAll_no_error ws data : no_write_error ws → WriteAll ws data = (true, data).
Proof.
  intros Hws. destruct (WriteAll ws data) as [[|] out] eqn:E; [by rewrite (WriteAll_true _ _ _ E)|exfalso].
  revert data out E. induction Hws as [|w ws Hw _ IH]; intros [|c data] out; cbn [WriteAll]; try done.
  destruct w as [n| |]; [|apply IH|done]. destruct (WriteAll ws (drop n (c :: data))) as [ok out'] eqn:E.
  intros [= -> _]. by eapply IH.
Qed.

Lemma http_call_spec cw sw host method target body content_type s resp s' :
  request_ok host method target body content_type →
  (∀ b, concat (cut b) = b ∧ Forall nonempty (cut b)) →
  handler (mkHttpRequest method (ParseTarget target).1 (ParseTarget target).2 body) s = (resp, s') →
  response_ok resp → no_write_error cw → no_write_error sw →
  http_call cw sw host method target body content_type s =
  (FromValue (mkHttpClientResponse (rs_status resp) (rs_body resp) (received_headers resp)), s').
Proof.
  intros Hreq Hcut Hh Hresp Hcw Hsw.
  destruct (Hcut (request_bytes host method target body content_type)) as [Hc Hne].
  pose proof (serve_request _ _ _ _ _ Hreq handler _ sw s Hne Hc) as Es. rewrite Hh in Es.
  rewrite WriteAll_no_error in Es by done. unfold http_call, Request. cbn [sk_socket sk_host_ok sk_connect sk_writes sk_peer].
  rewrite WriteAll_no_error by done. cbn [snd]. unfold answer. rewrite Es. cbn [fst snd].
  by rewrite parse_response_sent.
Qed.
End exchange.

(** C36: a well-formed request reaches the handler as it was sent and a well-formed
    response comes back as the handler gave it.  The request is well formed
    ([request_ok]) when its method and target are not empty and have no white space,
    its host and content type have no carriage return or line feed, and the length of
    its body fits 64 bits; the response ([response_ok]) when its status has three
    digits, its content type has no carriage return, and neither have the names and
    values of its headers, whose names have no colon.  Then, however the kernel cuts
    the request into chunks and takes the bytes of both sides, as long as no write
    fails: the server calls the handler with the method, the path and parameters of
    the target and exactly the body of the request, and [HttpClient::Request] returns
    the status and the body of the response and its headers under lower-case
    names.  Neither side checks or escapes what is not well formed
    ([key_with_space_is_cut]). *)
Theorem http_exchange {S} (handler : HttpRequest → S → HttpResponse * S) (cut : bytes → list bytes) cw sw
    host method target body content_type resp s s' :
  request_ok host method target body content_type →
  (∀ b, concat (cut b) = b ∧ Forall nonempty (cut b)) →
  handler (mkHttpRequest method (ParseTarget target).1 (ParseTarget target).2 body) s = (resp, s') →
  response_ok resp → no_write_error cw → no_write_error sw →
  http_call handler cut cw sw host method target body content_type s =
  (FromValue (mkHttpClientResponse (rs_status resp) (rs_body resp) (received_headers resp)), s').
Proof. apply http_call_spec. Qed.

(** A stream that arrives byte by byte. *)
Definition bytewise (b : bytes) : list bytes := (λ c, [c]) <$> b.

Lemma bytewise_ok b : concat (bytewise b) = b ∧ Forall nonempty (bytewise b).
Proof. induction b as [|c b [IH1 IH2]]; cbn; [done|]. split; [by f_equal|]. by constructor. Qed.

(** A handler that sends the body back and keeps the requests it has seen. *)
Definition echo (req : HttpRequest) (seen : list HttpRequest) : HttpResponse * list HttpRequest :=
  (mkHttpResponse 201 (lit "text/plain") (rq_body req) {[lit "X-Path" := rq_path req]}, req :: seen).

Definition demo_request (body : bytes) : HttpRequest :=
  mkHttpRequest (lit "PUT") (lit "/objects/k") {[lit "a" := lit "1"; lit "b" := []]} body.

Lemma http_exchange_witness :
  let target := lit "/objects/k?a=1&b" in
  http_call echo bytewise [Eintr; Wrote 7] [Wrote 3; Eintr] (lit "127.0.0.1") (lit "PUT") target (lit "hello")
    (lit "text/plain") [] =
  (FromValue (mkHttpClientResponse 201 (lit "hello") (received_headers (echo (demo_request (lit "hello")) []).1)),
   [demo_request (lit "hello")]) ∧
  received_headers (echo (demo_request (lit "hello")) []).1 !! lit "x-path" = Some (lit "/objects/k").
Proof.
  intros target. split; [|vm_compute; reflexivity].
  apply (http_exchange echo bytewise [Eintr; Wrote 7] [Wrote 3; Eintr] (lit "127.0.0.1") (lit "PUT") target (lit "hello")
    (lit "text/plain") (echo (demo_request (lit "hello")) []).1 [] [demo_request (lit "hello")]).
  - split; [split; [unfold no_space; absent|done]..|split; absent|split; absent|done].
  - apply bytewise_ok.
  - vm_compute; reflexivity.
  - split; [done|absent|absent].
  - by repeat constructor.
  - by repeat constructor.
Defined.

(** ** What the server does with malformed input

    A client that goes away in the middle of its body: the handler is called with
    what had arrived. *)
Definition truncated : bytes :=
  take 106 (request_bytes (lit "h") (lit "PUT") (lit "/objects/k") (lit "hello world") (lit "text/plain")).

Lemma truncated_upload_is_served :
  (ServeConnection echo [truncated] [] []).2 = [mkHttpRequest (lit "PUT") (lit "/objects/k") ∅ (lit "hello")].
Proof. vm_compute; reflexivity. Qed.

(** A content length that is not a number throws out of [ServeConnection], before
    the handler is called: nothing is sent and the socket is not closed. *)
Lemma bad_content_length_throws :
  (ServeConnection echo [lit "PUT /objects/k HTTP/1.1" ++ crlf ++ lit "Content-Length: many" ++ header_end] [] []).1 = Threw.
Proof. vm_compute; reflexivity. Qed.

(** A target is sent as it is, and read up to the first white space: the request for
    a key with a space in it is served as one for the part before the space, and a
    key with a question mark loses what follows it. *)
Lemma key_with_space_is_cut :
  http_call echo (λ b, [b]) [] [] (lit "127.0.0.1") (lit "PUT") (lit "/objects/my file") (lit "hello") (lit "text/plain") [] =
  http_call echo (λ b, [b]) [] [] (lit "127.0.0.1") (lit "PUT") (lit "/objects/my") (lit "hello") (lit "text/plain") [] ∧
  (http_call echo (λ b, [b]) [] [] (lit "127.0.0.1") (lit "PUT") (lit "/objects/my file") (lit "hello") (lit "text/plain") []).2 =
  [mkHttpRequest (lit "PUT") (lit "/objects/my") ∅ (lit "hello")] ∧
  rq_path <$> (http_call echo (λ b, [b]) [] [] (lit "127.0.0.1") (lit "PUT") (lit "/objects/why?") (lit "hello") (lit "text/plain") []).2 =
  [lit "/objects/why"].
Proof. vm_compute. done. Qed.

(** Bytes after the body that arrive with it become part of it. *)
Lemma pipelined_bytes_join_body :
  (ServeConnection echo [request_bytes (lit "h") (lit "PUT") (lit "/k") (lit "hello") (lit "text/plain") ++ lit "GET"] [] []).2 =
  [mkHttpRequest (lit "PUT") (lit "/k") ∅ (lit "helloGET")].
Proof. vm_compute; reflexivity. Qed.

(** A response that is cut short because a write of the server failed: the client
    returns what arrived as the body. *)
Lemma truncated_response_is_accepted :
  (http_call echo (λ b, [b]) [] [Wrote 102; WriteFailed] (lit "127.0.0.1") (lit "PUT") (lit "/k") (lit "hello")
     (lit "text/plain") []).1 =
  FromValue (mkHttpClientResponse 201 (lit "he")
    (received_headers (mkHttpResponse 201 (lit "text/plain") (lit "hello") {[lit "X-Path" := lit "/k"]}))).
Proof. vm_compute; reflexivity. Qed.
