(* ===== verification/HttpServer.v ===== *)
(** * The HTTP server around its connections

    [HttpServer::Start], [AcceptLoop] and [Shutdown] of
    [src/network/http_server.cc]: the accept thread hands each connection to the
    pool of ThreadPool.v and serves it itself when the pool is full, and
    [Shutdown] stops the thread and drains the pool.  Serving a connection is
    [ServeConnection] of Http.v; here connections are numbers.  [ends] tells the
    connections whose [ServeConnection] comes to an end: it reads from the client
    without a timeout, so that it does not end while a client that has not sent its
    whole request keeps the connection open.  [throws] tells those for which it ends
    by throwing, without a response.

    A step is what a thread does between two points where the others may run.  The
    state also records the connections that were accepted and those the accept
    thread served, for the statements. *)

From stdpp Require Import base relations numbers list.
From Stdlib Require Import ZArith Lia.
From S2P Require Import Prelude Status ThreadPool.

Local Open Scope Z_scope.

Inductive accept_thread :=
  | at_none                    (** not started *)
  | at_loop                    (** at the top of [AcceptLoop] *)
  | at_accept                  (** in [::accept] *)
  | at_inline (conn : nat)     (** in [ServeConnection], the pool being full *)
  | at_exited
  | at_terminated.             (** an exception left the thread: the process ends *)

(** Where the caller of [Shutdown] is. *)
Inductive shutdown :=
  | sd_none
  | sd_stopped (was_running : bool)   (** [running_] is false *)
  | sd_closed (was_running : bool)    (** the listening socket is closed *)
  | sd_joined                         (** the accept thread is joined *)
  | sd_pool                           (** joining the workers *)
  | sd_done.

Record HttpServer := mkHttpServer {
  hs_pool : ThreadPool;
  hs_listening : bool;          (** [listen_fd_ >= 0] *)
  hs_bound_port : Z;
  hs_running : bool;
  hs_accept : accept_thread;
  hs_shutdown : shutdown;
  hs_accepted : list nat;
  hs_inline : list nat;
}.

Implicit Types s : HttpServer.

(** The constructor. *)
Definition HttpServer_new (worker_threads : nat) : HttpServer :=
  mkHttpServer (ThreadPool_new worker_threads 1024) false 0 false at_none sd_none [] [].

Definition set_pool (tp : ThreadPool) s : HttpServer :=
  mkHttpServer tp (hs_listening s) (hs_bound_port s) (hs_running s) (hs_accept s) (hs_shutdown s) (hs_accepted s) (hs_inline s).
Definition set_accept (t : accept_thread) s : HttpServer :=
  mkHttpServer (hs_pool s) (hs_listening s) (hs_bound_port s) (hs_running s) t (hs_shutdown s) (hs_accepted s) (hs_inline s).
Definition set_shutdown (sd : shutdown) s : HttpServer :=
  mkHttpServer (hs_pool s) (hs_listening s) (hs_bound_port s) (hs_running s) (hs_accept s) sd (hs_accepted s) (hs_inline s).
Definition set_listening (b : bool) s : HttpServer :=
  mkHttpServer (hs_pool s) b (hs_bound_port s) (hs_running s) (hs_accept s) (hs_shutdown s) (hs_accepted s) (hs_inline s).

(** [Start], given whether [::socket], [::bind] and [::listen] succeed and the port
    [::getsockname] reports. *)
Definition Start (socket_ok bind_ok listen_ok : bool) (sockname : option Z) s : bool * HttpServer :=
  if negb socket_ok then (false, set_listening false s)
  else if negb bind_ok then (false, set_listening false s)
  else if negb listen_ok then (false, set_listening false s)
  else (true, mkHttpServer (hs_pool s) true (default (hs_bound_port s) sockname) true at_loop (hs_shutdown s)
                (hs_accepted s) (hs_inline s)).

(** [while (running_.load())] *)
Definition AcceptLoop_top s : HttpServer := set_accept (if hs_running s then at_accept else at_exited) s.

(** [::accept] returned a connection. *)
Definition AcceptLoop_accepted (conn : nat) s : HttpServer :=
  let '(st, tp) := Submit conn (hs_pool s) in
  mkHttpServer tp (hs_listening s) (hs_bound_port s) (hs_running s) (if st_ok st then at_loop else at_inline conn)
    (hs_shutdown s) (conn :: hs_accepted s) (hs_inline s).

(** [::accept] failed, with [EINTR] or with another error. *)
Definition AcceptLoop_failed (eintr : bool) s : HttpServer :=
  set_accept (if negb (hs_running s) then at_exited else if eintr then at_loop else at_exited) s.

(** [ServeConnection] on the accept thread ends. *)
Definition AcceptLoop_served (throws : nat → bool) (conn : nat) s : HttpServer :=
  mkHttpServer (hs_pool s) (hs_listening s) (hs_bound_port s) (hs_running s)
    (if throws conn then at_terminated else at_loop) (hs_shutdown s) (hs_accepted s) (hs_inline s ++ [conn]).

(** [Shutdown]: [running_.exchange(false)], ... *)
Definition Shutdown_stop s : HttpServer :=
  mkHttpServer (hs_pool s) (hs_listening s) (hs_bound_port s) false (hs_accept s) (sd_stopped (hs_running s))
    (hs_accepted s) (hs_inline s).

(** ... closing the listening socket, ... *)
Definition Shutdown_close (was_running : bool) s : HttpServer :=
  set_shutdown (sd_closed was_running) (set_listening false s).

(** ... [accept_thread_.join()], which returns when the thread is gone, ... *)
Definition Shutdown_join (was_running : bool) s : option HttpServer :=
  match hs_accept s with
  | at_exited | at_none => Some (set_shutdown sd_joined s)
  | _ => if was_running then None else Some (set_shutdown sd_joined s)
  end.

(** ... and [pool_.Shutdown()], up to its joins, and the joins. *)
Definition Shutdown_pool s : HttpServer := set_shutdown sd_pool (set_pool (Shutdown_begin (hs_pool s)) s).
Definition Shutdown_end s : option HttpServer :=
  if all_exited (hs_pool s) then Some (set_shutdown sd_done s) else None.

Section server.
Variable ends throws : nat → bool.

(** A worker takes a connection from the queue or exits; or it is done with one. *)
Inductive serving_step (tp : ThreadPool) : ThreadPool → Prop :=
  | sv_take i tp' : Worker_take i tp = Some tp' → serving_step tp tp'
  | sv_finish i conn tp' :
      tp_workers tp !! i = Some (Running conn) → ends conn = true → Worker_finish throws i tp = Some tp' →
      serving_step tp tp'.

(** The threads of the server; [Shutdown] is called once. *)
Inductive server_step s : HttpServer → Prop :=
  | ss_top : hs_accept s = at_loop → server_step s (AcceptLoop_top s)
  | ss_accepted conn :
      hs_accept s = at_accept → hs_listening s = true → conn ∉ hs_accepted s →
      server_step s (AcceptLoop_accepted conn s)
  | ss_failed eintr : hs_accept s = at_accept → server_step s (AcceptLoop_failed eintr s)
  | ss_served conn :
      hs_accept s = at_inline conn → ends conn = true → server_step s (AcceptLoop_served throws conn s)
  | ss_worker tp : serving_step (hs_pool s) tp → server_step s (set_pool tp s)
  | ss_stop : hs_shutdown s = sd_none → server_step s (Shutdown_stop s)
  | ss_close was : hs_shutdown s = sd_stopped was → server_step s (Shutdown_close was s)
  | ss_join was s' : hs_shutdown s = sd_closed was → Shutdown_join was s = Some s' → server_step s s'
  | ss_pool : hs_shutdown s = sd_joined → server_step s (Shutdown_pool s)
  | ss_end s' : hs_shutdown s = sd_pool → Shutdown_end s = Some s' → server_step s s'.

(** A server that was started. *)
Definition started (worker_threads : nat) (sockname : option Z) : HttpServer :=
  (Start true true true sockname (HttpServer_new worker_threads)).2.

Lemma serving_worker_step tp tp' : serving_step tp tp' → worker_step throws tp tp'.
Proof. intros [i tp1 E|i conn tp1 _ _ E]; [by eapply ws_take|by eapply ws_finish]. Qed.

(** ** Invariant *)

(** The connection the accept thread is serving. *)
Definition inline_now (t : accept_thread) : list nat := match t with at_inline conn => [conn] | _ => [] end.

(** The accept thread is gone. *)
Definition accept_gone (t : accept_thread) : Prop := t = at_exited.

Definition phase_ok s : Prop :=
  match hs_shutdown s with
  | sd_none => hs_running s = true ∧ hs_listening s = true ∧ tp_stopping (hs_pool s) = false
  | sd_stopped was => was = true ∧ hs_running s = false ∧ tp_stopping (hs_pool s) = false
  | sd_closed was => was = true ∧ hs_running s = false ∧ hs_listening s = false ∧ tp_stopping (hs_pool s) = false
  | sd_joined => accept_gone (hs_accept s) ∧ tp_stopping (hs_pool s) = false
  | sd_pool => accept_gone (hs_accept s) ∧ tp_stopping (hs_pool s) = true
  | sd_done => accept_gone (hs_accept s) ∧ tp_stopping (hs_pool s) = true ∧ all_exited (hs_pool s) = true
  end.

Record ServerInv s : Prop := {
  si_pool : PoolInv throws (hs_pool s);
  si_nodup : NoDup (hs_accepted s);
  si_accepted : hs_accepted s ≡ₚ tp_accepted (hs_pool s) ++ hs_inline s ++ inline_now (hs_accept s);
  si_phase : phase_ok s;
  si_started : hs_accept s ≠ at_none;
}.

Lemma ServerInv_started n port : ServerInv (started n port).
Proof. split; cbn; [apply PoolInv_new|constructor|done|done|done]. Qed.

Lemma Submit_accepted task tp :
  tp_accepted (Submit task tp).2 = if st_ok (Submit task tp).1 then tp_accepted tp ++ [task] else tp_accepted tp.
Proof. unfold Submit. by destruct (tp_stopping tp); [|destruct (_ <=? _)%nat]. Qed.

Lemma Submit_stopping task tp : tp_stopping (Submit task tp).2 = tp_stopping tp.
Proof. unfold Submit. destruct (tp_stopping tp) eqn:E; [done|]. by destruct (_ <=? _)%nat. Qed.

Lemma worker_step_accepted tp tp' : worker_step throws tp tp' → tp_accepted tp' = tp_accepted tp.
Proof.
  intros [i tp1 E|i tp1 E].
  - unfold Worker_take in E. destruct (tp_workers tp !! i) as [[| |]|]; try done.
    destruct (tp_queue tp); [destruct (tp_stopping tp)|]; by simplify_eq.
  - unfold Worker_finish in E. destruct (tp_workers tp !! i) as [[| |]|]; by simplify_eq.
Qed.

Lemma exited_no_step tp tp' : all_exited tp = true → ¬ worker_step throws tp tp'.
Proof.
  intros Hex Hst. assert (∀ i w, tp_workers tp !! i = Some w → w = Exited) as Hw.
  { intros i w Hi. unfold all_exited in Hex. rewrite forallb_forall in Hex.
    apply list_elem_of_lookup_2, list_elem_of_In in Hi. apply Hex in Hi. by destruct w. }
  destruct Hst as [i tp1 E|i tp1 E]; [unfold Worker_take in E|unfold Worker_finish in E];
    (destruct (tp_workers tp !! i) as [w|] eqn:Ei; [|done]); by rewrite (Hw _ _ Ei) in E.
Qed.

Lemma worker_step_phase s tp : worker_step throws (hs_pool s) tp → phase_ok s → phase_ok (set_pool tp s).
Proof.
  intros Hst. pose proof (worker_step_stopping throws _ _ Hst) as Es. unfold phase_ok. cbn.
  destruct (hs_shutdown s); rewrite Es; try done. intros (_ & _ & Hex). by destruct (exited_no_step _ _ Hex Hst).
Qed.

Lemma accepted_inv conn s :
  ServerInv s → hs_accept s = at_accept → conn ∉ hs_accepted s → ServerInv (AcceptLoop_accepted conn s).
Proof.
  intros [Hp Hnd Ha Hph Hst] Et Hc. unfold AcceptLoop_accepted.
  pose proof (Submit_accepted conn (hs_pool s)) as Eacc. pose proof (Submit_stopping conn (hs_pool s)) as Estop.
  pose proof (pool_step_inv throws _ _ (ps_submit throws _ conn) Hp) as Hp'.
  destruct (Submit conn (hs_pool s)) as [st tp]. cbn [fst snd] in *. rewrite Et in Ha. cbn in Ha. rewrite app_nil_r in Ha.
  split; cbn.
  - done.
  - by constructor.
  - rewrite Ha, Eacc. destruct (st_ok st); cbn; solve_Permutation.
  - revert Hph. unfold phase_ok, accept_gone. cbn. rewrite Estop, Et. destruct (hs_shutdown s); naive_solver.
  - by destruct (st_ok st).
Qed.

Lemma server_step_inv s s' : server_step s s' → ServerInv s → ServerInv s'.
Proof.
  intros Hstep HI. destruct Hstep as [Et|conn Et Hl Hc|eintr Et|conn Et Hend|tp Hw|Esd|was Esd|was s' Esd Ej|Esd|s' Esd Ee].
  - destruct HI as [Hp Hnd Ha Hph Hst]. rewrite Et in Ha. unfold AcceptLoop_top.
    split; cbn; try done; [by destruct (hs_running s)| |by destruct (hs_running s)].
    revert Hph. unfold phase_ok, accept_gone. cbn. rewrite Et. destruct (hs_shutdown s); naive_solver.
  - by apply accepted_inv.
  - destruct HI as [Hp Hnd Ha Hph Hst]. rewrite Et in Ha. unfold AcceptLoop_failed.
    split; cbn; try done; [by destruct (hs_running s), eintr| |by destruct (hs_running s), eintr].
    revert Hph. unfold phase_ok, accept_gone. cbn. rewrite Et. destruct (hs_shutdown s); naive_solver.
  - destruct HI as [Hp Hnd Ha Hph Hst]. rewrite Et in Ha. unfold AcceptLoop_served.
    split; cbn; try done; [rewrite Ha; cbn; by destruct (throws conn); rewrite app_nil_r| |by destruct (throws conn)].
    revert Hph. unfold phase_ok, accept_gone. cbn. rewrite Et. destruct (hs_shutdown s); naive_solver.
  - apply serving_worker_step in Hw. destruct HI as [Hp Hnd Ha Hph Hst].
    split; cbn; [by eapply worker_step_inv|done|by rewrite (worker_step_accepted _ _ Hw)|by apply worker_step_phase|done].
  - destruct HI as [Hp Hnd Ha Hph Hst]. unfold phase_ok in Hph. rewrite Esd in Hph. split; cbn; try done. by destruct Hph as (? & _ & ?).
  - destruct HI as [Hp Hnd Ha Hph Hst]. unfold phase_ok in Hph. rewrite Esd in Hph. split; cbn; try done.
    unfold phase_ok. cbn. naive_solver.
  - destruct HI as [Hp Hnd Ha Hph Hst]. unfold phase_ok in Hph. rewrite Esd in Hph. destruct Hph as (-> & _ & _ & Hstop).
    unfold Shutdown_join in Ej. destruct (hs_accept s) eqn:Et; simplify_eq. split; cbn; try done; try (by rewrite Et).
  - destruct HI as [Hp Hnd Ha Hph Hst]. unfold phase_ok in Hph. rewrite Esd in Hph. destruct Hph as [Hg _].
    split; cbn; try done. exact (pool_step_inv throws _ _ (ps_shutdown throws _) Hp).
  - destruct HI as [Hp Hnd Ha Hph Hst]. unfold phase_ok in Hph. rewrite Esd in Hph. unfold Shutdown_end in Ee.
    destruct (all_exited (hs_pool s)) eqn:Eex; simplify_eq. split; cbn; try done. unfold phase_ok. cbn. naive_solver.
Qed.

Lemma server_steps_inv s s' : rtc server_step s s' → ServerInv s → ServerInv s'.
Proof. induction 1; eauto using server_step_inv. Qed.

(** ** Shutting down *)





(** The connections being served. *)
Definition serving s : list nat := running (tp_workers (hs_pool s)) ++ inline_now (hs_accept s).




(** A connection that does not end stays where it is. *)
Lemma serving_step_stuck tp tp' conn :
  ends conn = false → serving_step tp tp' → conn ∈ running (tp_workers tp) → conn ∈ running (tp_workers tp').
Proof.
  intros He [i tp1 E|i c tp1 Ei Hend E] Hc.
  - unfold Worker_take in E. destruct (tp_workers tp !! i) as [[| |]|] eqn:Ei; try done.
    pose proof (λ w, running_insert _ _ _ w Ei) as Hr. destruct (tp_queue tp) as [|task queue].
    + destruct (tp_stopping tp); [|done]. injection E as <-. cbn [tp_workers]. specialize (Hr Exited). cbn in Hr.
      rewrite !app_nil_r in Hr. by rewrite Hr.
    + injection E as <-. cbn [tp_workers]. specialize (Hr (Running task)). cbn in Hr. rewrite app_nil_r in Hr.
      rewrite Hr. apply elem_of_app. by left.
  - unfold Worker_finish in E. rewrite Ei in E. injection E as <-. cbn [tp_workers].
    pose proof (running_insert _ _ _ Waiting Ei) as Hr. cbn in Hr. rewrite app_nil_r in Hr. rewrite <-Hr in Hc.
    apply elem_of_app in Hc as [?|Hc%list_elem_of_singleton]; [done|]. congruence.
Qed.

Lemma server_step_stuck s s' conn : ends conn = false → server_step s s' → conn ∈ serving s → conn ∈ serving s'.
Proof.
  unfold serving. intros He Hst. rewrite !elem_of_app.
  destruct Hst as [Et|c Et Hl Hc|eintr Et|c Et Hend|tp Hw|Esd|was Esd|was s' Esd Ej|Esd|s' Esd Ee]; try done.
  - rewrite Et. cbn. intros [?|[]%not_elem_of_nil]. by left.
  - rewrite Et. intros [Hr|[]%not_elem_of_nil]. left. unfold AcceptLoop_accepted, Submit.
    destruct (tp_stopping (hs_pool s)); [done|]. by destruct (_ <=? _)%nat.
  - rewrite Et. cbn. intros [?|[]%not_elem_of_nil]. by left.
  - rewrite Et. cbn. intros [?|Hx%list_elem_of_singleton]; [by left|]. congruence.
  - cbn. intros [?|?]; [left; by eapply serving_step_stuck|by right].
  - unfold Shutdown_join in Ej. destruct (hs_accept s) eqn:Et; destruct was; simplify_eq; cbn; by rewrite Et.
  - unfold Shutdown_end in Ee. destruct (all_exited _); by simplify_eq.
Qed.

Lemma idle_client_blocks s s' conn :
  ServerInv s → ends conn = false → conn ∈ serving s → rtc server_step s s' → hs_shutdown s' ≠ sd_done.
Proof.
  intros HI He Hc Hr Hd. pose proof (server_steps_inv _ _ Hr HI) as HI'.
  assert (conn ∈ serving s') as Hc' by (clear HI HI' Hd; induction Hr; eauto using server_step_stuck).
  pose proof (si_phase _ HI') as Hph. unfold phase_ok in Hph. rewrite Hd in Hph. destruct Hph as (Hg & _ & Hex).
  destruct (drained throws _ (si_pool _ HI') Hex) as [_ Hrun]. unfold serving in Hc'. rewrite Hrun, Hg in Hc'.
  by apply not_elem_of_nil in Hc'.
Qed.


End server.

(** ** Runs *)

Definition all_end (conn : nat) : bool := true.
Definition no_throw (conn : nat) : bool := false.

(** One connection is served by the pool, then the server shuts down. *)
Definition run_started : HttpServer := started 1 (Some 8080).
Definition run_accepted : HttpServer := AcceptLoop_accepted 7 (AcceptLoop_top run_started).

Definition worker_moves (s : HttpServer) (f : ThreadPool → option ThreadPool) : HttpServer :=
  set_pool (default (hs_pool s) (f (hs_pool s))) s.
Lemma take_step ends throws i s :
  is_Some (Worker_take i (hs_pool s)) → server_step ends throws s (worker_moves s (Worker_take i)).
Proof. intros [tp E]. unfold worker_moves. rewrite E. by eapply ss_worker, sv_take. Qed.






(** An error of [::accept] other than [EINTR] ends the accept thread: the server goes
    on running, and no connection is accepted any more. *)
Definition run_deaf : HttpServer := AcceptLoop_failed false (AcceptLoop_top run_started).

Theorem accept_error_leaves_server_deaf :
  rtc (server_step all_end no_throw) run_started run_deaf ∧ hs_running run_deaf = true ∧ hs_shutdown run_deaf = sd_none ∧
  ∀ s, rtc (server_step all_end no_throw) run_deaf s → hs_accepted s = [].
Proof.
  split; [|split; [vm_compute; reflexivity|split; [vm_compute; reflexivity|]]].
  { apply (rtc_l _ _ (AcceptLoop_top run_started)); [by apply ss_top|]. by apply rtc_once, ss_failed. }
  intros s Hr. assert (hs_accept run_deaf = at_exited ∧ hs_accepted run_deaf = []) as H0 by (vm_compute; done). revert H0. generalize run_deaf Hr.
  clear. intros s0 Hr. induction Hr as [s|s1 s2 s3 Hst _ IH]; intros [Ht Ha]; [done|]. apply IH.
  destruct Hst as [Et|conn Et Hl Hc|eintr Et|conn Et Hend|tp Hw|Esd|was Esd|was s' Esd Ej|Esd|s' Esd Ee]; try congruence; try done.
  - unfold Shutdown_join in Ej. rewrite Ht in Ej. by simplify_eq.
  - unfold Shutdown_end in Ee. destruct (all_exited _); by simplify_eq.
Qed.

(** One client that connects and sends nothing: a worker waits in [::read], and from
    then on [Shutdown], called at any time, does not return. *)
Definition silent (conn : nat) : bool := negb (conn =? 7)%nat.
Definition run_idle : HttpServer := worker_moves run_accepted (Worker_take 0).

Theorem idle_client_blocks_shutdown :
  rtc (server_step silent no_throw) run_started run_idle ∧ running (tp_workers (hs_pool run_idle)) = [7%nat] ∧
  ∀ s, rtc (server_step silent no_throw) run_idle s → hs_shutdown s ≠ sd_done.
Proof.
  assert (rtc (server_step silent no_throw) run_started run_idle) as Hr.
  { apply (rtc_l _ _ (AcceptLoop_top run_started)); [by apply ss_top|].
    apply (rtc_l _ _ run_accepted); [by apply ss_accepted; [..|apply not_elem_of_nil]|].
    apply rtc_once, take_step. vm_compute. by eexists. }
  split; [exact Hr|]. split; [vm_compute; reflexivity|]. intros s Hs.
  eapply (idle_client_blocks silent no_throw run_idle s 7); [|reflexivity| |exact Hs].
  - eapply server_steps_inv; [exact Hr|apply ServerInv_started].
  - by left.
Qed.
