(* ===== verification/Metrics.v ===== *)
(** * Metrics

    [src/common/metrics.cc]: the registry behind the gateway's [/metrics] page.
    Every operation holds [mu_], so each is a function on the families.  The
    arithmetic and the printing of [double] are parameters: the results hold for
    any. *)

From stdpp Require Import base gmap numbers list sorting.
From Stdlib Require Import ZArith Lia.
From S2P Require Import Prelude Text.

Local Open Scope Z_scope.

(** What the program uses of [double]. *)
Class Double (D : Type) := {
  d_zero : D;
  d_add : D → D → D;
  d_mul : D → D → D;
  d_div : D → D → D;
  d_leb : D → D → bool;
  d_of_Z : Z → D;            (** conversion from an integer *)
  d_lit : Z → Z → D;         (** the literal m * 10^e *)
  d_print : D → bytes;       (** operator<< *)
  d_fixed : D → bytes;       (** std::to_string *)
}.

(** ** Labels *)

Notation Labels := (list (bytes * bytes)).

(** [operator<] of a pair, as a total order. *)
Definition label_le (p q : bytes * bytes) : Prop :=
  (p.1 ≠ q.1 ∧ bytes_le p.1 q.1) ∨ (p.1 = q.1 ∧ bytes_le p.2 q.2).

#[global] Instance label_le_dec : RelDecision label_le.
Proof. intros p q. unfold label_le. apply _. Defined.

Definition label_text (l : bytes * bytes) : bytes := l.1 ++ lit "=" ++ [quote] ++ l.2 ++ [quote].

(** The loop that joins the labels with commas. *)
Fixpoint join_labels (first : bool) (ls : Labels) : bytes :=
  match ls with
  | [] => []
  | l :: ls => (if first then [] else lit ",") ++ label_text l ++ join_labels false ls
  end.

Definition LabelKey (labels : Labels) : bytes :=
  match labels with
  | [] => []
  | _ => lit "{" ++ join_labels true (merge_sort label_le labels) ++ lit "}"
  end.

(** ** The registry *)

Inductive MetricType := kCounter | kGauge | kHistogram.

Section metrics.
Context {D : Type} `{Double D}.

Record Sample := mkSample {
  ms_value : D;
  ms_bucket_counts : list Z;
  ms_sum : D;
  ms_count : Z;
}.

Definition Sample_default : Sample := mkSample d_zero [] d_zero 0.

Record Family := mkFamily {
  mf_type : MetricType;
  mf_help : bytes;
  mf_buckets : list D;
  mf_samples : gmap bytes Sample;
}.

Notation families := (gmap bytes Family).

Definition DefaultBuckets : list D :=
  [d_lit 5 (-4); d_lit 1 (-3); d_lit 5 (-3); d_lit 1 (-2); d_lit 5 (-2); d_lit 1 (-1); d_lit 5 (-1); d_lit 1 0; d_lit 5 0].

Definition GetOrCreate (name : bytes) (type : MetricType) (help : bytes) (fs : families) : Family :=
  match fs !! name with
  | Some f => f
  | None => mkFamily type help [] ∅
  end.

(** [f.samples[key]] *)
Definition sample_at (f : Family) (key : bytes) : Sample := default Sample_default (mf_samples f !! key).

(** Write a sample back to its family, and the family to the registry. *)
Definition put_sample (key : bytes) (s : Sample) (f : Family) : Family :=
  mkFamily (mf_type f) (mf_help f) (mf_buckets f) (<[key := s]> (mf_samples f)).

Definition set_value (v : D) (s : Sample) : Sample := mkSample v (ms_bucket_counts s) (ms_sum s) (ms_count s).

Definition IncCounter (name help : bytes) (amount : D) (labels : Labels) (fs : families) : families :=
  let f := GetOrCreate name kCounter help fs in
  let s := sample_at f (LabelKey labels) in
  <[name := put_sample (LabelKey labels) (set_value (d_add (ms_value s) amount) s) f]> fs.

Definition SetGauge (name help : bytes) (value : D) (labels : Labels) (fs : families) : families :=
  let f := GetOrCreate name kGauge help fs in
  let s := sample_at f (LabelKey labels) in
  <[name := put_sample (LabelKey labels) (set_value value s) f]> fs.

(** The index of the bucket a value is counted into: the first whose bound it does
    not exceed, or the last one. *)
Fixpoint bucket_index (value : D) (buckets : list D) : nat :=
  match buckets with
  | [] => 0
  | b :: bs => if d_leb value b then 0 else S (bucket_index value bs)
  end.

(** The bounds of a family, which its first observation sets. *)
Definition histogram_bounds (f : Family) (buckets : list D) : list D :=
  match mf_buckets f with
  | [] => match buckets with [] => DefaultBuckets | _ => buckets end
  | bs => bs
  end.

(** The counts of a sample, which its first observation creates. *)
Definition histogram_counts (bounds : list D) (s : Sample) : list Z :=
  match ms_bucket_counts s with
  | [] => replicate (length bounds + 1) 0
  | cs => cs
  end.

(** The increment is at an index of [bucket_counts], whose last one is the one after
    the bounds ([observe_in_range]). *)
Definition ObserveHistogram (name help : bytes) (value : D) (labels : Labels) (buckets : list D) (fs : families)
    : families :=
  let f := GetOrCreate name kHistogram help fs in
  let bounds := histogram_bounds f buckets in
  let f := mkFamily (mf_type f) (mf_help f) bounds (mf_samples f) in
  let s := sample_at f (LabelKey labels) in
  let counts := alter (λ n, u64 (n + 1)) (bucket_index value bounds) (histogram_counts bounds s) in
  <[name := put_sample (LabelKey labels)
              (mkSample (ms_value s) counts (d_add (ms_sum s) value) (u64 (ms_count s + 1))) f]> fs.

(** ** The text exposition *)

(** The running sums over the finite buckets; [None] when a read of
    [bucket_counts] is out of range. *)
Fixpoint cumulate (acc : Z) (buckets : list D) (counts : list Z) : option (list Z) :=
  match buckets, counts with
  | [], _ => Some []
  | _ :: _, [] => None
  | _ :: bs, c :: cs => cons (u64 (acc + c)) <$> cumulate (u64 (acc + c)) bs cs
  end.

Definition le_label (labelkey bound : bytes) : bytes :=
  let le := lit "le=" ++ [quote] ++ bound ++ [quote] ++ lit "}" in
  match labelkey with
  | [] => lit "{" ++ le
  | _ => substr labelkey 0 (length labelkey - 1) ++ lit "," ++ le
  end.

Definition sample_line (name suffix labels value : bytes) : bytes := name ++ suffix ++ labels ++ lit " " ++ value ++ [LF].

Definition serialize_sample (name : bytes) (f : Family) (labelkey : bytes) (s : Sample) : option bytes :=
  match mf_type f with
  | kHistogram =>
      cs ← cumulate 0 (mf_buckets f) (ms_bucket_counts s);
      Some (concat (zip_with (λ b c, sample_line name (lit "_bucket") (le_label labelkey (d_print b)) (to_string c))
                     (mf_buckets f) cs)
            ++ sample_line name (lit "_bucket") (le_label labelkey (lit "+Inf")) (to_string (ms_count s))
            ++ sample_line name (lit "_sum") labelkey (d_print (ms_sum s))
            ++ sample_line name (lit "_count") labelkey (to_string (ms_count s)))
  | _ => Some (sample_line name [] labelkey (d_print (ms_value s)))
  end.

Definition type_name (t : MetricType) : bytes :=
  match t with kCounter => lit "counter" | kGauge => lit "gauge" | kHistogram => lit "histogram" end.

Definition serialize_family (name : bytes) (f : Family) : option bytes :=
  samples ← mapM (λ e, serialize_sample name f e.1 e.2) (in_order bytes_le (mf_samples f));
  Some ((match mf_help f with [] => [] | help => lit "# HELP " ++ name ++ lit " " ++ help ++ [LF] end)
        ++ lit "# TYPE " ++ name ++ lit " " ++ type_name (mf_type f) ++ [LF]
        ++ concat samples).

(** [None] when a read is out of range. *)
Definition Serialize (fs : families) : option bytes :=
  texts ← mapM (λ e, serialize_family e.1 e.2) (in_order bytes_le fs); Some (concat texts).
End metrics.

Arguments Sample : clear implicits.
Arguments Family : clear implicits.
Notation families D := (gmap bytes (Family D)).

(** ** Request ids *)

Definition hex_digit (d : Z) : byte := if d <? 10 then bZ (48 + d) else bZ (87 + d).

(** [std::hex] of a 64-bit number, at most 16 digits. *)
Fixpoint hex (fuel : nat) (z : Z) (acc : bytes) : bytes :=
  match fuel with
  | O => acc
  | S fuel => if z <? 16 then hex_digit z :: acc else hex fuel (z / 16) (hex_digit (z mod 16) :: acc)
  end.

(** [n] is the process's counter and [r] what its generator returned. *)
Definition NewRequestId (n r : Z) : bytes := hex 16 (Z.lxor r (u64 (n * 0x9e3779b97f4a7c15))) [].

(** ** Histograms *)

Section histograms.
Context {D : Type} `{Double D}.
Hypothesis d_leb_trans : ∀ x y z : D, d_leb x y = true → d_leb y z = true → d_leb x z = true.
Implicit Types buckets : list D.
Implicit Types obs : list D.

(** An update of the registry. *)
Inductive metric_op :=
  | OpInc (name help : bytes) (amount : D) (labels : Labels)
  | OpSet (name help : bytes) (value : D) (labels : Labels)
  | OpObserve (name help : bytes) (value : D) (labels : Labels) (buckets : list D).

Definition run_op (fs : families D) (op : metric_op) : families D :=
  match op with
  | OpInc name help amount labels => IncCounter name help amount labels fs
  | OpSet name help value labels => SetGauge name help value labels fs
  | OpObserve name help value labels buckets => ObserveHistogram name help value labels buckets fs
  end.

Definition op_name (op : metric_op) : bytes :=
  match op with OpInc name _ _ _ | OpSet name _ _ _ | OpObserve name _ _ _ _ => name end.

(** The value an operation adds to the histogram [name] under [key]. *)
Definition observed (name key : bytes) (op : metric_op) : option D :=
  match op with
  | OpObserve name' _ value labels _ => if bool_decide (name' = name ∧ LabelKey labels = key) then Some value else None
  | _ => None
  end.

(** [name] is a histogram with these bounds wherever it is used. *)
Definition observes (name : bytes) buckets (op : metric_op) : Prop :=
  op_name op = name → ∃ help value labels, op = OpObserve name help value labels buckets.

(** How many observations do not exceed a bound. *)
Definition count_le obs (b : D) : Z := Z.of_nat (length (filter (λ v, d_leb v b = true) obs)).

(** The counts of the buckets after the observations. *)
Definition counts_of buckets obs : list Z :=
  foldl (λ cs v, alter (λ n, n + 1) (bucket_index v buckets) cs) (replicate (length buckets + 1) 0) obs.

(** The finite sums never overtake the number of observations. *)
Definition bounds_sorted buckets : Prop := StronglySorted (λ a b, d_leb a b = true) buckets.

Lemma bucket_index_le v buckets i b :
  bounds_sorted buckets → buckets !! i = Some b → d_leb v b = true ↔ (bucket_index v buckets ≤ i)%nat.
Proof using d_leb_trans.
  intros Hs. revert i. induction Hs as [|b0 bs Hs IH Hall]; intros i Hi; [done|]. cbn [bucket_index].
  destruct (d_leb v b0) eqn:E.
  - split; [intros _; lia|]. intros _. destruct i as [|i]; [by injection Hi as <-|].
    rewrite List.Forall_forall in Hall. eapply d_leb_trans; [done|]. apply Hall.
    apply list_elem_of_In. by eapply list_elem_of_lookup_2.
  - destruct i as [|i]; [injection Hi as <-; split; [congruence|lia]|]. rewrite (IH i Hi). lia.
Qed.

Lemma length_counts_of buckets obs : length (counts_of buckets obs) = (length buckets + 1)%nat.
Proof.
  unfold counts_of. rewrite <-(length_replicate (length buckets + 1) 0) at 2.
  generalize (replicate (length buckets + 1) 0). induction obs as [|v obs IH]; intros cs; cbn [foldl]; [done|].
  by rewrite IH, length_alter.
Qed.

Definition zsum (l : list Z) : Z := foldr Z.add 0 l.

Lemma zsum_take_alter (i k : nat) (cs : list Z) :
  (k < length cs)%nat →
  zsum (take (S i) (alter (λ n, n + 1) k cs)) = zsum (take (S i) cs) + (if decide (k ≤ i)%nat then 1 else 0).
Proof.
  revert i cs. induction k as [|k IH]; intros i [|c cs] Hk; simpl in Hk; try lia.
  { rewrite decide_True by lia. cbn. lia. }
  change (alter (λ n, n + 1) (S k) (c :: cs)) with (c :: alter (λ n, n + 1) k cs). destruct i as [|i].
  { rewrite decide_False by lia. rewrite !firstn_cons, !take_0. cbn. lia. }
  rewrite !firstn_cons. cbn [zsum foldr]. change (foldr Z.add 0) with zsum. rewrite IH by lia.
  repeat case_decide; lia.
Qed.

Lemma bucket_index_bound v buckets : (bucket_index v buckets < length buckets + 1)%nat.
Proof. induction buckets as [|b bs IH]; cbn [bucket_index]; [simpl; lia|]. destruct (d_leb v b); simpl; lia. Qed.

(** A sample has no counts, or one for each bound of its family and one more. *)
Definition sample_fits (bounds : list D) (s : Sample D) : Prop :=
  ms_bucket_counts s = [] ∨ bounds ≠ [] ∧ length (ms_bucket_counts s) = (length bounds + 1)%nat.
Definition family_fits (f : Family D) : Prop := map_Forall (λ _, sample_fits (mf_buckets f)) (mf_samples f).

Lemma put_sample_fits key s f : family_fits f → sample_fits (mf_buckets f) s → family_fits (put_sample key s f).
Proof. intros Hf Hs. by apply map_Forall_insert_2. Qed.

Lemma sample_at_fits f key : family_fits f → sample_fits (mf_buckets f) (sample_at f key).
Proof.
  intros Hf. unfold sample_at. destruct (mf_samples f !! key) as [s|] eqn:E; [exact (Hf _ _ E)|by left].
Qed.

Lemma GetOrCreate_fits name type help fs :
  map_Forall (λ _, family_fits) fs → family_fits (GetOrCreate name type help fs).
Proof.
  intros Hfs. unfold GetOrCreate. destruct (fs !! name) as [f|] eqn:E; [exact (Hfs _ _ E)|]. apply map_Forall_empty.
Qed.

Lemma histogram_bounds_fits f buckets s :
  sample_fits (mf_buckets f) s → sample_fits (histogram_bounds f buckets) s ∧
  length (histogram_counts (histogram_bounds f buckets) s) = (length (histogram_bounds f buckets) + 1)%nat.
Proof.
  unfold sample_fits, histogram_counts, histogram_bounds. intros [Hs|[Hb Hs]].
  - rewrite Hs. split; [by left|]. apply length_replicate.
  - destruct (mf_buckets f) as [|b bs]; [done|]. split; [by right|]. by destruct (ms_bucket_counts s).
Qed.

Lemma histogram_bounds_nonempty f buckets : histogram_bounds f buckets ≠ [].
Proof. unfold histogram_bounds. by destruct (mf_buckets f), buckets. Qed.

Lemma run_op_fits fs op : map_Forall (λ _, family_fits) fs → map_Forall (λ _, family_fits) (run_op fs op).
Proof.
  intros Hfs. destruct op as [name help v labels|name help v labels|name help v labels buckets]; cbn [run_op].
  1,2: apply map_Forall_insert_2; [|done]; apply put_sample_fits; [by apply GetOrCreate_fits|];
    by apply sample_at_fits, GetOrCreate_fits.
  unfold ObserveHistogram. pose proof (GetOrCreate_fits name kHistogram help fs Hfs) as Hf.
  set (f := GetOrCreate name kHistogram help fs) in *. apply map_Forall_insert_2; [|done].
  apply put_sample_fits.
  - intros key s E. by apply histogram_bounds_fits, (Hf _ _ E).
  - right. cbn [mf_buckets ms_bucket_counts]. split; [apply histogram_bounds_nonempty|].
    rewrite length_alter. by apply histogram_bounds_fits, (sample_at_fits f).
Qed.

(** Whatever updates came before, an observation is counted in range, and one above
    every bound in the last count. *)
Lemma observe_in_range ops name help value labels buckets :
  let f := GetOrCreate name kHistogram help (foldl run_op ∅ ops) in
  let bounds := histogram_bounds f buckets in
  let counts := histogram_counts bounds (sample_at f (LabelKey labels)) in
  (bucket_index value bounds < length counts)%nat ∧
  (Forall (λ b, d_leb value b = false) bounds → bucket_index value bounds = (length counts - 1)%nat).
Proof.
  intros f bounds counts. assert (map_Forall (λ _, family_fits) (foldl run_op ∅ ops)) as Hfs.
  { induction ops as [|op ops IH] using rev_ind; [apply map_Forall_empty|]. rewrite foldl_app. by apply run_op_fits. }
  destruct (histogram_bounds_fits f buckets (sample_at f (LabelKey labels))) as [_ Hlen].
  { by apply sample_at_fits, GetOrCreate_fits. }
  fold bounds counts in Hlen. rewrite Hlen. split; [apply bucket_index_bound|]. intros Hall.
  replace (length bounds + 1 - 1)%nat with (length bounds) by lia. clear -Hall.
  induction Hall as [|b bs Hb _ IH]; [done|]. cbn. by rewrite Hb, IH.
Qed.

(** The sum of the first buckets counts the observations up to their bound. *)
Lemma counts_prefix buckets obs i b :
  bounds_sorted buckets → buckets !! i = Some b → zsum (take (S i) (counts_of buckets obs)) = count_le obs b.
Proof using d_leb_trans.
  intros Hs Hi. unfold counts_of.
  enough (∀ cs, length cs = (length buckets + 1)%nat →
    zsum (take (S i) (foldl (λ cs v, alter (λ n, n + 1) (bucket_index v buckets) cs) cs obs)) =
    zsum (take (S i) cs) + count_le obs b) as Hgen.
  { rewrite Hgen by apply length_replicate. rewrite take_replicate.
    enough (∀ n, zsum (replicate n 0) = 0) as -> by lia. clear. induction n as [|n IHn]; [done|]. rewrite replicate_S. cbn [zsum foldr]. exact IHn. }
  induction obs as [|v obs IH]; intros cs Hcs; cbn [foldl].
  { unfold count_le. cbn. lia. }
  rewrite IH by (by rewrite length_alter). rewrite zsum_take_alter by (rewrite Hcs; apply bucket_index_bound).
  unfold count_le. rewrite filter_cons. pose proof (bucket_index_le v buckets i b Hs Hi) as Hle.
  repeat case_decide; cbn [length]; try lia; tauto.
Qed.

(** [Serialize]'s running sums, on counts at machine width. *)
Lemma cumulate_spec buckets cs acc :
  (length buckets ≤ length cs)%nat →
  cumulate (u64 acc) buckets (u64 <$> cs) =
  Some ((λ i, u64 (acc + zsum (take (S i) cs))) <$> seq 0 (length buckets)).
Proof.
  revert cs acc. induction buckets as [|b bs IH]; intros [|c cs] acc Hlen; simpl in Hlen; try done; try lia.
  cbn [cumulate]. rewrite fmap_cons.
  assert (u64 (u64 acc + u64 c) = u64 (acc + c)) as -> by (unfold u64; by rewrite <-Zplus_mod).
  rewrite IH by lia. cbn [fmap option_fmap option_map length seq list_fmap]. do 2 f_equal.
  - rewrite firstn_cons, take_0. cbn. f_equal. lia.
  - rewrite <-fmap_S_seq, <-list_fmap_compose. apply list_fmap_ext. intros ? i _. cbn [compose]. unfold compose. rewrite (firstn_cons (S i)). cbn [zsum foldr]. f_equal. unfold zsum. lia.
Qed.

Lemma alter_u64 (k : nat) (cs : list Z) : alter (λ n, u64 (n + 1)) k (u64 <$> cs) = u64 <$> alter (λ n, n + 1) k cs.
Proof.
  revert k. induction cs as [|c cs IH]; intros [|k]; try done.
  - rewrite fmap_cons. change (alter ?f 0%nat (?x :: ?l)) with (f x :: l). rewrite fmap_cons. f_equal.
    unfold u64. by rewrite Zplus_mod_idemp_l.
  - rewrite fmap_cons. change (alter ?f (S k) (?x :: ?l)) with (x :: alter f k l). rewrite fmap_cons. by f_equal.
Qed.

(** The sample of a histogram after the observations. *)
Definition sample_of buckets obs : Sample D :=
  mkSample d_zero (u64 <$> counts_of buckets obs) (foldl d_add d_zero obs) (u64 (Zlen obs)).

Definition is_histogram (name : bytes) buckets (ops : list metric_op) (fs : families D) : Prop :=
  match fs !! name with
  | None => Forall (λ op, op_name op ≠ name) ops
  | Some f =>
      mf_type f = kHistogram ∧ mf_buckets f = buckets ∧
      ∀ key, mf_samples f !! key =
        match omap (observed name key) ops with [] => None | obs => Some (sample_of buckets obs) end
  end.

Lemma sample_of_snoc buckets obs v :
  sample_of buckets (obs ++ [v]) =
  mkSample d_zero (alter (λ n, u64 (n + 1)) (bucket_index v buckets) (u64 <$> counts_of buckets obs))
    (d_add (foldl d_add d_zero obs) v) (u64 (u64 (Zlen obs) + 1)).
Proof.
  unfold sample_of, counts_of. rewrite !foldl_app. cbn [foldl]. rewrite alter_u64, length_app. f_equal.
  unfold u64. rewrite Zplus_mod_idemp_l. f_equal. simpl. lia.
Qed.

Lemma run_op_other name op fs : op_name op ≠ name → run_op fs op !! name = fs !! name.
Proof.
  destruct op; cbn [op_name run_op]; intros Hne; unfold IncCounter, SetGauge, ObserveHistogram;
    by rewrite lookup_insert_ne.
Qed.

Lemma observed_other name key op : op_name op ≠ name → observed name key op = None.
Proof. destruct op; cbn; [done..|]. intros Hne. rewrite bool_decide_eq_false_2; [done|]. by intros [? _]. Qed.

Lemma omap_observed_other name key ops : Forall (λ op, op_name op ≠ name) ops → omap (observed name key) ops = [].
Proof. induction 1 as [|op ops Hop _ IH]; [done|]. cbn. by rewrite observed_other. Qed.

(** Recording an observation in a histogram. *)
Lemma is_histogram_observe name buckets ops fs help v labels :
  buckets ≠ [] → is_histogram name buckets ops fs →
  is_histogram name buckets (ops ++ [OpObserve name help v labels buckets])
    (ObserveHistogram name help v labels buckets fs).
Proof.
  intros Hne Hh. unfold is_histogram in *. unfold ObserveHistogram, histogram_bounds, histogram_counts. rewrite lookup_insert_eq.
  assert (∀ key, omap (observed name key) (ops ++ [OpObserve name help v labels buckets]) =
    omap (observed name key) ops ++ if bool_decide (LabelKey labels = key) then [v] else []) as Eobs.
  { intros key. rewrite omap_app. f_equal. cbn. rewrite (bool_decide_ext (name = name ∧ LabelKey labels = key)
      (LabelKey labels = key)) by tauto. by case_bool_decide. }
  assert (∃ f, GetOrCreate name kHistogram help fs = f ∧ mf_type f = kHistogram ∧
    (mf_buckets f = buckets ∨ mf_buckets f = []) ∧
    ∀ key, mf_samples f !! key = match omap (observed name key) ops with [] => None | obs => Some (sample_of buckets obs) end)
    as (f & -> & Ht & Hb & Hs).
  { unfold GetOrCreate. destruct (fs !! name) as [f|]; [exists f; naive_solver|]. eexists. split; [done|]. cbn.
    split; [done|]. split; [by right|]. intros key. by rewrite omap_observed_other. }
  assert (match mf_buckets f with [] => match buckets with [] => DefaultBuckets | _ => buckets end | bs => bs end
    = buckets) as ->.
  { destruct Hb as [-> | ->]; by destruct buckets. }
  cbn [mf_type mf_buckets mf_samples put_sample]. split; [done|]. split; [done|]. intros key. rewrite Eobs.
  destruct (decide (LabelKey labels = key)) as [<-|Hk].
  - rewrite lookup_insert_eq, bool_decide_eq_true_2 by done. unfold sample_at. cbn [mf_samples]. rewrite Hs.
    destruct (omap (observed name (LabelKey labels)) ops) as [|o obs] eqn:Eo.
    + cbn [default from_option id Sample_default ms_bucket_counts ms_value ms_sum ms_count app]. f_equal.
      change [v] with ([] ++ [v]). rewrite sample_of_snoc. unfold counts_of. cbn [foldl]. by rewrite fmap_replicate.
    + cbn [default from_option id]. rewrite <-app_comm_cons, (app_comm_cons obs [v] o), sample_of_snoc. f_equal.
      cbn [sample_of ms_bucket_counts ms_value ms_sum ms_count]. f_equal.
      pose proof (length_counts_of buckets (o :: obs)) as Hlen.
      destruct (counts_of buckets (o :: obs)); [simpl in Hlen; lia|done].
  - rewrite lookup_insert_ne by done. rewrite bool_decide_eq_false_2 by done. rewrite app_nil_r. apply Hs.
Qed.

Lemma is_histogram_run name buckets ops :
  buckets ≠ [] → Forall (observes name buckets) ops → is_histogram name buckets ops (foldl run_op ∅ ops).
Proof.
  intros Hne. induction ops as [|op ops IH] using rev_ind; intros Hall.
  { unfold is_histogram. cbn [foldl]. by rewrite lookup_empty. }
  apply Forall_app in Hall as [Hops [Hop _]%Forall_cons_1]. specialize (IH Hops). rewrite foldl_app. cbn [foldl].
  destruct (decide (op_name op = name)) as [Hn|Hn].
  - destruct (Hop Hn) as (help & v & labels & ->). by apply is_histogram_observe.
  - unfold is_histogram in *. rewrite run_op_other by done. destruct (foldl run_op ∅ ops !! name) as [f|].
    + destruct IH as (? & ? & Hs). split; [done|]. split; [done|]. intros key. rewrite omap_app, Hs. cbn.
      rewrite observed_other by done. by rewrite app_nil_r.
    + apply Forall_app. split; [done|]. by constructor.
Qed.
End histograms.

(** The histograms on [/metrics] count what was observed.  However updates to
    the registry interleave, if a name is used as a histogram with ascending
    bounds, then the cumulative count that [Serialize] prints for a bound is the
    number of values observed under the labels that do not exceed it, the [+Inf]
    and [_count] lines have the number of observations (both at 64 bits), and the
    [_sum] line their sum in order. *)
Theorem metrics_histogram_exact {D} `{Double D} (name key : bytes) (buckets : list D) ops :
  (∀ x y z : D, d_leb x y = true → d_leb y z = true → d_leb x z = true) →
  buckets ≠ [] → bounds_sorted buckets → Forall (observes name buckets) ops →
  let obs := omap (observed name key) ops in
  obs ≠ [] →
  ∃ f s, foldl run_op ∅ ops !! name = Some f ∧ mf_samples f !! key = Some s ∧
    mf_type f = kHistogram ∧ mf_buckets f = buckets ∧
    cumulate 0 (mf_buckets f) (ms_bucket_counts s) = Some ((λ b, u64 (count_le obs b)) <$> buckets) ∧
    ms_count s = u64 (Zlen obs) ∧ ms_sum s = foldl d_add d_zero obs.
Proof.
  intros Htrans Hne Hs Hall obs Hobs. pose proof (is_histogram_run name buckets ops Hne Hall) as Hh.
  unfold is_histogram in Hh. destruct (foldl run_op ∅ ops !! name) as [f|].
  2: { destruct Hobs. by apply omap_observed_other. }
  destruct Hh as (Ht & Hb & Hsamples). exists f, (sample_of buckets obs). split; [done|].
  split; [rewrite Hsamples; fold obs; by destruct obs|]. split; [done|]. split; [done|]. split; [|done].
  rewrite Hb. cbn [sample_of ms_bucket_counts]. change 0 with (u64 0) at 1.
  rewrite cumulate_spec by (rewrite length_counts_of; lia). f_equal.
  apply list_eq. intros i. rewrite !list_lookup_fmap. destruct (buckets !! i) as [b|] eqn:Ei.
  - rewrite lookup_seq_lt by (by eapply lookup_lt_Some). cbn. f_equal. f_equal.
    rewrite Z.add_0_l. by apply counts_prefix.
  - rewrite lookup_seq_ge by (by apply lookup_ge_None). done.
Qed.

(** ** The exposition is always there *)

Section total.
Context {D : Type} `{Double D}.

(** [kind] says which metrics are histograms. *)
Definition used_as (kind : bytes → MetricType) (op : @metric_op D) : Prop :=
  match op with
  | OpInc name _ _ _ => kind name = kCounter
  | OpSet name _ _ _ => kind name = kGauge
  | OpObserve name _ _ _ _ => kind name = kHistogram
  end.

Definition family_ok (kind : bytes → MetricType) (name : bytes) (f : Family D) : Prop :=
  mf_type f = kind name ∧
  (kind name = kHistogram → map_Forall (λ _ s, length (ms_bucket_counts s) = (length (mf_buckets f) + 1)%nat) (mf_samples f)
     ∧ (mf_buckets f = [] → mf_samples f = ∅)).

Lemma cumulate_total acc (buckets : list D) cs :
  (length buckets ≤ length cs)%nat → is_Some (cumulate acc buckets cs).
Proof.
  revert acc cs. induction buckets as [|b bs IH]; intros acc [|c cs] Hlen; simpl in Hlen; cbn [cumulate]; try (by eexists).
  { lia. }
  destruct (IH (u64 (acc + c)) cs ltac:(lia)) as [l ->]. by eexists.
Qed.

Lemma run_op_ok kind op fs :
  used_as kind op → map_Forall (family_ok kind) fs → map_Forall (family_ok kind) (run_op fs op).
Proof.
  assert (∀ name type help, kind name = type → map_Forall (family_ok kind) fs →
    family_ok kind name (GetOrCreate name type help fs)) as Hget.
  { intros name type help Hk Hfs. unfold GetOrCreate. destruct (fs !! name) as [f|] eqn:E; [by apply Hfs|].
    split; [done|]. intros _. split; [apply map_Forall_empty|done]. }
  intros Hop Hfs. destruct op as [name help v labels|name help v labels|name help v labels buckets]; cbn [used_as run_op] in *;
    unfold IncCounter, SetGauge, ObserveHistogram, histogram_bounds, histogram_counts; (apply map_Forall_insert_2; [|done]); destruct (Hget name _ help Hop Hfs) as [Ht Hc].
  - split; [done|]. congruence.
  - split; [done|]. congruence.
  - split; [done|]. intros _. specialize (Hc Hop) as [Hc Hnil]. cbn [mf_buckets mf_samples put_sample].
    set (f := GetOrCreate name kHistogram help fs) in *.
    set (bounds := match mf_buckets f with [] => _ | bs => bs end).
    assert (map_Forall (λ _ s, length (ms_bucket_counts s) = (length bounds + 1)%nat) (mf_samples f)) as Hb.
    { subst bounds. destruct (mf_buckets f) eqn:E; [|done]. rewrite Hnil by done. apply map_Forall_empty. }
    split.
    + apply map_Forall_insert_2; [|done]. cbn [ms_bucket_counts]. rewrite length_alter. unfold sample_at. cbn [mf_samples].
      destruct (mf_samples f !! LabelKey labels) as [s|] eqn:Es; cbn [default from_option id].
      * specialize (Hb _ _ Es). cbn in Hb. destruct (ms_bucket_counts s); [simpl in Hb; lia|done].
      * cbn. by rewrite length_replicate.
    + intros E. exfalso. subst bounds. destruct (mf_buckets f); [|done]. by destruct buckets.
Qed.

Lemma serialize_family_total kind name f : family_ok kind name f → is_Some (serialize_family name f).
Proof.
  intros [Ht Hc]. unfold serialize_family.
  assert (is_Some (mapM (λ e, serialize_sample name f e.1 e.2) (in_order bytes_le (mf_samples f)))) as [l ->]; [|by eexists].
  apply mapM_is_Some. rewrite list.Forall_forall. intros [k s] Hin%elem_of_in_order. cbn. unfold serialize_sample.
  destruct (mf_type f); [by eexists..|]. destruct (Hc (eq_sym Ht)) as [Hlen _].
  specialize (Hlen _ _ Hin). cbn in Hlen. destruct (cumulate_total 0 (mf_buckets f) (ms_bucket_counts s)) as [cs ->];
    [lia|]. by eexists.
Qed.
Lemma Serialize_total kind fs : map_Forall (family_ok kind) fs → is_Some (Serialize fs).
Proof.
  intros Hok. unfold Serialize.
  assert (is_Some (mapM (λ e, serialize_family e.1 e.2) (in_order bytes_le fs))) as [l ->]; [|by eexists].
  apply mapM_is_Some. rewrite list.Forall_forall. intros [name f] Hin%elem_of_in_order.
  by eapply serialize_family_total, Hok.
Qed.
End total.

(** Where every name is used as one kind of metric, [Serialize] reads within its
    vectors. *)
Theorem metrics_serialize_total {D} `{Double D} (kind : bytes → MetricType) (ops : list metric_op) :
  Forall (used_as kind) ops → is_Some (Serialize (foldl run_op ∅ ops)).
Proof.
  intros Hall. apply (Serialize_total kind).
  enough (∀ fs, map_Forall (family_ok kind) fs → map_Forall (family_ok kind) (foldl run_op fs ops)) as Hg
    by (apply Hg, map_Forall_empty).
  induction Hall as [|op ops Hop _ IH]; intros fs Hfs; [done|]. cbn. by apply IH, run_op_ok.
Qed.

(** ** Fixed-point numbers

    A [Double] in units of 1/10000, for concrete runs. *)
Definition fixed_point : Double Z := {|
  d_zero := 0;
  d_add := Z.add;
  d_mul a b := a * b / 10000;
  d_div a b := if b =? 0 then 0 else a * 10000 / b;
  d_leb := Z.leb;
  d_of_Z z := z * 10000;
  d_lit m e := m * 10 ^ (e + 4);
  d_print := to_string;
  d_fixed := to_string;
|}.

#[local] Existing Instance fixed_point.

Definition demo_labels : Labels := [(lit "method", lit "GET")].
Definition demo_ops : list metric_op :=
  [OpObserve (lit "latency") (lit "request latency") 3 demo_labels DefaultBuckets;
   OpInc (lit "requests") [] 10000 demo_labels;
   OpObserve (lit "latency") [] 700 demo_labels DefaultBuckets;
   OpObserve (lit "latency") [] 70 [] DefaultBuckets;
   OpObserve (lit "latency") [] 90000 demo_labels DefaultBuckets].

Lemma metrics_histogram_exact_witness :
  ∃ f s, foldl run_op ∅ demo_ops !! lit "latency" = Some f ∧ mf_samples f !! LabelKey demo_labels = Some s ∧
    cumulate 0 (mf_buckets f) (ms_bucket_counts s) = Some [1; 1; 1; 1; 1; 2; 2; 2; 2] ∧ ms_count s = 3.
Proof.
  destruct (metrics_histogram_exact (lit "latency") (LabelKey demo_labels) DefaultBuckets demo_ops)
    as (f & s & Hf & Hs & _ & _ & Hc & Hn & _).
  - intros x y z. cbn. rewrite !Z.leb_le. lia.
  - done.
  - unfold bounds_sorted. repeat constructor.
  - repeat constructor; intros E; try done; by repeat eexists.
  - done.
  - exists f, s. split; [exact Hf|]. split; [exact Hs|].
    split; [rewrite Hc; vm_compute; reflexivity|rewrite Hn; vm_compute; reflexivity].
Defined.

(** A counter that has the name of a histogram: the page reads past the end of an
    empty vector. *)
Lemma mixed_metric_reads_out_of_range :
  Serialize (foldl run_op ∅ [OpObserve (lit "m") [] 3 demo_labels []; OpInc (lit "m") [] 10000 []]) = None.
Proof. by vm_compute. Qed.
