(* ===== verification/Logging.v ===== *)
(** * Structured logging

    [src/common/logging.cc]: one JSON object per line. *)

From stdpp Require Import base list numbers.
From Stdlib Require Import ZArith Lia.
From S2P Require Import Prelude Text.

Local Open Scope Z_scope.

Inductive LogLevel := kInfo | kWarn | kError.

Definition LevelName (level : LogLevel) : bytes :=
  match level with kInfo => lit "info" | kWarn => lit "warn" | kError => lit "error" end.

Definition TAB : byte := bZ 9.

Definition escape_char (c : byte) : bytes :=
  if decide (c = quote) then [backslash; quote]
  else if decide (c = backslash) then [backslash; backslash]
  else if decide (c = LF) then backslash :: lit "n"
  else if decide (c = CR) then backslash :: lit "r"
  else if decide (c = TAB) then backslash :: lit "t"
  else [c].

Definition JsonEscape (s : bytes) : bytes := s ≫= escape_char.

(** A quoted string. *)
Definition quoted (s : bytes) : bytes := [quote] ++ JsonEscape s ++ [quote].

Definition log_field (f : bytes * bytes) : bytes := lit "," ++ quoted f.1 ++ lit ":" ++ quoted f.2.

(** The line [Logger::Log] writes at time [ms]. *)
Definition Log (ms : Z) (level : LogLevel) (msg : bytes) (fields : list (bytes * bytes)) : bytes :=
  lit "{" ++ [quote] ++ lit "ts_ms" ++ [quote] ++ lit ":" ++ to_string ms
  ++ lit "," ++ [quote] ++ lit "level" ++ [quote] ++ lit ":" ++ [quote] ++ LevelName level ++ [quote]
  ++ lit "," ++ [quote] ++ lit "msg" ++ [quote] ++ lit ":" ++ quoted msg
  ++ (fields ≫= log_field) ++ lit "}" ++ [LF].

(** ** Reading a line back

    A reader of the lines: it takes a quoted string to its closing quote, undoing
    the escapes. *)

Definition unescape_char (c : byte) : byte :=
  if decide (c = Byte.x6e) then LF        (* n *)
  else if decide (c = Byte.x72) then CR   (* r *)
  else if decide (c = Byte.x74) then TAB  (* t *)
  else c.

(** The string up to the closing quote, and what follows the quote. *)
Fixpoint read_string (s : bytes) : option (bytes * bytes) :=
  match s with
  | [] => None
  | c :: s =>
      if decide (c = quote) then Some ([], s)
      else if decide (c = backslash) then
        match s with
        | [] => None
        | e :: s => '(x, rest) ← read_string s; Some (unescape_char e :: x, rest)
        end
      else '(x, rest) ← read_string s; Some (c :: x, rest)
  end.

(** [lit] at the front of the input. *)
Definition expect (l s : bytes) : option bytes := if starts_with l s then Some (drop (length l) s) else None.

(** The fields after the message, up to the closing brace. *)
Fixpoint read_fields (fuel : nat) (s : bytes) : option (list (bytes * bytes)) :=
  match fuel with
  | O => None
  | S fuel =>
      if starts_with (lit "}") s then Some []
      else s ← expect (lit "," ++ [quote]) s;
           '(k, s) ← read_string s;
           s ← expect (lit ":" ++ [quote]) s;
           '(v, s) ← read_string s;
           fs ← read_fields fuel s;
           Some ((k, v) :: fs)
  end.

(** The message and the fields of a line. *)
Definition read_log (line : bytes) : option (bytes * list (bytes * bytes)) :=
  let msg_tag := [quote] ++ lit "msg" ++ [quote] ++ lit ":" ++ [quote] in
  i ← find msg_tag line;
  '(msg, s) ← read_string (drop (i + length msg_tag) line);
  fs ← read_fields (length line) s;
  Some (msg, fs).

(** ** Escaping *)

Lemma read_string_char c rest :
  read_string (escape_char c ++ rest) = '(x, rest) ← read_string rest; Some (c :: x, rest).
Proof. by destruct c. Qed.

Lemma read_string_escape s rest : read_string (JsonEscape s ++ quote :: rest) = Some (s, rest).
Proof.
  induction s as [|c s IH]; [done|]. unfold JsonEscape in *. cbn [mbind list_bind].
  rewrite <-app_assoc, read_string_char. by rewrite IH.
Qed.

(** No line break in an escaped string. *)
Lemma LF_not_in_escape s : LF ∉ JsonEscape s.
Proof.
  intros (c & Hc & _)%list_elem_of_bind. revert Hc.
  assert (LF ∉ escape_char c) as Hn by (destruct c; absent). done.
Qed.

Lemma LF_not_in_quoted s : LF ∉ quoted s.
Proof.
  unfold quoted. rewrite !not_elem_of_app. split; [absent|]. split; [apply LF_not_in_escape|absent].
Qed.

(** ** Lines *)

Lemma expect_app l s : expect l (l ++ s) = Some s.
Proof.
  unfold expect. rewrite (proj2 (starts_with_true l (l ++ s))) by (by exists s). by rewrite drop_app_length.
Qed.

Lemma read_quoted s rest : read_string (JsonEscape s ++ [quote] ++ rest) = Some (s, rest).
Proof. apply read_string_escape. Qed.

Lemma log_field_app k v rest :
  log_field (k, v) ++ rest =
  (lit "," ++ [quote]) ++ JsonEscape k ++ [quote] ++ (lit ":" ++ [quote]) ++ JsonEscape v ++ [quote] ++ rest.
Proof. unfold log_field, quoted. cbn [fst snd]. by rewrite <-!app_assoc. Qed.

Lemma read_fields_spec fields rest fuel :
  (length fields < fuel)%nat → read_fields fuel ((fields ≫= log_field) ++ lit "}" ++ rest) = Some fields.
Proof.
  revert fuel. induction fields as [|[k v] fields IH]; intros [|fuel] Hf; simpl in Hf; try lia; [done|].
  cbn [mbind list_bind read_fields]. rewrite <-app_assoc, log_field_app.
  change (starts_with (lit "}") ((lit "," ++ [quote]) ++ ?r)) with false. cbn match.
  rewrite expect_app. cbn [mbind option_bind]. rewrite read_quoted. cbn [mbind option_bind].
  rewrite expect_app. cbn [mbind option_bind].
  rewrite read_quoted. cbn [mbind option_bind]. rewrite IH by lia. done.
Qed.

Lemma length_fields fields : (length fields ≤ length (fields ≫= log_field))%nat.
Proof.
  induction fields as [|f fields IH]; [done|].
  change ((f :: fields) ≫= log_field) with (log_field f ++ (fields ≫= log_field)).
  unfold log_field at 1. rewrite !length_app. change (length (lit ",")) with 1%nat. cbn [length]. lia.
Qed.

(** What comes before the message. *)
Definition log_prefix (ms : Z) (level : LogLevel) : bytes :=
  lit "{" ++ [quote] ++ lit "ts_ms" ++ [quote] ++ lit ":" ++ to_string ms
  ++ lit "," ++ [quote] ++ lit "level" ++ [quote] ++ lit ":" ++ [quote] ++ LevelName level ++ [quote] ++ lit ",".

Definition msg_tag : bytes := [quote] ++ lit "msg" ++ [quote] ++ lit ":" ++ [quote].

(** A quote that does not open the tag of the message. *)
Lemma find_quote l s :
  l ≠ [] → head l ≠ Some Byte.x6d → quote ∉ l →
  find msg_tag ([quote] ++ l ++ s) = Nat.add (1 + length l) <$> find msg_tag s.
Proof.
  intros Hne Hc Hl. destruct l as [|c l]; [done|]. change ([quote] ++ (c :: l) ++ s) with (quote :: c :: l ++ s).
  unfold msg_tag. cbn [app]. rewrite find_step.
  2: { apply bool_decide_eq_false. intros Hp%prefix_cons_inv_2. apply prefix_cons_inv_1 in Hp. by subst. }
  pose proof (find_skip quote (lit "msg" ++ quote :: lit ":" ++ [quote]) (c :: l) s Hl) as Es. cbn [app] in Es. rewrite Es. by destruct (find _ s).
Qed.

(** Text cut at its quotes, none of which opens the tag. *)
Definition segments (ls : list bytes) : bytes := concat ((λ l, [quote] ++ l) <$> ls).

Lemma find_segments ls s :
  Forall (λ l, l ≠ [] ∧ head l ≠ Some Byte.x6d ∧ quote ∉ l) ls →
  find msg_tag (segments ls ++ msg_tag ++ s) = Some (length (segments ls)).
Proof.
  induction 1 as [|l ls (Hne & Hh & Hl) _ IH]; [apply (find_here msg_tag)|]. unfold segments in *. cbn [fmap list_fmap concat].
  rewrite <-!app_assoc, find_quote by done. unfold msg_tag in *. rewrite IH. cbn. by rewrite length_app.
Qed.

Lemma find_msg ms level s :
  0 ≤ ms → find msg_tag (log_prefix ms level ++ msg_tag ++ s) = Some (length (log_prefix ms level)).
Proof.
  intros Hms.
  set (segs := [lit "ts_ms"; lit ":" ++ to_string ms ++ lit ","; lit "level"; lit ":"; LevelName level; lit ","]).
  assert (log_prefix ms level = lit "{" ++ segments segs) as ->.
  { unfold log_prefix, segments, segs. cbn [fmap list_fmap concat]. by rewrite <-!app_assoc. }
  rewrite <-app_assoc. unfold msg_tag at 1. cbn [app]. rewrite (find_skip quote) by absent.
  fold msg_tag. change (quote :: lit "msg" ++ [quote] ++ lit ":" ++ [quote]) with msg_tag.
  rewrite find_segments; [cbn; by rewrite length_app|].
  repeat constructor; try done; try absent; try (by destruct level; absent).
  rewrite !not_elem_of_app. split; [absent|]. split; [|absent]. intros Hin.
  destruct (to_string_digits ms Hms) as [Hd _]. unfold all_digits in Hd. rewrite list.Forall_forall in Hd.
  by specialize (Hd _ Hin).
Qed.

(** The log is line-delimited and loses nothing.  Whatever bytes the message and
    the fields contain, [Logger::Log] writes one line, whose only line break is its
    last byte, and reading the line back gives the message and the fields in
    order. *)
Theorem log_line_roundtrip ms level msg fields :
  0 ≤ ms →
  (∃ line, Log ms level msg fields = line ++ [LF] ∧ LF ∉ line) ∧
  read_log (Log ms level msg fields) = Some (msg, fields).
Proof.
  intros Hms. split.
  - exists (log_prefix ms level ++ [quote] ++ lit "msg" ++ [quote] ++ lit ":" ++ quoted msg
      ++ (fields ≫= log_field) ++ lit "}").
    split; [unfold Log, log_prefix; by rewrite <-!app_assoc|].
    unfold log_prefix. rewrite !not_elem_of_app. split_and!; try absent; try apply LF_not_in_quoted.
    + intros Hin. destruct (to_string_digits ms Hms) as [Hd _]. unfold all_digits in Hd.
      rewrite list.Forall_forall in Hd. by specialize (Hd _ Hin).
    + destruct level; absent.
    + intros ([k v] & Hin & _)%list_elem_of_bind. revert Hin. unfold log_field.
      rewrite !elem_of_app. intros [H|[H|[H|H]]]; revert H; [absent|apply LF_not_in_quoted|absent|apply LF_not_in_quoted].
  - assert (Log ms level msg fields =
      log_prefix ms level ++ msg_tag ++ JsonEscape msg ++ [quote] ++ (fields ≫= log_field) ++ lit "}" ++ [LF]) as E.
    { unfold Log, log_prefix, msg_tag, quoted. by rewrite <-!app_assoc. }
    unfold read_log. fold msg_tag. rewrite E. rewrite find_msg by done. cbn [mbind option_bind].
    rewrite <-drop_drop, drop_app_length, drop_app_length, read_quoted. cbn [mbind option_bind].
    rewrite read_fields_spec; [done|]. rewrite !length_app. pose proof (length_fields fields). simpl. lia.
Qed.

Lemma log_line_roundtrip_witness :
  let msg := lit "http_request" ++ [LF; quote] in
  let fields := [(lit "path", lit "/objects/" ++ [backslash; TAB]); (lit "status", lit "200")] in
  read_log (Log 1700000000000 kInfo msg fields) = Some (msg, fields).
Proof. apply log_line_roundtrip. done. Defined.
