(* ===== verification/Rpc.v ===== *)
(** * Remote procedure calls

    The gRPC calls of the clients under [src/network/].  A call reaches the server
    at its address or not, and its reply comes back or not.  Which of these
    happens, and the error text of the [grpc::Status] of a failed call, is a script
    in the state, as in Posix.v; a server process that dies while serving stays
    down. *)

From stdpp Require Import base gmap list.
From Stdlib Require Import ZArith Lia.
From S2P Require Import Prelude.

(** ** The network *)

(** What becomes of a call, with the error text of its [grpc::Status] if it fails. *)
Inductive fate :=
  | Deliver (err : bytes)      (** fails only if the server is down or dies *)
  | LoseRequest (err : bytes)
  | LoseReply (err : bytes).

Definition fate_err (f : fate) : bytes :=
  match f with Deliver e | LoseRequest e | LoseReply e => e end.

Inductive server (S : Type) := Up (s : S) | Down (s : S).
Arguments Up {S}.
Arguments Down {S}.

Definition server_state {S} (sv : server S) : S := match sv with Up s | Down s => s end.

Record Net (S : Type) := mkNet { net_servers : gmap bytes (server S); net_fates : list fate }.
Arguments mkNet {S}.
Arguments net_servers {S}.
Arguments net_fates {S}.

Section network.
Context {S : Type}.
Implicit Types net : Net S.

Definition set_server (address : bytes) (sv : server S) net : Net S :=
  mkNet (<[address := sv]> (net_servers net)) (net_fates net).

Definition next_fate net : fate * Net S :=
  match net_fates net with
  | [] => (Deliver [], net)
  | f :: fs => (f, mkNet (net_servers net) fs)
  end.

(** A unary call of the stub for [address]: the error text, or the response. *)
Definition stub {Resp} (address : bytes) (handler : S → option Resp * S) net : (bytes + Resp) * Net S :=
  let '(f, net) := next_fate net in
  match net_servers net !! address with
  | Some (Up s) =>
      match f with
      | LoseRequest e => (inl e, net)
      | Deliver e =>
          match handler s with
          | (Some resp, s) => (inr resp, set_server address (Up s) net)
          | (None, s) => (inl e, set_server address (Down s) net)
          end
      | LoseReply e =>
          match handler s with
          | (Some _, s) => (inl e, set_server address (Up s) net)
          | (None, s) => (inl e, set_server address (Down s) net)
          end
      end
  | _ => (inl (fate_err f), net)
  end.
End network.

(** ** A call over the network *)

Section calls.
Context {S : Type}.
Implicit Types net : Net S.

Lemma next_fate_servers net : net_servers (next_fate net).2 = net_servers net.
Proof. unfold next_fate. by destruct (net_fates net). Qed.

(** Either nothing happened, or the handler ran at the server; a response is the
    one it gave. *)
Lemma stub_cases {Resp} address (handler : S → option Resp * S) net r net' :
  stub address handler net = (r, net') →
  (net_servers net' = net_servers net ∧ ∃ e, r = inl e) ∨
  (∃ s o s', net_servers net !! address = Some (Up s) ∧ handler s = (o, s') ∧
     net_servers net' = <[address := if o then Up s' else Down s']> (net_servers net) ∧
     ∀ resp, r = inr resp → o = Some resp).
Proof.
  unfold stub. pose proof (next_fate_servers net) as Hn. destruct (next_fate net) as [f net1]. simpl in Hn.
  rewrite Hn. destruct (net_servers net !! address) as [[s|s]|] eqn:Es; [|intros [= <- <-]; eauto..].
  destruct f as [e|e|e]; [|intros [= <- <-]; eauto|]; (destruct (handler s) as [[resp|] s'] eqn:Eh);
    intros [= <- <-]; right; exists s; eexists _, s'; (split; [done|]); (split; [done|]); simpl;
    rewrite Hn; (split; [done|]); naive_solver.
Qed.

(** The call is not lost and the server is there. *)
Definition reaches address net (s : S) : Prop :=
  net_servers net !! address = Some (Up s) ∧ ∃ e, (next_fate net).1 = Deliver e.

(** The network after a call that left the server in [s]. *)
Definition after address (s : S) net : Net S := set_server address (Up s) (next_fate net).2.

Lemma stub_reaches {Resp} address (handler : S → option Resp * S) net s resp s' :
  reaches address net s → handler s = (Some resp, s') →
  stub address handler net = (inr resp, after address s' net).
Proof.
  intros [Hs [e He]] Eh. unfold stub, after. pose proof (next_fate_servers net) as Hn.
  destruct (next_fate net) as [f net1]. simpl in *. by rewrite Hn, Hs, He, Eh.
Qed.
End calls.

(** ** Services that make calls themselves

    A handler that may call other servers works on the network; it finds the state
    of its own server in its first argument. *)

Section nested.
Context {S : Type}.
Implicit Types net : Net S.

Definition net_call {Resp} (address : bytes) (handler : S → Net S → Resp * Net S) net : (bytes + Resp) * Net S :=
  let '(f, net) := next_fate net in
  match net_servers net !! address with
  | Some (Up s) =>
      match f with
      | LoseRequest e => (inl e, net)
      | Deliver _ => let '(resp, net) := handler s net in (inr resp, net)
      | LoseReply e => let '(_, net) := handler s net in (inl e, net)
      end
  | _ => (inl (fate_err f), net)
  end.

(** Nothing happened, or the handler ran. *)
Lemma net_call_cases {Resp} address (handler : S → Net S → Resp * Net S) net r net' :
  net_call address handler net = (r, net') →
  (net_servers net' = net_servers net ∧ ∃ e, r = inl e) ∨
  (∃ s net1 resp, net_servers net !! address = Some (Up s) ∧ net_servers net1 = net_servers net ∧
     handler s net1 = (resp, net') ∧ ∀ resp', r = inr resp' → resp' = resp).
Proof.
  unfold net_call. pose proof (next_fate_servers net) as Hn. destruct (next_fate net) as [f net1]. simpl in Hn.
  rewrite Hn. destruct (net_servers net !! address) as [[s|s]|] eqn:Es; [|intros [= <- <-]; eauto..].
  destruct f as [e|e|e]; [|intros [= <- <-]; eauto|]; (destruct (handler s net1) as [resp net2] eqn:Eh);
    intros [= <- <-]; right; exists s, net1, resp; naive_solver.
Qed.

Lemma net_call_quiet {Resp} address (handler : S → Net S → Resp * Net S) net s :
  net_fates net = [] → net_servers net !! address = Some (Up s) →
  net_call address handler net = (let '(resp, net) := handler s net in (inr resp, net)).
Proof. intros Hf Hs. unfold net_call, next_fate. by rewrite Hf, Hs. Qed.
End nested.
