(* ===== verification/RaftTransport.v ===== *)
(** * Raft over its transports

    [include/consensus/raft_transport.h] as a type class with its two
    implementations, [InMemoryCluster] (src/consensus/in_memory_transport.cc) and
    [GrpcRaftTransport] with [RaftServiceImpl] (src/network/raft_client.cc,
    raft_server.cc), and passes of the threads of raft_node.cc over a transport that
    are not interrupted.  Over any transport that keeps the laws of the class a pass
    does nothing but steps of the cluster of RaftNet.v.  RaftSchedule.v interleaves
    the threads. *)

From stdpp Require Import base gmap functions numbers list.
From Stdlib Require Import ZArith Lia.
From S2P Require Import Prelude Status RaftStorage RaftNode RaftNet RaftRefine RaftProps Rpc.

Local Open Scope Z_scope.

(** ** Nodes and the wire between them *)

(** The nodes, what the transport keeps ([T]), and the coming readings of the
    clock, each with a random election timeout. *)
Record Sys (T : Type) := mkSys {
  sys_nodes : bytes → RaftNode;
  sys_time : nat → Z * Z;
  sys_wire : T;
}.
Arguments mkSys {T}.
Arguments sys_nodes {T}.
Arguments sys_time {T}.
Arguments sys_wire {T}.

Definition set_node {T} (v : bytes) (n : RaftNode) (s : Sys T) : Sys T :=
  mkSys (<[v := n]> (sys_nodes s)) (sys_time s) (sys_wire s).
Definition set_wire {T} (t : T) (s : Sys T) : Sys T := mkSys (sys_nodes s) (sys_time s) t.
Definition read_time {T} (s : Sys T) : Z * Z * Sys T :=
  (sys_time s 0%nat, mkSys (sys_nodes s) (λ i, sys_time s (S i)) (sys_wire s)).

(** An RPC handler of the node, and a call of it at the node [p]. *)
Definition rpc_handler (Req Resp : Type) : Type := Z → Z → Req → RaftNode → RaftNode * Resp.

Definition handle_at {T Req Resp} (handler : rpc_handler Req Resp) (p : bytes) (req : Req) (s : Sys T)
    : Resp * Sys T :=
  let '((now, timeout), s) := read_time s in
  let '(n, resp) := handler now timeout req (sys_nodes s p) in (resp, set_node p n s).

(** ** The interface *)

(** [class RaftTransport]; [from] is the node whose transport it is.  [None] is the
    return value false. *)
Class RaftTransport (T : Type) := {
  SendRequestVote : bytes → bytes → RequestVoteRequest → Sys T → option RequestVoteResponse * Sys T;
  SendAppendEntries : bytes → bytes → AppendEntriesRequest → Sys T → option AppendEntriesResponse * Sys T;
}.

(** A call of [handler] at [p] that is lost, or whose handler ran once at [p]; a
    response is the one it gave. *)
Definition call_sound {T Req Resp} (handler : rpc_handler Req Resp) (p : bytes) (req : Req)
    (s : Sys T) (r : option Resp) (s' : Sys T) : Prop :=
  (r = None ∧ ∀ w, sys_nodes s' w = sys_nodes s w) ∨
  (∃ now timeout n resp, handler now timeout req (sys_nodes s p) = (n, resp) ∧
     (∀ w, sys_nodes s' w = (<[p := n]> (sys_nodes s)) w) ∧ ∀ resp', r = Some resp' → resp' = resp).

(** A call that is answered: the handler's result at the next reading of the clock. *)
Definition call_answered {T Req Resp} (handler : rpc_handler Req Resp) (p : bytes) (req : Req)
    (s : Sys T) (r : option Resp) (s' : Sys T) : Prop :=
  ∃ n resp, handler (sys_time s 0%nat).1 (sys_time s 0%nat).2 req (sys_nodes s p) = (n, resp) ∧
    r = Some resp ∧ ∀ w, sys_nodes s' w = (<[p := n]> (sys_nodes s)) w.

(** Clock readings are only used up. *)
Definition time_after {T} (s s' : Sys T) : Prop := ∃ k, ∀ i, sys_time s' i = sys_time s (k + i)%nat.

(** What the node relies on: with the transport set up for the cluster
    ([wire_ok]), a call reaches at most the node it names, and reaches it when the
    two are [connected]. *)
Class RaftTransportLaws (T : Type) `{RaftTransport T} := {
  wire_ok : T → Prop;
  connected : T → bytes → bytes → Prop;
  SendRequestVote_sound v p req s r s' :
    wire_ok (sys_wire s) → SendRequestVote v p req s = (r, s') →
    call_sound HandleRequestVote p req s r s' ∧ time_after s s' ∧ wire_ok (sys_wire s');
  SendAppendEntries_sound v p req s r s' :
    wire_ok (sys_wire s) → SendAppendEntries v p req s = (r, s') →
    call_sound HandleAppendEntries p req s r s' ∧ time_after s s' ∧ wire_ok (sys_wire s');
  SendRequestVote_answered v p req s r s' :
    wire_ok (sys_wire s) → connected (sys_wire s) v p → SendRequestVote v p req s = (r, s') →
    call_answered HandleRequestVote p req s r s';
  SendAppendEntries_answered v p req s r s' :
    wire_ok (sys_wire s) → connected (sys_wire s) v p → SendAppendEntries v p req s = (r, s') →
    call_answered HandleAppendEntries p req s r s';
  SendRequestVote_connected v p req s r s' u w :
    wire_ok (sys_wire s) → SendRequestVote v p req s = (r, s') →
    connected (sys_wire s) u w → connected (sys_wire s') u w;
  SendAppendEntries_connected v p req s r s' u w :
    wire_ok (sys_wire s) → SendAppendEntries v p req s = (r, s') →
    connected (sys_wire s) u w → connected (sys_wire s') u w;
}.

(** ** In memory *)

(** [InMemoryCluster]: the registered nodes, a pointer being the place of a node in
    [sys_nodes], and the nodes marked down. *)
Record InMemoryCluster := mkInMemoryCluster { im_nodes : gmap bytes bytes; im_down : gset bytes }.

Definition InMemoryCluster_new : InMemoryCluster := mkInMemoryCluster ∅ ∅.

Definition Register (id node : bytes) (c : InMemoryCluster) : InMemoryCluster :=
  mkInMemoryCluster (<[id := node]> (im_nodes c)) (im_down c).
Definition SetDown (id : bytes) (down : bool) (c : InMemoryCluster) : InMemoryCluster :=
  mkInMemoryCluster (im_nodes c) (if down then {[id]} ∪ im_down c else im_down c ∖ {[id]}).
Definition IsDown (id : bytes) (c : InMemoryCluster) : bool := bool_decide (id ∈ im_down c).

(** The lookup both delivery functions start with. *)
Definition target_node (from target : bytes) (c : InMemoryCluster) : option bytes :=
  if IsDown from c || IsDown target c then None else im_nodes c !! target.

Definition DeliverRequestVote (from target : bytes) (req : RequestVoteRequest) (s : Sys InMemoryCluster)
    : option RequestVoteResponse * Sys InMemoryCluster :=
  match target_node from target (sys_wire s) with
  | None => (None, s)
  | Some node => let '(resp, s) := handle_at HandleRequestVote node req s in (Some resp, s)
  end.

Definition DeliverAppendEntries (from target : bytes) (req : AppendEntriesRequest) (s : Sys InMemoryCluster)
    : option AppendEntriesResponse * Sys InMemoryCluster :=
  match target_node from target (sys_wire s) with
  | None => (None, s)
  | Some node => let '(resp, s) := handle_at HandleAppendEntries node req s in (Some resp, s)
  end.

(** [Endpoint] *)
#[global] Instance Endpoint : RaftTransport InMemoryCluster := {|
  SendRequestVote := DeliverRequestVote;
  SendAppendEntries := DeliverAppendEntries;
|}.

(** ** gRPC *)

(** [GrpcRaftTransport]: the addresses of the peers, and for each stub the address
    its channel was created with. *)
Record GrpcRaftTransport := mkGrpcRaftTransport { gt_addresses : gmap bytes bytes; gt_stubs : gmap bytes bytes }.

Definition GrpcRaftTransport_new (peer_addresses : gmap bytes bytes) : GrpcRaftTransport :=
  mkGrpcRaftTransport peer_addresses ∅.

Definition SetPeer (peer_id address : bytes) (t : GrpcRaftTransport) : GrpcRaftTransport :=
  mkGrpcRaftTransport (<[peer_id := address]> (gt_addresses t)) (delete peer_id (gt_stubs t)).

Definition StubFor (peer : bytes) (t : GrpcRaftTransport) : option bytes * GrpcRaftTransport :=
  match gt_stubs t !! peer with
  | Some stub => (Some stub, t)
  | None =>
      match gt_addresses t !! peer with
      | None => (None, t)
      | Some addr => (Some addr, mkGrpcRaftTransport (gt_addresses t) (<[peer := addr]> (gt_stubs t)))
      end
  end.

(** The transports of the nodes, and the servers: the one at an address is a
    [RaftServiceImpl] for the node named there. *)
Record GrpcWire := mkGrpcWire { gw_transport : bytes → GrpcRaftTransport; gw_net : Net bytes }.

(** [RaftServiceImpl::RequestVote] and [AppendEntries] *)
Definition RaftService_RequestVote (node : bytes) (req : RequestVoteRequest) (s : Sys GrpcWire)
    : RequestVoteResponse * Sys GrpcWire := handle_at HandleRequestVote node req s.
Definition RaftService_AppendEntries (node : bytes) (req : AppendEntriesRequest) (s : Sys GrpcWire)
    : AppendEntriesResponse * Sys GrpcWire := handle_at HandleAppendEntries node req s.

(** A unary call of the stub for [address]; [None] when its status is not ok. *)
Definition raft_stub {Resp} (address : bytes) (service : bytes → Sys GrpcWire → Resp * Sys GrpcWire)
    (s : Sys GrpcWire) : option Resp * Sys GrpcWire :=
  let '(f, net) := next_fate (gw_net (sys_wire s)) in
  let s := set_wire (mkGrpcWire (gw_transport (sys_wire s)) net) s in
  match net_servers net !! address with
  | Some (Up node) =>
      match f with
      | LoseRequest _ => (None, s)
      | Deliver _ => let '(resp, s) := service node s in (Some resp, s)
      | LoseReply _ => let '(_, s) := service node s in (None, s)
      end
  | _ => (None, s)
  end.

(** [StubFor] of the transport of the node [from]. *)
Definition stub_for (from peer : bytes) (s : Sys GrpcWire) : option bytes * Sys GrpcWire :=
  let '(stub, t) := StubFor peer (gw_transport (sys_wire s) from) in
  (stub, set_wire (mkGrpcWire (<[from := t]> (gw_transport (sys_wire s))) (gw_net (sys_wire s))) s).

Definition Grpc_SendRequestVote (from peer : bytes) (req : RequestVoteRequest) (s : Sys GrpcWire)
    : option RequestVoteResponse * Sys GrpcWire :=
  match stub_for from peer s with
  | (None, s) => (None, s)
  | (Some stub, s) => raft_stub stub (λ node, RaftService_RequestVote node req) s
  end.

Definition Grpc_SendAppendEntries (from peer : bytes) (req : AppendEntriesRequest) (s : Sys GrpcWire)
    : option AppendEntriesResponse * Sys GrpcWire :=
  match stub_for from peer s with
  | (None, s) => (None, s)
  | (Some stub, s) => raft_stub stub (λ node, RaftService_AppendEntries node req) s
  end.

#[global] Instance Grpc : RaftTransport GrpcWire := {|
  SendRequestVote := Grpc_SendRequestVote;
  SendAppendEntries := Grpc_SendAppendEntries;
|}.

(** ** The laws of the two transports *)

Lemma call_answered_sound {T Req Resp} (handler : rpc_handler Req Resp) p req (s : Sys T) r s' :
  call_answered handler p req s r s' → call_sound handler p req s r s'.
Proof. intros (n & resp & E & -> & Hn). right. eexists _, _, n, resp. split; [done|]. split; [done|]. naive_solver. Qed.

Lemma handle_at_answered {T Req Resp} (handler : rpc_handler Req Resp) p req (s : Sys T) resp s' :
  handle_at handler p req s = (resp, s') →
  call_answered handler p req s (Some resp) s' ∧ time_after s s' ∧ sys_wire s' = sys_wire s.
Proof.
  unfold handle_at, read_time. destruct (sys_time s 0%nat) as [now timeout] eqn:Et. cbn [sys_nodes].
  destruct (handler now timeout req (sys_nodes s p)) as [n resp'] eqn:Eh. intros [= <- <-]. split_and!; [|by exists 1%nat|done].
  exists n, resp'. rewrite Et. done.
Qed.

Lemma time_after_refl {T} (s : Sys T) : time_after s s.
Proof. by exists 0%nat. Qed.

Lemma time_after_trans {T} (s1 s2 s3 : Sys T) : time_after s1 s2 → time_after s2 s3 → time_after s1 s3.
Proof. intros [k Hk] [k' Hk']. exists (k + k')%nat. intros i. rewrite Hk', Hk. f_equal. lia. Qed.

Section in_memory.
Definition im_ok (c : InMemoryCluster) : Prop := ∀ id node, im_nodes c !! id = Some node → node = id.
Definition im_connected (c : InMemoryCluster) (v p : bytes) : Prop :=
  v ∉ im_down c ∧ p ∉ im_down c ∧ im_nodes c !! p = Some p.

Lemma target_node_connected c v p : im_connected c v p → target_node v p c = Some p.
Proof.
  intros (Hv & Hp & Hn). unfold target_node, IsDown. by rewrite !bool_decide_eq_false_2.
Qed.

Lemma target_node_ok c v p node : im_ok c → target_node v p c = Some node → node = p.
Proof. intros Hc. unfold target_node. destruct (_ || _); [done|]. apply Hc. Qed.

#[global] Program Instance Endpoint_laws : RaftTransportLaws InMemoryCluster := {|
  wire_ok := im_ok; connected := im_connected;
|}.
Next Obligation.
  intros v p req s r s' Hok. cbn [SendRequestVote Endpoint]. unfold DeliverRequestVote.
  destruct (target_node v p (sys_wire s)) as [node|] eqn:En;
    [|intros [= <- <-]; split_and!; [by left|apply time_after_refl|done]].
  apply target_node_ok in En as ->; [|done]. destruct (handle_at _ _ _ _) as [resp s1] eqn:E. intros [= <- <-].
  apply handle_at_answered in E as (Ha & Ht & ->). split_and!; [by apply call_answered_sound|done|done].
Qed.
Next Obligation.
  intros v p req s r s' Hok. cbn [SendAppendEntries Endpoint]. unfold DeliverAppendEntries.
  destruct (target_node v p (sys_wire s)) as [node|] eqn:En;
    [|intros [= <- <-]; split_and!; [by left|apply time_after_refl|done]].
  apply target_node_ok in En as ->; [|done]. destruct (handle_at _ _ _ _) as [resp s1] eqn:E. intros [= <- <-].
  apply handle_at_answered in E as (Ha & Ht & ->). split_and!; [by apply call_answered_sound|done|done].
Qed.
Next Obligation.
  intros v p req s r s' _ Hc. cbn [SendRequestVote Endpoint]. unfold DeliverRequestVote.
  rewrite (target_node_connected _ _ _ Hc). destruct (handle_at _ _ _ _) as [resp s1] eqn:E. intros [= <- <-].
  by apply handle_at_answered in E as [? _].
Qed.
Next Obligation.
  intros v p req s r s' _ Hc. cbn [SendAppendEntries Endpoint]. unfold DeliverAppendEntries.
  rewrite (target_node_connected _ _ _ Hc). destruct (handle_at _ _ _ _) as [resp s1] eqn:E. intros [= <- <-].
  by apply handle_at_answered in E as [? _].
Qed.
Next Obligation.
  intros v p req s r s' u w _. cbn [SendRequestVote Endpoint]. unfold DeliverRequestVote.
  destruct (target_node _ _ _); [|by intros [= <- <-]]. destruct (handle_at _ _ _ _) as [resp s1] eqn:E.
  intros [= <- <-]. by apply handle_at_answered in E as (_ & _ & ->).
Qed.
Next Obligation.
  intros v p req s r s' u w _. cbn [SendAppendEntries Endpoint]. unfold DeliverAppendEntries.
  destruct (target_node _ _ _); [|by intros [= <- <-]]. destruct (handle_at _ _ _ _) as [resp s1] eqn:E.
  intros [= <- <-]. by apply handle_at_answered in E as (_ & _ & ->).
Qed.
End in_memory.

Section grpc.
(** A cached stub is for the peer's current address, and the server at a peer's
    address is the peer. *)
Definition gt_ok (t : GrpcRaftTransport) : Prop := gt_stubs t ⊆ gt_addresses t.
Definition grpc_ok (w : GrpcWire) : Prop :=
  (∀ v, gt_ok (gw_transport w v)) ∧
  ∀ v p a sv, gt_addresses (gw_transport w v) !! p = Some a → net_servers (gw_net w) !! a = Some sv →
    server_state sv = p.
Definition grpc_connected (w : GrpcWire) (v p : bytes) : Prop :=
  net_fates (gw_net w) = [] ∧
  ∃ a, gt_addresses (gw_transport w v) !! p = Some a ∧ net_servers (gw_net w) !! a = Some (Up p).

Lemma GrpcRaftTransport_new_ok addresses : gt_ok (GrpcRaftTransport_new addresses).
Proof. apply map_empty_subseteq. Qed.

Lemma SetPeer_ok peer address t : gt_ok t → gt_ok (SetPeer peer address t).
Proof.
  intros Ht. unfold gt_ok, SetPeer. cbn [gt_stubs gt_addresses]. apply map_subseteq_spec. intros p a.
  rewrite lookup_delete_Some. intros [Hne Hp]. rewrite lookup_insert_ne by done. by eapply lookup_weaken.
Qed.

(** [StubFor] finds the peer's current address, whatever was cached before. *)
Lemma StubFor_spec peer t :
  gt_ok t → (StubFor peer t).1 = gt_addresses t !! peer ∧ gt_ok (StubFor peer t).2 ∧
  gt_addresses (StubFor peer t).2 = gt_addresses t.
Proof.
  intros Ht. unfold StubFor. destruct (gt_stubs t !! peer) as [a|] eqn:E.
  { split_and!; [|done|done]. symmetry. by eapply lookup_weaken. }
  destruct (gt_addresses t !! peer) as [a|] eqn:Ea; [|done]. split_and!; [done| |done].
  apply insert_subseteq_l; [done|]. exact Ht.
Qed.

Lemma stub_for_spec v p s stub s' :
  grpc_ok (sys_wire s) → stub_for v p s = (stub, s') →
  stub = gt_addresses (gw_transport (sys_wire s) v) !! p ∧ sys_nodes s' = sys_nodes s ∧
  sys_time s' = sys_time s ∧ gw_net (sys_wire s') = gw_net (sys_wire s) ∧
  (∀ u, gt_addresses (gw_transport (sys_wire s') u) = gt_addresses (gw_transport (sys_wire s) u)) ∧
  grpc_ok (sys_wire s').
Proof.
  intros [Hst Hsv]. unfold stub_for. destruct (StubFor_spec p _ (Hst v)) as (E1 & E2 & E3).
  destruct (StubFor p _) as [stub' t]. cbn [fst snd] in *. intros [= <- <-].
  cbn [sys_nodes sys_time sys_wire set_wire gw_net gw_transport].
  assert (∀ u, gt_addresses ((<[v:=t]> (gw_transport (sys_wire s))) u) = gt_addresses (gw_transport (sys_wire s) u)) as Ha.
  { intros u. destruct (decide (u = v)) as [->|]; [by rewrite fn_lookup_insert|by rewrite fn_lookup_insert_ne]. }
  split_and!; [done|done|done|done|done|]. split; cbn [gw_transport gw_net].
  - intros u. destruct (decide (u = v)) as [->|]; [by rewrite fn_lookup_insert|by rewrite fn_lookup_insert_ne].
  - intros u q a sv. rewrite Ha. apply Hsv.
Qed.

(** A call through a stub for [p], once it has been found. *)
Lemma grpc_call {Req Resp} (handler : rpc_handler Req Resp) v p req s r s' :
  grpc_ok (sys_wire s) →
  match stub_for v p s with
  | (None, s) => (None, s)
  | (Some stub, s) => raft_stub stub (λ node, handle_at handler node req) s
  end = (r, s') →
  call_sound handler p req s r s' ∧ time_after s s' ∧ grpc_ok (sys_wire s') ∧
  (grpc_connected (sys_wire s) v p → call_answered handler p req s r s') ∧
  (∀ u w, grpc_connected (sys_wire s) u w → grpc_connected (sys_wire s') u w).
Proof.
  intros Hok. destruct (stub_for v p s) as [stub s1] eqn:E.
  destruct (stub_for_spec _ _ _ _ _ Hok E) as (Estub & En & Et & Enet & Ha & Hok1).
  assert (∀ net, net_servers net = net_servers (gw_net (sys_wire s)) → (net_fates (gw_net (sys_wire s)) = [] → net_fates net = []) →
    grpc_ok (mkGrpcWire (gw_transport (sys_wire s1)) net) ∧
    ∀ u w, grpc_connected (sys_wire s) u w → grpc_connected (mkGrpcWire (gw_transport (sys_wire s1)) net) u w) as Hkeep.
  { intros net Hs Hf. split.
    - split; [apply Hok1|]. cbn [gw_transport gw_net]. rewrite Hs, <-Enet. apply Hok1.
    - intros u w (H1 & a & H2 & H3). split; cbn [gw_transport gw_net]; [auto|]. exists a. by rewrite Ha, Hs. }
  destruct stub as [a|].
  2:{ intros [= <- <-]. split_and!; [left; split; [done|]; by rewrite En|exists 0%nat; intros i; by rewrite Et|done| |].
    - intros (_ & a & H2 & _). congruence.
    - intros u w (H1 & a & H2 & H3). split; [by rewrite Enet|]. exists a. by rewrite Ha, Enet. }
  unfold raft_stub. pose proof (next_fate_servers (gw_net (sys_wire s1))) as Hns.
  assert (net_fates (gw_net (sys_wire s)) = [] →
    net_fates (next_fate (gw_net (sys_wire s1))).2 = [] ∧ ∃ e, (next_fate (gw_net (sys_wire s1))).1 = Deliver e) as Hf.
  { rewrite Enet. unfold next_fate. intros H. rewrite H. split; [exact H|by eexists]. }
  destruct (next_fate (gw_net (sys_wire s1))) as [f net]. cbn [fst snd] in *. rewrite Enet in Hns.
  destruct (Hkeep net Hns ltac:(naive_solver)) as [Hok2 Hc2]. clear Hkeep.
  set (s2 := set_wire _ s1).
  assert (sys_nodes s2 = sys_nodes s ∧ sys_time s2 = sys_time s) as [En2 Et2] by done.
  assert (call_sound handler p req s None s2 ∧ time_after s s2) as [Hlost Ht2].
  { split; [left; split; [done|]; by rewrite En2|]. exists 0%nat. intros i. by rewrite Et2. }
  rewrite Hns. destruct (net_servers (gw_net (sys_wire s)) !! a) as [[node|node]|] eqn:Es.
  2-3: intros [= <- <-]; split_and!; [done|done|done| |done]; intros (_ & a' & ? & ?); congruence.
  assert (node = p) as -> by exact (proj2 Hok v p a _ (eq_sym Estub) Es).
  assert (∀ resp s3, handle_at handler p req s2 = (resp, s3) →
    call_answered handler p req s (Some resp) s3 ∧ time_after s s3 ∧ sys_wire s3 = sys_wire s2) as Hh.
  { intros resp s3 (Hans & Htime & Hw)%handle_at_answered. split_and!; [|by eapply time_after_trans|done].
    destruct Hans as (n & resp' & H1 & H2 & H3). exists n, resp'. rewrite <-En2, <-Et2. done. }
  destruct f as [e|e|e].
  - destruct (handle_at handler p req s2) as [resp s3] eqn:E3. intros [= <- <-].
    destruct (Hh _ _ eq_refl) as (Hans & Htime & Hw). rewrite Hw. split_and!; [by apply call_answered_sound|done|done|done|done].
  - intros [= <- <-]. split_and!; [done|done|done| |done]. intros [H0 _]. destruct (Hf H0) as [_ [? ?]]. done.
  - destruct (handle_at handler p req s2) as [resp s3] eqn:E3. intros [= <- <-].
    destruct (Hh _ _ eq_refl) as (Hans & Htime & Hw). rewrite Hw. split_and!; [|done|done| |done].
    + apply call_answered_sound in Hans as [[? _]|(now & timeout & n & resp' & ? & ? & _)]; [done|].
      right. by exists now, timeout, n, resp'.
    + intros [H0 _]. destruct (Hf H0) as [_ [? ?]]. done.
Qed.

#[global] Program Instance Grpc_laws : RaftTransportLaws GrpcWire := {|
  wire_ok := grpc_ok; connected := grpc_connected;
|}.
Next Obligation. intros v p req s r s' Hok E. by destruct (grpc_call HandleRequestVote _ _ _ _ _ _ Hok E) as (? & ? & ? & _). Qed.
Next Obligation. intros v p req s r s' Hok E. by destruct (grpc_call HandleAppendEntries _ _ _ _ _ _ Hok E) as (? & ? & ? & _). Qed.
Next Obligation. intros v p req s r s' Hok Hc E. by apply (grpc_call HandleRequestVote _ _ _ _ _ _ Hok E). Qed.
Next Obligation. intros v p req s r s' Hok Hc E. by apply (grpc_call HandleAppendEntries _ _ _ _ _ _ Hok E). Qed.
Next Obligation. intros v p req s r s' u w Hok E. by apply (grpc_call HandleRequestVote _ _ _ _ _ _ Hok E). Qed.
Next Obligation. intros v p req s r s' u w Hok E. by apply (grpc_call HandleAppendEntries _ _ _ _ _ _ Hok E). Qed.
End grpc.

(** ** The threads of a node *)

Section threads.
Context {T : Type} `{RaftTransport T}.
Implicit Types s : Sys T.

(** A thread of [WinVoteRound], with the counter the threads share. *)
Definition vote_thread (req : RequestVoteRequest) (pre_vote : bool) (term : Z) (v : bytes)
    (acc : Z * Sys T) (peer : bytes) : Z * Sys T :=
  let '(votes, s) := acc in
  match SendRequestVote v peer req s with
  | (None, s) => (votes, s)
  | (Some resp, s) =>
      let '(n, votes) := WinVoteRound_reply pre_vote term resp votes (sys_nodes s v) in
      (votes, set_node v n s)
  end.

(** [order] is the order in which the threads for the peers get their turn. *)
Definition WinVoteRound (order : list bytes) (req : RequestVoteRequest) (pre_vote : bool) (term : Z)
    (v : bytes) s : bool * Sys T :=
  let '(votes, s) := foldl (vote_thread req pre_vote term v) (1, s) order in
  (WinVoteRound_result votes (sys_nodes s v), s).

Definition StartElection (order order' : list bytes) (v : bytes) s : Sys T :=
  match StartElection_pre (sys_nodes s v) with
  | None => s
  | Some pre =>
      let would_be_term := rv_term pre in
      let '(won, s) := WinVoteRound order pre true would_be_term v s in
      if won : bool then
        let '((now, timeout), s) := read_time s in
        match StartElection_begin now timeout would_be_term (sys_nodes s v) with
        | None => s
        | Some (n, req) =>
            let term := rv_term req in
            let '(won, s) := WinVoteRound order' req false term v (set_node v n s) in
            if won : bool then set_node v (StartElection_win term (sys_nodes s v)) s else s
        end
      else s
  end.

(** One pass of [ElectionLoop] and one of [ReplicationLoop]. *)
Definition ElectionLoop_pass (order order' : list bytes) (v : bytes) s : Sys T :=
  let '((now, _), s) := read_time s in
  if election_due now (sys_nodes s v) then StartElection order order' v s else s.

Definition ReplicateTo (v peer : bytes) (term : Z) s : Sys T :=
  match ReplicateTo_request peer term (sys_nodes s v) with
  | None => s
  | Some req =>
      match SendAppendEntries v peer req s with
      | (None, s) => s
      | (Some resp, s) => set_node v (ReplicateTo_reply peer term req resp (sys_nodes s v)) s
      end
  end.

Definition ReplicationLoop_pass (v peer : bytes) s : Sys T :=
  if bool_decide (rn_role (sys_nodes s v) = kLeader)
  then ReplicateTo v peer (rn_current_term (sys_nodes s v)) s else s.

(** A client's call of [Propose] on [v]. *)
Definition propose_at (v command : bytes) s : StatusOr Z * Sys T :=
  let '(r, n) := Propose command (sys_nodes s v) in (r, set_node v n s).
End threads.

(** ** The threads only do steps of the cluster *)

Section refines.
Context {T : Type} `{RaftTransportLaws T}.
Variable members : list bytes.
Variable cfg : bytes → RaftConfig.
Hypothesis cfg_ok : cluster_cfg members cfg.
Implicit Types (s : Sys T) (cl : cluster).

Notation steps := (rtc (net_step members cfg)).

(** The nodes of the cluster are the ones the transport connects. *)
Definition shows s cl : Prop := ∀ w, cl_node cl w = sys_nodes s w.

(** From [s] and [cl] to [s'] and [cl'], keeping all threads but [v]'s. *)
Record follows (v : bytes) s cl s' cl' : Prop := {
  fo_steps : steps cl cl';
  fo_shows : shows s' cl';
  fo_elect : ∀ w, w ≠ v → cl_elect cl' w = cl_elect cl w;
  fo_net : ∀ m, m ∈ cl_net cl → m ∈ cl_net cl';
}.

Lemma follows_refl v s cl : shows s cl → follows v s cl s cl.
Proof. intros Hs. by split. Qed.

Lemma follows_trans v s1 cl1 s2 cl2 s3 cl3 :
  follows v s1 cl1 s2 cl2 → follows v s2 cl2 s3 cl3 → follows v s1 cl1 s3 cl3.
Proof.
  intros H1 H2. split.
  - etrans; [apply H1|apply H2].
  - apply H2.
  - intros w Hw. by rewrite (fo_elect _ _ _ _ _ H2), (fo_elect _ _ _ _ _ H1).
  - intros m Hm. by apply H2, H1.
Qed.

(** A step of the node [v] itself. *)
Lemma follows_own v s cl s' n et msgs :
  shows s cl → net_step members cfg cl (update v n et msgs cl) →
  (∀ w, sys_nodes s' w = (<[v := n]> (sys_nodes s)) w) →
  follows v s cl s' (update v n et msgs cl).
Proof.
  intros Hs Hstep Hs'. split; [by apply rtc_once| | |]; cbn [cl_node cl_elect cl_net update].
  - intros w. rewrite Hs'. cbn [cl_node update]. destruct (decide (w = v)) as [->|]; [by rewrite !fn_lookup_insert|].
    by rewrite !fn_lookup_insert_ne.
  - intros w Hw. by rewrite fn_lookup_insert_ne.
  - intros m Hm. apply elem_of_app. by right.
Qed.

Lemma same_node v s s' :
  (∀ w, sys_nodes s' w = sys_nodes s w) → ∀ w, sys_nodes s' w = (<[v := sys_nodes s v]> (sys_nodes s)) w.
Proof.
  intros Hs w. rewrite Hs. destruct (decide (w = v)) as [->|]; [by rewrite fn_lookup_insert|by rewrite fn_lookup_insert_ne].
Qed.

(** A step of a handler at [p], whoever waits for the reply. *)
Lemma follows_handler v p s cl s' n msg :
  shows s cl → net_step members cfg cl (update p n (cl_elect cl p) [msg] cl) →
  (∀ w, sys_nodes s' w = (<[p := n]> (sys_nodes s)) w) →
  let cl' := update p n (cl_elect cl p) [msg] cl in
  follows v s cl s' cl' ∧ cl_elect cl' v = cl_elect cl v ∧ msg ∈ cl_net cl'.
Proof.
  intros Hs Hstep Hs'. cbn zeta. destruct (follows_own p s cl s' n _ _ Hs Hstep Hs') as [? ? He ?].
  assert (∀ w, cl_elect (update p n (cl_elect cl p) [msg] cl) w = cl_elect cl w) as He'.
  { intros w. destruct (decide (w = p)) as [->|Hw]; [|by apply He]. cbn [cl_elect update]. by rewrite fn_lookup_insert. }
  split_and!; [by split|apply He'|by left].
Qed.

Lemma call_lost v s cl s' :
  shows s cl → (∀ w, sys_nodes s' w = sys_nodes s w) → follows v s cl s' cl.
Proof. intros Hs Hn. split; try done. intros w. by rewrite Hn. Qed.

Lemma call_steps_vote v p req s r s' cl :
  p ∈ members → shows s cl → RVReq p req ∈ cl_net cl → call_sound HandleRequestVote p req s r s' →
  ∃ cl', follows v s cl s' cl' ∧ cl_elect cl' v = cl_elect cl v ∧
    ∀ resp, r = Some resp → RVResp p req resp ∈ cl_net cl'.
Proof.
  intros Hp Hs Hm [[-> Hn]|(now & timeout & n & resp & Eh & Hn & Hr)].
  { exists cl. split; [by apply call_lost|done]. }
  destruct (follows_handler v p s cl s' n (RVResp p req resp)) as (Hf & He & Hin); [done| |done|].
  { eapply ns_request_vote; [done|done|by rewrite Hs]. }
  eexists. split; [exact Hf|]. split; [done|]. by intros resp' ->%Hr.
Qed.

Lemma call_steps_append v p req s r s' cl :
  p ∈ members → shows s cl → AEReq p req ∈ cl_net cl → call_sound HandleAppendEntries p req s r s' →
  ∃ cl', follows v s cl s' cl' ∧ cl_elect cl' v = cl_elect cl v ∧
    ∀ resp, r = Some resp → AEResp p req resp ∈ cl_net cl'.
Proof.
  intros Hp Hs Hm [[-> Hn]|(now & timeout & n & resp & Eh & Hn & Hr)].
  { exists cl. split; [by apply call_lost|done]. }
  destruct (follows_handler v p s cl s' n (AEResp p req resp)) as (Hf & He & Hin); [done| |done|].
  { eapply ns_append; [done|done|by rewrite Hs]. }
  eexists. split; [exact Hf|]. split; [done|]. by intros resp' ->%Hr.
Qed.

(** *** Elections *)

Lemma vote_thread_follows v p req pre term votes s votes' s' cl pending :
  v ∈ members → p ∈ pending → p ∈ members → wire_ok (sys_wire s) → shows s cl →
  cl_elect cl v = et_round pre term req pending votes → RVReq p req ∈ cl_net cl →
  vote_thread req pre term v (votes, s) p = (votes', s') →
  ∃ cl', follows v s cl s' cl' ∧ wire_ok (sys_wire s') ∧
    cl_elect cl' v = et_round pre term req (filter (.≠ p) pending) votes'.
Proof.
  intros Hv Hp Hpm Hok Hs He Hm. unfold vote_thread. destruct (SendRequestVote v p req s) as [r s1] eqn:E.
  destruct (SendRequestVote_sound _ _ _ _ _ _ Hok E) as (Hcall & _ & Hok1).
  destruct (call_steps_vote v _ _ _ _ _ cl Hpm Hs Hm Hcall) as (cl1 & Hf1 & He1 & Hr). rewrite He in He1.
  pose proof (fo_shows _ _ _ _ _ Hf1) as Hs1. destruct r as [resp|].
  - destruct (WinVoteRound_reply pre term resp votes (sys_nodes s1 v)) as [n votes1] eqn:Ew. intros [= <- <-].
    assert (follows v s1 cl1 (set_node v n s1) (update v n (et_round pre term req (filter (.≠ p) pending) votes1) [] cl1)) as Hf2.
    { apply follows_own; [done| |done]. eapply ns_vote_reply; [done|done|done|by apply Hr|by rewrite Hs1]. }
    eexists. split; [by eapply follows_trans|]. split; [done|]. cbn [cl_elect update]. by rewrite fn_lookup_insert.
  - intros [= <- <-].
    assert (follows v s1 cl1 s1 (update v (cl_node cl1 v) (et_round pre term req (filter (.≠ p) pending) votes) [] cl1)) as Hf2.
    { apply follows_own; [done|by apply ns_vote_failed|]. rewrite Hs1. by apply same_node. }
    eexists. split; [by eapply follows_trans|]. split; [done|]. cbn [cl_elect update]. by rewrite fn_lookup_insert.
Qed.

Lemma vote_threads_follow v req pre term order votes s votes' s' cl pending :
  v ∈ members → NoDup order → order ⊆ members → pending ≡ₚ order → wire_ok (sys_wire s) → shows s cl →
  cl_elect cl v = et_round pre term req pending votes → (∀ p, p ∈ order → RVReq p req ∈ cl_net cl) →
  foldl (vote_thread req pre term v) (votes, s) order = (votes', s') →
  ∃ cl', follows v s cl s' cl' ∧ wire_ok (sys_wire s') ∧ cl_elect cl' v = et_round pre term req [] votes'.
Proof.
  intros Hv. revert votes s cl pending. induction order as [|p order IH]; intros votes s cl pending Hnd Hsub Hperm Hok Hs He Hm E.
  { apply Permutation_nil_r in Hperm as ->. injection E as <- <-. exists cl. split; [by apply follows_refl|done]. }
  cbn [foldl] in E. destruct (vote_thread req pre term v (votes, s) p) as [votes1 s1] eqn:E1.
  apply NoDup_cons in Hnd as [Hp Hnd].
  destruct (vote_thread_follows v p req pre term votes s votes1 s1 cl pending) as (cl1 & Hf1 & Hok1 & He1); try done.
  { rewrite Hperm. by left. }
  { apply Hsub. by left. }
  { apply Hm. by left. }
  edestruct (IH votes1 s1 cl1) as (cl2 & Hf2 & Hok2 & He2); try exact E; try exact He1; try done.
  - intros q Hq. apply Hsub. by right.
  - rewrite Hperm. rewrite filter_cons_False by tauto. rewrite filter_all; [done|].
    intros q Hq. congruence.
  - apply Hf1.
  - intros q Hq. apply Hf1, Hm. by right.
  - exists cl2. split; [by eapply follows_trans|done].
Qed.

(** A round of votes: the requests are out, then the threads get their replies,
    then the votes are counted. *)
Lemma WinVoteRound_follows v order req pre term s won s' cl :
  v ∈ members → order ≡ₚ cfg_peers (cfg v) → wire_ok (sys_wire s) → shows s cl →
  cl_elect cl v = et_round pre term req (cfg_peers (cfg v)) 1 →
  (∀ p, p ∈ cfg_peers (cfg v) → RVReq p req ∈ cl_net cl) →
  WinVoteRound order req pre term v s = (won, s') →
  ∃ cl', follows v s cl s' cl' ∧ wire_ok (sys_wire s') ∧
    cl_elect cl' v = if won then if pre then et_pre_won term else et_won term else et_idle.
Proof.
  intros Hv Hord Hok Hs He Hm. unfold WinVoteRound.
  destruct (foldl _ _ _) as [votes s1] eqn:E. intros [= <- <-].
  destruct (peers_facts members cfg (cc_nodup _ _ cfg_ok) (cc_peers _ _ cfg_ok) v Hv) as (Hnd & _ & Hsub & _).
  destruct (vote_threads_follow v req pre term order 1 s votes s1 cl (cfg_peers (cfg v))) as (cl1 & Hf1 & Hok1 & He1); try done.
  - by rewrite Hord.
  - intros p Hp. apply Hsub. by rewrite <-Hord.
  - intros p Hp. apply Hm. by rewrite <-Hord.
  - pose proof (fo_shows _ _ _ _ _ Hf1) as Hs1. eexists. split; [eapply follows_trans; [exact Hf1|]|split; [done|]].
    + apply follows_own; [done|by eapply ns_round_end|]. rewrite Hs1. by apply same_node.
    + cbn [cl_elect update]. by rewrite fn_lookup_insert, Hs1.
Qed.

Variable now0 timeout0 : bytes → Z.
Notation reached := (reachable members cfg now0 timeout0).

(** What the refinement says of a node. *)
Lemma reached_node cl v :
  reached cl → v ∈ members → ∃ a, RaftSpec.Inv members a ∧ NodeOk members cfg a v (cl_node cl v).
Proof.
  intros Hr Hv. destruct cfg_ok. destruct (refinement members cfg) with (now := now0) (timeout := timeout0) (cl := cl)
    as (a & _ & HR); try done. exists a. split; [apply HR|by apply HR].
Qed.

Lemma follows_reached v s cl s' cl' : reached cl → follows v s cl s' cl' → reached cl'.
Proof. intros Hr Hf. unfold reachable. etrans; [exact Hr|apply Hf]. Qed.

Lemma reached_term cl v : reached cl → v ∈ members → 0 <= rn_current_term (cl_node cl v) < 2 ^ 64.
Proof.
  intros Hr Hv. destruct (reached_node cl v Hr Hv) as (a & HI & HN).
  split; [by eapply NodeOk_term_nonneg|apply HN].
Qed.

(** [s'] is what [cl] can come to, with the threads as they were. *)
Definition refined s' cl : Prop :=
  ∃ cl', steps cl cl' ∧ shows s' cl' ∧ (∀ w, cl_elect cl' w = cl_elect cl w) ∧ wire_ok (sys_wire s').

Lemma refined_idle v s cl s' cl' :
  follows v s cl s' cl' → cl_elect cl v = et_idle → cl_elect cl' v = et_idle → wire_ok (sys_wire s') → refined s' cl.
Proof.
  intros [] E E' Hok. exists cl'. split_and!; try done.
  intros w. destruct (decide (w = v)) as [->|]; [congruence|auto].
Qed.

Lemma real_round_follows v order req n s cl term would now timeout :
  v ∈ members → order ≡ₚ cfg_peers (cfg v) → wire_ok (sys_wire s) → shows s cl →
  cl_elect cl v = et_pre_won would → rn_current_term (sys_nodes s v) + 1 < 2 ^ 64 →
  StartElection_begin now timeout would (sys_nodes s v) = Some (n, req) → term = rv_term req →
  let '(won, s') := WinVoteRound order req false term v (set_node v n s) in
  let s' := if won then set_node v (StartElection_win term (sys_nodes s' v)) s' else s' in
  ∃ cl', follows v s cl s' cl' ∧ wire_ok (sys_wire s') ∧ cl_elect cl' v = et_idle.
Proof.
  intros Hv Hord Hok Hs He Hb Eb ->.
  set (cl1 := update v n (et_round false (rv_term req) req (cfg_peers (cfg v)) 1) (vote_requests cfg v req) cl).
  assert (follows v s cl (set_node v n s) cl1) as Hf1.
  { apply follows_own; [done| |done]. eapply ns_begin; [done|done|by rewrite Hs|by rewrite Hs]. }
  destruct (WinVoteRound order req false _ v _) as [won s2] eqn:E.
  destruct (WinVoteRound_follows v order req false (rv_term req) (set_node v n s) won s2 cl1)
    as (cl2 & Hf2 & Hok2 & He2); try done.
  - apply Hf1.
  - cbn [cl_elect update cl1]. by rewrite fn_lookup_insert.
  - intros p Hp. cbn [cl_net update cl1]. apply elem_of_app. left. apply list_elem_of_fmap. by exists p.
  - cbn zeta. destruct won.
    + eexists. split; [eapply follows_trans; [exact Hf1|]; eapply follows_trans; [exact Hf2|]|split; [done|]].
      * pose proof (fo_shows _ _ _ _ _ Hf2 v) as <-. apply follows_own; [apply Hf2|by apply ns_win|done].
      * cbn [cl_elect update]. by rewrite fn_lookup_insert.
    + exists cl2. split; [by eapply follows_trans|done].
Qed.

Lemma StartElection_follows v order order' s cl :
  v ∈ members → order ≡ₚ cfg_peers (cfg v) → order' ≡ₚ cfg_peers (cfg v) → wire_ok (sys_wire s) → shows s cl →
  reached cl → rn_current_term (sys_nodes s v) + 1 < 2 ^ 64 → cl_elect cl v = et_due →
  ∃ cl', follows v s cl (StartElection order order' v s) cl' ∧ wire_ok (sys_wire (StartElection order order' v s)) ∧
    cl_elect cl' v = et_idle.
Proof.
  intros Hv Hord Hord' Hok Hs Hr Hb He. unfold StartElection.
  destruct (StartElection_pre (sys_nodes s v)) as [pre|] eqn:Epre.
  2:{ eexists. split; [apply follows_own; [done|apply ns_pre_vote_skip; [done|done|by rewrite Hs]|]|split; [done|]].
    - rewrite Hs. by apply same_node.
    - cbn [cl_elect update]. by rewrite fn_lookup_insert. }
  set (cl1 := update v (cl_node cl v) (et_round true (rv_term pre) pre (cfg_peers (cfg v)) 1) (vote_requests cfg v pre) cl).
  assert (follows v s cl s cl1) as Hf1.
  { apply follows_own; [done|apply ns_pre_vote; [done|done|by rewrite Hs]|]. rewrite Hs. by apply same_node. }
  destruct (WinVoteRound order pre true _ v s) as [won s2] eqn:E.
  destruct (WinVoteRound_follows v order pre true (rv_term pre) s won s2 cl1) as (cl2 & Hf2 & Hok2 & He2); try done.
  { apply Hf1. }
  { cbn [cl_elect update cl1]. by rewrite fn_lookup_insert. }
  { intros p Hp. cbn [cl_net update cl1]. apply elem_of_app. left. apply list_elem_of_fmap. by exists p. }
  pose proof (follows_trans _ _ _ _ _ _ _ Hf1 Hf2) as Hf12. cbn zeta. destruct won; [|by exists cl2].
  unfold read_time. destruct (sys_time s2 0%nat) as [now timeout]. cbn [sys_nodes].
  set (s3 := mkSys _ _ _). assert (follows v s cl s3 cl2) as Hf13 by (destruct Hf12; by split).
  destruct (StartElection_begin now timeout (rv_term pre) (sys_nodes s2 v)) as [[n req]|] eqn:Eb.
  2:{ eexists. split; [eapply follows_trans; [exact Hf13|]|split; [done|]].
    - apply follows_own; [apply Hf13|eapply ns_begin_skip; [done|done|by rewrite (fo_shows _ _ _ _ _ Hf13)]|].
      rewrite (fo_shows _ _ _ _ _ Hf13). by apply same_node.
    - cbn [cl_elect update]. by rewrite fn_lookup_insert. }
  pose proof (real_round_follows v order' req n s3 cl2 (rv_term req) (rv_term pre) now timeout Hv Hord' Hok2
    (fo_shows _ _ _ _ _ Hf13) He2) as Hreal.
  destruct (WinVoteRound order' req false (rv_term req) v (set_node v n s3)) as [won s4].
  destruct Hreal as (cl4 & Hf4 & Hok4 & He4); [|done|done|].
  - (* the term is what it was before the trial round *)
    unfold StartElection_begin in Eb. destruct (_ || _) eqn:Eg; [done|]. clear Eb.
    apply orb_false_iff in Eg as [[_ Ht]%orb_false_iff _]. apply negb_false_iff, Z.eqb_eq in Ht.
    unfold StartElection_pre in Epre. destruct (bool_decide _); [done|]. injection Epre as <-. cbn [rv_term] in Ht.
    pose proof (reached_term cl v Hr Hv) as Hb1. rewrite Hs in Hb1.
    pose proof (reached_term cl2 v (follows_reached _ _ _ _ _ Hr Hf12) Hv) as Hb2.
    rewrite (fo_shows _ _ _ _ _ Hf12) in Hb2. cbn [s3 sys_nodes]. revert Ht. unfold u64.
    destruct (decide (rn_current_term (sys_nodes s2 v) + 1 < 2 ^ 64)); [done|].
    rewrite (Z.mod_small (rn_current_term (sys_nodes s v) + 1)) by lia.
    replace (rn_current_term (sys_nodes s2 v) + 1) with (2 ^ 64) by lia. rewrite Z.mod_same by lia. lia.
  - exists cl4. split; [by eapply follows_trans|done].
Qed.

Lemma ElectionLoop_pass_refines v order order' s cl :
  v ∈ members → order ≡ₚ cfg_peers (cfg v) → order' ≡ₚ cfg_peers (cfg v) → wire_ok (sys_wire s) → shows s cl →
  reached cl → rn_current_term (sys_nodes s v) + 1 < 2 ^ 64 → cl_elect cl v = et_idle →
  refined (ElectionLoop_pass order order' v s) cl.
Proof.
  intros Hv Hord Hord' Hok Hs Hr Hb He. unfold ElectionLoop_pass, read_time. destruct (sys_time s 0%nat) as [now timeout].
  set (s1 := mkSys _ _ _). destruct (election_due now (sys_nodes s1 v)) eqn:Ed; [|by exists cl].
  set (cl1 := update v (cl_node cl v) et_due [] cl).
  assert (follows v s cl s1 cl1) as Hf1.
  { apply follows_own; [done|eapply ns_due; [done|done|by rewrite Hs]|]. rewrite Hs. by apply same_node. }
  destruct (StartElection_follows v order order' s1 cl1) as (cl2 & Hf2 & Hok2 & He2); try done.
  - apply Hf1.
  - by eapply follows_reached.
  - cbn [cl_elect update cl1]. by rewrite fn_lookup_insert.
  - eapply refined_idle; [by eapply follows_trans|done|done|done].
Qed.

(** *** Replication and proposals *)

Lemma ReplicationLoop_pass_refines v p s cl :
  v ∈ members → p ∈ cfg_peers (cfg v) → wire_ok (sys_wire s) → shows s cl → reached cl →
  refined (ReplicationLoop_pass v p s) cl.
Proof.
  intros Hv Hp Hok Hs Hr. unfold ReplicationLoop_pass. destruct (bool_decide _); [|by exists cl].
  unfold ReplicateTo. destruct (ReplicateTo_request p _ (sys_nodes s v)) as [req|] eqn:Ereq; [|by exists cl].
  destruct (peers_facts members cfg (cc_nodup _ _ cfg_ok) (cc_peers _ _ cfg_ok) v Hv) as (_ & _ & Hsub & _).
  destruct (follows_handler v v s cl s (cl_node cl v) (AEReq p req)) as (Hf1 & He1 & Hin1); [done| | |].
  { eapply ns_replicate; [done|done|by rewrite Hs]. }
  { rewrite Hs. by apply same_node. }
  revert Hf1 He1 Hin1. generalize (update v (cl_node cl v) (cl_elect cl v) [AEReq p req] cl). intros cl1 Hf1 He1 Hin1.
  destruct (SendAppendEntries v p req s) as [r s2] eqn:E.
  destruct (SendAppendEntries_sound _ _ _ _ _ _ Hok E) as (Hcall & _ & Hok2).
  destruct (call_steps_append v p req s r s2 cl1 (Hsub p Hp)) as (cl2 & Hf2 & He2 & Hr2); [apply Hf1|done|done|].
  pose proof (follows_trans _ _ _ _ _ _ _ Hf1 Hf2) as Hf12. rewrite He1 in He2.
  destruct r as [resp|].
  2:{ destruct Hf12. exists cl2. split_and!; try done. intros w. destruct (decide (w = v)) as [->|]; auto. }
  assert (ae_leader_id req = v ∧ ae_term req = rn_current_term (sys_nodes s v)) as [Hid Ht].
  { unfold ReplicateTo_request in Ereq. destruct (_ || _); [done|]. injection Ereq as <-. cbn [ae_leader_id ae_term].
    split; [|done]. destruct (reached_node cl v Hr Hv) as (a & _ & HN). rewrite <-Hs, (no_config _ _ _ _ _ HN). by apply cfg_ok. }
  pose proof (fo_shows _ _ _ _ _ Hf12) as Hs2.
  assert (follows v s2 cl2 (set_node v (ReplicateTo_reply p (ae_term req) req resp (sys_nodes s2 v)) s2)
    (update v (ReplicateTo_reply p (ae_term req) req resp (cl_node cl2 v)) (cl_elect cl2 v) [] cl2)) as Hf3.
  { rewrite Hs2. apply follows_own; [done| |done]. rewrite <-Hs2. apply ns_replicate_reply; [done|by apply Hr2|done]. }
  rewrite <-Ht. pose proof (follows_trans _ _ _ _ _ _ _ Hf12 Hf3) as []. eexists. split_and!; try done.
  intros w. destruct (decide (w = v)) as [->|]; [|auto]. cbn [cl_elect update]. by rewrite fn_lookup_insert.
Qed.

Lemma propose_at_refines v command s cl :
  v ∈ members → wire_ok (sys_wire s) → shows s cl → Zlen (rn_log (sys_nodes s v)) + 2 < 2 ^ 64 →
  refined (propose_at v command s).2 cl.
Proof.
  intros Hv Hok Hs Hb. unfold propose_at. destruct (Propose command (sys_nodes s v)) as [r n] eqn:E. cbn [snd].
  exists (update v (Propose command (cl_node cl v)).2 (cl_elect cl v) [] cl). split_and!; [| | |done].
  - apply rtc_once, ns_propose; [done|by rewrite Hs].
  - intros w. cbn [cl_node update set_node sys_nodes]. rewrite Hs, E. destruct (decide (w = v)) as [->|]; [by rewrite !fn_lookup_insert|].
    by rewrite !fn_lookup_insert_ne.
  - intros w. cbn [cl_elect update]. destruct (decide (w = v)) as [->|]; [by rewrite fn_lookup_insert|by rewrite fn_lookup_insert_ne].
Qed.

Lemma restart_refines v now timeout s cl :
  v ∈ members → shows s cl → cl_elect cl v = et_idle → wire_ok (sys_wire s) →
  refined (set_node v (RaftNode_new (cfg v) (rn_disk (sys_nodes s v)) now timeout) s) cl.
Proof.
  intros Hv Hs He Hok. eapply refined_idle; [|done| |done].
  - apply follows_own; [done|apply ns_restart; exact Hv|]. by rewrite Hs.
  - cbn [cl_elect update]. by rewrite fn_lookup_insert.
Qed.

(** *** Runs *)

(** Something that happens to the system: a pass of a thread, a client's proposal,
    a restart of a node from its storage, or a change of the wiring
    ([Register], [SetDown], [SetPeer], servers going up or down). *)
Inductive turn :=
  | Elects (v : bytes) (order order' : list bytes)
  | Replicates (v peer : bytes)
  | Proposes (v command : bytes)
  | Restarts (v : bytes) (now timeout : Z)
  | Rewires (wire : T).

Definition run_turn (s : Sys T) (t : turn) : Sys T :=
  match t with
  | Elects v order order' => ElectionLoop_pass order order' v s
  | Replicates v peer => ReplicationLoop_pass v peer s
  | Proposes v command => (propose_at v command s).2
  | Restarts v now timeout => set_node v (RaftNode_new (cfg v) (rn_disk (sys_nodes s v)) now timeout) s
  | Rewires wire => set_wire wire s
  end.

(** It is of the cluster, and within the range of the counters. *)
Definition turn_ok (s : Sys T) (t : turn) : Prop :=
  match t with
  | Elects v order order' =>
      v ∈ members ∧ order ≡ₚ cfg_peers (cfg v) ∧ order' ≡ₚ cfg_peers (cfg v) ∧
      rn_current_term (sys_nodes s v) + 1 < 2 ^ 64
  | Replicates v peer => v ∈ members ∧ peer ∈ cfg_peers (cfg v)
  | Proposes v _ => v ∈ members ∧ Zlen (rn_log (sys_nodes s v)) + 2 < 2 ^ 64
  | Restarts v _ _ => v ∈ members
  | Rewires wire => wire_ok wire
  end.

(** The system shows a cluster that is reached, with no election under way. *)
Definition tracked s : Prop :=
  ∃ cl, reached cl ∧ shows s cl ∧ (∀ w, cl_elect cl w = et_idle) ∧ wire_ok (sys_wire s).

Lemma refined_tracked s cl :
  reached cl → (∀ w, cl_elect cl w = et_idle) → refined s cl → tracked s.
Proof.
  intros Hr He (cl' & Hst & Hs & He' & Hok). exists cl'. split_and!; [|done| |done].
  - unfold reachable. by etrans.
  - intros w. by rewrite He'.
Qed.

Lemma run_turn_tracked s t : tracked s → turn_ok s t → tracked (run_turn s t).
Proof.
  intros (cl & Hr & Hs & He & Hok) Ht. destruct t as [v order order'|v p|v command|v now timeout|wire]; cbn [run_turn turn_ok] in *.
  - destruct Ht as (? & ? & ? & ?). eapply refined_tracked; [done|done|]. by apply ElectionLoop_pass_refines.
  - destruct Ht as (? & ?). eapply refined_tracked; [done|done|]. by apply ReplicationLoop_pass_refines.
  - destruct Ht as (? & ?). eapply refined_tracked; [done|done|]. by apply propose_at_refines.
  - eapply refined_tracked; [done|done|]. by apply restart_refines.
  - by exists cl.
Qed.

Definition sys_init (time : nat → Z * Z) (wire : T) : Sys T :=
  mkSys (λ v, initial_node cfg v (now0 v) (timeout0 v)) time wire.

Lemma sys_init_tracked time wire : wire_ok wire → tracked (sys_init time wire).
Proof. intros Hw. exists (cluster_init cfg now0 timeout0). split_and!; [unfold reachable; reflexivity|done|done|done]. Qed.
End refines.

Arguments Elects {T}.
Arguments Replicates {T}.
Arguments Proposes {T}.
Arguments Restarts {T}.
Arguments Rewires {T}.

(** ** Three nodes in memory, [c] being down *)

Definition demo_wire : InMemoryCluster :=
  SetDown run_c true (foldr (λ v, Register v v) InMemoryCluster_new run_members).
Definition demo_sys : Sys InMemoryCluster := sys_init run_cfg (λ _, 0) (λ _, 10) (λ i, (Z.of_nat i + 100, 10)) demo_wire.

Lemma demo_wire_ok : wire_ok demo_wire.
Proof. intros id node. cbn. rewrite !lookup_insert_Some, lookup_empty. naive_solver. Qed.
