(* ===== verification/RaftSchedule.v ===== *)
(** * The threads of a Raft group, interleaved over a transport

    The threads of raft_node.cc cut where they release [mu_] or call the transport:
    the election thread of each node with the threads of its vote rounds, and one
    replication thread for each peer.  Any schedule of these pieces over a transport
    of RaftTransport.v, mixed with proposals, restarts, changes of the wiring and
    requests whose handler runs after the caller has given up, is a run of the
    cluster of RaftNet.v; the passes of RaftTransport.v are the schedules in which a
    thread is not interrupted. *)

From stdpp Require Import base gmap functions numbers list.
From Stdlib Require Import ZArith Lia.
From S2P Require Import Prelude Status RaftStorage RaftNode RaftNet RaftRefine RaftProps Rpc RaftTransport.

Local Open Scope Z_scope.

(** ** State *)

(** Where a replication thread is between two critical sections or calls. *)
Inductive replication_thread :=
  | rt_idle                                      (** in [ReplicationLoop] *)
  | rt_due (term : Z)                            (** about to run [ReplicateTo] *)
  | rt_send (req : AppendEntriesRequest)         (** before the call *)
  | rt_reply (req : AppendEntriesRequest) (resp : option AppendEntriesResponse).  (** after the call *)

(** The nodes and the transport, the threads, and the requests sent so far.  The
    replies a vote round has received and not yet counted are in [po_votes]. *)
Record Pool (T : Type) := mkPool {
  po_sys : Sys T;
  po_elect : bytes → election_thread;
  po_votes : bytes → gmap bytes (option RequestVoteResponse);
  po_repl : bytes → bytes → replication_thread;
  po_sent : list message;
}.
Arguments mkPool {T}.
Arguments po_sys {T}.
Arguments po_elect {T}.
Arguments po_votes {T}.
Arguments po_repl {T}.
Arguments po_sent {T}.

(** What can happen next. *)
Inductive event (T : Type) :=
  | Wakes (v : bytes)            (** [ElectionLoop] looks at the clock *)
  | PreVotes (v : bytes)         (** [StartElection], the trial round begins *)
  | Asks (v p : bytes)           (** a thread of [WinVoteRound] calls its peer *)
  | Counts (v p : bytes)         (** ... and takes the lock with what came back *)
  | Joins (v : bytes)            (** the threads of the round have ended *)
  | Begins (v : bytes)           (** [StartElection], the real round begins *)
  | Wins (v : bytes)             (** ... and was won *)
  | Ticks (v p : bytes)          (** [ReplicationLoop] for [p] looks at the role *)
  | Prepares (v p : bytes)       (** [ReplicateTo] makes the request *)
  | Sends (v p : bytes)          (** ... calls the peer *)
  | Takes (v p : bytes)          (** ... and takes the lock with what came back *)
  | Late (i : nat)               (** a request sent before is handled (again) *)
  | Proposes (v command : bytes)
  | Restarts (v : bytes) (now timeout : Z)
  | Rewires (wire : T).
Arguments Wakes {T}.
Arguments PreVotes {T}.
Arguments Asks {T}.
Arguments Counts {T}.
Arguments Joins {T}.
Arguments Begins {T}.
Arguments Wins {T}.
Arguments Ticks {T}.
Arguments Prepares {T}.
Arguments Sends {T}.
Arguments Takes {T}.
Arguments Late {T}.
Arguments Proposes {T}.
Arguments Restarts {T}.
Arguments Rewires {T}.

(** ** Events *)

Section events.
Context {T : Type} `{RaftTransport T}.
Variable cfg : bytes → RaftConfig.
Implicit Types (po : Pool T) (s : Sys T).

Definition set_sys s po : Pool T := mkPool s (po_elect po) (po_votes po) (po_repl po) (po_sent po).
Definition set_elect (v : bytes) (et : election_thread) po : Pool T :=
  mkPool (po_sys po) (<[v := et]> (po_elect po)) (po_votes po) (po_repl po) (po_sent po).
Definition set_votes (v : bytes) (m : gmap bytes (option RequestVoteResponse)) po : Pool T :=
  mkPool (po_sys po) (po_elect po) (<[v := m]> (po_votes po)) (po_repl po) (po_sent po).
Definition set_repl (v p : bytes) (rt : replication_thread) po : Pool T :=
  mkPool (po_sys po) (po_elect po) (po_votes po) (<[v := <[p := rt]> (po_repl po v)]> (po_repl po)) (po_sent po).
Definition add_sent (msgs : list message) po : Pool T :=
  mkPool (po_sys po) (po_elect po) (po_votes po) (po_repl po) (msgs ++ po_sent po).

Definition node_of po (v : bytes) : RaftNode := sys_nodes (po_sys po) v.
Definition put_node (v : bytes) (n : RaftNode) po : Pool T := set_sys (set_node v n (po_sys po)) po.

(** A round of votes begins: a thread for each peer. *)
Definition start_round (v : bytes) (pre : bool) (req : RequestVoteRequest) po : Pool T :=
  add_sent (vote_requests cfg v req)
    (set_votes v ∅ (set_elect v (et_round pre (rv_term req) req (cfg_peers (cfg v)) 1) po)).

(** The pieces of the election thread. *)
Definition wakes (v : bytes) po : Pool T :=
  match po_elect po v with
  | et_idle =>
      let '((now, _), s) := read_time (po_sys po) in
      let po := set_sys s po in
      if election_due now (node_of po v) then set_elect v et_due po else po
  | _ => po
  end.

Definition pre_votes (v : bytes) po : Pool T :=
  match po_elect po v with
  | et_due =>
      match StartElection_pre (node_of po v) with
      | None => set_elect v et_idle po
      | Some req => start_round v true req po
      end
  | _ => po
  end.

Definition asks (v p : bytes) po : Pool T :=
  match po_elect po v with
  | et_round pre term req pending votes =>
      if bool_decide (p ∈ pending) && bool_decide (po_votes po v !! p = None) then
        let '(r, s) := SendRequestVote v p req (po_sys po) in
        set_votes v (<[p := r]> (po_votes po v)) (set_sys s po)
      else po
  | _ => po
  end.

Definition counts (v p : bytes) po : Pool T :=
  match po_elect po v with
  | et_round pre term req pending votes =>
      if bool_decide (p ∈ pending) then
        match po_votes po v !! p with
        | None => po
        | Some None => set_elect v (et_round pre term req (filter (.≠ p) pending) votes) po
        | Some (Some resp) =>
            let '(n, votes) := WinVoteRound_reply pre term resp votes (node_of po v) in
            set_elect v (et_round pre term req (filter (.≠ p) pending) votes) (put_node v n po)
        end
      else po
  | _ => po
  end.

Definition joins (v : bytes) po : Pool T :=
  match po_elect po v with
  | et_round pre term req [] votes =>
      set_elect v (if WinVoteRound_result votes (node_of po v)
                   then if pre then et_pre_won term else et_won term else et_idle) po
  | _ => po
  end.

Definition begins (v : bytes) po : Pool T :=
  match po_elect po v with
  | et_pre_won would_be_term =>
      let '((now, timeout), s) := read_time (po_sys po) in
      let po := set_sys s po in
      match StartElection_begin now timeout would_be_term (node_of po v) with
      | None => set_elect v et_idle po
      | Some (n, req) => start_round v false req (put_node v n po)
      end
  | _ => po
  end.

Definition wins (v : bytes) po : Pool T :=
  match po_elect po v with
  | et_won term => set_elect v et_idle (put_node v (StartElection_win term (node_of po v)) po)
  | _ => po
  end.

(** The pieces of a replication thread. *)
Definition ticks (v p : bytes) po : Pool T :=
  match po_repl po v p with
  | rt_idle =>
      if bool_decide (rn_role (node_of po v) = kLeader)
      then set_repl v p (rt_due (rn_current_term (node_of po v))) po else po
  | _ => po
  end.

Definition prepares (v p : bytes) po : Pool T :=
  match po_repl po v p with
  | rt_due term =>
      match ReplicateTo_request p term (node_of po v) with
      | None => set_repl v p rt_idle po
      | Some req => add_sent [AEReq p req] (set_repl v p (rt_send req) po)
      end
  | _ => po
  end.

Definition sends (v p : bytes) po : Pool T :=
  match po_repl po v p with
  | rt_send req =>
      let '(r, s) := SendAppendEntries v p req (po_sys po) in set_repl v p (rt_reply req r) (set_sys s po)
  | _ => po
  end.

Definition takes_reply (v p : bytes) po : Pool T :=
  match po_repl po v p with
  | rt_reply req None => set_repl v p rt_idle po
  | rt_reply req (Some resp) =>
      set_repl v p rt_idle (put_node v (ReplicateTo_reply p (ae_term req) req resp (node_of po v)) po)
  | _ => po
  end.

(** The handler of a request sent before runs once more, or for the first time; its
    caller has given up. *)
Definition late (i : nat) po : Pool T :=
  match po_sent po !! i with
  | Some (RVReq p req) => set_sys (handle_at HandleRequestVote p req (po_sys po)).2 po
  | Some (AEReq p req) => set_sys (handle_at HandleAppendEntries p req (po_sys po)).2 po
  | _ => po
  end.

(** The process of [v] stops, with all its threads, and is started again. *)
Definition restarts (v : bytes) (now timeout : Z) po : Pool T :=
  let po := put_node v (RaftNode_new (cfg v) (rn_disk (node_of po v)) now timeout) po in
  mkPool (po_sys po) (<[v := et_idle]> (po_elect po)) (<[v := ∅]> (po_votes po))
    (<[v := λ _, rt_idle]> (po_repl po)) (po_sent po).

Definition run_event po (e : event T) : Pool T :=
  match e with
  | Wakes v => wakes v po
  | PreVotes v => pre_votes v po
  | Asks v p => asks v p po
  | Counts v p => counts v p po
  | Joins v => joins v po
  | Begins v => begins v po
  | Wins v => wins v po
  | Ticks v p => ticks v p po
  | Prepares v p => prepares v p po
  | Sends v p => sends v p po
  | Takes v p => takes_reply v p po
  | Late i => late i po
  | Proposes v command => put_node v (Propose command (node_of po v)).2 po
  | Restarts v now timeout => restarts v now timeout po
  | Rewires wire => set_sys (set_wire wire (po_sys po)) po
  end.

Definition pool_of s : Pool T := mkPool s (λ _, et_idle) (λ _, ∅) (λ _ _, rt_idle) [].
End events.

(** ** Every schedule is a run of the cluster *)

Section simulation.
Context {T : Type} `{RaftTransportLaws T}.
Variable members : list bytes.
Variable cfg : bytes → RaftConfig.
Hypothesis cfg_ok : cluster_cfg members cfg.
Implicit Types (po : Pool T) (s : Sys T) (cl : cluster) (net : list message).

Notation steps := (rtc (net_step members cfg)).

(** What the threads hold comes from the network: the requests of a round have been
    sent, and the replies that wait for the lock are replies to them. *)
Definition elect_ok (v : bytes) (et : election_thread) (replies : gmap bytes (option RequestVoteResponse)) net : Prop :=
  match et with
  | et_round pre term req pending votes =>
      (∀ p, p ∈ pending → p ∈ members ∧ RVReq p req ∈ net) ∧
      (∀ p resp, replies !! p = Some (Some resp) → RVResp p req resp ∈ net)
  | _ => True
  end.

Definition repl_ok (v p : bytes) (rt : replication_thread) net : Prop :=
  match rt with
  | rt_idle => True
  | rt_due _ => v ∈ members ∧ p ∈ cfg_peers (cfg v)
  | rt_send req => v ∈ members ∧ p ∈ members ∧ ae_leader_id req = v ∧ AEReq p req ∈ net
  | rt_reply req r => v ∈ members ∧ ae_leader_id req = v ∧ ∀ resp, r = Some resp → AEResp p req resp ∈ net
  end.

Definition sent_ok (m : message) net : Prop :=
  m ∈ net ∧ match m with RVReq p _ | AEReq p _ => p ∈ members | _ => True end.

Record threads_ok po net : Prop := {
  to_elect v : elect_ok v (po_elect po v) (po_votes po v) net;
  to_repl v p : repl_ok v p (po_repl po v p) net;
  to_sent m : m ∈ po_sent po → sent_ok m net;
}.

Record Sim po cl : Prop := {
  sim_shows : shows (po_sys po) cl;
  sim_elect v : cl_elect cl v = po_elect po v;
  sim_wire : wire_ok (sys_wire (po_sys po));
  sim_threads : threads_ok po (cl_net cl);
}.

Lemma elect_ok_mono v et replies net net' : net ⊆ net' → elect_ok v et replies net → elect_ok v et replies net'.
Proof. intros Hn. destruct et; try done. intros [H1 H2]. split; [intros p Hp; by destruct (H1 p Hp); auto|auto]. Qed.

Lemma repl_ok_mono v p rt net net' : net ⊆ net' → repl_ok v p rt net → repl_ok v p rt net'.
Proof. intros Hn. destruct rt; cbn; naive_solver. Qed.

Lemma threads_ok_mono po net net' : net ⊆ net' → threads_ok po net → threads_ok po net'.
Proof.
  intros Hn []. split.
  - intros v. by eapply elect_ok_mono.
  - intros v p. by eapply repl_ok_mono.
  - intros m Hm. destruct (to_sent0 m Hm) as [? ?]. split; auto.
Qed.

Lemma threads_ok_sys po s net : threads_ok po net → threads_ok (set_sys s po) net.
Proof. intros []. by split. Qed.

Lemma threads_ok_elect po v et net :
  threads_ok po net → elect_ok v et (po_votes po v) net → threads_ok (set_elect v et po) net.
Proof.
  intros [] He. split; [|done|done]. intros w. cbn [po_elect po_votes set_elect].
  destruct (decide (w = v)) as [->|]; [by rewrite fn_lookup_insert|by rewrite fn_lookup_insert_ne].
Qed.

Lemma threads_ok_votes po v m net :
  threads_ok po net → elect_ok v (po_elect po v) m net → threads_ok (set_votes v m po) net.
Proof.
  intros [] He. split; [|done|done]. intros w. cbn [po_elect po_votes set_votes].
  destruct (decide (w = v)) as [->|]; [by rewrite fn_lookup_insert|by rewrite fn_lookup_insert_ne].
Qed.

Lemma threads_ok_repl po v p rt net : threads_ok po net → repl_ok v p rt net → threads_ok (set_repl v p rt po) net.
Proof.
  intros [] Hr. split; [done| |done]. intros w q. cbn [po_repl set_repl].
  destruct (decide (w = v)) as [->|]; [rewrite fn_lookup_insert|by rewrite fn_lookup_insert_ne].
  destruct (decide (q = p)) as [->|]; [by rewrite fn_lookup_insert|by rewrite fn_lookup_insert_ne].
Qed.

Lemma threads_ok_sent po msgs net :
  threads_ok po net → (∀ m, m ∈ msgs → sent_ok m net) → threads_ok (add_sent msgs po) net.
Proof. intros [] Hm. split; [done|done|]. cbn [po_sent add_sent]. intros m [?|?]%elem_of_app; auto. Qed.

(** The requests of a round. *)
Lemma start_round_ok po v pre req net :
  v ∈ members → vote_requests cfg v req ⊆ net → threads_ok po net → threads_ok (start_round cfg v pre req po) net.
Proof.
  intros Hv Hn Ht. destruct (peers_facts members cfg (cc_nodup _ _ cfg_ok) (cc_peers _ _ cfg_ok) v Hv) as (_ & _ & Hsub & _).
  assert (∀ p, p ∈ cfg_peers (cfg v) → RVReq p req ∈ vote_requests cfg v req) as Hin.
  { intros p Hp. apply list_elem_of_fmap. by exists p. }
  unfold start_round. apply threads_ok_sent.
  - destruct Ht. split; [|done|done]. intros w. cbn [po_elect po_votes set_votes set_elect].
    destruct (decide (w = v)) as [->|]; [rewrite !fn_lookup_insert|by rewrite !fn_lookup_insert_ne].
    split; [auto|]. intros p resp. by rewrite lookup_empty.
  - intros m Hm. split; [by apply Hn|]. apply list_elem_of_fmap in Hm as (p & -> & Hp). by apply Hsub.
Qed.

(** *** Steps *)

(** A step of the node [v]. *)
Lemma sim_own po cl v n et msgs po' :
  Sim po cl → net_step members cfg cl (update v n et msgs cl) →
  (∀ w, sys_nodes (po_sys po') w = (<[v := n]> (sys_nodes (po_sys po))) w) →
  (∀ w, po_elect po' w = (<[v := et]> (po_elect po)) w) → wire_ok (sys_wire (po_sys po')) →
  (threads_ok po (msgs ++ cl_net cl) → threads_ok po' (msgs ++ cl_net cl)) →
  ∃ cl', steps cl cl' ∧ Sim po' cl'.
Proof.
  intros [Hs He Hw Ht] Hstep Hn Hel Hok Hth. exists (update v n et msgs cl). split; [by apply rtc_once|].
  split; [| |done|].
  - intros w. cbn [cl_node update]. rewrite Hn. destruct (decide (w = v)) as [->|]; [by rewrite !fn_lookup_insert|].
    by rewrite !fn_lookup_insert_ne.
  - intros w. cbn [cl_elect update]. rewrite Hel. destruct (decide (w = v)) as [->|]; [by rewrite !fn_lookup_insert|].
    by rewrite !fn_lookup_insert_ne.
  - apply Hth. eapply threads_ok_mono, Ht. intros m Hm. apply elem_of_app. by right.
Qed.

(** Only the threads change. *)
Lemma sim_threads_only po cl po' :
  Sim po cl → sys_nodes (po_sys po') = sys_nodes (po_sys po) → po_elect po' = po_elect po →
  wire_ok (sys_wire (po_sys po')) → (threads_ok po (cl_net cl) → threads_ok po' (cl_net cl)) →
  ∃ cl', steps cl cl' ∧ Sim po' cl'.
Proof.
  intros [Hs He Hw Ht] En Eel Hok Hth. exists cl. split; [done|]. split; [|by rewrite Eel|done|auto].
  intros w. by rewrite Hs, En.
Qed.

(** A handler runs, and the reply, if it arrives, is in the network. *)
Lemma sim_call po cl v s' cl' po' :
  Sim po cl → follows members cfg v (po_sys po) cl s' cl' → cl_elect cl' v = cl_elect cl v →
  sys_nodes (po_sys po') = sys_nodes s' → po_elect po' = po_elect po → wire_ok (sys_wire (po_sys po')) →
  (threads_ok po (cl_net cl') → threads_ok po' (cl_net cl')) →
  ∃ cl', steps cl cl' ∧ Sim po' cl'.
Proof.
  intros [Hs He Hw Ht] [Hst Hsh Hel Hnet] Hv En Eel Hok Hth. exists cl'. split; [done|]. split; [| |done|].
  - intros w. by rewrite Hsh, En.
  - intros w. rewrite Eel, <-He. destruct (decide (w = v)) as [->|]; auto.
  - apply Hth. eapply threads_ok_mono, Ht. exact Hnet.
Qed.

Variable now0 timeout0 : bytes → Z.
Notation reached := (reachable members cfg now0 timeout0).

(** It is of the cluster, and within the range of the counters. *)
Definition event_ok po (e : event T) : Prop :=
  match e with
  | Wakes v | PreVotes v | Asks v _ | Counts v _ | Joins v | Wins v | Restarts v _ _ => v ∈ members
  | Begins v => v ∈ members ∧ rn_current_term (node_of po v) + 1 < 2 ^ 64
  | Ticks v p => v ∈ members ∧ p ∈ cfg_peers (cfg v)
  | Proposes v _ => v ∈ members ∧ Zlen (rn_log (node_of po v)) + 2 < 2 ^ 64
  | Rewires wire => wire_ok wire
  | Prepares _ _ | Sends _ _ | Takes _ _ | Late _ => True
  end.

Lemma node_shown po cl v : Sim po cl → cl_node cl v = node_of po v.
Proof. intros HS. apply (sim_shows _ _ HS). Qed.

Lemma same_nodes po cl v :
  Sim po cl → ∀ w, sys_nodes (po_sys po) w = (<[v := cl_node cl v]> (sys_nodes (po_sys po))) w.
Proof. intros HS. rewrite (node_shown po cl v HS). by apply same_node. Qed.

Lemma sim_refl po cl : Sim po cl → ∃ cl', steps cl cl' ∧ Sim po cl'.
Proof. exists cl. by split. Qed.

(** *** Elections *)

Lemma wakes_sim v po cl : v ∈ members → Sim po cl → ∃ cl', steps cl cl' ∧ Sim (wakes v po) cl'.
Proof.
  intros Hv HS. unfold wakes. destruct (po_elect po v) eqn:Ee; try by apply sim_refl.
  unfold read_time. destruct (sys_time (po_sys po) 0%nat) as [now timeout].
  set (po1 := set_sys _ po).
  destruct (election_due now (node_of po1 v)) eqn:Ed.
  - eapply (sim_own po cl v _ et_due [] _ HS); [|exact (same_nodes po cl v HS)|done|apply HS|].
    + eapply ns_due; [done|by rewrite (sim_elect _ _ HS)|]. rewrite (node_shown po cl v HS). exact Ed.
    + intros Hth. apply threads_ok_elect; [by apply threads_ok_sys|done].
  - apply (sim_threads_only po cl); [done|done|done|apply HS|apply threads_ok_sys].
Qed.

Lemma pre_votes_sim v po cl : v ∈ members → Sim po cl → ∃ cl', steps cl cl' ∧ Sim (pre_votes cfg v po) cl'.
Proof.
  intros Hv HS. unfold pre_votes. destruct (po_elect po v) eqn:Ee; try by apply sim_refl.
  destruct (StartElection_pre (node_of po v)) as [req|] eqn:Epre; rewrite <-(node_shown po cl v HS) in Epre.
  - eapply (sim_own po cl v _ _ (vote_requests cfg v req) _ HS); [|exact (same_nodes po cl v HS)|done|apply HS|].
    + apply ns_pre_vote; [done|by rewrite (sim_elect _ _ HS)|done].
    + apply start_round_ok; [done|]. intros m Hm. apply elem_of_app. by left.
  - eapply (sim_own po cl v _ et_idle [] _ HS); [|exact (same_nodes po cl v HS)|done|apply HS|].
    + apply ns_pre_vote_skip; [done|by rewrite (sim_elect _ _ HS)|done].
    + intros Hth. by apply threads_ok_elect.
Qed.

Lemma asks_sim v p po cl : v ∈ members → Sim po cl → ∃ cl', steps cl cl' ∧ Sim (asks v p po) cl'.
Proof.
  intros Hv HS. unfold asks. destruct (po_elect po v) as [| |pre term req pending votes| |] eqn:Ee; try by apply sim_refl.
  destruct (bool_decide (p ∈ pending) && _) eqn:Eb; [|by apply sim_refl]. prop_bool.
  destruct (SendRequestVote v p req (po_sys po)) as [r s] eqn:E.
  destruct (SendRequestVote_sound _ _ _ _ _ _ (sim_wire _ _ HS) E) as (Hcall & _ & Hok).
  pose proof (to_elect _ _ (sim_threads _ _ HS) v) as Hr. rewrite Ee in Hr. destruct Hr as [Hr1 _].
  destruct (Hr1 p) as [Hp Hm]; [done|].
  destruct (call_steps_vote members cfg v p req _ _ _ cl Hp (sim_shows _ _ HS) Hm Hcall) as (cl1 & Hf & He & Hresp).
  eapply (sim_call po cl v s cl1); try done. intros Hth.
  apply threads_ok_votes; [by apply threads_ok_sys|]. pose proof (to_elect _ _ Hth v) as Hv1.
  cbn [po_elect set_sys]. rewrite Ee in Hv1 |- *. destruct Hv1 as [Hreq Hrep]. split; [done|].
  intros q resp [[-> ->]|[_ ?]]%lookup_insert_Some; auto.
Qed.

Lemma counts_sim v p po cl : v ∈ members → Sim po cl → ∃ cl', steps cl cl' ∧ Sim (counts v p po) cl'.
Proof.
  intros Hv HS. unfold counts. destruct (po_elect po v) as [| |pre term req pending votes| |] eqn:Ee; try by apply sim_refl.
  destruct (bool_decide (p ∈ pending)) eqn:Eb; [|by apply sim_refl]. prop_bool.
  pose proof (sim_elect _ _ HS v) as Hel. rewrite Ee in Hel.
  assert (∀ votes' net, threads_ok po net → elect_ok v (et_round pre term req (filter (.≠ p) pending) votes') (po_votes po v) net) as Hrest.
  { intros votes' net Hth. pose proof (to_elect _ _ Hth v) as Hv1. rewrite Ee in Hv1. destruct Hv1 as [Hreq Hrep].
    split; [|done]. intros q [_ Hq]%list_elem_of_filter. auto. }
  destruct (po_votes po v !! p) as [[resp|]|] eqn:Ep; [| |by apply sim_refl].
  - destruct (WinVoteRound_reply pre term resp votes (node_of po v)) as [n votes'] eqn:Ew.
    eapply (sim_own po cl v n _ [] _ HS); [|done|done|apply HS|].
    + eapply ns_vote_reply; [done|exact Hel|done| |by rewrite (node_shown po cl v HS)].
      pose proof (to_elect _ _ (sim_threads _ _ HS) v) as Hr. rewrite Ee in Hr. by apply Hr.
    + intros Hth. apply threads_ok_elect; [by apply threads_ok_sys|]. by apply Hrest.
  - eapply (sim_own po cl v _ _ [] _ HS); [|exact (same_nodes po cl v HS)|done|apply HS|].
    + by eapply ns_vote_failed.
    + intros Hth. apply threads_ok_elect; [done|]. by apply Hrest.
Qed.

Lemma joins_sim v po cl : v ∈ members → Sim po cl → ∃ cl', steps cl cl' ∧ Sim (joins v po) cl'.
Proof.
  intros Hv HS. unfold joins. destruct (po_elect po v) as [| |pre term req [|q pending] votes| |] eqn:Ee; try by apply sim_refl.
  eapply (sim_own po cl v _ _ [] _ HS); [|exact (same_nodes po cl v HS)|done|apply HS|].
  - rewrite <-(node_shown po cl v HS). eapply ns_round_end; [done|]. by rewrite (sim_elect _ _ HS).
  - intros Hth. apply threads_ok_elect; [done|]. by repeat case_match.
Qed.

Lemma begins_sim v po cl :
  v ∈ members → rn_current_term (node_of po v) + 1 < 2 ^ 64 → Sim po cl →
  ∃ cl', steps cl cl' ∧ Sim (begins cfg v po) cl'.
Proof.
  intros Hv Hb HS. unfold begins. destruct (po_elect po v) as [| | |would|] eqn:Ee; try by apply sim_refl.
  unfold read_time. destruct (sys_time (po_sys po) 0%nat) as [now timeout].
  set (po1 := set_sys _ po). pose proof (sim_elect _ _ HS v) as Hel. rewrite Ee in Hel.
  destruct (StartElection_begin now timeout would (node_of po1 v)) as [[n req]|] eqn:Eb.
  - eapply (sim_own po cl v n _ (vote_requests cfg v req) _ HS); [|done|done|apply HS|].
    + eapply ns_begin; [done|exact Hel|by rewrite (node_shown po cl v HS)|by rewrite (node_shown po cl v HS)].
    + intros Hth. apply start_round_ok; [done| |by do 2 apply threads_ok_sys]. intros m Hm. apply elem_of_app. by left.
  - eapply (sim_own po cl v _ et_idle [] _ HS); [|exact (same_nodes po cl v HS)|done|apply HS|].
    + eapply ns_begin_skip; [done|exact Hel|by rewrite (node_shown po cl v HS)].
    + intros Hth. apply threads_ok_elect; [by apply threads_ok_sys|done].
Qed.

Lemma wins_sim v po cl : v ∈ members → Sim po cl → ∃ cl', steps cl cl' ∧ Sim (wins v po) cl'.
Proof.
  intros Hv HS. unfold wins. destruct (po_elect po v) as [| | | |term] eqn:Ee; try by apply sim_refl.
  eapply (sim_own po cl v _ et_idle [] _ HS); [|done|done|apply HS|].
  - rewrite <-(node_shown po cl v HS). apply ns_win; [done|]. by rewrite (sim_elect _ _ HS).
  - intros Hth. apply threads_ok_elect; [by apply threads_ok_sys|done].
Qed.

(** *** Replication *)

Lemma ticks_sim v p po cl :
  v ∈ members → p ∈ cfg_peers (cfg v) → Sim po cl → ∃ cl', steps cl cl' ∧ Sim (ticks v p po) cl'.
Proof.
  intros Hv Hp HS. unfold ticks. destruct (po_repl po v p) eqn:Er; try by apply sim_refl.
  destruct (bool_decide _); [|by apply sim_refl].
  apply (sim_threads_only po cl); [done|done|done|apply HS|]. intros Hth. by apply threads_ok_repl.
Qed.

Lemma prepares_sim v p po cl : reached cl → Sim po cl → ∃ cl', steps cl cl' ∧ Sim (prepares v p po) cl'.
Proof.
  intros Hr HS. unfold prepares. destruct (po_repl po v p) as [|term| |] eqn:Er; try by apply sim_refl.
  pose proof (to_repl _ _ (sim_threads _ _ HS) v p) as Hrt. rewrite Er in Hrt. destruct Hrt as [Hv Hp].
  destruct (ReplicateTo_request p term (node_of po v)) as [req|] eqn:Ereq.
  2:{ apply (sim_threads_only po cl); [done|done|done|apply HS|]. intros Hth. by apply threads_ok_repl. }
  destruct (peers_facts members cfg (cc_nodup _ _ cfg_ok) (cc_peers _ _ cfg_ok) v Hv) as (_ & _ & Hsub & _).
  assert (ae_leader_id req = v) as Hid.
  { revert Ereq. unfold ReplicateTo_request. destruct (_ || _); [done|]. intros [= <-]. cbn [ae_leader_id].
    destruct (reached_node members cfg cfg_ok now0 timeout0 cl v Hr Hv) as (a & _ & HN).
    rewrite <-(node_shown po cl v HS), (no_config _ _ _ _ _ HN). by apply cfg_ok. }
  eapply (sim_own po cl v _ (po_elect po v) [AEReq p req] _ HS); [|exact (same_nodes po cl v HS)| |apply HS|].
  - rewrite <-(sim_elect _ _ HS). eapply ns_replicate; [done|done|by rewrite (node_shown po cl v HS)].
  - intros w. cbn [po_elect add_sent set_repl]. destruct (decide (w = v)) as [->|]; [by rewrite fn_lookup_insert|by rewrite fn_lookup_insert_ne].
  - intros Hth. apply threads_ok_sent; [apply threads_ok_repl; [done|]|].
    + split_and!; [done|by apply Hsub|done|by left].
    + intros m ->%list_elem_of_singleton. split; [by left|by apply Hsub].
Qed.

Lemma sends_sim v p po cl : Sim po cl → ∃ cl', steps cl cl' ∧ Sim (sends v p po) cl'.
Proof.
  intros HS. unfold sends. destruct (po_repl po v p) as [| |req|] eqn:Er; try by apply sim_refl.
  pose proof (to_repl _ _ (sim_threads _ _ HS) v p) as Hrt. rewrite Er in Hrt. destruct Hrt as (Hv & Hp & Hid & Hm).
  destruct (SendAppendEntries v p req (po_sys po)) as [r s] eqn:E.
  destruct (SendAppendEntries_sound _ _ _ _ _ _ (sim_wire _ _ HS) E) as (Hcall & _ & Hok).
  destruct (call_steps_append members cfg v p req _ _ _ cl Hp (sim_shows _ _ HS) Hm Hcall) as (cl1 & Hf & He & Hresp).
  eapply (sim_call po cl v s cl1); try done. intros Hth. apply threads_ok_repl; [by apply threads_ok_sys|]. done.
Qed.

Lemma takes_sim v p po cl : Sim po cl → ∃ cl', steps cl cl' ∧ Sim (takes_reply v p po) cl'.
Proof.
  intros HS. unfold takes_reply. destruct (po_repl po v p) as [| | |req [resp|]] eqn:Er; try by apply sim_refl.
  - pose proof (to_repl _ _ (sim_threads _ _ HS) v p) as Hrt. rewrite Er in Hrt. destruct Hrt as (Hv & Hid & Hm).
    eapply (sim_own po cl v _ (po_elect po v) [] _ HS); [|done| |apply HS|].
    + rewrite <-(sim_elect _ _ HS), <-(node_shown po cl v HS). apply ns_replicate_reply; [done|by apply Hm|done].
    + intros w. cbn [po_elect put_node set_repl set_sys]. destruct (decide (w = v)) as [->|]; [by rewrite fn_lookup_insert|by rewrite fn_lookup_insert_ne].
    + intros Hth. apply threads_ok_repl; [by apply threads_ok_sys|done].
  - apply (sim_threads_only po cl); [done|done|done|apply HS|]. intros Hth. by apply threads_ok_repl.
Qed.

(** *** Everything else *)

Lemma late_sim i po cl : Sim po cl → ∃ cl', steps cl cl' ∧ Sim (late i po) cl'.
Proof.
  intros HS. unfold late. destruct (po_sent po !! i) as [m|] eqn:Ei; [|by apply sim_refl].
  destruct (to_sent _ _ (sim_threads _ _ HS) m) as [Hm Hdst]; [by eapply list_elem_of_lookup_2|].
  destruct m as [p req| |p req|]; try by apply sim_refl.
  - destruct (handle_at _ p req (po_sys po)) as [resp s] eqn:E. apply handle_at_answered in E as (Ha & _ & Hw).
    apply call_answered_sound in Ha.
    destruct (call_steps_vote members cfg p p req _ _ _ cl Hdst (sim_shows _ _ HS) Hm Ha) as (cl1 & Hf & He & _).
    eapply (sim_call po cl p s cl1); try done; [cbn; rewrite Hw; apply HS|]. apply threads_ok_sys.
  - destruct (handle_at _ p req (po_sys po)) as [resp s] eqn:E. apply handle_at_answered in E as (Ha & _ & Hw).
    apply call_answered_sound in Ha.
    destruct (call_steps_append members cfg p p req _ _ _ cl Hdst (sim_shows _ _ HS) Hm Ha) as (cl1 & Hf & He & _).
    eapply (sim_call po cl p s cl1); try done; [cbn; rewrite Hw; apply HS|]. apply threads_ok_sys.
Qed.

Lemma proposes_sim v command po cl :
  v ∈ members → Zlen (rn_log (node_of po v)) + 2 < 2 ^ 64 → Sim po cl →
  ∃ cl', steps cl cl' ∧ Sim (put_node v (Propose command (node_of po v)).2 po) cl'.
Proof.
  intros Hv Hb HS. eapply (sim_own po cl v _ (po_elect po v) [] _ HS); [|done| |apply HS|].
  - rewrite <-(sim_elect _ _ HS), <-(node_shown po cl v HS). apply ns_propose; [done|]. by rewrite (node_shown po cl v HS).
  - intros w. cbn [po_elect put_node set_sys]. destruct (decide (w = v)) as [->|]; [by rewrite fn_lookup_insert|by rewrite fn_lookup_insert_ne].
  - apply threads_ok_sys.
Qed.

Lemma restarts_sim v now timeout po cl : v ∈ members → Sim po cl → ∃ cl', steps cl cl' ∧ Sim (restarts cfg v now timeout po) cl'.
Proof.
  intros Hv HS. eapply (sim_own po cl v _ et_idle [] _ HS); [|done|done|apply HS|].
  - rewrite <-(node_shown po cl v HS). by apply ns_restart.
  - intros []. split; [| |done].
    + intros w. cbn [po_elect po_votes restarts put_node set_sys].
      destruct (decide (w = v)) as [->|]; [by rewrite !fn_lookup_insert|by rewrite !fn_lookup_insert_ne].
    + intros w q. cbn [po_repl restarts put_node set_sys].
      destruct (decide (w = v)) as [->|]; [by rewrite !fn_lookup_insert|by rewrite !fn_lookup_insert_ne].
Qed.

Lemma run_event_sim po e cl :
  reached cl → Sim po cl → event_ok po e → ∃ cl', steps cl cl' ∧ Sim (run_event cfg po e) cl'.
Proof.
  intros Hr HS He. destruct e; cbn [run_event event_ok] in *.
  - by apply wakes_sim.
  - by apply pre_votes_sim.
  - by apply asks_sim.
  - by apply counts_sim.
  - by apply joins_sim.
  - destruct He. by apply begins_sim.
  - by apply wins_sim.
  - destruct He. by apply ticks_sim.
  - by apply prepares_sim.
  - by apply sends_sim.
  - by apply takes_sim.
  - by apply late_sim.
  - destruct He. by apply proposes_sim.
  - by apply restarts_sim.
  - exists cl. split; [done|]. destruct HS as [? ? ? []]. by split; [| | |split].
Qed.

Fixpoint events_ok po (es : list (event T)) : Prop :=
  match es with
  | [] => True
  | e :: es => event_ok po e ∧ events_ok (run_event cfg po e) es
  end.

(** A check of [events_ok], for schedules that leave the wiring alone. *)
Definition event_okb po (e : event T) : bool :=
  match e with
  | Wakes v | PreVotes v | Asks v _ | Counts v _ | Joins v | Wins v | Restarts v _ _ => bool_decide (v ∈ members)
  | Begins v => bool_decide (v ∈ members) && (rn_current_term (node_of po v) + 1 <? 2 ^ 64)
  | Ticks v p => bool_decide (v ∈ members) && bool_decide (p ∈ cfg_peers (cfg v))
  | Proposes v _ => bool_decide (v ∈ members) && (Zlen (rn_log (node_of po v)) + 2 <? 2 ^ 64)
  | Rewires wire => false
  | Prepares _ _ | Sends _ _ | Takes _ _ | Late _ => true
  end.

Fixpoint events_okb po (es : list (event T)) : bool :=
  match es with
  | [] => true
  | e :: es => event_okb po e && events_okb (run_event cfg po e) es
  end.

Lemma events_okb_ok es po : events_okb po es = true → events_ok po es.
Proof.
  revert po. induction es as [|e es IH]; intros po; [done|]. cbn [events_okb events_ok].
  intros [He Hes]%andb_true_iff. split; [|by apply IH]. destruct e; cbn [event_okb event_ok] in *; try done;
    prop_bool; try done; by (split; [|apply Z.ltb_lt]).
Qed.

Lemma run_events_sim es po cl :
  reached cl → Sim po cl → events_ok po es → ∃ cl', reached cl' ∧ Sim (foldl (run_event cfg) po es) cl'.
Proof.
  revert po cl. induction es as [|e es IH]; intros po cl Hr HS; [by exists cl|]. cbn [events_ok foldl]. intros [He Hes].
  destruct (run_event_sim po e cl Hr HS He) as (cl1 & Hst & HS1). apply (IH _ cl1); [|done|done].
  unfold reachable. by etrans.
Qed.

Lemma pool_init_sim time wire :
  wire_ok wire → Sim (pool_of (sys_init cfg now0 timeout0 time wire)) (cluster_init cfg now0 timeout0).
Proof. intros Hw. split; [done|done|done|]. split; [done|done|]. by intros m ?%not_elem_of_nil. Qed.
End simulation.

(** ** The passes are schedules *)

Section passes.
Context {T : Type} `{RaftTransport T}.
Variable cfg : bytes → RaftConfig.
Implicit Types po : Pool T.

Notation run := (foldl (run_event cfg)).

Definition round_schedule (v : bytes) (order : list bytes) : list (event T) :=
  flat_map (λ p, [Asks v p; Counts v p]) order.

Definition election_schedule (v : bytes) (order order' : list bytes) : list (event T) :=
  Wakes v :: PreVotes v :: (round_schedule v order ++ [Joins v]) ++
  Begins v :: (round_schedule v order' ++ [Joins v]) ++ [Wins v].

Definition replication_schedule (v p : bytes) : list (event T) := [Ticks v p; Prepares v p; Sends v p; Takes v p].

Lemma ask_count v p pre term req pending votes po :
  po_elect po v = et_round pre term req pending votes → p ∈ pending → po_votes po v !! p = None →
  let po' := run po [Asks v p; Counts v p] in
  let '(votes', s') := vote_thread req pre term v (votes, po_sys po) p in
  po_sys po' = s' ∧ po_elect po' v = et_round pre term req (filter (.≠ p) pending) votes' ∧
  ∀ q, q ≠ p → po_votes po' v !! q = po_votes po v !! q.
Proof.
  intros Ee Hp Hn. cbn zeta. unfold vote_thread. destruct (SendRequestVote v p req (po_sys po)) as [r s] eqn:Es.
  assert (asks v p po = set_votes v (<[p := r]> (po_votes po v)) (set_sys s po)) as Ea.
  { unfold asks. by rewrite Ee, !bool_decide_eq_true_2, Es. }
  cbn [foldl run_event]. rewrite Ea. clear Ea. set (po1 := set_votes v _ _).
  assert (po_elect po1 v = et_round pre term req pending votes) as Ee1 by done.
  assert (po_votes po1 v = <[p := r]> (po_votes po v)) as Ev1 by apply fn_lookup_insert.
  assert (∀ q, q ≠ p → po_votes po1 v !! q = po_votes po v !! q) as Hq.
  { intros q Hq. by rewrite Ev1, lookup_insert_ne. }
  unfold counts. rewrite Ee1, bool_decide_eq_true_2, Ev1, lookup_insert_eq by done. destruct r as [resp|].
  - change (node_of po1 v) with (sys_nodes s v).
    destruct (WinVoteRound_reply pre term resp votes (sys_nodes s v)) as [n votes'].
    split_and!; [done|apply fn_lookup_insert|exact Hq].
  - split_and!; [done|apply fn_lookup_insert|exact Hq].
Qed.

Lemma round_events v pre term req order pending votes po :
  NoDup order → order ≡ₚ pending → po_elect po v = et_round pre term req pending votes →
  (∀ p, p ∈ order → po_votes po v !! p = None) →
  let po' := run po (round_schedule v order) in
  let '(votes', s') := foldl (vote_thread req pre term v) (votes, po_sys po) order in
  po_sys po' = s' ∧ po_elect po' v = et_round pre term req [] votes'.
Proof.
  revert pending votes po. induction order as [|p order IH]; intros pending votes po Hnd Hperm Ee Hn.
  { symmetry in Hperm. apply Permutation_nil_r in Hperm. subst pending. done. }
  apply NoDup_cons in Hnd as [Hp Hnd]. cbn [round_schedule flat_map]. fold (round_schedule v order).
  cbn zeta. rewrite foldl_app. cbn [foldl].
  assert (p ∈ pending) as Hin by (rewrite <-Hperm; by left).
  pose proof (ask_count v p pre term req pending votes po Ee Hin (Hn p ltac:(by left))) as Hone.
  destruct (vote_thread req pre term v (votes, po_sys po) p) as [votes1 s1]. destruct Hone as (<- & Ee1 & Hv1).
  cbn [foldl] in Ee1, Hv1 |- *. apply (IH (filter (.≠ p) pending)); [done| |done|].
  - rewrite <-Hperm, filter_cons_False by tauto. rewrite filter_all; [done|]. intros q Hq ->. done.
  - intros q Hq. rewrite Hv1 by (intros ->; done). apply Hn. by right.
Qed.

(** A thread that is in [ElectionLoop] ignores the other pieces. *)
Definition later_piece (v : bytes) (e : event T) : Prop :=
  match e with
  | PreVotes w | Asks w _ | Counts w _ | Joins w | Begins w | Wins w => w = v
  | _ => False
  end.

Lemma idle_events v es po : po_elect po v = et_idle → Forall (later_piece v) es → run po es = po.
Proof.
  intros Ee. induction 1 as [|e es He _ IH]; [done|]. cbn [foldl].
  assert (run_event cfg po e = po) as ->; [|exact IH].
  destruct e; cbn in He; try done; subst; cbn [run_event];
    unfold pre_votes, asks, counts, joins, begins, wins; by rewrite Ee.
Qed.

Lemma round_schedule_later v order : Forall (later_piece v) (round_schedule v order).
Proof. induction order as [|p order IH]; [constructor|]. by repeat constructor. Qed.

(** A round that begins and is not interrupted. *)
Lemma round_result v pre req order po :
  NoDup order → order ≡ₚ cfg_peers (cfg v) →
  let po' := run (start_round cfg v pre req po) (round_schedule v order ++ [Joins v]) in
  let '(won, s) := WinVoteRound order req pre (rv_term req) v (po_sys po) in
  po_sys po' = s ∧
  po_elect po' v = if won : bool then if pre then et_pre_won (rv_term req) else et_won (rv_term req) else et_idle.
Proof.
  intros Hnd Hperm. cbn zeta. rewrite foldl_app. set (po1 := start_round cfg v pre req po).
  assert (po_elect po1 v = et_round pre (rv_term req) req (cfg_peers (cfg v)) 1) as Ee1
    by (cbn [po1 start_round add_sent set_votes set_elect po_elect]; by rewrite fn_lookup_insert).
  assert (∀ p, p ∈ order → po_votes po1 v !! p = None) as Hv1.
  { intros p _. cbn [po1 start_round add_sent set_votes set_elect po_votes]. by rewrite fn_lookup_insert, lookup_empty. }
  pose proof (round_events v pre (rv_term req) req order _ 1 po1 Hnd Hperm Ee1 Hv1) as Hround. cbn zeta in Hround.
  change (po_sys po1) with (po_sys po) in Hround. unfold WinVoteRound.
  destruct (foldl (vote_thread _ _ _ _) _ order) as [votes s']. destruct Hround as [Es Ee2].
  set (po2 := run po1 _) in *. cbn [foldl run_event]. unfold joins. rewrite Ee2. cbn [po_sys po_elect set_elect].
  rewrite fn_lookup_insert. unfold node_of. by rewrite Es.
Qed.

Lemma election_tail v would order' po :
  NoDup order' → order' ≡ₚ cfg_peers (cfg v) → po_elect po v = et_pre_won would →
  let po' := run po (Begins v :: (round_schedule v order' ++ [Joins v]) ++ [Wins v]) in
  let '((now, timeout), s) := read_time (po_sys po) in
  po_sys po' =
    match StartElection_begin now timeout would (sys_nodes s v) with
    | None => s
    | Some (n, req) =>
        let '(won, s) := WinVoteRound order' req false (rv_term req) v (set_node v n s) in
        if won : bool then set_node v (StartElection_win (rv_term req) (sys_nodes s v)) s else s
    end ∧ po_elect po' v = et_idle.
Proof.
  intros Hnd Hperm Ee. cbn [foldl run_event]. unfold begins. rewrite Ee. unfold read_time.
  destruct (sys_time (po_sys po) 0%nat) as [now timeout]. unfold node_of. cbn [po_sys set_sys sys_nodes].
  destruct (StartElection_begin now timeout would (sys_nodes (po_sys po) v)) as [[n req]|].
  - rewrite foldl_app. match goal with |- context [start_round cfg v false req ?po1] =>
      pose proof (round_result v false req order' po1 Hnd Hperm) as Hround end.
    cbn zeta in Hround. cbn [po_sys put_node set_sys] in Hround.
    destruct (WinVoteRound order' req false (rv_term req) v _) as [won s']. destruct Hround as [Es Ee2].
    set (po2 := run _ (round_schedule v order' ++ _)) in *. cbn [foldl run_event]. unfold wins. rewrite Ee2.
    destruct won; [|done]. cbn [po_sys po_elect set_elect put_node set_sys]. rewrite fn_lookup_insert.
    unfold node_of. by rewrite Es.
  - rewrite (idle_events v); cbn [po_sys po_elect set_elect set_sys]; rewrite ?fn_lookup_insert; try done.
    repeat apply Forall_app_2; [apply round_schedule_later|by repeat constructor..].
Qed.

(** An uninterrupted pass of [ElectionLoop]. *)
Lemma ElectionLoop_pass_events v order order' po :
  NoDup (cfg_peers (cfg v)) → order ≡ₚ cfg_peers (cfg v) → order' ≡ₚ cfg_peers (cfg v) → po_elect po v = et_idle →
  let po' := run po (election_schedule v order order') in
  po_sys po' = ElectionLoop_pass order order' v (po_sys po) ∧ po_elect po' v = et_idle.
Proof.
  intros Hnd Hord Hord' Ee. assert (NoDup order ∧ NoDup order') as [Hn Hn'] by by rewrite Hord, Hord'.
  assert (∀ po1, po_elect po1 v = et_idle →
    run po1 (Begins v :: (round_schedule v order' ++ [Joins v]) ++ [Wins v]) = po1) as Hidle.
  { intros po1 E. apply (idle_events v); [done|]. constructor; [done|].
    repeat apply Forall_app_2; [apply round_schedule_later|by repeat constructor..]. }
  unfold election_schedule, ElectionLoop_pass. cbn zeta. cbn [foldl run_event]. unfold wakes. rewrite Ee.
  unfold read_time. destruct (sys_time (po_sys po) 0%nat) as [now timeout].
  unfold node_of. cbn [po_sys set_sys sys_nodes]. set (s1 := mkSys _ _ _).
  destruct (election_due now (sys_nodes (po_sys po) v)).
  2:{ assert (pre_votes cfg v (set_sys s1 po) = set_sys s1 po) as -> by (unfold pre_votes; cbn [po_elect set_sys]; by rewrite Ee).
      rewrite (idle_events v); [split; [done|exact Ee]|exact Ee|].
      repeat first [apply Forall_app_2|apply Forall_cons_2|apply round_schedule_later|done|constructor]. }
  cbn [foldl run_event]. unfold pre_votes. cbn [po_elect set_elect]. rewrite fn_lookup_insert. unfold node_of, StartElection.
  cbn [po_sys set_elect set_sys sys_nodes s1]. destruct (StartElection_pre (sys_nodes (po_sys po) v)) as [pre|].
  2:{ rewrite (idle_events v); cbn [po_sys po_elect set_elect]; rewrite ?fn_lookup_insert; try done.
      repeat first [apply Forall_app_2|apply Forall_cons_2|apply round_schedule_later|done|constructor]. }
  rewrite foldl_app. match goal with |- context [start_round cfg v true pre ?po1] =>
    pose proof (round_result v true pre order po1 Hn Hord) as Hround end.
  cbn zeta in Hround. cbn [po_sys set_elect set_sys] in Hround. fold s1 in Hround |- *.
  destruct (WinVoteRound order pre true (rv_term pre) v s1) as [won s2]. destruct Hround as [Es Ee2].
  set (po2 := run _ (round_schedule v order ++ _)) in *.
  destruct won.
  - pose proof (election_tail v (rv_term pre) order' po2 Hn' Hord' Ee2) as Htail. rewrite Es in Htail. by destruct (read_time s2) as [[now2 timeout2] s3].
  - rewrite Hidle by done. done.
Qed.

Lemma set_repl_eq v p rt po : po_repl (set_repl v p rt po) v p = rt.
Proof. cbn [po_repl set_repl]. by rewrite !fn_lookup_insert. Qed.

(** An uninterrupted pass of [ReplicationLoop]. *)
Lemma ReplicationLoop_pass_events v p po :
  po_repl po v p = rt_idle →
  let po' := run po (replication_schedule v p) in
  po_sys po' = ReplicationLoop_pass v p (po_sys po) ∧ po_repl po' v p = rt_idle.
Proof.
  intros Er. cbn [foldl run_event replication_schedule].
  assert (∀ po1, po_repl po1 v p = rt_idle → takes_reply v p (sends v p po1) = po1) as Hidle.
  { intros po1 E. assert (sends v p po1 = po1) as -> by (unfold sends; by rewrite E). unfold takes_reply. by rewrite E. }
  unfold ReplicationLoop_pass. destruct (bool_decide _) eqn:Eb.
  2:{ assert (prepares v p (ticks v p po) = po) as ->; [|by rewrite Hidle].
      unfold ticks, node_of. rewrite Er, Eb. unfold prepares. by rewrite Er. }
  set (term := rn_current_term (sys_nodes (po_sys po) v)).
  assert (ticks v p po = set_repl v p (rt_due term) po) as -> by (unfold ticks, node_of; by rewrite Er, Eb).
  set (po1 := set_repl v p _ po). assert (po_repl po1 v p = rt_due term) as E1 by apply set_repl_eq.
  unfold ReplicateTo. destruct (ReplicateTo_request p term (sys_nodes (po_sys po) v)) as [req|] eqn:Ereq.
  2:{ assert (prepares v p po1 = set_repl v p rt_idle po1) as ->.
      { unfold prepares. rewrite E1. change (node_of po1 v) with (sys_nodes (po_sys po) v). by rewrite Ereq. }
      rewrite Hidle by apply set_repl_eq. split; [done|apply set_repl_eq]. }
  assert (ae_term req = term) as Et.
  { revert Ereq. unfold ReplicateTo_request. destruct (_ || _); [done|]. by intros [= <-]. }
  assert (prepares v p po1 = add_sent [AEReq p req] (set_repl v p (rt_send req) po1)) as ->.
  { unfold prepares. rewrite E1. change (node_of po1 v) with (sys_nodes (po_sys po) v). by rewrite Ereq. }
  set (po2 := add_sent _ _). assert (po_repl po2 v p = rt_send req) as E2 by apply set_repl_eq.
  destruct (SendAppendEntries v p req (po_sys po)) as [r s] eqn:Es.
  assert (sends v p po2 = set_repl v p (rt_reply req r) (set_sys s po2)) as ->.
  { unfold sends. rewrite E2. change (po_sys po2) with (po_sys po). by rewrite Es. }
  set (po3 := set_repl v p _ _). assert (po_repl po3 v p = rt_reply req r) as E3 by apply set_repl_eq.
  unfold takes_reply. rewrite E3. destruct r as [resp|]; (split; [|apply set_repl_eq]); [|done].
  cbn [po_sys put_node set_sys set_repl po3]. by rewrite Et.
Qed.
End passes.

(** C11: Raft over its transports.  The threads of the nodes run over a transport
    that keeps the laws of the interface, as the in-memory and the gRPC transport do,
    interleaved in any way at the points where they release the lock or call the
    transport; in between, clients propose, nodes are stopped and restarted from
    their storage, the wiring changes, and requests whose caller gave up are handled
    late or twice.  Then the nodes and their election threads are those of a state
    that the cluster model of RaftNet.v reaches, and two nodes have applied the same
    entries as far as both have come. *)
Theorem raft_over_transport {T} `{RaftTransportLaws T} members cfg now timeout time (wire : T) es :
  let po0 := pool_of (sys_init cfg now timeout time wire) in
  cluster_cfg members cfg → wire_ok wire → events_ok members cfg po0 es →
  let po := foldl (run_event cfg) po0 es in
  (∃ cl, reachable members cfg now timeout cl ∧
     ∀ v, cl_node cl v = sys_nodes (po_sys po) v ∧ cl_elect cl v = po_elect po v) ∧
  ∀ v w, v ∈ members → w ∈ members →
    rn_applied (sys_nodes (po_sys po) v) `prefix_of` rn_applied (sys_nodes (po_sys po) w) ∨
    rn_applied (sys_nodes (po_sys po) w) `prefix_of` rn_applied (sys_nodes (po_sys po) v).
Proof.
  intros po0 Hcfg Hok Hes po.
  destruct (run_events_sim members cfg Hcfg now timeout es po0 (cluster_init cfg now timeout)) as (cl & Hr & HS);
    [unfold reachable; reflexivity|by apply pool_init_sim|done|].
  split; [exists cl; split; [done|]; intros v; split; apply HS|].
  intros v w Hv Hw. rewrite <-!(sim_shows _ _ _ _ HS). by eapply applied_comparable.
Qed.

(** ** Two candidates

    [a] and [b] wake together and both win the trial round; [a] starts the real one
    first and has the vote of [b], which then finds its trial out of date.  What [a]
    proposes is applied while the threads for [b] and [c] take turns, and the first
    vote request arrives once more. *)
Definition demo_events : list (event InMemoryCluster) :=
  let a := run_a in let b := run_b in let c := run_c in
  [Wakes a; Wakes b; PreVotes a; PreVotes b; Asks a b; Asks b a; Counts a b; Asks b c; Asks a c; Counts a c; Joins a;
   Counts b a; Begins a; Asks a b; Counts b c; Joins b; Begins b; Counts a b; Asks a c; Counts a c; Joins a; Wins a;
   Proposes a (lit "x"); Ticks a b; Ticks a c; Prepares a b; Prepares a c; Sends a c; Sends a b; Takes a b; Late 0; Takes a c].

Lemma raft_over_transport_witness :
  let po := foldl (run_event run_cfg) (pool_of demo_sys) demo_events in
  rn_role (sys_nodes (po_sys po) run_a) = kLeader ∧ rn_applied (sys_nodes (po_sys po) run_a) = [run_entry] ∧
  rn_log (sys_nodes (po_sys po) run_b) = [run_entry] ∧
  ∃ cl, reachable run_members run_cfg (λ _, 0) (λ _, 10) cl ∧
    ∀ v, cl_node cl v = sys_nodes (po_sys po) v ∧ cl_elect cl v = po_elect po v.
Proof.
  cbn zeta. split; [vm_compute; reflexivity|]. split; [vm_compute; reflexivity|]. split; [vm_compute; reflexivity|].
  refine (proj1 (raft_over_transport run_members run_cfg (λ _, 0) (λ _, 10) _ demo_wire demo_events run_cfg_ok demo_wire_ok _)).
  apply events_okb_ok. vm_compute. reflexivity.
Defined.
