(* ===== verification/RaftProgress.v ===== *)
(** * Progress of Raft

    The safety results say that nothing wrong is agreed on; here it is shown that
    something is.  Over a transport that connects it to a majority, a node whose
    election is due and whose log is as complete as theirs becomes leader, and what
    is then proposed to it is committed and applied after boundedly many passes of
    its replication threads, in whatever order they run. *)

From stdpp Require Import base gmap functions numbers list.
From Stdlib Require Import ZArith Lia.
From S2P Require Import Prelude Status RaftStorage RaftNode RaftSpec RaftFacts RaftNet RaftRefine RaftProps RaftTransport.

Local Open Scope Z_scope.

(** ** What the handlers leave alone *)

Lemma ApplyCommitted_frame n : ∃ la ap, ApplyCommittedLocked n = set_commit (rn_commit_index n) la ap n.
Proof.
  unfold ApplyCommittedLocked. generalize (Z.to_nat (rn_commit_index n - rn_last_applied n)). intros k.
  revert n. induction k as [|k IH]; intros n; cbn [ApplyCommitted_loop].
  { exists (rn_last_applied n), (rn_applied n). by destruct n. }
  destruct (_ <? _); [|exists (rn_last_applied n), (rn_applied n); by destruct n].
  destruct (IH (set_commit (rn_commit_index n) (rn_last_applied n + 1)
    (rn_applied n ++ [nth (Z.to_nat (rn_last_applied n + 1 - 1)) (rn_log n) LogEntry_default]) n)) as (la & ap & ->).
  by exists la, ap.
Qed.

Lemma AdvanceCommit_frame n : ∃ c la ap, AdvanceCommitLocked n = set_commit c la ap n.
Proof.
  unfold AdvanceCommitLocked.
  destruct (AdvanceCommit_loop_spec (Z.to_nat (LastLogIndexLocked n - rn_commit_index n)) (LastLogIndexLocked n) n)
    as [->|(idx & _ & _ & _ & ->)].
  { exists (rn_commit_index n), (rn_last_applied n), (rn_applied n). by destruct n. }
  destruct (ApplyCommitted_frame (set_commit idx (rn_last_applied n) (rn_applied n) n)) as (la & ap & ->).
  by exists idx, la, ap.
Qed.

(** A leader that has committed all it can: its whole log, if a majority has it. *)
Definition commit_done n : Prop :=
  MajorityLocked n <= replica_count n (Zlen (rn_log n)) → rn_commit_index n = Zlen (rn_log n).

Lemma AdvanceCommit_done n :
  indexed (rn_log n) → rn_commit_index n <= Zlen (rn_log n) →
  TermAtLocked n (Zlen (rn_log n)) = rn_current_term n → commit_done (AdvanceCommitLocked n).
Proof.
  intros Hi Hc Ht. unfold commit_done. destruct (AdvanceCommit_frame n) as (c & la & ap & E). rewrite E.
  intros Hmaj. change (MajorityLocked n <= replica_count n (Zlen (rn_log n))) in Hmaj.
  rewrite <-E. unfold AdvanceCommitLocked in *. rewrite LastLogIndex_length in * by done. cbn [rn_log set_commit].
  destruct (Z.to_nat (Zlen (rn_log n) - rn_commit_index n)) as [|k] eqn:Ek; cbn [AdvanceCommit_loop] in *; [lia|].
  destruct (Z.ltb_spec (rn_commit_index n) (Zlen (rn_log n))); [|lia].
  rewrite Ht, Z.eqb_refl. cbn [negb]. destruct (Z.leb_spec (MajorityLocked n) (replica_count n (Zlen (rn_log n)))); [|lia].
  by destruct (ApplyCommitted_frame (set_commit (Zlen (rn_log n)) (rn_last_applied n) (rn_applied n) n)) as (? & ? & ->).
Qed.

Lemma append_entries_frame es n changed : ∃ l b, foldl append_entry (n, changed) es = (set_log l n, b).
Proof.
  revert n changed. induction es as [|e es IH]; intros n changed; cbn [foldl].
  { exists (rn_log n), changed. by destruct n. }
  unfold append_entry at 2. destruct (_ <=? _); [destruct (_ =? _); [apply IH|]|];
    (match goal with |- context [foldl append_entry (set_log ?l' n, true) es] => destruct (IH (set_log l' n) true) as (l & b & ->) end);
    by exists l, b.
Qed.

(** A follower answers its leader with the leader's term; when it does not take the
    entries it asks for earlier ones. *)
Lemma HandleAppendEntries_answer now timeout req n n' resp :
  rn_current_term n <= ae_term req → indexed (rn_log n) → Zlen (rn_log n) + 1 < 2 ^ 64 →
  HandleAppendEntries now timeout req n = (n', resp) →
  rn_current_term n' = ae_term req ∧ aer_term resp = ae_term req ∧
  (aer_success resp = false → 1 <= aer_conflict_index resp <= ae_prev_log_index req).
Proof.
  intros Ht Hi Hb. unfold HandleAppendEntries. destruct (Z.ltb_spec (ae_term req) (rn_current_term n)); [lia|].
  destruct (StepDown_fields (ae_term req) n) as [ET EL]. set (n2 := set_timer _ _ _ _).
  assert (rn_current_term n2 = ae_term req ∧ rn_log n2 = rn_log n) as [ET2 EL2] by (cbn; split; [lia|done]).
  clearbody n2. rewrite (LastLogIndex_length n2) by (by rewrite EL2). rewrite EL2.
  destruct (Z.ltb_spec (Zlen (rn_log n)) (ae_prev_log_index req)).
  { intros [= <- <-]. cbn. unfold u64. rewrite Z.mod_small by lia. split_and!; [done|done|lia]. }
  destruct (Z.ltb_spec 0 (ae_prev_log_index req)); cbn [andb]; [destruct (negb _)|].
  { intros [= <- <-]. cbn. split_and!; [done|done|lia]. }
  all: destruct (append_entries_frame (ae_entries req) n2 false) as (l & changed & ->).
  all: set (n4 := if changed then _ else _); assert (rn_current_term n4 = ae_term req) as ET4 by (by destruct changed).
  all: clearbody n4; destruct (rn_commit_index n4 <? ae_leader_commit req);
    [match goal with |- context [ApplyCommittedLocked ?x] => destruct (ApplyCommitted_frame x) as (la & ap & ->) end|].
  all: by intros [= <- <-].
Qed.

(** What a node does with a request for its vote: in a trial round it keeps its
    state; in a real one of a later term it takes that term, and votes if the
    candidate's log is complete enough. *)
Lemma HandleRequestVote_pre now timeout req n n' resp :
  rv_pre_vote req = true → HandleRequestVote now timeout req n = (n', resp) →
  n' = n ∧ rvr_term resp = rn_current_term n ∧
  (rn_current_term n <= rv_term req → rn_role n ≠ kLeader → up_to_date req n = true →
   cfg_election_min (rn_config n) <= now - rn_last_leader_contact n → rvr_vote_granted resp = true).
Proof.
  intros Hp. unfold HandleRequestVote. rewrite Hp. intros [= <- <-]. split_and!; [done|done|].
  intros Ht Hr Hu Hc. cbn [rvr_vote_granted]. rewrite (proj2 (Z.leb_le _ _) Ht), bool_decide_eq_false_2 by done.
  cbn [andb negb]. rewrite Hu. by apply Z.leb_le.
Qed.

Lemma HandleRequestVote_real now timeout req n n' resp :
  rv_pre_vote req = false → rn_current_term n < rv_term req → HandleRequestVote now timeout req n = (n', resp) →
  rn_current_term n' = rv_term req ∧ rvr_term resp = rv_term req ∧
  (up_to_date req n = true → rvr_vote_granted resp = true).
Proof.
  intros Hp Ht. unfold HandleRequestVote, StepDownIfStaleLocked. rewrite Hp, (proj2 (Z.ltb_lt _ _) Ht). cbn [rn_current_term rn_voted_for
    PersistHardStateLocked SaveHardState set_disk set_role set_term_vote].
  rewrite Z.eqb_refl, bool_decide_eq_true_2 by done. cbn [andb orb].
  change (up_to_date req (PersistHardStateLocked _)) with (up_to_date req n).
  destruct (up_to_date req n); intros [= <- <-]; cbn; by split_and!.
Qed.

Section progress.
Context {T : Type} `{RaftTransportLaws T}.
Variable members : list bytes.
Variable cfg : bytes → RaftConfig.
Hypothesis cfg_ok : cluster_cfg members cfg.
Variable now0 timeout0 : bytes → Z.
Implicit Types s : Sys T.

(** ** Elections *)

(** The transport is still set up, with no connection lost. *)
Record env_after s s' : Prop := {
  ea_ok : wire_ok (sys_wire s) → wire_ok (sys_wire s');
  ea_time : time_after s s';
  ea_connected : wire_ok (sys_wire s) → ∀ u w, connected (sys_wire s) u w → connected (sys_wire s') u w;
}.

Lemma env_after_refl s s' : sys_wire s' = sys_wire s → time_after s s' → env_after s s'.
Proof. intros E Ht. split; [by rewrite E|done|by rewrite E]. Qed.

Lemma env_after_node v n s : env_after s (set_node v n s).
Proof. apply env_after_refl; [done|by exists 0%nat]. Qed.

Lemma env_after_trans s1 s2 s3 : env_after s1 s2 → env_after s2 s3 → env_after s1 s3.
Proof.
  intros [] []. split; [auto|by eapply time_after_trans|auto].
Qed.

(** The voters [Q] can be counted on by [v] at the readings of the clock to come. *)
Record voter (v : bytes) s (req : RequestVoteRequest) (q : bytes) : Prop := {
  vt_connected : connected (sys_wire s) v q;
  vt_role : rn_role (sys_nodes s q) ≠ kLeader;
  vt_log : up_to_date req (sys_nodes s q) = true;
  vt_contact : ∀ i, cfg_election_min (rn_config (sys_nodes s q)) <=
                    (sys_time s i).1 - rn_last_leader_contact (sys_nodes s q);
}.

Lemma voter_after v s s' req q :
  wire_ok (sys_wire s) → env_after s s' → sys_nodes s' q = sys_nodes s q → voter v s req q → voter v s' req q.
Proof.
  intros Hok [_ [k Ht] Hc] E []. split; rewrite ?E; auto. intros i. by rewrite Ht.
Qed.

(** The votes that come in from [order] are at least those of [Q]. *)
Definition votes_of (Q order : list bytes) : Z := Zlen (filter (.∈ Q) order).

Lemma vote_thread_pre v Q req term votes s p votes' s' :
  wire_ok (sys_wire s) → p ≠ v → rv_pre_vote req = true → rn_current_term (sys_nodes s v) <= rv_term req →
  rn_current_term (sys_nodes s p) <= rn_current_term (sys_nodes s v) → (p ∈ Q → voter v s req p) →
  vote_thread req true term v (votes, s) p = (votes', s') →
  (∀ w, sys_nodes s' w = sys_nodes s w) ∧ env_after s s' ∧ votes + votes_of Q [p] <= votes'.
Proof.
  intros Hok Hne Hpre Htv Htp HQ. unfold vote_thread. destruct (SendRequestVote v p req s) as [r s1] eqn:E.
  destruct (SendRequestVote_sound _ _ _ _ _ _ Hok E) as (Hcall & Htime & Hok1).
  pose proof (λ u w, SendRequestVote_connected _ _ _ _ _ _ u w Hok E) as Hconn.
  assert (env_after s s1) as Henv by (by split).
  assert (∀ w, sys_nodes s1 w = sys_nodes s w) as Hn.
  { destruct Hcall as [[_ Hn]|(now & timeout & n & resp & Eh & Hn & _)]; [done|]. intros w. rewrite Hn.
    apply HandleRequestVote_pre in Eh as (-> & _ & _); [|done].
    destruct (decide (w = p)) as [->|]; [by rewrite fn_lookup_insert|by rewrite fn_lookup_insert_ne]. }
  assert (votes_of Q [p] = if decide (p ∈ Q) then 1 else 0) as -> by (unfold votes_of; rewrite filter_cons; by case_decide).
  destruct r as [resp|].
  - assert (rvr_term resp <= rn_current_term (sys_nodes s v) ∧ (p ∈ Q → rvr_vote_granted resp = true)) as [Hresp Hgrant].
    { split.
      - destruct Hcall as [[? _]|(now & timeout & n & resp' & Eh & _ & Hr)]; [done|]. rewrite (Hr _ eq_refl).
        apply HandleRequestVote_pre in Eh as (_ & -> & _); done.
      - intros Hp. destruct (HQ Hp) as [Hc Hrole Hlog Hcon].
        destruct (SendRequestVote_answered _ _ _ _ _ _ Hok Hc E) as (n & resp' & Eh & [= ->] & _).
        apply HandleRequestVote_pre in Eh as (_ & _ & Hg); [|done]. apply Hg; try done. lia. }
    unfold WinVoteRound_reply. rewrite Hn. destruct (Z.ltb_spec (rn_current_term (sys_nodes s v)) (rvr_term resp)); [lia|].
    cbn [negb andb]. intros [= <- <-]. split_and!.
    + intros w. cbn [sys_nodes set_node]. destruct (decide (w = v)) as [->|]; [by rewrite fn_lookup_insert|].
      by rewrite fn_lookup_insert_ne, Hn by done.
    + eapply env_after_trans; [exact Henv|apply env_after_node].
    + case_decide; [rewrite Hgrant by done; lia|]. destruct (rvr_vote_granted resp); lia.
  - intros [= <- <-]. split_and!; [done|done|]. case_decide as Hp; [|lia].
    destruct (HQ Hp) as [Hc _ _ _]. by destruct (SendRequestVote_answered _ _ _ _ _ _ Hok Hc E) as (? & ? & _ & ? & _).
Qed.

Lemma votes_of_cons Q p order : votes_of Q (p :: order) = votes_of Q [p] + votes_of Q order.
Proof. unfold votes_of. rewrite !filter_cons. case_decide; simpl; lia. Qed.

Lemma pre_round v Q req term order votes s votes' s' :
  wire_ok (sys_wire s) → v ∉ order → rv_pre_vote req = true → rn_current_term (sys_nodes s v) <= rv_term req →
  (∀ p, p ∈ order → rn_current_term (sys_nodes s p) <= rn_current_term (sys_nodes s v)) →
  (∀ p, p ∈ Q → voter v s req p) →
  foldl (vote_thread req true term v) (votes, s) order = (votes', s') →
  (∀ w, sys_nodes s' w = sys_nodes s w) ∧ env_after s s' ∧ votes + votes_of Q order <= votes'.
Proof.
  revert votes s. induction order as [|p order IH]; intros votes s Hok Hv Hpre Htv Htp HQ.
  { intros [= <- <-]. split_and!; [done|by apply env_after_refl; [|apply time_after_refl]|]. unfold votes_of. simpl. lia. }
  cbn [foldl]. destruct (vote_thread req true term v (votes, s) p) as [votes1 s1] eqn:E. intros Hf.
  apply not_elem_of_cons in Hv as [Hvp Hv].
  destruct (vote_thread_pre v Q req term votes s p votes1 s1) as (Hn1 & Henv1 & Hc1); try done; [by apply Htp; left|by apply HQ|].
  destruct (IH votes1 s1) as (Hn2 & Henv2 & Hc2); try done.
  - by apply Henv1.
  - by rewrite Hn1.
  - intros q Hq. rewrite !Hn1. apply Htp. by right.
  - intros q Hq. eapply voter_after; [done|exact Henv1|apply Hn1|by apply HQ].
  - split_and!; [intros w; by rewrite Hn2, Hn1|by eapply env_after_trans|]. rewrite votes_of_cons. lia.
Qed.

Lemma vote_thread_real v Q req term votes s p votes' s' :
  wire_ok (sys_wire s) → p ≠ v → rv_pre_vote req = false → rv_term req = term →
  rn_role (sys_nodes s v) = kCandidate → rn_current_term (sys_nodes s v) = term →
  rn_current_term (sys_nodes s p) < term → (p ∈ Q → voter v s req p) →
  vote_thread req false term v (votes, s) p = (votes', s') →
  (∀ w, w ≠ p → sys_nodes s' w = sys_nodes s w) ∧ rn_current_term (sys_nodes s' p) <= term ∧
  env_after s s' ∧ votes + votes_of Q [p] <= votes'.
Proof.
  intros Hok Hne Hpre Hterm Hrole Htv Htp HQ. unfold vote_thread. destruct (SendRequestVote v p req s) as [r s1] eqn:E.
  destruct (SendRequestVote_sound _ _ _ _ _ _ Hok E) as (Hcall & Htime & Hok1).
  pose proof (λ u w, SendRequestVote_connected _ _ _ _ _ _ u w Hok E) as Hconn.
  assert (env_after s s1) as Henv by (by split).
  assert ((∀ w, w ≠ p → sys_nodes s1 w = sys_nodes s w) ∧ rn_current_term (sys_nodes s1 p) <= term) as [Hn Hp1].
  { destruct Hcall as [[_ Hn]|(now & timeout & n & resp & Eh & Hn & _)].
    - split; [done|]. rewrite Hn. lia.
    - split; [intros w Hw; by rewrite Hn, fn_lookup_insert_ne|]. rewrite Hn, fn_lookup_insert.
      apply HandleRequestVote_real in Eh as (-> & _ & _); [lia|done|lia]. }
  assert (votes_of Q [p] = if decide (p ∈ Q) then 1 else 0) as -> by (unfold votes_of; rewrite filter_cons; by case_decide).
  destruct r as [resp|].
  - assert (rvr_term resp = term ∧ (p ∈ Q → rvr_vote_granted resp = true)) as [Hresp Hgrant].
    { split.
      - destruct Hcall as [[? _]|(now & timeout & n & resp' & Eh & _ & Hr)]; [done|]. rewrite (Hr _ eq_refl).
        apply HandleRequestVote_real in Eh as (_ & -> & _); [done|done|lia].
      - intros Hp. destruct (HQ Hp) as [Hc _ Hlog _].
        destruct (SendRequestVote_answered _ _ _ _ _ _ Hok Hc E) as (n & resp' & Eh & [= ->] & _).
        apply HandleRequestVote_real in Eh as (_ & _ & Hg); [|done|lia]. by apply Hg. }
    unfold WinVoteRound_reply. rewrite Hn by done. rewrite Htv, Hresp, Z.ltb_irrefl, Z.eqb_refl, bool_decide_eq_true_2 by done.
    cbn [negb andb orb]. intros [= <- <-]. split_and!.
    + intros w Hw. cbn [sys_nodes set_node]. destruct (decide (w = v)) as [->|]; [by rewrite fn_lookup_insert|].
      by rewrite fn_lookup_insert_ne, Hn by done.
    + cbn [sys_nodes set_node]. by rewrite fn_lookup_insert_ne by done.
    + eapply env_after_trans; [exact Henv|apply env_after_node].
    + case_decide; [rewrite Hgrant by done; lia|]. destruct (rvr_vote_granted resp); lia.
  - intros [= <- <-]. split_and!; [done|done|done|]. case_decide as Hp; [|lia].
    destruct (HQ Hp) as [Hc _ _ _]. by destruct (SendRequestVote_answered _ _ _ _ _ _ Hok Hc E) as (? & ? & _ & ? & _).
Qed.

Lemma real_round v Q req term order votes s votes' s' :
  wire_ok (sys_wire s) → NoDup order → v ∉ order → rv_pre_vote req = false → rv_term req = term →
  rn_role (sys_nodes s v) = kCandidate → rn_current_term (sys_nodes s v) = term →
  (∀ p, p ∈ order → rn_current_term (sys_nodes s p) < term) → (∀ p, p ∈ order → p ∈ Q → voter v s req p) →
  foldl (vote_thread req false term v) (votes, s) order = (votes', s') →
  (∀ w, w ∉ order → sys_nodes s' w = sys_nodes s w) ∧ (∀ w, w ∈ order → rn_current_term (sys_nodes s' w) <= term) ∧
  env_after s s' ∧ votes + votes_of Q order <= votes'.
Proof.
  intros Hok Hnd Hv Hpre Hterm. revert votes s Hok.
  induction order as [|p order IH]; intros votes s Hok Hrole Htv Htp HQ.
  { intros [= <- <-]. split_and!; [done|set_solver|by apply env_after_refl; [|apply time_after_refl]|]. unfold votes_of. simpl. lia. }
  cbn [foldl]. destruct (vote_thread req false term v (votes, s) p) as [votes1 s1] eqn:E. intros Hf.
  apply not_elem_of_cons in Hv as [Hvp Hv]. apply NoDup_cons in Hnd as [Hp Hnd].
  destruct (vote_thread_real v Q req term votes s p votes1 s1) as (Hn1 & Hp1 & Henv1 & Hc1); try done;
    [by apply Htp; left|apply HQ; by left|].
  destruct (IH Hnd Hv votes1 s1) as (Hn2 & Ht2 & Henv2 & Hc2); try done.
  - by apply Henv1.
  - by rewrite Hn1.
  - by rewrite Hn1.
  - intros q Hq. rewrite Hn1 by congruence. apply Htp. by right.
  - intros q Hq HqQ. eapply voter_after; [done|exact Henv1|apply Hn1; congruence|]. apply HQ; [by right|done].
  - split_and!; [| |by eapply env_after_trans|rewrite votes_of_cons; lia].
    + intros w [? ?]%not_elem_of_cons. by rewrite Hn2, Hn1.
    + intros w [->|?]%elem_of_cons; [by rewrite Hn2|auto].
Qed.

Lemma votes_of_all Q order : NoDup Q → Q ⊆ order → Zlen Q <= votes_of Q order.
Proof.
  intros Hnd Hsub. unfold votes_of. apply Nat2Z.inj_le, submseteq_length, NoDup_submseteq; [done|].
  intros q Hq. apply list_elem_of_filter. auto.
Qed.

(** [v] can be elected by [Q] and itself. *)
Record electable (v : bytes) (Q : list bytes) s : Prop := {
  el_role : rn_role (sys_nodes s v) ≠ kLeader;
  el_contact : ∀ i, cfg_election_min (rn_config (sys_nodes s v)) <=
                    (sys_time s i).1 - rn_last_leader_contact (sys_nodes s v);
  el_term : 0 <= rn_current_term (sys_nodes s v) ∧ rn_current_term (sys_nodes s v) + 1 < 2 ^ 64;
  el_terms : ∀ w, w ∈ members → rn_current_term (sys_nodes s w) <= rn_current_term (sys_nodes s v);
  el_nodup : NoDup Q;
  el_peers : Q ⊆ cfg_peers (cfg v);
  el_voters : ∀ q req, q ∈ Q → StartElection_pre (sys_nodes s v) = Some req → voter v s req q;
  el_majority : MajorityLocked (sys_nodes s v) <= 1 + Zlen Q;
}.

(** After the election [v] leads the next term, and nobody is in a later one. *)
Record elected (v : bytes) s s' : Prop := {
  ed_role : rn_role (sys_nodes s' v) = kLeader;
  ed_term : rn_current_term (sys_nodes s' v) = rn_current_term (sys_nodes s v) + 1;
  ed_log : rn_log (sys_nodes s' v) = rn_log (sys_nodes s v);
  ed_terms : ∀ w, w ∈ members → rn_current_term (sys_nodes s' w) <= rn_current_term (sys_nodes s' v);
  ed_next : ∀ p, p ∈ cfg_peers (cfg v) → rn_next_index (sys_nodes s' v) !! p = Some (u64 (LastLogIndexLocked (sys_nodes s v) + 1));
  ed_env : env_after s s';
}.

Lemma up_to_date_ext req req' n :
  rv_last_log_index req = rv_last_log_index req' → rv_last_log_term req = rv_last_log_term req' →
  up_to_date req n = up_to_date req' n.
Proof. unfold up_to_date. by intros -> ->. Qed.

(** The second phase, once the trial round is won. *)
Lemma real_election v Q order pre s now timeout :
  wire_ok (sys_wire s) → v ∈ members → rn_config (sys_nodes s v) = cfg v → order ≡ₚ cfg_peers (cfg v) →
  cfg_election_min (cfg v) <= now - rn_last_leader_contact (sys_nodes s v) →
  electable v Q s → StartElection_pre (sys_nodes s v) = Some pre →
  ∃ n req, StartElection_begin now timeout (rv_term pre) (sys_nodes s v) = Some (n, req) ∧
    ∃ s', WinVoteRound order req false (rv_term req) v (set_node v n s) = (true, s') ∧
    elected v s (set_node v (StartElection_win (rv_term req) (sys_nodes s' v)) s').
Proof.
  intros Hok Hv Hcfg Ho Hnow [Hrole _ [Ht0 Hb] Hterms Hnd HQp HQ Hmaj] Epre.
  destruct (peers_facts members cfg (cc_nodup _ _ cfg_ok) (cc_peers _ _ cfg_ok) v Hv) as (Hpnd & Hvp & Hpm & _).
  specialize (λ q H, HQ q pre H Epre). unfold StartElection_pre in Epre. rewrite bool_decide_eq_false_2 in Epre by done.
  injection Epre as <-. cbn [rv_term].
  unfold StartElection_begin. rewrite bool_decide_eq_false_2, Z.eqb_refl, Hcfg, (proj2 (Z.ltb_ge _ _) Hnow) by done.
  cbn [orb negb]. eexists _, _. split; [done|]. cbn [rv_term rn_current_term set_timer PersistHardStateLocked SaveHardState
    set_disk set_leader_id set_role set_term_vote].
  unfold u64. rewrite Z.mod_small by lia. set (term := rn_current_term (sys_nodes s v) + 1).
  set (req := mkRequestVoteRequest _ _ _ _ false). set (n := set_timer now _ timeout _).
  unfold WinVoteRound. destruct (foldl _ _ _) as [votes s'] eqn:E.
  destruct (real_round v Q req term order 1 (set_node v n s) votes s') as (Hn & Ht & Henv & Hc); try done.
  { by rewrite Ho. }
  { by rewrite Ho. }
  { cbn [sys_nodes set_node]. by rewrite fn_lookup_insert. }
  { cbn [sys_nodes set_node]. by rewrite fn_lookup_insert. }
  { intros p Hp. rewrite Ho in Hp. cbn [sys_nodes set_node]. rewrite fn_lookup_insert_ne by congruence.
    pose proof (Hterms p (Hpm p Hp)). lia. }
  { intros p Hp HpQ. eapply voter_after; [done|apply env_after_node| |].
    - cbn [sys_nodes set_node]. rewrite Ho in Hp. by rewrite fn_lookup_insert_ne by congruence.
    - destruct (HQ p HpQ). split; [done|done| |done]. by erewrite up_to_date_ext. }
  assert (sys_nodes s' v = n) as Env.
  { rewrite Hn by (by rewrite Ho). cbn [sys_nodes set_node]. by rewrite fn_lookup_insert. }
  assert (WinVoteRound_result votes (sys_nodes s' v) = true) as ->.
  { rewrite Env. apply Z.leb_le. change (MajorityLocked n) with (MajorityLocked (sys_nodes s v)).
    pose proof (votes_of_all Q order Hnd ltac:(by rewrite Ho)). lia. }
  exists s'. split; [done|]. rewrite Env. unfold StartElection_win. rewrite bool_decide_eq_true_2 by done.
  change (rn_current_term n) with term. rewrite Z.eqb_refl. cbn [andb].
  split; cbn [sys_nodes set_node]; rewrite ?fn_lookup_insert; try done.
  - intros w Hw. change (rn_current_term (BecomeLeaderLocked n)) with term.
    destruct (decide (w = v)) as [->|Hne]; [by rewrite fn_lookup_insert|]. rewrite fn_lookup_insert_ne by done.
    apply Ht. rewrite Ho. rewrite <-(cc_peers _ _ cfg_ok v Hv) in Hw. by apply elem_of_cons in Hw as [|].
  - intros p Hp. cbn [BecomeLeaderLocked set_progress rn_next_index rn_config set_leader_id set_role].
    change (rn_config n) with (rn_config (sys_nodes s v)). rewrite Hcfg. by rewrite foldl_insert_lookup.
  - eapply env_after_trans; [apply env_after_node|]. eapply env_after_trans; [exact Henv|apply env_after_node].
Qed.

Lemma electable_after v Q s s' :
  wire_ok (sys_wire s) → env_after s s' → (∀ w, sys_nodes s' w = sys_nodes s w) →
  electable v Q s → electable v Q s'.
Proof.
  intros Hok Henv Hn []. split; rewrite ?Hn; try done.
  - destruct (ea_time _ _ Henv) as [k Ht]. intros i. by rewrite Ht.
  - intros w Hw. rewrite Hn. auto.
  - intros q req Hq Hreq. eapply voter_after; [done|done|apply Hn|auto].
Qed.

Lemma election_wins v Q order order' s :
  wire_ok (sys_wire s) → v ∈ members → rn_config (sys_nodes s v) = cfg v →
  order ≡ₚ cfg_peers (cfg v) → order' ≡ₚ cfg_peers (cfg v) →
  election_due (sys_time s 0%nat).1 (sys_nodes s v) = true → electable v Q s →
  elected v s (ElectionLoop_pass order order' v s).
Proof.
  intros Hok Hv Hcfg Ho Ho' Hdue Hel.
  destruct (peers_facts members cfg (cc_nodup _ _ cfg_ok) (cc_peers _ _ cfg_ok) v Hv) as (Hpnd & Hvp & Hpm & _).
  unfold ElectionLoop_pass, read_time. destruct (sys_time s 0%nat) as [now timeout] eqn:Et0. cbn [fst sys_nodes] in *. rewrite Hdue.
  set (s1 := mkSys _ _ _). assert (env_after s s1) as Henv1 by (apply env_after_refl; [done|by exists 1%nat]).
  assert (electable v Q s1) as Hel1 by (by eapply electable_after).
  assert (∃ pre, StartElection_pre (sys_nodes s v) = Some pre ∧ rv_pre_vote pre = true ∧
    rn_current_term (sys_nodes s v) <= rv_term pre) as (pre & Epre & Hpre & Htp).
  { unfold StartElection_pre. rewrite bool_decide_eq_false_2 by apply Hel. eexists. split; [done|]. split; [done|].
    cbn [rv_term]. destruct (el_term _ _ _ Hel). unfold u64. rewrite Z.mod_small by lia. lia. }
  unfold StartElection. cbn [sys_nodes s1]. rewrite Epre. cbn zeta. unfold WinVoteRound at 1. destruct (foldl _ _ _) as [votes s2] eqn:E.
  destruct (pre_round v Q pre (rv_term pre) order 1 s1 votes s2) as (Hn2 & Henv2 & Hc2); try done.
  { by rewrite Ho. }
  { intros p Hp. rewrite Ho in Hp. apply (el_terms _ _ _ Hel), Hpm, Hp. }
  { intros q Hq. by apply (el_voters _ _ _ Hel1). }
  rewrite Hn2. assert (WinVoteRound_result votes (sys_nodes s1 v) = true) as ->.
  { apply Z.leb_le. pose proof (el_majority _ _ _ Hel1).
    pose proof (votes_of_all Q order (el_nodup _ _ _ Hel) ltac:(rewrite Ho; apply Hel)). lia. }
  unfold read_time. destruct (sys_time s2 0%nat) as [now2 timeout2] eqn:Et2. cbn [sys_nodes].
  set (s3 := mkSys _ _ _). assert (env_after s2 s3) as Henv3 by (apply env_after_refl; [done|by exists 1%nat]).
  assert (env_after s s3) as Henv by (by eapply env_after_trans; [eapply env_after_trans|]).
  assert (electable v Q s3) as Hel3 by (by eapply electable_after).
  destruct (real_election v Q order' pre s3 now2 timeout2) as (n & req & Eb & s4 & Ew & Hed); try done.
  { by apply Henv. }
  { cbn [sys_nodes s3]. by rewrite Hn2. }
  { cbn [sys_nodes s3]. rewrite Hn2. cbn [sys_nodes s1]. rewrite <-Hcfg.
    destruct (ea_time _ _ Henv1) as [k1 H1]. destruct (ea_time _ _ Henv2) as [k2 H2].
    pose proof (el_contact _ _ _ Hel (k1 + (k2 + 0))%nat) as Hcon. rewrite <-H1, <-H2, Et2 in Hcon. exact Hcon. }
  { cbn [sys_nodes s3]. by rewrite Hn2. }
  cbn [sys_nodes s3] in Eb. rewrite Eb, Ew. destruct Hed as [H1 H2 H3 H4 H5 H6]. cbn [sys_nodes s3] in H2, H3, H5. rewrite Hn2 in H2, H3, H5.
  split; try done. by eapply env_after_trans.
Qed.

(** ** Replication *)

Notation tracked := (tracked members cfg now0 timeout0).

(** [v] leads [term] with the log [l], the last entry of which is of that term, and
    commits what it can; [Q] are peers it is connected to. *)
Record leads (v : bytes) (term : Z) (l : list LogEntry) (Q : list bytes) s : Prop := {
  ls_tracked : tracked s;
  ls_role : rn_role (sys_nodes s v) = kLeader;
  ls_term : rn_current_term (sys_nodes s v) = term;
  ls_log : rn_log (sys_nodes s v) = l;
  ls_own : term_at l (length l) = term;
  ls_terms : ∀ w, w ∈ members → rn_current_term (sys_nodes s w) <= term;
  ls_connected : ∀ q, q ∈ Q → connected (sys_wire s) v q;
  ls_commit : commit_done (sys_nodes s v);
}.

Definition next_of (v p : bytes) s : Z := default 0 (rn_next_index (sys_nodes s v) !! p).
Definition match_of (v p : bytes) s : Z := default 0 (rn_match_index (sys_nodes s v) !! p).

Lemma tracked_node s v :
  tracked s → v ∈ members → ∃ a, RaftSpec.Inv members a ∧ NodeOk members cfg a v (sys_nodes s v).
Proof. intros (cl & Hr & Hs & _ & _) Hv. rewrite <-Hs. by eapply reached_node. Qed.

Lemma tracked_log s v :
  tracked s → v ∈ members → indexed (rn_log (sys_nodes s v)) ∧ Zlen (rn_log (sys_nodes s v)) + 1 < 2 ^ 64.
Proof. intros Ht Hv. destruct (tracked_node s v Ht Hv) as (a & HI & HN). split; [by eapply NodeOk_indexed|apply HN]. Qed.

Lemma tracked_progress s v p :
  tracked s → v ∈ members → p ∈ cfg_peers (cfg v) → rn_role (sys_nodes s v) = kLeader →
  rn_next_index (sys_nodes s v) !! p = Some (next_of v p s) ∧ 1 <= next_of v p s <= Zlen (rn_log (sys_nodes s v)) + 1 ∧
  0 <= match_of v p s <= Zlen (rn_log (sys_nodes s v)).
Proof.
  intros Ht Hv Hp Hr. destruct (tracked_node s v Ht Hv) as (a & HI & HN). destruct (no_lead _ _ _ _ _ HN Hr) as (_ & _ & Hpeers).
  destruct (Hpeers p Hp) as ((nx & Enx & ?) & m & Em & ? & _). unfold next_of, match_of. by rewrite Enx, Em.
Qed.

Lemma replicate_request s v p :
  tracked s → v ∈ members → p ∈ cfg_peers (cfg v) → rn_role (sys_nodes s v) = kLeader →
  ∃ req, ReplicateTo_request p (rn_current_term (sys_nodes s v)) (sys_nodes s v) = Some req ∧
    ae_term req = rn_current_term (sys_nodes s v) ∧ ae_prev_log_index req = next_of v p s - 1 ∧
    ae_prev_log_index req + Zlen (ae_entries req) = Zlen (rn_log (sys_nodes s v)).
Proof.
  intros Ht Hv Hp Hr. destruct (tracked_progress s v p Ht Hv Hp Hr) as (Enx & Hnx & _).
  destruct (tracked_log s v Ht Hv) as [Hi Hb]. unfold ReplicateTo_request.
  rewrite bool_decide_eq_true_2, Z.eqb_refl, Enx by done. cbn [orb negb]. eexists. split; [done|].
  cbn [ae_term ae_prev_log_index ae_entries]. rewrite LastLogIndex_length, log_slice, length_drop by done.
  unfold u64. rewrite Z.mod_small by lia. split_and!; [done|done|lia].
Qed.

(** What the leader makes of a reply: all is matched and committed if it can be, or
    the peer will be sent more. *)
Lemma ReplicateTo_reply_spec v p req resp s n term l :
  tracked s → v ∈ members → p ∈ cfg_peers (cfg v) → sys_nodes s v = n → rn_role n = kLeader →
  rn_current_term n = term → rn_log n = l → term_at l (length l) = term → commit_done n →
  aer_term resp = term → ae_prev_log_index req + Zlen (ae_entries req) = Zlen l →
  let n' := ReplicateTo_reply p term req resp n in
  rn_role n' = kLeader ∧ rn_current_term n' = term ∧ rn_log n' = l ∧ commit_done n' ∧
  (∀ q, q ≠ p → rn_next_index n' !! q = rn_next_index n !! q ∧ rn_match_index n' !! q = rn_match_index n !! q) ∧
  (if aer_success resp then rn_match_index n' !! p = Some (Zlen l)
   else rn_match_index n' !! p = rn_match_index n !! p ∧
        rn_next_index n' !! p = Some (if aer_conflict_index resp =? 0 then 1 else aer_conflict_index resp)).
Proof.
  intros Ht Hv Hp En Hr Hterm Hl Hown Hcd Hresp Hlen. cbn zeta. unfold ReplicateTo_reply.
  rewrite Hterm, Z.eqb_refl, bool_decide_eq_true_2, Hresp, Z.ltb_irrefl by done. cbn [orb negb].
  destruct (tracked_log s v Ht Hv) as [Hi Hb]. rewrite En, ?Hl in Hi, Hb.
  destruct (aer_success resp).
  2:{ split_and!; try done; cbn [rn_next_index rn_match_index set_progress]; [|by rewrite lookup_insert_eq].
      intros q Hq. by rewrite lookup_insert_ne. }
  pose proof (tracked_progress s v p Ht Hv Hp ltac:(by rewrite En)) as (_ & _ & Hm).
  unfold match_of in Hm. rewrite En, Hl in Hm. unfold u64. rewrite Hlen, (Z.mod_small (Zlen l)), Z.max_r by lia.
  set (n1 := set_progress _ _ n). destruct (tracked_node s v Ht Hv) as (a & HI & HN).
  assert (commit_done (AdvanceCommitLocked n1)) as Hcd1.
  { apply AdvanceCommit_done; change (rn_log n1) with (rn_log n); rewrite ?Hl; [done| |].
    - destruct (no_commit _ _ _ _ _ HN) as [? _]. rewrite En, Hl in *. change (rn_commit_index n1) with (rn_commit_index n). lia.
    - change (rn_current_term n1) with (rn_current_term n). rewrite Hterm, TermAt_term_at. change (rn_log n1) with (rn_log n). by rewrite Hl. }
  destruct (AdvanceCommit_frame n1) as (c & la & ap & E). rewrite E in *. split_and!; try done; cbn.
  - intros q Hq. by rewrite !lookup_insert_ne.
  - by rewrite lookup_insert_eq.
Qed.

(** A pass of the thread for [p]: the peer comes to hold the leader's log, or at
    least the leader goes back in it for the next pass. *)
Lemma replicate_pass v term l Q s p :
  v ∈ members → p ∈ cfg_peers (cfg v) → leads v term l Q s →
  let s' := ReplicationLoop_pass v p s in
  leads v term l Q s' ∧ (∀ q, q ≠ p → next_of v q s' = next_of v q s ∧ match_of v q s' = match_of v q s) ∧
  match_of v p s <= match_of v p s' ∧
  (p ∈ Q → match_of v p s' = Zlen l ∨ next_of v p s' < next_of v p s).
Proof.
  intros Hv Hp [Htr Hr Hterm Hl Hown Hterms HQ Hcd]. cbn zeta.
  pose proof (run_turn_tracked members cfg cfg_ok now0 timeout0 s (Replicates v p) Htr (conj Hv Hp)) as Htr'. cbn [run_turn] in Htr'.
  destruct (peers_facts members cfg (cc_nodup _ _ cfg_ok) (cc_peers _ _ cfg_ok) v Hv) as (_ & Hvp & Hpm & _).
  assert (v ≠ p) as Hne by congruence. assert (wire_ok (sys_wire s)) as Hok by (by destruct Htr as (? & _ & _ & _ & ?)).
  destruct (replicate_request s v p Htr Hv Hp Hr) as (req & Ereq & Hat & Hprev & Hlen). rewrite Hterm in Ereq, Hat. rewrite Hl in Hlen.
  destruct (tracked_log s p Htr (Hpm p Hp)) as [Hip Hbp]. pose proof (Hterms p (Hpm p Hp)) as Htp.
  unfold ReplicationLoop_pass, ReplicateTo in *. rewrite bool_decide_eq_true_2, Hterm, Ereq in Htr' |- * by done.
  destruct (SendAppendEntries v p req s) as [r s1] eqn:E.
  destruct (SendAppendEntries_sound _ _ _ _ _ _ Hok E) as (Hcall & _ & Hok1).
  assert (∀ q, q ∈ Q → connected (sys_wire s1) v q) as HQ1
    by (intros q Hq; eapply SendAppendEntries_connected; [exact Hok|exact E|auto]).
  assert ((∀ w, w ≠ p → sys_nodes s1 w = sys_nodes s w) ∧ rn_current_term (sys_nodes s1 p) <= term) as [Hn Hp1].
  { destruct Hcall as [[_ Hn]|(now & timeout & n & resp & Eh & Hn & _)]; [split; [done|by rewrite Hn]|].
    split; [intros w Hw; by rewrite Hn, fn_lookup_insert_ne|]. rewrite Hn, fn_lookup_insert.
    apply HandleAppendEntries_answer in Eh as (-> & _ & _); [lia|lia|done|done]. }
  assert (∀ w, w ∈ members → rn_current_term (sys_nodes s1 w) <= term) as Hterms1.
  { intros w Hw. destruct (decide (w = p)) as [->|]; [done|]. rewrite Hn by done. auto. }
  destruct r as [resp|].
  2:{ split_and!.
    - split; rewrite ?Hn by done; done.
    - intros q _. unfold next_of, match_of. by rewrite Hn.
    - unfold match_of. rewrite Hn by done. lia.
    - intros HpQ. by destruct (SendAppendEntries_answered _ _ _ _ _ _ Hok (HQ p HpQ) E) as (? & ? & _ & ? & _). }
  assert (aer_term resp = term) as Hresp.
  { destruct Hcall as [[? _]|(now & timeout & n & resp' & Eh & _ & Hrr)]; [done|]. rewrite (Hrr _ eq_refl).
    apply HandleAppendEntries_answer in Eh as (_ & -> & _); [done|lia|done|done]. }
  destruct (ReplicateTo_reply_spec v p req resp s (sys_nodes s v) term l) as (H1 & H2 & H3 & H4 & H5 & H6); try done.
  rewrite Hn in Htr' |- * by done. set (n' := ReplicateTo_reply p term req resp (sys_nodes s v)) in *. clearbody n'.
  pose proof (tracked_progress s v p Htr Hv Hp Hr) as (_ & Hnx & Hm). rewrite Hl in Hm.
  assert (sys_nodes (set_node v n' s1) v = n') as Env by (cbn [sys_nodes set_node]; by rewrite fn_lookup_insert).
  split_and!.
  - split; rewrite ?Env; try done. intros w Hw. destruct (decide (w = v)) as [->|]; [by rewrite Env, H2|].
    cbn [sys_nodes set_node]. rewrite fn_lookup_insert_ne by done. auto.
  - intros q Hq. unfold next_of, match_of. rewrite Env. by destruct (H5 q Hq) as [-> ->].
  - unfold match_of in *. rewrite Env. destruct (aer_success resp); [rewrite H6; cbn; lia|]. destruct H6 as [-> _]. lia.
  - intros HpQ. destruct (SendAppendEntries_answered _ _ _ _ _ _ Hok (HQ p HpQ) E) as (n & resp' & Eh & [= <-] & _).
    apply HandleAppendEntries_answer in Eh as (_ & _ & Hcf); [|lia|done|done].
    unfold match_of, next_of at 1. rewrite Env. destruct (aer_success resp); [left; by rewrite H6|]. right.
    destruct H6 as [_ ->]. specialize (Hcf eq_refl). destruct (Z.eqb_spec (aer_conflict_index resp) 0); cbn [from_option id]; lia.
Qed.

(** Enough passes for each peer of [Q], with passes for others in between. *)
Lemma replicate_passes v term l Q rounds s :
  v ∈ members → Forall (.∈ cfg_peers (cfg v)) rounds → leads v term l Q s → Q ⊆ cfg_peers (cfg v) →
  (∀ q, q ∈ Q → match_of v q s = Zlen l ∨ next_of v q s <= Zlen (filter (q =.) rounds)) →
  let s' := foldl (λ s p, ReplicationLoop_pass v p s) s rounds in
  leads v term l Q s' ∧ ∀ q, q ∈ Q → match_of v q s' = Zlen l.
Proof.
  intros Hv Hrounds. revert s. induction rounds as [|p rounds IH]; intros s Hls HQp HQ; cbn zeta.
  { split; [done|]. intros q Hq. destruct (HQ q Hq) as [?|Hle]; [done|]. cbn in Hle.
    pose proof (tracked_progress s v q (ls_tracked _ _ _ _ _ Hls) Hv (HQp q Hq) (ls_role _ _ _ _ _ Hls)) as (_ & ? & _). lia. }
  apply list.Forall_cons in Hrounds as [Hp Hrounds].
  destruct (replicate_pass v term l Q s p Hv Hp Hls) as (Hls' & Hother & Hmono & Hprog).
  cbn [foldl]. apply IH; [done|done|done|]. intros q Hq.
  pose proof (tracked_progress _ v q (ls_tracked _ _ _ _ _ Hls') Hv (HQp q Hq) (ls_role _ _ _ _ _ Hls')) as (_ & _ & Hm).
  rewrite (ls_log _ _ _ _ _ Hls') in Hm. specialize (HQ q Hq). rewrite filter_cons in HQ.
  destruct (decide (q = p)) as [->|Hne].
  - destruct HQ as [?|HQ]; [left; lia|]. destruct (Hprog Hq) as [?|?]; [by left|]. right. cbn [length] in HQ. lia.
  - by destruct (Hother q Hne) as [-> ->].
Qed.

(** With a majority the whole log is applied. *)
Lemma leads_applied v term l Q s :
  v ∈ members → leads v term l Q s → NoDup Q → Q ⊆ cfg_peers (cfg v) → MajorityLocked (sys_nodes s v) <= 1 + Zlen Q →
  (∀ q, q ∈ Q → match_of v q s = Zlen l) → 0 < Zlen l →
  rn_applied (sys_nodes s v) = l ∧ WaitApplied_check (Zlen l) term (sys_nodes s v) = Some Ok.
Proof.
  intros Hv [Htr Hr Hterm Hl Hown _ _ Hcd] Hnd HQp Hmaj HQ Hpos. destruct (tracked_node s v Htr Hv) as (a & HI & HN).
  destruct (no_commit _ _ _ _ _ HN) as (_ & Hla & Hap & _).
  assert (rn_commit_index (sys_nodes s v) = Zlen l) as Hc.
  { rewrite <-Hl. apply Hcd. rewrite Hl. etrans; [exact Hmaj|]. unfold replica_count. rewrite (no_config _ _ _ _ _ HN).
    apply Z.add_le_mono_l, Nat2Z.inj_le, submseteq_length, NoDup_submseteq; [done|]. intros q Hq.
    apply list_elem_of_filter. split; [|by apply HQp]. unfold peer_has. specialize (HQ q Hq). unfold match_of in HQ.
    destruct (rn_match_index (sys_nodes s v) !! q); cbn in HQ; [apply Z.leb_le; lia|lia]. }
  split; [by rewrite Hap, Hc, Hl, firstn_all2 by lia|].
  unfold WaitApplied_check. rewrite Hla, Hc, Z.ltb_irrefl, TermAt_term_at, Hl, Hown, Z.eqb_refl. done.
Qed.

(** ** Proposals *)

Lemma propose_leads v command Q s :
  v ∈ members → tracked s → rn_role (sys_nodes s v) = kLeader → Zlen (rn_log (sys_nodes s v)) + 2 < 2 ^ 64 →
  (∀ w, w ∈ members → rn_current_term (sys_nodes s w) <= rn_current_term (sys_nodes s v)) →
  (∀ q, q ∈ Q → connected (sys_wire s) v q) →
  let l := rn_log (sys_nodes s v) in
  let e := mkLogEntry (rn_current_term (sys_nodes s v)) (Zlen l + 1) command in
  let '(r, s') := propose_at v command s in
  r = FromValue (Zlen l + 1) ∧ leads v (rn_current_term (sys_nodes s v)) (l ++ [e]) Q s' ∧
  rn_config (sys_nodes s' v) = rn_config (sys_nodes s v) ∧ ∀ p, next_of v p s' = next_of v p s.
Proof.
  intros Hv Htr Hr Hb Hterms HQ. cbn zeta. destruct (tracked_log s v Htr Hv) as [Hi _].
  pose proof (run_turn_tracked members cfg cfg_ok now0 timeout0 s (Proposes v command) Htr (conj Hv Hb)) as Htr'. cbn [run_turn] in Htr'.
  unfold propose_at in *. destruct (Propose command (sys_nodes s v)) as [r n] eqn:E. cbn [snd] in Htr'. revert E. unfold Propose.
  rewrite bool_decide_eq_true_2, LastLogIndex_length by done. cbn [negb le_index]. unfold u64. rewrite Z.mod_small by lia.
  set (e := mkLogEntry _ _ command). set (n1 := AppendEntry e _). intros [= <- <-]. split; [done|].
  assert (rn_log n1 = rn_log (sys_nodes s v) ++ [e]) as El by done.
  destruct (tracked_node s v Htr Hv) as (a & HI & HN). destruct (no_commit _ _ _ _ _ HN) as [Hc _].
  assert (term_at (rn_log (sys_nodes s v) ++ [e]) (length (rn_log (sys_nodes s v) ++ [e])) = rn_current_term (sys_nodes s v)) as Hown.
  { rewrite length_app, Nat.add_1_r. cbn [term_at]. by rewrite lookup_app_r, Nat.sub_diag by lia. }
  assert (commit_done (AdvanceCommitLocked n1)) as Hcd.
  { apply AdvanceCommit_done; rewrite ?El.
    - apply indexed_app; [done|]. intros [|i] e' [= <-]. cbn [le_index e]. lia.
    - change (rn_commit_index n1) with (rn_commit_index (sys_nodes s v)). rewrite length_app. lia.
    - rewrite TermAt_term_at, El. exact Hown. }
  destruct (AdvanceCommit_frame n1) as (c & la & ap & Ef). rewrite Ef in *.
  assert (sys_nodes (set_node v (set_commit c la ap n1) s) v = set_commit c la ap n1) as Env
    by (cbn [sys_nodes set_node]; by rewrite fn_lookup_insert).
  split; [|split; [by rewrite Env|intros p; unfold next_of; by rewrite Env]].
  split; rewrite ?Env; try done. intros w Hw. destruct (decide (w = v)) as [->|]; [by rewrite Env|].
  cbn [sys_nodes set_node]. rewrite fn_lookup_insert_ne by done. auto.
Qed.

(** C8: Raft makes progress.  Take a node that is not leader and whose election is
    due, with the highest term of the group, connected to enough peers to form a
    majority with it.  None of these peers is leader or has a log ahead of the
    node's, and neither they nor the node heard from a leader within their
    [election_min] at the readings of the clock to come (so that the trial round
    succeeds).  Then the node becomes leader in one pass of its election thread.  A
    command proposed to it then is accepted and, after as many passes of the
    replication threads of these peers as its log has entries, whatever passes lie
    in between and whatever the peers' logs hold, it is applied, and the client that
    waits for it is told so.  (A pass is what the loop does when its thread is awake,
    here without interruption; RaftThreads.v is about when it is awake.) *)
Theorem raft_available v Q order order' command rounds s :
  tracked s → v ∈ members → order ≡ₚ cfg_peers (cfg v) → order' ≡ₚ cfg_peers (cfg v) →
  election_due (sys_time s 0%nat).1 (sys_nodes s v) = true → electable v Q s →
  Forall (.∈ cfg_peers (cfg v)) rounds →
  let l := rn_log (sys_nodes s v) in
  Zlen l + 2 < 2 ^ 64 → (∀ q, q ∈ Q → Zlen l + 1 <= Zlen (filter (q =.) rounds)) →
  let term := rn_current_term (sys_nodes s v) + 1 in
  let s1 := ElectionLoop_pass order order' v s in
  let '(r, s2) := propose_at v command s1 in
  let s3 := foldl (λ s p, ReplicationLoop_pass v p s) s2 rounds in
  rn_role (sys_nodes s1 v) = kLeader ∧ rn_current_term (sys_nodes s1 v) = term ∧ r = FromValue (Zlen l + 1) ∧
  rn_applied (sys_nodes s3 v) = l ++ [mkLogEntry term (Zlen l + 1) command] ∧
  WaitApplied_check (Zlen l + 1) term (sys_nodes s3 v) = Some Ok.
Proof.
  intros Htr Hv Ho Ho' Hdue Hel Hrounds. cbn zeta. intros Hb HQ.
  assert (wire_ok (sys_wire s)) as Hok by (by destruct Htr as (? & _ & _ & _ & ?)).
  destruct (tracked_node s v Htr Hv) as (a & HI & HN). destruct (tracked_log s v Htr Hv) as [Hi _].
  destruct (election_wins v Q order order' s Hok Hv (no_config _ _ _ _ _ HN) Ho Ho' Hdue Hel) as [Hr1 Ht1 Hl1 Hts1 Hnx1 Henv1].
  assert (tracked (ElectionLoop_pass order order' v s)) as Htr1.
  { apply (run_turn_tracked members cfg cfg_ok now0 timeout0 s (Elects v order order') Htr).
    split_and!; [done|done|done|apply Hel]. }
  set (s1 := ElectionLoop_pass order order' v s) in *.
  assert (∀ q, q ∈ Q → connected (sys_wire s1) v q) as HQ1.
  { intros q Hq. apply (ea_connected _ _ Henv1 Hok). unfold StartElection_pre in *.
    eapply (el_voters _ _ _ Hel q); [done|]. unfold StartElection_pre. by rewrite bool_decide_eq_false_2 by apply Hel. }
  pose proof (propose_leads v command Q s1 Hv Htr1 Hr1 ltac:(by rewrite Hl1) Hts1 HQ1) as Hprop. cbn zeta in Hprop.
  destruct (propose_at v command s1) as [r s2]. rewrite Hl1, Ht1 in Hprop. destruct Hprop as (-> & Hls2 & Hcfg2 & Hnx2).
  set (e := mkLogEntry _ _ command) in *.
  destruct (replicate_passes v _ _ Q rounds s2 Hv Hrounds Hls2 (el_peers _ _ _ Hel)) as [Hls3 Hm3].
  { intros q Hq. right. rewrite Hnx2. unfold next_of. rewrite Hnx1 by (by apply (el_peers _ _ _ Hel)). cbn [from_option id].
    rewrite LastLogIndex_length by done. unfold u64. rewrite Z.mod_small by lia. auto. }
  split; [done|]. split; [done|]. split; [done|].
  assert (Zlen (rn_log (sys_nodes s v) ++ [e]) = Zlen (rn_log (sys_nodes s v)) + 1) as <- by (rewrite length_app; cbn; lia).
  eapply leads_applied; [done|exact Hls3|apply Hel|apply Hel| |exact Hm3|rewrite length_app; cbn; lia].
  destruct (tracked_node _ v (ls_tracked _ _ _ _ _ Hls3) Hv) as (a' & _ & HN').
  pose proof (el_majority _ _ _ Hel) as Hmaj. unfold MajorityLocked in *.
  by rewrite (no_config _ _ _ _ _ HN'), <-(no_config _ _ _ _ _ HN).
Qed.
End progress.

(** ** A run

    The three nodes of RaftTransport.v, [c] being down. *)

Lemma demo_electable : electable run_members run_cfg run_a [run_b] demo_sys.
Proof.
  split.
  - done.
  - intros i. cbn. lia.
  - vm_compute. split; [discriminate|reflexivity].
  - apply Forall_forall. repeat constructor; vm_compute; discriminate.
  - apply NoDup_singleton.
  - apply (bool_decide_unpack _). vm_compute. reflexivity.
  - intros q req ->%list_elem_of_singleton [= <-]. split.
    + apply (bool_decide_unpack (_ ∧ _ ∧ _)). vm_compute. reflexivity.
    + done.
    + reflexivity.
    + intros i. cbn. lia.
  - vm_compute. discriminate.
Qed.

Lemma raft_available_witness :
  let s1 := ElectionLoop_pass [run_b; run_c] [run_c; run_b] run_a demo_sys in
  let s2 := (propose_at run_a (lit "x") s1).2 in
  let s3 := foldl (λ s p, ReplicationLoop_pass run_a p s) s2 [run_c; run_b; run_c] in
  rn_role (sys_nodes s1 run_a) = kLeader ∧ WaitApplied_check 1 1 (sys_nodes s3 run_a) = Some Ok.
Proof.
  cbn zeta.
  pose proof (raft_available run_members run_cfg run_cfg_ok (λ _, 0) (λ _, 10) run_a [run_b]
    [run_b; run_c] [run_c; run_b] (lit "x") [run_c; run_b; run_c] demo_sys) as Hav.
  cbn zeta in Hav. destruct (propose_at run_a (lit "x") _) as [r s2].
  destruct Hav as (Hr & _ & _ & _ & Hw).
  - apply sys_init_tracked, demo_wire_ok.
  - apply run_member_a.
  - apply (bool_decide_unpack _). vm_compute. reflexivity.
  - apply (bool_decide_unpack _). vm_compute. reflexivity.
  - reflexivity.
  - apply demo_electable.
  - apply (bool_decide_unpack _). vm_compute. reflexivity.
  - vm_compute. reflexivity.
  - intros q ->%list_elem_of_singleton. vm_compute. discriminate.
  - split; [exact Hr|exact Hw].
Defined.
