(* ===== verification/RaftThreads.v ===== *)
(** * The threads of a Raft node

    [RaftNode::Start], [Stop], [ElectionLoop] and [ReplicationLoop]
    ([src/consensus/raft_node.cc]) at the granularity at which the mutex [mu_], the
    condition variable [cv_] and the atomic flag [running_] interleave.  The steps
    between which another thread may run are: taking [mu_], reading [running_] at
    the head of a loop, evaluating the predicate of [cv_.wait], blocking (which
    releases [mu_] in the same step), waking up, the calls made without the lock,
    and the three stages of [Stop]: [running_.exchange(false)], [notify_all] and
    the joins.  Everything else that takes [mu_] (the RPC handlers, [Propose], the
    critical sections of [StartElection], [WinVoteRound] and [ReplicateTo]) is one
    step, the function of RaftNode.v together with whether it calls
    [cv_.notify_all].

    The theorems: while a node leads, its replication threads are awake; [Stop]
    returns, with every thread ended, from every state after its notification in
    which no loop is asleep or has decided to sleep; and two states that break what
    the loops mean to do: a loop that had decided to sleep when [Stop] notified
    sleeps on and [Stop] never returns, and a leader deposed by a request keeps its
    election thread asleep. *)

From stdpp Require Import base gmap numbers list.
From Stdlib Require Import ZArith Lia.
From S2P Require Import Prelude Status RaftStorage RaftNode RaftProgress.

Local Open Scope Z_scope.

(** ** Critical sections *)

(** [RoleName] *)
Definition RoleName (role : Role) : bytes :=
  match role with
  | kFollower => lit "follower"
  | kCandidate => lit "candidate"
  | kLeader => lit "leader"
  end.

(** What takes [mu_] besides the loops; the arguments as in RaftNode.v. *)
Inductive Section_ :=
| SHandleRequestVote (now timeout : Z) (req : RequestVoteRequest)
| SHandleAppendEntries (now timeout : Z) (req : AppendEntriesRequest)
| SPropose (command : bytes)
| SElectionBegin (now timeout would_be_term : Z)
| SVoteReply (pre_vote : bool) (term : Z) (resp : RequestVoteResponse) (votes : Z)
| SElectionWin (term : Z)
| SReplicateReply (peer : bytes) (term : Z) (req : AppendEntriesRequest) (resp : AppendEntriesResponse)
| SRead.   (** the getters, [StartElection_pre] and [ReplicateTo_request] change nothing *)

Definition section (a : Section_) (n : RaftNode) : RaftNode :=
  match a with
  | SHandleRequestVote now timeout req => (HandleRequestVote now timeout req n).1
  | SHandleAppendEntries now timeout req => (HandleAppendEntries now timeout req n).1
  | SPropose command => (Propose command n).2
  | SElectionBegin now timeout term => from_option fst n (StartElection_begin now timeout term n)
  | SVoteReply pre_vote term resp votes => (WinVoteRound_reply pre_vote term resp votes n).1
  | SElectionWin term => StartElection_win term n
  | SReplicateReply peer term req resp => ReplicateTo_reply peer term req resp n
  | SRead => n
  end.

(** Whether the section reaches a [cv_.notify_all]: [ApplyCommittedLocked] does when
    it is called, from [HandleAppendEntries] if the request commits more and from
    [AdvanceCommitLocked] if it found an index to commit; [Propose] on a leader,
    [BecomeLeaderLocked] and the step-downs of [WinVoteRound] and [ReplicateTo] do;
    [HandleRequestVote] and the start of an election do not. *)
Definition notifies (a : Section_) (n : RaftNode) : bool :=
  match a with
  | SHandleRequestVote _ _ _ | SElectionBegin _ _ _ | SRead => false
  | SHandleAppendEntries now timeout req =>
      aer_success (HandleAppendEntries now timeout req n).2 && (rn_commit_index n <? ae_leader_commit req)
  | SPropose _ => bool_decide (rn_role n = kLeader)
  | SVoteReply _ _ resp _ => rn_current_term n <? rvr_term resp
  | SElectionWin term => bool_decide (rn_role n = kCandidate) && (rn_current_term n =? term)
  | SReplicateReply peer term req resp =>
      bool_decide (rn_role n = kLeader) && (rn_current_term n =? term) &&
      ((rn_current_term n <? aer_term resp) ||
       negb (rn_commit_index (ReplicateTo_reply peer term req resp n) =? rn_commit_index n))
  end.

(** The getters: [role()], [is_leader()], [current_term()], [leader_id()],
    [commit_index()], [last_log_index()]. *)
Definition role (n : RaftNode) : Role := rn_role n.
Definition is_leader (n : RaftNode) : bool := bool_decide (role n = kLeader).
Definition current_term (n : RaftNode) : Z := rn_current_term n.
Definition leader_id (n : RaftNode) : bytes := rn_leader_id n.
Definition commit_index (n : RaftNode) : Z := rn_commit_index n.
Definition last_log_index (n : RaftNode) : Z := LastLogIndexLocked n.

(** ** The loops *)

Inductive Loop := Election | Replication (peer : bytes).

(** Where a thread stands.  It holds [mu_] at [Testing], [Predicate], [ToSleep] and
    [ToNap]. *)
Inductive Pc :=
| Locking               (** about to take [mu_] before the head of the loop *)
| Testing               (** at [while (running_.load())] *)
| Predicate             (** about to evaluate the predicate of [cv_.wait] *)
| ToSleep               (** the predicate was false: about to block *)
| Asleep                (** blocked in [cv_.wait] *)
| Relocking             (** woken up inside [cv_.wait]: takes [mu_], then the predicate again *)
| ToNap (deadline : Z)  (** about to block in [cv_.wait_until] or [cv_.wait_for] *)
| Napping (deadline : Z)
| Working               (** without the lock, in [StartElection] or [ReplicateTo] *)
| Worked                (** [ReplicateTo] returned: takes [mu_], then waits for the heartbeat *)
| Exited.

#[global] Instance Pc_eq_dec : EqDecision Pc.
Proof. solve_decision. Defined.

Definition holds (pc : Pc) : bool :=
  match pc with Testing | Predicate | ToSleep | ToNap _ => true | _ => false end.

(** The role in which a loop waits without a deadline. *)
Definition idle (l : Loop) (n : RaftNode) : bool :=
  match l with
  | Election => bool_decide (rn_role n = kLeader)
  | Replication _ => negb (bool_decide (rn_role n = kLeader))
  end.

(** The body of the loop of a node that runs: to the wait without a deadline, to the
    call made without the lock, or ([ElectionLoop] before its deadline) to the wait
    with one. *)
Definition body (l : Loop) (now : Z) (n : RaftNode) : Pc :=
  if idle l n then Predicate
  else match l with
       | Election => if election_due now n then Working else ToNap (rn_last_activity n + rn_election_timeout n)
       | Replication _ => Working
       end.

(** What [cv_.notify_all] does to a thread. *)
Definition woken (pc : Pc) : Pc :=
  match pc with Asleep => Relocking | Napping _ => Locking | _ => pc end.

(** One step of a thread that is not blocked, given that it can have the lock if it
    wants it. *)
Definition loop_step (heartbeat now : Z) (l : Loop) (running : bool) (n : RaftNode) (pc : Pc) : option Pc :=
  match pc with
  | Locking => Some Testing
  | Testing => Some (if running then body l now n else Exited)
  | Predicate => Some (if running && idle l n then ToSleep else Testing)
  | ToSleep => Some Asleep
  | Relocking => Some Predicate
  | ToNap deadline => Some (Napping deadline)
  | Working => Some (match l with Election => Locking | Replication _ => Worked end)
  | Worked => Some (ToNap (now + heartbeat))
  | Asleep | Napping _ | Exited => None
  end.

(** ** The node *)

(** A call of [Stop]: before [running_.exchange], before [notify_all], joining
    thread [k] (0 is the election thread, the replication threads follow in order),
    returned. *)
Inductive StopPc := Exchanging | Notifying | Joining (k : nat) | StopReturned.

Record Threads := mkThreads {
  th_running : bool;
  th_node : RaftNode;
  th_mu : option nat;                 (** the loop that holds [mu_] *)
  th_loops : list (Loop * Pc);        (** [election_thread_] and [peer_threads_] *)
  th_stops : list StopPc;
}.

Definition set_loops (mu : option nat) (loops : list (Loop * Pc)) (s : Threads) : Threads :=
  mkThreads (th_running s) (th_node s) mu loops (th_stops s).

Definition notify_all (loops : list (Loop * Pc)) : list (Loop * Pc) := map (prod_map id woken) loops.

(** The node before [Start], with the calls of [Stop] that will be made. *)
Definition Threads_new (n : RaftNode) (stops : nat) : Threads :=
  mkThreads false n None [] (replicate stops Exchanging).

(** [Start].  Assigning to [election_thread_] while it is joinable ends the process
    ([None]). *)
Definition Start (s : Threads) : option Threads :=
  match th_loops s with
  | [] => Some (mkThreads true (th_node s) (th_mu s)
                  ((Election, Locking) :: map (λ peer, (Replication peer, Locking)) (cfg_peers (rn_config (th_node s))))
                  (th_stops s))
  | _ => None
  end.

(** One step of the [j]th call of [Stop]. *)
Definition Stop_step (j : nat) (s : Threads) : option Threads :=
  let to pc := <[j := pc]> (th_stops s) in
  match th_stops s !! j with
  | Some Exchanging =>
      Some (mkThreads false (th_node s) (th_mu s) (th_loops s) (to (if th_running s then Notifying else StopReturned)))
  | Some Notifying =>
      Some (mkThreads (th_running s) (th_node s) (th_mu s) (notify_all (th_loops s)) (to (Joining 0)))
  | Some (Joining k) =>
      match th_loops s !! k with
      | Some (_, Exited) => Some (mkThreads (th_running s) (th_node s) (th_mu s) (th_loops s) (to (Joining (S k))))
      | Some _ => None
      | None => Some (mkThreads (th_running s) (th_node s) (th_mu s) [] (to StopReturned))
      end
  | Some StopReturned | None => None
  end.

Inductive Event :=
| Runs (i : nat) (now : Z)     (** loop [i] takes a step *)
| Expires (i : nat) (now : Z)  (** the deadline loop [i] waits for has passed *)
| Spurious (i : nat)           (** loop [i] wakes up without a notification *)
| Enters (a : Section_)        (** another thread takes [mu_] for a critical section *)
| Stops (j : nat).

Definition loop_turn (heartbeat now : Z) (i : nat) (s : Threads) : option Threads :=
  '(l, pc) ← th_loops s !! i;
  pc' ← loop_step heartbeat now l (th_running s) (th_node s) pc;
  let move mu := Some (set_loops mu (<[i := (l, pc')]> (th_loops s)) s) in
  match holds pc, holds pc' with
  | false, true => match th_mu s with None => move (Some i) | Some _ => None end
  | true, false => move None
  | _, _ => move (th_mu s)
  end.

(** One turn of the system; [None] if it cannot be taken. *)
Definition turn (heartbeat : Z) (e : Event) (s : Threads) : option Threads :=
  match e with
  | Runs i now => loop_turn heartbeat now i s
  | Expires i now =>
      '(l, pc) ← th_loops s !! i;
      match pc with
      | Napping deadline =>
          if deadline <=? now then Some (set_loops (th_mu s) (<[i := (l, Locking)]> (th_loops s)) s) else None
      | _ => None
      end
  | Spurious i =>
      '(l, pc) ← th_loops s !! i;
      match pc with
      | Asleep | Napping _ => Some (set_loops (th_mu s) (<[i := (l, woken pc)]> (th_loops s)) s)
      | _ => None
      end
  | Enters a =>
      match th_mu s with
      | Some _ => None
      | None =>
          Some (mkThreads (th_running s) (section a (th_node s)) None
                  (if notifies a (th_node s) then notify_all (th_loops s) else th_loops s) (th_stops s))
      end
  | Stops j => Stop_step j s
  end.

Fixpoint turns (heartbeat : Z) (es : list Event) (s : Threads) : option Threads :=
  match es with
  | [] => Some s
  | e :: es' => s' ← turn heartbeat e s; turns heartbeat es' s'
  end.

(** ** The invariant of the threads *)

(** A section that leaves the node leading either found it leading or notifies. *)
Lemma StepDown_role term n : rn_role (StepDownIfStaleLocked term n) = kLeader → rn_role n = kLeader.
Proof. unfold StepDownIfStaleLocked. by case_match. Qed.

Lemma HandleAppendEntries_role now timeout req n :
  rn_role (HandleAppendEntries now timeout req n).1 = kLeader → rn_role n = kLeader.
Proof.
  unfold HandleAppendEntries. case_match; [done|]. set (n1 := set_timer _ _ _ _).
  assert (rn_role n1 = kFollower) as Hr by done. clearbody n1. repeat (case_match; [cbn; congruence|]).
  destruct (append_entries_frame (ae_entries req) n1 false) as (l & c & ->).
  set (n3 := if c then _ else _). assert (rn_role n3 = kFollower) as Hr3 by (subst n3; by destruct c).
  clearbody n3. case_match; [|cbn; congruence].
  match goal with |- context [ApplyCommittedLocked ?x] => destruct (ApplyCommitted_frame x) as (? & ? & ->) end.
  cbn. congruence.
Qed.

Lemma section_leads a n : rn_role (section a n) = kLeader → rn_role n = kLeader ∨ notifies a n = true.
Proof.
  destruct a as [now t req|now t req|cmd|now t w|pre term resp v|term|peer term req resp|]; cbn [section notifies].
  - unfold HandleRequestVote. intros H. left. repeat case_match; cbn in H; eauto using StepDown_role.
  - intros H. left. eauto using HandleAppendEntries_role.
  - unfold Propose. case_bool_decide; cbn; auto.
  - unfold StartElection_begin. repeat case_match; cbn; auto; done.
  - unfold WinVoteRound_reply. repeat case_match; cbn; auto.
  - unfold StartElection_win. case_match; auto.
  - unfold ReplicateTo_reply. destruct (decide (rn_role n = kLeader)) as [|Hn]; [auto|].
    rewrite (bool_decide_eq_false_2 _ Hn), orb_true_r. auto.
  - auto.
Qed.

Definition active (pc : StopPc) : bool := match pc with Notifying | Joining _ => true | _ => false end.

Record Inv (s : Threads) : Prop := mkInv {
  inv_holds i l pc : th_loops s !! i = Some (l, pc) → holds pc = true ↔ th_mu s = Some i;
  inv_owner i : th_mu s = Some i → is_Some (th_loops s !! i);
  inv_idle i peer pc : th_loops s !! i = Some (Replication peer, pc) → pc = Asleep ∨ pc = ToSleep →
    rn_role (th_node s) ≠ kLeader;
  inv_stop j pc : th_stops s !! j = Some pc → active pc = true →
    th_running s = false ∧ ∀ j' pc', th_stops s !! j' = Some pc' → active pc' = true → j' = j;
  inv_join j k i : th_stops s !! j = Some (Joining k) → (i < k)%nat → ∃ l, th_loops s !! i = Some (l, Exited);
}.

Lemma lookup_notify loops i l pc :
  notify_all loops !! i = Some (l, pc) → ∃ pc0, loops !! i = Some (l, pc0) ∧ pc = woken pc0.
Proof.
  unfold notify_all. rewrite list_lookup_fmap. destruct (loops !! i) as [[l0 pc0]|]; [|done].
  intros [= <- <-]. eauto.
Qed.

Lemma holds_woken pc : holds (woken pc) = holds pc.
Proof. by destruct pc. Qed.

(** Changing loop [i] alone, with the lock it then holds or not. *)
Lemma Inv_loop s i l pc pc' mu :
  Inv s → th_loops s !! i = Some (l, pc) → pc ≠ Exited →
  (pc' = Asleep ∨ pc' = ToSleep → pc = Asleep ∨ pc = ToSleep ∨ idle l (th_node s) = true) →
  (match holds pc, holds pc' with
   | false, true => th_mu s = None ∧ mu = Some i
   | true, false => mu = None
   | _, _ => mu = th_mu s
   end) →
  Inv (set_loops mu (<[i := (l, pc')]> (th_loops s)) s).
Proof.
  intros [Hh Ho Hi Hs Hj] Hl Hne Hsl Hmu. pose proof (lookup_lt_Some _ _ _ Hl) as Hlt.
  pose proof (Hh _ _ _ Hl) as Hhi.
  assert (∀ k, k ≠ i → mu = Some k ↔ th_mu s = Some k) as Hoth.
  { intros k Hk. destruct (holds pc), (holds pc'); subst; try done.
    - destruct Hhi as [Hhi _]. rewrite (Hhi eq_refl). naive_solver.
    - destruct Hmu as [-> ->]. naive_solver. }
  assert (holds pc' = true ↔ mu = Some i) as Hself.
  { destruct (holds pc), (holds pc'); subst; try done. destruct Hmu as [_ ->]. done. }
  split; cbn [set_loops th_loops th_mu th_node th_stops th_running]; [| | |done|].
  - intros k l1 pc1 Hk. apply list_lookup_insert_Some in Hk as [(-> & [= <- <-] & _)|[Hik Hk]]; [done|].
    rewrite Hoth by done. by apply (Hh k l1).
  - intros k Hk. destruct (decide (k = i)) as [->|Hki]; [by rewrite list_lookup_insert_eq|].
    rewrite list_lookup_insert_ne by done. apply Ho. by apply Hoth.
  - intros k peer pc1 Hk Hpc. apply list_lookup_insert_Some in Hk as [(-> & [= -> ->] & _)|[Hik Hk]]; [|by eapply Hi].
    destruct (Hsl Hpc) as [Hx|[Hx|Hx]]; [by eapply Hi; eauto|by eapply Hi; eauto|].
    cbn [idle] in Hx. by case_bool_decide.
  - intros j k i' Hjk Hlt'. destruct (Hj _ _ _ Hjk Hlt') as [l' Hl']. exists l'.
    rewrite list_lookup_insert_ne; [done|]. intros ->. rewrite Hl in Hl'. by inv Hl'.
Qed.

Lemma Inv_Start n stops s : Start (Threads_new n stops) = Some s → Inv s.
Proof.
  intros [= <-]. cbn [Threads_new th_node th_mu th_stops].
  assert (∀ i l pc, ((Election, Locking) :: map (λ peer, (Replication peer, Locking)) (cfg_peers (rn_config n))) !! i
    = Some (l, pc) → pc = Locking) as Hl.
  { intros i l pc H%list_elem_of_lookup_2. apply elem_of_cons in H as [[= -> ->]|H]; [done|].
    by apply list_elem_of_fmap in H as (? & [= -> ->] & _). }
  assert (∀ j pc, replicate stops Exchanging !! j = Some pc → pc = Exchanging) as Hs.
  { intros j pc H. by apply lookup_replicate in H as [-> _]. }
  split; cbn [th_loops th_mu th_node th_stops th_running]; [| |..].
  - intros i l pc ->%Hl. done.
  - done.
  - intros i peer pc ->%Hl [|]; done.
  - intros j pc ->%Hs. done.
  - intros j k i H%Hs. done.
Qed.

(** A notification, and a change of the node while no loop holds the lock. *)
Lemma Inv_notify s n' loops :
  Inv s → (loops = th_loops s ∨ loops = notify_all (th_loops s)) →
  (rn_role n' = kLeader → rn_role (th_node s) = kLeader ∨ (th_mu s = None ∧ loops = notify_all (th_loops s))) →
  Inv (mkThreads (th_running s) n' (th_mu s) loops (th_stops s)).
Proof.
  intros [Hh Ho Hi Hs Hj] Hloops Hr.
  assert (∀ i l pc, loops !! i = Some (l, pc) →
    ∃ pc0, th_loops s !! i = Some (l, pc0) ∧ (pc = pc0 ∧ loops = th_loops s ∨ pc = woken pc0)) as Hback.
  { destruct Hloops as [->| ->]; [by eauto|]. intros i l pc (pc0 & ? & ->)%lookup_notify. eauto. }
  assert (∀ i l pc0, th_loops s !! i = Some (l, pc0) → ∃ pc, loops !! i = Some (l, pc) ∧ (pc0 = Exited → pc = Exited)) as Hfw.
  { destruct Hloops as [->| ->]; [by eauto|]. intros i l pc0 H. exists (woken pc0). unfold notify_all.
    rewrite list_lookup_fmap, H. split; [done|]. by intros ->. }
  split; cbn [th_loops th_mu th_node th_stops th_running]; [| | |done|].
  - intros i l pc (pc0 & H0 & Hpc)%Hback. rewrite <-(Hh _ _ _ H0).
    destruct Hpc as [[-> _]| ->]; [done|]. by rewrite holds_woken.
  - intros i [[l pc0] H]%Ho. destruct (Hfw _ _ _ H) as (pc & -> & _). done.
  - intros i peer pc Hi' Hpc Hlead. destruct (Hback _ _ _ Hi') as (pc0 & H0 & Heq).
    assert (pc0 = Asleep ∨ pc0 = ToSleep) as Hpc0.
    { destruct Heq as [[<- _]| ->]; [done|]. destruct pc0; cbn in Hpc; naive_solver. }
    destruct (Hr Hlead) as [Hl|[Hmu ->]]; [by eapply Hi|].
    apply lookup_notify in Hi' as (pc1 & H1 & ->). rewrite H0 in H1. inv H1.
    destruct Hpc0 as [-> | ->]; [by destruct Hpc|].
    pose proof (proj1 (Hh _ _ _ H0) eq_refl). congruence.
  - intros j k i Hjk Hlt. destruct (Hj _ _ _ Hjk Hlt) as [l Hl]. destruct (Hfw _ _ _ Hl) as (pc & Hpc & He).
    exists l. by rewrite Hpc, He.
Qed.

(** The joins are over: every loop has ended, and none holds the lock. *)
Lemma joined_all s j k :
  Inv s → th_stops s !! j = Some (Joining k) → th_loops s !! k = None →
  Forall (λ '(_, pc), pc = Exited) (th_loops s) ∧ th_mu s = None.
Proof.
  intros HI Ej Ek. apply lookup_ge_None in Ek.
  assert (∀ i l pc, th_loops s !! i = Some (l, pc) → pc = Exited) as Hall.
  { intros i l pc Hi. pose proof (lookup_lt_Some _ _ _ Hi).
    destruct (inv_join _ HI j k i Ej ltac:(lia)) as [l' Hl']. congruence. }
  split.
  - apply Forall_lookup. intros i [l pc] Hi. eauto.
  - destruct (th_mu s) as [i|] eqn:Em; [|done]. destruct (inv_owner _ HI _ Em) as [[l pc] Hl].
    pose proof (Hall _ _ _ Hl) as ->. by pose proof (proj2 (inv_holds _ HI _ _ _ Hl) Em).
Qed.

Lemma Inv_joined s j k :
  Inv s → th_stops s !! j = Some (Joining k) → th_loops s !! k = None →
  Inv (mkThreads false (th_node s) (th_mu s) [] (<[j := StopReturned]> (th_stops s))).
Proof.
  intros HI Ej Ek. destruct (joined_all _ _ _ HI Ej Ek) as [_ ->].
  assert (∀ j' pc, <[j := StopReturned]> (th_stops s) !! j' = Some pc → active pc = false) as Hna.
  { intros j' pc [(<- & <- & _)|[Hne H]]%list_lookup_insert_Some; [done|]. apply not_true_is_false. intros Ha.
    destruct (inv_stop _ HI _ _ Ej eq_refl) as [_ Hu]. by specialize (Hu _ _ H Ha). }
  split; cbn [th_loops th_mu th_node th_stops th_running]; [done..| |].
  - intros j' pc H%Hna. congruence.
  - intros j' k' i H%Hna. done.
Qed.

(** Moving one call of [Stop] on. *)
Lemma Inv_set_stop s j pc pc' loops :
  Inv s → th_stops s !! j = Some pc → Inv (mkThreads false (th_node s) (th_mu s) loops (th_stops s)) →
  (active pc' = true → active pc = true ∨ th_running s = true) →
  (∀ k i, pc' = Joining k → (i < k)%nat → ∃ l, loops !! i = Some (l, Exited)) →
  Inv (mkThreads false (th_node s) (th_mu s) loops (<[j := pc']> (th_stops s))).
Proof.
  intros HI Ej [Hh Ho Hi Hs Hj] Hact Hjoin.
  assert (active pc' = true → ∀ j' pc0, th_stops s !! j' = Some pc0 → active pc0 = true → j' = j) as Huniq.
  { intros Ha j' pc0 H0 Ha0. destruct (Hact Ha) as [Hp|Hrun].
    - destruct (inv_stop _ HI _ _ Ej Hp) as [_ Hu]. by eapply Hu.
    - destruct (inv_stop _ HI _ _ H0 Ha0) as [Hf _]. congruence. }
  split; cbn [th_loops th_mu th_node th_stops th_running] in *; [done..| |].
  - intros j' pc0 H0 Ha. split; [done|]. intros j2 pc2 H2 Ha2.
    apply list_lookup_insert_Some in H0 as [(<- & <- & _)|[Hne H0]],
      H2 as [(<- & <- & _)|[Hne2 H2]]; [done|by eapply Huniq|symmetry; by eapply Huniq|].
    destruct (inv_stop _ HI _ _ H0 Ha) as [_ Hu]. by eapply Hu.
  - intros j' k i H0 Hik. apply list_lookup_insert_Some in H0 as [(<- & -> & _)|[Hne H0]]; [by eapply Hjoin|].
    by eapply Hj.
Qed.

Lemma Inv_Stop_step j s s' : Inv s → Stop_step j s = Some s' → Inv s'.
Proof.
  intros HI. unfold Stop_step. destruct (th_stops s !! j) as [pc|] eqn:Ej; [|done].
  assert (active pc = true → th_running s = false) as Hrun by (intros Ha; by apply (inv_stop _ HI _ _ Ej Ha)).
  assert (Inv (mkThreads false (th_node s) (th_mu s) (th_loops s) (th_stops s))) as HIf.
  { destruct HI as [Hh Ho Hi Hs Hj]. split; cbn; try done. intros j' pc0 H0 Ha. split; [done|].
    by destruct (Hs _ _ H0 Ha). }
  destruct pc as [| |k|]; [| | |done].
  - intros [= <-]. eapply Inv_set_stop; [done|done|done| |].
    + destruct (th_running s); auto.
    + intros k i. by destruct (th_running s).
  - rewrite Hrun by done. intros [= <-]. eapply Inv_set_stop; [done|done| |auto|].
    + apply (Inv_notify _ (th_node s) (notify_all (th_loops s))) in HIf; auto.
    + intros k i [= <-]. lia.
  - rewrite Hrun by done. destruct (th_loops s !! k) as [[l pc]|] eqn:Ek.
    + destruct pc; try done. intros [= <-]. eapply Inv_set_stop; [done..|auto|]. intros k' i [= <-] Hi.
      destruct (decide (i = k)) as [->|]; [by eauto|]. eapply (inv_join _ HI _ k); [done|lia].
    + intros [= <-]. by eapply Inv_joined.
Qed.

(** What a step of a loop does: it moves from [pc] to [pc'] and the lock changes
    hands as it must. *)
Lemma loop_turn_inv heartbeat now i s s' :
  loop_turn heartbeat now i s = Some s' →
  ∃ l pc pc' mu, th_loops s !! i = Some (l, pc) ∧
    loop_step heartbeat now l (th_running s) (th_node s) pc = Some pc' ∧
    s' = set_loops mu (<[i := (l, pc')]> (th_loops s)) s ∧
    match holds pc, holds pc' with
    | false, true => th_mu s = None ∧ mu = Some i
    | true, false => mu = None
    | _, _ => mu = th_mu s
    end.
Proof.
  unfold loop_turn. destruct (th_loops s !! i) as [[l pc]|] eqn:El; [|done]. cbn [mbind option_bind].
  destruct (loop_step _ _ _ _ _ _) as [pc'|] eqn:Ep; [|done]. cbn [mbind option_bind]. intros H.
  exists l, pc, pc'. destruct (holds pc) eqn:E1, (holds pc') eqn:E2; [|..]; simplify_eq/=; eauto 10.
  destruct (th_mu s) eqn:Em; simplify_eq/=. eauto 10.
Qed.

(** A loop goes to sleep only in the role it waits to leave. *)
Lemma loop_step_sleeps heartbeat now l running n pc pc' :
  loop_step heartbeat now l running n pc = Some pc' → pc' = Asleep ∨ pc' = ToSleep →
  pc = ToSleep ∨ idle l n = true.
Proof.
  destruct pc; cbn; intros [= <-]; auto; intros Hpc; right; [by destruct Hpc| | |by destruct Hpc..| |by destruct Hpc].
  - destruct running; [|by destruct Hpc]. unfold body in Hpc. repeat case_match; by destruct Hpc.
  - destruct (idle l n); [done|]. rewrite andb_false_r in Hpc. by destruct Hpc.
  - by destruct l, Hpc.
Qed.

Lemma Inv_turn_threads heartbeat e s s' : Inv s → turn heartbeat e s = Some s' → Inv s'.
Proof.
  intros HI. destruct e as [i now|i now|i|a|j]; cbn [turn].
  - intros (l & pc & pc' & mu & Hl & Hst & -> & Hmu)%loop_turn_inv. eapply Inv_loop; [done|done| | |done].
    + by intros ->.
    + intros Hpc. destruct (loop_step_sleeps _ _ _ _ _ _ _ Hst Hpc); auto.
  - destruct (th_loops s !! i) as [[l pc]|] eqn:El; [|done]. cbn. destruct pc; try done. case_match; [|done].
    intros [= <-]. eapply Inv_loop; [done|done|done|naive_solver|done].
  - destruct (th_loops s !! i) as [[l pc]|] eqn:El; [|done]. cbn. destruct pc; try done;
      intros [= <-]; (eapply Inv_loop; [done|done|done|cbn; naive_solver|done]).
  - destruct (th_mu s) eqn:Em; [done|]. intros [= <-].
    pose proof (Inv_notify s (section a (th_node s)) (if notifies a (th_node s) then notify_all (th_loops s) else th_loops s) HI) as Hn.
    rewrite Em in Hn. apply Hn; [destruct (notifies _ _); auto|].
    intros [|Hn']%section_leads; [auto|]. rewrite Hn'. auto.
  - by apply Inv_Stop_step.
Qed.

Lemma Inv_turns_threads heartbeat es : ∀ s s', Inv s → turns heartbeat es s = Some s' → Inv s'.
Proof.
  induction es as [|e es IH]; intros s s' HI; cbn [turns]; [by intros [= <-]|].
  destruct (turn heartbeat e s) as [s1|] eqn:Et; [|done]. cbn [mbind option_bind]. eauto using Inv_turn_threads.
Qed.

(** The states a started node can reach, [stops] calls of [Stop] being made. *)
Definition reachable (heartbeat : Z) (n : RaftNode) (stops : nat) (s : Threads) : Prop :=
  ∃ s0 es, Start (Threads_new n stops) = Some s0 ∧ turns heartbeat es s0 = Some s.

Lemma reachable_Inv heartbeat n stops s : reachable heartbeat n stops s → Inv s.
Proof. intros (s0 & es & H0%Inv_Start & Hes). by eapply Inv_turns_threads. Qed.

(** C31: While a node is leader none of its replication threads is asleep waiting for
    it to become leader, however the threads, the RPC handlers and the calls of
    [Stop] interleave: a new leader's heartbeats start at once. *)
Theorem leader_replicates heartbeat n stops s i peer pc :
  reachable heartbeat n stops s → is_leader (th_node s) = true →
  th_loops s !! i = Some (Replication peer, pc) → pc ≠ Asleep ∧ pc ≠ ToSleep.
Proof.
  intros HI%reachable_Inv Hl Hi. apply bool_decide_eq_true in Hl.
  split; intros ->; by eapply (inv_idle _ HI); eauto.
Qed.

(** [Stop] returns, past its early return, only when every thread has ended. *)
Theorem stop_joins_all heartbeat n stops s s' j :
  reachable heartbeat n stops s → turn heartbeat (Stops j) s = Some s' →
  th_stops s' !! j = Some StopReturned → th_stops s !! j ≠ Some Exchanging →
  Forall (λ '(_, pc), pc = Exited) (th_loops s).
Proof.
  intros HI%reachable_Inv. cbn [turn]. unfold Stop_step.
  destruct (th_stops s !! j) as [pc|] eqn:Ej; [|done]. pose proof (lookup_lt_Some _ _ _ Ej) as Hlt.
  destruct pc as [| |k|]; [done| | |done].
  - intros [= <-]. cbn. by rewrite list_lookup_insert_eq.
  - destruct (th_loops s !! k) as [[l []]|] eqn:Ek; try done; intros [= <-]; cbn; [by rewrite list_lookup_insert_eq|].
    intros _ _. by eapply joined_all.
Qed.

(** ** Stopping *)

(** The steps a loop has left once [running_] is false, ... *)
Definition loop_left (x : Loop * Pc) : nat :=
  match x.2 with
  | Exited => 0 | Testing => 1 | Locking => 2 | Predicate => 2 | Relocking => 3 | Napping _ => 3
  | ToNap _ => 4 | Asleep => 4 | Worked => 5 | ToSleep => 5 | Working => 6
  end.

(** ... and a call of [Stop], with [threads] threads to join. *)
Definition stop_left (threads : nat) (pc : StopPc) : nat :=
  match pc with
  | Exchanging => 1 | Notifying => threads + 2 | Joining k => threads + 1 - k | StopReturned => 0
  end.

Definition work_left (s : Threads) : nat :=
  sum_list_with loop_left (th_loops s) + sum_list_with (stop_left (length (th_loops s))) (th_stops s).

Lemma sum_insert {A : Type} (f : A → nat) l i x y :
  l !! i = Some x → (sum_list_with f (<[i := y]> l) + f x = sum_list_with f l + f y)%nat.
Proof.
  revert i. induction l as [|z l IH]; intros [|i] H; simplify_eq/=; [lia|]. specialize (IH _ H). lia.
Qed.

Lemma sum_mono {A : Type} (f g : A → nat) l :
  (∀ x, (f x <= g x)%nat) → (sum_list_with f l <= sum_list_with g l)%nat.
Proof. intros H. induction l as [|x l IH]; cbn; [lia|]. specialize (H x). lia. Qed.

Lemma notify_all_left loops : (sum_list_with loop_left (notify_all loops) <= sum_list_with loop_left loops)%nat.
Proof.
  unfold notify_all. induction loops as [|[l pc] loops IH]; cbn; [lia|].
  assert (loop_left (l, woken pc) <= loop_left (l, pc))%nat by (destruct pc; cbn; lia). lia.
Qed.

Definition length_notify loops : length (notify_all loops) = length loops := length_map _ loops.

(** A node that is stopping and on which [Stop] will return: no loop has decided to
    sleep, and none is asleep once [notify_all] was called. *)
Record Stopping (j : nat) (s : Threads) : Prop := mkStopping {
  sp_inv : Inv s;
  sp_running : th_running s = false;
  sp_awake i l : th_loops s !! i ≠ Some (l, ToSleep);
  sp_notified : match th_stops s !! j with
                | Some Notifying => True
                | Some (Joining _) => ∀ i l, th_loops s !! i ≠ Some (l, Asleep)
                | Some StopReturned => th_loops s = []
                | _ => False
                end;
}.

(** Every event but another thread's critical section is progress. *)
Definition progress (e : Event) : bool := match e with Enters _ => false | _ => true end.

Lemma loop_step_left heartbeat now l n pc pc' :
  loop_step heartbeat now l false n pc = Some pc' →
  (loop_left (l, pc') < loop_left (l, pc))%nat ∧ pc' ≠ ToSleep ∧ (pc' = Asleep → pc = ToSleep).
Proof. destruct pc; cbn; intros [= <-]; try destruct l; cbn; repeat split; try done; lia. Qed.

(** A step of one loop keeps a stopping node stopping and leaves it less to do. *)
Lemma Stopping_loop j s i l pc pc' mu :
  Stopping j s → th_loops s !! i = Some (l, pc) → Inv (set_loops mu (<[i := (l, pc')]> (th_loops s)) s) →
  (loop_left (l, pc') < loop_left (l, pc))%nat → pc' ≠ ToSleep → (pc' = Asleep → pc = ToSleep) →
  let s' := set_loops mu (<[i := (l, pc')]> (th_loops s)) s in
  Stopping j s' ∧ (work_left s' < work_left s)%nat.
Proof.
  intros [HI Hr Hw Hn] Hl HI' Hlt Hne Has. cbn zeta. split.
  - split; [done|done| |]; cbn [set_loops th_loops th_stops].
    + intros i' l' [(-> & [= -> ->] & _)|[Hik Hk]]%list_lookup_insert_Some; [done|]. by eapply Hw.
    + destruct (th_stops s !! j) as [[| |k|]|]; try done; [|by rewrite Hn in Hl].
      intros i' l' [(-> & [= -> ->] & _)|[Hik Hk]]%list_lookup_insert_Some; [|by eapply Hn].
      rewrite (Has eq_refl) in Hl. by eapply Hw.
  - unfold work_left, set_loops. cbn [th_loops th_stops]. rewrite length_insert.
    pose proof (sum_insert loop_left (th_loops s) i (l, pc) (l, pc') Hl). lia.
Qed.

Lemma notify_awake loops i l : notify_all loops !! i ≠ Some (l, Asleep).
Proof. intros (pc0 & _ & Hpc)%lookup_notify. by destruct pc0. Qed.

Lemma notify_decided loops :
  (∀ i l, loops !! i ≠ Some (l, ToSleep)) → ∀ i l, notify_all loops !! i ≠ Some (l, ToSleep).
Proof. intros H i l (pc0 & Hl & Hpc)%lookup_notify. destruct pc0; try done. by eapply H. Qed.

(** So does a step of a call of [Stop]. *)
Lemma Stopping_stop j j' s s' :
  Stopping j s → Stop_step j' s = Some s' → Stopping j s' ∧ (work_left s' < work_left s)%nat.
Proof.
  intros [HI Hr Hw Hn] Hst. pose proof (Inv_Stop_step _ _ _ HI Hst) as HI'. unfold Stop_step in Hst.
  destruct (th_stops s !! j') as [pc|] eqn:Ej; [|done]. pose proof (lookup_lt_Some _ _ _ Ej) as Hlt.
  assert (∀ pc', (sum_list_with (stop_left (length (th_loops s))) (<[j' := pc']> (th_stops s)) + stop_left (length (th_loops s)) pc
    = sum_list_with (stop_left (length (th_loops s))) (th_stops s) + stop_left (length (th_loops s)) pc')%nat) as Hsum
    by (intros; by apply sum_insert).
  pose proof (notify_all_left (th_loops s)) as Hnl.
  destruct pc as [| |k|]; [rewrite Hr in Hst| | |done].
  - simplify_eq/=. split; [|unfold work_left; cbn [th_loops th_stops]; specialize (Hsum StopReturned); cbn in *; lia].
    split; [done..|]. cbn. destruct (decide (j' = j)) as [->|]; [by rewrite Ej in Hn|]. by rewrite list_lookup_insert_ne.
  - simplify_eq/=. split; [|unfold work_left; cbn [th_loops th_stops]; rewrite length_notify;
      specialize (Hsum (Joining 0)); cbn [stop_left] in *; lia].
    split; [done|done|by apply notify_decided|]. cbn. destruct (decide (j' = j)) as [->|].
    + rewrite list_lookup_insert_eq by done. intros. apply notify_awake.
    + rewrite list_lookup_insert_ne by done. destruct (th_stops s !! j) as [[| |k|]|]; try done; [|by rewrite Hn].
      intros. apply notify_awake.
  - destruct (th_loops s !! k) as [[l pc]|] eqn:Ek; [destruct pc; try done|]; simplify_eq/=.
    + pose proof (lookup_lt_Some _ _ _ Ek). split; [|unfold work_left; cbn [th_loops th_stops];
        specialize (Hsum (Joining (S k))); cbn [stop_left] in *; lia].
      split; [done..|]. cbn. destruct (decide (j' = j)) as [->|].
      * rewrite list_lookup_insert_eq by done. by rewrite Ej in Hn.
      * by rewrite list_lookup_insert_ne.
    + split; [split; [done|done|done|]|].
      * cbn. destruct (decide (j' = j)) as [->|]; [by rewrite list_lookup_insert_eq|].
        rewrite list_lookup_insert_ne by done. by destruct (th_stops s !! j) as [[| |?|]|].
      * assert (k <= length (th_loops s))%nat as Hk.
        { destruct k as [|k]; [lia|]. destruct (inv_join _ HI j' (S k) k Ej ltac:(lia)) as [? ?%lookup_lt_Some]. lia. }
        unfold work_left. cbn [th_loops th_stops length sum_list_with]. specialize (Hsum StopReturned).
        pose proof (sum_mono (stop_left 0) (stop_left (length (th_loops s))) (<[j' := StopReturned]> (th_stops s))
          ltac:(intros []; cbn; lia)).
        cbn [stop_left] in *. lia.
Qed.

Lemma Stopping_turn heartbeat j e s s' :
  Stopping j s → turn heartbeat e s = Some s' →
  Stopping j s' ∧ (if progress e then work_left s' < work_left s else work_left s' <= work_left s)%nat.
Proof.
  intros Hs Ht. pose proof (Inv_turn_threads _ _ _ _ (sp_inv _ _ Hs) Ht) as HI'.
  destruct e as [i now|i now|i|a|j']; cbn [turn progress] in *.
  - apply loop_turn_inv in Ht as (l & pc & pc' & mu & Hl & Hst & -> & Hmu). rewrite (sp_running _ _ Hs) in Hst.
    apply loop_step_left in Hst as (? & ? & ?). by eapply Stopping_loop.
  - destruct (th_loops s !! i) as [[l pc]|] eqn:El; [|done]. cbn in Ht. destruct pc; try done. case_match; simplify_eq/=.
    eapply Stopping_loop; try done. cbn. lia.
  - destruct (th_loops s !! i) as [[l pc]|] eqn:El; [|done]. cbn in Ht. destruct pc; simplify_eq/=;
      (eapply Stopping_loop; try done; cbn; lia).
  - destruct (th_mu s) eqn:Em; simplify_eq/=. destruct Hs as [HI Hr Hw Hn]. pose proof (notify_all_left (th_loops s)).
    split; [split; [done|done|cbn|cbn]|unfold work_left; cbn].
    + destruct (notifies _ _); [by apply notify_decided|done].
    + destruct (notifies _ _), (th_stops s !! j) as [[| |k|]|]; try done; [|by rewrite Hn]. intros. apply notify_awake.
    + destruct (notifies _ _); rewrite ?length_notify; lia.
  - by eapply Stopping_stop.
Qed.

Lemma Stopping_turns heartbeat j es : ∀ s s',
  Stopping j s → turns heartbeat es s = Some s' →
  Stopping j s' ∧ (length (filter (λ e, progress e = true) es) + work_left s' <= work_left s)%nat.
Proof.
  induction es as [|e es IH]; intros s s' Hs; cbn [turns]; [intros [= <-]; cbn; split; [done|lia]|].
  destruct (turn heartbeat e s) as [s1|] eqn:Et; [|done]. cbn [mbind option_bind]. intros Hes.
  destruct (Stopping_turn _ _ _ _ _ Hs Et) as [Hs1 Hlt]. destruct (IH _ _ Hs1 Hes) as [Hs' Hle].
  split; [done|]. rewrite filter_cons. destruct (progress e); case_decide; cbn [length]; try done; lia.
Qed.

(** A loop that holds the lock, or wants it when it is free, can move. *)
Lemma loop_moves heartbeat s i l pc now :
  Inv s → th_loops s !! i = Some (l, pc) → is_Some (loop_step heartbeat now l (th_running s) (th_node s) pc) →
  holds pc = true ∨ th_mu s = None → is_Some (turn heartbeat (Runs i now) s).
Proof.
  intros HI Hl [pc' Hst] Hmu. cbn [turn]. unfold loop_turn. rewrite Hl. cbn [mbind option_bind]. rewrite Hst.
  cbn [mbind option_bind]. destruct (holds pc) eqn:E1, (holds pc'); try done.
  destruct Hmu as [|Hmu]; [done|]. by rewrite Hmu.
Qed.

(** Until [Stop] has returned something can move. *)
Lemma Stopping_moves heartbeat j s :
  Stopping j s → th_stops s !! j = Some StopReturned ∨
  ∃ e, progress e = true ∧ (∀ i, e ≠ Spurious i) ∧ is_Some (turn heartbeat e s).
Proof.
  intros [HI Hr Hw Hn]. destruct (th_stops s !! j) as [pc|] eqn:Ej; [|done].
  destruct pc as [| |k|]; [done| | |by left]; right.
  { exists (Stops j). cbn [turn]. unfold Stop_step. by rewrite Ej. }
  destruct (th_loops s !! k) as [[l pc]|] eqn:Ek; [|exists (Stops j); cbn [turn]; unfold Stop_step; by rewrite Ej, Ek].
  destruct (decide (pc = Exited)) as [->|Hne]; [exists (Stops j); cbn [turn]; unfold Stop_step; by rewrite Ej, Ek|].
  destruct (th_mu s) as [i|] eqn:Em.
  - destruct (inv_owner _ HI _ Em) as [[l' pc'] Hl']. pose proof (proj2 (inv_holds _ HI _ _ _ Hl') Em) as Hh.
    exists (Runs i 0). split_and!; [done|done|]. eapply loop_moves; [done|done| |by left].
    by destruct pc'.
  - destruct (loop_step heartbeat 0 l (th_running s) (th_node s) pc) as [pc'|] eqn:Est.
    + exists (Runs k 0). split_and!; [done|done|]. eapply loop_moves; [done|done| |by right]. by rewrite Est.
    + destruct pc; try done; [by destruct (Hn k l)|].
      exists (Expires k deadline). split_and!; [done|done|]. cbn [turn]. rewrite Ek. cbn [mbind option_bind].
      by rewrite Z.leb_refl.
Qed.

(** C30: [Stop] returns.  If no loop has decided to sleep at the moment [Stop] clears
    [running_], then from there on, whatever RPC handlers come in and however the
    threads are scheduled, the threads and the calls of [Stop] can take only
    [work_left] steps, and until that [Stop] has returned one of them can be taken. *)
Theorem stop_returns heartbeat n stops s j s1 es s2 :
  reachable heartbeat n stops s → th_running s = true →
  (∀ i l, th_loops s !! i ≠ Some (l, ToSleep)) →
  turn heartbeat (Stops j) s = Some s1 → turns heartbeat es s1 = Some s2 →
  (length (filter (λ e, progress e = true) es) <= work_left s1)%nat ∧
  (th_stops s2 !! j = Some StopReturned ∨
   ∃ e, progress e = true ∧ (∀ i, e ≠ Spurious i) ∧ is_Some (turn heartbeat e s2)).
Proof.
  intros HI%reachable_Inv Hr Hw Ht Hes.
  assert (Stopping j s1) as Hs1.
  { pose proof (Inv_turn_threads _ _ _ _ HI Ht) as HI1. cbn [turn] in Ht. unfold Stop_step in Ht.
    destruct (th_stops s !! j) as [pc|] eqn:Ej; [|done]. pose proof (lookup_lt_Some _ _ _ Ej) as Hlt.
    destruct (active pc) eqn:Ea; [pose proof (inv_stop _ HI _ _ Ej Ea) as [? _]; congruence|].
    destruct pc; try done. rewrite Hr in Ht. simplify_eq/=. split; [done|done|done|]. cbn.
    by rewrite list_lookup_insert_eq. }
  destruct (Stopping_turns _ _ _ _ _ Hs1 Hes) as [Hs2 Hle]. split; [lia|]. by apply Stopping_moves.
Qed.

(** ** Loops that sleep on *)

(** Events without a wake-up: no spurious one, and no critical section that
    notifies. *)
Definition silent (e : Event) (s : Threads) : bool :=
  match e with
  | Spurious _ => false
  | Enters a => negb (notifies a (th_node s))
  | _ => true
  end.

Fixpoint all_silent (heartbeat : Z) (es : list Event) (s : Threads) : bool :=
  match es with
  | [] => true
  | e :: es' => silent e s && from_option (all_silent heartbeat es') true (turn heartbeat e s)
  end.

(** No call of [Stop] is going to notify any more. *)
Definition no_notify (s : Threads) : Prop :=
  ∀ j pc, th_stops s !! j = Some pc → pc ≠ Notifying ∧ (pc = Exchanging → th_running s = false).

Definition joining (j : nat) (s : Threads) : Prop := ∃ k, th_stops s !! j = Some (Joining k).

Lemma asleep_stop j s s' i l :
  Inv s → no_notify s → th_loops s !! i = Some (l, Asleep) → Stop_step j s = Some s' →
  no_notify s' ∧ th_loops s' !! i = Some (l, Asleep) ∧ (∀ j', joining j' s → joining j' s').
Proof.
  intros HI Hno Hi. unfold Stop_step. destruct (th_stops s !! j) as [pc|] eqn:Ej; [|done].
  pose proof (lookup_lt_Some _ _ _ Ej) as Hlt.
  destruct (Hno _ _ Ej) as [Hnn Hex]. destruct pc as [| |k|]; [|done| |done].
  - rewrite Hex by done. intros [= <-]. split_and!; [|done|].
    + intros j' pc'. cbn. intros [(<- & <- & _)|[_ H]]%list_lookup_insert_Some; [done|]. split; [by eapply Hno|done].
    + intros j' [k Hk]. exists k. cbn. rewrite list_lookup_insert_ne; [done|]. intros ->. congruence.
  - destruct (th_loops s !! k) as [[l' pc]|] eqn:Ek.
    + destruct pc; try done. intros [= <-]. split_and!; [|done|].
      * intros j' pc0. cbn. intros [(<- & <- & _)|[_ H]]%list_lookup_insert_Some; [done|]. by eapply Hno.
      * intros j' [k' Hk]. unfold joining. cbn. destruct (decide (j' = j)) as [->|].
        -- exists (S k). by rewrite list_lookup_insert_eq.
        -- exists k'. by rewrite list_lookup_insert_ne.
    + destruct (joined_all _ _ _ HI Ej Ek) as [Hall _]. rewrite Forall_lookup in Hall. by specialize (Hall _ _ Hi).
Qed.

Lemma asleep_turn heartbeat e s s' i l :
  Inv s → silent e s = true → no_notify s → th_loops s !! i = Some (l, Asleep) → turn heartbeat e s = Some s' →
  no_notify s' ∧ th_loops s' !! i = Some (l, Asleep) ∧ (∀ j, joining j s → joining j s').
Proof.
  intros HI Hsil Hno Hi. destruct e as [i' now|i' now|i'|a|j]; cbn [turn silent] in *; [| |done| |].
  - intros (l' & pc & pc' & mu & Hl & Hst & -> & Hmu)%loop_turn_inv. split_and!; [done| |done]. cbn.
    rewrite list_lookup_insert_ne; [done|]. intros ->. rewrite Hi in Hl. by inv Hl.
  - destruct (th_loops s !! i') as [[l' pc]|] eqn:El; [|done]. cbn. destruct pc; try done. case_match; [|done].
    intros [= <-]. split_and!; [done| |done]. cbn. rewrite list_lookup_insert_ne; [done|]. intros ->. congruence.
  - destruct (th_mu s); [done|]. intros [= <-]. destruct (notifies _ _); done.
  - by apply asleep_stop.
Qed.

(** A loop that is asleep stays asleep without a wake-up, and the calls of [Stop]
    that join the threads go on waiting. *)
Lemma asleep_turns heartbeat es : ∀ s s' i l,
  Inv s → no_notify s → th_loops s !! i = Some (l, Asleep) →
  all_silent heartbeat es s = true → turns heartbeat es s = Some s' →
  th_loops s' !! i = Some (l, Asleep) ∧ (∀ j, joining j s → joining j s').
Proof.
  induction es as [|e es IH]; intros s s' i l HI Hno Hi; cbn [all_silent turns]; [by intros _ [= <-]|].
  intros [Hsil Hall]%andb_true_iff. destruct (turn heartbeat e s) as [s1|] eqn:Et; [|done].
  cbn [mbind option_bind from_option] in *. intros Hes.
  destruct (asleep_turn _ _ _ _ _ _ HI Hsil Hno Hi Et) as (Hno1 & Hi1 & Hj1).
  destruct (IH s1 s' i l) as [Hi' Hj']; [by eapply Inv_turn_threads|done..|]. auto.
Qed.

Lemma turn_frame heartbeat e s s' :
  turn heartbeat e s = Some s' →
  length (th_stops s') = length (th_stops s) ∧ (th_running s = false → th_running s' = false).
Proof.
  destruct e as [i now|i now|i|a|j]; cbn [turn].
  - by intros (? & ? & ? & ? & _ & _ & -> & _)%loop_turn_inv.
  - destruct (th_loops s !! i) as [[? []]|]; cbn; try done. case_match; [|done]. by intros [= <-].
  - destruct (th_loops s !! i) as [[? []]|]; cbn; try done; by intros [= <-].
  - destruct (th_mu s); [done|]. by intros [= <-].
  - unfold Stop_step. destruct (th_stops s !! j) as [[| |k|]|]; try done; [..|destruct (th_loops s !! k) as [[? []]|]; try done];
      intros [= <-]; cbn; by rewrite length_insert.
Qed.

Lemma turns_frame heartbeat es : ∀ s s',
  turns heartbeat es s = Some s' →
  length (th_stops s') = length (th_stops s) ∧ (th_running s = false → th_running s' = false).
Proof.
  induction es as [|e es IH]; intros s s'; cbn [turns]; [by intros [= <-]|].
  destruct (turn heartbeat e s) as [s1|] eqn:Et; [|done]. cbn [mbind option_bind]. intros [Hl Hr]%IH.
  apply turn_frame in Et as [Hl1 Hr1]. split; [congruence|auto].
Qed.

Lemma reachable_stops heartbeat n stops s : reachable heartbeat n stops s → length (th_stops s) = stops.
Proof. intros (s0 & es & [= <-] & [Hl _]%turns_frame). rewrite Hl. apply length_replicate. Qed.

(** A loop that has decided to sleep when [Stop] notifies misses the notification:
    from then on, as long as nothing else notifies and no spurious wake-up comes,
    that [Stop] does not return, whatever the other threads do. *)
Theorem stop_misses_sleeper heartbeat n s i l s1 es s2 :
  reachable heartbeat n 1 s → th_running s = true → th_loops s !! i = Some (l, ToSleep) →
  turns heartbeat [Stops 0; Stops 0; Runs i 0] s = Some s1 →
  all_silent heartbeat es s1 = true → turns heartbeat es s1 = Some s2 →
  th_running s2 = false ∧ joining 0 s2 ∧ th_loops s2 !! i = Some (l, Asleep).
Proof.
  intros Hre Hr Hi Hs1 Hsil Hes. pose proof (reachable_Inv _ _ _ _ Hre) as HI.
  pose proof (Inv_turns_threads _ _ _ _ HI Hs1) as HI1. pose proof (lookup_lt_Some _ _ _ Hi) as Hlt.
  destruct (th_stops s) as [|pc [|]] eqn:Es; try by apply reachable_stops in Hre; rewrite Es in Hre.
  destruct (active pc) eqn:Ea.
  { destruct (inv_stop _ HI 0%nat pc) as [? _]; [by rewrite Es|done|congruence]. }
  destruct pc; try done; cbn [turns turn] in Hs1; unfold Stop_step in Hs1; rewrite Es in Hs1; cbn in Hs1; [|done].
  rewrite Hr in Hs1. unfold loop_turn in Hs1. cbn in Hs1. unfold notify_all in Hs1. rewrite list_lookup_fmap, Hi in Hs1.
  cbn in Hs1. injection Hs1 as <-.
  match goal with H : turns _ es ?s1 = _ |- _ => destruct (asleep_turns heartbeat es s1 s2 i l HI1) as [Hi2 Hj2] end; [| |done..|].
  { intros [|[|j]] pc; cbn; [|done..]. by intros [= <-]. }
  { cbn. rewrite list_lookup_insert_eq; [done|]. by rewrite length_map. }
  split_and!; [|apply Hj2; by exists 0%nat|done]. by eapply turns_frame.
Qed.

(** A leader whose election thread sleeps and that a request deposes without a
    notification does not start an election, whatever its timer says, until something
    notifies. *)
Theorem deposed_leader_sleeps heartbeat n s a s1 es s2 now :
  reachable heartbeat n 0 s → th_loops s !! 0%nat = Some (Election, Asleep) →
  notifies a (th_node s) = false → turn heartbeat (Enters a) s = Some s1 →
  all_silent heartbeat es s1 = true → turns heartbeat es s1 = Some s2 →
  th_loops s2 !! 0%nat = Some (Election, Asleep) ∧ turn heartbeat (Runs 0 now) s2 = None.
Proof.
  intros Hre Hi Hn Ht Hsil Hes. pose proof (Inv_turn_threads _ _ _ _ (reachable_Inv _ _ _ _ Hre) Ht) as HI1.
  apply reachable_stops, nil_length_inv in Hre as Es. apply turn_frame in Ht as Hf.
  cbn [turn] in Ht. destruct (th_mu s); [done|]. rewrite Hn in Ht. injection Ht as <-.
  match goal with H : turns _ es ?s1 = _ |- _ => destruct (asleep_turns heartbeat es s1 s2 0 Election HI1) as [Hi2 _] end;
    [|done..|].
  { intros j pc. cbn. by rewrite Es. }
  split; [done|]. cbn [turn]. unfold loop_turn. by rewrite Hi2.
Qed.

(** ** Runs of a node with two peers *)

Definition node_a : RaftNode :=
  RaftNode_new (mkRaftConfig (lit "a") [lit "b"; lit "c"] 150 300) (mkDisk (mkHardState 0 []) [] []) 0 200.

(** It is elected: its election thread finds the election due, both rounds of votes
    are won with the vote of "b", ... *)
Definition elected : list Event :=
  let vote pre := SVoteReply pre 1 (mkRequestVoteResponse (if pre : bool then 0 else 1) true) 1 in
  [Runs 0 500; Runs 0 500; Enters SRead; Enters (vote true); Enters SRead; Enters (SElectionBegin 501 200 1);
   Enters (vote false); Enters SRead; Enters (SElectionWin 1)].

(** ... and its loops go on: the replication threads send, the election thread goes
    to sleep. *)
Definition leading : list Event :=
  elected ++ [Runs 0 502; Runs 0 502; Runs 0 502; Runs 0 502; Runs 0 502; Runs 1 502; Runs 1 502].

Definition after (stops : nat) (es : list Event) : option Threads :=
  s ← Start (Threads_new node_a stops); turns 50 es s.

Lemma after_reachable stops es s : after stops es = Some s → reachable 50 node_a stops s.
Proof. unfold after. cbn [mbind option_bind Start Threads_new th_loops]. intros H. by eexists _, es. Qed.

(** The requests that depose it, neither of which notifies: the vote it gives to "b"
    in term 2, and the heartbeat of "b" once that leads. *)
Definition vote_for_b : Section_ := SHandleRequestVote 600 200 (mkRequestVoteRequest 2 (lit "b") 0 0 false).
Definition heartbeat_of_b : Section_ := SHandleAppendEntries 610 200 (mkAppendEntriesRequest 2 (lit "b") 0 0 [] 0).

(** At 10000, long after its election timeout of 200 has passed without a leader, the
    deposed node is due for an election and its election thread cannot move. *)
Example deposed_leader_run :
  match after 0 (leading ++ [Enters vote_for_b; Enters heartbeat_of_b; Runs 1 620; Runs 1 620]) with
  | Some s => role (th_node s) = kFollower ∧ election_due 10000 (th_node s) = true ∧
              th_loops s !! 0%nat = Some (Election, Asleep) ∧ turn 50 (Runs 0 10000) s = None
  | None => False
  end.
Proof. vm_compute. done. Qed.

(** [Stop] is called between the decision of the election thread to sleep and its
    sleep; everything else ends and [Stop] waits for it. *)
Example stop_missed_run :
  match after 1 (removelast (take 14 leading) ++ [Stops 0; Stops 0; Runs 0 503]) with
  | Some s => th_running s = false ∧ th_stops s = [Joining 0] ∧ th_loops s !! 0%nat = Some (Election, Asleep) ∧
              turn 50 (Stops 0) s = None
  | None => False
  end.
Proof. vm_compute. done. Qed.

(** The state after [leading], the witness of the theorems. *)
Lemma leader_replicates_witness :
  ∃ s, reachable 50 node_a 0 s ∧ is_leader (th_node s) = true ∧
    th_loops s !! 1%nat = Some (Replication (lit "b"), Working) ∧ Working ≠ Asleep ∧ Working ≠ ToSleep.
Proof.
  assert ((s ← after 0 leading; Some (is_leader (th_node s), th_loops s !! 1%nat))
    = Some (true, Some (Replication (lit "b"), Working))) as H by (vm_compute; reflexivity).
  destruct (after 0 leading) as [s|] eqn:E; [|done]. cbn [mbind option_bind] in H.
  injection H as Hl Hi. apply after_reachable in E. exists s. split_and!; [done..| |];
    apply (leader_replicates 50 node_a 0 s 1 (lit "b") Working E Hl Hi).
Defined.

(** The rest of the run when [Stop] is called on the leader: the threads end one
    after the other and [Stop] joins them. *)
Definition stopped : list Event :=
  [Stops 0; Runs 0 600; Runs 0 600; Runs 0 600; Stops 0;
   Runs 1 600; Enters SRead; Runs 1 601; Runs 1 601; Expires 1 651; Runs 1 652; Runs 1 652; Stops 0;
   Runs 2 660; Runs 2 660; Stops 0; Stops 0].

(** Whether a loop has decided to sleep. *)
Definition decided (s : Threads) : bool := existsb (λ x, bool_decide (x.2 = ToSleep)) (th_loops s).

Lemma decided_false s i l : decided s = false → th_loops s !! i ≠ Some (l, ToSleep).
Proof.
  intros Hd Hi%list_elem_of_lookup_2. apply not_true_iff_false in Hd. apply Hd, existsb_exists.
  exists (l, ToSleep). split; [by apply list_elem_of_In|by apply bool_decide_eq_true].
Qed.

Lemma stop_returns_witness :
  ∃ s s1 s2, reachable 50 node_a 1 s ∧ turn 50 (Stops 0) s = Some s1 ∧ turns 50 stopped s1 = Some s2 ∧
    th_stops s2 = [StopReturned] ∧ (length (filter (λ e, progress e = true) stopped) <= work_left s1)%nat.
Proof.
  assert ((s ← after 1 leading; s1 ← turn 50 (Stops 0) s; s2 ← turns 50 stopped s1;
           Some (th_running s, decided s, th_stops s2)) = Some (true, false, [StopReturned])) as H
    by (vm_compute; reflexivity).
  destruct (after 1 leading) as [s|] eqn:E; [|done]. cbn [mbind option_bind] in H.
  destruct (turn 50 (Stops 0) s) as [s1|] eqn:E1; [|done]. cbn [mbind option_bind] in H.
  destruct (turns 50 stopped s1) as [s2|] eqn:E2; [|done]. cbn [mbind option_bind] in H.
  injection H as Hr Hd Hs. apply after_reachable in E. exists s, s1, s2. split_and!; [done..|].
  apply (stop_returns 50 node_a 1 s 0 s1 stopped s2 E Hr (λ i l, decided_false s i l Hd) E1 E2).
Defined.
