(* ===== verification/MetadataRpc.v ===== *)
(** * The metadata service and its client

    [src/network/metadata_server.cc] and [src/network/metadata_client.cc]: the
    control plane over gRPC, for the messages of proto/metadata.proto.  A mutation
    that reaches a Raft follower is forwarded to the leader, with a call of its
    own; [hops] bounds the length of a chain of forwarded calls, which the
    deadlines of the clients end.  (The service keeps one client per leader
    address; a client is its address.) *)

From stdpp Require Import base gmap numbers list sorting.
From Stdlib Require Import ZArith Lia.
From S2P Require Import Prelude Status Rpc Sha256 LruCache Ring ClusterMap MetadataView MetadataRepository.
From S2P Require Import CachingMetadataView.

Local Open Scope Z_scope.
Local Opaque Hash64 vnode_pos.

(** ** Messages *)

Record PlacementResponse := mkPlacementResponse { pp_code : Code; pp_node_ids : list bytes }.
Record MetaAck := mkMetaAck { ma_code : Code; ma_message : bytes }.
Record LookupResponse := mkLookupResponse { lr_code : Code; lr_message : bytes; lr_location : ProtoLocation }.
Record ListObjectsResponse := mkListObjectsResponse { lo_code : Code; lo_objects : list ProtoLocation }.
Record ListNodesResponse := mkListNodesResponse { ln_code : Code; ln_nodes : list (bytes * bytes) }.

(** ** The service *)

Definition ToProtoLocation (loc : ObjectLocation) : ProtoLocation :=
  mkProtoLocation (ol_key loc) (ol_version loc) (ol_checksum loc) (ol_size loc) (ol_deleted loc) (ol_replicas loc).

Definition FromProtoLocation (p : ProtoLocation) : ObjectLocation :=
  mkObjectLocation (pl_key p) (pl_version p) (pl_checksum p) (pl_size p) (pl_deleted p) (pl_replicas p).

Inductive Route := kLocal | kForward (leader_address : bytes) | kReject.

Section service.
Context {S : Type} `{ControlPlane S}.
Implicit Types net : Net S.
Implicit Types s : S.

Definition ResolveMutation s : Route :=
  match cp_leadership s with
  | kLeader => kLocal
  | kNoLeader => kReject
  | kFollower =>
      match cp_leader_forward_address s with
      | [] => kReject
      | leader => kForward leader
      end
  end.

(** The server at [self] moves to [s]. *)
Definition stay (self : bytes) {A} (r : A * S) net : A * Net S :=
  let '(x, s) := r in (x, set_server self (Up s) net).

Definition ack (st : Status) : MetaAck :=
  mkMetaAck (ToProtoCode (st_code st)) (if st_ok st then [] else st_message st).

Definition no_leader_ack : MetaAck := mkMetaAck UNAVAILABLE (lit "no metadata leader available").

Definition Service_Placement (self key : bytes) (replication_factor : Z) s net : PlacementResponse * Net S :=
  let '(placement, net) := stay self (mv_PlacementFor key (Z.to_nat replication_factor) s) net in
  (mkPlacementResponse OK placement, net).

(** The mutations take the client's call to the leader as an argument. *)
Definition Service_RegisterObject (forward : bytes → ObjectLocation → Net S → Status * Net S)
    (self : bytes) (req : ProtoLocation) s net : MetaAck * Net S :=
  let loc := FromProtoLocation req in
  match ResolveMutation s with
  | kReject => (no_leader_ack, net)
  | kForward leader => let '(st, net) := forward leader loc net in (ack st, net)
  | kLocal => let '(st, net) := stay self (mv_RegisterObject loc s) net in (ack st, net)
  end.

Definition Service_LookupObject (self key : bytes) s net : LookupResponse * Net S :=
  let '(loc, net) := stay self (mv_LookupObject key s) net in
  (match loc with
   | FromStatus st => mkLookupResponse (ToProtoCode (st_code st)) (st_message st) ProtoLocation_default
   | FromValue l => mkLookupResponse OK [] (ToProtoLocation l)
   end, net).

Definition Service_RemoveObject (forward : bytes → bytes → Net S → Status * Net S)
    (self key : bytes) s net : MetaAck * Net S :=
  match ResolveMutation s with
  | kReject => (no_leader_ack, net)
  | kForward leader => let '(st, net) := forward leader key net in (ack st, net)
  | kLocal => let '(st, net) := stay self (mv_RemoveObject key s) net in (ack st, net)
  end.

Definition Service_ListObjects (self prefix : bytes) s net : ListObjectsResponse * Net S :=
  let '(objs, net) := stay self (mv_ListObjects prefix s) net in
  (mkListObjectsResponse OK match objs with FromValue l => ToProtoLocation <$> l | FromStatus _ => [] end, net).

Definition Service_AddNode (forward : bytes → bytes → bytes → Net S → Status * Net S)
    (self id address : bytes) s net : MetaAck * Net S :=
  match ResolveMutation s with
  | kReject => (no_leader_ack, net)
  | kForward leader => let '(st, net) := forward leader id address net in (ack st, net)
  | kLocal => (mkMetaAck OK [], set_server self (Up (cp_AddNode (NodeInfo_at id address) s)) net)
  end.

Definition Service_ListNodes s net : ListNodesResponse * Net S :=
  (mkListNodesResponse OK ((λ n, (ni_id n, ni_address n)) <$> cp_Nodes s), net).

(** ** The client *)

Definition rpc_error (name err : bytes) : Status := Unavailable (name ++ lit " RPC failed: " ++ err).

Definition ack_status (name : bytes) (r : bytes + MetaAck) : Status :=
  match r with
  | inl err => rpc_error name err
  | inr resp => mkStatus (FromProtoCode (ma_code resp)) (ma_message resp)
  end.

Definition deadline_exceeded (name : bytes) : Status := rpc_error name (lit "Deadline Exceeded").

Fixpoint Remote_AddNode (hops : nat) (self id address : bytes) net : Status * Net S :=
  let forward leader id address net :=
    match hops with
    | O => (deadline_exceeded (lit "AddNode"), net)
    | Datatypes.S h => Remote_AddNode h leader id address net
    end in
  let '(r, net) := net_call self (Service_AddNode forward self id address) net in
  (ack_status (lit "AddNode") r, net).

Definition Remote_ListNodes (self : bytes) net : StatusOr (list NodeInfo) * Net S :=
  let '(r, net) := net_call self Service_ListNodes net in
  (match r with
   | inl err => FromStatus (rpc_error (lit "ListNodes") err)
   | inr resp => FromValue ((λ n, NodeInfo_at n.1 n.2) <$> ln_nodes resp)
   end, net).

Definition Remote_PlacementFor (self key : bytes) (rf : nat) net : list bytes * Net S :=
  let '(r, net) := net_call self (Service_Placement self key (u32 (Z.of_nat rf))) net in
  (match r with inl _ => [] | inr resp => pp_node_ids resp end, net).

Fixpoint Remote_RegisterObject (hops : nat) (self : bytes) (loc : ObjectLocation) net : Status * Net S :=
  let forward leader loc net :=
    match hops with
    | O => (deadline_exceeded (lit "RegisterObject"), net)
    | Datatypes.S h => Remote_RegisterObject h leader loc net
    end in
  let req := mkProtoLocation (ol_key loc) (ol_version loc) (ol_checksum loc) (ol_size loc) (ol_deleted loc)
               (ol_replicas loc) in
  let '(r, net) := net_call self (Service_RegisterObject forward self req) net in
  (ack_status (lit "RegisterObject") r, net).

Definition Remote_LookupObject (self key : bytes) net : StatusOr ObjectLocation * Net S :=
  let '(r, net) := net_call self (Service_LookupObject self key) net in
  (match r with
   | inl err => FromStatus (rpc_error (lit "LookupObject") err)
   | inr resp =>
       if bool_decide (lr_code resp ≠ OK)
       then FromStatus (mkStatus (FromProtoCode (lr_code resp)) (lr_message resp))
       else FromValue (FromProtoLocation (lr_location resp))
   end, net).

Fixpoint Remote_RemoveObject (hops : nat) (self key : bytes) net : Status * Net S :=
  let forward leader key net :=
    match hops with
    | O => (deadline_exceeded (lit "RemoveObject"), net)
    | Datatypes.S h => Remote_RemoveObject h leader key net
    end in
  let '(r, net) := net_call self (Service_RemoveObject forward self key) net in
  (ack_status (lit "RemoveObject") r, net).

Definition Remote_ListObjects (self prefix : bytes) net : StatusOr (list ObjectLocation) * Net S :=
  let '(r, net) := net_call self (Service_ListObjects self prefix) net in
  (match r with
   | inl err => FromStatus (rpc_error (lit "ListObjects") err)
   | inr resp => FromValue (FromProtoLocation <$> lo_objects resp)
   end, net).
End service.

Record RemoteMetadataView (S : Type) := mkRemoteMetadataView { rv_address : bytes; rv_hops : nat; rv_net : Net S }.
Arguments mkRemoteMetadataView {S}.
Arguments rv_address {S}.
Arguments rv_hops {S}.
Arguments rv_net {S}.

Definition on_remote {S A} (f : bytes → Net S → A * Net S) (v : RemoteMetadataView S) : A * RemoteMetadataView S :=
  let '(x, net) := f (rv_address v) (rv_net v) in (x, mkRemoteMetadataView (rv_address v) (rv_hops v) net).

#[export] Instance Remote_view {S} `{ControlPlane S} : MetadataView (RemoteMetadataView S) := {|
  mv_PlacementFor key rf := on_remote (λ a, Remote_PlacementFor a key rf);
  mv_RegisterObject loc v := on_remote (λ a, Remote_RegisterObject (rv_hops v) a loc) v;
  mv_LookupObject key := on_remote (λ a, Remote_LookupObject a key);
  mv_RemoveObject key v := on_remote (λ a, Remote_RemoveObject (rv_hops v) a key) v;
  mv_ListObjects prefix := on_remote (λ a, Remote_ListObjects a prefix);
|}.

(** ** A call served at its address *)

Lemma FromProtoLocation_To loc : FromProtoLocation (ToProtoLocation loc) = loc.
Proof. by destruct loc. Qed.

Lemma fmap_FromProtoLocation_To (l : list ObjectLocation) : FromProtoLocation <$> (ToProtoLocation <$> l) = l.
Proof.
  rewrite <-list_fmap_compose. rewrite <-(list_fmap_id l) at 2. apply list_fmap_ext. intros ? loc _.
  apply FromProtoLocation_To.
Qed.

(** A status survives the wire, up to the message of an OK one. *)
Lemma ack_status_ack name st :
  ack_status name (inr (ack st)) = if st_ok st then Ok else st.
Proof.
  destruct st as [c m]. unfold ack_status, ack. cbn. autorewrite with dosrw.
  unfold st_ok. cbn. case_bool_decide as E; [by subst|done].
Qed.

(** [handler] runs [f] on the repository of its server and answers [g] of the result. *)
Definition serves {S A Resp} (self : bytes) (f : S → A * S) (g : A → Resp) (handler : S → Net S → Resp * Net S) :=
  ∀ s net, handler s net = (g (f s).1, set_server self (Up (f s).2) net).

Section served.
Context {S A Resp : Type} (self : bytes) (f : S → A * S) (g : A → Resp) (handler : S → Net S → Resp * Net S).
Hypothesis Hserves : serves self f g handler.

Lemma serves_cases net r net' :
  net_call self handler net = (r, net') →
  (net_servers net' = net_servers net ∧ ∃ e, r = inl e) ∨
  (∃ s x s', net_servers net !! self = Some (Up s) ∧ f s = (x, s') ∧
     net_servers net' = <[self := Up s']> (net_servers net) ∧ ∀ resp, r = inr resp → resp = g x).
Proof.
  intros [?|(s & net1 & resp & Hs & Hn & Eh & Hr)]%net_call_cases; [by left|]. right.
  rewrite Hserves in Eh. injection Eh as <- <-. exists s, (f s).1, (f s).2.
  split; [done|]. split; [by destruct (f s)|]. cbn. by rewrite Hn.
Qed.

Lemma serves_quiet net s x s' :
  net_fates net = [] → net_servers net !! self = Some (Up s) → f s = (x, s') →
  net_call self handler net = (inr (g x), set_server self (Up s') net).
Proof. intros Hf Hs E. by rewrite (net_call_quiet _ _ _ s), Hserves, E. Qed.
End served.

Section handlers.
Context {S : Type} `{CP : ControlPlane S} (self : bytes).
Implicit Types s : S.
Implicit Types net : Net S.

Lemma Service_Placement_serves key rf :
  serves self (mv_PlacementFor (S:=S) key (Z.to_nat rf)) (mkPlacementResponse OK) (Service_Placement self key rf).
Proof. intros s net. unfold Service_Placement, stay. by destruct (mv_PlacementFor _ _ s). Qed.

Lemma Service_Lookup_serves key :
  serves self (mv_LookupObject (S:=S) key)
    (λ loc, match loc with
            | FromStatus st => mkLookupResponse (ToProtoCode (st_code st)) (st_message st) ProtoLocation_default
            | FromValue l => mkLookupResponse OK [] (ToProtoLocation l)
            end) (Service_LookupObject self key).
Proof. intros s net. unfold Service_LookupObject, stay. by destruct (mv_LookupObject _ s). Qed.

Lemma Service_List_serves prefix :
  serves self (mv_ListObjects (S:=S) prefix)
    (λ objs, mkListObjectsResponse OK match objs with FromValue l => ToProtoLocation <$> l | FromStatus _ => [] end)
    (Service_ListObjects self prefix).
Proof. intros s net. unfold Service_ListObjects, stay. by destruct (mv_ListObjects _ s). Qed.

(** A mutation at the leader, at a follower that knows one, and elsewhere. *)
Lemma Service_Register_local forward loc s net :
  cp_leadership s = kLeader →
  Service_RegisterObject forward self (ToProtoLocation loc) s net =
  (ack (mv_RegisterObject loc s).1, set_server self (Up (mv_RegisterObject loc s).2) net).
Proof.
  intros E. unfold Service_RegisterObject, ResolveMutation, stay. rewrite E, FromProtoLocation_To.
  by destruct (mv_RegisterObject loc s).
Qed.

Lemma Service_Remove_local forward key s net :
  cp_leadership s = kLeader →
  Service_RemoveObject forward self key s net =
  (ack (mv_RemoveObject key s).1, set_server self (Up (mv_RemoveObject key s).2) net).
Proof.
  intros E. unfold Service_RemoveObject, ResolveMutation, stay. rewrite E. by destruct (mv_RemoveObject key s).
Qed.

(** The clients of the mutations, for some way to forward. *)
Lemma Remote_Register_unfold hops loc net :
  ∃ forward, Remote_RegisterObject hops self loc net =
    let '(r, net) := net_call self (Service_RegisterObject forward self (ToProtoLocation loc)) net in
    (ack_status (lit "RegisterObject") r, net).
Proof. destruct hops; by eexists. Qed.

Lemma Remote_Remove_unfold hops key net :
  ∃ forward, Remote_RemoveObject hops self key net =
    let '(r, net) := net_call self (Service_RemoveObject forward self key) net in
    (ack_status (lit "RemoveObject") r, net).
Proof. destruct hops; by eexists. Qed.

Lemma ResolveMutation_forward s leader :
  cp_leadership s = kFollower → cp_leader_forward_address s = leader → leader ≠ [] →
  ResolveMutation s = kForward leader.
Proof. intros E <- Hl. unfold ResolveMutation. rewrite E. by destruct (cp_leader_forward_address s). Qed.

Lemma ResolveMutation_reject s :
  cp_leadership s = kNoLeader ∨ cp_leadership s = kFollower ∧ cp_leader_forward_address s = [] →
  ResolveMutation s = kReject.
Proof. unfold ResolveMutation. by intros [-> |[-> ->]]. Qed.
End handlers.

(** ** The remote view keeps the promises of a view

    For a control plane that is always its own leader, over any network: calls
    are lost, replies are lost, the server may be down. *)
Section laws.
Context {S : Type} `{CP : ControlPlane S} {L : MetadataViewLaws S}.
Hypothesis Hlead : ∀ s, cp_leadership s = kLeader.
Hypothesis Hlist : ∀ (s : S) prefix, mv_inv s → so_value (mv_ListObjects prefix s).1 ≠ None.
Implicit Types v : RemoteMetadataView S.

Definition rv_server v : option (server S) := net_servers (rv_net v) !! rv_address v.

Definition RemoteInv v : Prop := ∃ sv, rv_server v = Some sv ∧ mv_inv (server_state sv).

Definition rv_registry v : registry :=
  match rv_server v with Some sv => mv_registry (server_state sv) | None => ∅ end.

Lemma on_remote_eq {A} (f : bytes → Net S → A * Net S) v x v' :
  on_remote f v = (x, v') →
  f (rv_address v) (rv_net v) = (x, rv_net v') ∧ rv_address v' = rv_address v.
Proof. unfold on_remote. destruct (f _ _). by intros [= <- <-]. Qed.

(** What a call does to the repository behind the view. *)
Lemma remote_call {A Resp} (f : S → A * S) (g : A → Resp) handler v r v' :
  serves (rv_address v) f g handler → rv_address v' = rv_address v → RemoteInv v →
  net_call (rv_address v) handler (rv_net v) = (r, rv_net v') →
  (RemoteInv v' ∧ rv_registry v' = rv_registry v ∧ ∃ e, r = inl e) ∨
  (∃ s x s', mv_inv s ∧ f s = (x, s') ∧ rv_registry v = mv_registry s ∧ rv_registry v' = mv_registry s' ∧
     (mv_inv s' → RemoteInv v') ∧ ∀ resp, r = inr resp → resp = g x).
Proof.
  intros Hserves Ha (sv & Hs & Hi) [[Hn He]|(s & x & s' & Hup & Ef & Hn & Hr)]%(serves_cases _ _ _ _ Hserves);
    unfold RemoteInv, rv_registry, rv_server in *; rewrite Ha, Hn; [left; rewrite Hs; eauto|right].
  rewrite Hup in Hs. injection Hs as <-. exists s, x, s'. rewrite Hup, lookup_insert_eq. naive_solver.
Qed.

#[export] Instance Remote_laws : MetadataViewLaws (RemoteMetadataView S).
Proof using CP L Hlead Hlist.
  refine {| mv_inv := RemoteInv; mv_registry := rv_registry |}.
  - intros v (sv & Hs & Hi). unfold rv_registry. rewrite Hs. by apply mv_keyed.
  - intros v key rf l v' HI [E Ha]%(on_remote_eq (λ a, Remote_PlacementFor a key rf)). unfold Remote_PlacementFor in E.
    destruct (net_call _ _ _) as [r net] eqn:Ec. injection E as <- ->.
    eapply remote_call in Ec as [(HI' & Er & e & ->)|(s & x & s' & Hi & Ef & Er & Er' & HI' & Hr)];
      [..|eapply (Service_Placement_serves (S:=S))|done|done].
    { split; [done|]. split; [done|]. split; [constructor|simpl; lia]. }
    apply mv_PlacementFor_law in Ef as (Hi' & Ereg & Hnd & Hlen); [|done].
    split; [by apply HI'|]. split; [by rewrite Er', Er|].
    destruct r as [e|resp]; [split; [constructor|simpl; lia]|]. rewrite (Hr resp eq_refl). cbn.
    split; [done|]. assert (u32 (Z.of_nat rf) ≤ Z.of_nat rf) by (apply Z.mod_le; lia). lia.
  - intros v loc st v' HI Hd [E Ha]%(on_remote_eq (λ a, Remote_RegisterObject (rv_hops v) a loc)).
    destruct (Remote_Register_unfold (rv_address v) (rv_hops v) loc (rv_net v)) as [forward Eu]. rewrite Eu in E.
    destruct (net_call _ _ _) as [r net] eqn:Ec. injection E as <- ->.
    eapply remote_call in Ec as [(HI' & Er & e & ->)|(s & x & s' & Hi & Ef & Er & Er' & HI' & Hr)];
      [..|intros s net; by apply (Service_Register_local (S:=S) _ _ loc)|done|done]; [by eauto|].
    apply mv_RegisterObject_law in Ef as (Hi' & Hreg); [|done..].
    split; [by apply HI'|]. rewrite Er', Er. destruct Hreg as [?|[Hst ?]]; [by left|]. right.
    split; [|done]. destruct r as [e|resp]; [done|]. rewrite (Hr resp eq_refl), ack_status_ack. by rewrite Hst.
  - intros v key r0 v' HI [E Ha]%(on_remote_eq (λ a, Remote_LookupObject a key)). unfold Remote_LookupObject in E.
    destruct (net_call _ _ _) as [r net] eqn:Ec. injection E as <- ->.
    eapply remote_call in Ec as [(HI' & Er & e & ->)|(s & x & s' & Hi & Ef & Er & Er' & HI' & Hr)];
      [..|eapply (Service_Lookup_serves (S:=S))|done|done]; [done|].
    apply mv_LookupObject_law in Ef as (Hi' & Ereg & Hres); [|done].
    split; [by apply HI'|]. rewrite Er', Er. split; [done|].
    destruct r as [e|resp]; [done|]. rewrite (Hr resp eq_refl). destruct x as [st|loc]; cbn.
    + destruct Hres as [Hne Hnf]. rewrite bool_decide_eq_true_2 by (by rewrite ToProtoCode_ok). cbn.
      by autorewrite with dosrw.
    + by rewrite FromProtoLocation_To.
  - intros v key st v' HI [E Ha]%(on_remote_eq (λ a, Remote_RemoveObject (rv_hops v) a key)).
    destruct (Remote_Remove_unfold (rv_address v) (rv_hops v) key (rv_net v)) as [forward Eu]. rewrite Eu in E.
    destruct (net_call _ _ _) as [r net] eqn:Ec. injection E as <- ->.
    eapply remote_call in Ec as [(HI' & Er & e & ->)|(s & x & s' & Hi & Ef & Er & Er' & HI' & Hr)];
      [..|intros s net; by apply (Service_Remove_local (S:=S) _ _ key)|done|done]; [by naive_solver|].
    apply mv_RemoveObject_law in Ef as (Hi' & Hlive & Hreg); [|done].
    split; [by apply HI'|]. rewrite Er', Er.
    destruct r as [e|resp]; [naive_solver|]. rewrite (Hr resp eq_refl), ack_status_ack.
    destruct (st_ok x) eqn:Ex; rewrite ?Ex; naive_solver.
  - intros v prefix r0 v' HI [E Ha]%(on_remote_eq (λ a, Remote_ListObjects a prefix)). unfold Remote_ListObjects in E.
    destruct (net_call _ _ _) as [r net] eqn:Ec. injection E as <- ->.
    eapply remote_call in Ec as [(HI' & Er & e & ->)|(s & x & s' & Hi & Ef & Er & Er' & HI' & Hr)];
      [..|eapply (Service_List_serves (S:=S))|done|done]; [done|].
    pose proof (Hlist s prefix Hi) as Hx. rewrite Ef in Hx.
    apply mv_ListObjects_law in Ef as (Hi' & Ereg & Hres); [|done].
    split; [by apply HI'|]. rewrite Er', Er. split; [done|].
    destruct r as [e|resp]; [done|]. rewrite (Hr resp eq_refl). destruct x as [st|locs]; [done|]. cbn.
    by rewrite fmap_FromProtoLocation_To.
Defined.
End laws.

#[export] Instance Remote_repository_laws : MetadataViewLaws (RemoteMetadataView MetadataRepository).
Proof. apply Remote_laws; [done|]. intros s prefix _. done. Defined.

(** ** Transparency over a quiet network *)

(** [static_cast<uint32_t>] keeps the replication factor. *)
Definition op_u32 (op : view_op) : Prop :=
  match op with OpPlacement _ rf => is_u32 (Z.of_nat rf) | _ => True end.

Section transparent.
Implicit Types v : RemoteMetadataView MetadataRepository.

Lemma remote_run_view op v s :
  net_fates (rv_net v) = [] → rv_server v = Some (Up s) → op_u32 op →
  ∃ v', run_view op v = ((run_view op s).1, v') ∧
    net_fates (rv_net v') = [] ∧ rv_server v' = Some (Up (run_view op s).2).
Proof.
  destruct v as [a hops net]. unfold rv_server. cbn [rv_net rv_address]. intros Hf Hs Hop.
  assert (∀ s : MetadataRepository, cp_leadership s = kLeader) as Hl by done.
  set (s' := (run_view op s).2).
  enough (run_view op (mkRemoteMetadataView a hops net) =
          ((run_view op s).1, mkRemoteMetadataView a hops (set_server a (Up s') net))) as E.
  { eexists. split; [exact E|]. split; [done|]. apply lookup_insert_eq. }
  subst s'. destruct op as [key rf|loc|key|key|prefix]; cbn [run_view mv_PlacementFor mv_RegisterObject
    mv_LookupObject mv_RemoveObject mv_ListObjects Remote_view cp_view Repository_view]; unfold on_remote; cbn [rv_address rv_net rv_hops].
  - unfold Remote_PlacementFor. rewrite u32_small by done.
    rewrite (serves_quiet _ _ _ _ (Service_Placement_serves a key _) _ s _ _ Hf Hs (surjective_pairing _)).
    by rewrite Nat2Z.id.
  - destruct (Remote_Register_unfold a hops loc net) as [forward ->].
    by rewrite (serves_quiet a (MetadataRepository.RegisterObject loc) ack _
      (λ s net, Service_Register_local a forward loc s net (Hl s)) _ s _ _ Hf Hs (surjective_pairing _)).
  - unfold Remote_LookupObject.
    rewrite (serves_quiet _ _ _ _ (Service_Lookup_serves (CP:=Repository_control_plane) a key) _ s _ _ Hf Hs (LookupObject_eq key s)).
    rewrite LookupObject_eq. destruct (live _ key) as [loc|]; [|done]. cbn. by rewrite FromProtoLocation_To.
  - destruct (Remote_Remove_unfold a hops key net) as [forward ->].
    rewrite (serves_quiet a (MetadataRepository.RemoveObject key) ack _
      (λ s net, Service_Remove_local a forward key s net (Hl s)) _ s _ _ Hf Hs (surjective_pairing _)).
    rewrite RemoveObject_eq. by destruct (live _ key).
  - unfold Remote_ListObjects.
    rewrite (serves_quiet _ _ _ _ (Service_List_serves (CP:=Repository_control_plane) a prefix) _ s _ _ Hf Hs (ListObjects_eq prefix s)).
    rewrite ListObjects_eq. cbn. by rewrite fmap_FromProtoLocation_To.
Qed.

Lemma remote_view_results ops v s :
  net_fates (rv_net v) = [] → rv_server v = Some (Up s) → Forall op_u32 ops →
  view_results ops v = view_results ops s.
Proof.
  intros Hf Hs Hall. revert v s Hf Hs. induction Hall as [|op ops Hop _ IH]; intros v s Hf Hs; [done|].
  destruct (remote_run_view op v s Hf Hs Hop) as (v' & E & Hf' & Hs'). cbn [view_results]. rewrite E.
  destruct (run_view op s) as [r s']. f_equal. by apply IH.
Qed.
End transparent.

(** The control plane over gRPC is the control plane.  While no call is lost,
    a sequence of operations through [RemoteMetadataView] gets the answers the
    repository itself would give, values, errors and messages. *)
Theorem metadata_rpc_transparent address hops (net : Net MetadataRepository) s ops :
  net_fates net = [] → net_servers net !! address = Some (Up s) → Forall op_u32 ops →
  view_results ops (mkRemoteMetadataView address hops net) = view_results ops s.
Proof. intros Hf Hs Hall. by apply remote_view_results. Qed.

Lemma metadata_rpc_transparent_witness :
  let repo := MetadataRepository.AddNode (NodeInfo_at (lit "node-a") (lit "10.0.0.1:50051")) (MetadataRepository_new 2) in
  let net := mkNet {[lit "meta" := Up repo]} [] in
  let ops := [OpPlacement (lit "k") 3; OpRegister (demo_loc (lit "k") 1); OpLookup (lit "k"); OpRemove (lit "k");
              OpLookup (lit "k"); OpRemove (lit "k")] in
  view_results ops (mkRemoteMetadataView (lit "meta") 0 net) = view_results ops repo ∧
  view_results ops repo !! 4%nat = Some (ResLookup (FromStatus (no_metadata (lit "k")))).
Proof. split; [|by vm_compute]. by apply metadata_rpc_transparent; repeat constructor. Defined.

(** ** Mutations happen at a leader

    Over any network. *)
Section mutations.
Context {S : Type} `{CP : ControlPlane S}.
Implicit Types s : S.
Implicit Types net : Net S.

(** The mutation [f] took place at one leader, as an OK answer says; or nothing
    happened and the answer is not OK. *)
Definition at_leader {A} (f : S → A * S) (ok : A → bool) (st : Status) net net' : Prop :=
  (st_ok st = false ∧ net_servers net' = net_servers net) ∨
  (∃ leader sl, net_servers net !! leader = Some (Up sl) ∧ cp_leadership sl = kLeader ∧
     net_servers net' = <[leader := Up (f sl).2]> (net_servers net) ∧
     (st_ok st = true → ok (f sl).1 = true)).

(** The shape the three mutating handlers share. *)
Definition mutation {A} (forward : bytes → Net S → Status * Net S) (self : bytes) (f : S → A * S) (reply : A → MetaAck)
    s net : MetaAck * Net S :=
  match ResolveMutation s with
  | kReject => (no_leader_ack, net)
  | kForward leader => let '(st, net) := forward leader net in (ack st, net)
  | kLocal => (reply (f s).1, set_server self (Up (f s).2) net)
  end.

Definition add_node (id address : bytes) s : unit * S := (tt, cp_AddNode (NodeInfo_at id address) s).

Lemma Service_Register_mutation forward self loc s net :
  Service_RegisterObject forward self (ToProtoLocation loc) s net =
  mutation (λ leader, forward leader loc) self (mv_RegisterObject loc) ack s net.
Proof.
  unfold Service_RegisterObject, mutation, stay. rewrite FromProtoLocation_To.
  destruct (ResolveMutation s); try done. by destruct (mv_RegisterObject loc s).
Qed.

Lemma Service_Remove_mutation forward self key s net :
  Service_RemoveObject forward self key s net =
  mutation (λ leader, forward leader key) self (mv_RemoveObject key) ack s net.
Proof.
  unfold Service_RemoveObject, mutation, stay. destruct (ResolveMutation s); try done.
  by destruct (mv_RemoveObject key s).
Qed.

Lemma Service_AddNode_mutation forward self id address s net :
  Service_AddNode forward self id address s net =
  mutation (λ leader, forward leader id address) self (add_node id address) (λ _, mkMetaAck OK []) s net.
Proof. done. Qed.

Lemma ResolveMutation_local s : ResolveMutation s = kLocal → cp_leadership s = kLeader.
Proof. unfold ResolveMutation. destruct (cp_leadership s); [done| |done]. by destruct (cp_leader_forward_address s). Qed.

(** One hop: if forwarding mutates at a leader, so does the call. *)
Lemma mutation_hop {A} (f : S → A * S) ok reply name forward self handler net r net' :
  (∀ leader net1 st net2, forward leader net1 = (st, net2) → at_leader f ok st net1 net2) →
  (∀ x, ok x = st_ok (ack_status name (inr (reply x)))) →
  (∀ s net1, handler s net1 = mutation forward self f reply s net1) →
  net_call self handler net = (r, net') → at_leader f ok (ack_status name r) net net'.
Proof.
  intros Hfwd Hok Hh [[Hn [e ->]]|(s & net1 & resp & Hs & Hn & Eh & Hr)]%net_call_cases; [by left|].
  assert (st_ok (ack_status name r) = true → st_ok (ack_status name (inr resp)) = true) as Himp.
  { destruct r as [e|resp']; [done|]. by rewrite (Hr resp' eq_refl). }
  rewrite Hh in Eh. unfold mutation in Eh. destruct (ResolveMutation s) as [|leader|] eqn:Er.
  - injection Eh as <- <-. right. exists self, s. rewrite Hok. cbn. rewrite Hn. auto using ResolveMutation_local.
  - destruct (forward leader net1) as [st net2] eqn:Ef. injection Eh as <- ->. apply Hfwd in Ef.
    rewrite ack_status_ack in Himp. unfold at_leader in *. rewrite Hn in Ef.
    destruct (st_ok st) eqn:Est; destruct Ef as [[? ?]|(l & sl & ? & ? & ? & ?)]; try done;
      [right; exists l, sl; auto|left|right; exists l, sl].
    + split; [|done]. destruct (st_ok (ack_status name r)); [|done]. rewrite Est in Himp. by rewrite Himp.
    + split; [done|]. split; [done|]. split; [done|]. rewrite Est in Himp. intros E. by apply Himp in E.
  - injection Eh as <- <-. left. split; [|done]. destruct (st_ok (ack_status name r)); [by specialize (Himp eq_refl)|done].
Qed.

Lemma ack_ok name st : st_ok st = st_ok (ack_status name (inr (ack st))).
Proof. rewrite ack_status_ack. by destruct (st_ok st) eqn:E; rewrite ?E. Qed.

Lemma register_at_leader hops : ∀ self loc net st net',
  Remote_RegisterObject hops self loc net = (st, net') →
  at_leader (mv_RegisterObject (S:=S) loc) st_ok st net net'.
Proof.
  induction hops as [|h IH]; intros self loc net st net'; cbn [Remote_RegisterObject];
    (destruct (net_call _ _ _) as [r net1] eqn:Ec); intros [= <- ->]; revert Ec;
    (eapply mutation_hop; [|apply ack_ok|intros s net1; apply (Service_Register_mutation _ _ loc)]);
    [by intros leader net1 st net2 [= <- <-]; left|by intros leader; apply IH].
Qed.

Lemma remove_at_leader hops : ∀ self key net st net',
  Remote_RemoveObject hops self key net = (st, net') →
  at_leader (mv_RemoveObject (S:=S) key) st_ok st net net'.
Proof.
  induction hops as [|h IH]; intros self key net st net'; cbn [Remote_RemoveObject];
    (destruct (net_call _ _ _) as [r net1] eqn:Ec); intros [= <- ->]; revert Ec;
    (eapply mutation_hop; [|apply ack_ok|intros s net1; apply Service_Remove_mutation]);
    [by intros leader net1 st net2 [= <- <-]; left|by intros leader; apply IH].
Qed.

Lemma add_node_at_leader hops : ∀ self id address net st net',
  Remote_AddNode hops self id address net = (st, net') →
  at_leader (add_node id address) (λ _, true) st net net'.
Proof.
  induction hops as [|h IH]; intros self id address net st net'; cbn [Remote_AddNode];
    (destruct (net_call _ _ _) as [r net1] eqn:Ec); intros [= <- ->]; revert Ec;
    (eapply (mutation_hop _ _ (λ _, mkMetaAck OK [])); [|done|intros s net1; apply Service_AddNode_mutation]);
    [by intros leader net1 st net2 [= <- <-]; left|by intros leader; apply IH].
Qed.
End mutations.

(** C33: a mutation of the control plane takes effect at most once, and at a leader.
    Whatever the network loses and however often followers forward the call,
    registering or removing an object or adding a node changes no server, and then
    does not answer OK, or changes exactly one, which was the leader, by that one
    operation; an OK answer is the leader's. *)
Theorem metadata_mutation_at_leader {S} `{ControlPlane S} hops self (net : Net S) :
  (∀ loc st net', Remote_RegisterObject hops self loc net = (st, net') →
     at_leader (mv_RegisterObject loc) st_ok st net net') ∧
  (∀ key st net', Remote_RemoveObject hops self key net = (st, net') →
     at_leader (mv_RemoveObject key) st_ok st net net') ∧
  (∀ id address st net', Remote_AddNode hops self id address net = (st, net') →
     at_leader (add_node id address) (λ _, true) st net net').
Proof.
  split; [|split]; intros *; [apply register_at_leader|apply remove_at_leader|apply add_node_at_leader].
Qed.

(** ** Forwarding *)

(** A status as it comes back over the wire. *)
Definition wire (st : Status) : Status := if st_ok st then Ok else st.

Lemma wire_wire st : wire (wire st) = wire st.
Proof. unfold wire. by destruct (st_ok st) eqn:E; rewrite ?E. Qed.

Section forwarding.
Context {S : Type} `{CP : ControlPlane S} (net : Net S) (follower leader : bytes) (sf sl : S).
Hypothesis Hquiet : net_fates net = [].
Hypothesis Hfollower : net_servers net !! follower = Some (Up sf).
Hypothesis Hleader : net_servers net !! leader = Some (Up sl).
Hypothesis Hsl : cp_leadership sl = kLeader.

Definition done_at_leader {A} (f : S → A * S) : Net S := set_server leader (Up (f sl).2) net.

(** The call at the leader. *)
Lemma mutation_direct {A} (f : S → A * S) reply forward handler :
  (∀ s net1, handler s net1 = mutation forward leader f reply s net1) →
  net_call leader handler net = (inr (reply (f sl).1), done_at_leader f).
Proof.
  intros Hh. rewrite (net_call_quiet _ _ _ sl), Hh by done. unfold mutation, ResolveMutation. by rewrite Hsl.
Qed.

(** The call at the follower, which makes the call at the leader. *)
Lemma mutation_forwarded {A} (f : S → A * S) reply forward handler st :
  ResolveMutation sf = kForward leader →
  (∀ s net1, handler s net1 = mutation forward follower f reply s net1) →
  forward leader net = (st, done_at_leader f) →
  net_call follower handler net = (inr (ack st), done_at_leader f).
Proof.
  intros Hr Hh E. rewrite (net_call_quiet _ _ _ sf), Hh by done. unfold mutation. by rewrite Hr, E.
Qed.

Lemma register_direct hops loc :
  Remote_RegisterObject hops leader loc net = (wire (mv_RegisterObject loc sl).1, done_at_leader (mv_RegisterObject loc)).
Proof using CP Hquiet Hleader Hsl.
  destruct hops; cbn [Remote_RegisterObject];
    (erewrite mutation_direct; [|intros s net1; apply (Service_Register_mutation _ _ loc)]); by rewrite ack_status_ack.
Qed.

Lemma remove_direct hops key :
  Remote_RemoveObject hops leader key net = (wire (mv_RemoveObject key sl).1, done_at_leader (mv_RemoveObject key)).
Proof using CP Hquiet Hleader Hsl.
  destruct hops; cbn [Remote_RemoveObject];
    (erewrite mutation_direct; [|intros s net1; apply Service_Remove_mutation]); by rewrite ack_status_ack.
Qed.

Lemma add_node_direct hops id address :
  Remote_AddNode hops leader id address net = (Ok, done_at_leader (add_node id address)).
Proof using CP Hquiet Hleader Hsl.
  destruct hops; cbn [Remote_AddNode]; (erewrite mutation_direct; [|intros s net1; apply Service_AddNode_mutation]); done.
Qed.
End forwarding.

(** The call at a server that knows no leader. *)
Definition no_leader {S} `{ControlPlane S} (s : S) : Prop :=
  cp_leadership s = kNoLeader ∨ cp_leadership s = kFollower ∧ cp_leader_forward_address s = [].

Definition no_leader_status : Status := Unavailable (lit "no metadata leader available").

Lemma mutation_rejected {S} `{ControlPlane S} {A} (net : Net S) self s (f : S → A * S) reply forward handler :
  net_fates net = [] → net_servers net !! self = Some (Up s) → ResolveMutation s = kReject →
  (∀ s net1, handler s net1 = mutation forward self f reply s net1) →
  net_call self handler net = (inr no_leader_ack, net).
Proof. intros Hq Hs Hr Hh. rewrite (net_call_quiet _ _ _ s), Hh by done. unfold mutation. by rewrite Hr. Qed.

(** C34: a follower serves writes.  While no call is lost, registering or removing an
    object or adding a node at a follower that knows the leader's address answers
    what the leader answers and leaves the leader where the operation leaves it;
    at a server that knows no leader the answer is Unavailable and nothing
    changes. *)
Theorem metadata_forwarding {S} `{ControlPlane S} hops (net : Net S) follower leader sf sl :
  net_fates net = [] → net_servers net !! follower = Some (Up sf) → net_servers net !! leader = Some (Up sl) →
  cp_leadership sf = kFollower → cp_leader_forward_address sf = leader → leader ≠ [] → cp_leadership sl = kLeader →
  (∀ loc, Remote_RegisterObject (Datatypes.S hops) follower loc net =
     let '(st, sl') := mv_RegisterObject loc sl in (wire st, set_server leader (Up sl') net)) ∧
  (∀ key, Remote_RemoveObject (Datatypes.S hops) follower key net =
     let '(st, sl') := mv_RemoveObject key sl in (wire st, set_server leader (Up sl') net)) ∧
  (∀ id address, Remote_AddNode (Datatypes.S hops) follower id address net =
     (Ok, set_server leader (Up (cp_AddNode (NodeInfo_at id address) sl)) net)) ∧
  (∀ other so loc key id address, net_servers net !! other = Some (Up so) → no_leader so →
     Remote_RegisterObject hops other loc net = (no_leader_status, net) ∧
     Remote_RemoveObject hops other key net = (no_leader_status, net) ∧
     Remote_AddNode hops other id address net = (no_leader_status, net)).
Proof.
  intros Hq Hf Hl Esf Ea Hne Esl. pose proof (ResolveMutation_forward sf leader Esf Ea Hne) as Er.
  split; [|split; [|split]].
  - intros loc. cbn [Remote_RegisterObject].
    erewrite (mutation_forwarded net follower leader sf sl); [|done..| |];
      [|intros s net1; apply (Service_Register_mutation _ _ loc)|by apply register_direct].
    rewrite ack_status_ack. fold (wire (wire (mv_RegisterObject loc sl).1)). rewrite wire_wire.
    unfold done_at_leader. by destruct (mv_RegisterObject loc sl).
  - intros key. cbn [Remote_RemoveObject].
    erewrite (mutation_forwarded net follower leader sf sl); [|done..| |];
      [|intros s net1; apply Service_Remove_mutation|by apply remove_direct].
    rewrite ack_status_ack. fold (wire (wire (mv_RemoveObject key sl).1)). rewrite wire_wire.
    unfold done_at_leader. by destruct (mv_RemoveObject key sl).
  - intros id address. cbn [Remote_AddNode].
    erewrite (mutation_forwarded net follower leader sf sl); [|done..| |];
      [|intros s net1; apply Service_AddNode_mutation|by apply add_node_direct]. done.
  - intros other so loc key id address Ho Hr%ResolveMutation_reject.
    split; [|split]; destruct hops; cbn [Remote_RegisterObject Remote_RemoveObject Remote_AddNode];
      erewrite (mutation_rejected net other so); try done; intros s net1;
      first [apply (Service_Register_mutation _ _ loc)|apply Service_Remove_mutation|apply Service_AddNode_mutation].
Qed.

(** ** Witnesses *)

(** A replica of the control plane with its role: the state of a Raft member, with
    the leader it knows. *)
Record Member := mkMember { m_repo : MetadataRepository; m_role : Leadership; m_leader : bytes }.

Definition on_member {A} (f : MetadataRepository → A * MetadataRepository) (m : Member) : A * Member :=
  let '(x, r) := f (m_repo m) in (x, mkMember r (m_role m) (m_leader m)).

#[local] Instance Member_view : MetadataView Member := {|
  mv_PlacementFor key rf := on_member (MetadataRepository.PlacementFor key rf);
  mv_RegisterObject loc := on_member (MetadataRepository.RegisterObject loc);
  mv_LookupObject key := on_member (MetadataRepository.LookupObject key);
  mv_RemoveObject key := on_member (MetadataRepository.RemoveObject key);
  mv_ListObjects prefix := on_member (MetadataRepository.ListObjects prefix);
|}.

#[local] Instance Member_control_plane : ControlPlane Member := {|
  cp_AddNode n m := mkMember (MetadataRepository.AddNode n (m_repo m)) (m_role m) (m_leader m);
  cp_Nodes m := MetadataRepository.Nodes (m_repo m);
  cp_leadership := m_role;
  cp_leader_forward_address := m_leader;
|}.

Definition demo_leader : Member := mkMember (MetadataRepository_new 2) kLeader [].
Definition demo_follower : Member := mkMember (MetadataRepository_new 2) kFollower (lit "meta-1").
Definition demo_net (fates : list fate) : Net Member :=
  mkNet (<[lit "meta-1" := Up demo_leader]> {[lit "meta-2" := Up demo_follower]}) fates.

Lemma metadata_forwarding_witness :
  Remote_RegisterObject 1 (lit "meta-2") (demo_loc (lit "k") 1) (demo_net []) =
    (Ok, set_server (lit "meta-1") (Up (mv_RegisterObject (demo_loc (lit "k") 1) demo_leader).2) (demo_net [])) ∧
  (Remote_RemoveObject 1 (lit "meta-2") (lit "k") (demo_net [])).1 = no_metadata (lit "k").
Proof.
  pose proof (metadata_forwarding 0 (demo_net []) (lit "meta-2") (lit "meta-1") demo_follower demo_leader
    eq_refl eq_refl eq_refl eq_refl eq_refl ltac:(done) eq_refl) as (Hr & Hd & _ & _).
  split; [exact (Hr _)|]. by rewrite Hd.
Defined.

Lemma metadata_mutation_at_leader_witness :
  let loc := demo_loc (lit "k") 1 in
  let net := demo_net [Deliver []; LoseReply (lit "Deadline Exceeded")] in
  let r := Remote_RegisterObject 1 (lit "meta-2") loc net in
  st_ok r.1 = false ∧ at_leader (mv_RegisterObject loc) st_ok r.1 net r.2 ∧
  (Remote_LookupObject (lit "meta-1") (lit "k") r.2).1 = FromValue loc.
Proof.
  intros loc net r. split; [by vm_compute|]. split; [|by vm_compute].
  exact (proj1 (metadata_mutation_at_leader 1 (lit "meta-2") net) loc r.1 r.2 (surjective_pairing r)).
Defined.

(** ** The cache over a remote view

    The reply to a registration is lost: the leader has the new version, the
    gateway's cache keeps the old one, and its lookups return it. *)
Lemma cache_stale_after_lost_reply :
  let old := demo_loc (lit "k") 1 in
  let new := demo_loc (lit "k") 2 in
  let net := mkNet {[lit "meta" := Up (MetadataRepository_new 2)]} [Deliver []; LoseReply (lit "Deadline Exceeded")] in
  let s0 := CachingMetadataView_new (mkRemoteMetadataView (lit "meta") 0 net) 8 in
  let '(st1, s1) := mv_RegisterObject old s0 in
  let '(st2, s2) := mv_RegisterObject new s1 in
  st1 = Ok ∧ st2 = Unavailable (lit "RegisterObject RPC failed: Deadline Exceeded") ∧
  (mv_LookupObject (lit "k") s2).1 = FromValue old ∧
  (mv_LookupObject (lit "k") (cv_inner s2)).1 = FromValue new.
Proof. vm_compute. done. Qed.
