(* ===== verification/ObjectStore.v ===== *)
(** * The object store's interface

    [include/storage/object_store.h]: the operations a storage node offers, what
    they promise about the table of objects, and the proof that
    [LocalObjectStore] keeps the promise whatever system calls fail and wherever
    the process dies.  The nodes of the cluster (StorageNode.v, Coordinator.v,
    Repairer.v) are used through this interface. *)

From stdpp Require Import base gmap list sorting.
From Stdlib Require Import ZArith Lia.
From S2P Require Import Prelude Status Wire Framing Posix IoLogic Wal Sha256 MetadataStore.
From S2P Require Import LocalObjectStore StoreRecovery.

Local Open Scope Z_scope.

(** An operation returns [None] when the process dies in it. *)
Class ObjectStore (S : Type) := {
  os_Put : bytes → bytes → S → option (StatusOr ObjectMetadata) * S;
  os_PutWithVersion : bytes → bytes → Z → S → option (StatusOr ObjectMetadata) * S;
  os_PutConditional : bytes → bytes → Z → bytes → S → option (StatusOr ObjectMetadata) * S;
  os_Get : bytes → S → option (StatusOr bytes) * S;
  os_Head : bytes → S → option (StatusOr ObjectMetadata) * S;
  os_Delete : bytes → S → option Status * S;
  os_List : bytes → S → option (StatusOr (list ObjectMetadata)) * S;
}.

(** The table of a store: a row for each key, deleted ones included. *)
Notation table := (gmap bytes ObjectMetadata).

(** The row of a key that is live. *)
Definition live_row (rows : table) (key : bytes) (m : ObjectMetadata) : Prop :=
  rows !! key = Some m ∧ om_deleted m = false.

(** The version of a key's row, 0 when it has none. *)
Definition row_version (rows : table) (key : bytes) : Z := from_option om_version 0 (rows !! key).

Definition put_ok (key data : bytes) : Prop := nul_free key ∧ Zlen data * 8 < 2 ^ 64.

(** What a call that did not return may have done: nothing or a write of [data]. *)
Definition maybe_written (key data : bytes) (version : Z) (request_id : bytes) (rows rows' : table) : Prop :=
  rows' = rows ∨
  ∃ m, new_meta key data version m ∧ om_request_id m = request_id ∧ rows' = <[key := m]> rows.

Definition retry_of (rows : table) (key request_id : bytes) (m : ObjectMetadata) : Prop :=
  rows !! key = Some m ∧ request_id ≠ [] ∧ om_request_id m = request_id.

Class ObjectStoreLaws (S : Type) `{ObjectStore S} := {
  os_inv : S → Prop;
  os_rows : S → table;
  os_PutWithVersion_law s key data version r s' :
    os_inv s → put_ok key data → is_u64 version → os_PutWithVersion key data version s = (r, s') →
    os_inv s' ∧
    match r with
    | Some (FromValue m) =>
        new_meta key data version m ∧ om_request_id m = [] ∧ os_rows s' = <[key := m]> (os_rows s)
    | Some (FromStatus st) => st_ok st = false ∧ os_rows s' = os_rows s
    | None => maybe_written key data version [] (os_rows s) (os_rows s')
    end;
  os_PutConditional_law s key data expected request_id r s' :
    os_inv s → put_ok key data → nul_free request_id →
    os_PutConditional key data expected request_id s = (r, s') →
    os_inv s' ∧
    match r with
    | Some (FromValue m) =>
        (retry_of (os_rows s) key request_id m ∧ os_rows s' = os_rows s) ∨
        (row_version (os_rows s) key = expected ∧ new_meta key data (u64 (expected + 1)) m ∧
         om_request_id m = request_id ∧ os_rows s' = <[key := m]> (os_rows s))
    | Some (FromStatus st) =>
        st_ok st = false ∧ os_rows s' = os_rows s ∧
        (st_code st = kConflict →
         row_version (os_rows s) key ≠ expected ∧ ∀ m, ¬ retry_of (os_rows s) key request_id m)
    | None =>
        os_rows s' = os_rows s ∨
        (row_version (os_rows s) key = expected ∧
         maybe_written key data (u64 (expected + 1)) request_id (os_rows s) (os_rows s'))
    end;
  os_Get_law s key r s' :
    os_inv s → nul_free key → os_Get key s = (r, s') →
    os_inv s' ∧ os_rows s' = os_rows s ∧
    match r with
    | Some (FromValue d) => ∃ m, live_row (os_rows s) key m ∧ Sha256Hex d = om_checksum m
    | Some (FromStatus st) =>
        st_ok st = false ∧ (st_code st = kNotFound → ∀ m, ¬ live_row (os_rows s) key m)
    | None => True
    end;
  os_Head_law s key r s' :
    os_inv s → nul_free key → os_Head key s = (r, s') →
    os_inv s' ∧ os_rows s' = os_rows s ∧
    match r with
    | Some (FromValue m) => live_row (os_rows s) key m
    | Some (FromStatus st) =>
        st_ok st = false ∧ (st_code st = kNotFound → ∀ m, ¬ live_row (os_rows s) key m)
    | None => True
    end;
  os_Delete_law s key r s' :
    os_inv s → nul_free key → os_Delete key s = (r, s') →
    let deleted := ∃ m, live_row (os_rows s) key m ∧ os_rows s' = <[key := tombstone m]> (os_rows s) in
    os_inv s' ∧
    match r with
    | Some st =>
        (st_ok st = true ∧ deleted) ∨
        (st_ok st = false ∧ os_rows s' = os_rows s ∧
         (st_code st = kNotFound → ∀ m, ¬ live_row (os_rows s) key m))
    | None => deleted ∨ os_rows s' = os_rows s
    end;
}.

(** ** Computations seen from the database *)

Section db.
Context {DB : Type}.

Definition dwp {A} (m : IO DB A) (Q : A → DB → Prop) (C : DB → Prop) (db : DB) : Prop :=
  ∀ fs, wp anything m (λ x _, Q x) (λ _, C) fs db.

Lemma dwp_ret {A} (x : A) (Q : A → DB → Prop) (C : DB → Prop) db : Q x db → dwp (ret x) Q C db.
Proof. intros HQ fs. by apply wp_ret. Qed.

Lemma dwp_bind {A B} (m : IO DB A) (k : A → IO DB B) (Q : B → DB → Prop) (C : DB → Prop) db :
  dwp m (λ x, dwp (k x) Q C) C db → dwp (bind m k) Q C db.
Proof. intros Hm fs. apply wp_bind. eapply wp_mono; [apply Hm| |done]. intros x fs' db' Hk. apply Hk. Qed.

Lemma dwp_mono {A} (m : IO DB A) (Q Q' : A → DB → Prop) (C C' : DB → Prop) db :
  dwp m Q C db → (∀ x db', Q x db' → Q' x db') → (∀ db', C db' → C' db') → dwp m Q' C' db.
Proof. intros Hm HQ HC fs. eapply wp_mono; [apply Hm|intros; by apply HQ|intros; by apply HC]. Qed.

Lemma dwp_on_db {A} (f : DB → A * DB) (Q : A → DB → Prop) (C : DB → Prop) db :
  (∀ x db', f db = (x, db') → Q x db') → C db → dwp (on_db f) Q C db.
Proof. intros HQ HC fs. by apply wp_on_db. Qed.

Lemma dwp_time (Q : Z → DB → Prop) (C : DB → Prop) db :
  (∀ t, - 2 ^ 63 <= t < 2 ^ 63 → Q t db) → dwp sys_time Q C db.
Proof. intros HQ fs. by apply wp_sys_time. Qed.

Lemma dwp_elim {A} (m : IO DB A) (Q : A → DB → Prop) (C : DB → Prop) w r w' :
  dwp m Q C (w_db w) → clock_ok (w_times w) → m w = (r, w') →
  clock_ok (w_times w') ∧ match r with Some x => Q x (w_db w') | None => C (w_db w') end.
Proof.
  intros Hm Ht E. destruct (wp_elim anything m _ _ w r w' (Hm _)) as [[_ ?] ?]; [|done|done].
  split; [by apply Forall_true|done].
Qed.

(** Computations that leave the database alone. *)
Definition on_files {A} (m : IO DB A) : Prop := ∀ db, dwp m (λ _ db', db' = db) (λ db', db' = db) db.

Lemma dwp_on_files {A} (m : IO DB A) (Q : A → DB → Prop) (C : DB → Prop) db :
  on_files m → (∀ x, Q x db) → C db → dwp m Q C db.
Proof. intros Hm HQ HC. eapply dwp_mono; [apply Hm|by intros x db' -> |by intros db' ->]. Qed.

Lemma on_files_ret {A} (x : A) : on_files (ret x).
Proof. intros db. by apply dwp_ret. Qed.

Lemma on_files_bind {A B} (m : IO DB A) (k : A → IO DB B) :
  on_files m → (∀ x, on_files (k x)) → on_files (bind m k).
Proof. intros Hm Hk db. apply dwp_bind, dwp_on_files; [done| |done]. intros x. apply Hk. Qed.

Lemma on_files_syscall f : on_files (syscall f).
Proof. intros db fs. by apply wp_syscall. Qed.

Lemma on_files_time : on_files sys_time.
Proof. intros db. by apply dwp_time. Qed.

Lemma on_files_read p : on_files (read_file p).
Proof. intros db fs. apply wp_read_file; try done. by destruct (fs !! p). Qed.

Lemma on_files_write p data : on_files (write_all p data).
Proof.
  intros db fs. Local Transparent wp. intros w <- <- [_ Ht]. unfold write_all.
  destruct (write_all_loop _ _ _ _) as [r [fs' sc]]. simpl.
  split; [split; [by apply Forall_true|done]|]. by destruct r.
Qed.
End db.

#[export] Hint Resolve on_files_ret on_files_bind on_files_syscall on_files_time on_files_read on_files_write : dos.

(** Follow the branches of a computation on files. *)
Ltac on_files_tac :=
  repeat first
    [ progress intros
    | apply on_files_ret | apply on_files_time | apply on_files_read | apply on_files_write
    | apply on_files_syscall
    | apply on_files_bind
    | match goal with |- on_files (match ?x with _ => _ end) => destruct x end
    | match goal with |- on_files (if ?x then _ else _) => destruct x end ].

Section files.
Context {DB : Type}.

Lemma AppendRecord_on_files wal rec : on_files (DB := DB) (AppendRecord wal rec).
Proof. unfold AppendRecord, sys_fsync. on_files_tac. Qed.

Lemma ReadWholeFile_on_files p : on_files (DB := DB) (ReadWholeFile p).
Proof. unfold ReadWholeFile. on_files_tac. Qed.
End files.

(** ** [LocalObjectStore] *)

(** A storage process: its store and the world it runs in. *)
Record StoreProcess (DB : Type) := mkStoreProcess { sp_store : LocalObjectStore; sp_world : World DB }.
Arguments mkStoreProcess {DB}.
Arguments sp_store {DB}.
Arguments sp_world {DB}.

Section process.
Context {DB : Type} `{!MetadataStore DB}.
Variable getpid : Z.
Implicit Types s : StoreProcess DB.

(** Run an operation of the store; one that updates the store object returns it. *)
Definition run_update {A} (f : LocalObjectStore → IO DB (A * LocalObjectStore)) s : option A * StoreProcess DB :=
  match f (sp_store s) (sp_world s) with
  | (Some (x, st), w) => (Some x, mkStoreProcess st w)
  | (None, w) => (None, mkStoreProcess (sp_store s) w)
  end.

Definition run_read {A} (f : LocalObjectStore → IO DB A) s : option A * StoreProcess DB :=
  let '(r, w) := f (sp_store s) (sp_world s) in (r, mkStoreProcess (sp_store s) w).

Definition LocalStore : ObjectStore (StoreProcess DB) := {|
  os_Put key data := run_update (λ st, Put getpid st key data);
  os_PutWithVersion key data version := run_update (λ st, PutWithVersion getpid st key data version);
  os_PutConditional key data expected request_id :=
    run_update (λ st, PutConditional getpid st key data expected request_id);
  os_Get key := run_read (λ st, Get st key);
  os_Head key := run_read (λ st, Head st key);
  os_Delete key := run_update (λ st, Delete st key);
  os_List prefix := run_read (λ st, List st prefix);
|}.
End process.

Section local_laws.
Context {DB : Type} `{MetadataStoreLaws DB}.
Variable getpid : Z.
Implicit Types db : DB.

Lemma meta_ok_put key data version now request_id :
  put_ok key data → is_u64 version → - 2 ^ 63 <= now < 2 ^ 63 → nul_free request_id →
  meta_ok (mkObjectMetadata key (Zlen data) (Sha256Hex data) version now false request_id).
Proof.
  intros [Hk Hd] Hv Hn Hr. split_and!; simpl; try done; [by apply nul_free_Sha256Hex|unfold is_u64; lia|lia..].
Qed.

(** What a write does to the table. *)
Definition wrote (key data : bytes) (version : Z) (request_id : bytes) db
    (r : StatusOr ObjectMetadata * LocalObjectStore) db' : Prop :=
  ms_inv db' ∧
  match r.1 with
  | FromValue m => new_meta key data version m ∧ om_request_id m = request_id ∧
                   ms_rows db' = <[key := m]> (ms_rows db)
  | FromStatus st => st_ok st = false ∧ st_code st ≠ kConflict ∧ ms_rows db' = ms_rows db
  end.

Definition may_have_written (key data : bytes) (version : Z) (request_id : bytes) db db' : Prop :=
  ms_inv db' ∧ maybe_written key data version request_id (ms_rows db) (ms_rows db').

(** The file operations report [kIoError] only. *)
Definition ok_or_io (st : Status) : Prop := st = Ok ∨ st_code st = kIoError.

Lemma ok_or_io_fail st : ok_or_io st → st_ok st = false → st_code st ≠ kConflict.
Proof. by intros [-> | ->]. Qed.

Definition on_files_io {A} (f : A → Status) (m : IO DB A) : Prop :=
  ∀ db, dwp m (λ x db', ok_or_io (f x) ∧ db' = db) (λ db', db' = db) db.

Lemma dwp_on_files_io {A} (f : A → Status) (m : IO DB A) (Q : A → DB → Prop) (C : DB → Prop) db :
  on_files_io f m → (∀ x, ok_or_io (f x) → Q x db) → C db → dwp m Q C db.
Proof.
  intros Hm HQ HC. eapply dwp_mono; [apply Hm| |by intros db' ->]. intros x db' [? ->]. by apply HQ.
Qed.

Lemma on_files_io_ret {A} (f : A → Status) (x : A) : ok_or_io (f x) → on_files_io f (ret x).
Proof. intros Hx db. by apply dwp_ret. Qed.

Lemma on_files_io_bind {A B} (f : B → Status) (m : IO DB A) (k : A → IO DB B) :
  on_files m → (∀ x, on_files_io f (k x)) → on_files_io f (bind m k).
Proof. intros Hm Hk db. apply dwp_bind, dwp_on_files; [done| |done]. intros x. apply Hk. Qed.

Ltac on_files_io_tac :=
  repeat first
    [ progress intros
    | apply on_files_io_ret; first [by left|by right]
    | apply on_files_io_bind; [solve [on_files_tac]|]
    | match goal with |- on_files_io _ (match ?x with _ => _ end) => destruct x end
    | match goal with |- on_files_io _ (if ?x then _ else _) => destruct x end ].

Lemma AppendRecord_io wal rec : on_files_io id (AppendRecord wal rec).
Proof. unfold AppendRecord, sys_fsync. on_files_io_tac. Qed.

Lemma WriteStaged_io tmp final data : on_files_io id (WriteStaged tmp final data).
Proof.
  unfold WriteStaged, FsyncDir, sys_open_trunc, sys_close, sys_unlink, sys_fsync, sys_rename, sys_open_dir.
  on_files_io_tac.
Qed.

Lemma WriteFileAtomic_io st tmp_dir final data :
  on_files_io fst (WriteFileAtomic getpid st tmp_dir final data).
Proof.
  unfold WriteFileAtomic, create_directories. apply on_files_io_bind; [on_files_tac|]. intros [msg|].
  { apply on_files_io_ret. by right. }
  apply on_files_io_bind; [unfold UniqueTmpPath; on_files_tac|]. intros [tmp st'].
  intros db. apply dwp_bind. eapply dwp_mono; [apply WriteStaged_io| |done].
  intros s db' [Hs ->]. by apply dwp_ret.
Qed.

Lemma wrote_failed key data version request_id db st st' :
  ms_inv db → ok_or_io st → st_ok st = false → wrote key data version request_id db (FromStatus st, st') db.
Proof. intros Hi Hio Hst. split; [done|]. split; [done|]. split; [by apply ok_or_io_fail|done]. Qed.

Lemma dwp_commit st key data version request_id db :
  ms_inv db → put_ok key data → is_u64 version → nul_free request_id →
  dwp (DoPut_commit getpid st key data version request_id)
    (wrote key data version request_id db) (may_have_written key data version request_id db) db.
Proof.
  intros Hi Hp Hv Hr. unfold DoPut_commit.
  assert (may_have_written key data version request_id db db) as Hsame by (split; [done|by left]).
  apply dwp_bind, dwp_time. intros now Hnow. destruct (NextSeq (los_wal st)) as [seq wal].
  apply dwp_bind, (dwp_on_files_io id); [apply AppendRecord_io| |done]. intros wb Hwb.
  destruct (st_ok wb) eqn:Ewb; cbn [negb]; [|by apply dwp_ret, wrote_failed].
  apply dwp_bind, (dwp_on_files_io fst); [apply WriteFileAtomic_io| |done]. intros [w st'] Hw. cbn [fst] in Hw.
  destruct (st_ok w) eqn:Ew; cbn [negb]; [|by apply dwp_ret, wrote_failed].
  apply dwp_bind, dwp_on_db; [|done]. intros c db' Hc. cbn in Hc.
  apply ms_Put_law in Hc as [Hi' Hc]; [|done|by apply meta_ok_put].
  destruct Hc as [[-> Hrows]|[Hc Hrows]].
  - cbn [st_ok]. change (negb (st_ok Ok)) with false. cbv iota.
    assert (∀ m, m = mkObjectMetadata key (Zlen data) (Sha256Hex data) version now false request_id →
      ms_rows db' = <[key := m]> (ms_rows db) ∧ new_meta key data version m ∧ om_request_id m = request_id) as Hm
      by by intros m ->.
    destruct (Hm _ eq_refl) as (Em & Hnew & Hid).
    apply dwp_bind, (dwp_on_files_io id); [apply AppendRecord_io| |].
    + intros _ _. apply dwp_ret. done.
    + split; [done|]. right. eauto 10.
  - assert (st_ok c = false) as Ec by (unfold st_ok; by rewrite bool_decide_false by (by rewrite Hc)).
    rewrite Ec. apply dwp_ret. split; [done|]. cbn [fst]. by rewrite Hc.
Qed.

Lemma backend_error_fail st : backend_error st → st_ok st = false ∧ st_code st ≠ kConflict ∧ st_code st ≠ kNotFound.
Proof. unfold backend_error, st_ok. intros ->. done. Qed.

Lemma wrote_rows key data version request_id db1 db r db' :
  ms_rows db1 = ms_rows db → wrote key data version request_id db1 r db' → wrote key data version request_id db r db'.
Proof. unfold wrote. by intros ->. Qed.

Lemma may_have_written_rows key data version request_id db1 db db' :
  ms_rows db1 = ms_rows db → may_have_written key data version request_id db1 db' →
  may_have_written key data version request_id db db'.
Proof. unfold may_have_written. by intros ->. Qed.

(** The write path behind its look at the current row: [go] runs on the version
    found, unless the row answers the request. *)
Lemma dwp_DoPut st key data explicit conditional expected request_id db
    (Q : StatusOr ObjectMetadata * LocalObjectStore → DB → Prop) (C : DB → Prop) :
  ms_inv db → nul_free key → C db →
  (∀ s db', ms_inv db' → ms_rows db' = ms_rows db → backend_error s → Q (FromStatus s, st) db') →
  (∀ m db', ms_inv db' → ms_rows db' = ms_rows db → retry_of (ms_rows db) key request_id m → Q (FromValue m, st) db') →
  (∀ db', ms_inv db' → ms_rows db' = ms_rows db → (∀ m, ¬ retry_of (ms_rows db) key request_id m) →
     dwp match DoPut_version key (row_version (ms_rows db) key) explicit conditional expected with
         | inl s => ret (FromStatus s, st)
         | inr version => DoPut_commit getpid st key data version request_id
         end Q C db') →
  dwp (DoPut getpid st key data explicit conditional expected request_id) Q C db.
Proof.
  intros Hi Hk HC Herr Hretry Hgo. unfold DoPut. apply dwp_bind, dwp_on_db; [|done].
  intros peek db' Hp. apply ms_Peek_law in Hp as (Hi' & Hrows & Hp); [|done..]. unfold row_version in Hgo.
  destruct peek as [s|m].
  - destruct Hp as [[Hc Hnone]|Hb].
    + rewrite bool_decide_true by done. rewrite Hnone in Hgo. apply Hgo; [done..|].
      intros m [E _]. by rewrite Hnone in E.
    + rewrite bool_decide_false by (by apply backend_error_fail). apply dwp_ret. by apply Herr.
  - rewrite Hp in Hgo. destruct (bool_decide (request_id ≠ []) && _) eqn:E; prop_bool.
    + apply dwp_ret. by apply Hretry.
    + apply Hgo; [done..|]. intros m' (E1 & E2 & E3). rewrite Hp in E1. injection E1 as <-.
      by rewrite !bool_decide_true in E by done.
Qed.

Lemma dwp_PutWithVersion st key data version db :
  ms_inv db → put_ok key data → is_u64 version →
  dwp (PutWithVersion getpid st key data version)
    (wrote key data version [] db) (may_have_written key data version [] db) db.
Proof.
  intros Hi Hp Hv. unfold PutWithVersion. case_bool; [by apply dwp_ret|].
  destruct (version =? 0) eqn:Ev; [by apply dwp_ret|]. prop_bool.
  apply dwp_DoPut; [done|apply Hp|split; [done|by left]|..].
  - intros s db' Hi' Hrows Hs. split; [done|]. cbn [fst]. pose proof (backend_error_fail s Hs). naive_solver.
  - by intros m db' _ _ (_ & ? & _).
  - intros db' Hi' Hrows _. unfold DoPut_version. cbn [andb]. rewrite (proj2 (Z.eqb_neq version 0)) by done.
    cbn [negb]. eapply dwp_mono; [apply dwp_commit; try done; apply not_elem_of_nil|..].
    + intros r db1. by apply wrote_rows.
    + intros db1. by apply may_have_written_rows.
Qed.

Lemma dwp_PutConditional st key data expected request_id db :
  ms_inv db → put_ok key data → nul_free request_id →
  dwp (PutConditional getpid st key data expected request_id)
    (λ r db', ms_inv db' ∧
      match r.1 with
      | FromValue m =>
          (retry_of (ms_rows db) key request_id m ∧ ms_rows db' = ms_rows db) ∨
          (row_version (ms_rows db) key = expected ∧ new_meta key data (u64 (expected + 1)) m ∧
           om_request_id m = request_id ∧ ms_rows db' = <[key := m]> (ms_rows db))
      | FromStatus s =>
          st_ok s = false ∧ ms_rows db' = ms_rows db ∧
          (st_code s = kConflict →
           row_version (ms_rows db) key ≠ expected ∧ ∀ m, ¬ retry_of (ms_rows db) key request_id m)
      end)
    (λ db', ms_inv db' ∧
      (ms_rows db' = ms_rows db ∨
       (row_version (ms_rows db) key = expected ∧
        maybe_written key data (u64 (expected + 1)) request_id (ms_rows db) (ms_rows db')))) db.
Proof.
  intros Hi Hp Hr. unfold PutConditional. case_bool; [by apply dwp_ret|].
  apply dwp_DoPut; [done|apply Hp|by auto|..].
  - intros s db' Hi' Hrows Hs. split; [done|]. cbn [fst]. pose proof (backend_error_fail s Hs). naive_solver.
  - intros m db' Hi' Hrows Hm. split; [done|]. by left.
  - intros db' Hi' Hrows Hno. unfold DoPut_version. cbn [andb Z.eqb negb].
    destruct (row_version (ms_rows db) key =? expected) eqn:Ev; prop_bool; cbn [negb].
    + eapply dwp_mono; [apply dwp_commit; try done; apply u64_range|..].
      * intros [[s|m] st'] db1 [Hi1 Hw]; cbn [fst] in *; rewrite Hrows in Hw; (split; [done|]).
        -- destruct Hw as (? & ? & ?). done.
        -- right. destruct Hw as (? & ? & ?). done.
      * intros db1 [? Hw]. rewrite Hrows in Hw. auto.
    + by apply dwp_ret.
Qed.

Lemma dwp_Delete st key db :
  ms_inv db → nul_free key →
  let deleted db' := ∃ m, live_row (ms_rows db) key m ∧ ms_rows db' = <[key := tombstone m]> (ms_rows db) in
  dwp (Delete st key)
    (λ r db', ms_inv db' ∧
      ((st_ok r.1 = true ∧ deleted db') ∨
       (st_ok r.1 = false ∧ ms_rows db' = ms_rows db ∧
        (st_code r.1 = kNotFound → ∀ m, ¬ live_row (ms_rows db) key m))))
    (λ db', ms_inv db' ∧ (deleted db' ∨ ms_rows db' = ms_rows db)) db.
Proof.
  intros Hi Hk deleted. unfold Delete. destruct (NextSeq (los_wal st)) as [seq wal].
  apply dwp_bind, (dwp_on_files_io id); [apply AppendRecord_io| |by auto]. intros wb Hwb.
  destruct (st_ok wb) eqn:Ewb; cbn [negb].
  2:{ apply dwp_ret. split; [done|]. right. cbn [fst]. split; [done|]. split; [done|].
      unfold id in Hwb. destruct Hwb as [-> | E]; [done|]. by rewrite E. }
  apply dwp_bind, dwp_on_db; [|by auto]. intros s db' Hs. cbn in Hs.
  apply ms_Delete_law in Hs as [Hi' Hs]; [|done..]. destruct Hs as [(-> & m & Em & Ed & Er)|Hs].
  - change (negb (st_ok Ok)) with false. cbv iota. assert (deleted db') as Hdel by by exists m.
    apply dwp_bind, (dwp_on_files_io id); [apply AppendRecord_io| |by auto].
    intros _ _. apply dwp_ret. by auto.
  - assert (st_ok s = false) as Es.
    { unfold st_ok. apply bool_decide_eq_false. destruct Hs as [(-> & _)|(-> & _)]; done. }
    rewrite Es. cbn [negb]. apply dwp_ret. split; [done|]. right. cbn [fst]. split; [done|].
    destruct Hs as [(_ & Hgone & ->)|(Hb & ->)]; (split; [done|]).
    + intros _ m [Em Ed]. by rewrite (Hgone m Em) in Ed.
    + apply backend_error_fail in Hb. naive_solver.
Qed.

Lemma live_row_gone rows key : (∀ m, rows !! key = Some m → om_deleted m = true) → ∀ m, ¬ live_row rows key m.
Proof. intros Hg m [E Hd]. by rewrite (Hg m E) in Hd. Qed.

Lemma dwp_Get st key db :
  ms_inv db → nul_free key →
  dwp (Get st key)
    (λ r db', ms_inv db' ∧ ms_rows db' = ms_rows db ∧
      match r with
      | FromValue d => ∃ m, live_row (ms_rows db) key m ∧ Sha256Hex d = om_checksum m
      | FromStatus s => st_ok s = false ∧ (st_code s = kNotFound → ∀ m, ¬ live_row (ms_rows db) key m)
      end)
    (λ db', ms_inv db' ∧ ms_rows db' = ms_rows db) db.
Proof.
  intros Hi Hk. unfold Get. apply dwp_bind, dwp_on_db; [|done]. intros meta db' Hm.
  apply ms_Get_law in Hm as (Hi' & Hrows & Hm); [|done..]. destruct meta as [s|m].
  - apply dwp_ret. split; [done|]. split; [done|]. destruct Hm as [[Hc Hgone]|Hb].
    + split; [unfold st_ok; by rewrite Hc|]. intros _. by apply live_row_gone.
    + apply backend_error_fail in Hb. naive_solver.
  - apply dwp_bind. unfold ReadWholeFile.
    apply dwp_bind, dwp_on_files; [apply on_files_read| |done]. intros [[d bad]|]; [destruct bad|].
    + by apply dwp_ret, dwp_ret.
    + apply dwp_ret. case_bool; prop_bool; apply dwp_ret; (split; [done|]; split; [done|]); [done|].
      exists m. split; [done|]. by apply dec_stable.
    + by apply dwp_ret, dwp_ret.
Qed.

Lemma dwp_Head st key db :
  ms_inv db → nul_free key →
  dwp (Head st key)
    (λ r db', ms_inv db' ∧ ms_rows db' = ms_rows db ∧
      match r with
      | FromValue m => live_row (ms_rows db) key m
      | FromStatus s => st_ok s = false ∧ (st_code s = kNotFound → ∀ m, ¬ live_row (ms_rows db) key m)
      end)
    (λ db', ms_inv db' ∧ ms_rows db' = ms_rows db) db.
Proof.
  intros Hi Hk. unfold Head. apply dwp_on_db; [|done]. intros meta db' Hm.
  apply ms_Get_law in Hm as (Hi' & Hrows & Hm); [|done..]. split; [done|]. split; [done|].
  destruct meta as [s|m]; [|done]. destruct Hm as [[Hc Hgone]|Hb].
  - split; [unfold st_ok; by rewrite Hc|]. intros _. by apply live_row_gone.
  - apply backend_error_fail in Hb. naive_solver.
Qed.

Definition process_inv (s : StoreProcess DB) : Prop :=
  ms_inv (w_db (sp_world s)) ∧ clock_ok (w_times (sp_world s)).
Definition process_rows (s : StoreProcess DB) : table := ms_rows (w_db (sp_world s)).

(** An operation whose effect on the database is known, run by the process. *)
Lemma run_update_spec {A} (f : LocalObjectStore → IO DB (A * LocalObjectStore)) (s s' : StoreProcess DB) r
    (Q : A → DB → Prop) (C : DB → Prop) :
  process_inv s → dwp (f (sp_store s)) (λ x, Q x.1) C (w_db (sp_world s)) →
  run_update f s = (r, s') →
  clock_ok (w_times (sp_world s')) ∧
  match r with Some x => Q x (w_db (sp_world s')) | None => C (w_db (sp_world s')) end.
Proof.
  intros [_ Ht] Hf. unfold run_update. destruct (f (sp_store s) (sp_world s)) as [o w] eqn:E.
  eapply dwp_elim in E as [Ht' Ho]; [|done..]. destruct o as [[x st]|]; by intros [= <- <-].
Qed.

Lemma run_read_spec {A} (f : LocalObjectStore → IO DB A) (s s' : StoreProcess DB) r
    (Q : A → DB → Prop) (C : DB → Prop) :
  process_inv s → dwp (f (sp_store s)) Q C (w_db (sp_world s)) →
  run_read f s = (r, s') →
  clock_ok (w_times (sp_world s')) ∧
  match r with Some x => Q x (w_db (sp_world s')) | None => C (w_db (sp_world s')) end.
Proof.
  intros [_ Ht] Hf. unfold run_read. destruct (f (sp_store s) (sp_world s)) as [o w] eqn:E.
  eapply dwp_elim in E as [Ht' Ho]; [|done..]. by intros [= <- <-].
Qed.

#[export] Instance LocalStoreLaws : @ObjectStoreLaws (StoreProcess DB) (LocalStore getpid).
Proof.
  refine (@Build_ObjectStoreLaws _ (LocalStore getpid) process_inv process_rows _ _ _ _ _).
  - intros s key data version r s' Hi Hp Hv E. cbn [LocalStore os_PutWithVersion os_PutConditional os_Get os_Head os_Delete] in E.
    apply (run_update_spec _ _ _ _ (λ x db', wrote key data version [] (w_db (sp_world s)) (x, sp_store s) db')
      (may_have_written key data version [] (w_db (sp_world s)))) in E as [Ht E]; [|done|].
    2:{ eapply dwp_mono; [by apply dwp_PutWithVersion; [apply Hi|..]|by intros [x st']|done]. }
    destruct r as [[st|m]|]; destruct E as [Hi' E]; (split; [done|]); cbn [fst] in E; [..|done]; naive_solver.
  - intros s key data expected request_id r s' Hi Hp Hr E. cbn [LocalStore os_PutWithVersion os_PutConditional os_Get os_Head os_Delete] in E.
    eapply run_update_spec in E as [Ht E]; [|done|].
    2:{ eapply dwp_mono; [by apply dwp_PutConditional; [apply Hi|..]| |done].
        intros [x st'] db' Hx. cbn [fst] in *. pattern x, db'. exact Hx. }
    destruct r as [[st|m]|]; destruct E as [Hi' E]; (split; [done|]); done.
  - intros s key r s' Hi Hk E. cbn [LocalStore os_PutWithVersion os_PutConditional os_Get os_Head os_Delete] in E.
    eapply run_read_spec in E as [Ht E]; [|done|by apply dwp_Get; [apply Hi|]].
    destruct r as [x|]; [destruct E as (Hi' & Hrows & E)|destruct E as [Hi' Hrows]]; done.
  - intros s key r s' Hi Hk E. cbn [LocalStore os_PutWithVersion os_PutConditional os_Get os_Head os_Delete] in E.
    eapply run_read_spec in E as [Ht E]; [|done|by apply dwp_Head; [apply Hi|]].
    destruct r as [x|]; [destruct E as (Hi' & Hrows & E)|destruct E as [Hi' Hrows]]; done.
  - intros s key r s' Hi Hk E. cbn [LocalStore os_PutWithVersion os_PutConditional os_Get os_Head os_Delete] in E.
    eapply run_update_spec in E as [Ht E]; [|done|].
    2:{ eapply dwp_mono; [by apply dwp_Delete; [apply Hi|]| |done].
        intros [x st'] db' Hx. cbn [fst] in *. pattern x, db'. exact Hx. }
    destruct r as [st|]; destruct E as [Hi' E]; (split; [done|]); done.
Defined.
End local_laws.
