(* ===== verification/MemObjectStore.v ===== *)
(** * A reference store

    The simplest store that keeps the promises of interface [ObjectStore]: a map
    from keys to metadata and bytes, whose operations never fail.  It is what the
    operations of object_store.h mean, and the examples of the cluster use it. *)

From stdpp Require Import base gmap list sorting.
From Stdlib Require Import ZArith Lia.
From S2P Require Import Prelude Status Sha256 MetadataStore StoreRecovery ObjectStore.

Local Open Scope Z_scope.

Record MemObjectStore := mkMemObjectStore { mo_objects : gmap bytes (ObjectMetadata * bytes) }.

Implicit Types s : MemObjectStore.

Definition mo_rows s : table := fst <$> mo_objects s.

Definition mo_write (key data : bytes) (version : Z) (request_id : bytes) s
    : option (StatusOr ObjectMetadata) * MemObjectStore :=
  let m := mkObjectMetadata key (Zlen data) (Sha256Hex data) version 0 false request_id in
  (Some (FromValue m), mkMemObjectStore (<[key := (m, data)]> (mo_objects s))).

Definition mo_not_found (key : bytes) : Status := NotFound (lit "no such key: " ++ key).

Definition mo_put_conditional (key data : bytes) (expected : Z) (request_id : bytes) s :=
  match mo_objects s !! key with
  | Some (m, _) =>
      if bool_decide (request_id ≠ []) && bool_decide (om_request_id m = request_id)
      then (Some (FromValue m), s)
      else if om_version m =? expected then mo_write key data (u64 (expected + 1)) request_id s
      else (Some (FromStatus (Conflict (lit "version conflict"))), s)
  | None =>
      if 0 =? expected then mo_write key data (u64 (expected + 1)) request_id s
      else (Some (FromStatus (Conflict (lit "version conflict"))), s)
  end.

Definition mo_find (key : bytes) s : option (ObjectMetadata * bytes) :=
  match mo_objects s !! key with
  | Some (m, d) => if om_deleted m then None else Some (m, d)
  | None => None
  end.

#[export] Instance MemStore : ObjectStore MemObjectStore := {|
  os_Put key data s := mo_write key data (u64 (row_version (mo_rows s) key + 1)) [] s;
  os_PutWithVersion key data version s := mo_write key data version [] s;
  os_PutConditional := mo_put_conditional;
  os_Get key s :=
    (Some match mo_find key s with Some (_, d) => FromValue d | None => FromStatus (mo_not_found key) end, s);
  os_Head key s :=
    (Some match mo_find key s with Some (m, _) => FromValue m | None => FromStatus (mo_not_found key) end, s);
  os_Delete key s :=
    match mo_find key s with
    | Some (m, d) => (Some Ok, mkMemObjectStore (<[key := (tombstone m, d)]> (mo_objects s)))
    | None => (Some (mo_not_found key), s)
    end;
  os_List prefix s :=
    (Some (FromValue (filter (λ m, om_deleted m = false ∧ prefix `prefix_of` om_key m)
       (snd <$> in_order bytes_le (mo_rows s)))), s);
|}.

(** Every object has the checksum of its bytes. *)
Definition mo_inv s : Prop :=
  map_Forall (λ _ e, Sha256Hex e.2 = om_checksum e.1 ∧ Zlen e.2 * 8 < 2 ^ 64) (mo_objects s).

Lemma mo_rows_lookup s key : mo_rows s !! key = fst <$> mo_objects s !! key.
Proof. apply lookup_fmap. Qed.

Lemma mo_write_spec key data version request_id s r s' :
  mo_inv s → put_ok key data → mo_write key data version request_id s = (r, s') →
  mo_inv s' ∧ ∃ m, r = Some (FromValue m) ∧ new_meta key data version m ∧ om_request_id m = request_id ∧
    mo_rows s' = <[key := m]> (mo_rows s).
Proof.
  intros Hi [_ Hd] [= <- <-]. split; [by apply map_Forall_insert_2|]. eexists. split_and!; try done.
  unfold mo_rows. cbn. by rewrite fmap_insert.
Qed.

Lemma mo_find_spec key s :
  match mo_find key s with
  | Some (m, d) => live_row (mo_rows s) key m ∧ mo_objects s !! key = Some (m, d)
  | None => ∀ m, ¬ live_row (mo_rows s) key m
  end.
Proof.
  unfold mo_find, live_row. rewrite mo_rows_lookup. destruct (mo_objects s !! key) as [[m d]|]; simpl; [|by intros m []].
  destruct (om_deleted m) eqn:Ed; [|done]. intros m' [[= <-] ?]. congruence.
Qed.

#[export] Instance MemStoreLaws : ObjectStoreLaws MemObjectStore.
Proof.
  refine {| os_inv := mo_inv; os_rows := mo_rows |}.
  - intros s key data version r s' Hi Hp _ E.
    apply mo_write_spec in E as (? & m & -> & ? & ? & ?); [|done..]. done.
  - intros s key data expected request_id r s' Hi Hp _ E. cbn in E. unfold mo_put_conditional in E.
    assert (row_version (mo_rows s) key = from_option (om_version ∘ fst) 0 (mo_objects s !! key)) as Hv.
    { unfold row_version. rewrite mo_rows_lookup. by destruct (mo_objects s !! key). }
    assert (∀ m, retry_of (mo_rows s) key request_id m ↔ (fst <$> mo_objects s !! key) = Some m ∧
      request_id ≠ [] ∧ om_request_id m = request_id) as Hr.
    { intros m. unfold retry_of. by rewrite mo_rows_lookup. }
    assert (row_version (mo_rows s) key = expected →
      mo_write key data (u64 (expected + 1)) request_id s = (r, s') → mo_inv s' ∧
      match r with
      | Some (FromValue m) =>
          (retry_of (mo_rows s) key request_id m ∧ mo_rows s' = mo_rows s) ∨
          (row_version (mo_rows s) key = expected ∧ new_meta key data (u64 (expected + 1)) m ∧
           om_request_id m = request_id ∧ mo_rows s' = <[key := m]> (mo_rows s))
      | _ => False
      end) as Hw.
    { intros Ev Ew. apply mo_write_spec in Ew as (? & m & -> & ? & ? & ?); [|done..]. split; [done|]. by right. }
    destruct (mo_objects s !! key) as [[m d]|]; cbn in Hv, Hr.
    + destruct (bool_decide (request_id ≠ []) && _) eqn:Eb; prop_bool.
      { injection E as <- <-. split; [done|]. left. split; [|done]. by apply Hr. }
      destruct (om_version m =? expected) eqn:Ev; prop_bool.
      * destruct (Hw ltac:(congruence) E) as [? Hc]. split; [done|]. by destruct r as [[?|?]|].
      * injection E as <- <-. split; [done|]. split; [done|]. split; [done|]. intros _. split; [congruence|].
        intros m' ([= <-] & H1 & H2)%Hr. by rewrite !bool_decide_true in Eb by done.
    + destruct (0 =? expected) eqn:Ev; prop_bool.
      * destruct (Hw ltac:(congruence) E) as [? Hc]. split; [done|]. by destruct r as [[?|?]|].
      * injection E as <- <-. split; [done|]. split; [done|]. split; [done|]. intros _. split; [congruence|].
        by intros m' [? _]%Hr.
  - intros s key r s' Hi _ [= <- <-]. split; [done|]. split; [done|]. pose proof (mo_find_spec key s) as Hf.
    destruct (mo_find key s) as [[m d]|]; [|done]. destruct Hf as [Hl Ho]. exists m. split; [done|]. exact (proj1 (Hi key (m, d) Ho)).
  - intros s key r s' Hi _ [= <- <-]. split; [done|]. split; [done|]. pose proof (mo_find_spec key s) as Hf.
    destruct (mo_find key s) as [[m d]|]; [apply Hf|done].
  - intros s key r s' Hi _ E. cbn in E. pose proof (mo_find_spec key s) as Hf.
    destruct (mo_find key s) as [[m d]|]; injection E as <- <-.
    + destruct Hf as [Hl Ho]. split; [apply map_Forall_insert_2; [exact (Hi key (m, d) Ho)|done]|].
      left. split; [done|]. exists m. split; [done|]. unfold mo_rows. cbn. by rewrite fmap_insert.
    + split; [done|]. by right.
Defined.

Lemma MemStore_small s key d s' :
  os_inv s → os_Get key s = (Some (FromValue d), s') → Zlen d * 8 < 2 ^ 64.
Proof.
  intros Hi E. cbn in E. pose proof (mo_find_spec key s) as Hf. destruct (mo_find key s) as [[m d']|]; [|done].
  injection E as -> <-. destruct Hf as [_ Ho]. exact (proj2 (Hi key (m, d) Ho)).
Qed.
