(* ===== verification/StorageNode.v ===== *)
(** * The storage node service and its client

    [src/network/storage_node_server.cc] and [src/network/storage_node_client.cc]
    with the conversions of [include/network/proto_util.h], for the messages of
    proto/storage.proto.  The service is written against interface [ObjectStore].

    The calls go over the network of Rpc.v. *)

From stdpp Require Import base gmap list sorting.
From Stdlib Require Import ZArith Lia.
From S2P Require Import Prelude Status Posix Wal Sha256 MetadataStore LocalObjectStore StoreRecovery StoreProps.
From S2P Require Import Rpc ObjectStore.

Local Open Scope Z_scope.

(** ** Messages *)

Record ObjectMeta := mkObjectMeta {
  pm_key : bytes; pm_size : Z; pm_checksum : bytes; pm_version : Z; pm_created_at : Z; pm_deleted : bool;
}.
Definition ObjectMeta_default : ObjectMeta := mkObjectMeta [] 0 [] 0 0 false.

Record PutRequest := mkPutRequest {
  pr_key : bytes; pr_data : bytes; pr_version : Z; pr_request_id : bytes; pr_conditional : bool;
  pr_expected_version : Z;
}.
Record PutResponse := mkPutResponse { ps_code : Code; ps_message : bytes; ps_meta : ObjectMeta }.
Record GetResponse := mkGetResponse {
  gs_code : Code; gs_message : bytes; gs_data : bytes; gs_meta : ObjectMeta;
}.
Record HeadResponse := mkHeadResponse { hs_code : Code; hs_message : bytes; hs_meta : ObjectMeta }.
Record DeleteResponse := mkDeleteResponse { ds_code : Code; ds_message : bytes }.
Record HealthResponse := mkHealthResponse { hr_code : Code; hr_object_count : Z }.
Record ListResponse := mkListResponse { ls_code : Code; ls_message : bytes; ls_objects : list ObjectMeta }.

Definition ToProtoMeta (m : ObjectMetadata) : ObjectMeta :=
  mkObjectMeta (om_key m) (om_size m) (om_checksum m) (om_version m) (om_created_at m) (om_deleted m).

Definition FromProtoMeta (m : ObjectMeta) : ObjectMetadata :=
  mkObjectMetadata (pm_key m) (pm_size m) (pm_checksum m) (pm_version m) (pm_created_at m)
    (pm_deleted m) [].

(** ** The service *)

Section service.
Context {S : Type} `{ObjectStore S}.
Implicit Types s : S.

(** Continue with the result of a store operation, unless the process died. *)
Definition reply {A B} (r : option A * S) (f : A → S → option B * S) : option B * S :=
  match r with (Some x, s) => f x s | (None, s) => (None, s) end.

Definition Service_Put (req : PutRequest) s : option PutResponse * S :=
  reply
    (if pr_conditional req
     then os_PutConditional (pr_key req) (pr_data req) (pr_expected_version req) (pr_request_id req) s
     else if pr_version req =? 0 then os_Put (pr_key req) (pr_data req) s
     else os_PutWithVersion (pr_key req) (pr_data req) (pr_version req) s)
    (λ result s,
      (Some match result with
            | FromValue m => mkPutResponse OK [] (ToProtoMeta m)
            | FromStatus st => mkPutResponse (ToProtoCode (st_code st)) (st_message st) ObjectMeta_default
            end, s)).

Definition Service_Get (key : bytes) s : option GetResponse * S :=
  reply (os_Get key s) (λ data s,
    match data with
    | FromValue d =>
        reply (os_Head key s) (λ head s,
          (Some (mkGetResponse OK [] d
                   match head with FromValue m => ToProtoMeta m | FromStatus _ => ObjectMeta_default end), s))
    | FromStatus st =>
        (Some (mkGetResponse (ToProtoCode (st_code st)) (st_message st) [] ObjectMeta_default), s)
    end).

Definition Service_Head (key : bytes) s : option HeadResponse * S :=
  reply (os_Head key s) (λ head s,
    (Some match head with
          | FromValue m => mkHeadResponse OK [] (ToProtoMeta m)
          | FromStatus st => mkHeadResponse (ToProtoCode (st_code st)) (st_message st) ObjectMeta_default
          end, s)).

Definition Service_Delete (key : bytes) s : option DeleteResponse * S :=
  reply (os_Delete key s) (λ st s,
    (Some (mkDeleteResponse (ToProtoCode (st_code st)) (if st_ok st then [] else st_message st)), s)).

Definition Service_Health s : option HealthResponse * S :=
  reply (os_List [] s) (λ list s,
    (Some match list with
          | FromStatus st => mkHealthResponse (ToProtoCode (st_code st)) 0
          | FromValue l => mkHealthResponse OK (Zlen l)
          end, s)).

Definition Service_List (prefix : bytes) s : option ListResponse * S :=
  reply (os_List prefix s) (λ list s,
    (Some match list with
          | FromStatus st => mkListResponse (ToProtoCode (st_code st)) (st_message st) []
          | FromValue l => mkListResponse OK [] (ToProtoMeta <$> l)
          end, s)).
End service.

(** ** The client *)

Record StorageNodeClient := mkStorageNodeClient { snc_address : bytes }.

Section client.
Context {S : Type} `{ObjectStore S}.
Implicit Types net : Net S.
Implicit Types c : StorageNodeClient.

Definition rpc_failed c (name err : bytes) : Status :=
  Unavailable (name ++ lit " RPC to " ++ snc_address c ++ lit " failed: " ++ err).

(** The answer to a [Put] call. *)
Definition put_result c (r : bytes + PutResponse) : StatusOr ObjectMetadata :=
  match r with
  | inl err => FromStatus (rpc_failed c (lit "Put") err)
  | inr resp =>
      if bool_decide (ps_code resp ≠ OK)
      then FromStatus (mkStatus (FromProtoCode (ps_code resp)) (ps_message resp))
      else FromValue (FromProtoMeta (ps_meta resp))
  end.

Definition Client_Put c (key data : bytes) (version : Z) net : StatusOr ObjectMetadata * Net S :=
  let req := mkPutRequest key data version [] false 0 in
  let '(r, net) := stub (snc_address c) (Service_Put req) net in (put_result c r, net).

Definition Client_PutConditional c (key data : bytes) (expected_version : Z) (request_id : bytes) net
    : StatusOr ObjectMetadata * Net S :=
  let req := mkPutRequest key data 0 request_id true expected_version in
  let '(r, net) := stub (snc_address c) (Service_Put req) net in (put_result c r, net).

Definition Client_Get c (key : bytes) net : StatusOr bytes * Net S :=
  let '(r, net) := stub (snc_address c) (Service_Get key) net in
  (match r with
   | inl err => FromStatus (rpc_failed c (lit "Get") err)
   | inr resp =>
       if bool_decide (gs_code resp ≠ OK)
       then FromStatus (mkStatus (FromProtoCode (gs_code resp)) (gs_message resp))
       else FromValue (gs_data resp)
   end, net).

Definition Client_Head c (key : bytes) net : StatusOr ObjectMetadata * Net S :=
  let '(r, net) := stub (snc_address c) (Service_Head key) net in
  (match r with
   | inl err => FromStatus (rpc_failed c (lit "Head") err)
   | inr resp =>
       if bool_decide (hs_code resp ≠ OK)
       then FromStatus (mkStatus (FromProtoCode (hs_code resp)) (hs_message resp))
       else FromValue (FromProtoMeta (hs_meta resp))
   end, net).

Definition Client_Health c net : StatusOr Z * Net S :=
  let '(r, net) := stub (snc_address c) Service_Health net in
  (match r with
   | inl err => FromStatus (rpc_failed c (lit "Health") err)
   | inr resp =>
       if bool_decide (hr_code resp ≠ OK)
       then FromStatus (mkStatus (FromProtoCode (hr_code resp)) (lit "unhealthy"))
       else FromValue (hr_object_count resp)
   end, net).

Definition Client_List c (prefix : bytes) net : StatusOr (list ObjectMetadata) * Net S :=
  let '(r, net) := stub (snc_address c) (Service_List prefix) net in
  (match r with
   | inl err => FromStatus (rpc_failed c (lit "List") err)
   | inr resp =>
       if bool_decide (ls_code resp ≠ OK)
       then FromStatus (mkStatus (FromProtoCode (ls_code resp)) (ls_message resp))
       else FromValue (FromProtoMeta <$> ls_objects resp)
   end, net).

Definition Client_Delete c (key : bytes) net : Status * Net S :=
  let '(r, net) := stub (snc_address c) (Service_Delete key) net in
  (match r with
   | inl err => rpc_failed c (lit "Delete") err
   | inr resp => mkStatus (FromProtoCode (ds_code resp)) (ds_message resp)
   end, net).
End client.

(** ** The client sees the store *)

(** A result that is not a status [kOk] in the place of a value. *)
Definition proper {A} (r : StatusOr A) : Prop :=
  match r with FromStatus st => st_ok st = false | FromValue _ => True end.

(** What of the metadata crosses the wire: all but the request id. *)
Definition wire_meta (m : ObjectMetadata) : ObjectMetadata :=
  mkObjectMetadata (om_key m) (om_size m) (om_checksum m) (om_version m) (om_created_at m) (om_deleted m) [].

Definition over_wire {A} (f : A → A) (r : StatusOr A) : StatusOr A :=
  match r with FromStatus st => FromStatus st | FromValue x => FromValue (f x) end.

Lemma FromProtoMeta_ToProtoMeta m : FromProtoMeta (ToProtoMeta m) = wire_meta m.
Proof. done. Qed.

Lemma mkStatus_code st : mkStatus (FromProtoCode (ToProtoCode (st_code st))) (st_message st) = st.
Proof. rewrite FromProtoCode_ToProtoCode. by destruct st. Qed.

Lemma code_not_OK st : st_ok st = false → ToProtoCode (st_code st) ≠ OK.
Proof. unfold st_ok. intros Hc E%ToProtoCode_ok. by rewrite bool_decide_true in Hc. Qed.

Section transparent.
Context {S : Type} `{ObjectStore S}.
Implicit Types c : StorageNodeClient.

Lemma Client_Put_reaches c key data version net s r s' :
  version ≠ 0 → proper r → reaches (snc_address c) net s →
  os_PutWithVersion key data version s = (Some r, s') →
  Client_Put c key data version net = (over_wire wire_meta r, after (snc_address c) s' net).
Proof.
  intros Hv Hr Hreach E. unfold Client_Put.
  assert (∃ resp, Service_Put (mkPutRequest key data version [] false 0) s = (Some resp, s') ∧
            put_result c (inr resp) = over_wire wire_meta r) as (resp & Es & Ep).
  { unfold Service_Put. cbn [pr_conditional pr_version pr_key pr_data].
    rewrite (proj2 (Z.eqb_neq version 0)), E by done. cbn [reply]. eexists. split; [done|].
    destruct r as [st|m]; cbn; [|done]. by rewrite bool_decide_true, mkStatus_code by (by apply code_not_OK). }
  by rewrite (stub_reaches _ _ _ _ _ _ Hreach Es), Ep.
Qed.

Lemma Client_PutConditional_reaches c key data expected request_id net s r s' :
  proper r → reaches (snc_address c) net s →
  os_PutConditional key data expected request_id s = (Some r, s') →
  Client_PutConditional c key data expected request_id net = (over_wire wire_meta r, after (snc_address c) s' net).
Proof.
  intros Hr Hreach E. unfold Client_PutConditional.
  assert (∃ resp, Service_Put (mkPutRequest key data 0 request_id true expected) s = (Some resp, s') ∧
            put_result c (inr resp) = over_wire wire_meta r) as (resp & Es & Ep).
  { unfold Service_Put. cbn [pr_conditional pr_expected_version pr_request_id pr_key pr_data].
    rewrite E. cbn [reply]. eexists. split; [done|].
    destruct r as [st|m]; cbn; [|done]. by rewrite bool_decide_true, mkStatus_code by (by apply code_not_OK). }
  by rewrite (stub_reaches _ _ _ _ _ _ Hreach Es), Ep.
Qed.

Lemma Client_Get_reaches c key net s r s1 h s' :
  proper r → reaches (snc_address c) net s → os_Get key s = (Some r, s1) →
  (match r with FromValue _ => os_Head key s1 = (Some h, s') | FromStatus _ => s1 = s' end) →
  Client_Get c key net = (r, after (snc_address c) s' net).
Proof.
  intros Hr Hreach E Eh. unfold Client_Get.
  assert (∃ resp, Service_Get key s = (Some resp, s') ∧ proper r ∧
    match r with
    | FromStatus st => gs_code resp = ToProtoCode (st_code st) ∧ gs_message resp = st_message st
    | FromValue d => gs_code resp = OK ∧ gs_data resp = d
    end) as (resp & Es & _ & Ep).
  { unfold Service_Get. rewrite E. cbn [reply]. destruct r as [st|d].
    - subst s'. by eexists.
    - rewrite Eh. cbn [reply]. by eexists. }
  rewrite (stub_reaches _ _ _ _ _ _ Hreach Es). destruct r as [st|d]; destruct Ep as [-> ->].
  - by rewrite bool_decide_true, mkStatus_code by (by apply code_not_OK).
  - by rewrite bool_decide_false by auto.
Qed.

Lemma Client_Delete_reaches c key net s st s' :
  (st_ok st = true → st_message st = []) → reaches (snc_address c) net s →
  os_Delete key s = (Some st, s') →
  Client_Delete c key net = (st, after (snc_address c) s' net).
Proof.
  intros Hm Hreach E. unfold Client_Delete. erewrite stub_reaches; [|done|by unfold Service_Delete; rewrite E].
  cbn. rewrite FromProtoCode_ToProtoCode. destruct st as [code msg]. cbn in *.
  destruct (st_ok _); [by rewrite Hm|done].
Qed.

Lemma Client_Head_reaches c key net s r s' :
  proper r → reaches (snc_address c) net s → os_Head key s = (Some r, s') →
  Client_Head c key net = (over_wire wire_meta r, after (snc_address c) s' net).
Proof.
  intros Hr Hreach E. unfold Client_Head. erewrite stub_reaches; [|done|by unfold Service_Head; rewrite E].
  cbn. destruct r as [st|m]; cbn; [|done]. by rewrite bool_decide_true, mkStatus_code by (by apply code_not_OK).
Qed.

Lemma Client_List_reaches c prefix net s r s' :
  proper r → reaches (snc_address c) net s → os_List prefix s = (Some r, s') →
  Client_List c prefix net = (over_wire (fmap wire_meta) r, after (snc_address c) s' net).
Proof.
  intros Hr Hreach E. unfold Client_List. erewrite stub_reaches; [|done|by unfold Service_List; rewrite E].
  cbn. destruct r as [st|l]; cbn; [by rewrite bool_decide_true, mkStatus_code by (by apply code_not_OK)|].
  by rewrite <-list_fmap_compose.
Qed.

Lemma Client_Health_reaches c net s r s' :
  proper r → reaches (snc_address c) net s → os_List [] s = (Some r, s') →
  Client_Health c net =
    (match r with
     | FromStatus st => FromStatus (mkStatus (st_code st) (lit "unhealthy"))
     | FromValue l => FromValue (Zlen l)
     end, after (snc_address c) s' net).
Proof.
  intros Hr Hreach E. unfold Client_Health. erewrite stub_reaches; [|done|by unfold Service_Health; rewrite E].
  cbn. destruct r as [st|l]; cbn; [|done].
  by rewrite bool_decide_true, FromProtoCode_ToProtoCode by (by apply code_not_OK).
Qed.

(** C35: the wire is transparent.  When a call reaches a node that serves it, the
    client returns what the node's store returned, values and errors alike, with
    the code and the text of the error; only the request id of the metadata stays
    behind.  [Put] with a version goes to [PutWithVersion]. *)
Theorem storage_rpc_transparent c key data net s s' :
  reaches (snc_address c) net s →
  (∀ version r, version ≠ 0 → proper r → os_PutWithVersion key data version s = (Some r, s') →
     Client_Put c key data version net = (over_wire wire_meta r, after (snc_address c) s' net)) ∧
  (∀ expected request_id r, proper r → os_PutConditional key data expected request_id s = (Some r, s') →
     Client_PutConditional c key data expected request_id net
       = (over_wire wire_meta r, after (snc_address c) s' net)) ∧
  (∀ r s1 h, proper r → os_Get key s = (Some r, s1) →
     (match r with FromValue _ => os_Head key s1 = (Some h, s') | FromStatus _ => s1 = s' end) →
     Client_Get c key net = (r, after (snc_address c) s' net)) ∧
  (∀ r, proper r → os_Head key s = (Some r, s') →
     Client_Head c key net = (over_wire wire_meta r, after (snc_address c) s' net)) ∧
  (∀ st, (st_ok st = true → st_message st = []) → os_Delete key s = (Some st, s') →
     Client_Delete c key net = (st, after (snc_address c) s' net)) ∧
  (∀ r, proper r → os_List key s = (Some r, s') →
     Client_List c key net = (over_wire (fmap wire_meta) r, after (snc_address c) s' net)).
Proof.
  intros Hreach. split_and!; intros.
  - by apply (Client_Put_reaches c key data version net s r s').
  - by apply (Client_PutConditional_reaches c key data expected request_id net s r s').
  - by eapply (Client_Get_reaches c key net s r s1 h s').
  - by apply (Client_Head_reaches c key net s r s').
  - by apply (Client_Delete_reaches c key net s st s').
  - by apply (Client_List_reaches c key net s r s').
Qed.
End transparent.

(** A storage process for examples. *)
Definition demo_process : StoreProcess MemDb := mkStoreProcess demo_st (demo_world []).
#[local] Instance demo_store : ObjectStore (StoreProcess MemDb) := LocalStore 7.
Definition demo_node : StorageNodeClient := mkStorageNodeClient (lit "127.0.0.1:9001").
Definition demo_net (fates : list fate) : Net (StoreProcess MemDb) :=
  mkNet {[lit "127.0.0.1:9001" := Up demo_process]} fates.
Definition demo_written : StoreProcess MemDb := (os_PutWithVersion demo_key demo_data 3 demo_process).2.

Definition demo_meta3 : ObjectMetadata := mkObjectMetadata demo_key 5 (Sha256Hex demo_data) 3 0 false [].

Lemma demo_put : (os_PutWithVersion demo_key demo_data 3 demo_process).1 = Some (FromValue demo_meta3).
Proof. vm_compute. reflexivity. Qed.

Lemma storage_rpc_transparent_witness :
  reaches (snc_address demo_node) (demo_net []) demo_process ∧
  Client_Put demo_node demo_key demo_data 3 (demo_net []) =
    (FromValue demo_meta3, after (snc_address demo_node) demo_written (demo_net [])).
Proof.
  assert (reaches (snc_address demo_node) (demo_net []) demo_process) as Hr by by (split; [|exists []]).
  split; [exact Hr|].
  refine (proj1 (storage_rpc_transparent demo_node demo_key demo_data (demo_net []) demo_process demo_written Hr)
            3 (FromValue demo_meta3) _ I _); [done|].
  by rewrite (surjective_pairing (os_PutWithVersion _ _ _ _)), demo_put.
Defined.

(** ** What a call does to the tables of the nodes *)

Section tables.
Context {S : Type} `{ObjectStoreLaws S}.
Implicit Types net : Net S.
Implicit Types c : StorageNodeClient.

Definition net_inv net : Prop := map_Forall (λ _ sv, os_inv (server_state sv)) (net_servers net).

(** The table at an address, of a server that is up or down. *)
Definition net_table net (address : bytes) : option table :=
  (λ sv, os_rows (server_state sv)) <$> net_servers net !! address.

(** Only the node at [address] is touched, and its table changes as [R] says. *)
Definition touches (address : bytes) (R : table → table → Prop) net net' : Prop :=
  (∀ a, a ≠ address → net_table net' a = net_table net a) ∧
  (net_table net' address = net_table net address ∨
   ∃ rows rows', net_table net address = Some rows ∧ net_table net' address = Some rows' ∧ R rows rows').

Lemma touches_refl (address : bytes) (R : table → table → Prop) net net' :
  net_servers net' = net_servers net → touches address R net net'.
Proof. intros E. unfold touches, net_table. rewrite E. auto. Qed.

(** A call of a handler that keeps the store's invariant and changes its table as
    [R] says. *)
Lemma stub_spec {Resp} (address : bytes) (handler : S → option Resp * S) net (r : bytes + Resp) net' (R : table → table → Prop)
    (Q : Resp → table → table → Prop) :
  net_inv net →
  (∀ s o s', os_inv s → handler s = (o, s') →
     os_inv s' ∧ R (os_rows s) (os_rows s') ∧ (∀ x, o = Some x → Q x (os_rows s) (os_rows s'))) →
  stub address handler net = (r, net') →
  net_inv net' ∧ touches address R net net' ∧
  (∀ x, r = inr x → ∃ rows rows', net_table net address = Some rows ∧ net_table net' address = Some rows' ∧
                                  Q x rows rows').
Proof.
  intros Hinv Hh E. apply stub_cases in E as [[Es [e ->]]|(s & o & s' & Es & Eh & En & Hr)].
  - split; [unfold net_inv; by rewrite Es|]. split; [by apply touches_refl|done].
  - pose proof (Hinv _ _ Es) as Hs. apply Hh in Eh as (Hs' & HR & HQ); [|done].
    assert (net_table net address = Some (os_rows s)) as T0 by (unfold net_table; by rewrite Es).
    assert (net_table net' address = Some (os_rows s')) as T1.
    { unfold net_table. rewrite En, lookup_insert_eq. by destruct o. }
    split; [unfold net_inv; rewrite En; apply map_Forall_insert_2; [by destruct o|done]|].
    split; [split; [intros a Ha; unfold net_table; by rewrite En, lookup_insert_ne|right; eauto 10]|].
    intros x ->. exists (os_rows s), (os_rows s'). auto.
Qed.

(** A write of [data] under [key] with [version], done or not. *)
Lemma Client_Put_tables c (key data : bytes) version net (r : StatusOr ObjectMetadata) net' :
  net_inv net → put_ok key data → is_u64 version → version ≠ 0 →
  Client_Put c key data version net = (r, net') →
  net_inv net' ∧ touches (snc_address c) (maybe_written key data version []) net net' ∧
  match r with
  | FromValue _ => ∃ rows m, net_table net (snc_address c) = Some rows ∧ new_meta key data version m ∧
                             net_table net' (snc_address c) = Some (<[key := m]> rows)
  | FromStatus st => st_ok st = false
  end.
Proof.
  intros Hinv Hp Hv Hz. unfold Client_Put. destruct (stub _ _ net) as [rr net1] eqn:E. intros [= <- <-].
  eapply (stub_spec _ _ _ _ _ (maybe_written key data version [])
    (λ resp rows rows', ps_code resp = OK → ∃ m, new_meta key data version m ∧ rows' = <[key := m]> rows)) in E
    as (Hi & Ht & HQ); [|done|].
  2:{ intros s o s' Hs. unfold Service_Put. cbn [pr_conditional pr_version pr_key pr_data].
      rewrite (proj2 (Z.eqb_neq version 0)) by done. destruct (os_PutWithVersion _ _ _ s) as [ro s1] eqn:Eo.
      apply os_PutWithVersion_law in Eo as [Hs1 Ho]; [|done..].
      destruct ro as [[st|m]|]; intros [= <- <-]; (split; [done|]).
      - destruct Ho as [Hst ->]. split; [by left|]. intros x [= <-] Hc. by apply code_not_OK in Hst.
      - destruct Ho as (Hm & Hid & ->). split; [right; by eauto|]. intros x [= <-] _. eauto.
      - done. }
  split; [done|]. split; [done|]. destruct rr as [e|resp]; cbn; [done|].
  destruct (HQ resp eq_refl) as (rows & rows' & T0 & T1 & Hm). case_bool; prop_bool.
  - unfold st_ok. cbn. apply bool_decide_eq_false. by destruct (ps_code resp).
  - apply dec_stable in Heqb. destruct (Hm Heqb) as (m & Hnew & ->). eauto.
Qed.

(** A conditional write: the node was at the expected version, or the row is the
    one an earlier call with the same request id wrote. *)
Definition cas_written (key data : bytes) (expected : Z) (request_id : bytes) (rows rows' : table) : Prop :=
  rows' = rows ∨
  (row_version rows key = expected ∧ maybe_written key data (u64 (expected + 1)) request_id rows rows').

Lemma Client_PutConditional_tables c (key data : bytes) expected (request_id : bytes) net
    (r : StatusOr ObjectMetadata) net' :
  net_inv net → put_ok key data → nul_free request_id →
  Client_PutConditional c key data expected request_id net = (r, net') →
  net_inv net' ∧ touches (snc_address c) (cas_written key data expected request_id) net net' ∧
  match r with
  | FromValue _ => ∃ rows rows' m,
      net_table net (snc_address c) = Some rows ∧ net_table net' (snc_address c) = Some rows' ∧
      ((retry_of rows key request_id m ∧ rows' = rows) ∨
       (row_version rows key = expected ∧ new_meta key data (u64 (expected + 1)) m ∧
        om_request_id m = request_id ∧ rows' = <[key := m]> rows))
  | FromStatus st => st_ok st = false
  end.
Proof.
  intros Hinv Hp Hid. unfold Client_PutConditional. destruct (stub _ _ net) as [rr net1] eqn:E. intros [= <- <-].
  eapply (stub_spec _ _ _ _ _ (cas_written key data expected request_id)
    (λ resp rows rows', ps_code resp = OK → ∃ m,
       (retry_of rows key request_id m ∧ rows' = rows) ∨
       (row_version rows key = expected ∧ new_meta key data (u64 (expected + 1)) m ∧
        om_request_id m = request_id ∧ rows' = <[key := m]> rows))) in E as (Hi & Ht & HQ); [|done|].
  2:{ intros s o s' Hs. unfold Service_Put. cbn [pr_conditional pr_expected_version pr_request_id pr_key pr_data].
      destruct (os_PutConditional _ _ _ _ s) as [ro s1] eqn:Eo.
      apply os_PutConditional_law in Eo as [Hs1 Ho]; [|done..].
      destruct ro as [[st|m]|]; intros [= <- <-]; (split; [done|]).
      - destruct Ho as (Hst & -> & _). split; [by left|]. intros x [= <-] Hc. by apply code_not_OK in Hst.
      - split; [|intros x [= <-] _; by exists m]. destruct Ho as [[_ ->]|(Hv & Hm & Hr & ->)]; [by left|].
        right. split; [done|]. right. by exists m.
      - done. }
  split; [done|]. split; [done|]. destruct rr as [e|resp]; cbn; [done|].
  destruct (HQ resp eq_refl) as (rows & rows' & T0 & T1 & Hm). case_bool; prop_bool.
  - unfold st_ok. cbn. apply bool_decide_eq_false. by destruct (ps_code resp).
  - apply dec_stable in Heqb. destruct (Hm Heqb) as (m & Hcase). exists rows, rows', m. done.
Qed.

Lemma Client_Get_tables c (key : bytes) net (r : StatusOr bytes) net' :
  net_inv net → nul_free key → Client_Get c key net = (r, net') →
  net_inv net' ∧ (∀ a, net_table net' a = net_table net a) ∧
  match r with
  | FromValue d => ∃ rows m, net_table net (snc_address c) = Some rows ∧ live_row rows key m ∧
                             Sha256Hex d = om_checksum m
  | FromStatus st => st_ok st = false
  end.
Proof.
  intros Hinv Hk. unfold Client_Get. destruct (stub _ _ net) as [rr net1] eqn:E. intros [= <- <-].
  eapply (stub_spec _ _ _ _ _ (λ rows rows', rows' = rows)
    (λ resp rows rows', gs_code resp = OK → ∃ m, live_row rows key m ∧ Sha256Hex (gs_data resp) = om_checksum m)) in E
    as (Hi & [Hne Hsame] & HQ); [|done|].
  2:{ intros s o s' Hs. unfold Service_Get. destruct (os_Get key s) as [ro s1] eqn:Eo.
      apply os_Get_law in Eo as (Hs1 & Er & Ho); [|done..]. destruct ro as [[st|d]|]; cbn [reply].
      - intros [= <- <-]. split; [done|]. split; [done|]. intros x [= <-] Hc. destruct Ho as [Hst _]. by apply code_not_OK in Hst.
      - destruct (os_Head key s1) as [h s2] eqn:Eh. apply os_Head_law in Eh as (Hs2 & Er2 & _); [|done..].
        destruct h as [h|]; intros [= <- <-]; (split; [done|]); (split; [congruence|]); [|done].
        intros x [= <-] _. done.
      - intros [= <- <-]. done. }
  split; [done|]. split.
  { intros a. destruct (decide (a = snc_address c)) as [-> | Ha]; [|by apply Hne].
    destruct Hsame as [->|(rows & rows' & -> & -> & ->)]; done. }
  destruct rr as [e|resp]; [done|].
  destruct (HQ resp eq_refl) as (rows & rows' & T0 & T1 & Hm). case_bool; prop_bool.
  - unfold st_ok. cbn. apply bool_decide_eq_false. by destruct (gs_code resp).
  - apply dec_stable in Heqb. destruct (Hm Heqb) as (m & ? & ?). eauto 10.
Qed.

(** A delete, done or not. *)
Definition maybe_deleted (key : bytes) (rows rows' : table) : Prop :=
  rows' = rows ∨ ∃ m, live_row rows key m ∧ rows' = <[key := tombstone m]> rows.

Lemma maybe_deleted_gone key rows rows' :
  maybe_deleted key rows rows' → (∀ m, ¬ live_row rows key m) → ∀ m, ¬ live_row rows' key m.
Proof. intros [->|(m & Hm & ->)] Hg; [done|]. by destruct (Hg m). Qed.

Lemma Client_Delete_tables c (key : bytes) net (st : Status) net' :
  net_inv net → nul_free key → Client_Delete c key net = (st, net') →
  net_inv net' ∧ touches (snc_address c) (maybe_deleted key) net net' ∧
  (st_ok st = true ∨ st_code st = kNotFound →
   ∃ rows', net_table net' (snc_address c) = Some rows' ∧ ∀ m, ¬ live_row rows' key m).
Proof.
  intros Hinv Hk. unfold Client_Delete. destruct (stub _ _ net) as [rr net1] eqn:E. intros [= <- <-].
  eapply (stub_spec _ _ _ _ _ (maybe_deleted key)
    (λ resp rows rows', ds_code resp = OK ∨ ds_code resp = NOT_FOUND → ∀ m, ¬ live_row rows' key m)) in E
    as (Hi & Ht & HQ); [|done|].
  2:{ intros s o s' Hs. unfold Service_Delete. destruct (os_Delete key s) as [ro s1] eqn:Eo.
      apply os_Delete_law in Eo as [Hs1 Ho]; [|done..]. destruct ro as [st|]; intros [= <- <-]; (split; [done|]).
      - destruct Ho as [(Hok & m & Hm & ->)|(Hok & -> & Hnf)].
        + split; [right; by eauto|]. intros x [= <-] _ m' [Em Hd]. rewrite lookup_insert_eq in Em. by injection Em as <-.
        + split; [by left|]. intros x [= <-] Hc. cbn in Hc. apply Hnf.
          destruct Hc as [Hc|Hc]; [by apply code_not_OK in Hok|]. by destruct (st_code st).
      - split; [|done]. destruct Ho as [(m & Hm & ->)| ->]; [right; by eauto|by left]. }
  split; [done|]. split; [done|]. destruct rr as [e|resp]; cbn.
  { intros [?|?]; done. }
  intros Hst. destruct (HQ resp eq_refl) as (rows & rows' & _ & T1 & Hm). exists rows'. split; [done|]. apply Hm.
  unfold st_ok in Hst. cbn in Hst. rewrite bool_decide_eq_true in Hst.
  destruct (ds_code resp); cbn in Hst; naive_solver.
Qed.
End tables.
