(* ===== verification/Coordinator.v ===== *)
(** * The coordinator

    [include/network/coordinator.h] and [src/network/coordinator.cc]: quorum
    writes, reads, deletes and metadata lookups over the storage nodes, with the
    control plane behind interface [MetadataView] and the nodes behind the network
    of StorageNode.v.

    A write runs one asynchronous task per replica and then collects the results
    in placement order.  The order in which the tasks run is the argument
    [order], a list of the indices of the replicas. *)

From stdpp Require Import base gmap numbers list sorting.
From Stdlib Require Import ZArith Lia.
From S2P Require Import Prelude Status Sha256 MetadataStore StoreRecovery ObjectStore Rpc StorageNode MetadataView.

Local Open Scope Z_scope.

Inductive ReplicaHealth := kHealthy | kLagging | kFailed.

#[global] Instance ReplicaHealth_eq_dec : EqDecision ReplicaHealth.
Proof. solve_decision. Defined.

Definition ReplicaHealthName (h : ReplicaHealth) : bytes :=
  match h with
  | kHealthy => lit "HEALTHY"
  | kLagging => lit "LAGGING"
  | kFailed => lit "FAILED"
  end.

Record Options := mkOptions { op_replication_factor : nat; op_write_quorum : nat }.
Definition Options_default : Options := mkOptions 3 2.

(** The fields of [Coordinator]; [co_net] is the network its clients talk to. *)
Record Coordinator (V S : Type) := mkCoordinator {
  co_metadata : V;
  co_clients : gmap bytes StorageNodeClient;
  co_opts : Options;
  co_health : gmap bytes ReplicaHealth;
  co_net : Net S;
}.
Arguments mkCoordinator {V S}.
Arguments co_metadata {V S}.
Arguments co_clients {V S}.
Arguments co_opts {V S}.
Arguments co_health {V S}.
Arguments co_net {V S}.

Section coordinator.
Context {V S : Type} `{MetadataView V, ObjectStore S}.
Implicit Types co : Coordinator V S.

Definition Coordinator_new (metadata : V) (clients : gmap bytes StorageNodeClient) (opts : Options)
    (net : Net S) : Coordinator V S :=
  mkCoordinator metadata clients opts (fmap (λ _, kHealthy) clients) net.

Definition set_metadata (v : V) co : Coordinator V S :=
  mkCoordinator v (co_clients co) (co_opts co) (co_health co) (co_net co).
Definition set_net (net : Net S) co : Coordinator V S :=
  mkCoordinator (co_metadata co) (co_clients co) (co_opts co) (co_health co) net.

Definition ClientFor co (node_id : bytes) : option StorageNodeClient := co_clients co !! node_id.

Definition MarkHealth (node_id : bytes) (h : ReplicaHealth) co : Coordinator V S :=
  mkCoordinator (co_metadata co) (co_clients co) (co_opts co) (<[node_id := h]> (co_health co)) (co_net co).

(** A call of the control plane. *)
Definition on_metadata {A} (f : V → A * V) co : A * Coordinator V S :=
  let '(x, v) := f (co_metadata co) in (x, set_metadata v co).

(** The tasks of the replicas, run in the order given, each leaving its result at
    its replica's index. *)
Definition fan_out {A} (task : bytes → Net S → A * Net S) (replicas : list bytes) (order : list nat)
    (results : list A) (net : Net S) : list A * Net S :=
  foldl (λ '(results, net) i,
    match replicas !! i with
    | Some node_id => let '(x, net) := task node_id net in (<[i := x]> results, net)
    | None => (results, net)
    end) (results, net) order.

(** [MarkHealth] for the replicas in placement order. *)
Definition mark_all {A} (health : A → ReplicaHealth) (replicas : list bytes) (results : list A) co
    : Coordinator V S :=
  foldl (λ co '(node_id, x), MarkHealth node_id (health x) co) co (zip replicas results).

(** The replicas whose result satisfies [ok], in placement order. *)
Definition acked_of {A} (ok : A → bool) (replicas : list bytes) (results : list A) : list bytes :=
  omap (λ '(node_id, x), if ok x : bool then Some node_id else None) (zip replicas results).

Definition put_task (clients : gmap bytes StorageNodeClient) (key data : bytes) (version : Z)
    (node_id : bytes) (net : Net S) : bool * Net S :=
  match clients !! node_id with
  | None => (false, net)
  | Some client => let '(r, net) := Client_Put client key data version net in (so_ok r, net)
  end.

Definition too_small : Status := Unavailable (lit "cluster too small to satisfy write quorum").

(** Register the acknowledged replicas and return the metadata. *)
Definition register_write (key data : bytes) (version : Z) (request_id : bytes) (acked : list bytes) co
    : StatusOr ObjectMetadata * Coordinator V S :=
  let meta := mkObjectMetadata key (Zlen data) (Sha256Hex data) version 0 false request_id in
  let loc := mkObjectLocation key version (om_checksum meta) (om_size meta) false acked in
  let '(reg, co) := on_metadata (mv_RegisterObject loc) co in
  if st_ok reg then (FromValue meta, co) else (FromStatus reg, co).

Definition Put (order : list nat) (key data : bytes) co : StatusOr ObjectMetadata * Coordinator V S :=
  let '(replicas, co) := on_metadata (mv_PlacementFor key (op_replication_factor (co_opts co))) co in
  if (length replicas <? op_write_quorum (co_opts co))%nat then (FromStatus too_small, co) else
  let '(current, co) := on_metadata (mv_LookupObject key) co in
  let version := match current with FromValue loc => u64 (ol_version loc + 1) | FromStatus _ => 1 end in
  let '(ok_by_index, net) :=
    fan_out (put_task (co_clients co) key data version) replicas order
      (replicate (length replicas) false) (co_net co) in
  let co := mark_all (λ ok : bool, if ok then kHealthy else kLagging) replicas ok_by_index (set_net net co) in
  let acked := acked_of id replicas ok_by_index in
  if (length acked <? op_write_quorum (co_opts co))%nat then
    (FromStatus (Unavailable (lit "write quorum not met: " ++ to_string (Zlen acked) ++ lit "/" ++
       to_string (Z.of_nat (op_write_quorum (co_opts co))) ++ lit " acks")), co)
  else register_write key data version [] acked co.

Definition put_conditional_task (clients : gmap bytes StorageNodeClient) (key data : bytes)
    (expected_version : Z) (request_id node_id : bytes) (net : Net S) : StatusCode * Net S :=
  match clients !! node_id with
  | None => (kUnavailable, net)
  | Some client =>
      let '(r, net) := Client_PutConditional client key data expected_version request_id net in
      (st_code (so_status r), net)
  end.

Definition is_code (c c' : StatusCode) : bool := bool_decide (c = c').

Definition PutConditional (order : list nat) (key data : bytes) (expected_version : Z) (request_id : bytes)
    co : StatusOr ObjectMetadata * Coordinator V S :=
  let '(replicas, co) := on_metadata (mv_PlacementFor key (op_replication_factor (co_opts co))) co in
  if (length replicas <? op_write_quorum (co_opts co))%nat then (FromStatus too_small, co) else
  let version := u64 (expected_version + 1) in
  let '(code_by_index, net) :=
    fan_out (put_conditional_task (co_clients co) key data expected_version request_id) replicas order
      (replicate (length replicas) kUnavailable) (co_net co) in
  let saw_conflict := existsb (is_code kConflict) code_by_index in
  let co := mark_all (λ code, if is_code kOk code then kHealthy
                              else if is_code kConflict code then kHealthy else kLagging)
              replicas code_by_index (set_net net co) in
  let acked := acked_of (is_code kOk) replicas code_by_index in
  if (op_write_quorum (co_opts co) <=? length acked)%nat
  then register_write key data version request_id acked co
  else if saw_conflict then
    (FromStatus (Conflict (lit "conditional write rejected: expected version " ++ to_string expected_version)), co)
  else (FromStatus (Unavailable (lit "write quorum not met for conditional put")), co).

(** The loop of [Get] over the registered replicas. *)
Fixpoint Get_loop (key : bytes) (replicas : list bytes) (last : Status) co : StatusOr bytes * Coordinator V S :=
  match replicas with
  | [] => (FromStatus last, co)
  | node_id :: rest =>
      match ClientFor co node_id with
      | None => Get_loop key rest last co
      | Some client =>
          let '(data, net) := Client_Get client key (co_net co) in
          let co := set_net net co in
          match data with
          | FromValue d => (FromValue d, MarkHealth node_id kHealthy co)
          | FromStatus st =>
              let co :=
                if is_code (st_code st) kUnavailable then MarkHealth node_id kFailed co
                else if is_code (st_code st) kChecksumMismatch then MarkHealth node_id kLagging co
                else co in
              Get_loop key rest st co
          end
      end
  end.

Definition Get (key : bytes) co : StatusOr bytes * Coordinator V S :=
  let '(loc, co) := on_metadata (mv_LookupObject key) co in
  match loc with
  | FromStatus st => (FromStatus st, co)
  | FromValue loc =>
      match ol_replicas loc with
      | [] => (FromStatus (Unavailable (lit "no replicas recorded for key")), co)
      | replicas => Get_loop key replicas (NotFound (lit "object not found on any replica: " ++ key)) co
      end
  end.

(** The loop of [Delete]: the number of acknowledgements. *)
Fixpoint Delete_loop (key : bytes) (replicas : list bytes) (acks : nat) co : nat * Coordinator V S :=
  match replicas with
  | [] => (acks, co)
  | node_id :: rest =>
      match ClientFor co node_id with
      | None => Delete_loop key rest acks co
      | Some client =>
          let '(s, net) := Client_Delete client key (co_net co) in
          let co := set_net net co in
          if st_ok s || is_code (st_code s) kNotFound
          then Delete_loop key rest (acks + 1) (MarkHealth node_id kHealthy co)
          else Delete_loop key rest acks (MarkHealth node_id kFailed co)
      end
  end.

Definition Delete (key : bytes) co : Status * Coordinator V S :=
  let '(replicas, co) := on_metadata (mv_PlacementFor key (op_replication_factor (co_opts co))) co in
  let '(acks, co) := Delete_loop key replicas 0 co in
  if (acks <? op_write_quorum (co_opts co))%nat
  then (Unavailable (lit "delete quorum not met"), co)
  else on_metadata (mv_RemoveObject key) co.

Definition Head (key : bytes) co : StatusOr ObjectMetadata * Coordinator V S :=
  let '(loc, co) := on_metadata (mv_LookupObject key) co in
  match loc with
  | FromStatus st => (FromStatus st, co)
  | FromValue loc =>
      (FromValue (mkObjectMetadata (ol_key loc) (ol_size loc) (ol_checksum loc) (ol_version loc) 0
                    (ol_deleted loc) []), co)
  end.

Definition List (prefix : bytes) co : StatusOr (list ObjectMetadata) * Coordinator V S :=
  let '(objs, co) := on_metadata (mv_ListObjects prefix) co in
  match objs with
  | FromStatus st => (FromStatus st, co)
  | FromValue locs =>
      (FromValue ((λ loc, mkObjectMetadata (ol_key loc) (ol_size loc) (ol_checksum loc) (ol_version loc) 0
                            false []) <$> locs), co)
  end.

Definition ReplicaHealthSnapshot co : gmap bytes ReplicaHealth := co_health co.
End coordinator.
