(* ===== verification/CoordinatorProps.v ===== *)
(** * The coordinator: what its operations guarantee

    Quorum durability and read-your-writes of [Put] and [Get], availability of
    reads, mutual exclusion of conditional writes, and deletes.  The control plane
    and the stores are any that keep the promises of their interfaces; every call
    to a node may fail, or take effect and lose its reply. *)

From stdpp Require Import base gmap numbers list sorting.
From Stdlib Require Import ZArith Lia.
From S2P Require Import Ring ClusterMap MetadataRepository.
From S2P Require Import Prelude Status Posix Wal Sha256 MetadataStore LocalObjectStore StoreRecovery StoreProps.
From S2P Require Import ObjectStore Rpc StorageNode MetadataView Coordinator.

Local Open Scope Z_scope.
Local Opaque Hash64 vnode_pos.

(** ** Collecting results *)

Section collect.
Context {A : Type}.
Implicit Types replicas : list bytes.

Lemma acked_of_sublist (ok : A → bool) replicas results : acked_of ok replicas results `sublist_of` replicas.
Proof.
  unfold acked_of. revert results. induction replicas as [|n replicas IH]; intros [|x results]; simpl;
    [done|done|apply sublist_nil_l|]. destruct (ok x); [by apply sublist_skip|by apply sublist_cons].
Qed.

Lemma elem_of_acked_of (ok : A → bool) replicas results node :
  node ∈ acked_of ok replicas results →
  ∃ i x, replicas !! i = Some node ∧ results !! i = Some x ∧ ok x = true.
Proof.
  unfold acked_of. intros ([n x] & Hin & E)%list_elem_of_omap. destruct (ok x) eqn:Ex; [|done]. injection E as ->.
  apply list_elem_of_lookup in Hin as [i Hi]. apply lookup_zip_Some in Hi as [? ?]. eauto 10.
Qed.
End collect.

Section fan_out.
Context {S A : Type} (task : bytes → Net S → A * Net S) (replicas : list bytes).
Variable (I : Net S → Prop) (P : bytes → A → Net S → Prop).
Hypothesis task_ok : ∀ node net x net', I net → node ∈ replicas → task node net = (x, net') →
  I net' ∧ P node x net' ∧ ∀ n y, P n y net → P n y net'.

(** What each task establishes, and no other task undoes, holds of all results. *)
Lemma fan_out_spec order results net results' net' :
  I net → (∀ i node x, replicas !! i = Some node → results !! i = Some x → P node x net) →
  fan_out task replicas order results net = (results', net') →
  I net' ∧ (∀ i node x, replicas !! i = Some node → results' !! i = Some x → P node x net') ∧
  ∀ n y, P n y net → P n y net'.
Proof.
  revert results net. unfold fan_out. induction order as [|i order IH]; intros results net HI HP; simpl.
  { by intros [= <- <-]. }
  destruct (replicas !! i) as [node|] eqn:Ei; [|by apply IH].
  destruct (task node net) as [x net1] eqn:Et.
  apply task_ok in Et as (HI1 & Hx & Hmono); [|done|by eapply list_elem_of_lookup_2].
  intros E. apply IH in E as (? & ? & Hm); [|done|].
  - split; [done|]. split; [done|]. auto.
  - intros j n y Hn. destruct (decide (i = j)) as [<-|Hij].
    + rewrite Ei in Hn. injection Hn as <-.
      intros [(_ & <- & _)|[? _]]%list_lookup_insert_Some; [done|done].
    + rewrite list_lookup_insert_ne by done. intros Hy. by eapply Hmono, HP.
Qed.
End fan_out.

(** ** Writes *)

Section writes.
Context {V S : Type} `{MetadataViewLaws V, ObjectStoreLaws S}.
Implicit Types co : Coordinator V S.
Implicit Types net : Net S.
Implicit Types clients : gmap bytes StorageNodeClient.

(** The node has a row for the key with property [P]. *)
Definition holds clients net (key : bytes) (P : ObjectMetadata → Prop) (node : bytes) : Prop :=
  ∃ c rows m, clients !! node = Some c ∧ net_table net (snc_address c) = Some rows ∧
              rows !! key = Some m ∧ P m.

Lemma touches_holds clients net net' address key data version node :
  touches address (maybe_written key data version []) net net' →
  holds clients net key (new_meta key data version) node →
  holds clients net' key (new_meta key data version) node.
Proof.
  intros [Hne Heq] (c & rows & m & Hc & Ht & Hm & Hnew). destruct (decide (snc_address c = address)) as [<-|Ha].
  - destruct Heq as [E|(rows0 & rows' & E0 & E1 & HR)]; [exists c, rows, m; by rewrite E|].
    rewrite Ht in E0. injection E0 as <-. destruct HR as [->|(m' & Hm' & _ & ->)]; [by exists c, rows, m|].
    exists c, (<[key := m']> rows), m'. by rewrite lookup_insert_eq.
  - exists c, rows, m. by rewrite Hne.
Qed.

Definition acked_holds clients (key data : bytes) (version : Z) (node : bytes) (ok : bool) net : Prop :=
  ok = true → holds clients net key (new_meta key data version) node.

Lemma put_task_spec clients key data version node net ok net' :
  put_ok key data → is_u64 version → version ≠ 0 → net_inv net →
  put_task clients key data version node net = (ok, net') →
  net_inv net' ∧ acked_holds clients key data version node ok net' ∧
  ∀ n y, acked_holds clients key data version n y net → acked_holds clients key data version n y net'.
Proof.
  intros Hp Hv Hz Hinv. unfold put_task. destruct (clients !! node) as [c|] eqn:Ec; [|by intros [= <- <-]].
  destruct (Client_Put c key data version net) as [r net1] eqn:E. intros [= <- <-].
  apply Client_Put_tables in E as (Hi & Ht & Hr); [|done..].
  split; [done|]. split; [|intros n y Hn Hy; by eapply touches_holds, Hn].
  intros Hok. destruct r as [st|m']; [unfold so_ok in Hok; cbn in Hok; congruence|].
  destruct Hr as (rows & m & _ & Hm & T). exists c, (<[key := m]> rows), m. by rewrite lookup_insert_eq.
Qed.

Lemma mark_all_eq {A} (health : A → ReplicaHealth) replicas results co :
  let co' := mark_all health replicas results co in
  co_metadata co' = co_metadata co ∧ co_clients co' = co_clients co ∧ co_opts co' = co_opts co ∧
  co_net co' = co_net co.
Proof.
  unfold mark_all. generalize (zip replicas results). intros l. revert co.
  induction l as [|[n x] l IH]; intros co; simpl; [done|]. destruct (IH (MarkHealth n (health x) co)) as (-> & -> & -> & ->).
  done.
Qed.

(** The location a write registers. *)
Definition new_location (key data : bytes) (version : Z) (acked : list bytes) : ObjectLocation :=
  mkObjectLocation key version (Sha256Hex data) (Zlen data) false acked.

Definition new_metadata (key data : bytes) (version : Z) (request_id : bytes) : ObjectMetadata :=
  mkObjectMetadata key (Zlen data) (Sha256Hex data) version 0 false request_id.

Lemma register_write_spec key data version request_id acked co r co' :
  mv_inv (co_metadata co) → register_write key data version request_id acked co = (r, co') →
  mv_inv (co_metadata co') ∧ co_net co' = co_net co ∧ co_clients co' = co_clients co ∧
  (r = FromValue (new_metadata key data version request_id) ∨ ∃ st, r = FromStatus st ∧ st_ok st = false) ∧
  (mv_registry (co_metadata co') =
     registered (new_location key data version acked) (mv_registry (co_metadata co)) ∨
   ((∃ st, r = FromStatus st) ∧ mv_registry (co_metadata co') = mv_registry (co_metadata co))).
Proof.
  intros Hv. unfold register_write, on_metadata.
  destruct (mv_RegisterObject _ (co_metadata co)) as [reg v] eqn:E.
  apply mv_RegisterObject_law in E as (Hi & Hr); [|done|done]. cbn [om_checksum om_size] in Hr.
  destruct (st_ok reg) eqn:Es; intros [= <- <-]; cbn [co_metadata co_net co_clients set_metadata].
  - destruct Hr as [Hr|[? _]]; [|congruence]. split_and!; auto.
  - split_and!; eauto. destruct Hr as [Hr|[_ Hr]]; eauto.
Qed.

(** What the control plane answers when [Put] asks for the current location. *)
Definition reported co (key : bytes) : StatusOr ObjectLocation :=
  (mv_LookupObject key (mv_PlacementFor key (op_replication_factor (co_opts co)) (co_metadata co)).2).1.

(** The version [Put] writes: one more than that of the live location, which the
    control plane reports; 1 when it reports that there is none, and also when it
    reports another error. *)
Definition put_version co (key : bytes) (version : Z) : Prop :=
  match reported co key with
  | FromValue loc =>
      live (mv_registry (co_metadata co)) key = Some loc ∧ version = u64 (ol_version loc + 1)
  | FromStatus st =>
      version = 1 ∧ st_ok st = false ∧
      (st_code st = kNotFound → live (mv_registry (co_metadata co)) key = None)
  end.

Lemma put_version_exists co key : mv_inv (co_metadata co) → ∃ version, put_version co key version.
Proof.
  intros Hv. unfold put_version, reported. destruct (mv_PlacementFor _ _ _) as [l v1] eqn:E1. cbn [snd].
  apply mv_PlacementFor_law in E1 as (Hv1 & Er1 & _); [|done].
  destruct (mv_LookupObject key v1) as [r v2] eqn:E2. cbn [fst].
  apply mv_LookupObject_law in E2 as (_ & _ & Hr); [|done]. rewrite Er1 in Hr.
  destruct r as [st|loc]; [|by eexists]. destruct Hr as [Hst Hl]. exists 1. split; [done|]. split; [|done].
  unfold st_ok. by apply bool_decide_eq_false.
Qed.

(** The registered versions can be incremented. *)
Definition versions_fit (reg : registry) : Prop :=
  map_Forall (λ _ loc, 0 <= ol_version loc < 2 ^ 64 - 1) reg.

Lemma put_version_fits co key version :
  versions_fit (mv_registry (co_metadata co)) → put_version co key version → is_u64 version ∧ version ≠ 0.
Proof.
  intros Hf. unfold put_version. destruct (reported co key) as [st|loc]; [by intros [-> _]|].
  intros [[Hl _]%live_Some ->]. specialize (Hf _ _ Hl). cbn in Hf. rewrite u64_small; unfold is_u64; lia.
Qed.

(** A write that has a quorum: who acknowledged, and what they hold. *)
Definition quorum co (clients : gmap bytes StorageNodeClient) net key data version (acked : list bytes) : Prop :=
  NoDup acked ∧ (op_write_quorum (co_opts co) <= length acked)%nat ∧
  ∀ node, node ∈ acked → holds clients net key (new_meta key data version) node.

Lemma put_fan_out clients key data version replicas order net oks net' :
  net_inv net → put_ok key data → is_u64 version → version ≠ 0 → NoDup replicas →
  fan_out (put_task clients key data version) replicas order (replicate (length replicas) false) net = (oks, net') →
  net_inv net' ∧ NoDup (acked_of id replicas oks) ∧
  ∀ node, node ∈ acked_of id replicas oks → holds clients net' key (new_meta key data version) node.
Proof.
  intros Hn Hp Hv Hz Hnd E.
  apply (fan_out_spec _ _ net_inv (acked_holds clients key data version)) in E as (Hn' & Hall & _); [..|done|].
  - split; [done|]. split; [eapply sublist_NoDup; [done|apply acked_of_sublist]|].
    intros node (i & x & Hi & Hx & Ex)%elem_of_acked_of. exact (Hall i node x Hi Hx Ex).
  - intros node n1 x n2 Hi _ E1. by eapply put_task_spec.
  - intros i node x _ Hx. apply lookup_replicate in Hx as [-> _]. done.
Qed.

Lemma Coordinator_Put_spec order key data co r co' :
  mv_inv (co_metadata co) → net_inv (co_net co) → versions_fit (mv_registry (co_metadata co)) →
  put_ok key data → Put order key data co = (r, co') →
  mv_inv (co_metadata co') ∧ net_inv (co_net co') ∧ co_clients co' = co_clients co ∧
  ∃ version acked,
    put_version co key version ∧
    let reg' := registered (new_location key data version acked) (mv_registry (co_metadata co)) in
    match r with
    | FromValue m =>
        m = new_metadata key data version [] ∧
        quorum co (co_clients co) (co_net co') key data version acked ∧ mv_registry (co_metadata co') = reg'
    | FromStatus st =>
        st_ok st = false ∧
        (mv_registry (co_metadata co') = mv_registry (co_metadata co) ∨
         (quorum co (co_clients co) (co_net co') key data version acked ∧ mv_registry (co_metadata co') = reg'))
    end.
Proof.
  intros Hv Hn Hfit Hp. destruct (put_version_exists co key Hv) as [version Hver].
  destruct (put_version_fits _ _ _ Hfit Hver) as [Hu Hz]. pose proof Hver as Hrep.
  unfold put_version, reported in Hrep. unfold Put, on_metadata.
  destruct (mv_PlacementFor _ _ (co_metadata co)) as [replicas v1] eqn:E1. cbn [snd] in Hrep.
  apply mv_PlacementFor_law in E1 as (Hv1 & Er1 & Hnd & _); [|done].
  case_bool; [intros [= <- <-]; split_and!; [done..|exists version, []; by split; [|cbn; auto]]|].
  cbn [co_metadata set_metadata].
  destruct (mv_LookupObject key v1) as [current v2] eqn:E2. cbn [fst] in Hrep.
  apply mv_LookupObject_law in E2 as (Hv2 & Er2 & _); [|done].
  assert (match current with FromValue loc => u64 (ol_version loc + 1) | FromStatus _ => 1 end = version) as ->.
  { by destruct current; destruct Hrep. }
  destruct (fan_out _ _ _ _ _) as [oks net'] eqn:Ef. cbn [co_net co_clients set_metadata] in Ef.
  apply put_fan_out in Ef as (Hn' & Hnd' & Hacked); [|done..].
  destruct (mark_all_eq (λ ok : bool, if ok then kHealthy else kLagging) replicas oks
    (set_net net' (set_metadata v2 (set_metadata v1 co)))) as (Em & Ec & Eo & En).
  set (co1 := mark_all _ _ _ _) in *. cbn [set_net set_metadata co_metadata co_clients co_opts co_net] in *.
  case_bool; prop_bool.
  { intros [= <- <-]. rewrite Em, En, Ec, Er2, Er1. split_and!; [done..|]. exists version, [].
    split; [done|]. split; [done|by left]. }
  intros E3. apply register_write_spec in E3 as (Hv3 & En3 & Ec3 & Hr & Hreg); [|by rewrite Em].
  rewrite En3, En, Ec3, Ec. split_and!; [done..|]. exists version, (acked_of id replicas oks). split; [done|].
  rewrite Eo in *. rewrite Em, Er2, Er1 in Hreg.
  assert (quorum co (co_clients co) net' key data version (acked_of id replicas oks)) as Hq by (by split).
  destruct Hr as [-> |(st & -> & Hst)].
  - split; [done|]. split; [done|]. by destruct Hreg as [?|[[st ?] _]].
  - split; [done|]. destruct Hreg as [?|[_ ?]]; auto.
Qed.
End writes.

(** ** Reads *)

Section reads.
Context {V S : Type} `{MetadataViewLaws V, ObjectStoreLaws S}.
Implicit Types co : Coordinator V S.
Implicit Types net : Net S.

Lemma Get_loop_spec key replicas last co r co' :
  net_inv (co_net co) → nul_free key → st_ok last = false → Get_loop key replicas last co = (r, co') →
  net_inv (co_net co') ∧ (∀ a, net_table (co_net co') a = net_table (co_net co) a) ∧
  co_metadata co' = co_metadata co ∧ co_clients co' = co_clients co ∧
  match r with
  | FromValue d => ∃ node, node ∈ replicas ∧
      holds (co_clients co) (co_net co) key (λ m, om_deleted m = false ∧ Sha256Hex d = om_checksum m) node
  | FromStatus st => st_ok st = false
  end.
Proof.
  intros Hn Hk. revert last co Hn. induction replicas as [|node replicas IH]; intros last co Hn Hl; simpl.
  { by intros [= <- <-]. }
  assert (∀ co1 st, net_inv (co_net co1) → st_ok st = false →
    (∀ a, net_table (co_net co1) a = net_table (co_net co) a) → co_metadata co1 = co_metadata co →
    co_clients co1 = co_clients co → Get_loop key replicas st co1 = (r, co') →
    net_inv (co_net co') ∧ (∀ a, net_table (co_net co') a = net_table (co_net co) a) ∧
    co_metadata co' = co_metadata co ∧ co_clients co' = co_clients co ∧
    match r with
    | FromValue d => ∃ n, n ∈ node :: replicas ∧
        holds (co_clients co) (co_net co) key (λ m, om_deleted m = false ∧ Sha256Hex d = om_checksum m) n
    | FromStatus st => st_ok st = false
    end) as Hnext.
  { intros co1 st Hn1 Hst Ht Em Ec E. apply IH in E as (? & Ht' & -> & -> & Hr); [|done..].
    split; [done|]. split; [intros a; by rewrite Ht', Ht|]. split; [done|]. split; [done|].
    destruct r as [?|d]; [done|]. destruct Hr as (n & ? & (c & rows & m & Hc & T & ?)).
    exists n. split; [by right|]. exists c, rows, m. rewrite <-Ec, <-Ht. done. }
  unfold ClientFor. destruct (co_clients co !! node) as [c|] eqn:Ec; [|by apply Hnext].
  destruct (Client_Get c key (co_net co)) as [data net] eqn:Eg.
  apply Client_Get_tables in Eg as (Hn' & Ht & Hd); [|done..]. destruct data as [st|d].
  - apply Hnext; repeat case_bool; done.
  - intros [= <- <-]. split_and!; [done..|]. exists node. split; [by left|].
    destruct Hd as (rows & m & T & [Hm Hdel] & Hs). by exists c, rows, m.
Qed.

Lemma Coordinator_Get_spec key co r co' :
  mv_inv (co_metadata co) → net_inv (co_net co) → nul_free key → Get key co = (r, co') →
  mv_registry (co_metadata co') = mv_registry (co_metadata co) ∧
  (∀ a, net_table (co_net co') a = net_table (co_net co) a) ∧
  match r with
  | FromValue d => ∃ loc node, live (mv_registry (co_metadata co)) key = Some loc ∧ node ∈ ol_replicas loc ∧
      holds (co_clients co) (co_net co) key (λ m, om_deleted m = false ∧ Sha256Hex d = om_checksum m) node
  | FromStatus st => st_ok st = false
  end.
Proof.
  intros Hv Hn Hk. unfold Get, on_metadata. destruct (mv_LookupObject key (co_metadata co)) as [loc v] eqn:E.
  apply mv_LookupObject_law in E as (Hv' & Er & Hl); [|done]. destruct loc as [st|loc].
  { intros [= <- <-]. split; [done|]. split; [done|]. unfold st_ok. apply bool_decide_eq_false. by apply Hl. }
  destruct (ol_replicas loc) as [|n replicas] eqn:Erep; [by intros [= <- <-]|].
  intros E. apply Get_loop_spec in E as (_ & Ht & Em & _ & Hr); [|done..]. rewrite Em.
  split; [done|]. split; [done|]. destruct r as [st|d]; [done|]. destruct Hr as (node & Hin & Hh).
  exists loc, node. by rewrite Erep.
Qed.

(** C5: a successful [Put] is durable on a write quorum.  Whatever calls were lost
    and whatever order the tasks ran in, if [Put] returns metadata then at least
    [write_quorum] distinct nodes hold a row for the key with the new version and
    the checksum of the data, and the control plane lists exactly those nodes as
    its replicas.  The version is one more than that of the live location when the
    control plane reports it, and 1 when it reports an error, which is [kNotFound]
    only for a key without a live location.  If [Put] returns an error, the control
    plane has either not changed, or (the reply of the registration was lost) has
    the new location, with a quorum that holds it. *)
Theorem coordinator_put_quorum order key data co r co' :
  mv_inv (co_metadata co) → net_inv (co_net co) → versions_fit (mv_registry (co_metadata co)) →
  put_ok key data → Put order key data co = (r, co') →
  let reg := mv_registry (co_metadata co) in
  let reg' := mv_registry (co_metadata co') in
  ∃ version acked,
    put_version co key version ∧
    let registered_quorum :=
      NoDup acked ∧ (op_write_quorum (co_opts co) <= length acked)%nat ∧
      (∀ node, node ∈ acked → holds (co_clients co) (co_net co') key (new_meta key data version) node) ∧
      reg' = registered (new_location key data version acked) reg in
    match r with
    | FromValue m => m = new_metadata key data version [] ∧ registered_quorum
    | FromStatus st => st_ok st = false ∧ (reg' = reg ∨ registered_quorum)
    end.
Proof.
  intros Hv Hn Hf Hp E reg reg'. apply Coordinator_Put_spec in E as (_ & _ & _ & version & acked & Hver & Hr); [|done..].
  exists version, acked. split; [done|]. intros Q. subst Q. unfold quorum in Hr.
  destruct r as [st|m]; naive_solver.
Qed.

(** After a [Put] that returned metadata, every replica that a [Get] asks has the
    checksum of the data. *)
Lemma Put_then_Get order key data co m co1 d co2 :
  mv_inv (co_metadata co) → net_inv (co_net co) → versions_fit (mv_registry (co_metadata co)) →
  put_ok key data → Put order key data co = (FromValue m, co1) → Get key co1 = (FromValue d, co2) →
  Sha256Hex d = Sha256Hex data ∧ om_checksum m = Sha256Hex data.
Proof.
  intros Hv Hn Hf Hp E1 E2.
  apply Coordinator_Put_spec in E1 as (Hv1 & Hn1 & Ec & version & acked & _ & -> & (_ & _ & Hq) & Er); [|done..].
  apply Coordinator_Get_spec in E2 as (_ & _ & loc & node & Hl & Hin & (c & rows & m' & Hc & T & Em & _ & Hs));
    [|done|done|apply Hp].
  split; [|done]. rewrite Er in Hl.
  rewrite (live_registered_eq (new_location key data version acked)) in Hl by done. injection Hl as <-.
  destruct (Hq node Hin) as (c' & rows' & m2 & Hc' & T' & Em' & (_ & _ & Hck & _)). rewrite Ec in Hc. congruence.
Qed.

(** C12: read your writes.  After a [Put] that returned metadata, a [Get] of the key
    through the same coordinator that returns bytes returns bytes with the checksum
    of the data written, whichever replicas answer: [Put] registers only the nodes
    that acknowledged the version, and [Get] asks only registered ones.  (The
    protocol document says that such a read can observe the older version on a
    replica the write did not reach.)  The control plane is any view that keeps the
    laws of [MetadataViewLaws]. *)
Theorem coordinator_read_your_writes order key data co m co1 d co2 :
  mv_inv (co_metadata co) → net_inv (co_net co) → versions_fit (mv_registry (co_metadata co)) →
  put_ok key data → Put order key data co = (FromValue m, co1) → Get key co1 = (FromValue d, co2) →
  Sha256Hex d = Sha256Hex data ∧ om_checksum m = Sha256Hex data.
Proof. apply Put_then_Get. Qed.

(** The server can serve the object. *)
Definition serves (s : S) (key : bytes) : Prop :=
  ∃ d s1 h s2, os_Get key s = (Some (FromValue d), s1) ∧ os_Head key s1 = (Some h, s2).

Lemma Client_Get_serves c key net s :
  net_fates net = [] → net_servers net !! snc_address c = Some (Up s) → serves s key →
  ∃ d net', Client_Get c key net = (FromValue d, net').
Proof.
  intros Hf Hs (d & s1 & h & s2 & Eg & Eh). exists d, (after (snc_address c) s2 net).
  apply (Client_Get_reaches c key net s (FromValue d) s1 h s2); [done| |done|done].
  split; [done|]. exists []. unfold next_fate. by rewrite Hf.
Qed.

Lemma Client_Get_others c key net r net' a :
  Client_Get c key net = (r, net') → a ≠ snc_address c → net_servers net' !! a = net_servers net !! a.
Proof.
  unfold Client_Get. destruct (stub _ _ net) as [rr net1] eqn:E. intros [= _ <-] Ha.
  apply stub_cases in E as [[-> _]|(s & o & s' & _ & _ & -> & _)]; [done|]. by rewrite lookup_insert_ne.
Qed.

Lemma stub_fates {Resp} a (h : S → option Resp * S) net r net' :
  stub a h net = (r, net') → net_fates net = [] → net_fates net' = [].
Proof.
  unfold stub, next_fate. intros E Hf. rewrite Hf in E. destruct (net_servers net !! a) as [[s|s]|].
  - destruct (h s) as [[?|] ?]; by injection E as <- <-.
  - by injection E as <- <-.
  - by injection E as <- <-.
Qed.

Lemma Get_loop_available key replicas last co node c s :
  net_fates (co_net co) = [] → node ∈ replicas → co_clients co !! node = Some c →
  net_servers (co_net co) !! snc_address c = Some (Up s) → serves s key →
  ∃ d co', Get_loop key replicas last co = (FromValue d, co').
Proof.
  revert last co. induction replicas as [|n replicas IH]; intros last co Hf Hin Hc Hs Hserve; [by apply not_elem_of_nil in Hin|].
  simpl. unfold ClientFor. destruct (co_clients co !! n) as [c'|] eqn:Ec.
  - destruct (Client_Get c' key (co_net co)) as [[st|d] net] eqn:Eg; [|by eauto].
    assert (snc_address c ≠ snc_address c') as Hne.
    { intros E. rewrite E in Hs. apply (Client_Get_serves c' key) in Hs as (d & net' & Eg'); [|done|done].
      congruence. }
    assert (node ∈ replicas) as Hin'.
    { apply elem_of_cons in Hin as [-> | ?]; [|done]. exfalso. congruence. }
    apply IH; try done; repeat case_bool; cbn; try done.
    all: try (unfold Client_Get in Eg; destruct (stub _ _ (co_net co)) eqn:Es; injection Eg as _ <-;
              by eapply stub_fates).
    all: by erewrite Client_Get_others.
  - apply IH; try done. apply elem_of_cons in Hin as [-> | ?]; [congruence|done].
Qed.

(** C24: a read succeeds as long as one registered replica can serve it: with a
    network that delivers, [Get] returns bytes if any replica of the live location
    is up and its store returns the object, however many of the others are down,
    missing or corrupt. *)
Theorem coordinator_get_available key co loc v node c s :
  mv_LookupObject key (co_metadata co) = (FromValue loc, v) →
  node ∈ ol_replicas loc → co_clients co !! node = Some c → net_fates (co_net co) = [] →
  net_servers (co_net co) !! snc_address c = Some (Up s) → serves s key →
  ∃ d co', Get key co = (FromValue d, co').
Proof.
  intros El Hin Hc Hf Hs Hserve. unfold Get, on_metadata. rewrite El.
  destruct (ol_replicas loc) as [|n replicas] eqn:E; [by apply not_elem_of_nil in Hin|].
  rewrite <-E in *. by eapply Get_loop_available.
Qed.
End reads.

(** ** Conditional writes exclude each other *)

Section cas.
Context {S : Type} `{ObjectStoreLaws S}.
Implicit Types net : Net S.
Variable (clients : gmap bytes StorageNodeClient) (key : bytes) (expected : Z).
(** Two requests: their data and their request ids. *)
Variable (data id : bool → bytes).

(** The calls of the two requests to the nodes, in any order and any number; the
    result is the calls that were acknowledged. *)
Fixpoint run_calls (schedule : list (bool * bytes)) net : list (bool * bytes) * Net S :=
  match schedule with
  | [] => ([], net)
  | (who, node) :: rest =>
      let '(code, net) := put_conditional_task clients key (data who) expected (id who) node net in
      let '(acks, net) := run_calls rest net in
      (if is_code kOk code then (who, node) :: acks else acks, net)
  end.

Hypothesis Hdata : ∀ who, put_ok key (data who).
Hypothesis Hid : ∀ who, nul_free (id who).
Hypothesis Hexp : 0 <= expected < 2 ^ 64 - 1.

(** The node at [a] has the version that request [who] wrote. *)
Definition owned (who : bool) net (a : bytes) : Prop :=
  ∃ rows m, net_table net a = Some rows ∧ rows !! key = Some m ∧
            om_version m = u64 (expected + 1) ∧ om_request_id m = id who.

(** A row with the id of one of the requests is the one it wrote. *)
Definition fresh net : Prop :=
  ∀ a rows m who, net_table net a = Some rows → retry_of rows key (id who) m → owned who net a.

Lemma next_version_ne : u64 (expected + 1) ≠ expected.
Proof. rewrite u64_small; unfold is_u64; lia. Qed.

Lemma owned_stable who w address net net' a :
  touches address (cas_written key (data w) expected (id w)) net net' → owned who net a → owned who net' a.
Proof.
  intros [Hne Heq] (rows & m & T & Em & Ev & Er). destruct (decide (a = address)) as [-> | Ha].
  - destruct Heq as [E|(rows0 & rows' & T0 & T1 & HR)]; [exists rows, m; by rewrite E|].
    rewrite T in T0. injection T0 as <-. destruct HR as [->|[Hv _]]; [by exists rows, m|].
    exfalso. unfold row_version in Hv. rewrite Em in Hv. simpl in Hv. rewrite Ev in Hv. by apply next_version_ne.
  - exists rows, m. by rewrite Hne.
Qed.

Lemma fresh_stable w address net net' :
  touches address (cas_written key (data w) expected (id w)) net net' → fresh net → fresh net'.
Proof.
  intros Ht Hf a rows m who T Hm. pose proof Ht as [Hne Heq]. destruct (decide (a = address)) as [-> | Ha].
  2:{ rewrite Hne in T by done. eapply owned_stable; [done|]. by eapply Hf. }
  destruct Heq as [E|(rows0 & rows' & T0 & T1 & HR)].
  { rewrite E in T. eapply owned_stable; [done|]. by eapply Hf. }
  rewrite T1 in T. injection T as ->.
  assert (rows = rows0 → owned who net' address) as Hsame.
  { intros ->. eapply owned_stable; [done|]. by eapply Hf. }
  destruct HR as [?|[_ [?|(m' & Hnew & Hr & ->)]]]; [auto..|].
  destruct Hm as (Em & Hnil & Er). rewrite lookup_insert_eq in Em. injection Em as ->.
  exists (<[key := m]> rows0), m. rewrite lookup_insert_eq. split_and!; [done|done|apply Hnew|done].
Qed.

Lemma task_owned who node net code net' :
  net_inv net → fresh net →
  put_conditional_task clients key (data who) expected (id who) node net = (code, net') →
  net_inv net' ∧ fresh net' ∧ (∀ w a, owned w net a → owned w net' a) ∧
  (code = kOk → ∃ c, clients !! node = Some c ∧ owned who net' (snc_address c)).
Proof.
  intros Hn Hf. unfold put_conditional_task. destruct (clients !! node) as [c|] eqn:Ec; [|by intros [= <- <-]].
  destruct (Client_PutConditional _ _ _ _ _ net) as [r net1] eqn:E. intros [= <- <-].
  apply Client_PutConditional_tables in E as (Hn' & Ht & Hr); [|done..].
  assert (fresh net1) as Hf' by by eapply fresh_stable.
  split; [done|]. split; [done|]. split; [intros w a; by eapply owned_stable|]. intros Hok.
  exists c. split; [done|]. destruct r as [st|m'].
  { cbn in Hok. unfold st_ok in Hr. by rewrite bool_decide_true in Hr. }
  destruct Hr as (rows & rows' & m & T0 & T1 & [[Hm ->]|(_ & Hnew & Hr & ->)]).
  - by eapply Hf'.
  - exists (<[key := m]> rows), m. rewrite lookup_insert_eq. split_and!; [done|done|apply Hnew|done].
Qed.

Lemma run_calls_owned schedule net acks net' :
  net_inv net → fresh net → run_calls schedule net = (acks, net') →
  (∀ w a, owned w net a → owned w net' a) ∧
  ∀ who node, (who, node) ∈ acks → ∃ c, clients !! node = Some c ∧ owned who net' (snc_address c).
Proof.
  revert net acks. induction schedule as [|[who node] schedule IH]; intros net acks Hn Hf; simpl.
  { intros [= <- <-]. split; [done|]. by intros ? ? ?%not_elem_of_nil. }
  destruct (put_conditional_task _ _ _ _ _ _ _) as [code net1] eqn:E1.
  apply task_owned in E1 as (Hn1 & Hf1 & Hmono & Hok); [|done..].
  destruct (run_calls schedule net1) as [acks1 net2] eqn:E2. intros [= <- <-].
  apply IH in E2 as [Hmono2 Hacks]; [|done..]. split; [by auto|]. intros w n.
  unfold is_code. destruct (bool_decide (kOk = code)) eqn:Ec; prop_bool; [|apply Hacks].
  intros [[= -> ->]|Hin]%elem_of_cons; [|by apply Hacks].
  destruct (Hok (eq_sym Ec)) as (c & Hc & Ho). eauto.
Qed.

(** At most one of the two requests is acknowledged by a node. *)
Lemma run_calls_exclusive schedule net acks net' node :
  net_inv net → fresh net → id true ≠ id false → run_calls schedule net = (acks, net') →
  ¬ ((true, node) ∈ acks ∧ (false, node) ∈ acks).
Proof.
  intros Hn Hf Hne E [H1 H2]. apply run_calls_owned in E as [_ Hacks]; [|done..].
  apply Hacks in H1 as (c & Hc & (rows & m & T & Em & _ & Er)).
  apply Hacks in H2 as (c' & Hc' & (rows' & m' & T' & Em' & _ & Er')). congruence.
Qed.
End cas.

(** Two sets of more than half of the replicas meet. *)
Lemma quorums_meet {A} `{EqDecision A} (l1 l2 l : list A) (w : nat) :
  NoDup l1 → NoDup l2 → l1 ⊆ l → l2 ⊆ l → (w <= length l1)%nat → (w <= length l2)%nat →
  (length l < 2 * w)%nat → ∃ x, x ∈ l1 ∧ x ∈ l2.
Proof.
  intros Hn1 Hn2 Hs1 Hs2 Hl1 Hl2 Hw.
  destruct (decide (Exists (λ x, x ∈ l2) l1)) as [(x & ? & ?)%Exists_exists|Hno]; [eauto|].
  exfalso. assert (NoDup (l1 ++ l2)) as Hnd.
  { apply list.NoDup_app. split; [done|]. split; [|done]. intros x H1 H2. apply Hno, Exists_exists. eauto. }
  assert (length (l1 ++ l2) <= length l)%nat as Hlen.
  { apply submseteq_length, NoDup_submseteq; [done|]. intros x [?|?]%elem_of_app; auto. }
  rewrite length_app in Hlen. lia.
Qed.

Section conditional.
Context {V S : Type} `{MetadataViewLaws V, ObjectStoreLaws S}.
Implicit Types co : Coordinator V S.
Implicit Types net : Net S.
Variable (clients : gmap bytes StorageNodeClient) (key : bytes) (expected : Z).
Variable (data id : bool → bytes).

(** No row has the id of one of the two requests yet. *)
Definition new_requests net : Prop :=
  ∀ a rows m who, net_table net a = Some rows → ¬ retry_of rows key (id who) m.

(** At least [w] of the replicas acknowledged request [who]. *)
Definition has_quorum (w : nat) (replicas : list bytes) (acks : list (bool * bytes)) (who : bool) : Prop :=
  ∃ l, NoDup l ∧ l ⊆ replicas ∧ (w <= length l)%nat ∧ ∀ node, node ∈ l → (who, node) ∈ acks.

Lemma new_requests_fresh net : new_requests net → fresh key expected id net.
Proof. intros Hnew a rows m who T Hr. by destruct (Hnew a rows m who T). Qed.

(** C9: two conditional writes of the same expected version cannot both succeed.
    Let two coordinators send the calls of two [PutConditional] requests with the
    same expected version and different request ids, interleaved in any way, any
    of them lost or acknowledged: with a write quorum of more than half of the
    replicas, not both get a quorum of acknowledgements. *)
Theorem conditional_writes_exclude net schedule acks net' replicas w :
  net_inv net → (∀ who, put_ok key (data who)) → (∀ who, nul_free (id who)) → 0 <= expected < 2 ^ 64 - 1 →
  id true ≠ id false → new_requests net → (length replicas < 2 * w)%nat →
  run_calls clients key expected data id schedule net = (acks, net') →
  ¬ (has_quorum w replicas acks true ∧ has_quorum w replicas acks false).
Proof.
  intros Hn Hd Hi He Hne Hnew Hw E [(l1 & Hnd1 & Hs1 & Hl1 & Ha1) (l2 & Hnd2 & Hs2 & Hl2 & Ha2)].
  destruct (quorums_meet l1 l2 replicas w) as (x & Hx1 & Hx2); [done..|].
  eapply run_calls_exclusive; [done..|by apply new_requests_fresh|done|exact E|]. eauto.
Qed.

(** The tasks of one request are calls of a schedule. *)
Lemma fan_out_calls who replicas order codes net codes' net' :
  fan_out (put_conditional_task clients key (data who) expected (id who)) replicas order codes net = (codes', net') →
  ∃ schedule acks, run_calls clients key expected data id schedule net = (acks, net') ∧
    ∀ i node, replicas !! i = Some node → codes' !! i = Some kOk → codes !! i = Some kOk ∨ (who, node) ∈ acks.
Proof.
  unfold fan_out. revert codes net. induction order as [|i order IH]; intros codes net; simpl.
  { intros [= <- <-]. exists [], []. auto. }
  destruct (replicas !! i) as [node|] eqn:Ei; [|apply IH].
  destruct (put_conditional_task _ _ _ _ _ _ _) as [code net1] eqn:E1. intros E.
  apply IH in E as (schedule & acks & Er & Hacks).
  exists ((who, node) :: schedule), (if is_code kOk code then (who, node) :: acks else acks). split.
  { simpl. by rewrite E1, Er. }
  intros j n Hn Hj. destruct (Hacks j n Hn Hj) as [Hc|Hin].
  2:{ right. destruct (is_code kOk code); [by right|done]. }
  destruct (decide (i = j)) as [<-|Hij]; [|rewrite list_lookup_insert_ne in Hc by done; by left].
  apply list_lookup_insert_Some in Hc as [(_ & -> & _)|[? _]]; [|done].
  right. unfold is_code. rewrite bool_decide_true by done. rewrite Ei in Hn. injection Hn as ->. by left.
Qed.

Lemma run_calls_app s1 s2 net a1 net1 a2 net2 :
  run_calls clients key expected data id s1 net = (a1, net1) →
  run_calls clients key expected data id s2 net1 = (a2, net2) →
  run_calls clients key expected data id (s1 ++ s2) net = (a1 ++ a2, net2).
Proof.
  revert net a1. induction s1 as [|[w n] s1 IH]; intros net a1; simpl.
  { by intros [= <- <-] ->. }
  destruct (put_conditional_task _ _ _ _ _ _ _) as [code net3]. destruct (run_calls _ _ _ _ _ s1 net3) as [a3 net4] eqn:E.
  intros [= <- <-] E2. rewrite (IH _ _ E E2). by destruct (is_code kOk code).
Qed.

Lemma register_write_opts k d version rid acked co :
  co_opts (register_write k d version rid acked co).2 = co_opts co.
Proof. unfold register_write, on_metadata. destruct (mv_RegisterObject _ _) as [reg v]. by case_bool. Qed.

Lemma PutConditional_keeps order k d e rid co r co' :
  mv_inv (co_metadata co) → PutConditional order k d e rid co = (r, co') →
  mv_inv (co_metadata co') ∧ co_clients co' = co_clients co ∧ co_opts co' = co_opts co.
Proof.
  intros Hv. unfold PutConditional, on_metadata.
  destruct (mv_PlacementFor _ _ (co_metadata co)) as [replicas v1] eqn:E1.
  apply mv_PlacementFor_law in E1 as (Hv1 & _ & _ & _); [|done].
  case_bool; [by intros [= <- <-]|]. destruct (fan_out _ _ _ _ _) as [codes net'].
  match goal with |- context [mark_all ?h replicas codes ?c] =>
    destruct (mark_all_eq h replicas codes c) as (Em & Ec & Eo & _); set (co1 := mark_all h replicas codes c) in * end.
  case_bool; [|case_bool; intros [= <- <-]; by rewrite Em, Ec, Eo]. intros E3.
  pose proof (register_write_opts k d (u64 (e + 1)) rid (acked_of (is_code kOk) replicas codes) co1) as Hopts.
  rewrite E3 in Hopts. apply register_write_spec in E3 as (? & _ & Ec3 & _); [|by rewrite Em].
  cbn [snd] in Hopts. by rewrite Ec3, Hopts, Ec, Eo.
Qed.

(** A conditional write that returns metadata: its tasks reached a quorum. *)
Lemma PutConditional_quorum order d e rid co m co' :
  mv_inv (co_metadata co) → PutConditional order key d e rid co = (FromValue m, co') →
  let replicas := (mv_PlacementFor key (op_replication_factor (co_opts co)) (co_metadata co)).1 in
  ∃ codes,
    fan_out (put_conditional_task (co_clients co) key d e rid) replicas order
      (replicate (length replicas) kUnavailable) (co_net co) = (codes, co_net co') ∧
    NoDup (acked_of (is_code kOk) replicas codes) ∧
    (op_write_quorum (co_opts co) <= length (acked_of (is_code kOk) replicas codes))%nat ∧
    m = new_metadata key d (u64 (e + 1)) rid ∧
    mv_registry (co_metadata co') =
      registered (new_location key d (u64 (e + 1)) (acked_of (is_code kOk) replicas codes))
        (mv_registry (co_metadata co)).
Proof.
  intros Hv. unfold PutConditional, on_metadata.
  destruct (mv_PlacementFor _ _ (co_metadata co)) as [replicas v1] eqn:E1. cbn [fst].
  apply mv_PlacementFor_law in E1 as (Hv1 & Er1 & Hnd & _); [|done].
  case_bool; [done|]. destruct (fan_out _ _ _ _ _) as [codes net'] eqn:Ef.
  cbn [co_net co_clients set_metadata] in Ef.
  match goal with |- context [mark_all ?h replicas codes ?c] =>
    destruct (mark_all_eq h replicas codes c) as (Em & _ & Eo & En); set (co1 := mark_all h replicas codes c) in * end.
  cbn [set_net set_metadata co_metadata co_opts co_net] in *.
  rewrite Eo. case_bool; [|by case_bool]. prop_bool. intros E3.
  apply register_write_spec in E3 as (_ & En3 & _ & Hr & Hreg); [|by rewrite Em].
  exists codes. rewrite En3, En. split; [done|]. split; [eapply sublist_NoDup; [done|apply acked_of_sublist]|].
  split; [done|]. rewrite Em, Er1 in Hreg. destruct Hr as [[= ->]|(st & ? & _)]; [|done]. split; [done|].
  by destruct Hreg as [?|[[st ?] _]].
Qed.

(** A conditional write consumes its expected version.  When [PutConditional]
    with some expected version has returned metadata (for version expected + 1), a
    later [PutConditional] of the same expected version with another request id,
    by any coordinator on the same nodes and placement, returns an error, provided
    the write quorum is more than half of the replicas. *)
Theorem conditional_put_once order1 order2 co co1 co2 co3 m r (replicas : list bytes) :
  mv_inv (co_metadata co) → mv_inv (co_metadata co2) → net_inv (co_net co) →
  (∀ who, put_ok key (data who)) → (∀ who, nul_free (id who)) → 0 <= expected < 2 ^ 64 - 1 →
  id true ≠ id false → new_requests (co_net co) → (length replicas < 2 * op_write_quorum (co_opts co))%nat →
  (mv_PlacementFor key (op_replication_factor (co_opts co)) (co_metadata co)).1 = replicas →
  PutConditional order1 key (data true) expected (id true) co = (FromValue m, co1) →
  co_net co2 = co_net co1 → co_clients co = clients → co_clients co2 = clients → co_opts co2 = co_opts co →
  (mv_PlacementFor key (op_replication_factor (co_opts co2)) (co_metadata co2)).1 = replicas →
  PutConditional order2 key (data false) expected (id false) co2 = (r, co3) →
  ∃ st, r = FromStatus st.
Proof.
  intros Hv Hv2 Hn Hd Hi He Hne Hnew Hw Hp1 E1 En Ec1 Ec Eo Hp2 E2. destruct r as [st|m2]; [by eauto|]. exfalso.
  apply PutConditional_quorum in E1 as (codes1 & F1 & Hnd1 & Hq1 & _); [|done].
  apply PutConditional_quorum in E2 as (codes2 & F2 & Hnd2 & Hq2 & _); [|done].
  rewrite Hp1, Ec1 in *. rewrite Hp2, Ec, Eo, En in *.
  destruct (quorums_meet _ _ replicas (op_write_quorum (co_opts co)) Hnd1 Hnd2) as (x & Hx1 & Hx2); try done.
  1-2: intros n Hin; eapply elem_of_submseteq; [exact Hin|apply sublist_submseteq, acked_of_sublist].
  apply elem_of_acked_of in Hx1 as (i1 & c1 & Hi1 & Hc1 & Ok1), Hx2 as (i2 & c2 & Hi2 & Hc2 & Ok2).
  unfold is_code in Ok1, Ok2. prop_bool. subst c1 c2.
  apply (fan_out_calls true) in F1 as (s1 & a1 & R1 & A1). apply (fan_out_calls false) in F2 as (s2 & a2 & R2 & A2).
  pose proof (run_calls_app _ _ _ _ _ _ _ R1 R2) as R.
  destruct (A1 i1 x Hi1 Hc1) as [?%lookup_replicate|Hin1]; [naive_solver|].
  destruct (A2 i2 x Hi2 Hc2) as [?%lookup_replicate|Hin2]; [naive_solver|].
  eapply run_calls_exclusive; [done..|by apply new_requests_fresh|done|exact R|].
  rewrite !elem_of_app. eauto.
Qed.
End conditional.

(** ** Deletes *)

Section deletes.
Context {V S : Type} `{MetadataViewLaws V, ObjectStoreLaws S}.
Implicit Types co : Coordinator V S.
Implicit Types net : Net S.

(** The node does not have the object. *)
Definition lacks (clients : gmap bytes StorageNodeClient) net (key node : bytes) : Prop :=
  ∃ c rows, clients !! node = Some c ∧ net_table net (snc_address c) = Some rows ∧ ∀ m, ¬ live_row rows key m.

Lemma touches_lacks clients net net' address key node :
  touches address (maybe_deleted key) net net' → lacks clients net key node → lacks clients net' key node.
Proof.
  intros [Hne Heq] (c & rows & Hc & T & Hg). destruct (decide (snc_address c = address)) as [<-|Ha].
  - destruct Heq as [E|(rows0 & rows' & T0 & T1 & HR)]; [exists c, rows; by rewrite E|].
    rewrite T in T0. injection T0 as <-. exists c, rows'. split; [done|]. split; [done|].
    by eapply maybe_deleted_gone.
  - exists c, rows. by rewrite Hne.
Qed.

Lemma Delete_loop_spec key replicas acks co acks' co' :
  net_inv (co_net co) → nul_free key → Delete_loop key replicas acks co = (acks', co') →
  net_inv (co_net co') ∧ co_metadata co' = co_metadata co ∧ co_clients co' = co_clients co ∧
  co_opts co' = co_opts co ∧
  (∀ node, lacks (co_clients co) (co_net co) key node → lacks (co_clients co) (co_net co') key node) ∧
  ∃ l, l `sublist_of` replicas ∧ acks' = (acks + length l)%nat ∧
    ∀ node, node ∈ l → lacks (co_clients co) (co_net co') key node.
Proof.
  intros Hn Hk. revert acks co Hn. induction replicas as [|n replicas IH]; intros acks co Hn; simpl.
  { intros [= <- <-]. split_and!; try done. exists []. split; [done|]. split; [simpl; lia|].
    by intros ? ?%not_elem_of_nil. }
  unfold ClientFor. destruct (co_clients co !! n) as [c|] eqn:Ec.
  2:{ intros E. apply IH in E as (? & ? & ? & ? & ? & l & ? & ? & ?); [|done]. split_and!; try done.
      exists l. split; [by apply sublist_cons|done]. }
  destruct (Client_Delete c key (co_net co)) as [s net] eqn:Ed.
  apply Client_Delete_tables in Ed as (Hn' & Ht & Hgone); [|done..].
  assert (∀ node, lacks (co_clients co) (co_net co) key node → lacks (co_clients co) net key node) as Hmono.
  { intros node. by eapply touches_lacks. }
  case_bool; intros E; apply IH in E as (? & Em & Ecl & Eo & Hm' & l & Hsub & Ea & Hl); try done;
    cbn [MarkHealth set_net co_clients co_net co_metadata co_opts] in *;
    (split_and!; [done..|by auto|]).
  - exists (n :: l). split; [by apply sublist_skip|]. split; [simpl; lia|].
    intros node [-> | ?]%elem_of_cons; [|by auto]. apply Hm'.
    destruct Hgone as (rows' & T & Hg); [|by exists c, rows'].
    apply orb_true_iff in Heqb as [?|Hc]; [by left|right]. unfold is_code in Hc. by prop_bool.
  - exists l. split; [by apply sublist_cons|done].
Qed.

Lemma Coordinator_Delete_spec key co st co' :
  mv_inv (co_metadata co) → net_inv (co_net co) → nul_free key → Delete key co = (st, co') → st_ok st = true →
  mv_inv (co_metadata co') ∧ net_inv (co_net co') ∧
  (∃ l, NoDup l ∧ (op_write_quorum (co_opts co) <= length l)%nat ∧
        ∀ node, node ∈ l → lacks (co_clients co) (co_net co') key node) ∧
  mv_registry (co_metadata co') = unregistered key (mv_registry (co_metadata co)).
Proof.
  intros Hv Hn Hk. unfold Delete, on_metadata.
  destruct (mv_PlacementFor _ _ (co_metadata co)) as [replicas v1] eqn:E1.
  apply mv_PlacementFor_law in E1 as (Hv1 & Er1 & Hnd & _); [|done].
  destruct (Delete_loop _ _ _ _) as [acks co1] eqn:E2.
  apply Delete_loop_spec in E2 as (Hn1 & Em & Ec & Eo & _ & l & Hsub & -> & Hl); [|done..].
  cbn [co_clients co_metadata co_opts set_metadata] in *.
  case_bool; [by intros [= <- _]|]. prop_bool. destruct (mv_RemoveObject key _) as [st' v2] eqn:E3. rewrite Em in E3.
  apply mv_RemoveObject_law in E3 as (Hv2 & _ & Hr); [|done]. intros [= -> <-] Hok.
  destruct Hr as [Hr|[? _]]; [|congruence]. cbn [co_metadata co_net set_metadata].
  split; [done|]. split; [done|]. split; [|by rewrite Hr, Er1].
  exists l. split; [by eapply sublist_NoDup|]. rewrite <-Eo. split; [simpl in *; lia|done].
Qed.

(** No bytes for a key without a live location. *)
Lemma Get_not_live key co :
  mv_inv (co_metadata co) → net_inv (co_net co) → nul_free key → live (mv_registry (co_metadata co)) key = None →
  ∃ st, (Get key co).1 = FromStatus st ∧ st_ok st = false.
Proof.
  intros Hv Hn Hk Hl. destruct (Get key co) as [r co'] eqn:Eg.
  apply Coordinator_Get_spec in Eg as (_ & _ & Hg); [|done..]. destruct r as [st|d]; [by exists st|].
  destruct Hg as (loc & node & Hlive & _). congruence.
Qed.

(** A successful [Delete] removes the object from a write quorum and from the
    control plane: at least [write_quorum] distinct nodes do not have it any more,
    the key has no live location, and a following [Get] returns an error. *)
Theorem coordinator_delete_removes key co co' :
  mv_inv (co_metadata co) → net_inv (co_net co) → nul_free key → Delete key co = (Ok, co') →
  (∃ l, NoDup l ∧ (op_write_quorum (co_opts co) <= length l)%nat ∧
        ∀ node, node ∈ l → lacks (co_clients co) (co_net co') key node) ∧
  mv_registry (co_metadata co') = unregistered key (mv_registry (co_metadata co)) ∧
  ∃ st, (Get key co').1 = FromStatus st.
Proof.
  intros Hv Hn Hk E. apply Coordinator_Delete_spec in E as (Hv' & Hn' & Hq & Hr); [|done..].
  split; [done|]. split; [done|]. destruct (Get_not_live key co') as (st & E & _); [done..| |by exists st].
  by rewrite Hr, live_unregistered_eq.
Qed.
End deletes.

(** ** A cluster of three nodes *)

#[local] Instance demo_stores : ObjectStore (StoreProcess MemDb) := LocalStore 7.
#[local] Instance demo_stores_laws : ObjectStoreLaws (StoreProcess MemDb) := LocalStoreLaws 7.

Definition demo_ids : list bytes := [lit "node-a"; lit "node-b"; lit "node-c"].
Definition demo_clients : gmap bytes StorageNodeClient :=
  list_to_map ((λ id, (id, mkStorageNodeClient (lit "host-" ++ id))) <$> demo_ids).
Definition demo_repo : MetadataRepository :=
  foldl (λ repo id, AddNode (NodeInfo_at id (lit "host-" ++ id)) repo) (MetadataRepository_new 1) demo_ids.
Definition demo_network (fates : list fate) : Net (StoreProcess MemDb) :=
  mkNet (list_to_map ((λ id, (lit "host-" ++ id, Up demo_process)) <$> demo_ids)) fates.
Definition demo_co (fates : list fate) : Coordinator MetadataRepository (StoreProcess MemDb) :=
  Coordinator_new demo_repo demo_clients Options_default (demo_network fates).

Lemma demo_repo_inv fates : mv_inv (co_metadata (demo_co fates)).
Proof. unfold demo_co, demo_repo, demo_ids. simpl. auto using Repository_AddNode_inv, RepoInv_new. Qed.

Lemma demo_network_inv fates : net_inv (co_net (demo_co fates)).
Proof.
  intros a sv Hsv.
  apply elem_of_list_to_map_2, list_elem_of_fmap in Hsv as (id & [= -> ->] & _). simpl.
  split; [|constructor]. apply map_Forall_empty.
Qed.

Lemma demo_versions_fit fates : versions_fit (mv_registry (co_metadata (demo_co fates))).
Proof. apply map_Forall_empty. Qed.

(** [Put] where the reply of the first call is lost. *)
Definition demo_order : list nat := [2; 0; 1]%nat.
Definition demo_lossy := demo_co [LoseReply (lit "deadline exceeded")].
Definition demo_co1 := (Put demo_order demo_key demo_data demo_lossy).2.

Lemma demo_put1 :
  Put demo_order demo_key demo_data demo_lossy = (FromValue (new_metadata demo_key demo_data 1 []), demo_co1).
Proof. unfold demo_co1. compute_pair. Qed.

Lemma demo_put_ok : put_ok demo_key demo_data.
Proof. split; [by apply (bool_decide_unpack _)|done]. Qed.

Lemma coordinator_put_quorum_witness :
  ∃ acked, NoDup acked ∧ (2 <= length acked)%nat ∧
    (∀ node, node ∈ acked → holds demo_clients (co_net demo_co1) demo_key (new_meta demo_key demo_data 1) node) ∧
    mv_registry (co_metadata demo_co1) = registered (new_location demo_key demo_data 1 acked) (mv_registry demo_repo).
Proof.
  destruct (coordinator_put_quorum demo_order demo_key demo_data demo_lossy _ _
    (demo_repo_inv _) (demo_network_inv _) (demo_versions_fit _) demo_put_ok demo_put1)
    as (version & acked & _ & Em & Hnd & Hlen & Hh & Hreg).
  pose proof (eq_sym (f_equal om_version Em)) as Ev. cbn in Ev. subst version. exists acked. split; [exact Hnd|]. split; [exact Hlen|].
  split; [exact Hh|exact Hreg].
Defined.

Definition demo_co2 := (Get demo_key demo_co1).2.

Lemma demo_get1 : Get demo_key demo_co1 = (FromValue demo_data, demo_co2).
Proof. unfold demo_co2. compute_pair. Qed.

Lemma coordinator_read_your_writes_witness :
  Get demo_key demo_co1 = (FromValue demo_data, demo_co2) ∧ Sha256Hex demo_data = Sha256Hex demo_data ∧
  om_checksum (new_metadata demo_key demo_data 1 []) = Sha256Hex demo_data.
Proof.
  split; [exact demo_get1|].
  exact (coordinator_read_your_writes demo_order demo_key demo_data demo_lossy _ _ _ _
    (demo_repo_inv _) (demo_network_inv _) (demo_versions_fit _) demo_put_ok demo_put1 demo_get1).
Defined.

(** One of the two replicas goes down; the other serves the read. *)
Definition at_address (address : bytes) (net : Net (StoreProcess MemDb)) : StoreProcess MemDb :=
  match net_servers net !! address with Some (Up s) => s | _ => demo_process end.

Definition demo_outage : Coordinator MetadataRepository (StoreProcess MemDb) :=
  set_net (set_server (lit "host-node-c") (Down (at_address (lit "host-node-c") (co_net demo_co1))) (co_net demo_co1))
    demo_co1.
Definition demo_survivor : StoreProcess MemDb := at_address (lit "host-node-a") (co_net demo_outage).

Definition is_up (sv : option (server (StoreProcess MemDb))) : bool :=
  match sv with Some (Up _) => true | _ => false end.

Lemma is_up_at address net :
  is_up (net_servers net !! address) = true → net_servers net !! address = Some (Up (at_address address net)).
Proof. unfold at_address. by destruct (net_servers net !! address) as [[s|s]|]. Qed.

Lemma demo_survivor_up : net_servers (co_net demo_outage) !! lit "host-node-a" = Some (Up demo_survivor).
Proof. apply is_up_at. vm_compute. reflexivity. Qed.

Lemma demo_survivor_serves : serves demo_survivor demo_key.
Proof.
  exists demo_data, (os_Get demo_key demo_survivor).2,
    (FromValue (mkObjectMetadata demo_key 5 (Sha256Hex demo_data) 1 0 false [])),
    (os_Head demo_key (os_Get demo_key demo_survivor).2).2.
  split; compute_pair.
Qed.

Definition demo_loc1 : ObjectLocation := new_location demo_key demo_data 1 [lit "node-c"; lit "node-a"].

Lemma demo_lookup1 :
  mv_LookupObject demo_key (co_metadata demo_outage) =
    (FromValue demo_loc1, (mv_LookupObject demo_key (co_metadata demo_outage)).2).
Proof. compute_pair. Qed.

Lemma demo_quiet : net_fates (co_net demo_outage) = [].
Proof. vm_compute. reflexivity. Qed.

Lemma coordinator_get_available_witness : ∃ d co', Get demo_key demo_outage = (FromValue d, co').
Proof.
  refine (coordinator_get_available demo_key demo_outage demo_loc1 _ (lit "node-a")
    (mkStorageNodeClient (lit "host-node-a")) demo_survivor demo_lookup1 _ _ demo_quiet demo_survivor_up
    demo_survivor_serves).
  - right. left.
  - vm_compute. reflexivity.
Defined.

Definition demo_co3 := (Delete demo_key demo_co1).2.

Lemma demo_delete : Delete demo_key demo_co1 = (Ok, demo_co3).
Proof. unfold demo_co3. compute_pair. Qed.

Lemma demo_co1_inv : mv_inv (co_metadata demo_co1) ∧ net_inv (co_net demo_co1).
Proof.
  destruct (Coordinator_Put_spec _ _ _ _ _ _ (demo_repo_inv _) (demo_network_inv _) (demo_versions_fit _) demo_put_ok demo_put1)
    as (? & ? & _). done.
Qed.

Lemma coordinator_delete_removes_witness :
  mv_registry (co_metadata demo_co3) = unregistered demo_key (mv_registry (co_metadata demo_co1)) ∧
  ∃ st, (Get demo_key demo_co3).1 = FromStatus st.
Proof.
  destruct demo_co1_inv as [Hv Hn].
  exact (proj2 (coordinator_delete_removes demo_key demo_co1 demo_co3 Hv Hn (proj1 demo_put_ok) demo_delete)).
Defined.

(** Two conditional writes racing for version 1. *)
Definition race_data (who : bool) : bytes := if who then lit "ours" else lit "theirs".
Definition race_id (who : bool) : bytes := if who then lit "req-1" else lit "req-2".
Definition race : list (bool * bytes) :=
  [(true, lit "node-a"); (false, lit "node-c"); (false, lit "node-a"); (true, lit "node-b"); (false, lit "node-b")].

Lemma race_ok who : put_ok demo_key (race_data who).
Proof. split; [by apply (bool_decide_unpack _)|by destruct who]. Qed.

Lemma race_id_ok who : nul_free (race_id who).
Proof. destruct who; by apply (bool_decide_unpack _). Qed.

Lemma race_new fates : new_requests demo_key race_id (demo_network fates).
Proof.
  intros a rows m who T (Em & _ & _). unfold net_table in T. apply fmap_Some in T as (sv & Hsv & ->).
  apply elem_of_list_to_map_2, list_elem_of_fmap in Hsv as (i & [= -> ->] & _).
  assert (os_rows (server_state (Up demo_process)) = ∅) as E0 by by apply (demo_rows (w_db (demo_world []))).
  by rewrite E0, lookup_empty in Em.
Qed.

Definition race_result := run_calls demo_clients demo_key 0 race_data race_id race (demo_network []).

Lemma race_acks : race_result = ([(true, lit "node-a"); (false, lit "node-c"); (true, lit "node-b")], race_result.2).
Proof. compute_pair. Qed.

Lemma conditional_writes_exclude_witness :
  let acks := [(true, lit "node-a"); (false, lit "node-c"); (true, lit "node-b")] in
  race_result = (acks, race_result.2) ∧
  ¬ (has_quorum 2 demo_ids acks true ∧ has_quorum 2 demo_ids acks false).
Proof.
  intros acks. split; [exact race_acks|].
  refine (conditional_writes_exclude demo_clients demo_key 0 race_data race_id (demo_network []) race acks
    race_result.2 demo_ids 2 (demo_network_inv []) race_ok race_id_ok _ _ (race_new []) _ race_acks).
  - lia.
  - discriminate.
  - simpl. lia.
Defined.

Definition demo_first := PutConditional demo_order demo_key (race_data true) 0 (race_id true) (demo_co []).
Definition demo_cas1 := demo_first.2.
Definition demo_cas2 := (PutConditional demo_order demo_key (race_data false) 0 (race_id false) demo_cas1).2.
Definition demo_conflict : Status := Conflict (lit "conditional write rejected: expected version 0").

Lemma demo_first_ok :
  PutConditional demo_order demo_key (race_data true) 0 (race_id true) (demo_co []) =
    (FromValue (new_metadata demo_key (race_data true) 1 (race_id true)), demo_cas1).
Proof. unfold demo_cas1, demo_first. compute_pair. Qed.

Lemma demo_second_fails :
  PutConditional demo_order demo_key (race_data false) 0 (race_id false) demo_cas1 = (FromStatus demo_conflict, demo_cas2).
Proof. unfold demo_cas2. compute_pair. Qed.

Lemma demo_placement : (mv_PlacementFor demo_key 3 demo_repo).1 = [lit "node-c"; lit "node-a"; lit "node-b"].
Proof. vm_compute. reflexivity. Qed.

Lemma demo_cas1_placement :
  (mv_PlacementFor demo_key 3 (co_metadata demo_cas1)).1 = [lit "node-c"; lit "node-a"; lit "node-b"].
Proof. vm_compute. reflexivity. Qed.

Lemma conditional_put_once_witness :
  PutConditional demo_order demo_key (race_data false) 0 (race_id false) demo_cas1 = (FromStatus demo_conflict, demo_cas2) ∧
  ∃ st, FromStatus demo_conflict = FromStatus (T := ObjectMetadata) st.
Proof.
  split; [exact demo_second_fails|]. destruct (PutConditional_keeps _ _ _ _ _ _ _ _ (demo_repo_inv []) demo_first_ok) as (Hv & Ec & Eo).
  refine (conditional_put_once demo_clients demo_key 0 race_data race_id demo_order demo_order (demo_co []) demo_cas1
    demo_cas1 demo_cas2 _ _ [lit "node-c"; lit "node-a"; lit "node-b"] (demo_repo_inv []) Hv
    (demo_network_inv []) race_ok race_id_ok _ _ (race_new []) _ demo_placement demo_first_ok eq_refl eq_refl Ec Eo _
    demo_second_fails).
  - lia.
  - discriminate.
  - simpl. lia.
  - rewrite Eo. exact demo_cas1_placement.
Defined.

(** ** What a failed write leaves behind *)

(** A [Put] that returns [kUnavailable] because its quorum was not met has replaced
    the object on the nodes it did reach, and [Get] returns the new bytes although
    the control plane still has the old version and checksum. *)
Lemma failed_put_is_visible :
  let lost := [Deliver []; LoseRequest (lit "down"); LoseRequest (lit "down")] in
  let co := set_net (mkNet (net_servers (co_net demo_co1)) lost) demo_co1 in
  let run := Put [0; 1; 2]%nat demo_key (lit "unacknowledged") co in
  run.1 = FromStatus (Unavailable (lit "write quorum not met: 1/2 acks")) ∧
  (Head demo_key run.2).1 = FromValue (new_metadata demo_key demo_data 1 []) ∧
  (Get demo_key run.2).1 = FromValue (lit "unacknowledged").
Proof. vm_compute. done. Qed.

(** Versions are not monotonic: after a delete they start again at 1. *)
Lemma delete_resets_version :
  let co := (Put demo_order demo_key (lit "v2") demo_co1).2 in
  let gone := (Delete demo_key co).2 in
  (om_version <$> so_value (Head demo_key co).1) = Some 2 ∧
  (om_version <$> so_value (Put demo_order demo_key (lit "again") gone).1) = Some 1.
Proof. vm_compute. done. Qed.
