(* ===== verification/Repairer.v ===== *)
(** * Anti-entropy repair

    [include/network/repairer.h] and [src/network/repairer.cc]: copying to a node
    the objects it should hold, from replicas that answer with bytes of the
    registered checksum. *)

From stdpp Require Import base gmap numbers list sorting.
From Stdlib Require Import ZArith Lia.
From S2P Require Import Ring ClusterMap MetadataRepository.
From S2P Require Import Prelude Status Posix Wal Sha256 MetadataStore LocalObjectStore StoreRecovery StoreProps.
From S2P Require Import ObjectStore MemObjectStore Rpc StorageNode MetadataView Coordinator CoordinatorProps.

Local Open Scope Z_scope.
Local Opaque Hash64 vnode_pos.

Record Report := mkReport { rp_copied : nat; rp_already_current : nat; rp_failed : nat }.
Definition Report_default : Report := mkReport 0 0 0.

Record Repairer (V S : Type) := mkRepairer {
  re_metadata : V;
  re_clients : gmap bytes StorageNodeClient;
  re_replication_factor : nat;
  re_net : Net S;
}.
Arguments mkRepairer {V S}.
Arguments re_metadata {V S}.
Arguments re_clients {V S}.
Arguments re_replication_factor {V S}.
Arguments re_net {V S}.

Section repairer.
Context {V S : Type} `{MetadataView V, ObjectStore S}.
Implicit Types re : Repairer V S.

Definition re_view {A} (f : V → A * V) re : A * Repairer V S :=
  let '(x, v) := f (re_metadata re) in
  (x, mkRepairer v (re_clients re) (re_replication_factor re) (re_net re)).
Definition re_call {A} (f : Net S → A * Net S) re : A * Repairer V S :=
  let '(x, net) := f (re_net re) in
  (x, mkRepairer (re_metadata re) (re_clients re) (re_replication_factor re) net).

(** The location with the target among its replicas. *)
Definition with_replica (loc : ObjectLocation) (node : bytes) : ObjectLocation :=
  mkObjectLocation (ol_key loc) (ol_version loc) (ol_checksum loc) (ol_size loc) (ol_deleted loc)
    (ol_replicas loc ++ [node]).

(** The loop over the sources of one object: whether it was repaired. *)
Fixpoint repair_from (target_node_id : bytes) (target : StorageNodeClient) (loc : ObjectLocation)
    (sources : list bytes) re : bool * Repairer V S :=
  match sources with
  | [] => (false, re)
  | source_id :: rest =>
      match re_clients re !! source_id with
      | None => repair_from target_node_id target loc rest re
      | Some source =>
          let '(data, re) := re_call (Client_Get source (ol_key loc)) re in
          match data with
          | FromStatus _ => repair_from target_node_id target loc rest re
          | FromValue d =>
              if bool_decide (Sha256Hex d ≠ ol_checksum loc)
              then repair_from target_node_id target loc rest re
              else
                let '(r, re) := re_call (Client_Put target (ol_key loc) d (ol_version loc)) re in
                if so_ok r then
                  let '(_, re) := re_view (mv_RegisterObject (with_replica loc target_node_id)) re in
                  (true, re)
                else (false, re)
          end
      end
  end.

(** One object of [RepairNode]. *)
Definition repair_object (target_node_id : bytes) (target : StorageNodeClient) (loc : ObjectLocation)
    (report : Report) re : Report * Repairer V S :=
  let '(placement, re) := re_view (mv_PlacementFor (ol_key loc) (re_replication_factor re)) re in
  if negb (find_in target_node_id placement) then (report, re)
  else if find_in target_node_id (ol_replicas loc)
  then (mkReport (rp_copied report) (rp_already_current report + 1) (rp_failed report), re)
  else
    let '(repaired, re) := repair_from target_node_id target loc (ol_replicas loc) re in
    if repaired : bool
    then (mkReport (rp_copied report + 1) (rp_already_current report) (rp_failed report), re)
    else (mkReport (rp_copied report) (rp_already_current report) (rp_failed report + 1), re).

Fixpoint repair_all (target_node_id : bytes) (target : StorageNodeClient) (objects : list ObjectLocation)
    (report : Report) re : Report * Repairer V S :=
  match objects with
  | [] => (report, re)
  | loc :: rest =>
      let '(report, re) := repair_object target_node_id target loc report re in
      repair_all target_node_id target rest report re
  end.

Definition RepairNode (target_node_id : bytes) re : StatusOr Report * Repairer V S :=
  match re_clients re !! target_node_id with
  | None => (FromStatus (InvalidArgument (lit "unknown target node: " ++ target_node_id)), re)
  | Some target =>
      let '(objects, re) := re_view (mv_ListObjects []) re in
      match objects with
      | FromStatus st => (FromStatus st, re)
      | FromValue locs =>
          let '(report, re) := repair_all target_node_id target locs Report_default re in
          (FromValue report, re)
      end
  end.
End repairer.

(** ** Repair copies only what is registered *)

Section sound.
Context {V S : Type} `{MetadataViewLaws V, ObjectStoreLaws S}.
Implicit Types re : Repairer V S.
Variable (target_id : bytes) (target : StorageNodeClient).

(** The row of the location's version. *)
Definition row_for (loc : ObjectLocation) (m : ObjectMetadata) : Prop :=
  om_version m = ol_version loc ∧ om_checksum m = ol_checksum loc ∧ om_deleted m = false.

(** The target has the object at the location's version. *)
Definition target_has re (loc : ObjectLocation) : Prop :=
  holds (re_clients re) (re_net re) (ol_key loc) (row_for loc) target_id.

(** What repairing one object may do: nothing to the registry, or add the target
    to its replicas after it got the bytes; only the row of that key at the target
    changes. *)
Record repaired_as (loc : ObjectLocation) re re' : Prop := {
  ra_view : mv_inv (re_metadata re');
  ra_net : net_inv (re_net re');
  ra_clients : re_clients re' = re_clients re;
  ra_others : ∀ a, a ≠ snc_address target → net_table (re_net re') a = net_table (re_net re) a;
  ra_rows : ∀ rows, net_table (re_net re) (snc_address target) = Some rows →
     ∃ rows', net_table (re_net re') (snc_address target) = Some rows' ∧
       ∀ k, k ≠ ol_key loc → rows' !! k = rows !! k;
  ra_registry :
     mv_registry (re_metadata re') = mv_registry (re_metadata re) ∨
     (target_has re' loc ∧
      mv_registry (re_metadata re') = registered (with_replica loc target_id) (mv_registry (re_metadata re)));
}.

Lemma repaired_as_refl loc re : mv_inv (re_metadata re) → net_inv (re_net re) → repaired_as loc re re.
Proof. intros ? ?. split; [done..| |by left]. intros rows T. by exists rows. Qed.

(** A call that leaves the tables alone comes first. *)
Lemma repaired_as_after loc re re1 re' :
  re_clients re1 = re_clients re → mv_registry (re_metadata re1) = mv_registry (re_metadata re) →
  (∀ a, net_table (re_net re1) a = net_table (re_net re) a) →
  repaired_as loc re1 re' → repaired_as loc re re'.
Proof.
  intros Ec Er Ht [? ? Ec' Ho Hrows Hreg]. split; [done|done|by rewrite Ec', Ec| | |].
  - intros a Ha. by rewrite Ho, Ht.
  - intros rows T. rewrite <-Ht in T. by apply Hrows.
  - by rewrite <-Er.
Qed.

(** The sizes of the objects a node can store. *)
Definition location_ok (loc : ObjectLocation) : Prop :=
  nul_free (ol_key loc) ∧ is_u64 (ol_version loc) ∧ ol_version loc ≠ 0 ∧ ol_deleted loc = false.

(** The stores return payloads that a [std::string] can hold. *)
Hypothesis Hsmall : ∀ (s : S) key d s', os_inv s → os_Get key s = (Some (FromValue d), s') → Zlen d * 8 < 2 ^ 64.

Lemma Client_Get_small c key net d net' :
  net_inv net → Client_Get c key net = (FromValue d, net') → Zlen d * 8 < 2 ^ 64.
Proof.
  intros Hn. unfold Client_Get. destruct (stub _ _ net) as [r net1] eqn:E. intros [= Hr _].
  apply stub_cases in E as [[_ [e ->]]|(s & o & s' & Es & Eh & _ & Ho)]; [done|].
  destruct r as [e|resp]; [done|]. specialize (Ho resp eq_refl). subst o.
  case_bool; [done|]. injection Hr as <-. prop_bool. apply dec_stable in Heqb.
  unfold Service_Get in Eh. destruct (os_Get key s) as [[[st|d]|] s1] eqn:Eg; cbn in Eh; [|..|done].
  - injection Eh as <- <-. simpl. lia.
  - destruct (os_Head key s1) as [[h|] s2]; [|done]. injection Eh as <- <-. simpl. by eapply Hsmall; [apply (Hn _ _ Es)|].
Qed.

Lemma repair_from_spec loc sources re b re' :
  location_ok loc → mv_inv (re_metadata re) → net_inv (re_net re) → re_clients re !! target_id = Some target →
  repair_from target_id target loc sources re = (b, re') → repaired_as loc re re'.
Proof.
  intros (Hk & Hv & Hz & Hd). revert re. induction sources as [|n sources IH]; intros re Hi Hn Hc; simpl.
  { intros [= _ <-]. by apply repaired_as_refl. }
  destruct (re_clients re !! n) as [c|] eqn:En; [|by apply IH]. unfold re_call at 1.
  destruct (Client_Get c (ol_key loc) (re_net re)) as [data net1] eqn:Eg.
  pose proof (Client_Get_tables _ _ _ _ _ Hn Hk Eg) as (Hn1 & Ht1 & _).
  set (re1 := mkRepairer _ _ _ net1).
  assert (repair_from target_id target loc sources re1 = (b, re') → repaired_as loc re re') as Hnext.
  { intros E. eapply (repaired_as_after loc re re1); [done..|]. by apply IH. }
  destruct data as [st|d]; [apply Hnext|]. case_bool; [apply Hnext|]. prop_bool. apply dec_stable in Heqb0 as Hck.
  pose proof (Client_Get_small _ _ _ _ _ Hn Eg) as Hsm. unfold re_call.
  destruct (Client_Put target (ol_key loc) d (ol_version loc) (re_net re1)) as [r net2] eqn:Ep.
  apply Client_Put_tables in Ep as (Hn2 & [Hne Heq] & Hr); [|done..].
  change (re_net re1) with net1 in *.
  assert (∀ rows, net_table net1 (snc_address target) = Some rows →
     ∃ rows', net_table net2 (snc_address target) = Some rows' ∧ ∀ k, k ≠ ol_key loc → rows' !! k = rows !! k) as Hrows.
  { intros rows T. destruct Heq as [E|(r0 & rows' & T0 & T1 & HR)]; [exists rows; by rewrite E|].
    rewrite T in T0. injection T0 as <-. exists rows'. split; [done|]. intros k Hk'.
    destruct HR as [->|(m & _ & _ & ->)]; [done|]. by rewrite lookup_insert_ne. }
  destruct (so_ok r) eqn:Er.
  - unfold re_view. destruct (mv_RegisterObject _ _) as [st v] eqn:Ereg. intros [= _ <-].
    apply mv_RegisterObject_law in Ereg as [Hi' Hreg]; [|done|done].
    destruct r as [st'|m']; [unfold so_ok in Er; cbn in Er; congruence|].
    destruct Hr as (rows & m & T0 & Hm & T2).
    eapply (repaired_as_after loc re re1); [done..|]. split; [done|done|done|done|done|].
    destruct Hreg as [Hreg|[_ Hreg]]; [right|by left]. split; [|done].
    exists target, (<[ol_key loc := m]> rows), m. rewrite lookup_insert_eq. split_and!; try done.
    destruct Hm as (_ & _ & Hcm & Hver & Hdel). split; [done|]. split; [congruence|done].
  - intros [= _ <-]. eapply (repaired_as_after loc re re1); [done..|]. split; try done. by left.
Qed.

Lemma repair_object_spec loc report re report' re' :
  location_ok loc → mv_inv (re_metadata re) → net_inv (re_net re) → re_clients re !! target_id = Some target →
  repair_object target_id target loc report re = (report', re') →
  repaired_as loc re re' ∧
  (rp_copied report' + rp_already_current report' + rp_failed report' <=
   rp_copied report + rp_already_current report + rp_failed report + 1)%nat.
Proof.
  intros Hl Hi Hn Hc. unfold repair_object, re_view.
  destruct (mv_PlacementFor _ _ _) as [placement v] eqn:E. apply mv_PlacementFor_law in E as (Hi' & Er & _); [|done].
  set (re1 := mkRepairer v _ _ _).
  assert (repaired_as loc re re1) as Hr1.
  { eapply (repaired_as_after loc re re1); [done..|]. by apply repaired_as_refl. }
  case_bool; [intros [= <- <-]; split; [done|lia]|]. case_bool; [intros [= <- <-]; split; [done|simpl; lia]|].
  destruct (repair_from _ _ _ _ _) as [b re2] eqn:Ef. apply repair_from_spec in Ef; [|done..].
  assert (repaired_as loc re re2) as Hr2 by by eapply (repaired_as_after loc re re1).
  destruct b; intros [= <- <-]; (split; [done|simpl; lia]).
Qed.

Lemma repaired_live loc re re' k :
  repaired_as loc re re' → k ≠ ol_key loc →
  live (mv_registry (re_metadata re')) k = live (mv_registry (re_metadata re)) k.
Proof. intros [_ _ _ _ _ [->|[_ ->]]] Hk; [done|]. by apply live_registered_ne. Qed.

Lemma repaired_target_has loc l re re' :
  repaired_as loc re re' → re_clients re !! target_id = Some target → ol_key l ≠ ol_key loc →
  target_has re l → target_has re' l.
Proof.
  intros [_ _ Ec _ Hrows _] Hc Hne (c & rows & m & Hc' & T & Em & Hm). assert (c = target) as -> by congruence.
  destruct (Hrows rows T) as (rows' & T' & Hsame). exists target, rows', m. rewrite Ec, Hsame by done. done.
Qed.

(** The outcome for one listed object. *)
Definition outcome_for re (loc : ObjectLocation) : Prop :=
  live (mv_registry (re_metadata re)) (ol_key loc) = Some loc ∨
  (target_has re loc ∧ live (mv_registry (re_metadata re)) (ol_key loc) = Some (with_replica loc target_id)).

Lemma repair_all_spec objects report re report' re' :
  Forall location_ok objects → NoDup (ol_key <$> objects) →
  mv_inv (re_metadata re) → net_inv (re_net re) → re_clients re !! target_id = Some target →
  (∀ loc, loc ∈ objects → live (mv_registry (re_metadata re)) (ol_key loc) = Some loc) →
  repair_all target_id target objects report re = (report', re') →
  re_clients re' = re_clients re ∧
  (∀ a, a ≠ snc_address target → net_table (re_net re') a = net_table (re_net re) a) ∧
  (∀ k, k ∉ ol_key <$> objects →
     live (mv_registry (re_metadata re')) k = live (mv_registry (re_metadata re)) k) ∧
  (∀ l, ol_key l ∉ ol_key <$> objects → target_has re l → target_has re' l) ∧
  (∀ loc, loc ∈ objects → outcome_for re' loc) ∧
  (rp_copied report' + rp_already_current report' + rp_failed report' <=
   rp_copied report + rp_already_current report + rp_failed report + length objects)%nat.
Proof.
  intros Hok. revert report re. induction Hok as [|loc objects Hl Hok IH]; intros report re Hnd Hi Hn Hc Hlive; simpl.
  { intros [= <- <-]. split_and!; try done; [by intros ? ?%not_elem_of_nil|lia]. }
  simpl in Hnd. apply NoDup_cons in Hnd as [Hnot Hnd].
  destruct (repair_object _ _ _ _ _) as [report1 re1] eqn:E1. apply repair_object_spec in E1 as [Hr1 Hsum1]; [|done..].
  intros E. pose proof Hr1 as [Hi1 Hn1 Ec1 Ho1 _ Hreg1].
  apply IH in E as (Ec & Ho & Hlv & Hth & Hout & Hsum); [|done|done|done|by rewrite Ec1|].
  2:{ intros l Hin. erewrite repaired_live; [apply Hlive; by right|exact Hr1|].
      intros Ek. apply Hnot. rewrite <-Ek. by apply list_elem_of_fmap_2. }
  split; [congruence|]. split; [intros a Ha; by rewrite Ho, Ho1|].
  split; [intros k [Hk1 Hk2]%not_elem_of_cons; rewrite Hlv by done; by eapply repaired_live|].
  split; [intros l [Hk1 Hk2]%not_elem_of_cons Hl'; apply Hth; [done|]; by eapply repaired_target_has|].
  split; [|lia]. intros l [-> | Hin]%elem_of_cons; [|by apply Hout].
  unfold outcome_for. rewrite Hlv by done. destruct Hreg1 as [->|[Hhas ->]].
  - left. apply Hlive. by left.
  - right. split; [by apply Hth|]. apply (live_registered_eq (with_replica loc target_id)). apply Hl.
Qed.

(** C10: repair never propagates corruption.  Whatever calls fail, after
    [RepairNode] the nodes other than the target are untouched, and the live
    location of every key is what it was or has the target added to its replicas;
    in that case the target holds a live row with exactly the registered version
    and checksum.  The report counts each object at most once. *)
Theorem repair_never_propagates_corruption re report re' :
  mv_inv (re_metadata re) → net_inv (re_net re) → re_clients re !! target_id = Some target →
  map_Forall (λ _ loc, ol_deleted loc = false → location_ok loc) (mv_registry (re_metadata re)) →
  RepairNode target_id re = (FromValue report, re') →
  let reg := mv_registry (re_metadata re) in
  let reg' := mv_registry (re_metadata re') in
  (∀ a, a ≠ snc_address target → net_table (re_net re') a = net_table (re_net re) a) ∧
  (∀ key, live reg' key = live reg key ∨
     ∃ loc, live reg key = Some loc ∧ live reg' key = Some (with_replica loc target_id) ∧
            holds (re_clients re') (re_net re') key (row_for loc) target_id) ∧
  (rp_copied report + rp_already_current report + rp_failed report <= length (listing [] reg))%nat.
Proof.
  intros Hi Hn Hc Hok. unfold RepairNode, re_view. rewrite Hc.
  destruct (mv_ListObjects [] _) as [objects v] eqn:E. apply mv_ListObjects_law in E as (Hi1 & Er & Hl); [|done].
  destruct objects as [st|locs]; [done|]. subst locs. set (re1 := mkRepairer v _ _ _).
  destruct (repair_all _ _ _ _ re1) as [rep re2] eqn:E2. intros [= <- <-].
  set (reg := mv_registry (re_metadata re)). set (reg' := mv_registry (re_metadata re2)).
  pose proof (mv_keyed _ Hi) as Hk. fold reg in Hk, Hok, E2, Er |- *.
  apply repair_all_spec in E2 as (_ & Ho & Hlv & _ & Hout & Hsum); [|..|done|done|done|].
  - split; [done|]. split; [|cbn [Report_default rp_copied rp_already_current rp_failed] in Hsum; lia]. intros key.
    destruct (decide (key ∈ ol_key <$> listing [] reg)) as [Hin|Hin].
    + apply list_elem_of_fmap in Hin as (loc & -> & Hin). destruct (Hout loc Hin) as [Hs|[Hh Hs]].
      * left. subst reg'. rewrite Hs. symmetry. by apply (elem_of_listing [] reg).
      * right. exists loc. split; [by apply (elem_of_listing [] reg)|]. done.
    + left. subst reg'. rewrite Hlv by done. by rewrite <-Er.
  - apply Forall_forall. intros loc [[Hr Hd]%live_Some _]%(elem_of_listing [] reg); [|done]. by eapply Hok.
  - by apply listing_sorted.
  - intros loc [Hlive _]%(elem_of_listing [] reg); [|done]. simpl. by rewrite Er.
Qed.
End sound.

(** Two replicas have the object, the third node of its placement lost it; one of
    the two has rotten bytes. *)
Definition mem_meta : ObjectMetadata := mkObjectMetadata demo_key 5 (Sha256Hex demo_data) 1 0 false [].
Definition rotten : bytes := lit "jello".
Definition rotten_meta : ObjectMetadata := mkObjectMetadata demo_key 5 (Sha256Hex rotten) 1 0 false [].
Definition demo_stores_net : Net MemObjectStore :=
  mkNet {[lit "host-node-c" := Up (mkMemObjectStore {[demo_key := (rotten_meta, rotten)]});
          lit "host-node-b" := Up (mkMemObjectStore ∅);
          lit "host-node-a" := Up (mkMemObjectStore {[demo_key := (mem_meta, demo_data)]})]} [].
Definition demo_repairer : Repairer MetadataRepository MemObjectStore :=
  mkRepairer (mkMetadataRepository (mr_cluster demo_repo) {[demo_key := demo_loc1]}) demo_clients 3 demo_stores_net.
Definition demo_repaired := (RepairNode (lit "node-b") demo_repairer).2.

Lemma demo_repair_run :
  RepairNode (lit "node-b") demo_repairer = (FromValue (mkReport 1 0 0), demo_repaired).
Proof. unfold demo_repaired. compute_pair. Qed.

Lemma demo_repairer_inv : mv_inv (re_metadata demo_repairer) ∧ net_inv (re_net demo_repairer).
Proof.
  split.
  - split; [apply (demo_repo_inv [])|]. by apply map_Forall_singleton.
  - apply map_Forall_insert_2; [by apply map_Forall_singleton|].
    apply map_Forall_insert_2; [apply map_Forall_empty|]. apply map_Forall_singleton. by apply map_Forall_singleton.
Qed.

Lemma demo_repairer_locations :
  map_Forall (λ _ loc, ol_deleted loc = false → location_ok loc) (mv_registry (re_metadata demo_repairer)).
Proof. apply map_Forall_singleton. intros _. split_and!; try done. by apply (bool_decide_unpack _). Qed.

Lemma repair_never_propagates_corruption_witness :
  RepairNode (lit "node-b") demo_repairer = (FromValue (mkReport 1 0 0), demo_repaired) ∧
  ∀ key, live (mv_registry (re_metadata demo_repaired)) key = live (mv_registry (re_metadata demo_repairer)) key ∨
    ∃ loc, live (mv_registry (re_metadata demo_repairer)) key = Some loc ∧
      live (mv_registry (re_metadata demo_repaired)) key = Some (with_replica loc (lit "node-b")) ∧
      holds (re_clients demo_repaired) (re_net demo_repaired) key (row_for loc) (lit "node-b").
Proof.
  split; [exact demo_repair_run|]. destruct demo_repairer_inv as [Hv Hn].
  refine (proj1 (proj2 (repair_never_propagates_corruption (lit "node-b") (mkStorageNodeClient (lit "host-node-b"))
    MemStore_small demo_repairer (mkReport 1 0 0) demo_repaired Hv Hn _ demo_repairer_locations demo_repair_run))).
  vm_compute. reflexivity.
Defined.

(** The good copy is what arrives: the rotten replica was skipped. *)
Lemma demo_repair_copies :
  (mo_objects <$> (server_state <$> net_servers (re_net demo_repaired) !! lit "host-node-b"))
    ≫= (λ objects, snd <$> objects !! demo_key) = Some demo_data.
Proof. vm_compute. reflexivity. Qed.
