(* ===== verification/HttpGateway.v ===== *)
(** * The HTTP gateway

    [src/network/http_gateway.cc]: verbs and paths to coordinator calls, status
    codes to HTTP codes, with a request id, metrics and a log line per request.
    What a request takes from its surroundings (the random number of its id, the
    clock, the order in which the tasks of a write run) is its [Env]. *)

From stdpp Require Import base gmap numbers list sorting.
From Stdlib Require Import ZArith Lia.
From S2P Require Import Ring ClusterMap MetadataView MetadataRepository CachingMetadataView.
From S2P Require Import Prelude Status Sha256 MetadataStore ObjectStore Rpc StorageNode Coordinator.
From S2P Require Import Text Http Metrics Logging.

Local Open Scope Z_scope.

Definition HttpStatusFor (code : StatusCode) : Z :=
  match code with
  | kOk => 200
  | kNotFound => 404
  | kConflict => 409
  | kInvalidArgument => 400
  | kChecksumMismatch => 422
  | Status.kUnavailable => 503
  | kAlreadyExists => 409
  | kIoError => 500
  end.

Definition TextError (s : Status) : HttpResponse :=
  mkHttpResponse (HttpStatusFor (st_code s)) (lit "text/plain") (ToString s ++ [LF]) ∅.

Definition JsonEscape (s : bytes) : bytes :=
  s ≫= λ c, if decide (c = quote ∨ c = backslash) then [backslash; c] else [c].

(** A quoted member name or string. *)
Definition in_quotes (s : bytes) : bytes := [quote] ++ s ++ [quote].

Definition json_object (m : ObjectMetadata) : bytes :=
  lit "{" ++ in_quotes (lit "key") ++ lit ":" ++ in_quotes (JsonEscape (om_key m))
  ++ lit "," ++ in_quotes (lit "version") ++ lit ":" ++ to_string (om_version m)
  ++ lit "," ++ in_quotes (lit "size") ++ lit ":" ++ to_string (om_size m)
  ++ lit "," ++ in_quotes (lit "checksum") ++ lit ":" ++ in_quotes (JsonEscape (om_checksum m)) ++ lit "}".

(** The loop over the listing. *)
Fixpoint json_objects (first : bool) (ms : list ObjectMetadata) : bytes :=
  match ms with
  | [] => []
  | m :: ms => (if first then [] else lit ",") ++ json_object m ++ json_objects false ms
  end.

Definition kPrefix : bytes := lit "/objects".

Section route.
Context {V S : Type} `{MetadataView V, ObjectStore S}.
Implicit Types co : Coordinator V S.

(** The key of a path; empty for the collection. *)
Definition route_key (path : bytes) : bytes :=
  if (length kPrefix + 1 <? length path)%nat then substr_from path (length kPrefix + 1) else [].

Definition Route (order : list nat) (req : HttpRequest) co : HttpResponse * Coordinator V S :=
  if negb (starts_with kPrefix (rq_path req)) then
    (mkHttpResponse 404 (lit "text/plain") (lit "not found; use /objects/<key>" ++ [LF]) ∅, co)
  else
  let key := route_key (rq_path req) in
  let no_key := bool_decide (key = []) in
  if bool_decide (rq_method req = lit "PUT") then
    if no_key then (TextError (InvalidArgument (lit "PUT requires a key")), co) else
    let '(r, co) := Put order key (rq_body req) co in
    (match r with
     | FromStatus st => TextError st
     | FromValue m =>
         mkHttpResponse 201 (lit "text/plain")
           (lit "stored " ++ key ++ lit " (v" ++ to_string (om_version m) ++ lit ")" ++ [LF])
           {[lit "X-Object-Version" := to_string (om_version m)]}
     end, co)
  else if bool_decide (rq_method req = lit "GET") then
    if no_key then
      let prefix := default [] (rq_query req !! lit "prefix") in
      let '(r, co) := Coordinator.List prefix co in
      (match r with
       | FromStatus st => TextError st
       | FromValue ms => mkHttpResponse 200 (lit "application/json") (lit "[" ++ json_objects true ms ++ lit "]") ∅
       end, co)
    else
      let '(r, co) := Get key co in
      (match r with
       | FromStatus st => TextError st
       | FromValue data => mkHttpResponse 200 (lit "application/octet-stream") data ∅
       end, co)
  else if bool_decide (rq_method req = lit "HEAD") then
    if no_key then (TextError (InvalidArgument (lit "HEAD requires a key")), co) else
    let '(r, co) := Head key co in
    (match r with
     | FromStatus st => mkHttpResponse (HttpStatusFor (st_code st)) (lit "application/octet-stream") [] ∅
     | FromValue m =>
         mkHttpResponse 200 (lit "application/octet-stream") []
           (<[lit "X-Object-Checksum" := om_checksum m]> (<[lit "X-Object-Size" := to_string (om_size m)]>
              {[lit "X-Object-Version" := to_string (om_version m)]}))
     end, co)
  else if bool_decide (rq_method req = lit "DELETE") then
    if no_key then (TextError (InvalidArgument (lit "DELETE requires a key")), co) else
    let '(st, co) := Delete key co in
    ((if st_ok st then mkHttpResponse 204 (lit "application/octet-stream") [] ∅ else TextError st), co)
  else
    (mkHttpResponse 400 (lit "text/plain") (lit "unsupported method: " ++ rq_method req ++ [LF]) ∅, co).
End route.

(** ** The gateway *)

(** [gw_cache] reads the hits and the misses of the caching view that the
    coordinator uses, when [SetCacheView] was called; [gw_requests] is the counter
    of [NewRequestId]; [gw_log] is what the logger wrote, latest first. *)
Record HttpGateway (V S D : Type) := mkHttpGateway {
  gw_coordinator : Coordinator V S;
  gw_cache : option (V → Z * Z);
  gw_metrics : families D;
  gw_in_flight : Z;
  gw_requests : Z;
  gw_log : list bytes;
}.
Arguments mkHttpGateway {V S D}.
Arguments gw_coordinator {V S D}.
Arguments gw_cache {V S D}.
Arguments gw_metrics {V S D}.
Arguments gw_in_flight {V S D}.
Arguments gw_requests {V S D}.
Arguments gw_log {V S D}.

Record Env (D : Type) := mkEnv { env_random : Z; env_ms : Z; env_secs : D; env_order : list nat }.
Arguments mkEnv {D}.
Arguments env_random {D}.
Arguments env_ms {D}.
Arguments env_secs {D}.
Arguments env_order {D}.

Section gateway.
Context {V S D : Type} `{MetadataView V, ObjectStore S, Double D}.
Implicit Types g : HttpGateway V S D.

Definition HttpGateway_new (co : Coordinator V S) : HttpGateway V S D := mkHttpGateway co None ∅ 0 0 [].

Definition SetCacheView (stats : V → Z * Z) g : HttpGateway V S D :=
  mkHttpGateway (gw_coordinator g) (Some stats) (gw_metrics g) (gw_in_flight g) (gw_requests g) (gw_log g).

Definition set_metrics (fs : families D) g : HttpGateway V S D :=
  mkHttpGateway (gw_coordinator g) (gw_cache g) fs (gw_in_flight g) (gw_requests g) (gw_log g).

(** [LruCache::hit_rate] *)
Definition hit_rate (hits misses : Z) : D :=
  let total := u64 (hits + misses) in
  if total =? 0 then d_zero else d_div (d_of_Z hits) (d_of_Z total).

(** The number of replicas in a state. *)
Definition count_health (h : ReplicaHealth) (snapshot : gmap bytes ReplicaHealth) : Z :=
  foldl (λ n e, if bool_decide (e.2 = h) then n + 1 else n) 0 (in_order bytes_le snapshot).

Definition replicas_gauge (h : ReplicaHealth) (co : Coordinator V S) (fs : families D) : families D :=
  SetGauge (lit "dos_replicas") (lit "replica count by state")
    (d_of_Z (count_health h (ReplicaHealthSnapshot co)))
    [(lit "state", match h with
                   | kHealthy => lit "healthy" | kLagging => lit "lagging" | kFailed => lit "failed"
                   end)] fs.

Definition MetricsText g : option bytes * HttpGateway V S D :=
  let fs := gw_metrics g in
  let fs :=
    match gw_cache g with
    | None => fs
    | Some stats =>
        let '(hits, misses) := stats (co_metadata (gw_coordinator g)) in
        SetGauge (lit "dos_cache_hit_ratio") (lit "metadata cache hit ratio") (hit_rate hits misses) []
          (SetGauge (lit "dos_cache_misses") (lit "metadata cache misses") (d_of_Z misses) []
             (SetGauge (lit "dos_cache_hits") (lit "metadata cache hits") (d_of_Z hits) [] fs))
    end in
  let co := gw_coordinator g in
  let fs := replicas_gauge kFailed co (replicas_gauge kLagging co (replicas_gauge kHealthy co fs)) in
  (Serialize fs, set_metrics fs g).

Definition in_flight_gauge (n : Z) (fs : families D) : families D :=
  SetGauge (lit "dos_http_in_flight") (lit "requests being served") (d_of_Z n) [] fs.

(** The metrics of a request that was answered with [status]. *)
Definition request_metrics (req : HttpRequest) (status : Z) (secs : D) (fs : families D) : families D :=
  let method := [(lit "method", rq_method req)] in
  let fs := IncCounter (lit "dos_http_requests_total") (lit "total HTTP requests") (d_of_Z 1)
              [(lit "method", rq_method req); (lit "code", to_string status)] fs in
  let fs := if 500 <=? status
            then IncCounter (lit "dos_http_errors_total") (lit "5xx responses") (d_of_Z 1) method fs else fs in
  ObserveHistogram (lit "dos_http_request_duration_seconds") (lit "request latency") secs method [] fs.

(** [None] if the metrics page cannot be read. *)
Definition Handle (env : Env D) (req : HttpRequest) g : option HttpResponse * HttpGateway V S D :=
  if bool_decide (rq_path req = lit "/metrics") then
    let '(text, g) := MetricsText g in
    ((λ body, mkHttpResponse 200 (lit "text/plain; version=0.0.4") body ∅) <$> text, g)
  else
  let request_id := NewRequestId (gw_requests g) (env_random env) in
  let fs := in_flight_gauge (gw_in_flight g + 1) (gw_metrics g) in
  let '(resp, co) := Route (env_order env) req (gw_coordinator g) in
  let fs := in_flight_gauge (gw_in_flight g + 1 - 1) fs in
  let fs := request_metrics req (rs_status resp) (env_secs env) fs in
  let resp := mkHttpResponse (rs_status resp) (rs_content_type resp) (rs_body resp)
                (<[lit "X-Request-Id" := request_id]> (rs_headers resp)) in
  let line := Log (env_ms env) kInfo (lit "http_request")
                [(lit "request_id", request_id); (lit "method", rq_method req); (lit "path", rq_path req);
                 (lit "status", to_string (rs_status resp));
                 (lit "duration_ms", d_fixed (d_mul (env_secs env) (d_of_Z 1000)))] in
  (Some resp, mkHttpGateway co (gw_cache g) fs (gw_in_flight g + 1 - 1) (u64 (gw_requests g + 1)) (line :: gw_log g)).
End gateway.

(** ** Every request is answered *)

(** What the gateway uses each of its metrics as. *)
Definition gateway_kind (name : bytes) : MetricType :=
  if bool_decide (name = lit "dos_http_request_duration_seconds") then kHistogram
  else if bool_decide (name = lit "dos_http_requests_total" ∨ name = lit "dos_http_errors_total") then kCounter
  else kGauge.

Section total.
Context {V S D : Type} `{MetadataView V, ObjectStore S, Double D}.
Implicit Types g : HttpGateway V S D.
Implicit Types fs : families D.

Definition metrics_ok fs : Prop := map_Forall (family_ok gateway_kind) fs.

Lemma SetGauge_ok name help v labels fs :
  gateway_kind name = kGauge → metrics_ok fs → metrics_ok (SetGauge name help v labels fs).
Proof. intros Hk. exact (run_op_ok gateway_kind (OpSet name help v labels) fs Hk). Qed.

Lemma IncCounter_ok name help v labels fs :
  gateway_kind name = kCounter → metrics_ok fs → metrics_ok (IncCounter name help v labels fs).
Proof. intros Hk. exact (run_op_ok gateway_kind (OpInc name help v labels) fs Hk). Qed.

Lemma request_metrics_ok req status secs fs : metrics_ok fs → metrics_ok (request_metrics req status secs fs).
Proof.
  intros Hfs. unfold request_metrics.
  apply (run_op_ok gateway_kind (OpObserve (lit "dos_http_request_duration_seconds") _ _ _ [])); [done|].
  case_bool; repeat (apply IncCounter_ok; [done|]); done.
Qed.

Lemma MetricsText_ok g : metrics_ok (gw_metrics g) → metrics_ok (gw_metrics (MetricsText g).2).
Proof.
  intros Hg. unfold MetricsText, replicas_gauge. cbn [snd set_metrics gw_metrics].
  repeat (apply SetGauge_ok; [done|]). destruct (gw_cache g) as [stats|]; [|done].
  destruct (stats (co_metadata (gw_coordinator g))) as [hits misses]. by repeat (apply SetGauge_ok; [done|]).
Qed.

Lemma Serialize_ok fs : metrics_ok fs → is_Some (Serialize fs).
Proof. apply Serialize_total. Qed.

Lemma Handle_total env req g :
  metrics_ok (gw_metrics g) →
  ∃ resp g', Handle env req g = (Some resp, g') ∧ metrics_ok (gw_metrics g') ∧ gw_in_flight g' = gw_in_flight g ∧
    length (gw_log g') = (length (gw_log g) + if decide (rq_path req = lit "/metrics") then 0 else 1)%nat.
Proof.
  intros Hg. unfold Handle. destruct (decide (rq_path req = lit "/metrics")) as [Hp|Hp].
  - rewrite bool_decide_eq_true_2 by done. pose proof (MetricsText_ok g Hg) as Hfs.
    destruct (Serialize_ok _ Hfs) as [text Et]. unfold MetricsText in *. cbn [snd set_metrics gw_metrics] in *.
    rewrite Et. cbn [fmap option_fmap option_map]. eexists _, _. split; [done|].
    cbn [gw_metrics gw_in_flight gw_log set_metrics]. split; [done|]. split; [done|lia].
  - rewrite bool_decide_eq_false_2 by done. destruct (Route _ req _) as [resp co]. eexists _, _. split; [done|].
    cbn [gw_metrics gw_in_flight gw_log length]. split; [|split; lia].
    by apply request_metrics_ok, SetGauge_ok, SetGauge_ok.
Qed.

(** Requests one after the other. *)
Fixpoint handle_all (reqs : list (Env D * HttpRequest)) g : list (option HttpResponse) * HttpGateway V S D :=
  match reqs with
  | [] => ([], g)
  | (env, req) :: reqs =>
      let '(resp, g) := Handle env req g in
      let '(resps, g) := handle_all reqs g in (resp :: resps, g)
  end.

Lemma handle_all_total reqs g resps g' :
  metrics_ok (gw_metrics g) → handle_all reqs g = (resps, g') →
  length resps = length reqs ∧ Forall is_Some resps ∧ gw_in_flight g' = gw_in_flight g ∧
  length (gw_log g') = (length (gw_log g) + length (filter (λ e, rq_path e.2 ≠ lit "/metrics") reqs))%nat.
Proof.
  revert g resps. induction reqs as [|[env req] reqs IH]; intros g resps Hg; cbn [handle_all].
  { intros [= <- <-]. split; [done|]. split; [constructor|]. split; [done|]. cbn. lia. }
  destruct (Handle_total env req g Hg) as (resp & g1 & -> & Hg1 & Hf1 & Hl1).
  destruct (handle_all reqs g1) as [rs g2] eqn:E. intros [= <- <-].
  destruct (IH _ _ Hg1 E) as (Hlen & Hall & Hf & Hl). cbn [length]. split; [lia|]. split; [by constructor|].
  split; [congruence|]. rewrite Hl, Hl1, filter_cons. repeat case_decide; cbn [snd length] in *; try lia; tauto.
Qed.
End total.

(** C25: the gateway answers every request.  Starting from a new gateway and whatever
    requests it has handled, [Handle] returns a response (the metrics page never
    reads outside a histogram's buckets), the number of requests in flight is back
    at zero, and each request but those for the metrics page leaves exactly one
    line in the log. *)
Theorem gateway_answers {V S D} `{MetadataView V, ObjectStore S, Double D} (co : Coordinator V S)
    (reqs : list (Env D * HttpRequest)) :
  let '(resps, g) := handle_all reqs (HttpGateway_new co) in
  length resps = length reqs ∧ Forall is_Some resps ∧ gw_in_flight g = 0 ∧
  length (gw_log g) = length (filter (λ e, rq_path e.2 ≠ lit "/metrics") reqs).
Proof.
  destruct (handle_all reqs (HttpGateway_new co)) as [resps g] eqn:E.
  apply handle_all_total in E; [done|apply map_Forall_empty].
Qed.
