(* ===== verification/EndToEnd.v ===== *)
(** * From the HTTP client to the disks

    What a client of the gateway is promised, through the layers: the HTTP client
    and server, the gateway, the coordinator, the control plane and the storage
    nodes.  The control plane and the stores are any that keep the promises of
    their interfaces; calls between the gateway and the nodes fail or lose their
    replies at will. *)

From stdpp Require Import base gmap numbers list sorting.
From Stdlib Require Import ZArith Lia.
From S2P Require Import Ring ClusterMap MetadataRepository.
From S2P Require Import Prelude Status Posix Wal Sha256 MetadataStore LocalObjectStore StoreRecovery StoreProps.
From S2P Require Import ObjectStore MemObjectStore Rpc StorageNode MetadataView Coordinator CoordinatorProps.
From S2P Require Import Text Http Metrics Logging HttpGateway.

Local Open Scope Z_scope.
Local Opaque Hash64 vnode_pos.

(** ** Header values *)

Lemma CR_not_in_to_string z : CR ∉ to_string z.
Proof.
  destruct (decide (0 ≤ z)) as [Hz|Hz]; [by apply to_string_clean|].
  destruct z as [|p|p]; [lia..|]. unfold to_string.
  change (lit (pretty.pretty (Z.neg p))) with (Byte.x2d :: to_string (Z.pos p)).
  apply not_elem_of_cons. split; [done|]. by apply to_string_clean.
Qed.

Lemma CR_not_in_hex fuel z acc : 0 ≤ z → CR ∉ acc → CR ∉ hex fuel z acc.
Proof.
  assert (∀ d, 0 ≤ d < 16 → CR ≠ hex_digit d) as Hd.
  { intros d Hd E. apply (f_equal Zb) in E. unfold hex_digit in E. destruct (d <? 10) eqn:El; prop_bool;
      rewrite Zb_bZ, Z.mod_small in E by lia; change (Zb CR) with 13 in E; lia. }
  revert z acc. induction fuel as [|fuel IH]; intros z acc Hz Hacc; cbn [hex]; [done|].
  case_bool; prop_bool.
  - apply not_elem_of_cons. split; [apply Hd; lia|done].
  - apply IH; [apply Z.div_pos; lia|]. apply not_elem_of_cons. split; [|done]. apply Hd, Z.mod_pos_bound. lia.
Qed.

Lemma CR_not_in_request_id n r : is_u64 r → CR ∉ NewRequestId n r.
Proof.
  intros [Hr _]. apply CR_not_in_hex; [|apply not_elem_of_nil]. apply Z.lxor_nonneg.
  pose proof (u64_range (n * 0x9e3779b97f4a7c15)) as [? _]. lia.
Qed.

Lemma HttpStatusFor_range c : 100 ≤ HttpStatusFor c ≤ 999.
Proof. by destruct c. Qed.

Lemma HttpStatusFor_error s : st_ok s = false → 400 ≤ HttpStatusFor (st_code s).
Proof. unfold st_ok. intros H. prop_bool. by destruct (st_code s). Qed.

Lemma TextError_ok s : response_ok (TextError s).
Proof. split; [apply HttpStatusFor_range|cbn; absent|apply map_Forall_empty]. Qed.

Lemma response_ok_plain status content_type body :
  100 ≤ status ≤ 999 → CR ∉ content_type → response_ok (mkHttpResponse status content_type body ∅).
Proof. intros ??. split; [done..|apply map_Forall_empty]. Qed.

Section gateway.
Context {V S D : Type} `{MetadataViewLaws V, ObjectStoreLaws S, Double D}.
Implicit Types co : Coordinator V S.
Implicit Types g : HttpGateway V S D.

(** Every answer of the gateway but that to HEAD can be sent as it is. *)
Lemma Route_response_ok order req co :
  rq_method req ≠ lit "HEAD" → response_ok (Route order req co).1.
Proof.
  intros Hm. unfold Route. case_bool; [apply response_ok_plain; [done|absent]|].
  case_bool_decide; [|case_bool_decide; [|rewrite (bool_decide_eq_false_2 (rq_method req = lit "HEAD")) by done; case_bool_decide]].
  - case_bool_decide; [apply TextError_ok|]. destruct (Put order _ _ co) as [[st|m] co']; [apply TextError_ok|].
    split; [done|cbn; absent|]. apply map_Forall_singleton. split; [absent|]. split; [absent|apply CR_not_in_to_string].
  - case_bool_decide.
    + destruct (Coordinator.List _ co) as [[st|m] co']; [apply TextError_ok|]. apply response_ok_plain; [done|absent].
    + destruct (Get _ co) as [[st|m] co']; [apply TextError_ok|]. apply response_ok_plain; [done|absent].
  - case_bool_decide; [apply TextError_ok|]. destruct (Delete _ co) as [st co']. cbn. case_bool; [|apply TextError_ok].
    apply response_ok_plain; [done|absent].
  - apply response_ok_plain; [done|absent].
Qed.

(** The handler the gateway gives to its HTTP server. *)
Definition serve (env : Env D) (req : HttpRequest) g : HttpResponse * HttpGateway V S D :=
  match Handle env req g with
  | (Some resp, g) => (resp, g)
  | (None, g) => (HttpResponse_default, g)
  end.

(** The answer of [Handle] to a request that is not for the metrics page. *)
Definition with_id (id : bytes) (resp : HttpResponse) : HttpResponse :=
  mkHttpResponse (rs_status resp) (rs_content_type resp) (rs_body resp) (<[lit "X-Request-Id" := id]> (rs_headers resp)).

Lemma serve_route env req g :
  rq_path req ≠ lit "/metrics" →
  ∃ id g', serve env req g = (with_id id (Route (env_order env) req (gw_coordinator g)).1, g') ∧
    gw_coordinator g' = (Route (env_order env) req (gw_coordinator g)).2 ∧
    id = NewRequestId (gw_requests g) (env_random env).
Proof.
  intros Hp. unfold serve, Handle. rewrite bool_decide_eq_false_2 by done.
  destruct (Route (env_order env) req (gw_coordinator g)) as [resp co]. eexists _, _. split; [done|]. done.
Qed.

Lemma with_id_ok id resp : CR ∉ id → response_ok resp → response_ok (with_id id resp).
Proof.
  intros Hid [Hs Hc Hh]. split; [done..|]. apply map_Forall_insert_2; [|done].
  split; [absent|]. split; [absent|done].
Qed.

(** ** Requests for an object *)

Definition object_target (key : bytes) : bytes := lit "/objects/" ++ key.

(** A key that can be part of a request target as it is. *)
Definition key_ok (key : bytes) : Prop := no_space key ∧ key ≠ [] ∧ bZ 63 ∉ key.

Lemma ParseTarget_object key : key_ok key → ParseTarget (object_target key) = (object_target key, ∅).
Proof.
  intros (_ & _ & Hq). unfold ParseTarget. change (lit "?") with [bZ 63]. rewrite find_absent; [done|].
  unfold object_target. rewrite not_elem_of_app. split; [absent|done].
Qed.

Lemma route_key_object key : key ≠ [] → route_key (object_target key) = key.
Proof.
  intros Hne. unfold route_key, object_target. rewrite length_app. destruct key as [|c key]; [done|].
  change (length (lit "/objects/")) with 9%nat. change (length kPrefix + 1)%nat with 9%nat.
  replace (9 <? 9 + length (c :: key))%nat with true by (symmetry; apply Nat.ltb_lt; simpl; lia). done.
Qed.

Lemma starts_with_object key : starts_with kPrefix (object_target key) = true.
Proof. apply starts_with_true. by exists (lit "/" ++ key). Qed.

(** How one request travels: what it takes from its surroundings, how the kernel
    cuts the request, and what the [::write] calls of the client and of the server
    do. *)
Record Transport := mkTransport {
  tr_env : Env D;
  tr_cut : bytes → list bytes;
  tr_cw : list write_result;
  tr_sw : list write_result;
}.

Record transport_ok (t : Transport) : Prop := {
  to_cut : ∀ b, concat (tr_cut t b) = b ∧ Forall nonempty (tr_cut t b);
  to_cw : no_write_error (tr_cw t);
  to_sw : no_write_error (tr_sw t);
  to_random : is_u64 (env_random (tr_env t));
}.

(** A request for an object, made with [HttpClient::Request] against the gateway. *)
Definition object_call (t : Transport) (host method key body : bytes) g
    : StatusOr HttpClientResponse * HttpGateway V S D :=
  http_call (serve (tr_env t)) (tr_cut t) (tr_cw t) (tr_sw t) host method (object_target key) body
    (lit "application/octet-stream") g.

(** The client gets the answer of [Route]. *)
Lemma object_call_route t host method key body g :
  transport_ok t → CR ∉ host ∧ LF ∉ host → key_ok key → no_space method → method ≠ [] → method ≠ lit "HEAD" →
  is_u64 (Zlen body) →
  let '(resp, co) :=
    Route (env_order (tr_env t)) (mkHttpRequest method (object_target key) ∅ body) (gw_coordinator g) in
  ∃ headers g', object_call t host method key body g =
    (FromValue (mkHttpClientResponse (rs_status resp) (rs_body resp) headers), g') ∧ gw_coordinator g' = co.
Proof.
  intros [Hcut Hcw Hsw Hrand] Hhost Hk Hm Hmne Hmh Hb. destruct t as [env cut cw sw].
  cbn [tr_env tr_cut tr_cw tr_sw] in *.
  set (req := mkHttpRequest method (object_target key) ∅ body).
  destruct (serve_route env req g) as (id & g' & Es & Eco & Eid); [by unfold req, object_target|].
  destruct (Route (env_order env) req (gw_coordinator g)) as [resp co] eqn:Er. simpl in Es, Eco.
  pose proof (Route_response_ok (env_order env) req (gw_coordinator g) Hmh) as Hok. rewrite Er in Hok. simpl in Hok.
  exists (received_headers (with_id id resp)), g'. split; [|done]. unfold object_call.
  apply (http_call_spec (serve env) cut cw sw host method (object_target key) body _ g (with_id id resp)); try done.
  - destruct Hk as (Hs & Hne & Hq). split; [done| |done|split; absent|done].
    unfold object_target. split; [|done]. apply Forall_app. split; [absent|done].
  - by rewrite ParseTarget_object by done.
  - apply with_id_ok; [|done]. subst id. by apply CR_not_in_request_id.
Qed.

Lemma Route_put order key body co :
  key ≠ [] →
  Route order (mkHttpRequest (lit "PUT") (object_target key) ∅ body) co =
  let '(r, co) := Put order key body co in
  (match r with
   | FromStatus st => TextError st
   | FromValue m =>
       mkHttpResponse 201 (lit "text/plain")
         (lit "stored " ++ key ++ lit " (v" ++ to_string (om_version m) ++ lit ")" ++ [LF])
         {[lit "X-Object-Version" := to_string (om_version m)]}
   end, co).
Proof.
  intros Hne. unfold Route. cbn [rq_path rq_method rq_body]. rewrite starts_with_object, route_key_object by done.
  cbn [negb]. by rewrite (bool_decide_eq_true_2 (lit "PUT" = _)), (bool_decide_eq_false_2 (key = [])) by done.
Qed.

Lemma Route_get order key body co :
  key ≠ [] →
  Route order (mkHttpRequest (lit "GET") (object_target key) ∅ body) co =
  let '(r, co) := Get key co in
  (match r with
   | FromStatus st => TextError st
   | FromValue data => mkHttpResponse 200 (lit "application/octet-stream") data ∅
   end, co).
Proof.
  intros Hne. unfold Route. cbn [rq_path rq_method rq_body]. rewrite starts_with_object, route_key_object by done.
  cbn [negb]. rewrite (bool_decide_eq_false_2 (lit "GET" = lit "PUT")) by done.
  by rewrite (bool_decide_eq_true_2 (lit "GET" = _)), (bool_decide_eq_false_2 (key = [])) by done.
Qed.

Lemma Route_delete order key body co :
  key ≠ [] →
  Route order (mkHttpRequest (lit "DELETE") (object_target key) ∅ body) co =
  let '(st, co) := Delete key co in
  ((if st_ok st then mkHttpResponse 204 (lit "application/octet-stream") [] ∅ else TextError st), co).
Proof.
  intros Hne. unfold Route. cbn [rq_path rq_method rq_body]. rewrite starts_with_object, route_key_object by done.
  cbn [negb]. rewrite (bool_decide_eq_false_2 (lit "DELETE" = lit "PUT")) by done.
  rewrite (bool_decide_eq_false_2 (lit "DELETE" = lit "GET")), (bool_decide_eq_false_2 (lit "DELETE" = lit "HEAD")) by done.
  by rewrite (bool_decide_eq_true_2 (lit "DELETE" = _)), (bool_decide_eq_false_2 (key = [])) by done.
Qed.

Definition gateway_inv g : Prop :=
  mv_inv (co_metadata (gw_coordinator g)) ∧ net_inv (co_net (gw_coordinator g)).

Lemma put_ok_u64 key data : put_ok key data → is_u64 (Zlen data).
Proof. intros [_ Hd]. unfold is_u64. lia. Qed.

(** A status that says the request was done. *)
Definition success (r : HttpClientResponse) : Prop := 200 ≤ cr_status r < 300.

(** A PUT that is answered with success is a [Put] that returned metadata. *)
Lemma put_created t host key data g r g' :
  transport_ok t → CR ∉ host ∧ LF ∉ host → key_ok key → put_ok key data →
  gateway_inv g → versions_fit (mv_registry (co_metadata (gw_coordinator g))) →
  object_call t host (lit "PUT") key data g = (FromValue r, g') → success r →
  ∃ m, Put (env_order (tr_env t)) key data (gw_coordinator g) = (FromValue m, gw_coordinator g').
Proof.
  intros Ht Hh Hk Hp [Hv Hnet] Hfit E [_ Hs].
  pose proof (object_call_route t host (lit "PUT") key data g Ht Hh Hk ltac:(unfold no_space; absent) ltac:(done)
    ltac:(done) (put_ok_u64 _ _ Hp)) as Hr.
  rewrite Route_put in Hr by apply Hk. destruct (Put _ key data _) as [[st|m] co] eqn:Ep.
  - destruct Hr as (hs & g1 & E' & _). rewrite E in E'. injection E' as -> ->. cbn in Hs.
    apply Coordinator_Put_spec in Ep as (_ & _ & _ & version & acked & _ & Hst & _); [|done..].
    pose proof (HttpStatusFor_error _ Hst). lia.
  - destruct Hr as (hs & g1 & E' & <-). rewrite E in E'. injection E' as -> ->. by exists m.
Qed.

(** A GET is answered 200 with the bytes that [Get] returned, or with an error. *)
Lemma get_answered t host key g r g' :
  transport_ok t → CR ∉ host ∧ LF ∉ host → key_ok key → nul_free key → gateway_inv g →
  object_call t host (lit "GET") key [] g = (FromValue r, g') →
  match (Get key (gw_coordinator g)).1 with
  | FromValue d => r = mkHttpClientResponse 200 d (cr_headers r)
  | FromStatus st => 400 ≤ cr_status r
  end.
Proof.
  intros Ht Hh Hk Hn [Hv Hnet] E.
  pose proof (object_call_route t host (lit "GET") key [] g Ht Hh Hk ltac:(unfold no_space; absent) ltac:(done)
    ltac:(done) ltac:(done)) as Hr.
  rewrite Route_get in Hr by apply Hk. destruct (Get key (gw_coordinator g)) as [r' co] eqn:Eg.
  apply Coordinator_Get_spec in Eg as (_ & _ & Hg); [|done..]. destruct r' as [st|d]; cbn [fst];
    destruct Hr as (hs & g1 & E' & _); rewrite E in E'; injection E' as -> ->; [|done].
  by apply HttpStatusFor_error.
Qed.

Lemma delete_done t host key g r g' :
  transport_ok t → CR ∉ host ∧ LF ∉ host → key_ok key →
  object_call t host (lit "DELETE") key [] g = (FromValue r, g') → success r →
  ∃ st, Delete key (gw_coordinator g) = (st, gw_coordinator g') ∧ st_ok st = true.
Proof.
  intros Ht Hh Hk E [_ Hs].
  pose proof (object_call_route t host (lit "DELETE") key [] g Ht Hh Hk ltac:(unfold no_space; absent) ltac:(done)
    ltac:(done) ltac:(done)) as Hr.
  rewrite Route_delete in Hr by apply Hk. destruct (Delete key (gw_coordinator g)) as [st co].
  destruct Hr as (hs & g1 & E' & <-). rewrite E in E'. injection E' as -> ->. exists st. split; [done|].
  destruct (st_ok st) eqn:Est; [done|]. cbn in Hs. pose proof (HttpStatusFor_error _ Est). lia.
Qed.

(** ** Two requests in a row *)

(** At least [write_quorum] nodes hold the data. *)
Definition stored_on_quorum (co co' : Coordinator V S) (key data : bytes) : Prop :=
  ∃ version acked, NoDup acked ∧ (op_write_quorum (co_opts co) <= length acked)%nat ∧
    ∀ node, node ∈ acked → holds (co_clients co) (co_net co') key (new_meta key data version) node.

Lemma put_then_get t1 t2 host host' key data g g1 g2 r1 r2 :
  transport_ok t1 → transport_ok t2 → CR ∉ host ∧ LF ∉ host → CR ∉ host' ∧ LF ∉ host' → key_ok key → nul_free key →
  gateway_inv g → versions_fit (mv_registry (co_metadata (gw_coordinator g))) → put_ok key data →
  object_call t1 host (lit "PUT") key data g = (FromValue r1, g1) → success r1 →
  object_call t2 host' (lit "GET") key [] g1 = (FromValue r2, g2) →
  stored_on_quorum (gw_coordinator g) (gw_coordinator g1) key data ∧
  (success r2 → Sha256Hex (cr_body r2) = Sha256Hex data).
Proof.
  intros Ht1 Ht2 Hh Hh' Hk Hn Hg Hfit Hp E1 Hs1 E2. destruct (put_created _ _ _ _ _ _ _ Ht1 Hh Hk Hp Hg Hfit E1 Hs1) as (m & Ep).
  destruct Hg as [Hv Hnet]. pose proof Ep as Eput.
  apply Coordinator_Put_spec in Eput as (Hv1 & Hn1 & _ & version & acked & _ & _ & (Hnd & Hlen & Hq) & _); [|done..].
  split; [by exists version, acked|]. intros [_ Hs2].
  pose proof (get_answered _ _ _ _ _ _ Ht2 Hh' Hk Hn (conj Hv1 Hn1) E2) as Hget.
  destruct (Get key (gw_coordinator g1)) as [[st|d] co2] eqn:Eg; cbn in Hget; [lia|]. rewrite Hget.
  exact (proj1 (Put_then_Get _ _ _ _ _ _ _ _ Hv Hnet Hfit Hp Ep Eg)).
Qed.

Lemma delete_then_get t1 t2 host host' key g g1 g2 r1 r2 :
  transport_ok t1 → transport_ok t2 → CR ∉ host ∧ LF ∉ host → CR ∉ host' ∧ LF ∉ host' → key_ok key → nul_free key →
  gateway_inv g → object_call t1 host (lit "DELETE") key [] g = (FromValue r1, g1) → success r1 →
  object_call t2 host' (lit "GET") key [] g1 = (FromValue r2, g2) → ¬ success r2.
Proof.
  intros Ht1 Ht2 Hh Hh' Hk Hn [Hv Hnet] E1 Hs1 E2 [_ Hs2]. destruct (delete_done _ _ _ _ _ _ Ht1 Hh Hk E1 Hs1) as (st & Ed & Hst).
  apply Coordinator_Delete_spec in Ed as (Hv1 & Hn1 & _ & Er); [|done..].
  pose proof (get_answered _ _ _ _ _ _ Ht2 Hh' Hk Hn (conj Hv1 Hn1) E2) as Hg.
  destruct (Get_not_live key (gw_coordinator g1)) as (st' & Eg & _); [done..| |rewrite Eg in Hg; lia].
  by rewrite Er, live_unregistered_eq.
Qed.
End gateway.

Arguments Transport : clear implicits.

(** C4: what a client of the gateway is promised, from the bytes of its request to
    the tables of the nodes.  Over HTTP connections whose writes succeed, however
    the kernels cut the streams, and whatever calls between the gateway and the
    nodes are lost: when a PUT of an object is answered with success (a status from
    200 to 299), at least [write_quorum] nodes hold the new version with the
    checksum of the body sent, and a GET of the same gateway that follows and is
    answered with success returns bytes with that checksum; when a DELETE is
    answered with success, a GET that follows is not.  No other request comes in
    between, and the control plane is one that keeps [MetadataViewLaws]: every
    lookup that succeeds is the location last registered.  The in-process
    repository does, with a cache before it or behind an RPC server; a cache before
    a remote control plane and the reads of a Raft follower do not.  (The protocol
    document says that a read right after a write that reached only a quorum can
    observe the older version; the code reads only replicas that acknowledged it.) *)
Theorem end_to_end_consistency {V S D} `{MetadataViewLaws V, ObjectStoreLaws S, Double D}
    (t1 t2 : Transport D) host key (g g1 g2 : HttpGateway V S D) r1 r2 :
  transport_ok t1 → transport_ok t2 → CR ∉ host ∧ LF ∉ host → key_ok key → nul_free key →
  gateway_inv g → versions_fit (mv_registry (co_metadata (gw_coordinator g))) →
  object_call t2 host (lit "GET") key [] g1 = (FromValue r2, g2) → success r1 →
  (∀ data, put_ok key data → object_call t1 host (lit "PUT") key data g = (FromValue r1, g1) →
     stored_on_quorum (gw_coordinator g) (gw_coordinator g1) key data ∧
     (success r2 → Sha256Hex (cr_body r2) = Sha256Hex data)) ∧
  (object_call t1 host (lit "DELETE") key [] g = (FromValue r1, g1) → ¬ success r2).
Proof.
  intros Ht1 Ht2 Hh Hk Hn Hg Hfit E2 Hs1. split.
  - intros data Hp E1. exact (put_then_get t1 t2 _ _ _ _ _ _ _ _ _ Ht1 Ht2 Hh Hh Hk Hn Hg Hfit Hp E1 Hs1 E2).
  - intros E1. exact (delete_then_get t1 t2 _ _ _ _ _ _ _ _ Ht1 Ht2 Hh Hh Hk Hn Hg E1 Hs1 E2).
Qed.

(** ** A gateway over two nodes *)

#[local] Existing Instance fixed_point.

Definition e2e_clients : gmap bytes StorageNodeClient :=
  {[lit "a" := mkStorageNodeClient (lit "host-a"); lit "b" := mkStorageNodeClient (lit "host-b")]}.
Definition e2e_repo : MetadataRepository :=
  AddNode (NodeInfo_at (lit "b") (lit "host-b"))
    (AddNode (NodeInfo_at (lit "a") (lit "host-a")) (MetadataRepository_new 1)).
Definition e2e_net : Net MemObjectStore :=
  mkNet {[lit "host-a" := Up (mkMemObjectStore ∅); lit "host-b" := Up (mkMemObjectStore ∅)]}
    [LoseRequest (lit "deadline exceeded")].
Definition e2e_gateway : HttpGateway MetadataRepository MemObjectStore Z :=
  HttpGateway_new (Coordinator_new e2e_repo e2e_clients (mkOptions 2 1) e2e_net).
Definition e2e_transport : Transport Z := mkTransport (mkEnv 12345 1700000000000 3 [1; 0]%nat) (λ b, match b with [] => [] | _ => [b] end) [Wrote 10] [Eintr].

Definition e2e_put := object_call e2e_transport (lit "127.0.0.1") (lit "PUT") (lit "k") (lit "hello") e2e_gateway.
Definition e2e_get := object_call e2e_transport (lit "127.0.0.1") (lit "GET") (lit "k") [] e2e_put.2.

Definition client_response (r : StatusOr HttpClientResponse) : HttpClientResponse :=
  match r with FromValue resp => resp | FromStatus _ => mkHttpClientResponse 0 [] ∅ end.

Lemma client_response_eq {G} (p : StatusOr HttpClientResponse * G) :
  0 < cr_status (client_response p.1) → p = (FromValue (client_response p.1), p.2).
Proof. by destruct p as [[st|resp] g]. Qed.

Lemma e2e_put_status : cr_status (client_response e2e_put.1) = 201.
Proof. vm_compute. reflexivity. Qed.

Lemma e2e_get_answer :
  cr_status (client_response e2e_get.1) = 200 ∧ cr_body (client_response e2e_get.1) = lit "hello".
Proof. vm_compute. split; reflexivity. Qed.

Lemma e2e_transport_ok : transport_ok e2e_transport.
Proof.
  split.
  - intros [|c b]; cbn; [split; [done|constructor]|]. rewrite app_nil_r. split; [done|]. by repeat constructor.
  - by repeat constructor.
  - by repeat constructor.
  - done.
Qed.

Lemma e2e_inv : gateway_inv e2e_gateway.
Proof.
  split; [apply Repository_AddNode_inv, Repository_AddNode_inv, RepoInv_new|].
  apply map_Forall_insert_2; [|apply map_Forall_singleton]; cbn; apply map_Forall_empty.
Qed.

Lemma end_to_end_consistency_witness :
  stored_on_quorum (gw_coordinator e2e_gateway) (gw_coordinator e2e_put.2) (lit "k") (lit "hello") ∧
  Sha256Hex (cr_body (client_response e2e_get.1)) = Sha256Hex (lit "hello").
Proof.
  pose proof e2e_put_status as Hput. pose proof e2e_get_answer as [Hget _].
  destruct (end_to_end_consistency e2e_transport e2e_transport (lit "127.0.0.1") (lit "k") e2e_gateway e2e_put.2 e2e_get.2
    (client_response e2e_put.1) (client_response e2e_get.1)) as [Hp _].
  - apply e2e_transport_ok.
  - apply e2e_transport_ok.
  - split; absent.
  - split; [unfold no_space; absent|split; [done|absent]].
  - absent.
  - apply e2e_inv.
  - apply map_Forall_empty.
  - apply (client_response_eq e2e_get). rewrite Hget. done.
  - unfold success. rewrite Hput. lia.
  - destruct (Hp (lit "hello")) as [Hq Hg].
    + split; [absent|done].
    + apply (client_response_eq e2e_put). rewrite Hput. done.
    + split; [exact Hq|]. apply Hg. unfold success. rewrite Hget. lia.
Defined.
