(* ===== verification/Tools.v ===== *)
(** * The programs

    The [main] functions under [tools/]: the command line client
    (tools/cli/cli_main.cc), the gateway process (tools/gateway/gateway_main.cc),
    the metadata process (tools/metadata/metadata_main.cc) and the node process
    (tools/node/node_main.cc).  They read their arguments and set up the
    components; what they print as they start, and waiting for a signal, is left
    out.

    The results: a value stored with the command line client is the one it reads
    back, the gateway's write quorums intersect, and metadata processes that are
    started with each other's addresses form a Raft cluster as RaftNet.v wants it. *)

From stdpp Require Import base gmap numbers list sorting.
From Stdlib Require Import ZArith Lia.
From S2P Require Import RaftNode RaftNet RaftProps RaftTransport.
From S2P Require Import Ring ClusterMap MetadataRepository RaftMetadata CachingMetadataView.
From S2P Require Import Prelude Status Posix Wal Sha256 MetadataStore LocalObjectStore StoreRecovery StoreProps.
From S2P Require Import ObjectStore MemObjectStore Rpc StorageNode MetadataView Coordinator CoordinatorProps.
From S2P Require Import Text Http Metrics Logging HttpGateway EndToEnd.

Local Open Scope Z_scope.
Local Opaque Hash64 vnode_pos.

(** ** Arguments

    [args] is [argv] without the name of the program. *)

Fixpoint ArgValue (args : list bytes) (flag def : bytes) : bytes :=
  match args with
  | a :: ((b :: _) as rest) => if bool_decide (flag = a) then b else ArgValue rest flag def
  | _ => def
  end.

Definition HasFlag (args : list bytes) (flag : bytes) : bool := bool_decide (flag ∈ args).

(** [id=value] *)
Definition arg_pair (spec : bytes) : option (bytes * bytes) :=
  match find (lit "=") spec with
  | Some eq => Some (take eq spec, drop (eq + 1) spec)
  | None => None
  end.

Fixpoint ArgPairs (args : list bytes) (flag : bytes) : list (bytes * bytes) :=
  match args with
  | a :: ((b :: _) as rest) =>
      if bool_decide (flag = a)
      then match arg_pair b with Some p => p :: ArgPairs rest flag | None => ArgPairs rest flag end
      else ArgPairs rest flag
  | _ => []
  end.

(** [s.rfind(c)] *)
Definition rfind (c : byte) (s : bytes) : option nat :=
  (λ i, length s - 1 - i)%nat <$> find [c] (reverse s).

Definition SplitHostPort (hp : bytes) (default_port : Z) : bytes * Z :=
  match rfind (bZ 58) hp with
  | None => (hp, default_port)
  | Some c => (take c hp, atoi (drop (c + 1) hp))
  end.

(** ** The command line client *)

(** What a run leaves: standard output, standard error and the exit code. *)
Record Outcome := mkOutcome { oc_out : bytes; oc_err : bytes; oc_exit : Z }.

Definition Usage : Outcome :=
  mkOutcome [] (lit "usage: dos_cli [--gateway HOST:PORT] <put|get|head|delete|list> ..." ++ [LF]) 2.

Section cli.
(** The contents of the files that can be opened. *)
Variable files : bytes → option bytes.

Definition ReadValueArg (arg : bytes) : bytes :=
  match arg with
  | c :: name => if decide (c = bZ 64) then default [] (files name) else arg
  | [] => []
  end.

(** The first [--gateway] that has a value, and the arguments without the two. *)
Fixpoint take_gateway (args : list bytes) : option bytes * list bytes :=
  match args with
  | a :: ((b :: rest') as rest) =>
      if bool_decide (a = lit "--gateway") then (Some b, rest')
      else let '(gateway, rest) := take_gateway rest in (gateway, a :: rest)
  | _ => (None, args)
  end.

(** The method, target and body of the request for a command. *)
Definition cli_request (args : list bytes) : option (bytes * bytes * bytes) :=
  match args with
  | [] => None
  | cmd :: args =>
      if bool_decide (cmd = lit "put") && (length args =? 2)%nat then
        Some (lit "PUT", lit "/objects/" ++ nth 0 args [], ReadValueArg (nth 1 args []))
      else if bool_decide (cmd = lit "get") && (length args =? 1)%nat then
        Some (lit "GET", lit "/objects/" ++ nth 0 args [], [])
      else if bool_decide (cmd = lit "head") && (length args =? 1)%nat then
        Some (lit "HEAD", lit "/objects/" ++ nth 0 args [], [])
      else if bool_decide (cmd = lit "delete") && (length args =? 1)%nat then
        Some (lit "DELETE", lit "/objects/" ++ nth 0 args [], [])
      else if bool_decide (cmd = lit "list") then
        Some (lit "GET", match args with prefix :: _ => lit "/objects?prefix=" ++ prefix | [] => lit "/objects" end, [])
      else None
  end.

(** What is printed of a body. *)
Definition printed (body : bytes) : bytes :=
  match last body with
  | None => []
  | Some c => if decide (c = LF) then body else body ++ [LF]
  end.

Definition cli_report (resp : StatusOr HttpClientResponse) : Outcome :=
  match resp with
  | FromStatus st => mkOutcome [] (lit "error: " ++ ToString st ++ [LF]) 1
  | FromValue r =>
      mkOutcome (printed (cr_body r)) (lit "HTTP " ++ to_string (cr_status r) ++ [LF])
        (if (200 <=? cr_status r) && (cr_status r <? 300) then 0 else 1)
  end.

(** [main], with the client's [Request] to a host and port as [request]. *)
Definition cli_main {G} (request : bytes → Z → bytes → bytes → bytes → G → StatusOr HttpClientResponse * G)
    (args : list bytes) (g : G) : Outcome * G :=
  let '(gateway, args) := take_gateway args in
  let '(host, port) := SplitHostPort (default (lit "127.0.0.1:8080") gateway) 8080 in
  match cli_request args with
  | None => (Usage, g)
  | Some (method, target, body) => let '(resp, g) := request host port method target body g in (cli_report resp, g)
  end.
End cli.

(** ** The gateway process *)

(** The replication factor and the write quorum; [std::atoi] gives an [int]. *)
Definition gateway_options (args : list bytes) : Options :=
  let rf := atoi (ArgValue args (lit "--rf") (lit "3")) in
  let replication_factor := Z.to_nat (if rf <? 1 then 1 else rf) in
  mkOptions replication_factor (replication_factor / 2 + 1).

Definition gateway_clients (nodes : list NodeInfo) : gmap bytes StorageNodeClient :=
  foldl (λ m n, <[ni_id n := mkStorageNodeClient (ni_address n)]> m) ∅ nodes.

Section gateway.
Context {V S D : Type} `{MetadataView V, ObjectStore S, Double D}.

(** The gateway over the metadata view, directly or through the cache; [None] when
    no nodes are found.  [list_nodes] is the view's [ListNodes]. *)
Definition gateway_main (args : list bytes) (list_nodes : V → StatusOr (list NodeInfo) * V) (view : V) (net : Net S)
    : option (HttpGateway V S D + HttpGateway (CachingMetadataView V) S D) :=
  let no_cache := HasFlag args (lit "--no-cache") in
  match list_nodes view with
  | (FromStatus _, _) | (FromValue [], _) => None
  | (FromValue nodes, view) =>
      let clients := gateway_clients nodes in
      let opts := gateway_options args in
      if no_cache then Some (inl (HttpGateway_new (Coordinator_new view clients opts net)))
      else
        let cache := CachingMetadataView_new view 4096 in
        Some (inr (SetCacheView (λ c, (hits c, misses c)) (HttpGateway_new (Coordinator_new cache clients opts net))))
  end.
End gateway.

(** ** The metadata process *)

Definition register_all (nodes : list (bytes * bytes)) (repo : MetadataRepository) : MetadataRepository :=
  foldl (λ r n, MetadataRepository.AddNode (NodeInfo_at n.1 n.2) r) repo nodes.

(** What is served: a replica of the control plane with its transport to the
    others, or the whole of it. *)
Inductive metadata_process :=
  | Replicated (repo : RaftMetadataRepository) (transport : GrpcRaftTransport) (raft_address address : bytes)
  | Single (repo : MetadataRepository) (address : bytes).

Definition raft_config (id : bytes) (peers : list (bytes * bytes)) : RaftConfig :=
  mkRaftConfig id peers.*1 400 800.

(** [None] when the storage directory cannot be opened; [open] gives what
    [RaftStorage::Open] loads from a directory. *)
Definition metadata_main (args : list bytes) (open : bytes → option Disk) (now timeout : Z) : option metadata_process :=
  let address := ArgValue args (lit "--address") (lit "0.0.0.0:9000") in
  let id := ArgValue args (lit "--id") [] in
  let peers := ArgPairs args (lit "--raft-peer") in
  let peer_meta := ArgPairs args (lit "--peer-meta") in
  let nodes := ArgPairs args (lit "--node") in
  if negb (bool_decide (id = [])) && negb (bool_decide (peers = [])) then
    let raft_address := ArgValue args (lit "--raft-address") (lit "0.0.0.0:9100") in
    let raft_dir := ArgValue args (lit "--raft-dir") (lit "raft-" ++ id) in
    match open raft_dir with
    | None => None
    | Some d =>
        let transport := GrpcRaftTransport_new (foldl (λ m p, <[p.1 := p.2]> m) ∅ peers) in
        let repo := foldl (λ r n, AddBootstrapNode (NodeInfo_at n.1 n.2) r) (RaftMetadataRepository_new 150) nodes in
        let repo := foldl (λ r p, SetPeerMetadataAddress p.1 p.2 r) repo peer_meta in
        let repo := AttachRaft (RaftNode_new (raft_config id peers) d now timeout) repo in
        Some (Replicated repo transport raft_address address)
    end
  else Some (Single (register_all nodes (MetadataRepository_new 150)) address).

(** ** The node process *)

(** The store that is served at the address; [inr] is the exit code.  [open] is
    [LocalObjectStore::Open]. *)
Definition node_main {S} (args : list bytes) (open : bytes → StatusOr S) : (S * bytes) + Z :=
  let address := ArgValue args (lit "--address") (lit "0.0.0.0:9001") in
  let data_dir := ArgValue args (lit "--data-dir") [] in
  if bool_decide (data_dir = []) then inr 2
  else match open data_dir with
       | FromStatus _ => inr 1
       | FromValue store => inl (store, address)
       end.

(** ** The command line client against the gateway *)

Lemma cli_put {G} files (request : bytes → Z → bytes → bytes → bytes → G → StatusOr HttpClientResponse * G) key value g :
  key ≠ lit "--gateway" →
  cli_main files request [lit "put"; key; value] g =
  let '(resp, g) := request (lit "127.0.0.1") 8080 (lit "PUT") (object_target key) (ReadValueArg files value) g in
  (cli_report resp, g).
Proof.
  intros Hk. unfold cli_main. cbn [take_gateway]. rewrite (bool_decide_eq_false_2 (lit "put" = _)) by done.
  by rewrite (bool_decide_eq_false_2 (key = lit "--gateway")).
Qed.

Lemma cli_get {G} files (request : bytes → Z → bytes → bytes → bytes → G → StatusOr HttpClientResponse * G) key g :
  cli_main files request [lit "get"; key] g =
  let '(resp, g) := request (lit "127.0.0.1") 8080 (lit "GET") (object_target key) [] g in (cli_report resp, g).
Proof. unfold cli_main. cbn [take_gateway]. by rewrite (bool_decide_eq_false_2 (lit "get" = _)). Qed.

Lemma cli_delete {G} files (request : bytes → Z → bytes → bytes → bytes → G → StatusOr HttpClientResponse * G) key g :
  cli_main files request [lit "delete"; key] g =
  let '(resp, g) := request (lit "127.0.0.1") 8080 (lit "DELETE") (object_target key) [] g in (cli_report resp, g).
Proof. unfold cli_main. cbn [take_gateway]. by rewrite (bool_decide_eq_false_2 (lit "delete" = _)). Qed.

Lemma cli_report_ok resp : oc_exit (cli_report resp) = 0 → ∃ r, resp = FromValue r ∧ success r.
Proof.
  destruct resp as [st|r]; [done|]. cbn [cli_report oc_exit]. intros H. exists r. split; [done|]. unfold success.
  destruct ((200 <=? cr_status r) && (cr_status r <? 300)) eqn:E; [|done]. prop_bool. lia.
Qed.

Section cli_gateway.
Context {V S D : Type} `{MetadataViewLaws V, ObjectStoreLaws S, Double D}.
Implicit Types g : HttpGateway V S D.

(** [HttpClient::Request] to the gateway, with the content type it has by default. *)
Definition gateway_request (t : Transport D) (host : bytes) (port : Z) (method target body : bytes) g
    : StatusOr HttpClientResponse * HttpGateway V S D :=
  http_call (serve (tr_env t)) (tr_cut t) (tr_cw t) (tr_sw t) host method target body (lit "application/octet-stream") g.

Lemma get_call_value t host key g :
  transport_ok t → CR ∉ host ∧ LF ∉ host → key_ok key →
  ∃ r g', object_call t host (lit "GET") key [] g = (FromValue r, g').
Proof.
  intros Ht Hh Hk. pose proof (object_call_route t host (lit "GET") key [] g Ht Hh Hk ltac:(unfold no_space; absent)
    ltac:(done) ltac:(done) ltac:(done)) as Hr.
  destruct (Route _ _ _) as [resp co]. destruct Hr as (hs & g' & E & _). eauto.
Qed.

Lemma localhost_ok : CR ∉ lit "127.0.0.1" ∧ LF ∉ lit "127.0.0.1".
Proof. split; absent. Qed.

(** What the command line client stores it reads back.  When "put" exits with 0
    a write quorum of nodes holds the value (or the contents of the file it names),
    and a "get" that follows prints bytes with its checksum if it exits with 0;
    when "delete" exits with 0 a "get" that follows does not. *)
Theorem cli_roundtrip files t1 t2 key g g1 g2 o1 o2 :
  transport_ok t1 → transport_ok t2 → key_ok key → nul_free key → key ≠ lit "--gateway" →
  gateway_inv g → versions_fit (mv_registry (co_metadata (gw_coordinator g))) →
  cli_main files (gateway_request t2) [lit "get"; key] g1 = (o2, g2) → oc_exit o1 = 0 →
  (∀ value, put_ok key (ReadValueArg files value) →
     cli_main files (gateway_request t1) [lit "put"; key; value] g = (o1, g1) →
     stored_on_quorum (gw_coordinator g) (gw_coordinator g1) key (ReadValueArg files value) ∧
     (oc_exit o2 = 0 → ∃ body, oc_out o2 = printed body ∧ Sha256Hex body = Sha256Hex (ReadValueArg files value))) ∧
  (cli_main files (gateway_request t1) [lit "delete"; key] g = (o1, g1) → oc_exit o2 ≠ 0).
Proof.
  intros Ht1 Ht2 Hk Hn Hkg Hg Hfit E2 Ho1. rewrite cli_get in E2. unfold gateway_request in *.
  destruct (get_call_value t2 (lit "127.0.0.1") key g1 Ht2 localhost_ok Hk) as (r2 & g2' & Er2).
  pose proof Er2 as E2'. unfold object_call in E2'. rewrite E2' in E2. injection E2 as <- <-. split.
  - intros value Hp E1. rewrite cli_put in E1 by done. destruct (http_call _ _ _ _ _ _ _ _ _ g) as [resp1 g1'] eqn:Er1.
    injection E1 as <- ->. apply cli_report_ok in Ho1 as (r1 & -> & Hs1).
    destruct (put_then_get t1 t2 _ _ _ _ _ _ _ _ _ Ht1 Ht2 localhost_ok localhost_ok Hk Hn Hg Hfit Hp Er1 Hs1 Er2) as [Hq Hsame].
    split; [done|]. intros Ho2. exists (cr_body r2). split; [done|]. destruct (cli_report_ok (FromValue r2) Ho2) as (r & [= <-] & Hs2). auto.
  - intros E1 Ho2. rewrite cli_delete in E1. destruct (http_call _ _ _ _ _ _ _ _ _ g) as [resp1 g1'] eqn:Er1.
    injection E1 as <- ->. apply cli_report_ok in Ho1 as (r1 & -> & Hs1). destruct (cli_report_ok (FromValue r2) Ho2) as (r & [= <-] & Hs2).
    exact (delete_then_get t1 t2 _ _ _ _ _ _ _ _ Ht1 Ht2 localhost_ok localhost_ok Hk Hn Hg Er1 Hs1 Er2 Hs2).
Qed.
End cli_gateway.

#[local] Existing Instance fixed_point.

Definition demo_put : Outcome * HttpGateway MetadataRepository MemObjectStore Z :=
  cli_main (λ _, None) (gateway_request e2e_transport) [lit "put"; lit "k"; lit "hello"] e2e_gateway.
Definition demo_get : Outcome * HttpGateway MetadataRepository MemObjectStore Z :=
  cli_main (λ _, None) (gateway_request e2e_transport) [lit "get"; lit "k"] demo_put.2.

Lemma demo_cli : demo_put.1.(oc_exit) = 0 ∧ demo_get.1 = mkOutcome (lit "hello" ++ [LF]) (lit "HTTP 200" ++ [LF]) 0.
Proof. split; vm_compute; reflexivity. Qed.

Lemma cli_roundtrip_witness :
  stored_on_quorum (gw_coordinator e2e_gateway) (gw_coordinator demo_put.2) (lit "k") (lit "hello").
Proof.
  destruct (cli_roundtrip (λ _, None) e2e_transport e2e_transport (lit "k") e2e_gateway demo_put.2 demo_get.2 demo_put.1 demo_get.1)
    as [Hp _].
  - apply e2e_transport_ok.
  - apply e2e_transport_ok.
  - split; [unfold no_space; absent|split; [done|absent]].
  - absent.
  - done.
  - apply e2e_inv.
  - apply map_Forall_empty.
  - apply surjective_pairing.
  - apply demo_cli.
  - refine (proj1 (Hp (lit "hello") _ _)); [split; [absent|done]|]. apply surjective_pairing.
Defined.

(** ** Quorums of the gateway *)

(** Two write quorums of a replica set that the gateway's options allow have a node
    in common. *)
Lemma gateway_quorums_intersect args (replicas acked acked' : list bytes) :
  let opts := gateway_options args in
  (length replicas <= op_replication_factor opts)%nat →
  NoDup acked → NoDup acked' → acked ⊆ replicas → acked' ⊆ replicas →
  (op_write_quorum opts <= length acked)%nat → (op_write_quorum opts <= length acked')%nat →
  ∃ node, node ∈ acked ∧ node ∈ acked'.
Proof.
  cbn zeta. unfold gateway_options. cbn [op_replication_factor op_write_quorum].
  generalize (Z.to_nat (if atoi (ArgValue args (lit "--rf") (lit "3")) <? 1 then 1 else atoi (ArgValue args (lit "--rf") (lit "3")))).
  intros rf Hr Hnd Hnd' Hs Hs' Hl Hl'. destruct (decide (Exists (.∈ acked') acked)) as [Hex|Hno]; [by apply Exists_exists in Hex|].
  assert (length (acked ++ acked') <= length replicas)%nat as Hlen.
  { apply submseteq_length, NoDup_submseteq.
    - apply NoDup_app. split; [done|]. split; [|done]. intros x Hx Hx'. apply Hno, Exists_exists. by exists x.
    - intros x [?|?]%elem_of_app; auto. }
  rewrite length_app in Hlen. pose proof (Nat.div_mod_eq rf 2). pose proof (Nat.mod_upper_bound rf 2). lia.
Qed.

(** ** A cluster of metadata processes *)

Definition raft_peer : bytes := lit "--raft-peer".
Definition peer_spec (p : bytes * bytes) : bytes := p.1 ++ lit "=" ++ p.2.

(** The arguments of the process [v] of a cluster, given as the ids of its members
    and their Raft addresses. *)
Definition metadata_args (plan : list (bytes * bytes)) (v : bytes) : list bytes :=
  lit "--id" :: v :: concat ((λ p, [raft_peer; peer_spec p]) <$> filter (λ p, p.1 ≠ v) plan).

(** An id that is neither taken for a flag nor cut at an equals sign. *)
Definition id_ok (id : bytes) : Prop := id ≠ [] ∧ bZ 61 ∉ id ∧ starts_with (lit "--") id = false.

Record plan_ok (plan : list (bytes * bytes)) : Prop := {
  pk_nodup : NoDup plan.*1;
  pk_ids : ∀ p, p ∈ plan → id_ok p.1;
  pk_two : (2 <= length plan)%nat;
}.

Lemma arg_pair_spec p : id_ok p.1 → arg_pair (peer_spec p) = Some p.
Proof.
  intros (_ & Heq & _). unfold arg_pair, peer_spec. change (lit "=") with [bZ 61].
  rewrite find_skip, find_here by done. cbn [fmap option_fmap option_map]. rewrite Nat.add_0_r.
  rewrite take_app_length, drop_app_ge by lia. replace (length p.1 + 1 - length p.1)%nat with 1%nat by lia. by destruct p.
Qed.

Lemma peer_spec_flag p flag : bZ 61 ∉ flag → peer_spec p ≠ flag.
Proof. intros Hf <-. apply Hf. unfold peer_spec. apply elem_of_app. right. by left. Qed.

Lemma ArgPairs_peers x peers :
  raft_peer ≠ x → (∀ p, p ∈ peers → id_ok p.1) →
  ArgPairs (x :: concat ((λ p, [raft_peer; peer_spec p]) <$> peers)) raft_peer = peers.
Proof.
  revert x. induction peers as [|p peers IH]; intros x Hx Hp; [done|]. cbn [fmap list_fmap concat app].
  cbn [ArgPairs]. rewrite (bool_decide_eq_false_2 (raft_peer = x)) by done. rewrite (bool_decide_eq_true_2 (raft_peer = raft_peer)) by done.
  rewrite arg_pair_spec by (apply Hp; by left). f_equal. apply IH.
  - symmetry. apply peer_spec_flag. absent.
  - intros q Hq. apply Hp. by right.
Qed.

Lemma ArgValue_absent args flag def : flag ∉ args → ArgValue args flag def = def.
Proof.
  induction args as [|a [|b args] IH]; intros Hf; [done..|]. apply not_elem_of_cons in Hf as [Ha Hf].
  cbn [ArgValue] in *. rewrite bool_decide_eq_false_2 by done. by apply IH.
Qed.

Lemma flag_not_id flag id : starts_with (lit "--") flag = true → id_ok id → flag ≠ id.
Proof. intros Hf (_ & _ & Hid) ->. congruence. Qed.

Lemma raft_dir_absent plan v : id_ok v → lit "--raft-dir" ∉ metadata_args plan v.
Proof.
  intros Hv. unfold metadata_args. rewrite !not_elem_of_cons. split_and!; [done|by apply flag_not_id|].
  induction (filter _ plan) as [|p peers IH]; cbn [fmap list_fmap concat app]; [apply not_elem_of_nil|].
  rewrite !not_elem_of_cons. split_and!; [done|symmetry; apply peer_spec_flag; absent|done].
Qed.

Lemma foldl_addresses (l : list (bytes * bytes)) (m : gmap bytes bytes) p :
  NoDup l.*1 → p ∈ l → foldl (λ m p, <[p.1 := p.2]> m) m l !! p.1 = Some p.2.
Proof.
  revert m. induction l as [|q l IH]; intros m Hnd Hp; [by apply not_elem_of_nil in Hp|].
  cbn in Hnd. apply NoDup_cons in Hnd as [Hq Hnd]. cbn [foldl]. apply elem_of_cons in Hp as [->|Hp]; [|by apply IH].
  clear IH Hnd. set (m' := <[q.1:=q.2]> m). assert (m' !! q.1 = Some q.2) as Hm by (subst m'; by rewrite lookup_insert_eq).
  clearbody m'. revert m' Hm. induction l as [|q' l IH]; intros m' Hm; [done|]. cbn [foldl]. cbn in Hq.
  apply not_elem_of_cons in Hq as [Hne Hq]. apply IH; [done|]. by rewrite lookup_insert_ne.
Qed.

Lemma plan_cluster_cfg plan :
  plan_ok plan → cluster_cfg plan.*1 (λ v, raft_config v (filter (λ p, p.1 ≠ v) plan)).
Proof.
  intros [Hnd Hids _]. split; cbn [cfg_id cfg_peers raft_config].
  - done.
  - intros (p & E & Hp)%list_elem_of_fmap. by destruct (Hids p Hp) as [? _].
  - done.
  - intros v Hv. clear Hids. induction plan as [|p plan IH]; [by apply not_elem_of_nil in Hv|].
    cbn in Hnd, Hv. apply NoDup_cons in Hnd as [Hp Hnd]. cbn [fmap list_fmap]. rewrite filter_cons. case_decide as Hne.
    + cbn [fmap list_fmap]. rewrite Permutation_swap. apply perm_skip, IH; [done|].
      apply elem_of_cons in Hv as [->|Hv]; [done|done].
    + subst v. apply perm_skip. rewrite filter_all; [done|].
      intros q Hq Eq. apply Hp. rewrite <-Eq. by apply list_elem_of_fmap_2.
Qed.

(** Metadata processes form a Raft cluster.  When the processes of a cluster are
    each started with their id and the ids and addresses of the others, their
    configurations are those of one cluster (distinct members that know each other,
    as the safety results ask), each serves a replica whose Raft node starts from
    the disk in its own directory, and its transport has the address of every peer. *)
Theorem metadata_processes_form_cluster plan open now timeout :
  plan_ok plan →
  let cfg v := raft_config v (filter (λ p, p.1 ≠ v) plan) in
  cluster_cfg plan.*1 cfg ∧
  ∀ v d, v ∈ plan.*1 → open (lit "raft-" ++ v) = Some d →
    ∃ repo transport raft_address address,
      metadata_main (metadata_args plan v) open now timeout = Some (Replicated repo transport raft_address address) ∧
      rm_raft repo = Some (RaftNode_new (cfg v) d now timeout) ∧ gt_ok transport ∧
      ∀ p, p ∈ plan → p.1 ≠ v → gt_addresses transport !! p.1 = Some p.2.
Proof.
  intros Hplan. cbn zeta. split; [by apply plan_cluster_cfg|]. destruct Hplan as [Hnd Hids Htwo]. intros v d Hv Ho.
  assert (id_ok v) as Hid by (apply list_elem_of_fmap in Hv as (p & -> & Hp); by apply Hids).
  set (peers := filter (λ p, p.1 ≠ v) plan).
  assert (∀ p, p ∈ peers → id_ok p.1) as Hpids by (intros p [_ ?]%list_elem_of_filter; by apply Hids).
  assert (peers ≠ []) as Hne.
  { destruct plan as [|p [|q plan]]; cbn in Htwo; [lia..|]. cbn in Hnd. apply NoDup_cons in Hnd as [Hpq _].
    apply not_elem_of_cons in Hpq as [Hpq _]. subst peers. rewrite !filter_cons. repeat case_decide; try done.
    exfalso. apply Hpq. congruence. }
  unfold metadata_main. assert (ArgValue (metadata_args plan v) (lit "--id") [] = v) as -> by done.
  assert (ArgPairs (metadata_args plan v) (lit "--raft-peer") = peers) as ->.
  { unfold metadata_args. change (lit "--raft-peer") with raft_peer. cbn [ArgPairs].
    rewrite bool_decide_eq_false_2 by done. apply ArgPairs_peers; [by apply flag_not_id|done]. }
  rewrite (bool_decide_eq_false_2 (v = [])), (bool_decide_eq_false_2 (peers = [])) by (done || apply Hid). cbn [negb andb].
  rewrite ArgValue_absent, Ho by (by apply raft_dir_absent). eexists _, _, _, _. split; [done|]. split; [done|].
  split; [apply GrpcRaftTransport_new_ok|]. intros p Hp Hpv. cbn [gt_addresses GrpcRaftTransport_new].
  apply foldl_addresses; [|by apply list_elem_of_filter].
  eapply sublist_NoDup; [exact Hnd|]. apply fmap_sublist, sublist_filter.
Qed.

Definition demo_plan : list (bytes * bytes) :=
  [(lit "A", lit "hostA:9100"); (lit "B", lit "hostB:9101"); (lit "C", lit "hostC:9102")].

Lemma metadata_processes_form_cluster_witness :
  cluster_cfg [lit "A"; lit "B"; lit "C"] (λ v, raft_config v (filter (λ p, p.1 ≠ v) demo_plan)).
Proof.
  refine (proj1 (metadata_processes_form_cluster demo_plan (λ _, None) 0 400 _)). split.
  - apply (bool_decide_unpack _). vm_compute. reflexivity.
  - apply Forall_forall. repeat constructor; (done || absent).
  - cbn. lia.
Defined.
