(* ===== verification/Doubles.v ===== *)
(** * Doubles

    The arithmetic of [double] that the benchmark programs use, as IEEE 754 binary64
    in the Standard Library's executable specification of floating-point numbers:
    conversion from and to integers, the four operations with rounding to nearest
    even, comparison.  The lemmas say that integers up to 2^53 and their
    predecessors are represented exactly, and that scaling an integer by a fraction
    below one and cutting the result to an integer does not exceed it. *)

From stdpp Require Import base numbers list.
From Stdlib Require Import ZArith Lia.
From Stdlib Require Import SpecFloat.
From S2P Require Import Prelude.

Local Open Scope Z_scope.

Notation double := spec_float.

Definition d_prec : Z := 53.
Definition d_emax : Z := 1024.

Definition d_of_int (z : Z) : double := binary_normalize d_prec d_emax z 0 false.
Definition d_plus (x y : double) : double := SFadd d_prec d_emax x y.
Definition d_minus (x y : double) : double := SFsub d_prec d_emax x y.
Definition d_times (x y : double) : double := SFmul d_prec d_emax x y.
Definition d_over (x y : double) : double := SFdiv d_prec d_emax x y.
Definition d_less (x y : double) : bool := SFltb x y.
Definition d_0 : double := S754_zero false.

(** The double nearest to [num / den], for [num >= 0] and [den > 0]. *)
Definition d_of_ratio (num den : Z) : double :=
  match num with
  | Zpos _ =>
      let '(q, e, l) := SFdiv_core_binary d_prec d_emax num 0 den 0 in binary_round_aux d_prec d_emax false q e l
  | _ => d_0
  end.

(** [static_cast<std::size_t>]: cut to an integer; [None] where that is undefined. *)
Definition d_to_size_t (x : double) : option Z :=
  match x with
  | S754_zero _ => Some 0
  | S754_finite false m e => let z := Z.shiftr (Zpos m) (- e) in if z <? 2 ^ 64 then Some z else None
  | S754_finite true m e => if Z.shiftr (Zpos m) (- e) =? 0 then Some 0 else None
  | S754_infinity _ | S754_nan => None
  end.

(** ** Shifts and digits *)

Lemma digits2_log2 m : Zpos (digits2_pos m) = Z.log2 (Zpos m) + 1.
Proof.
  induction m as [m IH|m IH|]; cbn [digits2_pos]; [| |done].
  - rewrite Pos2Z.inj_succ, IH. change (Zpos m~1) with (2 * Zpos m + 1). rewrite Z.log2_succ_double; lia.
  - rewrite Pos2Z.inj_succ, IH. change (Zpos m~0) with (2 * Zpos m). rewrite Z.log2_double; lia.
Qed.

(** A number has [d] binary digits. *)
Definition has_digits (d m : Z) : Prop := 0 < d ∧ 2 ^ (d - 1) <= m < 2 ^ d.

Lemma Zdigits2_has d m : has_digits d m → Zdigits2 m = d.
Proof.
  intros (Hd & Hl & Hu). assert (0 < 2 ^ (d - 1)) by (apply Z.pow_pos_nonneg; lia). destruct m as [|m|m]; try lia.
  cbn [Zdigits2]. rewrite digits2_log2. rewrite (Z.log2_unique (Zpos m) (d - 1)); [lia..|].
  split; [done|]. by replace (Z.succ (d - 1)) with d by lia.
Qed.

Lemma has_digits_log2 m : 0 < m → has_digits (Z.log2 m + 1) m.
Proof.
  intros Hm. pose proof (Z.log2_spec m Hm). pose proof (Z.log2_nonneg m). split; [lia|].
  replace (Z.log2 m + 1 - 1) with (Z.log2 m) by lia. done.
Qed.

Lemma has_digits_shift d m p : 0 <= p → has_digits d m → has_digits (d + p) (m * 2 ^ p).
Proof.
  intros Hp (Hd & Hl & Hu). split; [lia|]. replace (d + p - 1) with (d - 1 + p) by lia.
  rewrite !Z.pow_add_r by lia. nia.
Qed.

Lemma iter_xO m d : Zpos (Pos.iter xO m d) = Zpos m * 2 ^ Zpos d.
Proof.
  induction d as [|d IH] using Pos.peano_ind; [cbn; lia|].
  rewrite Pos.iter_succ, Pos2Z.inj_succ, Z.pow_succ_r by lia.
  change (Zpos (xO (Pos.iter xO m d))) with (2 * Zpos (Pos.iter xO m d)). lia.
Qed.

(** Shifting right by one, and by [p]: the mantissa is divided, whatever the bits
    shifted out; it stays exact when they are zeros. *)
Lemma shr_1_m mrs : 0 <= shr_m mrs → shr_m (shr_1 mrs) = shr_m mrs / 2.
Proof.
  destruct mrs as [m r s]. cbn [shr_m]. intros Hm. destruct m as [|[p|p|]|p]; try done.
  - cbn. rewrite (Pos2Z.inj_xI p). apply (Z.div_unique _ _ _ 1); lia.
  - cbn. rewrite (Pos2Z.inj_xO p). apply (Z.div_unique _ _ _ 0); lia.
Qed.

Lemma iter_shr_m p : ∀ mrs, 0 <= shr_m mrs → shr_m (iter_pos shr_1 p mrs) = shr_m mrs / 2 ^ Zpos p.
Proof.
  assert (∀ a k l, 0 <= k → 0 <= l → a / 2 ^ k / 2 ^ l = a / 2 ^ (k + l)) as Hdd.
  { intros a k l Hk Hl. assert (0 < 2 ^ k) by (apply Z.pow_pos_nonneg; lia).
    assert (0 < 2 ^ l) by (apply Z.pow_pos_nonneg; lia). rewrite Z.div_div by lia. rewrite Z.pow_add_r by lia. done. }
  induction p as [p IH|p IH|]; intros mrs Hm; cbn [iter_pos]; [| |by rewrite shr_1_m].
  - assert (0 <= shr_m (shr_1 mrs)) by (rewrite shr_1_m by done; apply Z.div_pos; lia).
    rewrite IH; [|rewrite IH by done; apply Z.div_pos; [done|apply Z.pow_pos_nonneg; lia]].
    rewrite IH, shr_1_m by done. change (shr_m mrs / 2) with (shr_m mrs / 2 ^ 1). rewrite !Hdd by lia.
    f_equal. f_equal. lia.
  - rewrite IH; [|rewrite IH by done; apply Z.div_pos; [done|apply Z.pow_pos_nonneg; lia]].
    rewrite IH, Hdd by lia. f_equal. f_equal. lia.
Qed.

Lemma iter_shr_exact p : ∀ m, 0 <= m →
  iter_pos shr_1 p (Build_shr_record (m * 2 ^ Zpos p) false false) = Build_shr_record m false false.
Proof.
  assert (∀ m, 0 <= m → shr_1 (Build_shr_record (2 * m) false false) = Build_shr_record m false false) as H1.
  { intros [|m|m] Hm; done. }
  induction p as [p IH|p IH|]; intros m Hm; cbn [iter_pos].
  - replace (m * 2 ^ Zpos p~1) with (2 * (m * 2 ^ Zpos p * 2 ^ Zpos p)).
    + rewrite H1 by nia. rewrite IH by nia. by apply IH.
    + rewrite (Pos2Z.inj_xI p), <-!Z.mul_assoc, <-Z.pow_add_r by lia.
      replace (2 * Zpos p + 1) with (Z.succ (Zpos p + Zpos p)) by lia. rewrite Z.pow_succ_r by lia. lia.
  - replace (m * 2 ^ Zpos p~0) with (m * 2 ^ Zpos p * 2 ^ Zpos p).
    + rewrite IH by nia. by apply IH.
    + rewrite (Pos2Z.inj_xO p), <-!Z.mul_assoc, <-Z.pow_add_r by lia. f_equal. f_equal. lia.
  - rewrite Z.mul_comm. by apply H1.
Qed.

(** ** Exact results *)

(** The number [m * 2^e] with a full mantissa. *)
Definition d_number (m e : Z) : double :=
  match m with Zpos p => S754_finite false p e | _ => S754_nan end.

(** The exponents the lemmas are about: far from under- and overflow. *)
Definition exponent_ok (e : Z) : Prop := -500 <= e <= 500.

Lemma shift_amount d e : exponent_ok (e + d - d_prec) → fexp d_prec d_emax (d + e) - e = d - d_prec.
Proof. unfold exponent_ok, fexp, emin, d_prec, d_emax. lia. Qed.

Lemma round_aux_exact m p e :
  0 <= p → has_digits d_prec m → exponent_ok (e + p) →
  binary_round_aux d_prec d_emax false (m * 2 ^ p) e loc_Exact = d_number m (e + p).
Proof.
  intros Hp Hm He. assert (0 < m) as Hpos.
  { destruct Hm as (_ & Hl & _). assert (0 < 2 ^ (d_prec - 1)) by done. lia. }
  assert (∀ e', exponent_ok e' → shr_fexp d_prec d_emax m e' loc_Exact = (Build_shr_record m false false, e')) as H0.
  { intros e' He'. unfold shr_fexp. rewrite (Zdigits2_has d_prec) by done.
    rewrite shift_amount by (unfold exponent_ok, d_prec in *; lia). by rewrite Z.sub_diag. }
  assert (shr_fexp d_prec d_emax (m * 2 ^ p) e loc_Exact = (Build_shr_record m false false, e + p)) as H1.
  { unfold shr_fexp. rewrite (Zdigits2_has (d_prec + p)) by by apply has_digits_shift.
    rewrite shift_amount by (unfold exponent_ok, d_prec in *; lia).
    replace (d_prec + p - d_prec) with p by lia. destruct p as [|p|p]; [|by cbn [shr shr_record_of_loc]; rewrite iter_shr_exact by lia|lia].
    by rewrite Z.mul_1_r, Z.add_0_r. }
  unfold binary_round_aux. rewrite H1. cbn [shr_m loc_of_shr_record round_nearest_even]. rewrite H0 by done.
  cbn [shr_m]. destruct m as [|m|m]; [lia| |lia]. cbn [d_number].
  destruct (Z.leb_spec (e + p) (d_emax - d_prec)); [done|]. unfold exponent_ok, d_emax, d_prec in *. lia.
Qed.

(** Rounding a number that has no more than 53 significant digits: [m] is its full
    mantissa. *)
Lemma round_exact q e m e' :
  has_digits d_prec m → exponent_ok e → exponent_ok e' →
  Zpos q * 2 ^ (e - Z.min e e') = m * 2 ^ (e' - Z.min e e') →
  binary_round d_prec d_emax false q e = d_number m e'.
Proof.
  intros Hm He He' Hv. unfold binary_round. rewrite digits2_log2.
  destruct (Z.le_gt_cases e e') as [Hle|Hgt].
  - rewrite Z.min_l in Hv by done. rewrite Z.sub_diag, Z.mul_1_r in Hv.
    assert (has_digits (d_prec + (e' - e)) (Zpos q)) as Hd by (rewrite Hv; apply has_digits_shift; [lia|done]).
    apply Zdigits2_has in Hd. cbn [Zdigits2] in Hd. rewrite digits2_log2 in Hd. rewrite Hd.
    unfold shl_align. rewrite shift_amount by (unfold exponent_ok, d_prec in *; lia).
    replace (d_prec + (e' - e) - d_prec) with (e' - e) by lia.
    destruct (e' - e) as [|k|k] eqn:Ek; [| |lia]; rewrite Hv; (rewrite round_aux_exact; [f_equal; lia|lia|done|]);
      unfold exponent_ok in *; lia.
  - rewrite Z.min_r in Hv by lia. rewrite Z.sub_diag, Z.mul_1_r in Hv.
    assert (has_digits (d_prec - (e - e')) (Zpos q)) as Hd.
    { destruct Hm as (_ & Hl & Hu). rewrite <-Hv in Hl, Hu.
      assert (e - e' < d_prec) as Hlt.
      { destruct (Z.lt_ge_cases (e - e') d_prec) as [|Hge]; [done|].
        assert (2 ^ d_prec <= 2 ^ (e - e')) by (apply Z.pow_le_mono_r; lia). nia. }
      assert (0 < 2 ^ (e - e')) by (apply Z.pow_pos_nonneg; lia).
      split; [lia|]. split.
      - apply (Zmult_lt_0_le_reg_r _ _ (2 ^ (e - e'))); [done|]. rewrite <-Z.pow_add_r by lia.
        by replace (d_prec - (e - e') - 1 + (e - e')) with (d_prec - 1) by lia.
      - apply (Zmult_gt_0_lt_reg_r _ _ (2 ^ (e - e'))); [lia|]. rewrite <-Z.pow_add_r by lia.
        by replace (d_prec - (e - e') + (e - e')) with d_prec by lia. }
    apply Zdigits2_has in Hd. cbn [Zdigits2] in Hd. rewrite digits2_log2 in Hd. rewrite Hd.
    unfold shl_align. rewrite shift_amount by (unfold exponent_ok, d_prec in *; lia).
    replace (d_prec - (e - e') - d_prec) with (- (e - e')) by lia.
    destruct (e - e') as [|k|k] eqn:Ek; [lia| |lia]. change (- Zpos k) with (Zneg k). cbv beta iota.
    rewrite iter_xO, Hv. replace (fexp d_prec d_emax (d_prec - Zpos k + e)) with e'.
    + rewrite <-(Z.mul_1_r m). change 1 with (2 ^ 0). rewrite round_aux_exact; [f_equal; lia|lia|done|].
      unfold exponent_ok in *. lia.
    + pose proof (shift_amount (d_prec - Zpos k) e) as Hs. unfold exponent_ok, d_prec in *. lia.
Qed.

(** The mantissa and exponent of an integer. *)
Definition mantissa (n : Z) : Z := if Z.log2 n <=? 52 then n * 2 ^ (52 - Z.log2 n) else n / 2 ^ (Z.log2 n - 52).

Lemma mantissa_spec n :
  0 < n <= 2 ^ 53 →
  has_digits d_prec (mantissa n) ∧ -52 <= Z.log2 n - 52 <= 1 ∧ mantissa n * 2 ^ Z.log2 n = n * 2 ^ 52.
Proof.
  intros Hn. pose proof (Z.log2_nonneg n). pose proof (Z.log2_le_mono n (2 ^ 53) ltac:(lia)) as Hl.
  change (Z.log2 (2 ^ 53)) with 53 in Hl. pose proof (has_digits_log2 n ltac:(lia)) as Hd. unfold mantissa.
  destruct (Z.leb_spec (Z.log2 n) 52).
  - split_and!; [|lia..|].
    + replace d_prec with (Z.log2 n + 1 + (52 - Z.log2 n)) by (unfold d_prec; lia).
      apply has_digits_shift; [lia|done].
    + rewrite <-Z.mul_assoc, <-Z.pow_add_r by lia. by replace (52 - Z.log2 n + Z.log2 n) with 52 by lia.
  - assert (n = 2 ^ 53) as ->; [|done]. destruct Hd as (_ & Hlo & _). replace (Z.log2 n + 1 - 1) with 53 in Hlo by lia. lia.
Qed.

Lemma d_of_int_exact n : 0 < n <= 2 ^ 53 → d_of_int n = d_number (mantissa n) (Z.log2 n - 52).
Proof.
  intros Hn. destruct (mantissa_spec n Hn) as (Hm & He & Hv). unfold d_of_int. destruct n as [|n|n]; [lia| |lia].
  cbn [binary_normalize]. apply round_exact; [done|unfold exponent_ok; lia..|].
  pose proof (Z.log2_nonneg (Zpos n)). destruct (Z.le_gt_cases 0 (Z.log2 (Zpos n) - 52)).
  - rewrite Z.min_l by lia. rewrite Z.sub_diag, Z.mul_1_r, Z.sub_0_r.
    apply (Z.mul_reg_r _ _ (2 ^ 52)); [done|]. rewrite <-Hv, <-Z.mul_assoc, <-Z.pow_add_r by lia.
    f_equal. f_equal. lia.
  - rewrite Z.min_r by lia. rewrite Z.sub_diag, Z.mul_1_r.
    apply (Z.mul_reg_r _ _ (2 ^ Z.log2 (Zpos n))); [assert (0 < 2 ^ Z.log2 (Zpos n)) by (apply Z.pow_pos_nonneg; lia); lia|].
    rewrite Hv, <-Z.mul_assoc, <-Z.pow_add_r by lia. f_equal. f_equal. lia.
Qed.

Lemma d_number_pos m e : has_digits d_prec m → ∃ p, m = Zpos p ∧ d_number m e = S754_finite false p e.
Proof.
  intros (_ & Hl & _). assert (0 < 2 ^ (d_prec - 1)) by done. destruct m as [|p|p]; [lia| |lia]. by exists p.
Qed.

(** Subtracting one from an integer is exact. *)
Lemma d_minus_one n : 1 < n <= 2 ^ 53 → d_minus (d_of_int n) (d_of_int 1) = d_of_int (n - 1).
Proof.
  intros Hn. rewrite (d_of_int_exact n), (d_of_int_exact (n - 1)) by lia.
  change (d_of_int 1) with (S754_finite false 4503599627370496 (-52)).
  destruct (mantissa_spec n ltac:(lia)) as (Hm & He & Hv). destruct (mantissa_spec (n - 1) ltac:(lia)) as (Hm' & He' & Hv').
  destruct (d_number_pos _ (Z.log2 n - 52) Hm) as (p & Ep & ->). pose proof (Z.log2_nonneg (n - 1)).
  unfold d_minus, SFsub. rewrite Z.min_r by lia. cbn [cond_Zopp].
  assert (Zpos (shl_align p (Z.log2 n - 52) (-52)).1 = n * 2 ^ 52) as ->.
  { rewrite <-Hv, Ep. unfold shl_align. pose proof (Z.log2_nonneg n).
    destruct (-52 - (Z.log2 n - 52)) as [|k|k] eqn:Ek; cbn [fst]; [|lia|].
    - replace (Z.log2 n) with 0 by lia. cbn. lia.
    - rewrite iter_xO. f_equal. f_equal. lia. }
  change (Zpos (shl_align 4503599627370496 (-52) (-52)).1) with (1 * 2 ^ 52). rewrite <-Z.mul_sub_distr_r.
  destruct ((n - 1) * 2 ^ 52) as [|q|q] eqn:Eq; [lia| |lia]. cbn [binary_normalize].
  apply round_exact; [done|unfold exponent_ok; lia..|]. rewrite Z.min_l by lia.
  rewrite Z.sub_diag, Z.mul_1_r, <-Hv'. f_equal. f_equal. lia.
Qed.

(** ** Scaling by a fraction *)

Lemma round_bounds m l : 0 <= m → m <= round_nearest_even m l <= m + 1.
Proof. destruct l as [|[]]; cbn; intros; repeat case_match; lia. Qed.

Lemma shr_fexp_m m e d :
  has_digits d m → d_prec <= d → exponent_ok (e + d - d_prec) →
  (shr_fexp d_prec d_emax m e loc_Exact).2 = e + (d - d_prec) ∧
  shr_m (shr_fexp d_prec d_emax m e loc_Exact).1 = m / 2 ^ (d - d_prec).
Proof.
  intros Hd Hle He. assert (0 <= m) by (destruct Hd as (? & Hl & _); assert (0 < 2 ^ (d - 1)) by (apply Z.pow_pos_nonneg; lia); lia).
  unfold shr_fexp. rewrite (Zdigits2_has d) by done. rewrite shift_amount by done.
  destruct (d - d_prec) as [|k|k] eqn:Ek; [|cbn [shr fst snd shr_record_of_loc]; by rewrite iter_shr_m|lia].
  cbn. by rewrite Z.add_0_r, Z.div_1_r.
Qed.

(** The number with mantissa [m] and exponent [e], in units of [2^-400]. *)
Definition units (m e : Z) : Z := m * 2 ^ (e + 400).

(** Rounding to nearest a number of at least 53 digits: at most half a unit of its
    last place too much. *)
Lemma round_aux_bound m e d :
  has_digits d m → d_prec <= d → -300 <= e → e + d <= 300 →
  ∃ m' e', binary_round_aux d_prec d_emax false m e loc_Exact = d_number m' e' ∧ 0 < m' ∧ -300 <= e' ∧
    units m' e' <= units (m / 2 ^ (d - d_prec) + 1) (e + (d - d_prec)).
Proof.
  intros Hd Hle He1 He2. destruct (shr_fexp_m m e d Hd Hle) as [E2 E1]; [unfold exponent_ok, d_prec in *; lia|].
  unfold binary_round_aux. destruct (shr_fexp d_prec d_emax m e loc_Exact) as [mrs e1]. cbn [fst snd] in *.
  set (k := d - d_prec) in *. set (m1 := shr_m mrs) in *.
  assert (has_digits d_prec m1) as Hd1.
  { rewrite E1. destruct Hd as (_ & Hl & Hu). assert (0 < 2 ^ k) by (apply Z.pow_pos_nonneg; lia). split; [done|].
    split; [apply Z.div_le_lower_bound|apply Z.div_lt_upper_bound]; try done; rewrite <-Z.pow_add_r by (unfold d_prec in *; lia);
      [replace (k + (d_prec - 1)) with (d - 1) by lia|replace (k + d_prec) with d by lia]; done. }
  pose proof Hd1 as (_ & Hl1 & Hu1). assert (0 < 2 ^ (d_prec - 1)) by done.
  pose proof (round_bounds m1 (loc_of_shr_record mrs) ltac:(lia)) as Hr.
  set (r := round_nearest_even m1 (loc_of_shr_record mrs)) in *. clearbody r.
  assert (∃ j, 0 <= j <= 1 ∧ has_digits (d_prec + j) r) as (j & Hj & Hdr).
  { destruct (Z.lt_ge_cases r (2 ^ d_prec)) as [Hlt|Hge]; [exists 0|exists 1]; (split; [lia|]).
    - split; [done|]. replace (d_prec + 0) with d_prec by lia. lia.
    - split; [done|]. replace (d_prec + 1 - 1) with d_prec by lia. assert (2 ^ (d_prec + 1) = 2 * 2 ^ d_prec) as -> by done. lia. }
  destruct (shr_fexp_m r e1 (d_prec + j) Hdr) as [F2 F1]; [lia|unfold exponent_ok, d_prec in *; lia|].
  destruct (shr_fexp d_prec d_emax r e1 loc_Exact) as [mrs2 e2]. cbn [fst snd] in *.
  replace (d_prec + j - d_prec) with j in * by lia. rewrite F1.
  assert (0 < 2 ^ j) by (apply Z.pow_pos_nonneg; lia).
  assert (0 < r / 2 ^ j) as Hpos.
  { apply Z.div_str_pos. destruct Hdr as (_ & Hlr & _). split; [done|]. etrans; [|exact Hlr]. apply Z.pow_le_mono_r; unfold d_prec in *; lia. }
  exists (r / 2 ^ j), e2. split_and!; [|done|unfold d_prec in *; lia|].
  - destruct (r / 2 ^ j) as [|q|q]; [lia| |lia]. cbn [d_number].
    destruct (Z.leb_spec e2 (d_emax - d_prec)); [done|]. unfold d_emax, d_prec in *. lia.
  - unfold units. rewrite <-E1. replace (e2 + 400) with (j + (e1 + 400)) by lia. rewrite Z.pow_add_r by (unfold d_prec in *; lia).
    rewrite E2. rewrite Z.mul_assoc. apply Z.mul_le_mono_nonneg_r; [apply Z.pow_nonneg; lia|].
    pose proof (Z.mul_div_le r (2 ^ j)). lia.
Qed.

Lemma units_cut m e : 0 <= m → -400 <= e → Z.shiftr m (- e) = units m e / 2 ^ 400.
Proof.
  intros Hm He. unfold units. destruct (Z.le_gt_cases 0 e) as [Hp|Hn].
  - rewrite <-Z.shiftl_opp_r, Z.opp_involutive, Z.shiftl_mul_pow2 by done.
    rewrite Z.pow_add_r, Z.mul_assoc, Z.div_mul by done. done.
  - rewrite Z.shiftr_div_pow2 by lia. replace (2 ^ 400) with (2 ^ (- e) * 2 ^ (e + 400)).
    + by rewrite Z.div_mul_cancel_r by (apply Z.pow_nonzero; lia).
    + rewrite <-Z.pow_add_r by lia. f_equal. lia.
Qed.

(** A positive fraction below one: full mantissa, exponent at most -53. *)
Definition fraction (x : double) : bool :=
  match x with
  | S754_finite false m e => (2 ^ 52 <=? Zpos m) && (Zpos m <? 2 ^ 53) && (-100 <=? e) && (e <=? -53)
  | _ => false
  end.

(** The product of two full mantissas, the first that of a fraction. *)
Lemma product_digits mx my :
  2 ^ 52 <= mx < 2 ^ 53 → has_digits d_prec my →
  ∃ k, (k = 52 ∨ k = 53) ∧ has_digits (d_prec + k) (mx * my) ∧ (mx * my / 2 ^ k + 1) * 2 ^ k <= my * 2 ^ 53.
Proof.
  intros Hx (_ & Hl & Hu). change (d_prec - 1) with 52 in Hl. change (2 ^ d_prec) with (2 ^ 53) in Hu.
  assert (mx * my < 2 ^ 53 * my) as Hlt by nia.
  destruct (Z.lt_ge_cases (mx * my) (2 ^ 105)) as [Hs|Hb]; [exists 52|exists 53].
  - split_and!; [auto|split; [done|]; change (d_prec + 52 - 1) with 104; change (d_prec + 52) with 105; nia|].
    assert (mx * my / 2 ^ 52 < my * 2) by (apply Z.div_lt_upper_bound; lia). lia.
  - split_and!; [auto|split; [done|]; change (d_prec + 53 - 1) with 105; change (d_prec + 53) with 106; nia|].
    assert (mx * my / 2 ^ 53 < my) by (apply Z.div_lt_upper_bound; lia). lia.
Qed.

(** Scaling the integer [n] by a fraction and cutting gives an integer in
    [0 .. n]. *)
Lemma scale_cut x n :
  fraction x = true → 0 <= n <= 2 ^ 53 → ∃ i, d_to_size_t (d_times x (d_of_int n)) = Some i ∧ 0 <= i <= n.
Proof.
  intros Hx Hn. destruct x as [| | |[] mx ex]; try done. cbn [fraction] in Hx.
  apply andb_true_iff in Hx as [[[Hx1 Hx2]%andb_true_iff Hx3]%andb_true_iff Hx4].
  apply Z.leb_le in Hx1, Hx3, Hx4. apply Z.ltb_lt in Hx2.
  destruct (decide (n = 0)) as [->|Hn0]; [by exists 0|]. rewrite d_of_int_exact by lia.
  destruct (mantissa_spec n ltac:(lia)) as (Hm & He & Hv). set (ey := Z.log2 n - 52) in *.
  destruct (d_number_pos _ ey Hm) as (my & Ey & ->). rewrite Ey in *.
  destruct (product_digits (Zpos mx) (Zpos my)) as (k & Hk & Hd & Hp); [lia|done|].
  destruct (round_aux_bound (Zpos mx * Zpos my) (ex + ey) (d_prec + k) Hd) as (m' & e' & Er & Hpos & He' & Hu);
    [lia|lia|unfold d_prec; lia|].
  unfold d_times, SFmul. cbn [xorb]. rewrite Pos2Z.inj_mul, Er. destruct m' as [|m'|m']; [lia| |lia].
  cbn [d_number d_to_size_t]. rewrite units_cut by lia.
  replace (d_prec + k - d_prec) with k in Hu by lia.
  assert (units (Zpos m') e' <= n * 2 ^ 400) as Hle.
  { etrans; [exact Hu|]. unfold units. replace (ex + ey + k + 400) with (k + (ex + ey + 400)) by lia.
    rewrite Z.pow_add_r, Z.mul_assoc by lia. etrans.
    { apply Z.mul_le_mono_nonneg_r; [apply Z.pow_nonneg; lia|exact Hp]. }
    rewrite <-Z.mul_assoc, <-Z.pow_add_r by lia. replace (53 + (ex + ey + 400)) with (Z.log2 n + (ex + 401)) by lia.
    rewrite Z.pow_add_r, Z.mul_assoc, Hv, <-Z.mul_assoc, <-Z.pow_add_r by lia.
    apply Z.mul_le_mono_nonneg_l; [lia|]. apply Z.pow_le_mono_r; lia. }
  assert (0 <= units (Zpos m') e') as Hge by (unfold units; apply Z.mul_nonneg_nonneg; [lia|apply Z.pow_nonneg; lia]).
  assert (0 <= units (Zpos m') e' / 2 ^ 400 <= n) as Hi.
  { split; [by apply Z.div_pos|]. apply Z.div_le_upper_bound; lia. }
  exists (units (Zpos m') e' / 2 ^ 400). split; [|done]. destruct (Z.ltb_spec (units (Zpos m') e' / 2 ^ 400) (2 ^ 64)); [done|lia].
Qed.
