(* ===== verification/Bench.v ===== *)
(** * The benchmark programs

    [tools/bench/loadgen.cc], [tools/clusterbench/rebalance_bench.cc] and the
    statistics of [tools/bench/micro_bench.cc].  Latencies are doubles
    (Doubles.v); the random draws of the load generator, the responses it gets and
    the clock are inputs; how a double is printed is not modelled, so the reports
    are the numbers and not their text.

    The theorems: a percentile is read inside the vector and is the element of its
    rank; the load generator's counters and latencies account for every request
    however its threads interleave, and its requests stay in the keys it wrote
    first; the rebalancing benchmark counts exactly the keys the new node took
    over. *)

From stdpp Require Import base gmap numbers list sorting.
From Stdlib Require Import ZArith Lia.
From Stdlib Require Import SpecFloat.
From S2P Require Import Prelude Status Sha256 Ring Text Http Tools Doubles.

Local Open Scope Z_scope.
Local Opaque Hash64 vnode_pos.

(** ** Percentiles *)

(** The order [std::sort] establishes: no element is less than an earlier one. *)
Definition d_le (x y : double) : Prop := d_less y x = false.
#[global] Instance d_le_dec : RelDecision d_le.
Proof. intros x y. unfold d_le. apply _. Defined.

(** The index computed by [Percentile] and [PercentileMicros] for a vector of [size]
    elements; [None] where the conversion is undefined. *)
Definition percentile_index (size p : Z) : option Z :=
  d_to_size_t (d_times (d_over (d_of_int p) (d_of_int 100)) (d_minus (d_of_int size) (d_of_int 1))).

(** [Percentile] of loadgen.cc and [PercentileMicros] of micro_bench.cc; [None] for an
    access outside the vector. *)
Definition Percentile (v : list double) (p : Z) : option double :=
  match v with
  | [] => Some d_0
  | _ =>
      i ← percentile_index (Zlen v) p;
      merge_sort d_le v !! Z.to_nat i
  end.

(** ** The statistics of micro_bench *)

Record Result := mkResult {
  rs_throughput_ops : double; rs_throughput_mb : double; rs_p50 : double; rs_p95 : double; rs_p99 : double;
}.

Definition Summarize (lat_us : list double) (object_size : Z) : option Result :=
  let total_us := foldl d_plus d_0 lat_us in
  let total_s := d_over total_us (d_of_int 1000000) in
  let ops := if d_less d_0 total_s then d_over (d_of_int (Zlen lat_us)) total_s else d_0 in
  let mb := d_over (d_times ops (d_of_int object_size)) (d_times (d_of_int 1024) (d_of_int 1024)) in
  p50 ← Percentile lat_us 50;
  p95 ← Percentile lat_us 95;
  p99 ← Percentile lat_us 99;
  Some (mkResult ops mb p50 p95 p99).

(** The lambda [human]. *)
Definition human (n : Z) : bytes :=
  if 1024 * 1024 <=? n then to_string (n / (1024 * 1024)) ++ lit "MB" else to_string (n / 1024) ++ lit "KB".

(** ** The load generator *)

Fixpoint take_digits (s : bytes) : bytes :=
  match s with c :: s' => if is_digit c then c :: take_digits s' else [] | [] => [] end.

(** [std::atof], for a number without an exponent. *)
Definition atof (s : bytes) : double :=
  let '(neg, s) := sign (skip_spaces s) in
  let whole := take_digits s in
  let fraction :=
    match drop (length whole) s with c :: rest => if Zb c =? 46 then take_digits rest else [] | [] => [] end in
  let v := d_of_ratio (digits 0 (whole ++ fraction)) (10 ^ Zlen fraction) in
  if neg then SFopp v else v.

(** [struct Args] *)
Record Args := mkArgs {
  ar_gateway : bytes; ar_threads : Z; ar_duration : double; ar_size : Z; ar_read_ratio : double; ar_keyspace : Z;
}.
Definition Args_default : Args :=
  mkArgs (lit "127.0.0.1:8080") 8 (d_of_int 10) 4096 (d_of_ratio 8 10) 1000.

(** The arguments of [main] ([Value] is the loop of [ArgValue]).  The defaults of the
    two doubles are the texts [std::to_string] gives; a negative size becomes a huge
    [std::size_t]. *)
Definition loadgen_args (args : list bytes) : Args :=
  let a := Args_default in
  let int_value flag def := atoi (ArgValue args flag (to_string def)) in
  mkArgs (ArgValue args (lit "--gateway") (ar_gateway a)) (int_value (lit "--threads") (ar_threads a))
    (atof (ArgValue args (lit "--duration") (lit "10.000000")))
    (u64 (atoll (ArgValue args (lit "--size") (to_string (ar_size a)))))
    (atof (ArgValue args (lit "--read-ratio") (lit "0.800000"))) (int_value (lit "--keyspace") (ar_keyspace a)).

Definition bench_target (i : Z) : bytes := lit "/objects/bench/" ++ to_string i.

(** A request: method, target, body. *)
Notation request := (bytes * bytes * bytes)%type.

(** The pre-population of the keyspace. *)
Definition populate (a : Args) : list request :=
  (λ i, (lit "PUT", bench_target i, replicate (Z.to_nat (ar_size a)) (bZ 120))) <$> seqZ 0 (ar_keyspace a).

(** The request of a pass, given the two random draws. *)
Definition draw_request (a : Args) (key : Z) (coin : double) : request :=
  if d_less coin (ar_read_ratio a) then (lit "GET", bench_target key, [])
  else (lit "PUT", bench_target key, replicate (Z.to_nat (ar_size a)) (bZ 120)).

Definition good (r : StatusOr HttpClientResponse) : bool :=
  match r with
  | FromValue resp => (200 <=? cr_status resp) && (cr_status resp <? 300)
  | FromStatus _ => false
  end.

(** What the threads share, and the latencies of each. *)
Record Load := mkLoad { ld_ok : Z; ld_failed : Z; ld_lat : list (list double) }.

Definition Load_new (a : Args) : Load := mkLoad 0 0 (replicate (Z.to_nat (ar_threads a)) []).

(** The end of a pass of thread [t]: its response and the time it took. *)
Record Pass := mkPass { pa_thread : nat; pa_response : StatusOr HttpClientResponse; pa_latency : double }.

Definition worker_pass (s : Load) (e : Pass) : Load :=
  if good (pa_response e)
  then mkLoad (u64 (ld_ok s + 1)) (ld_failed s) (alter (λ lat, lat ++ [pa_latency e]) (pa_thread e) (ld_lat s))
  else mkLoad (ld_ok s) (u64 (ld_failed s + 1)) (ld_lat s).

(** The run: the passes of all threads in the order in which they end. *)
Definition load_run (a : Args) (passes : list Pass) : Load := foldl worker_pass (Load_new a) passes.

(** The numbers of the report; [elapsed] is in seconds. *)
Record Report := mkReport {
  re_total : Z; re_failed : Z; re_tput : double; re_mbps : double; re_p50 : double; re_p95 : double; re_p99 : double;
}.

Definition load_report (a : Args) (elapsed : double) (s : Load) : option Report :=
  let all := concat (ld_lat s) in
  let tput := if d_less d_0 elapsed then d_over (d_of_int (ld_ok s)) elapsed else d_0 in
  let mbps := d_over (d_times tput (d_of_int (ar_size a))) (d_times (d_of_int 1024) (d_of_int 1024)) in
  p50 ← Percentile all 50;
  p95 ← Percentile all 95;
  p99 ← Percentile all 99;
  Some (mkReport (ld_ok s) (ld_failed s) tput mbps p50 p95 p99).

(** ** The rebalancing benchmark *)

Definition Key (i : Z) : bytes := lit "object-key-" ++ to_string i.

Definition nodes3 : list bytes := [lit "node-a"; lit "node-b"; lit "node-c"].
Definition nodes4 : list bytes := [lit "node-a"; lit "node-b"; lit "node-c"; lit "node-d"].

(** The counts of [PrintDistribution]. *)
Definition distribution (ring : ConsistentHashRing) (num_keys : Z) : gmap bytes Z :=
  foldl (λ counts i, let n := LookupPrimary ring (Key i) in <[n := default 0 (counts !! n) + 1]> counts)
    ∅ (seqZ 0 num_keys).

(** The two counters; [hash] is [std::hash]. *)
Definition moved (hash : bytes → Z) (r3 r4 : ConsistentHashRing) (num_keys : Z) : Z * Z :=
  foldl (λ '(consistent, modulo) i,
    let k := Key i in
    let consistent := if bool_decide (LookupPrimary r3 k ≠ LookupPrimary r4 k) then consistent + 1 else consistent in
    let h := hash k in
    let modulo :=
      if bool_decide (nodes3 !! Z.to_nat (h mod 3) ≠ nodes4 !! Z.to_nat (h mod 4)) then modulo + 1 else modulo in
    (consistent, modulo)) (0, 0) (seqZ 0 num_keys).

Record Rebalance := mkRebalance { rb_distribution : gmap bytes Z; rb_consistent : Z; rb_modulo : Z }.

(** [main] of the benchmark; the arguments default to 100000 and 200. *)
Definition rebalance_main (hash : bytes → Z) (args : list bytes) : Rebalance :=
  let num_keys := match args with a :: _ => atoi a | [] => 100000 end in
  let vnodes := match args with _ :: b :: _ => atoi b | _ => 200 end in
  let r3 := foldl (λ r n, AddNode n r) (Ring_new (Z.to_nat (u64 vnodes))) nodes3 in
  let r4 := foldl (λ r n, AddNode n r) (Ring_new (Z.to_nat (u64 vnodes))) nodes4 in
  let '(consistent, modulo) := moved hash r3 r4 num_keys in
  mkRebalance (distribution r3 num_keys) consistent modulo.

(** ** Theorems: percentiles *)

Definition is_nan (x : double) : bool := match x with S754_nan => true | _ => false end.

(** The position of a double that is not a NaN on the number line, compared
    lexicographically. *)
Definition d_key (x : double) : Z * Z * Z :=
  match x with
  | S754_infinity s => (if s then -2 else 2, 0, 0)
  | S754_finite s m e => if s then (-1, - e, Zneg m) else (1, e, Zpos m)
  | _ => (0, 0, 0)
  end.

Definition key_lt (a b : Z * Z * Z) : Prop :=
  a.1.1 < b.1.1 ∨ (a.1.1 = b.1.1 ∧ (a.1.2 < b.1.2 ∨ (a.1.2 = b.1.2 ∧ a.2 < b.2))).

Lemma d_less_key x y : is_nan x = false → is_nan y = false → d_less x y = true ↔ key_lt (d_key x) (d_key y).
Proof.
  unfold d_less, SFltb, key_lt.
  destruct x as [[]|[]| |[] m e], y as [[]|[]| |[] m' e']; try done; intros _ _; cbn;
    try (split; intros; done || lia); change (Pos.compare_cont Eq m m') with (Pos.compare m m');
    (destruct (Z.compare_spec e e') as [->| |]; [|split; intros; done || lia..]);
    (destruct (Pos.compare_spec m m') as [->| |]; cbn; split; intros; done || lia).
Qed.

#[local] Instance d_le_total : Total d_le.
Proof.
  intros x y. unfold d_le. destruct (d_less y x) eqn:E1, (d_less x y) eqn:E2; auto. exfalso.
  assert (is_nan x = false ∧ is_nan y = false) as [Hx Hy].
  { destruct x as [[]|[]| |[]], y as [[]|[]| |[]]; try done. }
  apply d_less_key in E1, E2; try done. unfold key_lt in *. lia.
Qed.

Lemma d_le_trans x y z :
  is_nan x = false → is_nan y = false → is_nan z = false → d_le x y → d_le y z → d_le x z.
Proof.
  unfold d_le. intros Hx Hy Hz H1 H2. apply not_true_iff_false in H1, H2. apply not_true_iff_false.
  rewrite d_less_key in * by done. unfold key_lt in *. lia.
Qed.

Lemma Sorted_strongly {A : Type} (P : A → Prop) (R : A → A → Prop) l :
  (∀ x y z, P x → P y → P z → R x y → R y z → R x z) → Forall P l → Sorted R l → StronglySorted R l.
Proof.
  intros Htr. induction l as [|x l IH]; intros HP Hs; [constructor|].
  apply Forall_cons in HP as [Hx HP]. apply Sorted_inv in Hs as [Hs Hh]. specialize (IH HP Hs).
  constructor; [done|]. destruct l as [|y l]; [done|]. apply HdRel_inv in Hh. apply Forall_cons in HP as [Hy HP].
  apply StronglySorted_inv in IH as [_ Hl]. constructor; [done|].
  apply list.Forall_forall. intros z Hz. rewrite list.Forall_forall in Hl, HP. eapply Htr; [..|exact Hh|]; auto.
Qed.

Lemma percent_fraction p : 1 <= p <= 99 → fraction (d_over (d_of_int p) (d_of_int 100)) = true.
Proof.
  intros Hp.
  assert (forallb (λ p, fraction (d_over (d_of_int p) (d_of_int 100))) (seqZ 1 99) = true) as Hall
    by (vm_compute; reflexivity).
  rewrite forallb_forall in Hall. apply Hall, list_elem_of_In, elem_of_seqZ. lia.
Qed.

Lemma percentile_index_range size p : 0 < size <= 2 ^ 53 → 1 <= p <= 99 →
  ∃ i, percentile_index size p = Some i ∧ 0 <= i < size.
Proof.
  intros Hs Hp. assert (d_minus (d_of_int size) (d_of_int 1) = d_of_int (size - 1)) as E.
  { destruct (decide (size = 1)) as [->|]; [done|]. apply d_minus_one. lia. }
  unfold percentile_index. rewrite E. destruct (scale_cut _ (size - 1) (percent_fraction p Hp) ltac:(lia)) as (i & -> & Hi).
  exists i. split; [done|lia].
Qed.

(** In a sorted list the element at [i] has [i] elements before and the rest behind. *)
Lemma sorted_ranks l (i : nat) x :
  StronglySorted d_le l → l !! i = Some x →
  (S i <= length (filter (λ y, d_le y x) l))%nat ∧ (length l - i <= length (filter (d_le x) l))%nat.
Proof.
  intros Hs Hi. pose proof (lookup_lt_Some _ _ _ Hi) as Hlt.
  assert (d_le x x) as Hxx by (destruct (total d_le x x); done).
  rewrite <-(take_drop_middle l i x Hi) in Hs |- *.
  rewrite !filter_app, !filter_cons, !decide_True by done.
  apply StronglySorted_app in Hs as (Hbefore & Hs1 & Hs2). apply StronglySorted_inv in Hs2 as [_ Hafter].
  rewrite (filter_all (λ y, d_le y x) (take i l)).
  - rewrite (filter_all (d_le x) (drop (S i) l)); [|by apply list.Forall_forall].
    rewrite !length_app. cbn [length]. rewrite !length_take, !length_drop. lia.
  - intros y Hy. apply Hbefore; [done|apply list_elem_of_here].
Qed.

(** C38: a percentile is read inside the vector.  For a vector of latencies that is not
    empty and a whole percentage from 1 to 99, the index that [Percentile] computes in
    doubles is one of the vector's, and what it returns is the element of that rank:
    more than [index] elements are no greater, and all but [index] no less. *)
Theorem percentile_of_rank (v : list double) (p : Z) :
  v ≠ [] → Zlen v <= 2 ^ 53 → 1 <= p <= 99 → Forall (λ x, is_nan x = false) v →
  ∃ i x, percentile_index (Zlen v) p = Some i ∧ 0 <= i < Zlen v ∧ Percentile v p = Some x ∧ x ∈ v ∧
    i < Zlen (filter (λ y, d_le y x) v) ∧ Zlen v - i <= Zlen (filter (d_le x) v).
Proof.
  intros Hne Hsz Hp Hnan. assert (0 < Zlen v) as Hpos by (destruct v; [done|cbn; lia]).
  destruct (percentile_index_range (Zlen v) p ltac:(lia) Hp) as (i & Ei & Hi).
  pose proof (merge_sort_Permutation d_le v) as Hperm.
  assert (StronglySorted d_le (merge_sort d_le v)) as Hs.
  { apply (Sorted_strongly (λ x, is_nan x = false)); [by apply d_le_trans|by rewrite Hperm|].
    apply Sorted_merge_sort, _. }
  assert (Z.to_nat i < length (merge_sort d_le v))%nat as Hlt
    by (rewrite (Permutation_length Hperm); lia).
  apply lookup_lt_is_Some in Hlt as [x Hx]. destruct (sorted_ranks _ _ _ Hs Hx) as [H1 H2].
  rewrite (Permutation_length (filter_Permutation _ _ _ Hperm)) in H1.
  rewrite (Permutation_length (filter_Permutation _ _ _ Hperm)), (Permutation_length Hperm) in H2.
  exists i, x. split_and!; [done|lia|lia| | |lia..].
  - unfold Percentile. destruct v; [done|]. by rewrite Ei.
  - rewrite <-Hperm. by eapply list_elem_of_lookup_2.
Qed.

(** Five latencies; the median is the third smallest. *)
Definition demo_latencies : list double := d_of_int <$> [30; 10; 50; 20; 40].

Lemma percentile_of_rank_witness :
  ∃ i x, percentile_index (Zlen demo_latencies) 50 = Some i ∧ Percentile demo_latencies 50 = Some x ∧ x ∈ demo_latencies.
Proof.
  destruct (percentile_of_rank demo_latencies 50) as (i & x & Hi & _ & Hx & Hin & _).
  - done.
  - by vm_compute.
  - lia.
  - repeat constructor.
  - exists i, x. split_and!; assumption.
Defined.

(** For the sizes of the benchmarks' vectors the index is the exact one, rounded
    down. *)
Definition index_exact (size p : Z) : bool := bool_decide (percentile_index size p = Some (p * (size - 1) / 100)).

Example percentile_index_exact :
  forallb (λ size, index_exact size 50 && index_exact size 95 && index_exact size 99) (seqZ 1 2000) = true.
Proof. vm_compute. reflexivity. Qed.

(** The benchmark's summary is defined for every vector of latencies. *)
Lemma Summarize_total lat_us size :
  Zlen lat_us <= 2 ^ 53 → Forall (λ x, is_nan x = false) lat_us → is_Some (Summarize lat_us size).
Proof.
  intros Hsz Hnan. assert (∀ p, 1 <= p <= 99 → is_Some (Percentile lat_us p)) as Hp.
  { intros p Hp. destruct lat_us as [|x l]; [done|].
    destruct (percentile_index_range (Zlen (x :: l)) p) as (i & Ei & Hi); [cbn [length] in *; lia|done|].
    unfold Percentile. rewrite Ei. cbn [mbind option_bind]. apply lookup_lt_is_Some.
    rewrite (Permutation_length (merge_sort_Permutation _ _)).
    lia. }
  unfold Summarize. destruct (Hp 50 ltac:(lia)) as [p50 ->], (Hp 95 ltac:(lia)) as [p95 ->], (Hp 99 ltac:(lia)) as [p99 ->]. done.
Qed.

(** ** Theorems: the load generator *)

Definition goods (passes : list Pass) : list Pass := filter (λ e, good (pa_response e) = true) passes.

Lemma alter_snoc_concat {A : Type} (ls : list (list A)) t x :
  (t < length ls)%nat → concat (alter (λ l, l ++ [x]) t ls) ≡ₚ concat ls ++ [x].
Proof.
  revert t. induction ls as [|l ls IH]; intros [|t] Ht; cbn in *; try lia.
  - rewrite <-!app_assoc. apply Permutation_app_head, Permutation_app_comm.
  - rewrite <-app_assoc. apply Permutation_app_head, IH. lia.
Qed.

(** What the counters and vectors hold after some passes. *)
Record accounts (a : Args) (passes : list Pass) (s : Load) : Prop := {
  ac_ok : ld_ok s = u64 (Zlen (goods passes));
  ac_failed : ld_failed s = u64 (Zlen passes - Zlen (goods passes));
  ac_threads : length (ld_lat s) = Z.to_nat (ar_threads a);
  ac_each t : (t < Z.to_nat (ar_threads a))%nat →
    ld_lat s !! t = Some (pa_latency <$> goods (filter (λ e, pa_thread e = t) passes));
  ac_all : concat (ld_lat s) ≡ₚ pa_latency <$> goods passes;
}.

Lemma u64_inc z : u64 (u64 z + 1) = u64 (z + 1).
Proof. unfold u64. by rewrite Z.add_mod_idemp_l. Qed.

Lemma accounts_new a : accounts a [] (Load_new a).
Proof.
  split; cbn; [done|done|apply length_replicate| |].
  - intros t Ht. by apply lookup_replicate_2.
  - induction (Z.to_nat (ar_threads a)) as [|n IH]; [done|]. cbn. exact IH.
Qed.

Lemma goods_snoc passes e : goods (passes ++ [e]) = goods passes ++ (if good (pa_response e) then [e] else []).
Proof. unfold goods. rewrite filter_app, filter_cons. by destruct (good (pa_response e)). Qed.

Lemma accounts_pass a passes s e :
  accounts a passes s → (pa_thread e < Z.to_nat (ar_threads a))%nat → accounts a (passes ++ [e]) (worker_pass s e).
Proof.
  intros [Hok Hf Hl He Ha] Ht.
  assert (∀ t, goods (filter (λ e, pa_thread e = t) (passes ++ [e])) =
    goods (filter (λ e, pa_thread e = t) passes) ++
    (if decide (t = pa_thread e) then if good (pa_response e) then [e] else [] else [])) as Hg.
  { intros t. rewrite filter_app, filter_cons. destruct (decide (t = pa_thread e)) as [->|].
    - rewrite decide_True by done. apply goods_snoc.
    - rewrite decide_False by done. cbn. by rewrite !app_nil_r. }
  unfold worker_pass. split; rewrite ?goods_snoc, ?length_app; (destruct (good (pa_response e)); cbn [ld_ok ld_failed ld_lat length]).
  - rewrite Hok, u64_inc. f_equal. lia.
  - rewrite Hok. f_equal. lia.
  - rewrite Hf. f_equal. lia.
  - rewrite Hf, u64_inc. f_equal. lia.
  - by rewrite length_alter.
  - done.
  - intros t Ht'. rewrite Hg. destruct (decide (t = pa_thread e)) as [->|Hne].
    + by rewrite list_lookup_alter_eq, He, fmap_app.
    + by rewrite list_lookup_alter_ne, He, app_nil_r.
  - intros t Ht'. rewrite Hg. destruct (decide (t = pa_thread e)); by rewrite app_nil_r, He.
  - rewrite alter_snoc_concat, Ha, fmap_app by lia. done.
  - by rewrite app_nil_r.
Qed.

(** The load generator accounts for every request.  In whatever order the passes
    of its threads end, the two counters are the numbers of requests that succeeded
    and that failed (modulo 2^64), each thread's vector has the latencies of its own
    successful requests in order, and together they are those of all of them. *)
Theorem load_accounts a passes :
  Forall (λ e, (pa_thread e < Z.to_nat (ar_threads a))%nat) passes → accounts a passes (load_run a passes).
Proof.
  induction passes as [|e passes IH] using rev_ind; intros Hall; [apply accounts_new|].
  apply Forall_app in Hall as [Hall [He _]%Forall_cons]. unfold load_run. rewrite foldl_snoc.
  apply accounts_pass; auto.
Qed.

Definition demo_passes : list Pass :=
  let resp status := FromValue (mkHttpClientResponse status [] ∅) in
  [mkPass 1 (resp 201) (d_of_int 3); mkPass 0 (resp 503) (d_of_int 9); mkPass 0 (resp 200) (d_of_int 2);
   mkPass 1 (FromStatus (Unavailable (lit "connect"))) (d_of_int 1)].

Lemma load_accounts_witness :
  Forall (λ e, (pa_thread e < Z.to_nat (ar_threads Args_default))%nat) demo_passes ∧
  accounts Args_default demo_passes (load_run Args_default demo_passes).
Proof.
  assert (Forall (λ e, (pa_thread e < Z.to_nat (ar_threads Args_default))%nat) demo_passes) as H by (repeat constructor).
  split; [done|]. by apply load_accounts.
Defined.

(** Without arguments the program has the defaults of the struct. *)
Example loadgen_defaults : loadgen_args [] = Args_default.
Proof. vm_compute. reflexivity. Qed.

(** A draw from the distribution's range asks for a key that was written first. *)
Lemma draws_are_populated a key coin :
  0 <= key < ar_keyspace a → (draw_request a key coin).1.2 ∈ (λ r : request, r.1.2) <$> populate a.
Proof.
  intros Hk. apply list_elem_of_fmap. eexists (lit "PUT", bench_target key, _). split; [unfold draw_request; by case_match|].
  apply list_elem_of_fmap. exists key. split; [done|]. apply elem_of_seqZ. lia.
Qed.

(** ** Theorems: the rebalancing benchmark *)

Lemma seqZ_snoc (n : nat) : seqZ 0 (Z.of_nat (S n)) = seqZ 0 (Z.of_nat n) ++ [Z.of_nat n].
Proof. rewrite Nat2Z.inj_succ, <-Z.add_1_r, seqZ_app by lia. by rewrite Z.add_0_l. Qed.

Lemma seqZ_to_nat k : seqZ 0 k = seqZ 0 (Z.of_nat (Z.to_nat k)).
Proof. unfold seqZ. by rewrite Nat2Z.id. Qed.

Lemma distribution_counts ring (n : nat) node :
  default 0 (distribution ring (Z.of_nat n) !! node) =
  Zlen (filter (λ i, LookupPrimary ring (Key i) = node) (seqZ 0 (Z.of_nat n))).
Proof.
  unfold distribution. induction n as [|n IH]; [done|]. rewrite seqZ_snoc, foldl_snoc, filter_app, filter_cons. cbn zeta.
  case_decide as Hn.
  - rewrite Hn, lookup_insert_eq. cbn [default]. rewrite IH, length_app. cbn. lia.
  - rewrite lookup_insert_ne by done. cbn. by rewrite app_nil_r.
Qed.

Lemma moved_counts hash r3 r4 (n : nat) :
  (moved hash r3 r4 (Z.of_nat n)).1 =
  Zlen (filter (λ i, LookupPrimary r3 (Key i) ≠ LookupPrimary r4 (Key i)) (seqZ 0 (Z.of_nat n))).
Proof.
  unfold moved. induction n as [|n IH]; [done|]. rewrite seqZ_snoc, foldl_snoc, filter_app, filter_cons.
  destruct (foldl _ _ _) as [c m]. cbn [fst] in *. subst c. case_bool_decide; case_decide; try done;
    rewrite length_app; cbn; lia.
Qed.

Lemma primary_moved k l n key :
  NoDup (l ++ [n]) → n ≠ [] →
  LookupPrimary (ring_of k l) key ≠ LookupPrimary (ring_of k (l ++ [n])) key ↔
  LookupPrimary (ring_of k (l ++ [n])) key = n.
Proof.
  intros (Hnd & Hdis & _)%NoDup_app Hne. rewrite ring_of_snoc.
  assert (n ∉ chr_physical_nodes (ring_of k l)) as Hnot.
  { rewrite (proj2 (ring_of_shape k l Hnd)). intros Hin. by apply (Hdis n), list_elem_of_here. }
  split.
  - intros Hm. destruct (ring_join _ n key 1 (ring_of_inv k l) Hnot) as (_ & _ & Hp & _). by apply Hp, not_eq_sym.
  - intros -> Hold. apply Hnot. rewrite LookupPrimary_preference in Hold.
    destruct (preference (chr_ring (ring_of k l)) key) as [|m rest] eqn:E; cbn in Hold; [congruence|]. subst m.
    eapply (preference_nodes _ key); [apply ring_of_inv|]. rewrite E. apply list_elem_of_here.
Qed.

(** The rebalancing benchmark measures what it says.  The keys it counts as moved
    under consistent hashing are exactly those whose primary is the fourth node once
    that has joined, and the distribution it prints has, for each node, the number of
    its keys. *)
Theorem rebalance_counts hash args :
  let num_keys := match args with a :: _ => atoi a | [] => 100000 end in
  let vnodes := Z.to_nat (u64 (match args with _ :: b :: _ => atoi b | _ => 200 end)) in
  let rb := rebalance_main hash args in
  rb_consistent rb = Zlen (filter (λ i, LookupPrimary (ring_of vnodes nodes4) (Key i) = lit "node-d") (seqZ 0 num_keys)) ∧
  ∀ node, default 0 (rb_distribution rb !! node) =
    Zlen (filter (λ i, LookupPrimary (ring_of vnodes nodes3) (Key i) = node) (seqZ 0 num_keys)).
Proof.
  intros num_keys vnodes. cbn zeta. unfold rebalance_main. fold num_keys. fold vnodes.
  change (foldl (λ r n, AddNode n r) (Ring_new vnodes) nodes3) with (ring_of vnodes nodes3).
  change (foldl (λ r n, AddNode n r) (Ring_new vnodes) nodes4) with (ring_of vnodes nodes4).
  pose proof (moved_counts hash (ring_of vnodes nodes3) (ring_of vnodes nodes4) (Z.to_nat num_keys)) as Hm.
  pose proof (distribution_counts (ring_of vnodes nodes3) (Z.to_nat num_keys)) as Hd.
  unfold moved, distribution in *. rewrite <-seqZ_to_nat in Hm, Hd.
  destruct (foldl _ (0, 0) _) as [c m]. cbn [fst rb_consistent rb_distribution] in *. split; [|exact Hd].
  rewrite Hm. f_equal. f_equal. apply list_filter_iff. intros i.
  apply (primary_moved vnodes nodes3 (lit "node-d") (Key i)); [|done].
  apply (bool_decide_unpack _). by vm_compute.
Qed.
