(* ===== verification/ClusterDemo.v ===== *)
(** * The cluster demo

    [tools/demo/cluster_demo.cc] and the life of a storage node's server
    ([StorageNodeServer] of [storage_node_server.cc]).  The demo takes no input: it
    starts three nodes, writes and reads through the coordinator, stops a node, goes
    on without it, starts it again and repairs it.  Here it runs on the store of
    LocalObjectStore.v over the database in memory, the coordinator, the metadata
    repository and the repairer, with the ports gRPC binds as its argument and no
    failure but the one it stages; its output is the list of the lines it reports
    ([Info]), without the headings in between and the clean-up at the end.
    A [value()] of a result that is an error makes the run undefined ([None]). *)

From stdpp Require Import base gmap numbers list.
From Stdlib Require Import ZArith Lia.
From S2P Require Import Prelude Status Sha256 Posix Wal MetadataStore LocalObjectStore StoreRecovery ObjectStore.
From S2P Require Import Text Rpc StorageNode Ring ClusterMap MetadataView MetadataRepository Coordinator Repairer Tools.

Local Open Scope Z_scope.

(** ** The server of a storage node *)

(** [server_] (the address it listens on, if it runs) and [bound_port_]. *)
Record StorageNodeServer := mkStorageNodeServer { sns_server : option bytes; sns_bound_port : Z }.
Definition StorageNodeServer_new : StorageNodeServer := mkStorageNodeServer None 0.

Section server.
Context {S : Type}.
Implicit Types net : Net S.

(** The address a server started on [address] has once gRPC bound [port]. *)
Definition listening (address : bytes) (port : Z) : bytes := (SplitHostPort address 0).1 ++ lit ":" ++ to_string port.

(** [Start]; [bound] is what [BuildAndStart] came to: the port, or nothing.  The
    service answers from the store [s]. *)
Definition Server_Start (address : bytes) (bound : option Z) (s : S) (net : Net S)
    : bool * StorageNodeServer * Net S :=
  match bound with
  | None => (false, mkStorageNodeServer None 0, net)
  | Some port =>
      let at_ := listening address port in
      (negb (port =? 0), mkStorageNodeServer (Some at_) port, set_server at_ (Up s) net)
  end.

(** [Shutdown]: the store outlives the server. *)
Definition Server_Shutdown (sv : StorageNodeServer) (net : Net S) : StorageNodeServer * Net S :=
  match sns_server sv with
  | None => (sv, net)
  | Some at_ =>
      (mkStorageNodeServer None (sns_bound_port sv),
       match net_servers net !! at_ with Some sv' => set_server at_ (Down (server_state sv')) net | None => net end)
  end.

(** The store behind an address, whether its server runs or not. *)
Definition store_at (address : bytes) net : option S := server_state <$> net_servers net !! address.

(** A server that started answers with its service; after [Shutdown] every call of it
    fails and changes nothing; started again on the same port with the store it had,
    it goes on where it was. *)
Theorem server_restart {Resp} address port s net sv1 net1 (handler : S → option Resp * S) :
  0 < port → Server_Start address (Some port) s net = (true, sv1, net1) →
  let at_ := listening address port in
  let '(sv2, net2) := Server_Shutdown sv1 net1 in
  let '(ok, _, net3) := Server_Start address (Some port) s net2 in
  net_servers net1 !! at_ = Some (Up s) ∧ store_at at_ net2 = Some s ∧
  (∃ e, (stub at_ handler net2).1 = inl e) ∧ net_servers (stub at_ handler net2).2 = net_servers net2 ∧
  Server_Shutdown sv2 net2 = (sv2, net2) ∧ ok = true ∧ net_servers net3 = net_servers net1.
Proof.
  intros Hp E at_. cbn [Server_Start] in E. injection E as Hb <- <-. unfold Server_Shutdown.
  cbn [sns_server set_server net_servers]. fold at_. rewrite lookup_insert_eq. cbn [server_state Server_Start].
  fold at_. unfold store_at. cbn [set_server net_servers]. rewrite !insert_insert_eq, !lookup_insert_eq.
  assert (∀ m : Net S, net_servers m !! at_ = Some (Down s) →
    (∃ e, (stub at_ handler m).1 = inl e) ∧ net_servers (stub at_ handler m).2 = net_servers m) as Hdown.
  { intros m Hm. unfold stub. pose proof (next_fate_servers m) as Hn. destruct (next_fate m) as [f m']. cbn [snd] in Hn.
    rewrite Hn, Hm. cbn. eauto. }
  destruct (Hdown (set_server at_ (Down s) (set_server at_ (Up s) net))) as [H1 H2]; [cbn; by rewrite lookup_insert_eq|].
  split_and!; try done. rewrite H2. cbn. by rewrite insert_insert_eq.
Qed.
End server.

(** ** The demo *)

#[local] Instance cluster_store : ObjectStore (StoreProcess MemDb) := LocalStore 1.
#[local] Notation Store := (StoreProcess MemDb).

(** [value()] *)
Definition value {A} (r : StatusOr A) : option A := match r with FromValue x => Some x | FromStatus _ => None end.

(** The store of a node, opened in a directory that was just removed. *)
Definition open_store (dir : path) : option Store :=
  match LocalObjectStore.Open dir (mkWorld ∅ (mkMemDb ∅ 0 []) [] []) with
  | (Some (FromValue st), w) => Some (mkStoreProcess st w)
  | _ => None
  end.

Definition demo_dir (id : bytes) : path := [lit "tmp"; lit "dos-cluster-demo"; id].

(** [struct Node]; its store is the one behind its address. *)
Record Node := mkNode { nd_id : bytes; nd_server : StorageNodeServer; nd_address : bytes }.

Record Demo := mkDemo {
  dm_nodes : list Node;
  dm_metadata : MetadataRepository;
  dm_clients : gmap bytes StorageNodeClient;
  dm_net : Net Store;
  dm_lines : list bytes;
}.

(** The body of the loop that starts the nodes. *)
Definition start_node (d : Demo) (node : bytes * Z) : option Demo :=
  let '(id, port) := node in
  s ← open_store (demo_dir id);
  let '(_, server, net) := Server_Start (lit "127.0.0.1:0") (Some port) s (dm_net d) in
  let address := lit "127.0.0.1:" ++ to_string (sns_bound_port server) in
  Some (mkDemo (dm_nodes d ++ [mkNode id server address])
          (MetadataRepository.AddNode (NodeInfo_at id address) (dm_metadata d))
          (<[id := mkStorageNodeClient address]> (dm_clients d)) net
          (dm_lines d ++ [id ++ lit " listening on " ++ address])).

Fixpoint start_nodes (nodes : list (bytes * Z)) (d : Demo) : option Demo :=
  match nodes with
  | [] => Some d
  | n :: rest => d ← start_node d n; start_nodes rest d
  end.

Definition sunset : bytes := lit "photos/sunset.jpg".
Definition app_log : bytes := lit "logs/app.log".

(** [Head] on the store of a node. *)
Definition has_object (address key : bytes) (net : Net Store) : option bool :=
  s ← store_at address net;
  r ← (os_Head key s).1;
  Some (so_ok r).

(** The loop that waits for a node that was started again: at most 40 calls of
    [Health]. *)
Fixpoint wait_healthy (tries : nat) (c : StorageNodeClient) (net : Net Store) : Net Store :=
  match tries with
  | O => net
  | S tries => let '(h, net) := Client_Health c net in if so_ok h then net else wait_healthy tries c net
  end.

(** [main]: [virtual_nodes] is 150 in the program, [ports] are those the three servers
    get, [order] the order in which the tasks of a write run. *)
Definition cluster_demo (virtual_nodes : nat) (ports : list Z) (order : list nat) : option (list bytes) :=
  d ← start_nodes (zip [lit "node-a"; lit "node-b"; lit "node-c"] ports)
        (mkDemo [] (MetadataRepository_new virtual_nodes) ∅ (mkNet ∅ []) []);
  node_c ← dm_nodes d !! 2%nat;
  let co := Coordinator_new (dm_metadata d) (dm_clients d) Options_default (dm_net d) in
  let '(put, co) := Coordinator.Put order sunset (lit "<3.2 MB of pixels>") co in
  put ← value put;
  let '(got, co) := Coordinator.Get sunset co in
  got ← value got;
  let '(server, net) := Server_Shutdown (nd_server node_c) (co_net co) in
  let '(after, co) := Coordinator.Get sunset (set_net net co) in
  after ← value after;
  let '(put2, co) := Coordinator.Put order app_log (lit "request_id=42 status=200") co in
  store_c ← store_at (nd_address node_c) (co_net co);
  let '(_, server, net) := Server_Start (nd_address node_c) (Some (sns_bound_port server)) store_c (co_net co) in
  client_c ← dm_clients d !! lit "node-c";
  let net := wait_healthy 40 client_c net in
  let '(report, re) := RepairNode (lit "node-c") (mkRepairer (co_metadata co) (dm_clients d) 3 net) in
  report ← value report;
  has_sunset ← has_object (nd_address node_c) sunset (re_net re);
  has_log ← has_object (nd_address node_c) app_log (re_net re);
  Some (dm_lines d ++
    [lit "committed version " ++ to_string (om_version put) ++ lit ", replicated to all 3 nodes";
     lit "returned: " ++ [quote] ++ got ++ [quote] ++ lit "  (checksum verified)";
     lit "node-c is DOWN";
     lit "returned: " ++ [quote] ++ after ++ [quote] ++ lit "  ✓ read survived the failure (served from a replica)";
     match put2 with
     | FromValue _ => lit "committed via quorum (2/3 acks); node-c now lagging"
     | FromStatus s => lit "FAILED: " ++ ToString s
     end;
     lit "node-c is UP again — but it missed logs/app.log while it was gone";
     lit "copied " ++ to_string (Z.of_nat (rp_copied report)) ++ lit ", already current " ++
       to_string (Z.of_nat (rp_already_current report)) ++ lit ", failed " ++ to_string (Z.of_nat (rp_failed report));
     lit "node-c has photos/sunset.jpg: " ++ (if has_sunset : bool then lit "yes" else lit "no");
     lit "node-c has logs/app.log:     " ++ (if has_log : bool then lit "yes  ✓ redundancy restored" else lit "no")]).

(** The transcript on ports 9001 to 9003: the read survives the failure of a node, the
    write commits on the other two, and the repair copies to the node exactly the
    object it missed. *)
Theorem cluster_demo_transcript :
  cluster_demo 2 [9001; 9002; 9003] [2; 0; 1]%nat = Some
    [lit "node-a listening on 127.0.0.1:9001"; lit "node-b listening on 127.0.0.1:9002";
     lit "node-c listening on 127.0.0.1:9003";
     lit "committed version 1, replicated to all 3 nodes";
     lit "returned: " ++ [quote] ++ lit "<3.2 MB of pixels>" ++ [quote] ++ lit "  (checksum verified)";
     lit "node-c is DOWN";
     lit "returned: " ++ [quote] ++ lit "<3.2 MB of pixels>" ++ [quote] ++
       lit "  ✓ read survived the failure (served from a replica)";
     lit "committed via quorum (2/3 acks); node-c now lagging";
     lit "node-c is UP again — but it missed logs/app.log while it was gone";
     lit "copied 1, already current 1, failed 0";
     lit "node-c has photos/sunset.jpg: yes";
     lit "node-c has logs/app.log:     yes  ✓ redundancy restored"].
Proof. vm_compute. reflexivity. Qed.
